(* ===== verification/_CoqProject ===== *)
-Q . S2P
prelude.v
sequence.v
sequence_buffer.v
network_address.v
int_buffer.v
header.v
send_result.v
tachyon_socket.v
unreliable_sender.v
trace_os.v
nack.v
leb128.v
byte_buffer_pool.v
send_buffer_manager.v
receiver.v
receiver_spec.v
receiver_delivery.v
receiver_typed.v
receiver_refinement.v
receiver_histories.v
receiver_nacks.v
fragmentation.v
channel.v
connection.v
tachyon_state.v
connection_impl.v
tachyon.v
channel_typed.v
connection_invariants.v
tachyon_typed.v
channel_sending.v
channel_receiving.v
channel_recovery.v
tachyon_admission.v
tachyon_sending.v
tachyon_delivery.v
tachyon_unordered.v
tachyon_conversation.v
tachyon_short.v
channel_fragments.v
tachyon_fragments.v
tachyon_recovery.v
channel_examples.v
pool_state.v
pool_receive.v
receive_lengths.v
tachyon_session.v
tachyon_examples.v
pool_unreliable_sender.v
tachyon_evolution.v
pool_tasks.v
pool_sinks.v
pool_serving.v
pool_blocking.v
pool_routing.v
pool_sender_routing.v
pool_histories.v
pool_examples.v
foreign.v
memory_block.v
ffi.v
pool_ffi.v
foreign_logic.v
foreign_calls.v
foreign_safety.v
foreign_examples.v
