(* ===== verification/prelude.v ===== *)
(** Verification of tachyon-networking, a reliable UDP library for games.

    * The program

    A [Tachyon] ([src/tachyon.rs]) is one UDP socket with the connections on it:
    a client connects to one server, a server takes datagrams from anyone.  Each
    connection has channels; a channel delivers messages reliably, in order or as
    they come.  Every reliable message has a 16-bit sequence that wraps.  The
    receiving side keeps a window of sequences, names the missing ones in nacks,
    and publishes what is complete; the sending side keeps the last 1024 messages
    and resends those that a nack names.  Messages of 1200 bytes or more travel as
    fragments, which are reliable messages of their own.  Unreliable messages pass
    by the channels.  A server can require that a peer links an identity before it
    is listened to.  A [Pool] is several servers that receive on the threads of a
    thread pool.  Clients in other languages call all this through a foreign
    interface of raw pointers.

    * The files

    The root, this file, has what all others use: machine integers as [Z] with
    their casts, the [outcome] monad whose [Panic] is a Rust panic, slices and
    vectors with their bounds checks, record update, and the interface to hash
    maps.  Then, in the order of [_CoqProject], one file per source file, with a
    [Module] named like the Rust type and definitions named like its functions:

    - [sequence.v] (sequence.rs), [sequence_buffer.v] (sequence_buffer.rs),
      [network_address.v] (network_address.rs), [int_buffer.v] (int_buffer.rs),
      [header.v] (header.rs), [nack.v] (nack.rs): data and codecs.  [leb128.v] is a
      concrete variable-length encoding that shows that what [nack.v] assumes of
      the [varuint] crate can hold.
    - [byte_buffer_pool.v] (byte_buffer_pool.rs), [send_buffer_manager.v]
      (send_buffer_manager.rs), [receiver.v] (receiver.rs), [fragmentation.v]
      (fragmentation.rs), [channel.v] (channel.rs): one channel.
    - [send_result.v] (tachyon.rs), [tachyon_socket.v] (tachyon_socket.rs),
      [unreliable_sender.v] (unreliable_sender.rs), [connection.v] (connection.rs,
      receive_result.rs), [tachyon_state.v] and [tachyon.v] (tachyon.rs),
      [connection_impl.v] (connection_impl.rs): one [Tachyon].  [trace_os.v] is a
      concrete operating system for the examples.
    - [pool_state.v] and [pool_receive.v] (pool.rs, pool_ffi.rs),
      [pool_unreliable_sender.v] (pool_unreliable_sender.rs): the pool.
    - [foreign.v] is the memory that pointers lead to; on it [memory_block.v]
      (memory_block.rs), [ffi.v] (ffi.rs) and [pool_ffi.v] (pool_ffi.rs and the
      foreign functions of pool_unreliable_sender.rs).

    The theorems about the simple components are in their own files.  The larger
    ones have files of theorems that build on each other:

    - the receiver: [receiver_spec.v] is an abstract receiver on unbounded message
      indices, without buffers and without wrap-around; [receiver_delivery.v] is
      what it delivers; [receiver_refinement.v] relates the receiver of the source
      to it step by step; [receiver_histories.v] has the theorems over whole
      histories; [receiver_nacks.v] those about nacks; [receiver_typed.v] says
      what is well formed in a receiver whatever arrives.
    - the channel: [channel_sending.v] is what goes on the wire,
      [channel_receiving.v] what the application reads, [channel_recovery.v] the
      two ends together when messages are lost, [channel_fragments.v] the two ends
      of a message that travels in fragments; [channel_typed.v] says what is well
      formed in a channel; [channel_examples.v].
    - the [Tachyon]: [connection_invariants.v] is who is connected and linked,
      [tachyon_admission.v] which datagrams are let through, [tachyon_sending.v]
      what is sent, [tachyon_delivery.v] the way of a message from the socket to
      the application, on ordered channels, and [tachyon_unordered.v] on both kinds;
      [tachyon_conversation.v] is the way from the send of a client to the read of
      a server, [tachyon_fragments.v] the same for a message in fragments,
      [tachyon_recovery.v] for messages that are lost on it, and [tachyon_session.v]
      for a conversation of any length; [tachyon_typed.v] has what no datagram can
      break, and [tachyon_short.v] one that can; [tachyon_examples.v].
    - the pool: [tachyon_evolution.v] (what every operation keeps of a server),
      [pool_tasks.v] (the invariant of the interleaved tasks and their termination),
      [pool_sinks.v], [pool_serving.v] (receive and finish_receive),
      [pool_blocking.v] (out buffers), [pool_routing.v] (which server sends),
      [pool_sender_routing.v] (the same for the unreliable sender of a pool),
      [pool_histories.v] (the invariant over all operations); [pool_examples.v].
    - the foreign interface: [receive_lengths.v] (what receives do not change),
      [foreign_logic.v] (a logic of kinds of cells and of what is written),
      [foreign_calls.v] (the protocol that clients keep), [foreign_safety.v];
      [foreign_examples.v].

    * What the theorems show

    - Delivery: the application of a server reads the messages of an ordered
      channel in order, each once, up to the first that is missing, whatever the
      network reorders, repeats or loses while it does not overrun the window
      ([tachyon_delivery.application_gets_messages_in_order]); these are the bytes
      that the client sent, and on an unordered channel each is read once, as it
      comes ([tachyon_conversation.what_a_client_sends_is_read]).
      What is missing is asked for, resent and then delivered, between two channels
      ([channel_recovery.lost_messages_are_recovered]) and, through the sockets and
      the [update] of both ends, between a client and a server
      ([tachyon_recovery.lost_messages_are_read]).  A conversation of any number of
      batches of small messages and of messages in fragments is read as it was
      sent, across every wrap of the sequences
      ([tachyon_session.conversations_are_read]).  They rest on the
      refinement of the receiver ([receiver_histories.receiver_implements_spec]),
      which gives the delivery theorems of ordered and unordered channels across
      the wrap of the sequences, and on the nacks, which name what is missing.
      A message that is cut into fragments is read whole, and once unless its
      fragments arrive again after that
      ([channel_fragments.fragmented_message_is_delivered] for the channels,
      [tachyon_fragments.what_a_client_sends_in_fragments_is_read] from socket to
      application).
    - Types: whatever its bytes are and whoever sends it, a datagram that is as
      long as its header does not stop a [Tachyon] and leaves every channel well
      formed ([tachyon_typed.datagrams_are_survived]), and neither does reading
      while the application's buffer is long enough; nack messages that cannot be
      decoded are the exception, and shorter datagrams do stop it
      ([tachyon_short.short_datagram_panics]).
    - Sending: messages leave whole and are kept for resends, resends are what was
      sent, large messages leave as fragments that assemble again, what is refused
      changes nothing.
    - Wire formats: headers, addresses, nacks and length-prefixed messages are read
      back as they were written.
    - Peers: a server's connections and identities keep an invariant over all
      histories, and a peer that is not linked is not listened to, but for link and
      unlink requests, which a datagram of no bytes can repeat
      ([tachyon_admission.v]).
    - The pool: over every history of calls, where nothing comes between a receive
      and its [finish_receive], no server is lost and the pool stays fit for the next ([pool_histories.pool_loses_no_server], which gives the
      hypotheses of the others about the pool); the tasks of a receive end and,
      however they interleave, give every server one turn and lose no server and no
      message; targets are reached through the server that is connected with them,
      also by the pool's unreliable sender.
    - The foreign interface: a client that keeps to the protocol never makes a call
      undefined, a call writes only where it was told to, handles do not share
      state, receiving through pointers is receiving, and a block of memory lives
      once ([foreign_safety.v]).
    - Where the code does not do what it means to, the theorem states what it does
      (nacks that are not written, resends that are padded, fragments that are
      delivered again, datagrams that panic, identities that go stale, a server
      that is lost, an out buffer without its length, sequences that are delivered
      in the place of others).

    * Conventions and bounds

    An integer of the source is a [Z]; casts and arithmetic that can wrap are
    written with [as_u8], [as_u16], [as_u32], [as_i32], [as_u64], the release
    profile's wrap-around.  Counters are [u64] and wrap.  A slice access outside its bounds,
    an [unwrap] of nothing, a division by zero and an allocation that is too large
    are [Panic]s, and theorems say when they do not happen.

    The bounds of loops are those of the source: [receive_loop] makes 100 attempts,
    [receive_published] 1000, [Receiver.publish] and [create_nacks] as many as the
    window has, [receive_server] 100000.  Each is a [nat] on which the loop
    recurses, so none can run out of fuel before the source does.

    Sequences are compared modulo 2^16; a theorem about a history has the
    hypothesis that packets come within reach of the window ([within_reach],
    [on_time]), which an index-based specification makes precise: windows of up to
    31000 for the refinement and what follows from it alone, and of up to 1022, as
    the receive buffer has 1024 slots, where everything must be delivered; nacks
    of windows of up to 1984 fit their datagram of 512 bytes.  The default window
    is 512.

    The clock is read once per operation and is an argument, in milliseconds.  The
    operating system is an abstract world that each system call takes and returns
    ([tachyon_socket.Os]); callbacks act on it ([tachyon_state.Callbacks]).  The
    variable-length integers of the [varuint] crate, the iteration order of hash
    maps, the queues of [crossbeam], the countdown of [synchronoise] and the
    allocator are parameters with their documented laws, each with an instance that
    satisfies them.  The mutable static [NONE_SEND_DATA] is passed as state.

    A task of the pool takes one step per operation on what it shares with others
    and per call of [receive_loop]; what one such call does is not interleaved
    with other servers, which use other sockets.  [receive] and [finish_receive] go
    together, as the source asks: no other call on the pool comes between them (one
    that creates a server under the id of a server that is with the tasks would
    lose the new one), so the counter that the tasks decrement is the pool's.

    * Not modelled

    [Display] instances only format; tests and [tachyon_test.rs] are test code;
    [lib.rs] has declarations.  The threads of [rayon] are any interleaving of
    steps; its panics end the program.  In the foreign interface the alignment of
    pointers, pointers into the middle of an allocation, structs that the client
    did not initialise, what dropping a box does to its socket, callbacks that call
    back into the library, and races between threads of the client are not
    modelled; while a blocking receive runs, no other receive does.

    The theorems from a client's sends to a server's reads follow one channel of
    one connection: nothing is published on the others meanwhile.  Batches of a
    conversation are not on the wire together, as a batch is read before the next
    is sent, and within a batch nothing is lost or repeated: what happens then is
    stated for small messages by the theorem on recovery.  Recovery is for gaps
    within window/32 of the newest message, which one message of nacks is certain
    to name, as [create_nacks] makes window/32 steps. *)

From stdpp Require Export base numbers list gmap sorting.
From Stdlib Require Export ZArith Lia.

Declare Scope tachyon_scope.
Delimit Scope tachyon_scope with tachyon.
#[global] Open Scope Z_scope.
#[global] Open Scope tachyon_scope.

(** ** Machine integers

    A [w]-bit unsigned integer is a [Z]; a cast [v as uW] and the wrapping
    arithmetic of the release profile are [wrap w]. *)

Definition wrap (w v : Z) : Z := v mod 2 ^ w.

Definition as_u8 (v : Z) : Z := wrap 8 v.
Definition as_u16 (v : Z) : Z := wrap 16 v.
Definition as_u32 (v : Z) : Z := wrap 32 v.
Definition as_u64 (v : Z) : Z := wrap 64 v.
(** Two's complement. *)
Definition as_i32 (v : Z) : Z := (v + 2 ^ 31) mod 2 ^ 32 - 2 ^ 31.

Definition usize_sub (a b : Z) : Z := wrap 64 (a - b).

Definition isize_max : Z := 2 ^ 63 - 1.
Definition u16_max : Z := 65535.

Abbreviation is_u8 v := (0 ≤ v < 256).
Abbreviation is_u16 v := (0 ≤ v < 65536).
Abbreviation is_u32 v := (0 ≤ v < 4294967296).

(** [option.is_some()] *)
Definition opt_is_some {A} (o : option A) : bool := match o with Some _ => true | None => false end.

(** The length of a Rust slice or [Vec], a [usize]. *)
Abbreviation len l := (Z.of_nat (length l)).

Abbreviation bytes := (list Z).

(** ** Record update: [r <| field := v |>] *)

Class Eta (R : Type) := eta : R → R.

Class Setter {R E : Type} (proj : R → E) := set : (E → E) → R → R.
Arguments set {R E} proj {_} _ _ /.

(** Instances are only those that are derived below. *)
#[export] Typeclasses Opaque Eta Setter.

Ltac derive_setter :=
  match goal with
  | |- @Setter ?R ?E ?proj =>
      let inst := constr:(_ : Eta R) in
      let body := eval red in inst in
      match eval pattern proj in body with
      | ?mk _ => exact (λ (f : E → E) (r : R), mk (λ x, f (proj x)) r)
      end
  end.

#[export] Hint Extern 1 (Setter _) => derive_setter : typeclass_instances.

Notation "r <| f := v |>" := (set f (λ _, v) r)
  (at level 1, f at next level, left associativity,
   format "r  <| f  :=  v |>") : tachyon_scope.

(** ** The outcome of Rust code

    Every operation that can panic returns an [outcome]: the value it returns
    or the reason it panicked.  A panic ends the computation. *)

Inductive panic :=
| IndexOutOfBounds
| SliceOutOfRange
| CopyLengthMismatch
| DivideByZero
| CapacityOverflow
| UnwrapOnNone.

#[export] Instance panic_eq_dec : EqDecision panic.
Proof. solve_decision. Defined.

Inductive outcome (A : Type) :=
| Ret (a : A)
| Panic (why : panic).
Arguments Ret {A} a.
Arguments Panic {A} why.

#[export] Instance outcome_ret : MRet outcome := @Ret.
#[export] Instance outcome_bind : MBind outcome := λ A B f m,
  match m with
  | Ret a => f a
  | Panic why => Panic why
  end.
#[export] Instance outcome_fmap : FMap outcome := λ A B f m,
  match m with
  | Ret a => Ret (f a)
  | Panic why => Panic why
  end.

(** Rust's [Result], a value of the program and not a panic. *)
Inductive Result (A E : Type) :=
| ROk (a : A)
| RErr (e : E).
Arguments ROk {A E} a.
Arguments RErr {A E} e.

Definition returns {A} (m : outcome A) : Prop := ∃ a, m = Ret a.

Section outcome.
Context {A B : Type}.
Implicit Types (m : outcome A) (k : A → outcome B).

Lemma bind_ret_l (a : A) k : (Ret a ≫= k) = k a.
Proof. done. Qed.

Lemma bind_Ret m k b : m ≫= k = Ret b → ∃ a, m = Ret a ∧ k a = Ret b.
Proof. destruct m; simpl; [eauto | discriminate]. Qed.

Lemma bind_returns m k :
  returns m → (∀ a, m = Ret a → returns (k a)) → returns (m ≫= k).
Proof. intros [a ->] H. simpl. by apply H. Qed.
End outcome.

Lemma bind_assoc {A B C} (m : outcome A) (f : A → outcome B) (g : B → outcome C) :
  (m ≫= f) ≫= g = m ≫= (λ a, f a ≫= g).
Proof. by destruct m. Qed.

(** A loop that threads a state through the elements of a list. *)
Fixpoint foldl_m {S A} (f : S → A → outcome S) (s : S) (l : list A) : outcome S :=
  match l with
  | [] => Ret s
  | a :: l' => s' ← f s a; foldl_m f s' l'
  end.

Lemma foldl_m_app {S A} (f : S → A → outcome S) s l1 l2 :
  foldl_m f s (l1 ++ l2) = s' ← foldl_m f s l1; foldl_m f s' l2.
Proof.
  revert s. induction l1 as [|a l1 IH]; intros s; [done|].
  simpl. rewrite bind_assoc. destruct (f s a); simpl; [apply IH | done].
Qed.

(** Invariants of such a loop: [P k s] holds of the state after [k] elements. *)
Lemma foldl_m_ind {S A} (f : S → A → outcome S) (P : nat → S → Prop) (l : list A) s :
  P 0%nat s →
  (∀ k a s, l !! k = Some a → P k s → ∃ s', f s a = Ret s' ∧ P (Datatypes.S k) s') →
  ∃ s', foldl_m f s l = Ret s' ∧ P (length l) s'.
Proof.
  revert P s. induction l as [|a l IH]; intros P s H0 Hstep; [by exists s|].
  destruct (Hstep 0%nat a s eq_refl H0) as (s' & Hf & Hs'). simpl. rewrite Hf. simpl.
  apply (IH (λ k, P (Datatypes.S k)) s' Hs').
  intros k b t Hk. by apply (Hstep (Datatypes.S k) b t).
Qed.

Lemma foldl_m_ext {S A} (f g : S → A → outcome S) s l :
  (∀ s a, f s a = g s a) → foldl_m f s l = foldl_m g s l.
Proof.
  intros Hfg. revert s. induction l as [|a l IH]; intros s; [done|].
  simpl. rewrite Hfg. destruct (g s a); simpl; [apply IH | done].
Qed.

(** Break every [m ≫= k = Ret b] of the context into its steps. *)
Ltac inv_bind :=
  repeat match goal with
  | H : (_ ≫= _) = Ret _ |- _ =>
      let a := fresh "a" in let Ha := fresh "H" in
      apply bind_Ret in H as (a & Ha & H)
  | H : Ret _ = Ret _ |- _ => injection H as H
  | H : Panic _ = Ret _ |- _ => discriminate H
  end.

(** ** Slices and vectors *)

Section slices.
Context {A : Type}.
Implicit Types (l src : list A) (i lo hi : Z).

(** [l[i]] *)
Definition get_at l i : outcome A :=
  if 0 <=? i then
    match l !! Z.to_nat i with
    | Some x => Ret x
    | None => Panic IndexOutOfBounds
    end
  else Panic IndexOutOfBounds.

(** [l[i] = x] *)
Definition set_at l i (x : A) : outcome (list A) :=
  if (0 <=? i) && (i <? len l) then Ret (<[Z.to_nat i := x]> l)
  else Panic IndexOutOfBounds.

(** [&l[lo..hi]] *)
Definition slice l lo hi : outcome (list A) :=
  if (0 <=? lo) && (lo <=? hi) && (hi <=? len l)
  then Ret (take (Z.to_nat (hi - lo)) (drop (Z.to_nat lo) l))
  else Panic SliceOutOfRange.

(** [src] written over [l] from position [i] on. *)
Definition splice (i : nat) src l : list A :=
  take i l ++ src ++ drop (i + length src) l.

(** [l[lo..hi].copy_from_slice(src)] *)
Definition copy_from_slice l lo hi src : outcome (list A) :=
  if (0 <=? lo) && (lo <=? hi) && (hi <=? len l) then
    if hi - lo =? len src then Ret (splice (Z.to_nat lo) src l)
    else Panic CopyLengthMismatch
  else Panic SliceOutOfRange.
End slices.

(** [vec![0; n]] *)
Definition vec_zeroed (n : Z) : outcome bytes :=
  if n <=? isize_max then Ret (replicate (Z.to_nat n) 0) else Panic CapacityOverflow.

(** ** Lemmas on slices *)

Section slice_lemmas.
Context {A : Type}.
Implicit Types (l src d : list A) (i lo hi : Z).

Lemma get_at_Ret l i x : get_at l i = Ret x ↔ 0 ≤ i ∧ l !! Z.to_nat i = Some x.
Proof.
  unfold get_at. destruct (Z.leb_spec 0 i); [|naive_solver lia].
  destruct (l !! Z.to_nat i); naive_solver.
Qed.

Lemma get_at_lookup l (k : nat) x : l !! k = Some x → get_at l (Z.of_nat k) = Ret x.
Proof. intros H. apply get_at_Ret. rewrite Nat2Z.id. split; [lia | done]. Qed.

Lemma get_at_returns l i : 0 ≤ i < len l → returns (get_at l i).
Proof.
  intros Hi. destruct (lookup_lt_is_Some_2 l (Z.to_nat i)) as [x Hx]; [lia|].
  exists x. apply get_at_Ret. split; [lia | done].
Qed.

Lemma set_at_in_bounds l i x : 0 ≤ i < len l → set_at l i x = Ret (<[Z.to_nat i := x]> l).
Proof.
  intros. unfold set_at.
  destruct (Z.leb_spec 0 i), (Z.ltb_spec i (len l)); simpl; (done || lia).
Qed.

Lemma set_at_Ret l i x l' :
  set_at l i x = Ret l' → 0 ≤ i < len l ∧ l' = <[Z.to_nat i := x]> l.
Proof.
  unfold set_at. destruct (Z.leb_spec 0 i), (Z.ltb_spec i (len l)); simpl; naive_solver.
Qed.

Lemma slice_in_bounds l lo hi :
  0 ≤ lo ≤ hi → hi ≤ len l → slice l lo hi = Ret (take (Z.to_nat (hi - lo)) (drop (Z.to_nat lo) l)).
Proof.
  intros. unfold slice.
  destruct (Z.leb_spec 0 lo), (Z.leb_spec lo hi), (Z.leb_spec hi (len l)); simpl; (done || lia).
Qed.

Lemma slice_full l : slice l 0 (len l) = Ret l.
Proof.
  rewrite slice_in_bounds by lia. rewrite Z.sub_0_r, Nat2Z.id, drop_0, firstn_all. done.
Qed.

Lemma slice_prefix l n : 0 ≤ n ≤ len l → slice l 0 n = Ret (take (Z.to_nat n) l).
Proof. intros. rewrite slice_in_bounds by lia. by rewrite Z.sub_0_r, drop_0. Qed.

Lemma slice_Ret l lo hi s :
  slice l lo hi = Ret s →
  0 ≤ lo ≤ hi ∧ hi ≤ len l ∧ s = take (Z.to_nat (hi - lo)) (drop (Z.to_nat lo) l).
Proof.
  unfold slice.
  destruct (Z.leb_spec 0 lo), (Z.leb_spec lo hi), (Z.leb_spec hi (len l)); simpl; naive_solver.
Qed.

Lemma length_slice l lo hi s : slice l lo hi = Ret s → len s = hi - lo.
Proof. intros (?&?&->)%slice_Ret. rewrite length_take, length_drop. lia. Qed.

Lemma copy_in_bounds l lo hi src :
  0 ≤ lo ≤ hi → hi ≤ len l → hi - lo = len src →
  copy_from_slice l lo hi src = Ret (splice (Z.to_nat lo) src l).
Proof.
  intros. unfold copy_from_slice.
  destruct (Z.leb_spec 0 lo), (Z.leb_spec lo hi), (Z.leb_spec hi (len l)),
    (Z.eqb_spec (hi - lo) (len src)); simpl; (done || lia).
Qed.

(** *** Writing over a stretch of a buffer *)

Lemma length_splice k src d :
  (k + length src ≤ length d)%nat → length (splice k src d) = length d.
Proof.
  intros. unfold splice. rewrite !length_app, length_take, length_drop. lia.
Qed.

Lemma splice_app k src1 src2 d :
  (k + length src1 + length src2 ≤ length d)%nat →
  splice (k + length src1) src2 (splice k src1 d) = splice k (src1 ++ src2) d.
Proof.
  intros. unfold splice. rewrite length_app.
  rewrite (app_assoc (take k d) src1), take_app_length'
    by (rewrite length_app, length_take; lia).
  rewrite <-!app_assoc. do 3 f_equal.
  rewrite (app_assoc (take k d) src1), drop_app.
  rewrite drop_ge by (rewrite length_app, length_take; lia). simpl.
  rewrite drop_drop. f_equal. rewrite length_app, length_take. lia.
Qed.

Lemma splice_1 k x d : (k < length d)%nat → splice k [x] d = <[k := x]> d.
Proof.
  intros. unfold splice. simpl. rewrite insert_take_drop by done.
  by rewrite Nat.add_1_r.
Qed.

Lemma splice_before k src d j : (j ≤ k ≤ length d)%nat → take j (splice k src d) = take j d.
Proof.
  intros. unfold splice. rewrite take_app_le by (rewrite length_take; lia).
  rewrite take_take. f_equal. lia.
Qed.

Lemma splice_after k src d j :
  (k + length src ≤ j)%nat → (k + length src ≤ length d)%nat →
  drop j (splice k src d) = drop j d.
Proof.
  intros. unfold splice. rewrite app_assoc.
  rewrite drop_app, (drop_ge (take k d ++ src)) by (rewrite length_app, length_take; lia).
  simpl. rewrite drop_drop. f_equal. rewrite length_app, length_take. lia.
Qed.

Lemma splice_here k src d :
  (k ≤ length d)%nat → take (length src) (drop k (splice k src d)) = src.
Proof.
  intros. unfold splice.
  rewrite drop_app_length' by (rewrite length_take; lia).
  by rewrite take_app_length.
Qed.

Lemma drop_splice k src d :
  (k ≤ length d)%nat → drop k (splice k src d) = src ++ drop (k + length src) d.
Proof.
  intros. unfold splice. by rewrite drop_app_length' by (rewrite length_take; lia).
Qed.

Lemma splice_0 src d : splice 0 src d = src ++ drop (length src) d.
Proof. done. Qed.

Lemma splice_nil k d : splice k [] d = d.
Proof. unfold splice. simpl. by rewrite Nat.add_0_r, take_drop. Qed.
End slice_lemmas.

(** ** Machine integer lemmas *)

Lemma wrap_small w v : 0 ≤ v < 2 ^ w → wrap w v = v.
Proof. apply Z.mod_small. Qed.

Lemma wrap_range w v : 0 ≤ w → 0 ≤ wrap w v < 2 ^ w.
Proof. intros. apply Z.mod_pos_bound. by apply Z.pow_pos_nonneg. Qed.

Lemma as_u8_small v : is_u8 v → as_u8 v = v.
Proof. intros. apply wrap_small. lia. Qed.
Lemma as_i32_small v : - 2 ^ 31 ≤ v < 2 ^ 31 → as_i32 v = v.
Proof. intros Hv. unfold as_i32. rewrite Z.mod_small; lia. Qed.

Lemma as_u16_small v : is_u16 v → as_u16 v = v.
Proof. intros. apply wrap_small. lia. Qed.
Lemma as_u32_small v : is_u32 v → as_u32 v = v.
Proof. intros. apply wrap_small. lia. Qed.
Lemma as_u8_range v : is_u8 (as_u8 v).
Proof. by apply (wrap_range 8). Qed.
Lemma as_u16_range v : is_u16 (as_u16 v).
Proof. by apply (wrap_range 16). Qed.
Lemma as_u32_range v : is_u32 (as_u32 v).
Proof. by apply (wrap_range 32). Qed.

Lemma usize_sub_small a b : 0 ≤ b ≤ a → a < 2 ^ 64 → usize_sub a b = a - b.
Proof. intros. apply wrap_small. lia. Qed.

(** The little-endian bytes of an integer. *)
Fixpoint le_bytes (n : nat) (v : Z) : bytes :=
  match n with
  | O => []
  | S n' => v mod 256 :: le_bytes n' (v / 256)
  end.

Lemma length_le_bytes n v : length (le_bytes n v) = n.
Proof. revert v. induction n; intros v; simpl; [done | by rewrite IHn]. Qed.

Lemma le_bytes_u8 n v : Forall (λ b, is_u8 b) (le_bytes n v).
Proof.
  revert v. induction n; intros v; simpl; constructor; [|apply IHn].
  by apply Z.mod_pos_bound.
Qed.

Create HintDb machine.
Create Rewrite HintDb machine.
#[export] Hint Resolve as_u8_range as_u16_range as_u32_range le_bytes_u8 : machine.
#[export] Hint Rewrite @length_app @length_take @length_drop @length_insert @length_replicate
  length_le_bytes : machine.

(** Arithmetic goals that mention lengths of lists built from others. *)
Ltac lens := autorewrite with machine in *; simpl length in *; lia.

(** Bit concatenation is addition. *)
Lemma lor_shiftl_add lo hi n :
  0 ≤ n → 0 ≤ lo < 2 ^ n → Z.lor lo (Z.shiftl hi n) = lo + hi * 2 ^ n.
Proof.
  intros Hn Hlo. rewrite <-Z.shiftl_mul_pow2 by done. symmetry. apply Z.add_nocarry_lor.
  apply Z.bits_inj'. intros k Hk. rewrite Z.land_spec, Z.bits_0.
  destruct (Z.ltb_spec k n).
  - by rewrite Z.shiftl_spec_low, andb_false_r.
  - rewrite <-(Z.mod_small lo (2 ^ n)) by done.
    by rewrite Z.mod_pow2_bits_high by lia.
Qed.

Lemma as_u8_shiftr v k : 0 ≤ k → as_u8 (Z.shiftr v k) = (v / 2 ^ k) mod 256.
Proof. intros. unfold as_u8, wrap. by rewrite Z.shiftr_div_pow2. Qed.

(** Linear arithmetic with division and remainder by constants. *)
Ltac div_lia := Z.to_euclidean_division_equations; lia.

(** ** Hash maps

    The source's hash maps are finite maps; where it iterates over one, the order
    is the library's, some permutation of the entries. *)

Class HashIter := hash_iter : ∀ {K A} `{Countable K}, gmap K A → list (K * A).

Class HashIterLaws (iter : HashIter) : Prop := {
  hash_iter_perm {K A} `{Countable K} (m : gmap K A) : hash_iter m ≡ₚ map_to_list m
}.

(** One entry, and those before and after it. *)
Lemma hash_iter_around `{HashIter} `{!HashIterLaws _} {K A} `{Countable K} (m : gmap K A) key c :
  m !! key = Some c →
  ∃ l1 l2, hash_iter m = l1 ++ (key, c) :: l2 ∧
    (∀ e, e ∈ l1 ++ l2 → m !! e.1 = Some e.2) ∧ key ∉ (l1 ++ l2).*1.
Proof.
  intros Hc. assert (∀ e, e ∈ hash_iter m → m !! e.1 = Some e.2) as Hall.
  { intros [k x]. by rewrite hash_iter_perm, elem_of_map_to_list. }
  assert (NoDup (hash_iter m).*1) as Hnd by (rewrite hash_iter_perm; apply NoDup_fst_map_to_list).
  assert ((key, c) ∈ hash_iter m) as (l1 & l2 & El)%list_elem_of_split by (by rewrite hash_iter_perm, elem_of_map_to_list).
  exists l1, l2. rewrite El in Hnd, Hall. split; [done|]. split.
  - intros e He. apply Hall. rewrite elem_of_app, elem_of_cons in *. tauto.
  - rewrite fmap_app, fmap_cons, <-Permutation_middle in Hnd. apply NoDup_cons in Hnd as [Hk _]. by rewrite fmap_app.
Qed.

(** The position [i] of [d] is where [l] starts and runs to the end. *)
Definition suffix_at (d : bytes) (i : Z) (l : bytes) : Prop :=
  0 ≤ i ∧ drop (Z.to_nat i) d = l.

Lemma suffix_at_advance d i l1 l2 :
  suffix_at d i (l1 ++ l2) → suffix_at d (i + len l1) l2.
Proof.
  intros [Hi Hd]. split; [lia|].
  replace (Z.to_nat (i + len l1)) with (Z.to_nat i + length l1)%nat by lia.
  by rewrite <-drop_drop, Hd, drop_app_length.
Qed.

Lemma suffix_at_get d i l k x :
  suffix_at d i l → l !! Z.to_nat k = Some x → 0 ≤ k → get_at d (i + k) = Ret x.
Proof.
  intros [Hi <-] Hx Hk. apply get_at_Ret. split; [lia|].
  rewrite lookup_drop in Hx. rewrite <-Hx. f_equal. lia.
Qed.

Lemma suffix_at_0 d : suffix_at d 0 d.
Proof. split; [lia | done]. Qed.
