(* ===== verification/sequence.v ===== *)
(** Sequence numbers ([src/tachyon/sequence.rs]).

    A sequence is a [u16] that counts 0, 1, ..., 65534 and wraps to 0: the value
    65535 is never produced.  The file models the five functions of the source
    and relates them to unbounded message indices: message [n] travels under
    the sequence [seq_of n], and as long as two indices are close the wrapping
    comparison of their sequences is the comparison of the indices. *)

From S2P Require Import prelude.

Module Sequence.

Definition is_greater_then (s1 s2 : Z) : bool :=
  ((s2 <? s1) && (s1 - s2 <=? 32768)) || ((s1 <? s2) && (32768 <? s2 - s1)).

Definition is_less_than (s1 s2 : Z) : bool := is_greater_then s2 s1.

Definition is_equal_to_or_less_than (s1 s2 : Z) : bool :=
  if s1 =? s2 then true else is_greater_then s2 s1.

Definition next_sequence (sequence : Z) : Z :=
  if u16_max - 1 <=? sequence then 0 else sequence + 1.

Definition previous_sequence (sequence : Z) : Z :=
  if sequence =? 0 then u16_max - 1 else sequence - 1.

End Sequence.

(** ** Sequences as indices modulo 65535 *)

(** The sequence under which message [n] travels. *)
Definition seq_of (n : Z) : Z := n mod 65535.

(** A sequence that [next_sequence] and [previous_sequence] can produce. *)
Definition valid_seq (s : Z) : Prop := 0 ≤ s < 65535.

Lemma seq_of_valid n : valid_seq (seq_of n).
Proof. apply Z.mod_pos_bound. lia. Qed.

Lemma seq_of_small n : valid_seq n → seq_of n = n.
Proof. apply Z.mod_small. Qed.

Lemma seq_of_u16 n : is_u16 (seq_of n).
Proof. pose proof (seq_of_valid n) as H. unfold valid_seq in H. lia. Qed.

(** The quotient that relates an index to its sequence, for [lia]. *)
Lemma seq_of_spec n : ∃ q, n = 65535 * q + seq_of n ∧ 0 ≤ seq_of n < 65535.
Proof.
  exists (n / 65535). unfold seq_of. split.
  - apply Z.div_mod. lia.
  - apply Z.mod_pos_bound. lia.
Qed.

Lemma seq_of_unique n q s : n = 65535 * q + s → 0 ≤ s < 65535 → seq_of n = s.
Proof.
  intros -> Hs. unfold seq_of. rewrite Z.add_comm, Z.mul_comm, Z.mod_add by lia.
  by apply Z.mod_small.
Qed.

(** Introduce the quotients of every [seq_of] in sight. *)
Ltac seq_quotients :=
  repeat match goal with
  | |- context [seq_of ?n] =>
      lazymatch goal with
      | _ : n = 65535 * _ + seq_of n |- _ => fail
      | _ => let q := fresh "q" in let H := fresh "Hq" in let B := fresh "Hs" in
             destruct (seq_of_spec n) as (q & H & B)
      end
  | _ : context [seq_of ?n] |- _ =>
      lazymatch goal with
      | _ : n = 65535 * _ + seq_of n |- _ => fail
      | _ => let q := fresh "q" in let H := fresh "Hq" in let B := fresh "Hs" in
             destruct (seq_of_spec n) as (q & H & B)
      end
  end.

Lemma seq_of_next n : Sequence.next_sequence (seq_of n) = seq_of (n + 1).
Proof.
  unfold Sequence.next_sequence, u16_max. destruct (seq_of_spec n) as (q & Hn & Hs).
  destruct (Z.leb_spec (65535 - 1) (seq_of n)).
  - symmetry. apply (seq_of_unique _ (q + 1)); lia.
  - symmetry. apply (seq_of_unique _ q); lia.
Qed.

Lemma seq_of_previous n : Sequence.previous_sequence (seq_of n) = seq_of (n - 1).
Proof.
  unfold Sequence.previous_sequence, u16_max. destruct (seq_of_spec n) as (q & Hn & Hs).
  destruct (Z.eqb_spec (seq_of n) 0).
  - symmetry. apply (seq_of_unique _ (q - 1)); lia.
  - symmetry. apply (seq_of_unique _ q); lia.
Qed.

(** Two close indices have the same sequence only when they are equal. *)
Lemma seq_of_inj a b : Z.abs (a - b) < 65535 → seq_of a = seq_of b → a = b.
Proof.
  intros Hd He. destruct (seq_of_spec a) as (qa & Ha & _), (seq_of_spec b) as (qb & Hb & _).
  rewrite He in Ha. assert (qa = qb) by lia. subst qa. lia.
Qed.

Lemma seq_of_eqb a b : Z.abs (a - b) < 65535 → (seq_of a =? seq_of b) = (a =? b).
Proof.
  intros Hd. destruct (Z.eqb_spec a b) as [->|Hne]; [apply Z.eqb_refl|].
  apply Z.eqb_neq. by intros ?%seq_of_inj.
Qed.

(** The wrapping comparison of the sequences of close indices. *)
Lemma is_greater_then_seq_of a b :
  Z.abs (a - b) ≤ 32766 → Sequence.is_greater_then (seq_of a) (seq_of b) = (b <? a).
Proof.
  intros Hd. unfold Sequence.is_greater_then.
  destruct (seq_of_spec a) as (qa & Ha & Hsa), (seq_of_spec b) as (qb & Hb & Hsb).
  assert (qa = qb ∨ qa = qb + 1 ∨ qa = qb - 1) as Hq by lia.
  apply eq_true_iff_eq.
  rewrite orb_true_iff, !andb_true_iff, !Z.ltb_lt, Z.leb_le. lia.
Qed.

Lemma is_equal_to_or_less_than_seq_of a b :
  Z.abs (a - b) ≤ 32766 →
  Sequence.is_equal_to_or_less_than (seq_of a) (seq_of b) = (a <=? b).
Proof.
  intros Hd. unfold Sequence.is_equal_to_or_less_than.
  rewrite seq_of_eqb, is_greater_then_seq_of by lia.
  destruct (Z.eqb_spec a b), (Z.ltb_spec a b), (Z.leb_spec a b); (done || lia).
Qed.

(** ** Walking along the sequence space *)

Lemma iter_next k n :
  Nat.iter k Sequence.next_sequence (seq_of n) = seq_of (n + Z.of_nat k).
Proof.
  induction k as [|k IH]; [simpl|rewrite Nat.iter_succ].
  - by rewrite Z.add_0_r.
  - rewrite IH, seq_of_next. f_equal. lia.
Qed.

Lemma iter_previous k n :
  Nat.iter k Sequence.previous_sequence (seq_of n) = seq_of (n - Z.of_nat k).
Proof.
  induction k as [|k IH]; [simpl|rewrite Nat.iter_succ].
  - by rewrite Z.sub_0_r.
  - rewrite IH, seq_of_previous. f_equal. lia.
Qed.

Lemma seq_of_add_period n : seq_of (n + 65535) = seq_of n.
Proof. destruct (seq_of_spec n) as (q & ? & ?). apply (seq_of_unique _ (q + 1)); lia. Qed.

Create Rewrite HintDb seqs.
#[export] Hint Rewrite seq_of_next seq_of_previous iter_next iter_previous : seqs.

(** ** Properties *)

(** The wrapping comparison orders a sequence before each of its next
    32766 successors and after none of them, from any valid sequence and so
    across the wrap from 65534 to 0; and stepping back by
    [previous_sequence] undoes stepping forward. *)
Lemma successors_are_greater (s : Z) (k : nat) :
  valid_seq s → 1 ≤ Z.of_nat k ≤ 32766 →
  Sequence.is_greater_then (Nat.iter k Sequence.next_sequence s) s = true ∧
  Sequence.is_less_than (Nat.iter k Sequence.next_sequence s) s = false ∧
  Sequence.is_equal_to_or_less_than (Nat.iter k Sequence.next_sequence s) s = false ∧
  Nat.iter k Sequence.previous_sequence (Nat.iter k Sequence.next_sequence s) = s.
Proof.
  intros Hs Hk. rewrite <-(seq_of_small s Hs). autorewrite with seqs.
  unfold Sequence.is_less_than.
  rewrite is_equal_to_or_less_than_seq_of, !is_greater_then_seq_of by lia.
  split_and!; [lia..|]. f_equal. lia.
Qed.

Lemma successors_are_greater_witness :
  valid_seq 65530 ∧ Sequence.is_greater_then (Nat.iter 10 Sequence.next_sequence 65530) 65530 = true.
Proof.
  assert (valid_seq 65530) as Hs by (unfold valid_seq; lia).
  split; [done|]. apply (successors_are_greater 65530 10); [done | lia].
Defined.

(** The comparison is a tournament: of two different [u16] values exactly
    one is greater than the other, and no value is greater than itself. *)
Lemma is_greater_then_tournament (s1 s2 : Z) :
  is_u16 s1 → is_u16 s2 → s1 ≠ s2 →
  Sequence.is_greater_then s1 s2 = negb (Sequence.is_greater_then s2 s1) ∧
  Sequence.is_greater_then s1 s1 = false.
Proof.
  intros H1 H2 Hne. unfold Sequence.is_greater_then.
  split; [|rewrite Z.ltb_irrefl; done].
  apply eq_true_iff_eq.
  rewrite negb_true_iff, orb_true_iff, orb_false_iff, !andb_true_iff, !andb_false_iff,
    !Z.ltb_lt, !Z.ltb_ge, !Z.leb_le, Z.leb_gt. lia.
Qed.

Lemma is_greater_then_tournament_witness :
  Sequence.is_greater_then 0 65534 = negb (Sequence.is_greater_then 65534 0).
Proof. apply (is_greater_then_tournament 0 65534); lia. Defined.
