(* ===== verification/sequence_buffer.v ===== *)
(** Sequence buffers ([src/tachyon/sequence_buffer.rs]).

    A [SequenceBuffer] is a vector of [Option]s addressed by
    [sequence % partition_by].  The operations are modelled with the panics of
    the source: the remainder by a zero [partition_by] and the index out of the
    vector.  A well-formed buffer never panics and behaves like a finite map
    from slots to values. *)

From S2P Require Import prelude sequence.

Module SequenceBuffer.

Record SequenceBuffer (T : Type) := mk {
  values : list (option T);
  partition_by : Z
}.
Arguments mk {T}.
Arguments values {T}.
Arguments partition_by {T}.

#[global] Instance eta_SequenceBuffer T : Eta (SequenceBuffer T) :=
  λ b, mk (values b) (partition_by b).

Section operations.
Context {T : Type}.
Implicit Types (self : SequenceBuffer T) (sequence index : Z).

Definition sequence_to_index self sequence : outcome Z :=
  if partition_by self =? 0 then Panic DivideByZero
  else Ret (sequence mod partition_by self).

Definition insert self sequence (value : T) : outcome (SequenceBuffer T * option T) :=
  index ← sequence_to_index self sequence;
  values' ← set_at (values self) index (Some value);
  v ← get_at values' index;
  Ret (self <| values := values' |>, v).

Definition remove self sequence : outcome (SequenceBuffer T) :=
  index ← sequence_to_index self sequence;
  values' ← set_at (values self) index None;
  Ret (self <| values := values' |>).

Definition remove_at_index self index : outcome (SequenceBuffer T) :=
  values' ← set_at (values self) index None;
  Ret (self <| values := values' |>).

Definition is_some self sequence : outcome bool :=
  index ← sequence_to_index self sequence;
  v ← get_at (values self) index;
  Ret (match v with Some _ => true | None => false end).

Definition take self sequence : outcome (option T * SequenceBuffer T) :=
  index ← sequence_to_index self sequence;
  v ← get_at (values self) index;
  values' ← set_at (values self) index None;
  Ret (v, self <| values := values' |>).

(** [self.values.get(index)] does not panic out of range. *)
Definition get_at_index self index : option T :=
  match values self !! Z.to_nat index with
  | Some value => value
  | None => None
  end.

Definition get self sequence : outcome (option T) :=
  index ← sequence_to_index self sequence;
  Ret (get_at_index self index).

(** The reference [get_mut] returns is modelled by the value it points to; the
    callers write it back with [insert] under the same sequence. *)
Definition get_mut self sequence : outcome (option T) :=
  index ← sequence_to_index self sequence;
  match values self !! Z.to_nat index with
  | Some value => Ret value
  | None => Ret None
  end.

End operations.

(** ** Well-formed buffers *)

(** The vector has one slot per residue, as every constructor of the program
    builds it. *)
Definition wf {T} (b : SequenceBuffer T) : Prop :=
  0 < partition_by b ∧ len (values b) = partition_by b.

(** The slot of a sequence, and what the slots hold. *)
Definition slot {T} (b : SequenceBuffer T) (s : Z) : nat := Z.to_nat (s mod partition_by b).
Definition at_slot {T} (b : SequenceBuffer T) (k : nat) : option T := mjoin (values b !! k).
Definition put_slot {T} (k : nat) (v : option T) (b : SequenceBuffer T) : SequenceBuffer T :=
  b <| values := <[k := v]> (values b) |>.

Section facts.
Context {T : Type}.
Implicit Types (b : SequenceBuffer T) (s : Z) (k : nat).

Lemma slot_lt b s : wf b → (slot b s < length (values b))%nat.
Proof.
  intros [Hp Hl]. unfold slot. pose proof (Z.mod_pos_bound s (partition_by b) Hp). lia.
Qed.

Lemma index_bounds b s : wf b → 0 ≤ s mod partition_by b < len (values b).
Proof. intros [Hp Hl]. pose proof (Z.mod_pos_bound s (partition_by b) Hp). lia. Qed.

Lemma sequence_to_index_wf b s :
  wf b → sequence_to_index b s = Ret (s mod partition_by b).
Proof.
  intros [Hp _]. unfold sequence_to_index.
  destruct (Z.eqb_spec (partition_by b) 0); [lia | done].
Qed.

Lemma values_at_slot b s : wf b → values b !! slot b s = Some (at_slot b (slot b s)).
Proof.
  intros Hb. unfold at_slot.
  destruct (lookup_lt_is_Some_2 (values b) (slot b s)) as [v Hv]; [by apply slot_lt|].
  by rewrite Hv.
Qed.

Lemma get_at_wf b s :
  wf b → get_at (values b) (s mod partition_by b) = Ret (at_slot b (slot b s)).
Proof.
  intros Hb. apply get_at_Ret. split; [by apply index_bounds | by apply values_at_slot].
Qed.

Lemma set_at_wf b s v :
  wf b → set_at (values b) (s mod partition_by b) v = Ret (<[slot b s := v]> (values b)).
Proof. intros Hb. by apply set_at_in_bounds, index_bounds. Qed.

Lemma insert_wf b s v :
  wf b → insert b s v = Ret (put_slot (slot b s) (Some v) b, Some v).
Proof.
  intros Hb. unfold insert. rewrite sequence_to_index_wf, bind_ret_l, set_at_wf, bind_ret_l by done.
  assert (get_at (<[slot b s:=Some v]> (values b)) (s mod partition_by b) = Ret (Some v)) as ->.
  { apply get_at_Ret. split; [by apply index_bounds|].
    by apply list_lookup_insert_eq, slot_lt. }
  done.
Qed.

Lemma remove_wf b s : wf b → remove b s = Ret (put_slot (slot b s) None b).
Proof. intros Hb. unfold remove. by rewrite sequence_to_index_wf, bind_ret_l, set_at_wf. Qed.

Lemma is_some_wf b s : wf b → is_some b s = Ret (bool_decide (is_Some (at_slot b (slot b s)))).
Proof.
  intros Hb. unfold is_some. rewrite sequence_to_index_wf, bind_ret_l, get_at_wf by done.
  simpl. by destruct (at_slot b (slot b s)).
Qed.

Lemma take_wf b s :
  wf b → take b s = Ret (at_slot b (slot b s), put_slot (slot b s) None b).
Proof.
  intros Hb. unfold take.
  by rewrite sequence_to_index_wf, bind_ret_l, get_at_wf, bind_ret_l, set_at_wf.
Qed.

Lemma get_wf b s : wf b → get b s = Ret (at_slot b (slot b s)).
Proof.
  intros Hb. unfold get, get_at_index. rewrite sequence_to_index_wf by done. simpl.
  fold (slot b s). by rewrite values_at_slot.
Qed.

Lemma get_mut_wf b s : wf b → get_mut b s = Ret (at_slot b (slot b s)).
Proof.
  intros Hb. unfold get_mut. rewrite sequence_to_index_wf by done. simpl.
  fold (slot b s). by rewrite values_at_slot.
Qed.

Lemma put_slot_wf k v b : wf b → wf (put_slot k v b).
Proof. intros [Hp Hl]. split; simpl; [done|]. by rewrite length_insert. Qed.

Lemma slot_put_slot k v b s : slot (put_slot k v b) s = slot b s.
Proof. done. Qed.

Lemma length_put_slot k v b : length (values (put_slot k v b)) = length (values b).
Proof. simpl. apply length_insert. Qed.

Lemma at_put_slot_eq k v b : (k < length (values b))%nat → at_slot (put_slot k v b) k = v.
Proof. intros Hk. unfold at_slot, put_slot; simpl. by rewrite list_lookup_insert_eq. Qed.

Lemma at_put_slot_ne k j v b : k ≠ j → at_slot (put_slot k v b) j = at_slot b j.
Proof. intros Hk. unfold at_slot, put_slot; simpl. by rewrite list_lookup_insert_ne. Qed.
End facts.

(** *** Buffers of 1024 slots

    Both buffers of the program have 1024 slots.  Sequences wrap at 65535, one
    short of 64 * 1024, so across the wrap two indices share a slot already at
    distance 1023; within 1022 of each other they never do. *)
Lemma slot_seq_of_inj {T} (b : SequenceBuffer T) x y :
  partition_by b = 1024 → Z.abs (x - y) ≤ 1022 →
  slot b (seq_of x) = slot b (seq_of y) → x = y.
Proof.
  intros Hp Hd Hs. unfold slot in Hs. rewrite Hp in Hs.
  destruct (seq_of_spec x) as (qx & Hx & Hsx), (seq_of_spec y) as (qy & Hy & Hsy).
  assert (qx = qy ∨ qx = qy + 1 ∨ qx = qy - 1) as Hq by lia.
  assert (seq_of x mod 1024 = seq_of y mod 1024) as Hm by div_lia.
  div_lia.
Qed.

Lemma slot_seq_of_ne {T} (b : SequenceBuffer T) x y :
  partition_by b = 1024 → Z.abs (x - y) ≤ 1022 → x ≠ y →
  slot b (seq_of x) ≠ slot b (seq_of y).
Proof. intros Hp Hd Hne Hs. by apply slot_seq_of_inj in Hs. Qed.

Create HintDb seqbuf.
#[export] Hint Resolve put_slot_wf slot_lt : seqbuf.
Create Rewrite HintDb seqbuf.
#[export] Hint Rewrite @slot_put_slot : seqbuf.

(** An empty buffer with [n] slots. *)
Definition empty (T : Type) (n : Z) : SequenceBuffer T := mk (replicate (Z.to_nat n) None) n.

Lemma empty_wf T n : 0 < n → wf (empty T n).
Proof. intros. split; simpl; [done|]. rewrite length_replicate. lia. Qed.

Lemma at_slot_empty T n k : at_slot (empty T n) k = None.
Proof.
  unfold at_slot; simpl. destruct (replicate _ _ !! k) as [v|] eqn:E; [|done].
  by apply lookup_replicate in E as [-> _].
Qed.

End SequenceBuffer.
