(* ===== verification/network_address.v ===== *)
(** Network addresses ([src/tachyon/network_address.rs]).

    A [NetworkAddress] is an IPv4 address in four [u16] fields and a port in a
    [u32]; it is the key of the connection and channel maps.  The standard
    library's [SocketAddr] is modelled by its two cases. *)

From S2P Require Import prelude.

Module NetworkAddress.

Record NetworkAddress := mk { a : Z; b : Z; c : Z; d : Z; port : Z }.

#[global] Instance eta_NetworkAddress : Eta NetworkAddress :=
  λ x, mk (a x) (b x) (c x) (d x) (port x).

#[global] Instance eq_dec : EqDecision NetworkAddress.
Proof. solve_decision. Defined.

#[global] Instance countable : Countable NetworkAddress.
Proof.
  refine (inj_countable'
    (λ x, (a x, b x, c x, d x, port x))
    (λ '(a, b, c, d, port), mk a b c d port) _).
  by intros [].
Defined.

(** The standard library's socket addresses. *)
Inductive SocketAddr :=
| V4 (o0 o1 o2 o3 port : Z)
| V6 (segments : list Z) (port : Z).

Definition eq (self other : NetworkAddress) : bool :=
  (a self =? a other) && (b self =? b other) && (c self =? c other) && (d self =? d other)
  && (port self =? port other).

Definition default : NetworkAddress := mk 0 0 0 0 0.

Definition test_address : NetworkAddress := mk 127 0 0 1 8265.

Definition broadcast (channel : Z) : NetworkAddress := mk 255 255 255 255 channel.

Definition localhost (port : Z) : NetworkAddress := mk 127 0 0 1 port.

Definition mock_client_address : NetworkAddress := mk 127 0 0 1 4598.

Definition from_socket_addr (address : SocketAddr) : NetworkAddress :=
  match address with
  | V4 o0 o1 o2 o3 p => mk o0 o1 o2 o3 p
  | V6 _ _ => default
  end.

Definition to_socket_addr (self : NetworkAddress) : SocketAddr :=
  V4 (as_u8 (a self)) (as_u8 (b self)) (as_u8 (c self)) (as_u8 (d self)) (as_u16 (port self)).

Definition is_default (self : NetworkAddress) : bool := eq default self.

Definition is_broadcast (self : NetworkAddress) : bool :=
  (a self =? 255) && (b self =? 255) && (c self =? 255) && (d self =? 255).

Definition copy_from (self other : NetworkAddress) : NetworkAddress :=
  self <| a := a other |> <| b := b other |> <| c := c other |> <| d := d other |>
       <| port := port other |>.

Definition get_hash (self : NetworkAddress) : Z :=
  let hash := 17 in
  let hash := as_u32 (as_u32 (hash * 23) + a self) in
  let hash := as_u32 (as_u32 (hash * 23) + b self) in
  let hash := as_u32 (as_u32 (hash * 23) + c self) in
  let hash := as_u32 (as_u32 (hash * 23) + d self) in
  let hash := as_u32 (as_u32 (hash * 23) + port self) in
  hash.

(** ** Facts *)

(** The field values the types of the fields allow. *)
Definition wf (x : NetworkAddress) : Prop :=
  is_u16 (a x) ∧ is_u16 (b x) ∧ is_u16 (c x) ∧ is_u16 (d x) ∧ is_u32 (port x).

(** An address that a UDP socket can produce or reach. *)
Definition routable (x : NetworkAddress) : Prop :=
  is_u8 (a x) ∧ is_u8 (b x) ∧ is_u8 (c x) ∧ is_u8 (d x) ∧ is_u16 (port x).

Lemma eq_spec x y : eq x y = true ↔ x = y.
Proof.
  destruct x, y; unfold eq; simpl. rewrite !andb_true_iff, !Z.eqb_eq. naive_solver.
Qed.

Lemma routable_wf x : routable x → wf x.
Proof. unfold routable, wf. intros (?&?&?&?&?). split_and!; lia. Qed.

Lemma default_routable : routable default.
Proof. unfold routable; simpl. lia. Qed.

End NetworkAddress.

Import NetworkAddress.

(** On every address a socket can carry the conversion to the standard
    library's [SocketAddr] loses nothing, and equality of addresses is equality
    of their fields, which is what makes them usable as map keys. *)
Lemma socket_addr_roundtrip (x y : NetworkAddress) :
  routable x →
  from_socket_addr (to_socket_addr x) = x ∧ (eq x y = true ↔ x = y) ∧
  (eq x y = true → get_hash x = get_hash y).
Proof.
  intros (Ha&Hb&Hc&Hd&Hp). split; [|split; [apply eq_spec | by intros ->%eq_spec]].
  unfold to_socket_addr; simpl.
  rewrite !as_u8_small, as_u16_small by done. by destruct x.
Qed.
