(* ===== verification/int_buffer.v ===== *)
(** Integer and length-prefixed buffers ([src/tachyon/int_buffer.rs]).

    An [IntBuffer] is a cursor over a byte slice that is passed to every call;
    the writers and readers are little-endian.  Each operation returns the moved
    cursor (and the written slice), or panics out of the slice.  The second half
    of the file gives each writer and reader its specification in terms of
    [le_bytes], from which the header codecs are derived. *)

From S2P Require Import prelude network_address.

Module IntBuffer.

Record IntBuffer := mk { index : Z }.

#[global] Instance eta_IntBuffer : Eta IntBuffer := λ r, mk (index r).

Implicit Types (self : IntBuffer) (data : bytes) (v : Z).

Definition write_u32 self v data : outcome (IntBuffer * bytes) :=
  data ← set_at data (index self) (as_u8 v);
  let self := mk (index self + 1) in
  data ← set_at data (index self) (as_u8 (Z.shiftr v 8));
  let self := mk (index self + 1) in
  data ← set_at data (index self) (as_u8 (Z.shiftr v 16));
  let self := mk (index self + 1) in
  data ← set_at data (index self) (as_u8 (Z.shiftr v 24));
  let self := mk (index self + 1) in
  Ret (self, data).

Definition read_u32 self data : outcome (IntBuffer * Z) :=
  b0 ← get_at data (index self);
  b1 ← get_at data (index self + 1);
  b2 ← get_at data (index self + 2);
  b3 ← get_at data (index self + 3);
  let value := Z.lor (Z.lor (Z.lor b0 (as_u32 (Z.shiftl b1 8)))
                 (as_u32 (Z.shiftl b2 16))) (as_u32 (Z.shiftl b3 24)) in
  Ret (mk (index self + 4), value).

Definition write_u16 self v data : outcome (IntBuffer * bytes) :=
  data ← set_at data (index self) (as_u8 v);
  let self := mk (index self + 1) in
  data ← set_at data (index self) (as_u8 (Z.shiftr v 8));
  let self := mk (index self + 1) in
  Ret (self, data).

Definition read_u16 self data : outcome (IntBuffer * Z) :=
  b0 ← get_at data (index self);
  b1 ← get_at data (index self + 1);
  let value := Z.lor b0 (as_u16 (Z.shiftl b1 8)) in
  Ret (mk (index self + 2), value).

Definition write_u8 self v data : outcome (IntBuffer * bytes) :=
  data ← set_at data (index self) v;
  Ret (mk (index self + 1), data).

Definition read_u8 self data : outcome (IntBuffer * Z) :=
  value ← get_at data (index self);
  Ret (mk (index self + 1), value).

Definition write_address self (address : NetworkAddress.NetworkAddress) data :
    outcome (IntBuffer * bytes) :=
  '(self, data) ← write_u16 self (NetworkAddress.a address) data;
  '(self, data) ← write_u16 self (NetworkAddress.b address) data;
  '(self, data) ← write_u16 self (NetworkAddress.c address) data;
  '(self, data) ← write_u16 self (NetworkAddress.d address) data;
  write_u32 self (NetworkAddress.port address) data.

Definition read_address self data : outcome (IntBuffer * NetworkAddress.NetworkAddress) :=
  '(self, a) ← read_u16 self data;
  '(self, b) ← read_u16 self data;
  '(self, c) ← read_u16 self data;
  '(self, d) ← read_u16 self data;
  '(self, port) ← read_u32 self data;
  Ret (self, NetworkAddress.mk a b c d port).

Definition u4_to_u8 (v1 v2 : Z) : Z := Z.lor v1 (as_u8 (Z.shiftl v2 4)).

Definition u8_to_u4 (byte : Z) : Z * Z := (Z.land byte 15, Z.shiftr byte 4).

End IntBuffer.

Module LengthPrefixed.
Import IntBuffer.

Record LengthPrefixed := mk { reader : IntBuffer; writer : IntBuffer }.

#[global] Instance eta_LengthPrefixed : Eta LengthPrefixed := λ r, mk (reader r) (writer r).

Definition default : LengthPrefixed := mk (IntBuffer.mk 0) (IntBuffer.mk 0).

Definition write (self : LengthPrefixed) (channel : Z)
    (src_address : NetworkAddress.NetworkAddress) (src dst : bytes) :
    outcome (LengthPrefixed * bytes) :=
  '(w, dst) ← write_u32 (writer self) (as_u32 (len src)) dst;
  '(w, dst) ← write_u16 w channel dst;
  '(w, dst) ← write_address w src_address dst;
  dst ← copy_from_slice dst (index w) (index w + len src) src;
  Ret (self <| writer := IntBuffer.mk (index w + len src) |>, dst).

(** The returned range is the pair of its ends. *)
Definition read (self : LengthPrefixed) (data : bytes) :
    outcome (LengthPrefixed * (Z * NetworkAddress.NetworkAddress * (Z * Z))) :=
  '(r, length) ← read_u32 (reader self) data;
  '(r, channel) ← read_u16 r data;
  '(r, address) ← read_address r data;
  let range := (index r, index r + length) in
  Ret (self <| reader := IntBuffer.mk (index r + length) |>, (channel, address, range)).

End LengthPrefixed.

(** ** The wire interface

    What a writer and a reader of values of type [T] promise to their callers:
    the writer puts the bytes [enc v] at the cursor and moves past them, and the
    reader gets [v] back from any slice that has these bytes at the cursor.  The
    header codecs are proved against this interface. *)

Class Wire {T : Type} (wr : IntBuffer.IntBuffer → T → bytes → outcome (IntBuffer.IntBuffer * bytes))
    (rd : IntBuffer.IntBuffer → bytes → outcome (IntBuffer.IntBuffer * T))
    (enc : T → bytes) (ok : T → Prop) : Prop := {
  wire_write i v d :
    0 ≤ i → i + len (enc v) ≤ len d → ok v →
    wr (IntBuffer.mk i) v d =
      Ret (IntBuffer.mk (i + len (enc v)), splice (Z.to_nat i) (enc v) d);
  wire_read i v d rest :
    suffix_at d i (enc v ++ rest) → ok v →
    rd (IntBuffer.mk i) d = Ret (IntBuffer.mk (i + len (enc v)), v)
}.

Definition enc_address (x : NetworkAddress.NetworkAddress) : bytes :=
  le_bytes 2 (NetworkAddress.a x) ++ le_bytes 2 (NetworkAddress.b x) ++
  le_bytes 2 (NetworkAddress.c x) ++ le_bytes 2 (NetworkAddress.d x) ++
  le_bytes 4 (NetworkAddress.port x).

Lemma set_at_splice (i j : Z) (bs : bytes) (x : Z) (d : bytes) :
  0 ≤ i → j = i + len bs → j + 1 ≤ len d →
  set_at (splice (Z.to_nat i) bs d) j x = Ret (splice (Z.to_nat i) (bs ++ [x]) d).
Proof.
  intros Hi -> Hd. rewrite set_at_in_bounds by (rewrite length_splice; lia).
  f_equal. rewrite <-splice_app by (simpl; lia).
  rewrite splice_1 by (rewrite length_splice; lia). f_equal. lia.
Qed.

#[export] Instance u8_wire : Wire IntBuffer.write_u8 IntBuffer.read_u8 (λ v, [v]) (λ v, is_u8 v).
Proof.
  split.
  - intros i v d Hi Hd _. unfold IntBuffer.write_u8; simpl in *.
    rewrite set_at_in_bounds by lia. simpl. by rewrite splice_1 by lia.
  - intros i v d rest Hs _. unfold IntBuffer.read_u8; simpl.
    by rewrite <-(Z.add_0_r i), (suffix_at_get d i _ 0 v Hs), Z.add_0_r.
Qed.

(** A multi-byte write: each byte goes behind those already written. *)
Ltac write_bytes :=
  match goal with
  | |- context [set_at ?d ?i _] => rewrite <-(splice_nil (Z.to_nat i) d) at 1
  end;
  repeat (rewrite set_at_splice by (simpl length; lia); simpl).

#[export] Instance u16_wire :
  Wire IntBuffer.write_u16 IntBuffer.read_u16 (le_bytes 2) (λ v, is_u16 v).
Proof.
  split.
  - intros i v d Hi Hd _. rewrite length_le_bytes in Hd |- *.
    unfold IntBuffer.write_u16; simpl.
    write_bytes.
    do 2 f_equal; [f_equal; lia|]. f_equal. rewrite as_u8_shiftr by lia. done.
  - intros i v d rest Hs Hv. simpl in Hs. unfold IntBuffer.read_u16; simpl.
    rewrite <-(Z.add_0_r i) at 1.
    rewrite (suffix_at_get d i _ 0 _ Hs), (suffix_at_get d i _ 1 _ Hs) by done. simpl.
    do 3 f_equal. rewrite as_u16_small.
    + rewrite lor_shiftl_add by div_lia. div_lia.
    + rewrite Z.shiftl_mul_pow2 by lia. div_lia.
Qed.

#[export] Instance u32_wire :
  Wire IntBuffer.write_u32 IntBuffer.read_u32 (le_bytes 4) (λ v, is_u32 v).
Proof.
  split.
  - intros i v d Hi Hd _. rewrite length_le_bytes in Hd |- *.
    unfold IntBuffer.write_u32; simpl.
    write_bytes.
    do 2 f_equal; [f_equal; lia|]. f_equal. rewrite !as_u8_shiftr by lia.
    rewrite !Z.div_div by lia. done.
  - intros i v d rest Hs Hv. simpl in Hs. unfold IntBuffer.read_u32; simpl.
    rewrite <-(Z.add_0_r i) at 1.
    rewrite (suffix_at_get d i _ 0 _ Hs), (suffix_at_get d i _ 1 _ Hs),
      (suffix_at_get d i _ 2 _ Hs), (suffix_at_get d i _ 3 _ Hs) by done. simpl.
    do 3 f_equal.
    rewrite !as_u32_small by (rewrite Z.shiftl_mul_pow2 by lia; div_lia).
    rewrite !Z.div_div by lia.
    rewrite (lor_shiftl_add _ _ 8) by div_lia.
    rewrite (lor_shiftl_add _ _ 16) by div_lia.
    rewrite (lor_shiftl_add _ _ 24) by div_lia. div_lia.
Qed.

#[global] Arguments le_bytes : simpl never.
#[global] Arguments splice : simpl never.

(** A write behind bytes that are already written. *)
Lemma wire_append {T wr rd enc ok} `{!@Wire T wr rd enc ok} i acc v d :
  0 ≤ i → i + len acc + len (enc v) ≤ len d → ok v →
  wr (IntBuffer.mk (i + len acc)) v (splice (Z.to_nat i) acc d) =
    Ret (IntBuffer.mk (i + len (acc ++ enc v)), splice (Z.to_nat i) (acc ++ enc v) d).
Proof.
  intros Hi Hd Hv. rewrite wire_write; [|lia| |done]; [|rewrite length_splice; lia].
  do 2 f_equal; [f_equal; rewrite length_app; lia|].
  replace (Z.to_nat (i + len acc)) with (Z.to_nat i + length acc)%nat by lia.
  apply splice_app. lia.
Qed.

(** Run the writes of a goal, or its reads from the suffix [H], through their
    [Wire] instances. *)
Ltac wire_side := first [done | lia | lens].

Ltac wire_write_step :=
  match goal with
  | |- context [?wr (IntBuffer.mk (?i + len ?acc)) ?v (splice (Z.to_nat ?i) ?acc ?d)] =>
      rewrite (wire_append (wr := wr) i acc v d) by wire_side
  | |- context [?wr (IntBuffer.mk ?i) ?v ?d] =>
      rewrite (wire_write (wr := wr) i v d) by wire_side
  end; rewrite ?bind_ret_l; cbv beta iota.

Ltac wire_read_step H :=
  match type of H with
  | suffix_at ?d ?i (_ ++ ?rest) =>
      match goal with
      | |- context [?rd (IntBuffer.mk i) d] =>
          rewrite (wire_read (rd := rd) i _ d rest H) by wire_side
      end
  end; rewrite ?bind_ret_l; cbv beta iota; apply suffix_at_advance in H.

#[export] Instance address_wire :
  Wire IntBuffer.write_address IntBuffer.read_address enc_address NetworkAddress.wf.
Proof.
  split.
  - intros i [a b c d p] data Hi Hd (Ha&Hb&Hc&Hdd&Hp).
    unfold IntBuffer.write_address, enc_address in *; cbn [NetworkAddress.a NetworkAddress.b
      NetworkAddress.c NetworkAddress.d NetworkAddress.port] in *.
    repeat wire_write_step. by rewrite <-!app_assoc.
  - intros i [a b c d p] data rest Hs (Ha&Hb&Hc&Hd&Hp).
    unfold IntBuffer.read_address, enc_address in *; cbn [NetworkAddress.a NetworkAddress.b
      NetworkAddress.c NetworkAddress.d NetworkAddress.port] in *.
    rewrite <-!app_assoc in Hs. repeat wire_read_step Hs.
    do 3 f_equal. lens.
Qed.

(** ** Streams of length-prefixed messages

    The server pool packs what it received into one buffer for its caller with
    [LengthPrefixed.write]; the caller unpacks it with [read]. *)

Import LengthPrefixed.

Record message := mk_message {
  msg_channel : Z;
  msg_address : NetworkAddress.NetworkAddress;
  msg_payload : bytes
}.

Definition write_message (s : LengthPrefixed * bytes) (m : message) :
    outcome (LengthPrefixed * bytes) :=
  LengthPrefixed.write s.1 (msg_channel m) (msg_address m) (msg_payload m) s.2.

Fixpoint read_messages (n : nat) (lp : LengthPrefixed) (data : bytes) :
    outcome (list message) :=
  match n with
  | O => Ret []
  | S n' =>
      '(lp, (channel, address, (lo, hi))) ← LengthPrefixed.read lp data;
      payload ← slice data lo hi;
      ms ← read_messages n' lp data;
      Ret (mk_message channel address payload :: ms)
  end.

Definition message_ok (m : message) : Prop :=
  is_u16 (msg_channel m) ∧ NetworkAddress.wf (msg_address m) ∧
  len (msg_payload m) < 4294967296.

Definition enc_message (m : message) : bytes :=
  le_bytes 4 (len (msg_payload m)) ++ le_bytes 2 (msg_channel m) ++
  enc_address (msg_address m) ++ msg_payload m.

Lemma suffix_at_splice k src d :
  (k ≤ length d)%nat → suffix_at (splice k src d) (Z.of_nat k) (src ++ drop (k + length src) d).
Proof. intros. split; [lia|]. rewrite Nat2Z.id. by apply drop_splice. Qed.

Lemma write_message_spec r i m d :
  0 ≤ i → i + len (enc_message m) ≤ len d → message_ok m →
  write_message (LengthPrefixed.mk r (IntBuffer.mk i), d) m =
    Ret (LengthPrefixed.mk r (IntBuffer.mk (i + len (enc_message m))),
         splice (Z.to_nat i) (enc_message m) d).
Proof.
  intros Hi Hd (Hc & Ha & Hl). destruct m as [c a p]; unfold enc_message in *;
    cbn [msg_channel msg_address msg_payload] in *.
  unfold write_message, LengthPrefixed.write; cbn [fst snd writer msg_channel msg_address msg_payload].
  rewrite as_u32_small by lia. rewrite !length_app in Hd.
  wire_write_step. wire_write_step. wire_write_step. cbn [IntBuffer.index].
  set (acc := (le_bytes 4 (len p) ++ le_bytes 2 c) ++ enc_address a) in *.
  assert (length acc = (length (le_bytes 4 (len p)) + length (le_bytes 2 c) + length (enc_address a))%nat)
    as Hacc by (unfold acc; rewrite !length_app; lia).
  rewrite copy_in_bounds; [|lia| |lia]; [|rewrite length_splice by lia; lia].
  rewrite bind_ret_l. do 2 f_equal.
  - cbn [set eta eta_LengthPrefixed reader writer]. rewrite !length_app.
    do 2 f_equal. lia.
  - replace (Z.to_nat (i + len acc)) with (Z.to_nat i + length acc)%nat by lia.
    rewrite splice_app by lia. unfold acc. by rewrite <-!app_assoc.
Qed.

Lemma read_message_spec w i m d rest :
  suffix_at d i (enc_message m ++ rest) → message_ok m →
  ∃ lo, LengthPrefixed.read (LengthPrefixed.mk (IntBuffer.mk i) w) d =
      Ret (LengthPrefixed.mk (IntBuffer.mk (i + len (enc_message m))) w,
           (msg_channel m, msg_address m, (lo, lo + len (msg_payload m)))) ∧
    slice d lo (lo + len (msg_payload m)) = Ret (msg_payload m).
Proof.
  intros Hs (Hc & Ha & Hl). destruct m as [c a p]; unfold enc_message in *;
    cbn [msg_channel msg_address msg_payload] in *.
  pose proof Hs as Hs'. destruct Hs as [Hi Hdrop].
  unfold LengthPrefixed.read; cbn [reader]. rewrite <-!app_assoc in Hs'.
  wire_read_step Hs'. wire_read_step Hs'. wire_read_step Hs'. cbn [IntBuffer.index].
  eexists. split.
  - cbn [set eta eta_LengthPrefixed reader writer]. rewrite !length_app. do 4 f_equal. lia.
  - destruct Hs' as [Hlo Hd]. apply (f_equal length) in Hdrop.
    rewrite length_drop, !length_app, length_le_bytes in Hdrop.
    rewrite slice_in_bounds, Hd by (rewrite ?length_le_bytes in *; lia).
    f_equal. rewrite Z.add_simpl_l, Nat2Z.id. by rewrite take_app_length.
Qed.

Lemma write_messages_spec ms i r d :
  0 ≤ i → i + len (concat (enc_message <$> ms)) ≤ len d → Forall message_ok ms →
  foldl_m write_message (LengthPrefixed.mk r (IntBuffer.mk i), d) ms =
    Ret (LengthPrefixed.mk r (IntBuffer.mk (i + len (concat (enc_message <$> ms)))),
         splice (Z.to_nat i) (concat (enc_message <$> ms)) d).
Proof.
  revert i d. induction ms as [|m ms IH]; intros i d Hi Hd Hms.
  { simpl. by rewrite Z.add_0_r, splice_nil. }
  apply Forall_cons in Hms as [Hm Hms].
  cbn [foldl_m fmap list_fmap concat] in *. rewrite length_app in Hd.
  rewrite write_message_spec by (done || lia). rewrite bind_ret_l, IH.
  - do 2 f_equal; [do 2 f_equal; rewrite length_app; lia|].
    replace (Z.to_nat (i + len (enc_message m))) with (Z.to_nat i + length (enc_message m))%nat by lia.
    apply splice_app. lia.
  - lia.
  - rewrite length_splice; lia.
  - done.
Qed.

Lemma read_messages_spec ms i w d rest :
  suffix_at d i (concat (enc_message <$> ms) ++ rest) → Forall message_ok ms →
  read_messages (length ms) (LengthPrefixed.mk (IntBuffer.mk i) w) d = Ret ms.
Proof.
  revert i. induction ms as [|m ms IH]; intros i Hs Hms; [done|].
  apply Forall_cons in Hms as [Hm Hms].
  cbn [fmap list_fmap concat length read_messages] in *. rewrite <-app_assoc in Hs.
  destruct (read_message_spec w i m d _ Hs Hm) as (lo & -> & Hsl).
  rewrite bind_ret_l; cbv beta iota. rewrite Hsl, bind_ret_l.
  apply suffix_at_advance in Hs. rewrite (IH _ Hs Hms). simpl. by destruct m.
Qed.

(** C31: messages packed one after the other into a buffer that has room for
    all of them are unpacked in the same order, each with its channel, its
    address and exactly its payload, whatever the buffer held before. *)
Theorem length_prefixed_roundtrip (ms : list message) (dst : bytes) :
  Forall message_ok ms → len (concat (enc_message <$> ms)) ≤ len dst →
  ∃ lp dst', foldl_m write_message (LengthPrefixed.default, dst) ms = Ret (lp, dst') ∧
    length dst' = length dst ∧
    read_messages (length ms) lp dst' = Ret ms.
Proof.
  intros Hms Hd. unfold LengthPrefixed.default. rewrite write_messages_spec by (done || lia).
  do 2 eexists. split; [done|]. split; [apply length_splice; lia|].
  eapply read_messages_spec; [|done]. apply suffix_at_splice. lia.
Qed.

Lemma length_prefixed_roundtrip_witness :
  ∃ lp dst', foldl_m write_message (LengthPrefixed.default, replicate 64 7)
      [mk_message 1 (NetworkAddress.mk 127 0 0 1 8001) [1; 2; 3];
       mk_message 65535 (NetworkAddress.mk 10 0 0 255 65535) []] = Ret (lp, dst') ∧
    length dst' = 64%nat ∧
    read_messages 2 lp dst' = Ret
      [mk_message 1 (NetworkAddress.mk 127 0 0 1 8001) [1; 2; 3];
       mk_message 65535 (NetworkAddress.mk 10 0 0 255 65535) []].
Proof.
  apply (length_prefixed_roundtrip
      [mk_message 1 (NetworkAddress.mk 127 0 0 1 8001) [1; 2; 3];
       mk_message 65535 (NetworkAddress.mk 10 0 0 255 65535) []] (replicate 64 7)).
  - repeat constructor; simpl; lia.
  - rewrite length_replicate. vm_compute. discriminate.
Defined.
