(* ===== verification/header.v ===== *)
(** Message headers ([src/tachyon/header.rs]).

    The three layouts of [Header] (plain, nacked, fragmented) and the
    [ConnectionHeader] of identity messages, as the source writes and reads
    them with an [IntBuffer]; then the bytes each layout puts on the wire. *)

From S2P Require Import prelude network_address int_buffer.

Definition MESSAGE_TYPE_UNRELIABLE : Z := 0.
Definition MESSAGE_TYPE_RELIABLE : Z := 1.
Definition MESSAGE_TYPE_FRAGMENT : Z := 2.
Definition MESSAGE_TYPE_NONE : Z := 3.
Definition MESSAGE_TYPE_NACK : Z := 4.
Definition MESSAGE_TYPE_RELIABLE_WITH_NACK : Z := 5.

Definition MESSAGE_TYPE_LINK_IDENTITY : Z := 6.
Definition MESSAGE_TYPE_UNLINK_IDENTITY : Z := 7.

Definition MESSAGE_TYPE_IDENTITY_LINKED : Z := 8.
Definition MESSAGE_TYPE_IDENTITY_UNLINKED : Z := 9.

Definition TACHYON_HEADER_SIZE : Z := 4.
Definition TACHYON_NACKED_HEADER_SIZE : Z := 10.
Definition TACHYON_FRAGMENTED_HEADER_SIZE : Z := 10.

Module ConnectionHeader.
Import IntBuffer.

Record ConnectionHeader := mk { message_type : Z; id : Z; session_id : Z }.

#[global] Instance eta_ConnectionHeader : Eta ConnectionHeader :=
  λ h, mk (message_type h) (id h) (session_id h).

Definition default : ConnectionHeader := mk 0 0 0.

Definition read (buffer : bytes) : outcome ConnectionHeader :=
  let header := default in
  let reader := IntBuffer.mk 0 in
  '(reader, v) ← read_u8 reader buffer;
  let header := header <| message_type := v |> in
  '(reader, v) ← read_u32 reader buffer;
  let header := header <| id := v |> in
  '(reader, v) ← read_u32 reader buffer;
  let header := header <| session_id := v |> in
  Ret header.

Definition write (self : ConnectionHeader) (buffer : bytes) : outcome bytes :=
  let writer := IntBuffer.mk 0 in
  '(writer, buffer) ← write_u8 writer (as_u8 (message_type self)) buffer;
  '(writer, buffer) ← write_u32 writer (id self) buffer;
  '(writer, buffer) ← write_u32 writer (session_id self) buffer;
  Ret buffer.

Definition wf (h : ConnectionHeader) : Prop :=
  is_u8 (message_type h) ∧ is_u32 (id h) ∧ is_u32 (session_id h).

(** The nine bytes of a connection header. *)
Definition enc (h : ConnectionHeader) : bytes :=
  [message_type h] ++ le_bytes 4 (id h) ++ le_bytes 4 (session_id h).

End ConnectionHeader.

Module Header.
Import IntBuffer.

Record Header := mk {
  message_type : Z;
  channel : Z;
  sequence : Z;
  fragment_group : Z;
  fragment_start_sequence : Z;
  fragment_count : Z;
  start_sequence : Z;
  flags : Z
}.

#[global] Instance eta_Header : Eta Header := λ h,
  mk (message_type h) (channel h) (sequence h) (fragment_group h)
     (fragment_start_sequence h) (fragment_count h) (start_sequence h) (flags h).

Definition default : Header := mk 0 0 0 0 0 0 0 0.

Definition write_unreliable (self : Header) (buffer : bytes) : outcome bytes :=
  let writer := IntBuffer.mk 0 in
  '(writer, buffer) ← write_u8 writer (as_u8 (message_type self)) buffer;
  Ret buffer.

Definition write_nacked (self : Header) (buffer : bytes) : outcome bytes :=
  let writer := IntBuffer.mk 0 in
  '(writer, buffer) ← write_u8 writer (message_type self) buffer;
  '(writer, buffer) ← write_u8 writer (channel self) buffer;
  '(writer, buffer) ← write_u16 writer (sequence self) buffer;
  '(writer, buffer) ← write_u16 writer (start_sequence self) buffer;
  '(writer, buffer) ← write_u32 writer (flags self) buffer;
  Ret buffer.

Definition write (self : Header) (buffer : bytes) : outcome bytes :=
  let writer := IntBuffer.mk 0 in
  '(writer, buffer) ← write_u8 writer (message_type self) buffer;
  '(writer, buffer) ← write_u8 writer (channel self) buffer;
  '(writer, buffer) ← write_u16 writer (sequence self) buffer;
  Ret buffer.

Definition read (buffer : bytes) : outcome Header :=
  let header := default in
  let reader := IntBuffer.mk 0 in
  '(reader, v) ← read_u8 reader buffer;
  let header := header <| message_type := v |> in
  '(reader, v) ← read_u8 reader buffer;
  let header := header <| channel := v |> in
  '(reader, v) ← read_u16 reader buffer;
  let header := header <| sequence := v |> in
  Ret header.

Definition write_fragmented (self : Header) (buffer : bytes) : outcome bytes :=
  let writer := IntBuffer.mk 0 in
  '(writer, buffer) ← write_u8 writer (message_type self) buffer;
  '(writer, buffer) ← write_u8 writer (channel self) buffer;
  '(writer, buffer) ← write_u16 writer (sequence self) buffer;
  '(writer, buffer) ← write_u16 writer (fragment_group self) buffer;
  '(writer, buffer) ← write_u16 writer (fragment_start_sequence self) buffer;
  '(writer, buffer) ← write_u16 writer (fragment_count self) buffer;
  Ret buffer.

Definition read_fragmented (buffer : bytes) : outcome Header :=
  let header := default in
  let reader := IntBuffer.mk 0 in
  '(reader, v) ← read_u8 reader buffer;
  let header := header <| message_type := v |> in
  '(reader, v) ← read_u8 reader buffer;
  let header := header <| channel := v |> in
  '(reader, v) ← read_u16 reader buffer;
  let header := header <| sequence := v |> in
  '(reader, v) ← read_u16 reader buffer;
  let header := header <| fragment_group := v |> in
  '(reader, v) ← read_u16 reader buffer;
  let header := header <| fragment_start_sequence := v |> in
  '(reader, v) ← read_u16 reader buffer;
  let header := header <| fragment_count := v |> in
  Ret header.

Definition create_fragmented (sequence' channel' group start count : Z) : Header :=
  let header := default in
  let header := header <| message_type := MESSAGE_TYPE_FRAGMENT |> in
  let header := header <| sequence := sequence' |> in
  let header := header <| channel := channel' |> in
  let header := header <| fragment_group := group |> in
  let header := header <| fragment_start_sequence := start |> in
  let header := header <| fragment_count := count |> in
  header.

Definition wf (h : Header) : Prop :=
  is_u8 (message_type h) ∧ is_u8 (channel h) ∧ is_u16 (sequence h) ∧
  is_u16 (fragment_group h) ∧ is_u16 (fragment_start_sequence h) ∧ is_u16 (fragment_count h) ∧
  is_u16 (start_sequence h) ∧ is_u32 (flags h).

(** The bytes of the plain, nacked and fragmented layouts. *)
Definition enc (h : Header) : bytes :=
  [message_type h] ++ [channel h] ++ le_bytes 2 (sequence h).
Definition enc_nacked (h : Header) : bytes :=
  enc h ++ le_bytes 2 (start_sequence h) ++ le_bytes 4 (flags h).
Definition enc_fragmented (h : Header) : bytes :=
  enc h ++ le_bytes 2 (fragment_group h) ++ le_bytes 2 (fragment_start_sequence h) ++
  le_bytes 2 (fragment_count h).

(** What the plain and the fragmented layout keep of a header. *)
Definition plain_part (h : Header) : Header :=
  mk (message_type h) (channel h) (sequence h) 0 0 0 0 0.
Definition fragment_part (h : Header) : Header :=
  mk (message_type h) (channel h) (sequence h)
     (fragment_group h) (fragment_start_sequence h) (fragment_count h) 0 0.

End Header.

(** ** What the codecs do to a buffer *)

(** A buffer that starts with the bytes [bs]. *)
Definition starts_with (d bs : bytes) : Prop := suffix_at d 0 (bs ++ drop (length bs) d).

Lemma splice_starts_with d bs : starts_with (splice 0 bs d) bs.
Proof.
  split; [lia|]. rewrite splice_0. change (Z.to_nat 0) with 0%nat.
  by rewrite drop_0, drop_app_length.
Qed.

Lemma starts_with_app d bs1 bs2 : starts_with d (bs1 ++ bs2) → starts_with d bs1.
Proof.
  intros [_ Hd]. split; [lia|]. change (Z.to_nat 0) with 0%nat in *. rewrite drop_0 in *.
  assert (drop (length bs1) d = bs2 ++ drop (length (bs1 ++ bs2)) d) as ->.
  { rewrite Hd at 1. by rewrite <-app_assoc, drop_app_length. }
  by rewrite app_assoc.
Qed.

Section codecs.
Implicit Types (h : Header.Header) (c : ConnectionHeader.ConnectionHeader) (d : bytes).

Lemma connection_write_spec c d :
  ConnectionHeader.wf c → 9 ≤ len d →
  ConnectionHeader.write c d = Ret (splice 0 (ConnectionHeader.enc c) d).
Proof.
  intros (Ht&Hi&Hs) Hd. unfold ConnectionHeader.write, ConnectionHeader.enc; cbv zeta.
  rewrite as_u8_small by done. repeat wire_write_step. by rewrite <-!app_assoc.
Qed.

Lemma connection_read_spec c d :
  ConnectionHeader.wf c → starts_with d (ConnectionHeader.enc c) →
  ConnectionHeader.read d = Ret c.
Proof.
  intros (Ht&Hi&Hs) H. unfold ConnectionHeader.read, starts_with, ConnectionHeader.enc in *.
  cbv zeta. rewrite <-!app_assoc in H. repeat wire_read_step H. by destruct c.
Qed.

Lemma write_spec h d :
  Header.wf h → 4 ≤ len d → Header.write h d = Ret (splice 0 (Header.enc h) d).
Proof.
  intros (?&?&?&?&?&?&?&?) Hd. unfold Header.write, Header.enc; cbv zeta.
  repeat wire_write_step. by rewrite <-!app_assoc.
Qed.

Lemma write_unreliable_spec h d :
  Header.wf h → 1 ≤ len d →
  Header.write_unreliable h d = Ret (splice 0 [Header.message_type h] d).
Proof.
  intros (?&?&?&?&?&?&?&?) Hd. unfold Header.write_unreliable; cbv zeta.
  rewrite as_u8_small by done. by wire_write_step.
Qed.

Lemma write_nacked_spec h d :
  Header.wf h → 10 ≤ len d → Header.write_nacked h d = Ret (splice 0 (Header.enc_nacked h) d).
Proof.
  intros (?&?&?&?&?&?&?&?) Hd.
  unfold Header.write_nacked, Header.enc_nacked, Header.enc; cbv zeta.
  repeat wire_write_step. by rewrite <-!app_assoc.
Qed.

Lemma write_fragmented_spec h d :
  Header.wf h → 10 ≤ len d →
  Header.write_fragmented h d = Ret (splice 0 (Header.enc_fragmented h) d).
Proof.
  intros (?&?&?&?&?&?&?&?) Hd.
  unfold Header.write_fragmented, Header.enc_fragmented, Header.enc; cbv zeta.
  repeat wire_write_step. by rewrite <-!app_assoc.
Qed.

Lemma read_spec h d :
  Header.wf h → starts_with d (Header.enc h) → Header.read d = Ret (Header.plain_part h).
Proof.
  intros (?&?&?&?&?&?&?&?) Hs. unfold Header.read, starts_with, Header.enc in *; cbv zeta.
  rewrite <-!app_assoc in Hs. by repeat wire_read_step Hs.
Qed.

Lemma read_fragmented_spec h d :
  Header.wf h → starts_with d (Header.enc_fragmented h) →
  Header.read_fragmented d = Ret (Header.fragment_part h).
Proof.
  intros (?&?&?&?&?&?&?&?) Hs.
  unfold Header.read_fragmented, starts_with, Header.enc_fragmented, Header.enc in *; cbv zeta.
  rewrite <-!app_assoc in Hs. by repeat wire_read_step Hs.
Qed.

(** The nack that follows a plain header, as [Nack.read_single] reads it. *)
Lemma read_nack_fields_spec h d :
  Header.wf h → starts_with d (Header.enc_nacked h) →
  IntBuffer.read_u16 (IntBuffer.mk TACHYON_HEADER_SIZE) d = Ret (IntBuffer.mk 6, Header.start_sequence h) ∧
  IntBuffer.read_u32 (IntBuffer.mk 6) d = Ret (IntBuffer.mk TACHYON_NACKED_HEADER_SIZE, Header.flags h).
Proof.
  intros (?&?&?&?&?&?&?&?) Hs. unfold starts_with, Header.enc_nacked in Hs. rewrite <-!app_assoc in Hs.
  apply suffix_at_advance in Hs. change (0 + len (Header.enc h)) with 4 in Hs.
  split; [unfold TACHYON_HEADER_SIZE; by wire_read_step Hs|].
  apply suffix_at_advance in Hs. rewrite length_le_bytes in Hs. change (4 + Z.of_nat 2) with 6 in Hs.
  by wire_read_step Hs.
Qed.

Lemma length_enc h : length (Header.enc h) = 4%nat.
Proof. done. Qed.
Lemma length_enc_nacked h : length (Header.enc_nacked h) = 10%nat.
Proof. done. Qed.
Lemma length_enc_fragmented h : length (Header.enc_fragmented h) = 10%nat.
Proof. done. Qed.
Lemma length_enc_connection c : length (ConnectionHeader.enc c) = 9%nat.
Proof. done. Qed.

(** The readers need only that the buffer is long enough. *)
Lemma read_u8_returns d i : 0 ≤ i < len d → ∃ v, IntBuffer.read_u8 (IntBuffer.mk i) d = Ret (IntBuffer.mk (i + 1), v).
Proof.
  intros Hi. unfold IntBuffer.read_u8; cbn [IntBuffer.index].
  destruct (get_at_returns d i Hi) as [v ->]. by exists v.
Qed.

Lemma read_u16_returns d i :
  0 ≤ i → i + 1 < len d → ∃ v, IntBuffer.read_u16 (IntBuffer.mk i) d = Ret (IntBuffer.mk (i + 2), v).
Proof.
  intros Hi Hd. unfold IntBuffer.read_u16; cbn [IntBuffer.index].
  destruct (get_at_returns d i) as [b0 ->]; [lia|].
  destruct (get_at_returns d (i + 1)) as [b1 ->]; [lia|]. by eexists.
Qed.

Lemma read_u32_returns d i :
  0 ≤ i → i + 3 < len d → ∃ v, IntBuffer.read_u32 (IntBuffer.mk i) d = Ret (IntBuffer.mk (i + 4), v).
Proof.
  intros Hi Hd. unfold IntBuffer.read_u32; cbn [IntBuffer.index].
  destruct (get_at_returns d i) as [b0 ->]; [lia|]. destruct (get_at_returns d (i + 1)) as [b1 ->]; [lia|].
  destruct (get_at_returns d (i + 2)) as [b2 ->]; [lia|]. destruct (get_at_returns d (i + 3)) as [b3 ->]; [lia|].
  by eexists.
Qed.

(** Step through the next read of a goal whatever it reads. *)
Ltac any_read :=
  match goal with
  | |- context [IntBuffer.read_u8 (IntBuffer.mk ?i) ?d] =>
      let v := fresh "v" in destruct (read_u8_returns d i) as [v ->]; [lia|]
  | |- context [IntBuffer.read_u16 (IntBuffer.mk ?i) ?d] =>
      let v := fresh "v" in destruct (read_u16_returns d i) as [v ->]; [lia..|]
  | |- context [IntBuffer.read_u32 (IntBuffer.mk ?i) ?d] =>
      let v := fresh "v" in destruct (read_u32_returns d i) as [v ->]; [lia..|]
  end; rewrite bind_ret_l; cbv beta iota.

Lemma read_returns d : 4 ≤ len d → returns (Header.read d).
Proof. intros Hd. unfold Header.read; cbv zeta. repeat any_read. by eexists. Qed.

(** The message type is the first byte. *)
Lemma read_message_type b d h : Header.read (b :: d) = Ret h → Header.message_type h = b.
Proof.
  unfold Header.read. cbv zeta. intros ([r1 v1] & H1 & H)%bind_Ret. injection H1 as <- <-.
  apply bind_Ret in H as ([r2 v2] & _ & H). apply bind_Ret in H as ([r3 v3] & _ & H). by injection H as <-.
Qed.

Lemma write_returns h d : 4 ≤ len d → ∃ d', Header.write h d = Ret d' ∧ length d' = length d.
Proof.
  intros Hd. unfold Header.write, IntBuffer.write_u8, IntBuffer.write_u16; cbv zeta. cbn [IntBuffer.index].
  repeat (rewrite set_at_in_bounds by (rewrite ?length_insert; lia); rewrite ?bind_ret_l; cbv beta iota; cbn [IntBuffer.index]).
  eexists. split; [done|]. by rewrite !length_insert.
Qed.

Lemma read_connection_returns d : 9 ≤ len d → returns (ConnectionHeader.read d).
Proof. intros Hd. unfold ConnectionHeader.read; cbv zeta. repeat any_read. by eexists. Qed.

Lemma read_fragmented_returns d : 10 ≤ len d → returns (Header.read_fragmented d).
Proof. intros Hd. unfold Header.read_fragmented; cbv zeta. repeat any_read. by eexists. Qed.
End codecs.

Create HintDb wire.
#[export] Hint Resolve splice_starts_with starts_with_app : wire.
#[export] Hint Rewrite length_enc length_enc_nacked length_enc_fragmented length_enc_connection
  : machine.

(** ** Properties *)

(** C36: each header layout round-trips through a buffer of any content that is
    long enough: the plain, the fragmented and the connection layout are read back
    by their readers; the nacked layout has the plain header, which [Header.read]
    reads back, and behind it the start sequence and the flags of the nack, which
    are read back from there; the unreliable layout is the type byte.  The rest of
    the buffer, from the end of the header on, is untouched. *)
Theorem header_roundtrip (h : Header.Header) (c : ConnectionHeader.ConnectionHeader) (d : bytes) :
  Header.wf h → ConnectionHeader.wf c → 10 ≤ len d →
  (∃ d', Header.write h d = Ret d' ∧ Header.read d' = Ret (Header.plain_part h) ∧
         drop 4 d' = drop 4 d) ∧
  (∃ d', Header.write_fragmented h d = Ret d' ∧
         Header.read_fragmented d' = Ret (Header.fragment_part h) ∧
         Header.read d' = Ret (Header.plain_part h) ∧ drop 10 d' = drop 10 d) ∧
  (∃ d' r, Header.write_nacked h d = Ret d' ∧ Header.read d' = Ret (Header.plain_part h) ∧
         IntBuffer.read_u16 (IntBuffer.mk TACHYON_HEADER_SIZE) d' = Ret (r, Header.start_sequence h) ∧
         IntBuffer.read_u32 r d' = Ret (IntBuffer.mk TACHYON_NACKED_HEADER_SIZE, Header.flags h) ∧
         drop 10 d' = drop 10 d) ∧
  (∃ d', Header.write_unreliable h d = Ret d' ∧
         IntBuffer.read_u8 (IntBuffer.mk 0) d' = Ret (IntBuffer.mk 1, Header.message_type h) ∧
         drop 1 d' = drop 1 d) ∧
  (∃ d', ConnectionHeader.write c d = Ret d' ∧ ConnectionHeader.read d' = Ret c ∧
         drop 9 d' = drop 9 d).
Proof.
  intros Hh Hc Hd.
  split; [|split; [|split; [|split]]]; eexists.
  - rewrite write_spec by (done || lia). split_and!; [done| |].
    + apply read_spec; eauto with wire.
    + apply splice_after; simpl; lia.
  - rewrite write_fragmented_spec by (done || lia). split_and!; [done| | |].
    + apply read_fragmented_spec; eauto with wire.
    + apply read_spec; [done|]. eapply starts_with_app, splice_starts_with.
    + apply splice_after; simpl; lia.
  - exists (IntBuffer.mk 6). rewrite write_nacked_spec by (done || lia).
    destruct (read_nack_fields_spec h (splice 0 (Header.enc_nacked h) d) Hh (splice_starts_with _ _)) as [-> ->].
    split_and!; [done| |done..|].
    + apply read_spec; [done|]. eapply starts_with_app, splice_starts_with.
    + apply splice_after; simpl; lia.
  - rewrite write_unreliable_spec by (done || lia). split_and!; [done| |].
    + by rewrite splice_0.
    + apply splice_after; simpl; lia.
  - rewrite connection_write_spec by (done || lia). split_and!; [done| |].
    + apply connection_read_spec; eauto with wire.
    + apply splice_after; simpl; lia.
Qed.

Definition header_example : Header.Header := Header.mk 2 1 65534 7 65530 9 0 0.
Definition connection_example : ConnectionHeader.ConnectionHeader := ConnectionHeader.mk 6 1 4294967295.

Lemma header_roundtrip_witness :
  ∃ d', Header.write header_example (replicate 12 9) = Ret d' ∧
        Header.read d' = Ret (Header.mk 2 1 65534 0 0 0 0 0) ∧ drop 4 d' = replicate 8 9.
Proof.
  apply (header_roundtrip header_example connection_example (replicate 12 9)).
  - unfold Header.wf; simpl; lia.
  - unfold ConnectionHeader.wf; simpl; lia.
  - simpl; lia.
Defined.
