(* ===== verification/send_result.v ===== *)
(** The result of a send and its error codes ([src/tachyon.rs]). *)

From S2P Require Import prelude header.

Definition SEND_ERROR_CHANNEL : Z := 2.
Definition SEND_ERROR_SOCKET : Z := 1.
Definition SEND_ERROR_FRAGMENT : Z := 3.
Definition SEND_ERROR_UNKNOWN : Z := 4.
Definition SEND_ERROR_LENGTH : Z := 5.
Definition SEND_ERROR_IDENTITY : Z := 6.

Module TachyonSendResult.

Record TachyonSendResult := mk {
  sent_len : Z;
  error : Z;
  header : Header.Header
}.

#[global] Instance eta_TachyonSendResult : Eta TachyonSendResult := λ r,
  mk (sent_len r) (error r) (header r).

Definition default : TachyonSendResult := mk 0 0 Header.default.

End TachyonSendResult.
