(* ===== verification/tachyon_socket.v ===== *)
(** The UDP socket ([src/tachyon/tachyon_socket.rs]).

    The operating system and the random generator are parameters: an abstract
    world that every system call takes and returns, with what the calls of the
    source give back.  [transmit] is the one way a datagram leaves the program;
    the clients' theorems say which datagrams they transmit, in which order. *)

From S2P Require Import prelude network_address int_buffer header.

Class Os := {
  World : Type;
  UdpSocket : Type;
  (** [Socket::new], [bind], [set_recv_buffer_size] with [set_nonblocking], and [connect] *)
  os_socket : World → World * option UdpSocket;
  os_bind : UdpSocket → NetworkAddress.SocketAddr → World → World * bool;
  os_configure : UdpSocket → World → World * bool;
  os_connect : UdpSocket → NetworkAddress.SocketAddr → World → World * bool;
  os_try_clone : UdpSocket → World → World * option UdpSocket;
  (** [send] and [send_to]: the number of bytes sent, or an error *)
  os_send : UdpSocket → bytes → World → World * option Z;
  os_send_to : UdpSocket → bytes → NetworkAddress.SocketAddr → World → World * option Z;
  (** [recv] and [recv_from] into a buffer of the given length: the datagram *)
  os_recv : UdpSocket → Z → World → World * option bytes;
  os_recv_from : UdpSocket → Z → World → World * option (bytes * NetworkAddress.SocketAddr);
  (** the [rand] crate's generator *)
  StdRng : Type;
  seed_from_u64 : Z → StdRng;
  gen_range : Z → Z → StdRng → Z * StdRng
}.

(** A datagram is cut to the buffer it is received into. *)
Class OsLaws (os : Os) : Prop := {
  os_recv_fits s n w w' d : 0 ≤ n → os_recv s n w = (w', Some d) → len d ≤ n;
  os_recv_from_fits s n w w' d a : 0 ≤ n → os_recv_from s n w = (w', Some (d, a)) → len d ≤ n
}.

Module TachyonSocket.
Import NetworkAddress.

Section socket.
Context `{Os}.

Inductive CreateConnectResult := Success | Error.

Inductive SocketReceiveResult :=
| RSuccess (bytes_received : Z) (network_address : NetworkAddress)
| REmpty
| RError
| RDropped.

Record TachyonSocket := mk {
  address : NetworkAddress;
  is_server : bool;
  socket : option UdpSocket;
  rng : StdRng
}.

#[global] Instance eta_TachyonSocket : Eta TachyonSocket := λ s,
  mk (address s) (is_server s) (socket s) (rng s).

Definition create : TachyonSocket := mk NetworkAddress.default false None (seed_from_u64 32634).

(** [sock.try_clone().unwrap()] *)
Definition clone_socket (self : TachyonSocket) (w : World) : outcome (World * option UdpSocket) :=
  match socket self with
  | Some sock =>
      let '(w, cloned) := os_try_clone sock w in
      match cloned with
      | Some s => Ret (w, Some s)
      | None => Panic UnwrapOnNone
      end
  | None => Ret (w, None)
  end.

Definition bind_socket (self : TachyonSocket) (naddress : NetworkAddress) (w : World) :
    outcome (TachyonSocket * World * CreateConnectResult) :=
  if opt_is_some (socket self) then Ret (self, w, Error) else
  let addr := to_socket_addr naddress in
  let self := self <| address := naddress |> in
  let '(w, sock) := os_socket w in
  match sock with
  | None => Panic UnwrapOnNone
  | Some sock =>
      let '(w, bound) := os_bind sock addr w in
      if (bound : bool) then
        let '(w, configured) := os_configure sock w in
        if (configured : bool)
        then Ret (self <| socket := Some sock |> <| is_server := true |>, w, Success)
        else Panic UnwrapOnNone
      else Ret (self, w, Error)
  end.

Definition connect_socket (self : TachyonSocket) (naddress : NetworkAddress) (w : World) :
    outcome (TachyonSocket * World * CreateConnectResult) :=
  if opt_is_some (socket self) then Ret (self, w, Error) else
  let self := self <| address := NetworkAddress.default |> in
  let '(w, sock) := os_socket w in
  match sock with
  | None => Panic UnwrapOnNone
  | Some sock =>
      let '(w, bound) := os_bind sock (V4 0 0 0 0 0) w in
      if (bound : bool) then
        let '(w, configured) := os_configure sock w in
        if (configured : bool) then
          let '(w, connected) := os_connect sock (to_socket_addr naddress) w in
          if (connected : bool) then Ret (self <| socket := Some sock |>, w, Success)
          else Ret (self, w, Error)
        else Panic UnwrapOnNone
      else Ret (self, w, Error)
  end.

Definition should_drop (self : TachyonSocket) (data : bytes) (drop_chance : Z) (drop_reliable_only : bool) :
    outcome (TachyonSocket * bool) :=
  if 0 <? drop_chance then
    let '(r, rng') := gen_range 1 100 (rng self) in
    let self := self <| rng := rng' |> in
    if r <=? drop_chance then
      if drop_reliable_only then
        '(_, message_type) ← IntBuffer.read_u8 (IntBuffer.mk 0) data;
        Ret (self, message_type =? MESSAGE_TYPE_RELIABLE)
      else Ret (self, true)
    else Ret (self, false)
  else Ret (self, false).

(** [recv_from(data)] overwrites the front of [data]. *)
Definition receive (self : TachyonSocket) (data : bytes) (drop_chance : Z) (drop_reliable_only : bool)
    (w : World) : outcome (TachyonSocket * bytes * World * SocketReceiveResult) :=
  match socket self with
  | None => Ret (self, data, w, RError)
  | Some sock =>
      if is_server self then
        let '(w, received) := os_recv_from sock (len data) w in
        match received with
        | Some (datagram, src_addr) =>
            let data := splice 0 datagram data in
            '(self, dropped) ← should_drop self data drop_chance drop_reliable_only;
            if (dropped : bool) then Ret (self, data, w, RDropped)
            else Ret (self, data, w, RSuccess (len datagram) (from_socket_addr src_addr))
        | None => Ret (self, data, w, REmpty)
        end
      else
        let '(w, received) := os_recv sock (len data) w in
        match received with
        | Some datagram =>
            let data := splice 0 datagram data in
            '(self, dropped) ← should_drop self data drop_chance drop_reliable_only;
            if (dropped : bool) then Ret (self, data, w, RDropped)
            else Ret (self, data, w, RSuccess (len datagram) NetworkAddress.default)
        | None => Ret (self, data, w, REmpty)
        end
  end.

(** The system call that sends [slice] to [address]. *)
Definition transmit_on (sock : UdpSocket) (address : NetworkAddress) (slice : bytes) (w : World) : World * Z :=
  let '(w, socket_result) :=
    if port address =? 0 then os_send sock slice w
    else os_send_to sock slice (to_socket_addr address) w in
  match socket_result with
  | Some size => (w, size)
  | None => (w, 0)
  end.

Definition send_to (self : TachyonSocket) (address : NetworkAddress) (data : bytes) (length : Z) (w : World) :
    outcome (World * Z) :=
  match socket self with
  | Some sock =>
      slice' ← slice data 0 length;
      Ret (transmit_on sock address slice' w)
  | None => Ret (w, 0)
  end.

End socket.
End TachyonSocket.

(** ** What leaves the program *)

Section transmit.
Context `{Os}.
Import TachyonSocket.

(** A datagram leaves through the socket, if there is one. *)
Definition transmit (s : TachyonSocket) (d : NetworkAddress.NetworkAddress * bytes) (w : World) : World :=
  match socket s with
  | Some sock => (transmit_on sock d.1 d.2 w).1
  | None => w
  end.

Definition transmitted (s : TachyonSocket) (d : NetworkAddress.NetworkAddress * bytes) (w : World) : Z :=
  match socket s with
  | Some sock => (transmit_on sock d.1 d.2 w).2
  | None => 0
  end.

(** Datagrams leave one after the other. *)
Definition transmit_all (s : TachyonSocket) (ds : list (NetworkAddress.NetworkAddress * bytes)) (w : World) : World :=
  foldl (λ w d, transmit s d w) w ds.

Lemma transmit_all_app s ds ds' w : transmit_all s (ds ++ ds') w = transmit_all s ds' (transmit_all s ds w).
Proof. apply foldl_app. Qed.

(** The decision to drop a packet draws from the generator; without simulated
    losses it does not. *)
Lemma should_drop_draws (sock : TachyonSocket) (data : bytes) chance reliable :
  1 ≤ len data →
  ∃ rng dropped, TachyonSocket.should_drop sock data chance reliable = Ret (sock <| TachyonSocket.rng := rng |>, dropped) ∧
    (chance ≤ 0 → rng = TachyonSocket.rng sock ∧ dropped = false).
Proof.
  intros Hd. unfold TachyonSocket.should_drop. destruct (Z.ltb_spec 0 chance).
  - destruct (gen_range 1 100 _) as [r rng']. cbv zeta. destruct (r <=? chance); [|do 2 eexists; split; [done|lia]].
    destruct reliable; [|do 2 eexists; split; [done|lia]].
    destruct (read_u8_returns data 0) as [v ->]; [lia..|]. do 2 eexists. split; [done|lia].
  - exists (TachyonSocket.rng sock), false. split; [by destruct sock|done].
Qed.

Lemma send_to_spec s a data n w :
  0 ≤ n ≤ len data →
  send_to s a data n w =
    Ret (transmit s (a, firstn (Z.to_nat n) data) w, transmitted s (a, firstn (Z.to_nat n) data) w).
Proof.
  intros Hn. unfold send_to, transmit, transmitted. destruct (socket s) as [sock|]; [|done].
  rewrite slice_prefix by done. simpl. by destruct (transmit_on sock a _ w).
Qed.
End transmit.
