(* ===== verification/unreliable_sender.v ===== *)
(** Unreliable messages from another thread ([src/tachyon/unreliable_sender.rs]). *)

From S2P Require Import prelude network_address int_buffer header send_result tachyon_socket.

Definition UNRELIABLE_BUFFER_LEN : Z := 1024 * 16.

Module UnreliableSender.
Import TachyonSendResult.

Section sender.
Context `{Os}.

Record UnreliableSender := mk {
  socket : option UdpSocket;
  send_buffer : bytes
}.

#[global] Instance eta_UnreliableSender : Eta UnreliableSender := λ s, mk (socket s) (send_buffer s).

Definition create (socket : option UdpSocket) : UnreliableSender :=
  mk socket (replicate (Z.to_nat UNRELIABLE_BUFFER_LEN) 0).

Definition send_to (self : UnreliableSender) (address : NetworkAddress.NetworkAddress) (length : Z) (w : World) :
    outcome (World * Z) :=
  match socket self with
  | Some sock =>
      slice' ← slice (send_buffer self) 0 length;
      Ret (TachyonSocket.transmit_on sock address slice' w)
  | None => Ret (w, 0)
  end.

Definition send (self : UnreliableSender) (address : NetworkAddress.NetworkAddress) (data : bytes)
    (body_len : Z) (w : World) : outcome (UnreliableSender * World * TachyonSendResult) :=
  let result := TachyonSendResult.default in
  if body_len <? 1 then Ret (self, w, result <| error := SEND_ERROR_LENGTH |>) else
  if negb (opt_is_some (socket self)) then Ret (self, w, result <| error := SEND_ERROR_CHANNEL |>) else
  src ← slice data 0 body_len;
  buffer ← copy_from_slice (send_buffer self) 1 (body_len + 1) src;
  let length := body_len + 1 in
  let header := Header.default <| Header.message_type := MESSAGE_TYPE_UNRELIABLE |> in
  buffer ← Header.write_unreliable header buffer;
  let self := self <| send_buffer := buffer |> in
  '(w, sent) ← send_to self address length w;
  Ret (self, w, result <| sent_len := as_u32 sent |> <| TachyonSendResult.header := header |>).

End sender.
End UnreliableSender.

(** ** Properties *)

Section properties.
Context `{Os}.
Import UnreliableSender.

(** The sender after [n] messages has its buffer of 16 KiB. *)
Definition sender_ok (s : UnreliableSender) : Prop := len (send_buffer s) = UNRELIABLE_BUFFER_LEN.

Lemma unreliable_send_spec s addr data n w sock :
  sender_ok s → socket s = Some sock → 1 ≤ n ≤ len data → n < UNRELIABLE_BUFFER_LEN →
  let d := MESSAGE_TYPE_UNRELIABLE :: firstn (Z.to_nat n) data in
  ∃ s', UnreliableSender.send s addr data n w =
      Ret (s', (TachyonSocket.transmit_on sock addr d w).1,
           TachyonSendResult.mk (as_u32 (TachyonSocket.transmit_on sock addr d w).2) 0
             (Header.default <| Header.message_type := MESSAGE_TYPE_UNRELIABLE |>)) ∧
    sender_ok s' ∧ socket s' = Some sock.
Proof.
  intros Hs Hsock Hn Hlen d. unfold sender_ok, UNRELIABLE_BUFFER_LEN in *.
  unfold UnreliableSender.send. destruct (Z.ltb_spec n 1); [lia|]. rewrite Hsock. cbn [opt_is_some negb].
  rewrite slice_prefix, bind_ret_l by lia.
  assert (len (firstn (Z.to_nat n) data) = n) as Hb by (rewrite length_take; lia).
  rewrite copy_in_bounds, bind_ret_l by lia. cbv zeta.
  rewrite write_unreliable_spec; [|unfold Header.wf, MESSAGE_TYPE_UNRELIABLE; simpl; lia|rewrite length_splice; lia].
  rewrite bind_ret_l. change (Z.to_nat 1) with 1%nat.
  set (buffer := splice 0 _ _).
  assert (length buffer = length (send_buffer s)) as Hbl.
  { unfold buffer. rewrite !length_splice; simpl; rewrite ?length_splice; lia. }
  assert (firstn (Z.to_nat (n + 1)) buffer = d) as Hd.
  { unfold buffer. rewrite splice_0. simpl length. rewrite drop_splice by lia.
    rewrite app_assoc. apply take_app_length'. simpl. rewrite length_take. lia. }
  unfold send_to. cbn [socket set send_buffer eta eta_UnreliableSender]. rewrite Hsock.
  rewrite slice_prefix, bind_ret_l by lia. rewrite Hd.
  destruct (TachyonSocket.transmit_on sock addr d w) as [w' sent] eqn:E. simpl.
  clearbody buffer. eexists. split; [done|]. split; simpl; [lia|done].
Qed.

(** The messages of one sender, one after the other. *)
Definition send_event (st : UnreliableSender * World) (m : NetworkAddress.NetworkAddress * bytes) :
    outcome (UnreliableSender * World) :=
  '(s, w, _) ← UnreliableSender.send st.1 m.1 m.2 (len m.2) st.2;
  Ret (s, w).

(** C37: every message of 1 to 16383 bytes leaves as one datagram, the message
    type and then exactly its bytes, whatever the sender sent before, in the
    order of the calls. *)
Theorem unreliable_messages_are_sent_whole (sock : UdpSocket)
    (ms : list (NetworkAddress.NetworkAddress * bytes)) (w : World) :
  Forall (λ m, 1 ≤ len m.2 < UNRELIABLE_BUFFER_LEN) ms →
  ∃ s, foldl_m send_event (UnreliableSender.create (Some sock), w) ms =
    Ret (s, foldl (λ w m, (TachyonSocket.transmit_on sock m.1 (MESSAGE_TYPE_UNRELIABLE :: m.2) w).1) w ms).
Proof.
  intros Hms.
  assert (∀ s, sender_ok s → socket s = Some sock → ∃ s', foldl_m send_event (s, w) ms =
    Ret (s', foldl (λ w m, (TachyonSocket.transmit_on sock m.1 (MESSAGE_TYPE_UNRELIABLE :: m.2) w).1) w ms))
    as Hrun; [|apply Hrun; [|done]].
  - revert w. induction Hms as [|m ms Hm _ IH]; intros w s Hs Hsock; [by exists s|].
    destruct (unreliable_send_spec s m.1 m.2 (len m.2) w sock Hs Hsock) as (s' & Hsend & Hs' & Hsock'); [lia|lia|].
    rewrite Nat2Z.id, firstn_all in Hsend.
    destruct (IH (TachyonSocket.transmit_on sock m.1 (MESSAGE_TYPE_UNRELIABLE :: m.2) w).1 s' Hs' Hsock')
      as (s2 & Hrest).
    exists s2. cbn [foldl_m foldl]. unfold send_event at 2. cbn [fst snd]. by rewrite Hsend.
  - unfold sender_ok, UnreliableSender.create. cbn [send_buffer]. rewrite length_replicate.
    unfold UNRELIABLE_BUFFER_LEN. lia.
Qed.
End properties.
