(* ===== verification/trace_os.v ===== *)
(** A concrete operating system for examples.

    The world is the queue of datagrams to be received and the list of datagrams
    sent so far; every call succeeds.  The theorems hold of any operating system;
    their examples run on this one. *)

From S2P Require Import prelude network_address int_buffer header send_result tachyon_socket unreliable_sender.

Record trace := mk_trace {
  incoming : list (bytes * NetworkAddress.SocketAddr);
  sent : list (option NetworkAddress.SocketAddr * bytes)
}.

Definition trace_send (to : option NetworkAddress.SocketAddr) (d : bytes) (w : trace) : trace * option Z :=
  (mk_trace (incoming w) (sent w ++ [(to, d)]), Some (len d)).

Definition trace_recv (n : Z) (w : trace) : trace * option (bytes * NetworkAddress.SocketAddr) :=
  match incoming w with
  | [] => (w, None)
  | (d, a) :: rest => (mk_trace rest (sent w), Some (firstn (Z.to_nat n) d, a))
  end.

#[export] Instance trace_os : Os := {|
  World := trace;
  UdpSocket := unit;
  os_socket := λ w, (w, Some tt);
  os_bind := λ _ _ w, (w, true);
  os_configure := λ _ w, (w, true);
  os_connect := λ _ _ w, (w, true);
  os_try_clone := λ s w, (w, Some s);
  os_send := λ _ d w, trace_send None d w;
  os_send_to := λ _ d a w, trace_send (Some a) d w;
  os_recv := λ _ n w, let '(w, r) := trace_recv n w in (w, fst <$> r);
  os_recv_from := λ _ n w, trace_recv n w;
  StdRng := Z;
  seed_from_u64 := λ z, z;
  gen_range := λ lo hi r, (lo + r mod (hi - lo), 48271 * r mod 2147483647)
|}.

Lemma trace_recv_fits n w w' d a : 0 ≤ n → trace_recv n w = (w', Some (d, a)) → len d ≤ n.
Proof.
  intros Hn. unfold trace_recv. destruct (incoming w) as [|[d' a'] rest]; intros [= <- <- <-].
  rewrite length_take. lia.
Qed.

#[export] Instance trace_os_laws : OsLaws trace_os.
Proof.
  split; simpl; intros s n w w' d.
  - intros Hn. destruct (trace_recv n w) as [w2 [[d2 a]|]] eqn:E; simpl; intros [= <- <-].
    by eapply trace_recv_fits.
  - intros a Hn. by apply trace_recv_fits.
Qed.

(** The hash maps of examples are iterated in the order of the finite maps. *)
#[export] Instance list_iter : HashIter := λ K A _ _ m, map_to_list m.

#[export] Instance list_iter_laws : HashIterLaws list_iter.
Proof. split. done. Qed.

(** A connected socket. *)
Definition example_socket : TachyonSocket.TachyonSocket :=
  TachyonSocket.mk NetworkAddress.default false (Some tt : option UdpSocket) (32634 : StdRng).

Definition example_world : World := mk_trace [] [].

Lemma unreliable_messages_are_sent_whole_witness :
  ∃ s, foldl_m (@send_event trace_os) (@UnreliableSender.create trace_os (Some tt), mk_trace [] [])
      [(NetworkAddress.localhost 8001, [1; 2; 3]); (NetworkAddress.default, [4])] =
    Ret (s, mk_trace [] [(Some (NetworkAddress.V4 127 0 0 1 8001), [0; 1; 2; 3]); (None, [0; 4])]).
Proof.
  apply (@unreliable_messages_are_sent_whole trace_os tt
    [(NetworkAddress.localhost 8001, [1; 2; 3]); (NetworkAddress.default, [4])] (mk_trace [] [])).
  repeat constructor; unfold UNRELIABLE_BUFFER_LEN; simpl; lia.
Defined.
