(* ===== verification/nack.v ===== *)
(** Negative acknowledgements ([src/tachyon/nack.rs]).

    A [Nack] names a missing sequence and, in 32 flag bits, which of the 32
    sequences before it are missing too.  The file models the flag operations,
    the fixed-width codecs and the varint codec.  The varint encoding itself is
    the [varuint] crate's: it enters as the interface [Varint], whose laws are
    the documented ones (what is written is read back whatever the integer width
    it is read at, an integer takes one to [width / 8 + 1] bytes, a read consumes
    at least one byte and fails at the end of the data). *)

From S2P Require Import prelude sequence network_address int_buffer.

(** ** The varint crate *)

Class VarintOps := {
  varint_enc : Z → Z → bytes;
  varint_dec : Z → bytes → option (Z * bytes)
}.

(** [w] is the width of the Rust integer type, 16 or 32. *)
Class Varint (ops : VarintOps) : Prop := {
  varint_roundtrip w w' v rest :
    w = 16 ∨ w = 32 → w' = 16 ∨ w' = 32 → 0 ≤ v < 2 ^ w → 0 ≤ v < 2 ^ w' →
    varint_dec w' (varint_enc w v ++ rest) = Some (v, rest);
  varint_enc_length w v :
    w = 16 ∨ w = 32 → 0 ≤ v < 2 ^ w → 1 ≤ len (varint_enc w v) ≤ w / 8 + 1;
  varint_dec_consumes w bs v rest :
    varint_dec w bs = Some (v, rest) → ∃ used, bs = used ++ rest ∧ used ≠ []
}.

Module Nack.
Import IntBuffer.

Record Nack := mk {
  start_sequence : Z;
  flags : Z;
  nacked_count : Z;
  sent_count : Z
}.

#[global] Instance eta_Nack : Eta Nack := λ n,
  mk (start_sequence n) (flags n) (nacked_count n) (sent_count n).

Definition default : Nack := mk 0 0 0 0.

(** [1 << index] on a [u32]: the shift amount is taken modulo 32. *)
Definition mask (index : Z) : Z := as_u32 (Z.shiftl 1 (Z.land index 31)).

Definition get_bits (self : Nack) (index : Z) : bool :=
  Z.land (flags self) (mask index) =? mask index.

Definition set_bits (self : Nack) (index : Z) (value : bool) : Nack :=
  if value then self <| flags := Z.lor (flags self) (mask index) |>
  else self <| flags := Z.land (flags self) (2 ^ 32 - 1 - mask index) |>.

(** The loops run [n] times from bit [i]; every caller starts them at 32 and 0. *)
Fixpoint get_flagged_loop (self : Nack) (n : nat) (i seq : Z) (sequences : list Z) : list Z :=
  match n with
  | O => sequences
  | S n' =>
      let sequences := if get_bits self i then sequences ++ [seq] else sequences in
      get_flagged_loop self n' (i + 1) (Sequence.previous_sequence seq) sequences
  end.

Definition get_flagged (self : Nack) (sequences : list Z) : list Z :=
  get_flagged_loop self 32 0 (Sequence.previous_sequence (start_sequence self)) sequences.

Definition get_nacked (self : Nack) (sequences : list Z) : list Z :=
  get_flagged self (sequences ++ [start_sequence self]).

Fixpoint is_flagged_loop (self : Nack) (sequence : Z) (n : nat) (i seq : Z) : bool :=
  match n with
  | O => false
  | S n' =>
      if seq =? sequence then get_bits self i
      else is_flagged_loop self sequence n' (i + 1) (Sequence.previous_sequence seq)
  end.

Definition is_flagged (self : Nack) (sequence : Z) : bool :=
  is_flagged_loop self sequence 32 0 (Sequence.previous_sequence (start_sequence self)).

Definition is_nacked (self : Nack) (sequence : Z) : bool :=
  if start_sequence self =? sequence then true else is_flagged self sequence.

Fixpoint set_flagged_loop (self : Nack) (sequence : Z) (n : nat) (i seq : Z) : Nack :=
  match n with
  | O => self
  | S n' =>
      if seq =? sequence then set_bits self i true
      else set_flagged_loop self sequence n' (i + 1) (Sequence.previous_sequence seq)
  end.

Definition set_flagged (self : Nack) (sequence : Z) : Nack :=
  set_flagged_loop self sequence 32 0 (Sequence.previous_sequence (start_sequence self)).

(** *** Fixed-width codecs *)

Fixpoint write_loop (buffer : IntBuffer) (nacks : list Nack) (data : bytes) :
    outcome (IntBuffer * bytes) :=
  match nacks with
  | [] => Ret (buffer, data)
  | nack :: nacks' =>
      '(buffer, data) ← write_u16 buffer (start_sequence nack) data;
      '(buffer, data) ← write_u32 buffer (flags nack) data;
      write_loop buffer nacks' data
  end.

Definition write (nacks : list Nack) (data : bytes) (position : Z) : outcome (Z * bytes) :=
  if len nacks =? 0 then Ret (0, data) else
  let buffer := IntBuffer.mk position in
  '(buffer, data) ← write_u8 buffer (as_u8 (len nacks)) data;
  '(buffer, data) ← write_loop buffer nacks data;
  Ret (index buffer, data).

Fixpoint read_loop (buffer : IntBuffer) (count : nat) (sequences : list Z) (data : bytes) :
    outcome (list Z) :=
  match count with
  | O => Ret sequences
  | S count' =>
      '(buffer, start) ← read_u16 buffer data;
      let nack := default <| start_sequence := start |> in
      '(buffer, fl) ← read_u32 buffer data;
      let nack := nack <| flags := fl |> in
      read_loop buffer count' (get_nacked nack sequences) data
  end.

Definition read (sequences : list Z) (data : bytes) (position : Z) : outcome (list Z) :=
  let buffer := IntBuffer.mk position in
  '(buffer, count) ← read_u8 buffer data;
  read_loop buffer (Z.to_nat count) sequences data.

Definition read_single (sequences : list Z) (data : bytes) (position : Z) : outcome (list Z) :=
  let buffer := IntBuffer.mk position in
  '(buffer, start) ← read_u16 buffer data;
  let nack := default <| start_sequence := start |> in
  if start_sequence nack =? 0 then Ret sequences else
  '(buffer, fl) ← read_u32 buffer data;
  let nack := nack <| flags := fl |> in
  Ret (get_nacked nack sequences).

Definition write_single (nack : Nack) (data : bytes) (position : Z) : outcome (Z * bytes) :=
  let buffer := IntBuffer.mk position in
  '(buffer, data) ← write_u16 buffer (start_sequence nack) data;
  '(buffer, data) ← write_u32 buffer (flags nack) data;
  Ret (index buffer, data).

(** *** The varint codec *)

Section varint.
Context `{VarintOps}.

(** [cursor.write_varint(v).unwrap()] at [position] of the slice. *)
Definition cursor_write (w v : Z) (data : bytes) (position : Z) : outcome (Z * bytes) :=
  let bs := varint_enc w v in
  if position + len bs <=? len data
  then Ret (position + len bs, splice (Z.to_nat position) bs data)
  else Panic UnwrapOnNone.

(** [ReadVarint::<uW>::read_varint(&mut cursor).unwrap()] at [position]. *)
Definition cursor_read (w : Z) (data : bytes) (position : Z) : outcome (Z * Z) :=
  match varint_dec w (drop (Z.to_nat position) data) with
  | Some (v, rest) => Ret (v, len data - len rest)
  | None => Panic UnwrapOnNone
  end.

Fixpoint write_varint_loop (nacks : list Nack) (data : bytes) (position : Z) :
    outcome (Z * bytes) :=
  match nacks with
  | [] => Ret (position, data)
  | nack :: nacks' =>
      '(position, data) ← cursor_write 16 (start_sequence nack) data position;
      '(position, data) ← cursor_write 32 (flags nack) data position;
      write_varint_loop nacks' data position
  end.

Definition write_varint (nacks : list Nack) (data : bytes) (position : Z) : outcome (Z * bytes) :=
  if len nacks =? 0 then Ret (0, data) else
  '(position, data) ← cursor_write 16 (as_u16 (len nacks)) data position;
  write_varint_loop nacks data position.

Fixpoint read_varint_loop (count : nat) (sequences : list Z) (data : bytes) (position : Z) :
    outcome (list Z) :=
  match count with
  | O => Ret sequences
  | S count' =>
      '(start, position) ← cursor_read 16 data position;
      let nack := default <| start_sequence := start |> in
      '(fl, position) ← cursor_read 32 data position;
      let nack := nack <| flags := fl |> in
      read_varint_loop count' (get_nacked nack sequences) data position
  end.

Definition read_varint (sequences : list Z) (data : bytes) (position : Z) : outcome (list Z) :=
  '(count, position) ← cursor_read 32 data position;
  read_varint_loop (Z.to_nat count) sequences data position.
End varint.

End Nack.

(** ** The sequences a nack names *)

Lemma mask_pow i : 0 ≤ i < 32 → Nack.mask i = 2 ^ i.
Proof.
  intros Hi. unfold Nack.mask.
  replace (Z.land i 31) with i.
  - rewrite Z.shiftl_1_l. apply as_u32_small.
    split; [by apply Z.pow_nonneg|]. apply (Z.pow_lt_mono_r 2 i 32); lia.
  - change 31 with (Z.ones 5). rewrite Z.land_ones by lia. symmetry. apply Z.mod_small. lia.
Qed.

Lemma land_pow_testbit a i : 0 ≤ i → (Z.land a (2 ^ i) =? 2 ^ i) = Z.testbit a i.
Proof.
  intros Hi. apply eq_true_iff_eq. rewrite Z.eqb_eq. split.
  - intros H. apply (f_equal (λ z, Z.testbit z i)) in H.
    by rewrite Z.land_spec, Z.pow2_bits_true, andb_true_r in H.
  - intros H. apply Z.bits_inj'. intros k Hk. rewrite Z.land_spec.
    destruct (Z.eq_dec i k) as [->|Hne].
    + by rewrite H.
    + by rewrite Z.pow2_bits_false, andb_false_r.
Qed.

Lemma get_bits_testbit n i : 0 ≤ i < 32 → Nack.get_bits n i = Z.testbit (Nack.flags n) i.
Proof. intros. unfold Nack.get_bits. by rewrite mask_pow, land_pow_testbit by lia. Qed.

Lemma get_bits_set n i j :
  0 ≤ i < 32 → 0 ≤ j < 32 →
  Nack.get_bits (Nack.set_bits n i true) j = (i =? j) || Nack.get_bits n j.
Proof.
  intros Hi Hj. rewrite !get_bits_testbit by done. cbn -[Z.lor Z.testbit].
  rewrite mask_pow, Z.lor_spec, Z.pow2_bits_eqb by lia. apply orb_comm.
Qed.

(** The message indices a nack for index [k] with flags [fl] names, the first
    one first. *)
Definition flagged_indices (k fl : Z) : list Z :=
  (λ j, k - 1 - j) <$> filter (λ j, Z.testbit fl j = true) (seqZ 0 32).
Definition nacked_indices (k fl : Z) : list Z := k :: flagged_indices k fl.

Lemma get_flagged_loop_spec n k m i acc :
  0 ≤ i → i + Z.of_nat m ≤ 32 →
  Nack.get_flagged_loop n m i (seq_of (k - 1 - i)) acc =
    acc ++ (seq_of <$> ((λ j, k - 1 - j) <$>
      filter (λ j, Z.testbit (Nack.flags n) j = true) (seqZ i (Z.of_nat m)))).
Proof.
  revert i acc. induction m as [|m IH]; intros i acc Hi Hm; [by rewrite app_nil_r|].
  cbn [Nack.get_flagged_loop]. rewrite seqZ_cons by lia.
  rewrite get_bits_testbit, seq_of_previous by lia.
  replace (k - 1 - i - 1) with (k - 1 - (i + 1)) by lia.
  rewrite IH by lia. replace (Z.pred (Z.of_nat (S m))) with (Z.of_nat m) by lia.
  replace (Z.succ i) with (i + 1) by lia. rewrite filter_cons.
  destruct (Z.testbit _ i); simpl; [by rewrite <-app_assoc|done].
Qed.

Lemma get_nacked_spec n k acc :
  Nack.start_sequence n = seq_of k →
  Nack.get_nacked n acc = acc ++ (seq_of <$> nacked_indices k (Nack.flags n)).
Proof.
  intros Hk. unfold Nack.get_nacked, Nack.get_flagged. rewrite Hk, seq_of_previous.
  replace (k - 1) with (k - 1 - 0) by lia. rewrite get_flagged_loop_spec by lia.
  unfold nacked_indices, flagged_indices. simpl fmap. by rewrite <-app_assoc.
Qed.

Lemma elem_of_flagged_indices k fl x :
  x ∈ flagged_indices k fl ↔ 0 ≤ k - 1 - x < 32 ∧ Z.testbit fl (k - 1 - x) = true.
Proof.
  unfold flagged_indices. rewrite list_elem_of_fmap. split.
  - intros (j & -> & [Ht Hj%elem_of_seqZ]%list_elem_of_filter).
    replace (k - 1 - (k - 1 - j)) with j by lia. split; [lia|done].
  - intros [Hx Ht]. exists (k - 1 - x). split; [lia|].
    apply list_elem_of_filter. split; [done|]. apply elem_of_seqZ. lia.
Qed.

Lemma nacked_indices_NoDup k fl : NoDup (nacked_indices k fl).
Proof.
  constructor.
  - rewrite elem_of_flagged_indices. lia.
  - apply NoDup_fmap_2; [intros x y; lia|]. apply NoDup_filter, NoDup_seqZ.
Qed.

Lemma nacked_indices_bounds k fl x : x ∈ nacked_indices k fl → k - 32 ≤ x ≤ k.
Proof. unfold nacked_indices. rewrite elem_of_cons, elem_of_flagged_indices. lia. Qed.

(** Every nacked sequence is an index close to the nack's own. *)
Lemma elem_of_nacked n k (s : Z) :
  Nack.start_sequence n = seq_of k →
  s ∈ Nack.get_nacked n [] ↔ ∃ x, s = seq_of x ∧ x ∈ nacked_indices k (Nack.flags n).
Proof. intros Hk. rewrite (get_nacked_spec _ k), app_nil_l by done. apply list_elem_of_fmap. Qed.

(** The two searches by sequence, for a sequence at distance [k - 1 - x] behind
    the start of the nack. *)
Lemma is_flagged_loop_spec n x k m i :
  0 ≤ i → i + Z.of_nat m ≤ 32 → k - 65535 < x ≤ k →
  Nack.is_flagged_loop n (seq_of x) m i (seq_of (k - 1 - i)) =
    bool_decide (i ≤ k - 1 - x < i + Z.of_nat m) && Z.testbit (Nack.flags n) (k - 1 - x).
Proof.
  revert i. induction m as [|m IH]; intros i Hi Hm Hx.
  { cbn [Nack.is_flagged_loop]. rewrite bool_decide_eq_false_2 by lia. done. }
  cbn [Nack.is_flagged_loop]. rewrite seq_of_eqb, seq_of_previous by lia.
  replace (k - 1 - i - 1) with (k - 1 - (i + 1)) by lia.
  destruct (Z.eqb_spec (k - 1 - i) x) as [<-|Hne].
  - rewrite get_bits_testbit by lia. rewrite bool_decide_eq_true_2 by lia.
    simpl. f_equal. lia.
  - rewrite IH by lia. f_equal. apply bool_decide_ext. lia.
Qed.

Lemma set_flagged_loop_spec n x k m i :
  0 ≤ i → i + Z.of_nat m ≤ 32 → k - 65535 < x ≤ k →
  Nack.set_flagged_loop n (seq_of x) m i (seq_of (k - 1 - i)) =
    if bool_decide (i ≤ k - 1 - x < i + Z.of_nat m) then Nack.set_bits n (k - 1 - x) true else n.
Proof.
  revert i. induction m as [|m IH]; intros i Hi Hm Hx.
  { cbn [Nack.set_flagged_loop]. rewrite bool_decide_eq_false_2 by lia. done. }
  cbn [Nack.set_flagged_loop]. rewrite seq_of_eqb, seq_of_previous by lia.
  replace (k - 1 - i - 1) with (k - 1 - (i + 1)) by lia.
  destruct (Z.eqb_spec (k - 1 - i) x) as [<-|Hne].
  - rewrite bool_decide_eq_true_2 by lia. f_equal. lia.
  - rewrite IH by lia. repeat case_bool_decide; (done || lia).
Qed.

(** Every valid sequence is within one period behind a given index. *)
Lemma seq_behind k s : valid_seq s → ∃ x, s = seq_of x ∧ k - 65535 < x ≤ k.
Proof.
  intros Hs. exists (k - seq_of (k - s)).
  destruct (seq_of_spec (k - s)) as (q & Hq & Hr). split; [|lia].
  symmetry. apply (seq_of_unique _ q); [lia | done].
Qed.

Lemma is_nacked_spec n x k :
  Nack.start_sequence n = seq_of k → k - 65535 < x ≤ k →
  Nack.is_nacked n (seq_of x) = bool_decide (x ∈ nacked_indices k (Nack.flags n)).
Proof.
  intros Hk Hx. unfold Nack.is_nacked, Nack.is_flagged.
  rewrite Hk, seq_of_eqb, seq_of_previous by lia.
  replace (seq_of (k - 1)) with (seq_of (k - 1 - 0)) by (f_equal; lia).
  rewrite is_flagged_loop_spec by lia.
  unfold nacked_indices. apply eq_true_iff_eq.
  rewrite bool_decide_eq_true, elem_of_cons, elem_of_flagged_indices.
  destruct (Z.eqb_spec k x) as [->|Hne]; [naive_solver|].
  rewrite andb_true_iff, bool_decide_eq_true. naive_solver lia.
Qed.

Lemma set_flagged_spec n x k :
  Nack.start_sequence n = seq_of k → k - 65535 < x ≤ k →
  Nack.set_flagged n (seq_of x) =
    if bool_decide (1 ≤ k - x ≤ 32) then Nack.set_bits n (k - 1 - x) true else n.
Proof.
  intros Hk Hx. unfold Nack.set_flagged. rewrite Hk, seq_of_previous.
  replace (seq_of (k - 1)) with (seq_of (k - 1 - 0)) by (f_equal; lia).
  rewrite set_flagged_loop_spec by lia.
  repeat case_bool_decide; (done || lia).
Qed.

Lemma nacked_indices_set n k x y :
  1 ≤ k - x ≤ 32 →
  y ∈ nacked_indices k (Nack.flags (Nack.set_bits n (k - 1 - x) true)) ↔
  y = x ∨ y ∈ nacked_indices k (Nack.flags n).
Proof.
  intros Hx. unfold nacked_indices. rewrite !elem_of_cons, !elem_of_flagged_indices.
  assert (0 ≤ k - 1 - y < 32 →
    Z.testbit (Nack.flags (Nack.set_bits n (k - 1 - x) true)) (k - 1 - y) =
      (k - 1 - x =? k - 1 - y) || Z.testbit (Nack.flags n) (k - 1 - y)) as Hb.
  { intros Hy. rewrite <-!get_bits_testbit by lia. apply get_bits_set; lia. }
  destruct (decide (0 ≤ k - 1 - y < 32)) as [Hy|Hy]; [|split; intros; destruct_or?; lia].
  rewrite (Hb Hy), orb_true_iff, Z.eqb_eq. split.
  - intros [->|[_ [E|E]]]; [auto|left; lia|auto].
  - intros [->|[->|[_ E]]]; [right; split; [lia|left; lia]|auto|auto].
Qed.

(** The counters of a nack do not matter to what it names. *)
Lemma get_nacked_ext n n' acc :
  Nack.start_sequence n = Nack.start_sequence n' → Nack.flags n = Nack.flags n' →
  Nack.get_nacked n acc = Nack.get_nacked n' acc.
Proof.
  intros Hs Hf. unfold Nack.get_nacked, Nack.get_flagged. rewrite Hs.
  generalize (Sequence.previous_sequence (Nack.start_sequence n')), 32%nat, 0,
    (acc ++ [Nack.start_sequence n']).
  intros s m. revert s. induction m as [|m IH]; intros s i l; [done|].
  cbn [Nack.get_flagged_loop]. unfold Nack.get_bits. by rewrite Hf, IH.
Qed.

Lemma get_nacked_app n acc : Nack.get_nacked n acc = acc ++ Nack.get_nacked n [].
Proof.
  assert (∀ m s i l, Nack.get_flagged_loop n m i s l = l ++ Nack.get_flagged_loop n m i s []) as Hl.
  { induction m as [|m IH]; intros s i l; cbn [Nack.get_flagged_loop]; [by rewrite app_nil_r|].
    destruct (Nack.get_bits n i); [|apply IH].
    rewrite IH, (IH _ _ ([] ++ _)). by rewrite <-app_assoc. }
  unfold Nack.get_nacked, Nack.get_flagged. rewrite Hl, (Hl _ _ _ ([] ++ _)).
  by rewrite <-app_assoc.
Qed.

(** ** The varint codec of a nack list *)

Section varint_codec.
Context `{Varint}.
Implicit Types (nacks : list Nack.Nack) (d : bytes) (p : Z).

Definition nack_wf (n : Nack.Nack) : Prop :=
  is_u16 (Nack.start_sequence n) ∧ is_u32 (Nack.flags n).

Definition enc_nack (n : Nack.Nack) : bytes :=
  varint_enc 16 (Nack.start_sequence n) ++ varint_enc 32 (Nack.flags n).
Definition enc_nacks nacks : bytes := nacks ≫= enc_nack.

(** The sequences a list of nacks names, appended to [acc]. *)
Definition all_nacked nacks (acc : list Z) : list Z :=
  foldl (λ acc n, Nack.get_nacked n acc) acc nacks.

Lemma all_nacked_cons n nacks acc :
  all_nacked (n :: nacks) acc = all_nacked nacks (Nack.get_nacked n acc).
Proof. unfold all_nacked. cbn [foldl]. reflexivity. Qed.

Lemma length_enc_nack n : nack_wf n → 2 ≤ len (enc_nack n) ≤ 8.
Proof.
  intros [Hs Hf]. unfold enc_nack. rewrite length_app.
  pose proof (varint_enc_length 16 (Nack.start_sequence n)) as H1.
  pose proof (varint_enc_length 32 (Nack.flags n)) as H2.
  change (16 / 8) with 2 in H1. change (32 / 8) with 4 in H2. lia.
Qed.

Lemma length_enc_nacks nacks : Forall nack_wf nacks → len (enc_nacks nacks) ≤ 8 * len nacks.
Proof.
  induction 1 as [|n nacks Hn _ IH]; [done|]. unfold enc_nacks in *; cbn [mbind list_bind].
  rewrite length_app. pose proof (length_enc_nack n Hn). simpl length. lia.
Qed.

Lemma cursor_write_append w v i acc d :
  0 ≤ i → i + len acc + len (varint_enc w v) ≤ len d →
  Nack.cursor_write w v (splice (Z.to_nat i) acc d) (i + len acc) =
    Ret (i + len (acc ++ varint_enc w v), splice (Z.to_nat i) (acc ++ varint_enc w v) d).
Proof.
  intros Hi Hd. unfold Nack.cursor_write. rewrite length_splice by lia.
  destruct (Z.leb_spec (i + len acc + len (varint_enc w v)) (len d)); [|lia].
  do 2 f_equal; [rewrite length_app; lia|].
  replace (Z.to_nat (i + len acc)) with (Z.to_nat i + length acc)%nat by lia.
  apply splice_app. lia.
Qed.

Lemma write_varint_loop_append nacks i acc d :
  0 ≤ i → i + len acc + len (enc_nacks nacks) ≤ len d →
  Nack.write_varint_loop nacks (splice (Z.to_nat i) acc d) (i + len acc) =
    Ret (i + len (acc ++ enc_nacks nacks), splice (Z.to_nat i) (acc ++ enc_nacks nacks) d).
Proof.
  revert acc. induction nacks as [|n nacks IH]; intros acc Hi Hd.
  { cbn. by rewrite !app_nil_r. }
  change (enc_nacks (n :: nacks)) with (enc_nack n ++ enc_nacks nacks) in *.
  unfold enc_nack in *. cbn [Nack.write_varint_loop]. rewrite !length_app in Hd.
  rewrite cursor_write_append, bind_ret_l by lia; cbv beta iota.
  rewrite cursor_write_append, bind_ret_l by lens; cbv beta iota.
  rewrite IH by lens. by rewrite <-!app_assoc.
Qed.

Lemma cursor_read_spec w w' v d p rest :
  w = 16 ∨ w = 32 → w' = 16 ∨ w' = 32 → 0 ≤ v < 2 ^ w → 0 ≤ v < 2 ^ w' →
  suffix_at d p (varint_enc w v ++ rest) →
  Nack.cursor_read w' d p = Ret (v, p + len (varint_enc w v)).
Proof.
  intros Hw Hw' Hv Hv' [Hp Hd]. unfold Nack.cursor_read. rewrite Hd.
  rewrite varint_roundtrip by done. do 2 f_equal.
  pose proof (varint_enc_length w v Hw Hv) as Hl.
  apply (f_equal length) in Hd. rewrite length_drop, length_app in Hd. lia.
Qed.

Lemma read_varint_loop_spec nacks d p acc rest :
  Forall nack_wf nacks → suffix_at d p (enc_nacks nacks ++ rest) →
  Nack.read_varint_loop (length nacks) acc d p = Ret (all_nacked nacks acc).
Proof.
  intros Hwf. revert p acc. induction Hwf as [|n nacks [Hs Hf] _ IH]; intros p acc Hd; [done|].
  change (enc_nacks (n :: nacks)) with (enc_nack n ++ enc_nacks nacks) in Hd.
  unfold enc_nack in Hd. rewrite <-!app_assoc in Hd.
  cbn [length Nack.read_varint_loop].
  rewrite (cursor_read_spec 16 16 _ _ _ _ (or_introl eq_refl) (or_introl eq_refl) Hs Hs Hd).
  rewrite bind_ret_l; cbv beta iota. apply suffix_at_advance in Hd.
  rewrite (cursor_read_spec 32 32 _ _ _ _ (or_intror eq_refl) (or_intror eq_refl) Hf Hf Hd).
  rewrite bind_ret_l; cbv beta iota. apply suffix_at_advance in Hd.
  rewrite (IH _ _ Hd), (get_nacked_ext _ n acc) by reflexivity.
  by rewrite all_nacked_cons.
Qed.

(** The bytes [write_varint] puts at [p] for a list that is not empty. *)
Definition enc_nack_message nacks : bytes := varint_enc 16 (len nacks) ++ enc_nacks nacks.

Lemma length_enc_nack_message nacks :
  Forall nack_wf nacks → len nacks < 65536 → len (enc_nack_message nacks) ≤ 3 + 8 * len nacks.
Proof.
  intros Hwf Hn. unfold enc_nack_message. rewrite length_app.
  pose proof (length_enc_nacks nacks Hwf).
  pose proof (varint_enc_length 16 (len nacks)) as H1. change (16 / 8) with 2 in H1. lia.
Qed.

Lemma write_varint_spec nacks d p :
  nacks ≠ [] → len nacks < 65536 → 0 ≤ p → p + len (enc_nack_message nacks) ≤ len d →
  Nack.write_varint nacks d p =
    Ret (p + len (enc_nack_message nacks), splice (Z.to_nat p) (enc_nack_message nacks) d).
Proof.
  intros Hne Hn Hp Hd. unfold Nack.write_varint, enc_nack_message in *.
  rewrite length_app in Hd.
  destruct (Z.eqb_spec (len nacks) 0); [destruct nacks; simpl in *; [done|lia]|].
  rewrite as_u16_small by lia. rewrite <-(splice_nil (Z.to_nat p) d) at 1.
  replace p with (p + len (@nil Z)) at 2 by (simpl; lia).
  rewrite cursor_write_append by (simpl; lia). rewrite bind_ret_l; cbv beta iota.
  by rewrite write_varint_loop_append by (simpl; lia).
Qed.

Lemma read_varint_spec nacks d p acc rest :
  Forall nack_wf nacks → len nacks < 65536 →
  suffix_at d p (enc_nack_message nacks ++ rest) →
  Nack.read_varint acc d p = Ret (all_nacked nacks acc).
Proof.
  intros Hwf Hn Hd. unfold Nack.read_varint, enc_nack_message in *.
  rewrite <-app_assoc in Hd.
  rewrite (cursor_read_spec 16 32 (len nacks) d p _) with (5 := Hd) by (auto || lia).
  rewrite bind_ret_l; cbv beta iota. apply suffix_at_advance in Hd.
  rewrite Nat2Z.id. by eapply read_varint_loop_spec.
Qed.

Lemma all_nacked_spec nacks ks acc :
  Forall2 (λ n k, Nack.start_sequence n = seq_of k) nacks ks →
  all_nacked nacks acc =
    acc ++ (seq_of <$> (zip_with (λ n k, nacked_indices k (Nack.flags n)) nacks ks ≫= id)).
Proof.
  intros Hk. revert acc. induction Hk as [|n k nacks ks Hn _ IH]; intros acc.
  { by rewrite app_nil_r. }
  rewrite all_nacked_cons, IH. cbn [zip_with mbind list_bind].
  rewrite (get_nacked_spec n k) by done. by rewrite fmap_app, <-app_assoc.
Qed.

(** A count of nacks that the data cannot hold makes the reader panic. *)
Lemma cursor_read_consumes w d p v p' :
  0 ≤ p → Nack.cursor_read w d p = Ret (v, p') → p < p' ≤ len d.
Proof.
  intros Hp. unfold Nack.cursor_read.
  destruct (varint_dec w (drop (Z.to_nat p) d)) as [[v' rest]|] eqn:E; [|done].
  intros [= <- <-]. apply varint_dec_consumes in E as (used & E & Hu).
  apply (f_equal length) in E. rewrite length_app, length_drop in E.
  destruct used; [done|]. simpl in E. lia.
Qed.

Lemma read_varint_loop_bounded n acc d p s :
  0 ≤ p ≤ len d → Nack.read_varint_loop n acc d p = Ret s → p + 2 * Z.of_nat n ≤ len d.
Proof.
  revert acc p. induction n as [|n IH]; intros acc p Hp; [lia|].
  cbn [Nack.read_varint_loop]. intros Hr.
  apply bind_Ret in Hr as ([v1 p1] & H1 & Hr). apply bind_Ret in Hr as ([v2 p2] & H2 & Hr).
  apply cursor_read_consumes in H1; [|lia]. apply cursor_read_consumes in H2; [|lia].
  apply IH in Hr; lia.
Qed.

(** Which bytes are a nack message: a count and as many pairs. *)
Fixpoint pairs_readable (n : nat) (bs : bytes) : bool :=
  match n with
  | O => true
  | S n' =>
      match varint_dec 16 bs with
      | Some (_, bs') => match varint_dec 32 bs' with Some (_, bs'') => pairs_readable n' bs'' | None => false end
      | None => false
      end
  end.

Definition nack_message_readable (bs : bytes) : bool :=
  match varint_dec 32 bs with
  | Some (count, rest) => pairs_readable (Z.to_nat count) rest
  | None => false
  end.

(** What the cursor reads, and that it stands before the rest. *)
Lemma cursor_read_at w d p : 0 ≤ p →
  match varint_dec w (drop (Z.to_nat p) d) with
  | Some (v, rest) => ∃ p', Nack.cursor_read w d p = Ret (v, p') ∧ 0 ≤ p' ∧ drop (Z.to_nat p') d = rest
  | None => ∃ why, Nack.cursor_read w d p = Panic why
  end.
Proof.
  intros Hp. unfold Nack.cursor_read. destruct (varint_dec w (drop (Z.to_nat p) d)) as [[v rest]|] eqn:E; [|by eexists].
  eexists. split; [done|]. apply varint_dec_consumes in E as (used & E & Hu).
  pose proof (f_equal length E) as El. rewrite length_app, length_drop in El.
  assert (0 < length used)%nat as Hl by (destruct used; [done|simpl; lia]). split; [lia|].
  replace (Z.to_nat (len d - len rest)) with (Z.to_nat p + length used)%nat by lia.
  by rewrite <-drop_drop, E, drop_app_length.
Qed.

Lemma read_varint_loop_total n : ∀ acc d p, 0 ≤ p →
  if pairs_readable n (drop (Z.to_nat p) d) then returns (Nack.read_varint_loop n acc d p)
  else ∃ why, Nack.read_varint_loop n acc d p = Panic why.
Proof.
  induction n as [|n IH]; intros acc d p Hp; [by eexists|]. cbn [pairs_readable Nack.read_varint_loop].
  pose proof (cursor_read_at 16 d p Hp) as H1. destruct (varint_dec 16 _) as [[v1 rest1]|];
    [|by destruct H1 as [why ->]; exists why].
  destruct H1 as (p1 & -> & Hp1 & <-). rewrite bind_ret_l. cbv beta iota zeta.
  pose proof (cursor_read_at 32 d p1 Hp1) as H2. destruct (varint_dec 32 _) as [[v2 rest2]|];
    [|by destruct H2 as [why ->]; exists why].
  destruct H2 as (p2 & -> & Hp2 & <-). rewrite bind_ret_l. by apply IH.
Qed.

(** [read_varint] returns on what can be decoded and panics on anything else. *)
Lemma read_varint_total acc d p : 0 ≤ p →
  if nack_message_readable (drop (Z.to_nat p) d) then returns (Nack.read_varint acc d p)
  else ∃ why, Nack.read_varint acc d p = Panic why.
Proof.
  intros Hp. unfold nack_message_readable, Nack.read_varint. pose proof (cursor_read_at 32 d p Hp) as H1.
  destruct (varint_dec 32 _) as [[count rest]|]; [|by destruct H1 as [why ->]; exists why].
  destruct H1 as (p1 & -> & Hp1 & <-). rewrite bind_ret_l. by apply read_varint_loop_total.
Qed.
End varint_codec.

(** ** Properties *)

(** A nack names at most 33 sequences, without repetition, and the two ways
    the source reads it agree: [is_nacked] answers true exactly for the
    sequences [get_nacked] lists, across the wrap included. *)
Lemma is_nacked_iff_listed (n : Nack.Nack) (s : Z) :
  valid_seq (Nack.start_sequence n) → valid_seq s →
  (Nack.is_nacked n s = true ↔ s ∈ Nack.get_nacked n []) ∧
  NoDup (Nack.get_nacked n []) ∧ (length (Nack.get_nacked n []) ≤ 33)%nat.
Proof.
  intros Hk Hs. set (k := Nack.start_sequence n) in *.
  assert (Nack.start_sequence n = seq_of k) as Hn by (symmetry; by apply seq_of_small).
  destruct (seq_behind k s Hs) as (x & -> & Hx). split; [|split].
  - rewrite (is_nacked_spec n x k), bool_decide_eq_true, (elem_of_nacked n k) by done.
    split; [by eauto|]. intros (y & Hxy & Hy).
    apply nacked_indices_bounds in Hy as Hb. apply seq_of_inj in Hxy as ->; [done|lia].
  - rewrite (get_nacked_spec n k), app_nil_l by done.
    apply NoDup_fmap_2_strong; [|apply nacked_indices_NoDup].
    intros a b Ha%nacked_indices_bounds Hb%nacked_indices_bounds. apply seq_of_inj. lia.
  - rewrite (get_nacked_spec n k), app_nil_l, length_fmap by done.
    unfold nacked_indices, flagged_indices. cbn [length]. rewrite length_fmap.
    pose proof (length_filter (λ j, Z.testbit (Nack.flags n) j = true) (seqZ 0 32)) as Hf.
    rewrite length_seqZ in Hf. lia.
Qed.

Lemma is_nacked_iff_listed_witness :
  Nack.is_nacked (Nack.mk 3 17 0 0) 65533 = true ↔ 65533 ∈ Nack.get_nacked (Nack.mk 3 17 0 0) [].
Proof. apply (is_nacked_iff_listed (Nack.mk 3 17 0 0) 65533); unfold valid_seq; simpl; lia. Defined.

(** [set_flagged] adds exactly the given sequence to what a nack names when
    it is one of the 32 before the start, and otherwise changes nothing. *)
Lemma set_flagged_adds (n : Nack.Nack) (s s' : Z) :
  valid_seq (Nack.start_sequence n) → valid_seq s → valid_seq s' →
  (s' ∈ Nack.get_nacked (Nack.set_flagged n s) [] ↔
     s' ∈ Nack.get_nacked n [] ∨
     s' = s ∧ ∃ j, (1 ≤ j ≤ 32)%nat ∧
                   s = Nat.iter j Sequence.previous_sequence (Nack.start_sequence n)).
Proof.
  intros Hk Hs Hs'. set (k := Nack.start_sequence n) in *.
  assert (Nack.start_sequence n = seq_of k) as Hn by (symmetry; by apply seq_of_small).
  destruct (seq_behind k s Hs) as (x & -> & Hx), (seq_behind k s' Hs') as (y & -> & Hy).
  assert ((∃ j, (1 ≤ j ≤ 32)%nat ∧ seq_of x = Nat.iter j Sequence.previous_sequence k)
    ↔ 1 ≤ k - x ≤ 32) as Hj.
  { assert (∀ j, Nat.iter j Sequence.previous_sequence k = seq_of (k - Z.of_nat j)) as Hit.
    { intros j. by rewrite <-iter_previous, (seq_of_small k). }
    split.
    - intros (j & Hj & E). rewrite Hit in E. apply seq_of_inj in E; lia.
    - intros Hkx. exists (Z.to_nat (k - x)). split; [lia|]. rewrite Hit. f_equal. lia. }
  rewrite Hj, (set_flagged_spec n x k), (elem_of_nacked n k) by done.
  assert (∀ z, z ∈ nacked_indices k (Nack.flags n) → seq_of y = seq_of z → y = z) as Hinj.
  { intros z Hz%nacked_indices_bounds E. apply seq_of_inj in E; lia. }
  case_bool_decide as Hd.
  - assert (Nack.start_sequence (Nack.set_bits n (k - 1 - x) true) = seq_of k) as Hn' by done.
    rewrite (elem_of_nacked _ k) by done. setoid_rewrite nacked_indices_set; [|done].
    split; [|by naive_solver].
    intros (z & E & [->|Hz]); [right; split; [done|lia]|left; eauto].
  - rewrite (elem_of_nacked n k) by done. naive_solver.
Qed.

(** C22: a nack message round-trips: with room for it, [write_varint] succeeds
    and [read_varint] from the same position of the written data, whatever
    follows, names exactly the sequences of the list, in order; the data before
    the position is untouched. *)
Theorem nack_message_roundtrip `{Varint} (nacks : list Nack.Nack) (d : bytes) (p : Z) :
  Forall nack_wf nacks → nacks ≠ [] → len nacks < 65536 →
  0 ≤ p → p + 3 + 8 * len nacks ≤ len d →
  ∃ p' d', Nack.write_varint nacks d p = Ret (p', d') ∧ p < p' ≤ p + 3 + 8 * len nacks ∧
    Nack.read_varint [] d' p = Ret (nacks ≫= λ n, Nack.get_nacked n []) ∧
    take (Z.to_nat p) d' = take (Z.to_nat p) d.
Proof.
  intros Hwf Hne Hn Hp Hd. pose proof (length_enc_nack_message nacks Hwf Hn) as Hl.
  do 2 eexists. rewrite write_varint_spec by (done || lia). split; [done|].
  split; [|split].
  - unfold enc_nack_message in *. rewrite length_app in *.
    pose proof (varint_enc_length 16 (len nacks)). lia.
  - erewrite read_varint_spec by (done || (split; [lia|apply drop_splice; lia])).
    f_equal. clear. rewrite <-(app_nil_l (nacks ≫= _)). generalize (@nil Z) at 1 2.
    induction nacks as [|n nacks IH]; intros acc; [by rewrite app_nil_r|].
    rewrite all_nacked_cons, IH. cbn [mbind list_bind].
    rewrite get_nacked_app, <-app_assoc. done.
  - apply splice_before. lia.
Qed.

(** The reader trusts the count of a nack message: a count that the data
    behind it cannot hold (two bytes per nack at the least) makes it panic. *)
Lemma read_varint_panics_on_large_count `{Varint} (acc : list Z) (d : bytes) (p count : Z)
    (rest : bytes) :
  0 ≤ p ≤ len d → varint_dec 32 (drop (Z.to_nat p) d) = Some (count, rest) →
  len rest < 2 * count →
  ∃ why, Nack.read_varint acc d p = Panic why.
Proof.
  intros Hp Hdec Hc. destruct (Nack.read_varint acc d p) as [s|why] eqn:E; [|by exists why].
  exfalso. unfold Nack.read_varint in E. apply bind_Ret in E as ([v p'] & E1 & E).
  pose proof (cursor_read_consumes _ _ _ _ _ (proj1 Hp) E1) as Hc'.
  unfold Nack.cursor_read in E1. rewrite Hdec in E1. injection E1 as <- <-.
  apply read_varint_loop_bounded in E; lia.
Qed.
