(* ===== verification/leb128.v ===== *)
(** An instance of the [Varint] interface.

    The program encodes nacks with the [varuint] crate, which is a parameter of
    the model.  The base-128 encoding of this file is not that crate's code: it
    only shows that the laws the development assumes of the crate can hold, and
    lets the examples and witnesses compute. *)

From S2P Require Import prelude sequence nack.

Fixpoint leb_enc (fuel : nat) (v : Z) : bytes :=
  match fuel with
  | O => []
  | S fuel' => if v <? 128 then [v] else (v mod 128 + 128) :: leb_enc fuel' (v / 128)
  end.

Fixpoint leb_dec (fuel : nat) (bs : bytes) : option (Z * bytes) :=
  match fuel, bs with
  | S fuel', b :: bs' =>
      if b <? 128 then Some (b, bs')
      else match leb_dec fuel' bs' with
           | Some (v, rest) => Some (b - 128 + 128 * v, rest)
           | None => None
           end
  | _, _ => None
  end.

#[export] Instance leb128 : VarintOps := {
  varint_enc _ v := leb_enc 5 v;
  varint_dec _ bs := leb_dec 5 bs
}.

Lemma leb_roundtrip fuel v rest :
  0 ≤ v < 128 ^ Z.of_nat fuel → (0 < fuel)%nat →
  leb_dec fuel (leb_enc fuel v ++ rest) = Some (v, rest).
Proof.
  revert v. induction fuel as [|fuel IH]; intros v Hv Hf; [lia|].
  cbn [leb_enc]. destruct (Z.ltb_spec v 128) as [Hs|Hs]; cbn [app leb_dec].
  - by destruct (Z.ltb_spec v 128); [|lia].
  - destruct (Z.ltb_spec (v mod 128 + 128) 128); [div_lia|].
    destruct fuel as [|fuel]; [change (128 ^ Z.of_nat 1) with 128 in Hv; lia|].
    rewrite IH; [do 2 f_equal; div_lia| |lia].
    rewrite Nat2Z.inj_succ, Z.pow_succ_r in Hv by lia.
    split; [apply Z.div_pos; lia|]. apply Z.div_lt_upper_bound; lia.
Qed.

Lemma leb_length fuel k v :
  0 ≤ v < 128 ^ Z.of_nat k → (1 ≤ k ≤ fuel)%nat → (1 ≤ length (leb_enc fuel v) ≤ k)%nat.
Proof.
  revert k v. induction fuel as [|fuel IH]; intros k v Hv Hk; [lia|].
  cbn [leb_enc]. destruct (Z.ltb_spec v 128) as [Hs|Hs]; cbn [length]; [lia|].
  destruct k as [|[|k]]; [lia|change (128 ^ Z.of_nat 1) with 128 in Hv; lia|].
  assert (0 ≤ v / 128 < 128 ^ Z.of_nat (S k)) as Hd.
  { rewrite Nat2Z.inj_succ, Z.pow_succ_r in Hv by lia.
    split; [apply Z.div_pos; lia|]. apply Z.div_lt_upper_bound; lia. }
  specialize (IH (S k) _ Hd). lia.
Qed.

Lemma leb_dec_consumes fuel bs v rest :
  leb_dec fuel bs = Some (v, rest) → ∃ used, bs = used ++ rest ∧ used ≠ [].
Proof.
  revert bs v. induction fuel as [|fuel IH]; intros [|b bs] v; [done..|].
  cbn [leb_dec]. destruct (b <? 128).
  - intros [= -> ->]. by exists [v].
  - destruct (leb_dec fuel bs) as [[v' rest']|] eqn:E; [|done]. intros [= _ ->].
    apply IH in E as (used & -> & _). by exists (b :: used).
Qed.

#[export] Instance leb128_varint : Varint leb128.
Proof.
  split.
  - intros w w' v rest Hw _ Hv _. apply leb_roundtrip; [|lia].
    change (128 ^ Z.of_nat 5) with 34359738368. destruct Hw as [->| ->]; lia.
  - intros w v [->| ->] Hv.
    + pose proof (leb_length 5 3 v) as Hl. change (128 ^ Z.of_nat 3) with 2097152 in Hl. change (16 / 8 + 1) with 3. cbn [varint_enc leb128]. lia.
    + pose proof (leb_length 5 5 v) as Hl. change (128 ^ Z.of_nat 5) with 34359738368 in Hl. change (32 / 8 + 1) with 5. cbn [varint_enc leb128]. lia.
  - intros w bs v rest. apply leb_dec_consumes.
Qed.

(** The encoder and the nack list of the example, and its round trip. *)
Definition nacks_example : list Nack.Nack := [Nack.mk 1 4294967295 0 0; Nack.mk 65000 9 0 0].

Lemma nack_message_roundtrip_witness :
  ∃ p' d', Nack.write_varint nacks_example (replicate 40 7) 4 = Ret (p', d') ∧ 4 < p' ≤ 23 ∧
    Nack.read_varint [] d' 4 = Ret (nacks_example ≫= λ n, Nack.get_nacked n []) ∧
    take (Z.to_nat 4) d' = take (Z.to_nat 4) (replicate 40 7).
Proof.
  apply (nack_message_roundtrip nacks_example (replicate 40 7) 4).
  - repeat constructor; simpl; lia.
  - done.
  - simpl; lia.
  - lia.
  - simpl; lia.
Defined.

Lemma read_varint_panics_on_large_count_witness :
  ∃ why, Nack.read_varint [] [4; 0; 0; 0; 255; 1; 0; 0] 4 = Panic why.
Proof.
  apply (read_varint_panics_on_large_count [] [4; 0; 0; 0; 255; 1; 0; 0] 4 255 [0; 0]).
  - simpl; lia.
  - reflexivity.
  - simpl; lia.
Defined.
