(* ===== verification/byte_buffer_pool.v ===== *)
(** Byte buffers and their pool ([src/tachyon/byte_buffer_pool.rs]).

    A [ByteBuffer] owns its bytes; its [length] is the part of them in use and
    its [pooled] flag says that it was allocated at the pool's buffer size.  The
    pool recycles buffers in FIFO order without clearing them: a recycled buffer
    keeps the bytes of its previous use.  The invariant [pool_wf] says what the
    rest of the program relies on: every buffer in circulation is large enough
    for its length, so that no slice of it panics. *)

From S2P Require Import prelude.

Definition BYTE_BUFFER_SIZE_DEFAULT : Z := 1240.
Definition POOL_SIZE_DEFAULT : Z := 512.

Module ByteBuffer.

Record ByteBuffer := mk { data : bytes; length : Z; pooled : bool; version : Z }.

#[global] Instance eta_ByteBuffer : Eta ByteBuffer := λ b,
  mk (data b) (length b) (pooled b) (version b).

Definition create (length : Z) : outcome ByteBuffer :=
  data ← vec_zeroed length;
  Ret (mk data length false 0).

Definition get (self : ByteBuffer) : bytes := data self.

(** The caller's write through [get_mut()] replaces the bytes. *)
Definition get_mut (self : ByteBuffer) (data' : bytes) : ByteBuffer := self <| data := data' |>.

End ByteBuffer.

Module ByteBufferPool.
Import ByteBuffer.

Record ByteBufferPool := mk {
  buffer_size : Z;
  pool_size : Z;
  buffers : list ByteBuffer;
  count : Z
}.

#[global] Instance eta_ByteBufferPool : Eta ByteBufferPool := λ p,
  mk (buffer_size p) (pool_size p) (buffers p) (count p).

Definition create (buffer_size max_buffers : Z) : ByteBufferPool :=
  mk buffer_size max_buffers [] 0.

Definition default : ByteBufferPool := create BYTE_BUFFER_SIZE_DEFAULT POOL_SIZE_DEFAULT.

Definition len_ (self : ByteBufferPool) : Z := len (buffers self).

Definition return_buffer (self : ByteBufferPool) (byte_buffer : ByteBuffer) :
    ByteBufferPool * bool :=
  if length byte_buffer <=? buffer_size self then
    if count self <? pool_size self then
      let byte_buffer := byte_buffer <| version := as_u64 (version byte_buffer + 1) |> in
      (self <| buffers := buffers self ++ [byte_buffer] |> <| count := count self + 1 |>, true)
    else (self, false)
  else (self, false).

Definition get_buffer (self : ByteBufferPool) (length' : Z) :
    outcome (ByteBufferPool * ByteBuffer) :=
  if buffer_size self <? length' then
    data ← vec_zeroed length';
    Ret (self, ByteBuffer.mk data length' false 0)
  else
    match buffers self with
    | pooled :: rest =>
        let self := self <| buffers := rest |> <| count := usize_sub (count self) 1 |> in
        Ret (self, pooled <| length := length' |>)
    | [] =>
        data ← vec_zeroed (buffer_size self);
        Ret (self, ByteBuffer.mk data length' true 0)
    end.

End ByteBufferPool.

Import ByteBuffer ByteBufferPool.

(** ** The invariant of buffers in circulation *)

(** A buffer that a pool of buffer size [size] handed out: a pooled one has
    [size] bytes of which [length] are in use, any other one is larger than the
    pool's buffers and is used in full. *)
Definition buffer_ok (size : Z) (b : ByteBuffer) : Prop :=
  if pooled b then len (data b) = size ∧ 0 ≤ length b ≤ size
  else len (data b) = length b ∧ size < length b.

Record pool_wf (p : ByteBufferPool) : Prop := {
  wf_size : 0 ≤ buffer_size p ≤ isize_max;
  wf_max : pool_size p ≤ isize_max;
  wf_count : count p = len (buffers p);
  wf_bound : len (buffers p) ≤ Z.max 0 (pool_size p);
  wf_buffers : Forall (λ b, pooled b = true ∧ len (data b) = buffer_size p) (buffers p)
}.

Lemma buffer_ok_length size b : 0 ≤ size → buffer_ok size b → 0 ≤ length b ≤ len (data b).
Proof. unfold buffer_ok. destruct (pooled b); lia. Qed.

Lemma pool_wf_create size max :
  0 ≤ size ≤ isize_max → max ≤ isize_max → pool_wf (create size max).
Proof. intros. split; simpl; (done || lia || constructor). Qed.

Lemma pool_wf_default : pool_wf default.
Proof. apply pool_wf_create; unfold BYTE_BUFFER_SIZE_DEFAULT, POOL_SIZE_DEFAULT, isize_max; lia. Qed.

Lemma vec_zeroed_spec n : n ≤ isize_max → vec_zeroed n = Ret (replicate (Z.to_nat n) 0).
Proof. intros. unfold vec_zeroed. by destruct (Z.leb_spec n isize_max); [|lia]. Qed.

Lemma get_buffer_spec p n :
  pool_wf p → 0 ≤ n ≤ isize_max →
  ∃ p' b, get_buffer p n = Ret (p', b) ∧ pool_wf p' ∧
    buffer_size p' = buffer_size p ∧ pool_size p' = pool_size p ∧
    buffer_ok (buffer_size p) b ∧ length b = n ∧ pooled b = (n <=? buffer_size p).
Proof.
  intros [Hs Hm Hc Hb Hbs] Hn. unfold get_buffer.
  destruct (Z.ltb_spec (buffer_size p) n).
  - rewrite vec_zeroed_spec by lia. simpl. do 2 eexists. split; [done|].
    split_and!; try done; unfold buffer_ok; simpl.
    + rewrite length_replicate. lia.
    + symmetry. apply Z.leb_gt. lia.
  - destruct (buffers p) as [|b rest] eqn:E.
    + rewrite vec_zeroed_spec by lia. simpl. do 2 eexists. split; [done|].
      split_and!; try done; unfold buffer_ok; simpl.
      * split; rewrite ?E; (done || lia).
      * rewrite length_replicate. lia.
      * symmetry. apply Z.leb_le. lia.
    + apply Forall_cons in Hbs as [[Hp Hd] Hrest]. cbn [List.length] in *.
      do 2 eexists. split; [done|].
      split_and!; try done; simpl.
      * split; simpl; try (done || lia).
        rewrite Hc. unfold isize_max in *. rewrite usize_sub_small by lia. lia.
      * unfold buffer_ok; simpl. rewrite Hp. lia.
      * rewrite Hp. symmetry. apply Z.leb_le. lia.
Qed.

Lemma return_buffer_wf p b :
  pool_wf p → buffer_ok (buffer_size p) b →
  pool_wf (return_buffer p b).1 ∧ buffer_size (return_buffer p b).1 = buffer_size p ∧
  pool_size (return_buffer p b).1 = pool_size p ∧
  (return_buffer p b).2 = pooled b && (len (buffers p) <? pool_size p).
Proof.
  intros Hp Hb. pose proof Hp as [Hs Hm Hc Hbd Hbs]. unfold return_buffer, buffer_ok in *.
  rewrite Hc in *.
  destruct (Z.leb_spec (length b) (buffer_size p)), (pooled b) eqn:Epool; try lia; [|done].
  destruct (Z.ltb_spec (len (buffers p)) (pool_size p)); [|done].
  simpl. split_and!; try done. split; simpl; try done.
  - rewrite length_app. simpl. lia.
  - rewrite length_app. simpl. lia.
  - apply Forall_app. split; [done|]. repeat constructor; simpl; [done|lia].
Qed.

Create HintDb pool.
#[export] Hint Resolve pool_wf_create pool_wf_default : pool.

(** ** Using a pool

    A client of the pool takes buffers and gives some of those it holds back;
    giving one back moves it, as ownership in the source does. *)

Inductive pool_op :=
| Get (length : Z)
| Return (i : nat).

Definition pool_step (s : ByteBufferPool * list ByteBuffer) (op : pool_op) :
    outcome (ByteBufferPool * list ByteBuffer) :=
  let '(pool, held) := s in
  match op with
  | Get length =>
      '(pool, b) ← get_buffer pool length;
      Ret (pool, held ++ [b])
  | Return i =>
      match held !! i with
      | Some b => Ret ((return_buffer pool b).1, delete i held)
      | None => Ret (pool, held)
      end
  end.

Definition pool_inv (size max : Z) (s : ByteBufferPool * list ByteBuffer) : Prop :=
  pool_wf s.1 ∧ buffer_size s.1 = size ∧ pool_size s.1 = max ∧
  Forall (buffer_ok size) s.2.

Definition pool_op_ok (op : pool_op) : Prop :=
  match op with Get length => 0 ≤ length ≤ isize_max | Return _ => True end.

Lemma pool_step_inv size max s op :
  pool_inv size max s → pool_op_ok op →
  ∃ s', pool_step s op = Ret s' ∧ pool_inv size max s'.
Proof.
  destruct s as [pool held]. intros (Hp & Hs & Hm & Hh) Hop. simpl in *.
  destruct op as [n|i]; simpl in *.
  - destruct (get_buffer_spec pool n Hp Hop) as (p' & b & -> & Hp' & ? & ? & Hb & _).
    simpl. eexists; split; [done|]. split; [done|]. split; [simpl; congruence|].
    split; [simpl; congruence|]. simpl. apply Forall_app. split; [done|]. constructor; [by rewrite <-Hs|done].
  - destruct (held !! i) as [b|] eqn:Hi; [|by eexists].
    eexists; split; [done|]. rewrite Forall_lookup in Hh. pose proof (Hh _ _ Hi) as Hb.
    rewrite <-Hs in Hb. destruct (return_buffer_wf pool b Hp Hb) as (? & ? & ? & _).
    split; [done|]. split; [simpl; congruence|]. split; [simpl; congruence|].
    simpl. by apply Forall_delete, Forall_lookup.
Qed.

(** C30: whatever a client does with a pool, taking buffers of any lengths and
    giving any of those it holds back in any order, nothing panics, every
    buffer it holds has the bytes its length says, a buffer no longer than the
    pool's size is always a pooled one, and the pool never keeps more buffers
    than its bound. *)
Theorem pool_serves_usable_buffers (size max : Z) (ops : list pool_op) :
  0 ≤ size ≤ isize_max → max ≤ isize_max → Forall pool_op_ok ops →
  ∃ pool held, foldl_m pool_step (create size max, []) ops = Ret (pool, held) ∧
    len_ pool = count pool ∧ len_ pool ≤ Z.max 0 max ∧
    Forall (λ b, 0 ≤ length b ≤ len (data b) ∧ pooled b = (length b <=? size)) held.
Proof.
  intros Hs Hm Hops.
  destruct (foldl_m_ind pool_step (λ _, pool_inv size max) ops (create size max, []))
    as ([pool held] & Hf & Hp & Hsz & Hmx & Hh).
  - split_and!; simpl; try done. by apply pool_wf_create.
  - intros k op s Hop Hinv. rewrite Forall_lookup in Hops.
    destruct (pool_step_inv size max s op Hinv) as (s' & ? & ?); eauto.
  - exists pool, held. simpl in *. destruct Hp as [_ _ Hc Hb _]. unfold len_.
    split_and!; [done|congruence|lia|].
    eapply Forall_impl; [exact Hh|]. intros b Hok. split; [eapply buffer_ok_length; [|done]; lia|].
    unfold buffer_ok in Hok. destruct (pooled b); symmetry; [apply Z.leb_le|apply Z.leb_gt]; lia.
Qed.

Lemma pool_serves_usable_buffers_witness :
  ∃ pool held,
    foldl_m pool_step (create 100 1, []) [Get 10; Get 200; Get 0; Return 0; Return 0; Return 0; Get 7]
      = Ret (pool, held) ∧
    len_ pool = count pool ∧ len_ pool ≤ Z.max 0 1 ∧
    Forall (λ b, 0 ≤ length b ≤ len (data b) ∧ pooled b = (length b <=? 100)) held.
Proof.
  apply (pool_serves_usable_buffers 100 1); [unfold isize_max; lia..|].
  repeat constructor; simpl; unfold isize_max; lia.
Defined.
