(* ===== verification/send_buffer_manager.v ===== *)
(** The send buffers of a channel ([src/tachyon/send_buffer_manager.rs]).

    Every reliable message and fragment gets the next sequence and a buffer that
    is kept for resends in a 1024-slot sequence buffer; the slot's previous
    buffer is reused or recycled.  Time is a number of milliseconds: the clock
    reading [now] is an argument of the operations that read it. *)

From S2P Require Import prelude sequence sequence_buffer byte_buffer_pool.

Definition SEND_BUFFER_SIZE : Z := 1024.
Definition EXPIRE : Z := 5000.

Module SendBufferManager.
Import SequenceBuffer ByteBufferPool.

Record SendBuffer := mk_buffer {
  sequence : Z;
  byte_buffer : ByteBuffer.ByteBuffer;
  created_at : Z
}.

#[global] Instance eta_SendBuffer : Eta SendBuffer := λ b,
  mk_buffer (sequence b) (byte_buffer b) (created_at b).

Record SendBufferManager := mk {
  current_sequence : Z;
  buffers : SequenceBuffer SendBuffer;
  buffer_pool : ByteBufferPool
}.

#[global] Instance eta_SendBufferManager : Eta SendBufferManager := λ m,
  mk (current_sequence m) (buffers m) (buffer_pool m).

Definition default : SendBufferManager :=
  let buffers := SequenceBuffer.mk (replicate (Z.to_nat SEND_BUFFER_SIZE) None) SEND_BUFFER_SIZE in
  mk 0 buffers (ByteBufferPool.create BYTE_BUFFER_SIZE_DEFAULT SEND_BUFFER_SIZE).

Definition get_send_buffer (self : SendBufferManager) (sequence : Z) :
    outcome (option SendBuffer) :=
  SequenceBuffer.get_mut (buffers self) sequence.

(** [created_at.elapsed().as_millis()], which saturates at zero. *)
Definition elapsed_millis (now since : Z) : Z := Z.max 0 (now - since).

Definition expired_sequences (now : Z) (values : list (option SendBuffer)) : list Z :=
  values ≫= λ value,
    match value with
    | Some buffer =>
        if EXPIRE <? elapsed_millis now (created_at buffer) then [sequence buffer] else []
    | None => []
    end.

Fixpoint remove_all (buffers : SequenceBuffer SendBuffer) (expired : list Z) :
    outcome (SequenceBuffer SendBuffer) :=
  match expired with
  | [] => Ret buffers
  | sequence :: expired' =>
      buffers ← SequenceBuffer.remove buffers sequence;
      remove_all buffers expired'
  end.

Definition expire (self : SendBufferManager) (now : Z) : outcome SendBufferManager :=
  let expired := expired_sequences now (values (buffers self)) in
  buffers' ← remove_all (buffers self) expired;
  Ret (self <| buffers := buffers' |>).

Definition create_send_buffer_old (self : SendBufferManager) (length now : Z) :
    outcome (SendBufferManager * option SendBuffer) :=
  let self := self <| current_sequence := Sequence.next_sequence (current_sequence self) |> in
  byte_buffer ← ByteBuffer.create length;
  let buffer := mk_buffer (current_sequence self) byte_buffer now in
  '(buffers', _) ← SequenceBuffer.insert (buffers self) (current_sequence self) buffer;
  let self := self <| buffers := buffers' |> in
  found ← SequenceBuffer.get_mut (buffers self) (current_sequence self);
  Ret (self, found).

Definition create_send_buffer (self : SendBufferManager) (length now : Z) :
    outcome (SendBufferManager * option SendBuffer) :=
  let self := self <| current_sequence := Sequence.next_sequence (current_sequence self) |> in
  '(taken, buffers') ← SequenceBuffer.take (buffers self) (current_sequence self);
  let self := self <| buffers := buffers' |> in
  match taken with
  | Some send_buffer =>
      '(pool, byte_buffer') ←
        (if ByteBuffer.pooled (byte_buffer send_buffer) && (length <=? buffer_size (buffer_pool self))
         then Ret (buffer_pool self, (byte_buffer send_buffer) <| ByteBuffer.length := length |>)
         else
           let '(pool, _) := return_buffer (buffer_pool self) (byte_buffer send_buffer) in
           get_buffer pool length);
      let self := self <| buffer_pool := pool |> in
      let send_buffer := send_buffer <| byte_buffer := byte_buffer' |> in
      let send_buffer := send_buffer <| sequence := current_sequence self |> in
      let send_buffer := send_buffer <| created_at := now |> in
      '(buffers', found) ← SequenceBuffer.insert (buffers self) (current_sequence self) send_buffer;
      Ret (self <| buffers := buffers' |>, found)
  | None =>
      '(pool, byte_buffer') ← get_buffer (buffer_pool self) length;
      let self := self <| buffer_pool := pool |> in
      let send_buffer := mk_buffer (current_sequence self) byte_buffer' now in
      '(buffers', found) ← SequenceBuffer.insert (buffers self) (current_sequence self) send_buffer;
      Ret (self <| buffers := buffers' |>, found)
  end.

(** What a caller writes through the [&mut SendBuffer] it was given. *)
Definition store (self : SendBufferManager) (send_buffer : SendBuffer) :
    outcome SendBufferManager :=
  '(buffers', _) ← SequenceBuffer.insert (buffers self) (sequence send_buffer) send_buffer;
  Ret (self <| buffers := buffers' |>).

End SendBufferManager.

(** ** The invariant *)

Import SequenceBuffer SendBufferManager.

(** The manager has created [n] buffers since it was made, and [kept k sb] holds
    of the buffer in the slot of each of the last 1023 of them. *)
Record manages (m : SendBufferManager) (n : Z) (kept : Z → SendBuffer → Prop) : Prop := {
  mg_current : current_sequence m = seq_of n;
  mg_buffers : SequenceBuffer.wf (buffers m);
  mg_slots : partition_by (buffers m) = 1024;
  mg_pool : pool_wf (buffer_pool m);
  mg_size : ByteBufferPool.buffer_size (buffer_pool m) = BYTE_BUFFER_SIZE_DEFAULT;
  mg_ok k sb : at_slot (buffers m) k = Some sb →
    buffer_ok BYTE_BUFFER_SIZE_DEFAULT (byte_buffer sb) ∧ valid_seq (sequence sb) ∧
    slot (buffers m) (sequence sb) = k;
  mg_kept k : 1 ≤ k → n - 1022 ≤ k ≤ n →
    ∃ sb, at_slot (buffers m) (slot (buffers m) (seq_of k)) = Some sb ∧
          sequence sb = seq_of k ∧ kept k sb
}.

Section manager.
Implicit Types (m : SendBufferManager) (n k : Z) (kept : Z → SendBuffer → Prop).

Lemma manages_default kept : manages SendBufferManager.default 0 kept.
Proof.
  assert (buffers SendBufferManager.default = empty SendBuffer 1024) as Hb by done.
  split; rewrite ?Hb; [done|by apply empty_wf|done| |done| |lia].
  - apply pool_wf_create; unfold BYTE_BUFFER_SIZE_DEFAULT, SEND_BUFFER_SIZE, isize_max; lia.
  - intros k sb. by rewrite at_slot_empty.
Qed.

Lemma get_send_buffer_spec m n kept s :
  manages m n kept →
  get_send_buffer m s = Ret (at_slot (buffers m) (slot (buffers m) s)).
Proof. intros []. by apply get_mut_wf. Qed.

(** The buffer a fresh sequence is given. *)
Lemma create_byte_buffer m n kept (taken : option SendBuffer) length :
  manages m n kept → 0 ≤ length ≤ isize_max →
  (∀ sb, taken = Some sb → buffer_ok BYTE_BUFFER_SIZE_DEFAULT (byte_buffer sb)) →
  ∃ pool b,
    pool_wf pool ∧ ByteBufferPool.buffer_size pool = BYTE_BUFFER_SIZE_DEFAULT ∧
    buffer_ok BYTE_BUFFER_SIZE_DEFAULT b ∧ ByteBuffer.length b = length ∧
    match taken with
    | Some sb =>
        (if ByteBuffer.pooled (byte_buffer sb) &&
            (length <=? ByteBufferPool.buffer_size (buffer_pool m))
         then Ret (buffer_pool m, (byte_buffer sb) <| ByteBuffer.length := length |>)
         else let '(pool, _) := ByteBufferPool.return_buffer (buffer_pool m) (byte_buffer sb) in
              ByteBufferPool.get_buffer pool length) = Ret (pool, b)
    | None => ByteBufferPool.get_buffer (buffer_pool m) length = Ret (pool, b)
    end.
Proof.
  intros Hm Hl Htaken. pose proof (mg_pool _ _ _ Hm) as Hp. pose proof (mg_size _ _ _ Hm) as Hs.
  destruct taken as [sb|].
  - specialize (Htaken sb eq_refl). rewrite Hs.
    destruct (ByteBuffer.pooled (byte_buffer sb) && (length <=? BYTE_BUFFER_SIZE_DEFAULT)) eqn:E.
    + apply andb_true_iff in E as [Epool Elen%Z.leb_le].
      exists (buffer_pool m), ((byte_buffer sb) <| ByteBuffer.length := length |>).
      split_and!; try done. unfold buffer_ok in *. simpl. rewrite Epool in *. lia.
    + rewrite <-Hs in Htaken. destruct (return_buffer_wf _ _ Hp Htaken) as (Hp' & Hs' & _).
      destruct (ByteBufferPool.return_buffer _ _) as [pool r]. simpl in Hp', Hs'.
      destruct (get_buffer_spec pool length Hp' Hl) as (pool' & b & -> & ? & ? & ? & ? & ? & _).
      exists pool', b. split_and!; try done; congruence.
  - destruct (get_buffer_spec _ length Hp Hl) as (pool' & b & -> & ? & ? & ? & ? & ? & _).
    exists pool', b. split_and!; try done; congruence.
Qed.

Lemma create_send_buffer_spec m n kept length now :
  manages m n kept → 0 ≤ n → 0 ≤ length ≤ isize_max →
  ∃ m' sb,
    create_send_buffer m length now = Ret (m', Some sb) ∧
    manages m' (n + 1) (λ k b, if decide (k = n + 1) then b = sb else kept k b) ∧
    sequence sb = seq_of (n + 1) ∧ created_at sb = now ∧
    ByteBuffer.length (byte_buffer sb) = length ∧
    buffer_ok BYTE_BUFFER_SIZE_DEFAULT (byte_buffer sb).
Proof.
  intros Hm Hn Hl. pose proof Hm as [Hc Hb Hp Hpool Hs Hok Hk].
  unfold create_send_buffer; cbn [set current_sequence buffers]. rewrite Hc, seq_of_next.
  rewrite take_wf by done. rewrite bind_ret_l; cbv beta iota.
  set (s := slot (buffers m) (seq_of (n + 1))).
  destruct (create_byte_buffer m n kept (at_slot (buffers m) s) length Hm Hl)
    as (pool & b & Hp' & Hs' & Hbok & Hbl & Hget).
  { intros sb Hsb. by eapply Hok. }
  assert (∃ m' sb, sb = mk_buffer (seq_of (n + 1)) b now ∧
    m' = mk (seq_of (n + 1)) (put_slot s (Some sb) (put_slot s None (buffers m))) pool ∧
    manages m' (n + 1) (λ k b, if decide (k = n + 1) then b = sb else kept k b))
    as (m' & sb & Esb & Em & Hm').
  { do 2 eexists. split; [done|]. split; [done|]. split; simpl; try done.
    - by do 2 apply put_slot_wf.
    - intros k sb Hsb. destruct (decide (k = s)) as [->|Hne].
      + rewrite at_put_slot_eq in Hsb by (rewrite length_put_slot; by apply slot_lt).
        injection Hsb as <-. split; [done|]. split; [apply seq_of_valid|done].
      + rewrite !at_put_slot_ne in Hsb by done. by eapply Hok.
    - intros k Hk1 Hk2. rewrite !slot_put_slot. case_decide as Hkn.
      + subst k. eexists.
        rewrite at_put_slot_eq by (rewrite length_put_slot; by apply slot_lt).
        split; [reflexivity | by split].
      + destruct (Hk k) as (sb & Hsb & Hseq & Hkept); [lia..|].
        exists sb. split; [|done]. rewrite !at_put_slot_ne; [done|..];
          apply slot_seq_of_ne; (done || lia). }
  exists m', sb. split; [|subst sb; split_and!; done].
  destruct (at_slot (buffers m) s) as [old|]; simpl in Hget |- *; rewrite Hget; simpl;
    (rewrite insert_wf by by apply put_slot_wf); simpl; by subst.
Qed.
End manager.

Lemma manages_weaken m n (kept kept' : Z → SendBuffer → Prop) :
  (∀ k b, 1 ≤ k ≤ n → buffer_ok BYTE_BUFFER_SIZE_DEFAULT (byte_buffer b) → kept k b → kept' k b) →
  manages m n kept → manages m n kept'.
Proof.
  intros Hw []. split; try done. intros k Hk1 Hk2.
  destruct (mg_kept0 k Hk1 Hk2) as (sb & Hsb & Hs & Hkept). exists sb.
  apply mg_ok0 in Hsb as Hok. split_and!; try done. apply Hw; [lia|by apply Hok|done].
Qed.

(** The loop of a channel that creates one buffer per requested length. *)
Definition create_all (m : SendBufferManager) (now : Z) (lengths : list Z) :
    outcome SendBufferManager :=
  foldl_m (λ m length, '(m, _) ← create_send_buffer m length now; Ret m) m lengths.

Lemma create_all_manages now (lengths : list Z) :
  Forall (λ l, 0 ≤ l ≤ isize_max) lengths →
  ∃ m, create_all SendBufferManager.default now lengths = Ret m ∧
    manages m (len lengths) (λ k b,
      lengths !! Z.to_nat (k - 1) = Some (ByteBuffer.length (byte_buffer b)) ∧
      ByteBuffer.length (byte_buffer b) ≤ len (ByteBuffer.data (byte_buffer b))).
Proof.
  intros Hl. unfold create_all.
  apply (foldl_m_ind _ (λ i m, manages m (Z.of_nat i) _)); [apply manages_default|].
  intros i l m Hi Hm. rewrite Forall_lookup in Hl. pose proof (Hl _ _ Hi) as Hil.
  destruct (create_send_buffer_spec m _ _ l now Hm) as (m' & sb & -> & Hm' & _ & _ & Hsl & Hok);
    [lia|done|].
  simpl. exists m'. split; [done|]. replace (Z.of_nat (S i)) with (Z.of_nat i + 1) by lia.
  eapply manages_weaken, Hm'. intros k b Hk Hb. simpl. case_decide as Hki; [|done].
  intros ->. split.
  - rewrite Hsl. replace (Z.to_nat (k - 1)) with i by lia. done.
  - eapply buffer_ok_length, Hok. unfold BYTE_BUFFER_SIZE_DEFAULT; lia.
Qed.

(** ** The log of what was sent

    A caller fills the buffer it was given; [sends m n log] says that the manager
    holds the packet [log k] for each of the last 1023 of [n] messages. *)

Definition holds (p : bytes) (sb : SendBuffer) : Prop :=
  ByteBuffer.length (byte_buffer sb) = len p ∧
  list.take (length p) (ByteBuffer.data (byte_buffer sb)) = p.

Definition sends (m : SendBufferManager) (n : Z) (log : Z → bytes) : Prop :=
  manages m n (λ k sb, holds (log k) sb).

(** What the caller writes through the reference it was given. *)
Definition fill (sb : SendBuffer) (d : bytes) : SendBuffer :=
  sb <| byte_buffer := ByteBuffer.get_mut (byte_buffer sb) d |>.

Lemma store_spec m n kept sb :
  manages m n kept → sequence sb = seq_of n →
  buffer_ok BYTE_BUFFER_SIZE_DEFAULT (byte_buffer sb) →
  ∃ m', store m sb = Ret m' ∧ manages m' n (λ k b, if decide (k = n) then b = sb else kept k b).
Proof.
  intros [Hc Hb Hp Hpool Hs Hok Hk] Hsb Hbok. unfold store.
  rewrite insert_wf by done. eexists; split; [done|]. rewrite Hsb. split; simpl; try done.
  - by apply put_slot_wf.
  - intros k b. destruct (decide (slot (buffers m) (seq_of n) = k)) as [<-|Hne].
    + rewrite at_put_slot_eq by by apply slot_lt. intros [= <-]. split; [done|].
      rewrite Hsb. split; [apply seq_of_valid|done].
    + rewrite at_put_slot_ne by done. apply Hok.
  - intros k Hk1 Hk2. case_decide as Hkn.
    + subst k. exists sb. split; [|done]. rewrite slot_put_slot.
      by rewrite at_put_slot_eq by by apply slot_lt.
    + destruct (Hk k Hk1 Hk2) as (b & Hb1 & Hb2 & Hb3). exists b. split; [|done].
      rewrite slot_put_slot, at_put_slot_ne; [done|]. apply slot_seq_of_ne; (done || lia).
Qed.

(** Creating a buffer and filling it. *)
Lemma send_spec m n log size now :
  sends m n log → 0 ≤ n → 0 ≤ size ≤ isize_max →
  ∃ m1 sb, create_send_buffer m size now = Ret (m1, Some sb) ∧
    sequence sb = seq_of (n + 1) ∧ ByteBuffer.length (byte_buffer sb) = size ∧
    size ≤ len (ByteBuffer.data (byte_buffer sb)) ∧
    ∀ d, length d = length (ByteBuffer.data (byte_buffer sb)) →
      ∃ m2, store m1 (fill sb d) = Ret m2 ∧
        sends m2 (n + 1) (λ k, if decide (k = n + 1) then list.take (Z.to_nat size) d else log k).
Proof.
  intros Hm Hn Hs. destruct (create_send_buffer_spec m n _ size now Hm Hn Hs)
    as (m1 & sb & Hcreate & Hm1 & Hseq & _ & Hlen & Hok).
  exists m1, sb. assert (0 ≤ BYTE_BUFFER_SIZE_DEFAULT) as H0 by (unfold BYTE_BUFFER_SIZE_DEFAULT; lia).
  pose proof (buffer_ok_length _ _ H0 Hok) as Hbl.
  split_and!; [done..|lia|]. intros d Hd.
  destruct (store_spec m1 (n + 1) _ (fill sb d) Hm1) as (m2 & Hstore & Hm2); [done| |].
  { unfold buffer_ok, fill in *; simpl. by rewrite Hd. }
  exists m2. split; [done|]. eapply manages_weaken, Hm2.
  intros k b Hk _. simpl. case_decide; [intros ->|done].
  split; simpl.
  - rewrite length_take. lia.
  - rewrite length_take. f_equal. lia.
Qed.

(** ** Expiry *)

Definition drop_expired (now : Z) (v : option SendBuffer) : option SendBuffer :=
  match v with
  | Some b => if EXPIRE <? elapsed_millis now (created_at b) then None else Some b
  | None => None
  end.

Lemma remove_all_spec b ss :
  SequenceBuffer.wf b →
  ∃ b', remove_all b ss = Ret b' ∧ SequenceBuffer.wf b' ∧ partition_by b' = partition_by b ∧
    ∀ k, (k < length (values b))%nat →
      at_slot b' k = if decide (k ∈ (slot b <$> ss)) then None else at_slot b k.
Proof.
  revert b. induction ss as [|s ss IH]; intros b Hb.
  { exists b. split_and!; [done..|]. intros k _. by rewrite decide_False by apply not_elem_of_nil. }
  cbn [remove_all fmap list_fmap]. rewrite remove_wf, bind_ret_l by done.
  destruct (IH (put_slot (slot b s) None b)) as (b' & -> & Hb' & Hp & Hk); [by apply put_slot_wf|].
  exists b'. split_and!; try done. intros k Hkl.
  rewrite Hk by (by rewrite length_put_slot).
  change (slot (put_slot (slot b s) None b)) with (slot b).
  destruct (decide (k ∈ (slot b <$> ss))) as [Hin|Hin].
  - rewrite decide_True by (by right). done.
  - destruct (decide (k = slot b s)) as [->|Hne].
    + rewrite at_put_slot_eq by done. by rewrite decide_True by (by left).
    + rewrite at_put_slot_ne by done.
      rewrite decide_False; [done|]. by intros [?|?]%elem_of_cons.
Qed.

Lemma elem_of_expired now (vs : list (option SendBuffer)) s :
  s ∈ expired_sequences now vs ↔
  ∃ b, Some b ∈ vs ∧ sequence b = s ∧ EXPIRE < elapsed_millis now (created_at b).
Proof.
  unfold expired_sequences. rewrite list_elem_of_bind. split.
  - intros ([b|] & Hs & Hb); [|by apply not_elem_of_nil in Hs].
    destruct (Z.ltb_spec EXPIRE (elapsed_millis now (created_at b))).
    + apply list_elem_of_singleton in Hs as ->. eauto.
    + by apply not_elem_of_nil in Hs.
  - intros (b & Hb & <- & He). exists (Some b). split; [|done].
    apply Z.ltb_lt in He. rewrite He. by apply list_elem_of_singleton.
Qed.

Lemma expire_spec m n kept now :
  manages m n kept →
  ∃ m', expire m now = Ret m' ∧
    values (buffers m') = drop_expired now <$> values (buffers m).
Proof.
  intros [_ Hb _ _ _ Hok _]. unfold expire.
  destruct (remove_all_spec (buffers m) (expired_sequences now (values (buffers m))) Hb)
    as (b' & -> & Hb' & Hp & Hk). simpl. eexists; split; [done|]. simpl.
  destruct Hb as [Hpos Hlen], Hb' as [_ Hlen']. rewrite Hp in Hlen'.
  apply list_eq_same_length with (length (values (buffers m))); [by rewrite length_fmap|lia|].
  intros k x y Hkl Hx Hy. rewrite list_lookup_fmap in Hy.
  destruct (values (buffers m) !! k) as [v|] eqn:Hv; [|done]. injection Hy as <-.
  specialize (Hk k Hkl). unfold at_slot in Hk, Hok. rewrite Hx, Hv in Hk. simpl in Hk. subst x.
  destruct v as [sb|]; simpl; [|by case_decide].
  pose proof (Hok k sb) as Hsb. rewrite Hv in Hsb. destruct (Hsb eq_refl) as (_ & _ & Hs).
  destruct (Z.ltb_spec EXPIRE (elapsed_millis now (created_at sb))) as [He|He].
  - rewrite decide_True; [done|]. apply list_elem_of_fmap. exists (sequence sb). split; [done|].
    apply elem_of_expired. exists sb. split; [|done]. by eapply list_elem_of_lookup_2.
  - rewrite decide_False; [done|].
    intros (s & Es & (b2 & [j Hj]%list_elem_of_lookup & <- & He2)%elem_of_expired)%list_elem_of_fmap.
    pose proof (Hok j b2) as H2. rewrite Hj in H2. destruct (H2 eq_refl) as (_ & _ & Hs2).
    assert (k = j) as <- by congruence. rewrite Hv in Hj. injection Hj as <-. lia.
Qed.

(** ** Properties *)

(** C28: the manager keeps every message it may be asked to resend: after any
    number of messages of any lengths have been created, each of the last 1023
    of them is found under its own sequence, with its own length and a buffer
    of at least that many bytes, and nothing panicked. *)
Theorem retained_for_resend (now : Z) (lengths : list Z) :
  Forall (λ l, 0 ≤ l ≤ isize_max) lengths →
  ∃ m, create_all SendBufferManager.default now lengths = Ret m ∧
    ∀ k l, lengths !! Z.to_nat (k - 1) = Some l → 1 ≤ k → len lengths - 1022 ≤ k →
      ∃ sb, get_send_buffer m (seq_of k) = Ret (Some sb) ∧
        sequence sb = seq_of k ∧ ByteBuffer.length (byte_buffer sb) = l ∧
        l ≤ len (ByteBuffer.data (byte_buffer sb)).
Proof.
  intros Hl. destruct (create_all_manages now lengths Hl) as (m & Hm & Hmg).
  exists m. split; [done|]. intros k l Hk Hk1 Hk2.
  pose proof (lookup_lt_Some _ _ _ Hk) as Hlt.
  destruct (mg_kept _ _ _ Hmg k) as (sb & Hsb & Hseq & Hlen & Hdata); [lia..|].
  exists sb. rewrite (get_send_buffer_spec m _ _ _ Hmg), Hsb.
  rewrite Hk in Hlen. injection Hlen as ->. done.
Qed.

Lemma retained_for_resend_witness :
  ∃ m, create_all SendBufferManager.default 7 [10; 0; 5000] = Ret m ∧
    ∀ k l, [10; 0; 5000] !! Z.to_nat (k - 1) = Some l → 1 ≤ k → 3 - 1022 ≤ k →
      ∃ sb, get_send_buffer m (seq_of k) = Ret (Some sb) ∧
        sequence sb = seq_of k ∧ ByteBuffer.length (byte_buffer sb) = l ∧
        l ≤ len (ByteBuffer.data (byte_buffer sb)).
Proof.
  apply (retained_for_resend 7 [10; 0; 5000]).
  repeat constructor; unfold isize_max; simpl; lia.
Defined.

(** A lookup does not say which message it found: once 1024 later messages
    exist (and the sequence space did not wrap in between), asking for the
    older one is answered with the buffer of the newer message of the same
    slot, under the newer sequence. *)
Lemma evicted_lookup_returns_newer (now : Z) (lengths : list Z) (k : Z) :
  Forall (λ l, 0 ≤ l ≤ isize_max) lengths →
  1 ≤ k → k + 1024 ≤ len lengths < k + 2047 → len lengths < 65535 →
  ∃ m sb, create_all SendBufferManager.default now lengths = Ret m ∧
    get_send_buffer m k = Ret (Some sb) ∧ sequence sb = k + 1024 ∧
    lengths !! Z.to_nat (k + 1023) = Some (ByteBuffer.length (byte_buffer sb)).
Proof.
  intros Hl Hk Hn Hw. destruct (create_all_manages now lengths Hl) as (m & Hm & Hmg).
  destruct (mg_kept _ _ _ Hmg (k + 1024)) as (sb & Hsb & Hseq & Hlen & _); [lia..|].
  exists m, sb. split; [done|]. rewrite (get_send_buffer_spec m _ _ _ Hmg).
  assert (slot (buffers m) k = slot (buffers m) (seq_of (k + 1024))) as ->.
  { unfold slot. rewrite (mg_slots _ _ _ Hmg), seq_of_small by (unfold valid_seq; lia).
    f_equal. div_lia. }
  rewrite Hsb, Hseq, seq_of_small by (unfold valid_seq; lia).
  split_and!; [done..|]. by replace (k + 1023) with (k + 1024 - 1) by lia.
Qed.

Lemma evicted_lookup_returns_newer_witness :
  ∃ m sb, create_all SendBufferManager.default 0 (replicate 1100 9) = Ret m ∧
    get_send_buffer m 3 = Ret (Some sb) ∧ sequence sb = 1027 ∧
    replicate 1100 9 !! Z.to_nat 1026 = Some (ByteBuffer.length (byte_buffer sb)).
Proof.
  apply (evicted_lookup_returns_newer 0 (replicate 1100 9) 3).
  - apply Forall_replicate. unfold isize_max. lia.
  - lia.
  - rewrite length_replicate. lia.
  - rewrite length_replicate. lia.
Defined.

(** [expire] drops exactly the buffers older than five seconds and keeps
    every other one, whatever was created before. *)
Lemma expire_drops_the_old (created now : Z) (lengths : list Z) :
  Forall (λ l, 0 ≤ l ≤ isize_max) lengths →
  ∃ m m', create_all SendBufferManager.default created lengths = Ret m ∧
    expire m now = Ret m' ∧
    values (buffers m') = drop_expired now <$> values (buffers m).
Proof.
  intros Hl. destruct (create_all_manages created lengths Hl) as (m & Hm & Hmg).
  destruct (expire_spec m _ _ now Hmg) as (m' & Hm' & Hv). by exists m, m'.
Qed.

Lemma expire_drops_the_old_witness :
  ∃ m m', create_all SendBufferManager.default 100 [10; 0; 5000] = Ret m ∧
    expire m 6000 = Ret m' ∧
    values (buffers m') = drop_expired 6000 <$> values (buffers m).
Proof.
  apply (expire_drops_the_old 100 6000 [10; 0; 5000]).
  repeat constructor; unfold isize_max; simpl; lia.
Defined.
