(* ===== verification/receiver.v ===== *)
(** The receiving side of a channel ([src/tachyon/receiver.rs]).

    A [Receiver] accepts sequenced packets in any order, buffers them in a
    1024-slot window, publishes them (in order, or as they come on an unordered
    channel) and lists the missing sequences as nacks.  This file is the
    operations alone, statement by statement; [receiver_spec.v] says what they
    mean on unbounded message indices and [receiver_refinement.v] proves it. *)

From S2P Require Import prelude sequence sequence_buffer nack byte_buffer_pool.

Definition RECEIVE_BUFFER_SIZE : Z := 1024.
Definition RECEIVE_WINDOW_SIZE_DEFAULT : Z := 512.

Module Receiver.
Import SequenceBuffer ByteBufferPool.

Record Receiver := mk {
  is_ordered : bool;
  receive_window_size : Z;
  last_sequence : Z;
  current_sequence : Z;
  buffered : SequenceBuffer ByteBuffer.ByteBuffer;
  published : list ByteBuffer.ByteBuffer;
  received : SequenceBuffer bool;
  resend_list : list Z;
  nack_list : list Nack.Nack;
  nack_queue : list Nack.Nack;
  skipped_sequences : Z;
  buffer_pool : ByteBufferPool
}.

#[global] Instance eta_Receiver : Eta Receiver := λ r,
  mk (is_ordered r) (receive_window_size r) (last_sequence r) (current_sequence r)
     (buffered r) (published r) (received r) (resend_list r) (nack_list r) (nack_queue r)
     (skipped_sequences r) (buffer_pool r).

Definition create (is_ordered : bool) (receive_window_size : Z) : Receiver :=
  let buffered := SequenceBuffer.mk (replicate (Z.to_nat RECEIVE_BUFFER_SIZE) None) RECEIVE_BUFFER_SIZE in
  let received := SequenceBuffer.mk (replicate (Z.to_nat RECEIVE_BUFFER_SIZE) None) RECEIVE_BUFFER_SIZE in
  mk is_ordered receive_window_size 0 0 buffered [] received [] [] [] 0 ByteBufferPool.default.

Definition default (is_ordered : bool) : Receiver := create is_ordered RECEIVE_WINDOW_SIZE_DEFAULT.

(** The window is cast to [i32]; [start < 0] wraps around 65535; the cast [start
    as u16] follows. *)
Definition window_start (last receive_window_size : Z) : Z :=
  let start := as_i32 (last - as_i32 receive_window_size) in
  let start := if start <? 0 then u16_max + start else start in
  as_u16 start.

Definition calculate_current_in_window (current last : Z) : Z :=
  if current =? last then current else
  let start := window_start last RECEIVE_WINDOW_SIZE_DEFAULT in
  if Sequence.is_greater_then start current then start else current.

Definition should_increment_current (current last receive_window_size : Z) : bool :=
  if current =? last then false else
  let start := window_start last receive_window_size in
  if Sequence.is_greater_then start current then true else false.

Implicit Types (self : Receiver) (sequence seq : Z).

Definition return_buffer self (byte_buffer : ByteBuffer.ByteBuffer) : Receiver :=
  self <| buffer_pool := (ByteBufferPool.return_buffer (buffer_pool self) byte_buffer).1 |>.

Definition take_published self : option ByteBuffer.ByteBuffer * Receiver :=
  match published self with
  | b :: rest => (Some b, self <| published := rest |>)
  | [] => (None, self)
  end.

Definition is_buffered self sequence : outcome bool := SequenceBuffer.is_some (buffered self) sequence.

Definition is_received self sequence : outcome bool := SequenceBuffer.is_some (received self) sequence.

Definition set_received self sequence : outcome Receiver :=
  '(received', _) ← SequenceBuffer.insert (received self) sequence true;
  Ret (self <| received := received' |>).

Definition set_buffered self sequence (data : bytes) (length : Z) : outcome Receiver :=
  '(pool, byte_buffer) ← ByteBufferPool.get_buffer (buffer_pool self) length;
  let self := self <| buffer_pool := pool |> in
  src ← slice data 0 length;
  data' ← copy_from_slice (ByteBuffer.data byte_buffer) 0 length src;
  let byte_buffer := ByteBuffer.get_mut byte_buffer data' in
  '(buffered', _) ← SequenceBuffer.insert (buffered self) sequence byte_buffer;
  Ret (self <| buffered := buffered' |>).

(** One iteration of the loop of [publish] with its [break]s: the loop state and
    whether it goes on. *)
Definition publish_step (stop : Z) (st : Receiver * bool * Z) : outcome (Receiver * bool * Z * bool) :=
  let '(self, step_sequence, seq) := st in
  received_seq ← is_received self seq;
  '(self, step_sequence, go) ←
    (if (received_seq : bool) then
       self ←
         (if current_sequence self =? seq then
            r ← SequenceBuffer.remove (received self) seq;
            Ret (self <| received := r |>)
          else if step_sequence && Sequence.is_greater_then seq (current_sequence self) then
            r ← SequenceBuffer.remove (received self) seq;
            Ret (self <| current_sequence := seq |> <| received := r |>)
          else Ret self);
       buffered_seq ← is_buffered self seq;
       self ←
         (if (buffered_seq : bool) then
            '(taken, b) ← SequenceBuffer.take (buffered self) seq;
            let self := self <| buffered := b |> in
            match taken with
            | Some byte_buffer => Ret (self <| published := published self ++ [byte_buffer] |>)
            | None => Ret self
            end
          else Ret self);
       Ret (self, step_sequence, true)
     else if is_ordered self then Ret (self, step_sequence, false)
     else Ret (self, false, true));
  if (go : bool) then
    let seq := Sequence.next_sequence seq in
    Ret (self, step_sequence, seq, negb (seq =? stop))
  else Ret (self, step_sequence, seq, false).

(** The loop: at most [n] iterations. *)
Fixpoint publish_loop (stop : Z) (n : nat) (st : Receiver * bool * Z) : outcome Receiver :=
  match n with
  | O => Ret st.1.1
  | S n' =>
      '(st, go) ← publish_step stop st;
      if (go : bool) then publish_loop stop n' st else Ret st.1.1
  end.

Definition publish self : outcome Receiver :=
  let start := current_sequence self in
  let stop := Sequence.next_sequence (last_sequence self) in
  publish_loop stop (Z.to_nat (receive_window_size self)) (self, true, start).

(** The first statement of [receive_packet]. *)
Definition skip_one self : outcome Receiver :=
  if should_increment_current (current_sequence self) (last_sequence self) (receive_window_size self)
  then
    '(_, r) ← SequenceBuffer.take (received self) (current_sequence self);
    Ret (self <| received := r |>
              <| current_sequence := Sequence.next_sequence (current_sequence self) |>
              <| skipped_sequences := as_u64 (skipped_sequences self + 1) |>)
  else Ret self.

Definition receive_packet self sequence (data : bytes) (length : Z) : outcome (Receiver * bool) :=
  self ← skip_one self;
  if negb (Sequence.is_greater_then sequence (current_sequence self)) then Ret (self, false) else
  let self := if Sequence.is_greater_then sequence (last_sequence self)
              then self <| last_sequence := sequence |> else self in
  let next := Sequence.next_sequence (current_sequence self) in
  self ←
    (if sequence =? next then
       let last_sequence := current_sequence self in
       let self := self <| current_sequence := sequence |> in
       r ← SequenceBuffer.remove (received self) last_sequence;
       Ret (self <| received := r |>)
     else Ret self);
  received_seq ← is_received self sequence;
  if (received_seq : bool) then Ret (self, false) else
  self ← set_buffered self sequence data length;
  self ← set_received self sequence;
  self ← publish self;
  Ret (self, true).

Fixpoint set_resend_list_loop (stop : Z) (n : nat) self seq : outcome Receiver :=
  match n with
  | O => Ret self
  | S n' =>
      received_seq ← is_received self seq;
      let self := if (received_seq : bool) then self
                  else self <| resend_list := resend_list self ++ [seq] |> in
      let seq := Sequence.previous_sequence seq in
      if seq =? stop then Ret self else set_resend_list_loop stop n' self seq
  end.

Definition set_resend_list self : outcome Receiver :=
  let self := self <| resend_list := [] |> in
  if current_sequence self =? last_sequence self then Ret self else
  let start := Sequence.previous_sequence (last_sequence self) in
  let stop := current_sequence self in
  set_resend_list_loop stop (Z.to_nat (receive_window_size self)) self start.

(** [nack_list.push(current); nack_queue.push_back(current)] *)
Definition push_nack self (current : Nack.Nack) : Receiver :=
  self <| nack_list := nack_list self ++ [current] |>
       <| nack_queue := nack_queue self ++ [current] |>.

(** The inner loop of [create_nacks] from bit [i]: the nack, the sequence and
    the count it ends with, and whether it reached the current sequence. *)
Fixpoint nack_bits self (n : nat) (i : Z) (current : Nack.Nack) seq (nacked_count : Z) :
    outcome (Nack.Nack * Z * Z * bool) :=
  match n with
  | O => Ret (current, seq, nacked_count, false)
  | S n' =>
      let seq := Sequence.previous_sequence seq in
      if Sequence.is_equal_to_or_less_than seq (current_sequence self)
      then Ret (current, seq, nacked_count, true)
      else
        received_seq ← is_received self seq;
        if (received_seq : bool) then nack_bits self n' (i + 1) current seq nacked_count
        else
          let current := Nack.set_bits current i true in
          let nacked_count := nacked_count + 1 in
          let current := current <| Nack.nacked_count := nacked_count |> in
          nack_bits self n' (i + 1) current seq nacked_count
  end.

Fixpoint create_nacks_loop self (n : nat) seq (nacked_count : Z) : outcome (Receiver * Z) :=
  match n with
  | O => Ret (self, nacked_count)
  | S n' =>
      if Sequence.is_equal_to_or_less_than seq (current_sequence self)
      then Ret (self, nacked_count)
      else
        received_seq ← is_received self seq;
        if (received_seq : bool) then
          let seq := Sequence.previous_sequence seq in
          if Sequence.is_equal_to_or_less_than seq (current_sequence self)
          then Ret (self, nacked_count)
          else create_nacks_loop self n' seq nacked_count
        else
          let nacked_count := nacked_count + 1 in
          let current := Nack.default <| Nack.start_sequence := seq |>
                                      <| Nack.nacked_count := nacked_count |> in
          '(current, seq, nacked_count, reached) ← nack_bits self 32 0 current seq nacked_count;
          let self := push_nack self current in
          if (reached : bool) then Ret (self, nacked_count)
          else create_nacks_loop self n' (Sequence.previous_sequence seq) nacked_count
  end.

Definition create_nacks self : outcome (Receiver * Z) :=
  let self := self <| nack_list := [] |> <| nack_queue := [] |> in
  let seq := Sequence.previous_sequence (last_sequence self) in
  if Sequence.is_equal_to_or_less_than seq (current_sequence self) then Ret (self, 0) else
  let count := receive_window_size self / 32 in
  create_nacks_loop self (Z.to_nat count) seq 0.

End Receiver.
