(* ===== verification/receiver_spec.v ===== *)
(** What the receiver promises, on unbounded message indices.

    The specification of [receiver.v]: sequences are replaced by the index of
    the message that travels under them, the two 1024-slot vectors by a finite
    set of the received indices and a finite map from them to the payloads that
    wait to be published, and every payload is published together with its
    index.  There is no wrap-around, no slot and no panic here;
    [receiver_refinement.v] proves that the implementation behaves like this as
    long as packets stay within reach of the window.

    The second half proves what the specification is for: on an ordered channel
    messages come out in order without repetition, whatever was skipped; and as
    long as no packet overruns the window, all of them come out. *)

From S2P Require Import prelude.

Module Spec.

Record Spec := mk {
  ordered : bool;
  window : Z;
  cur : Z;
  last : Z;
  got : gset Z;
  buf : gmap Z bytes;
  out : list (Z * bytes);
  skipped : Z
}.

#[global] Instance eta_Spec : Eta Spec := λ s,
  mk (ordered s) (window s) (cur s) (last s) (got s) (buf s) (out s) (skipped s).

Definition init (ordered : bool) (window : Z) : Spec := mk ordered window 0 0 ∅ ∅ [] 0.

Implicit Types (s : Spec) (i n : Z) (p : bytes).

(** Index [i] is no longer marked as received; what waited under it is lost. *)
Definition forget s i : Spec := s <| got := got s ∖ {[ i ]} |> <| buf := delete i (buf s) |>.

(** The window is overrun: give up the oldest missing message. *)
Definition skip s : Spec :=
  if cur s <? last s - window s then
    (forget s (cur s)) <| cur := cur s + 1 |> <| skipped := skipped s + 1 |>
  else s.

(** Publish what waits under [i]. *)
Definition deliver s i : Spec :=
  match buf s !! i with
  | Some p => s <| out := out s ++ [(i, p)] |> <| buf := delete i (buf s) |>
  | None => s
  end.

(** The walk from the current index up: [step] says that no gap was met yet. *)
Fixpoint walk s (step : bool) i (fuel : nat) : Spec :=
  match fuel with
  | O => s
  | S fuel' =>
      if decide (i ∈ got s) then
        let s := if step then s <| cur := i |> <| got := got s ∖ {[ i ]} |> else s in
        walk (deliver s i) step (i + 1) fuel'
      else if ordered s then s
      else walk s false (i + 1) fuel'
  end.

Definition publish s : Spec :=
  walk s true (cur s) (Z.to_nat (Z.min (window s) (last s - cur s + 1))).

(** A packet that is next moves the current index to it. *)
Definition advance s n : Spec :=
  if n =? cur s + 1 then (forget s (cur s)) <| cur := n |> else s.

Definition store s n p : Spec := s <| got := {[ n ]} ∪ got s |> <| buf := <[n := p]> (buf s) |>.

Definition receive s n p : Spec * bool :=
  let s := skip s in
  if n <=? cur s then (s, false) else
  let s := advance (s <| last := Z.max (last s) n |>) n in
  if decide (n ∈ got s) then (s, false)
  else (publish (store s n p), true).

Definition consume s : Spec := s <| out := tail (out s) |>.

(** How far from the current index a packet may be for the 16-bit comparisons
    and the 1024 slots to be exact. *)
Definition in_reach s n : Prop := cur s - 30000 ≤ n ≤ cur s + 1022.

#[global] Instance in_reach_dec s n : Decision (in_reach s n).
Proof. unfold in_reach. apply _. Defined.

(** The missing indices below the last one. *)
Definition missing s i : Prop := cur s < i < last s ∧ i ∉ got s.

End Spec.

Import Spec.

(** ** Well-formed states *)

Record spec_wf (s : Spec) : Prop := {
  wf_window : 0 ≤ window s;
  wf_order : 0 ≤ cur s ≤ last s;
  wf_got i : i ∈ got s → cur s ≤ i ≤ last s;
  wf_buf i : is_Some (buf s !! i) → i ∈ got s
}.

Section walk_facts.
Implicit Types (s t : Spec) (i : Z) (n k m : nat).

Lemma deliver_fields s i :
  ordered (deliver s i) = ordered s ∧ window (deliver s i) = window s ∧
  cur (deliver s i) = cur s ∧ last (deliver s i) = last s ∧ got (deliver s i) = got s ∧
  skipped (deliver s i) = skipped s.
Proof. unfold deliver. by destruct (buf s !! i). Qed.

Lemma deliver_buf s i : buf (deliver s i) = delete i (buf s).
Proof. unfold deliver. destruct (buf s !! i) eqn:E; [done|]. by rewrite delete_id. Qed.

Lemma deliver_out s i :
  out (deliver s i) = out s ++ omap (λ j, (j,.) <$> buf s !! j) [i].
Proof. unfold deliver. simpl. destruct (buf s !! i); simpl; [done|]. by rewrite app_nil_r. Qed.

(** The payloads that wait under the indices of a list, with their index. *)
Definition waiting (b : gmap Z bytes) (l : list Z) : list (Z * bytes) :=
  omap (λ j, (j,.) <$> b !! j) l.

Lemma waiting_delete b i l : i ∉ l → waiting (delete i b) l = waiting b l.
Proof.
  intros Hi. apply list_omap_ext, Forall_Forall2_diag, Forall_forall.
  intros j Hj. rewrite lookup_delete_ne; [done|]. by intros ->.
Qed.

Lemma elem_of_waiting b l j p : (j, p) ∈ waiting b l ↔ j ∈ l ∧ b !! j = Some p.
Proof.
  unfold waiting. rewrite list_elem_of_omap. split.
  - intros (j' & Hj' & E). destruct (b !! j') eqn:Eb; [|done]. simpl in E. by simplify_eq.
  - intros [Hj Hb]. exists j. by rewrite Hb.
Qed.

Definition drop_waiting (b : gmap Z bytes) (l : list Z) : gmap Z bytes :=
  foldr delete b l.

(** The outcome of a walk over [n] indices from [i], of which it met [k] before
    the first gap and looked at [m]. *)
Record walked (s t : Spec) (i : Z) (n k m : nat) : Prop := {
  wk_same : ordered t = ordered s ∧ window t = window s ∧ last t = last s ∧ skipped t = skipped s;
  wk_cur : cur t = if decide (k = 0%nat) then cur s else i + Z.of_nat k - 1;
  wk_got : got t = got s ∖ list_to_set (seqZ i (Z.of_nat k));
  wk_run j : j ∈ seqZ i (Z.of_nat k) → j ∈ got s;
  wk_gap : (k < n)%nat → i + Z.of_nat k ∉ got s;
  wk_span : (k ≤ n)%nat ∧ m = if ordered s then k else n;
  wk_out : out t = out s ++ waiting (buf s) (seqZ i (Z.of_nat m));
  wk_buf j : buf t !! j = if decide (j ∈ seqZ i (Z.of_nat m)) then None else buf s !! j
}.

Lemma waiting_app b l l' : waiting b (l ++ l') = waiting b l ++ waiting b l'.
Proof. apply omap_app. Qed.

Lemma deliver_waiting s i : out (deliver s i) = out s ++ waiting (buf s) [i].
Proof. apply deliver_out. Qed.

Lemma seqZ_S i (n : nat) : seqZ i (Z.of_nat (S n)) = i :: seqZ (i + 1) (Z.of_nat n).
Proof. rewrite seqZ_cons by lia. do 2 f_equal; lia. Qed.

(** Behind a gap an unordered channel publishes and marks nothing. *)
Lemma walk_behind_gap s i (n : nat) :
  ordered s = false → (∀ j, is_Some (buf s !! j) → j ∈ got s) →
  ∃ b, walk s false i n = s <| out := out s ++ waiting (buf s) (seqZ i (Z.of_nat n)) |> <| buf := b |> ∧
       ∀ j, b !! j = if decide (j ∈ seqZ i (Z.of_nat n)) then None else buf s !! j.
Proof.
  revert s i. induction n as [|n IH]; intros s i Ho Hb.
  { exists (buf s). split; [destruct s; simpl; by rewrite app_nil_r|]. done. }
  rewrite seqZ_S. cbn [walk]. destruct (decide (i ∈ got s)) as [Hi|Hi].
  - destruct (deliver_fields s i) as (Eo & _ & _ & _ & Eg & _).
    destruct (IH (deliver s i) (i + 1)) as (b & -> & Hbj).
    { by rewrite Eo. }
    { intros j. rewrite deliver_buf, Eg. intros [? [_ ?]%lookup_delete_Some]. eauto. }
    exists b. rewrite deliver_waiting, deliver_buf in *. split.
    + rewrite <-app_assoc, waiting_delete by (rewrite elem_of_seqZ; lia).
      rewrite <-waiting_app. unfold deliver. by destruct (buf s !! i), s.
    + intros j. rewrite Hbj. rewrite lookup_delete.
      repeat case_decide; subst; rewrite ?elem_of_cons in *; naive_solver.
  - rewrite Ho. destruct (IH s (i + 1) Ho Hb) as (b & -> & Hbj).
    assert (buf s !! i = None) as Hn by (apply eq_None_not_Some; naive_solver).
    exists b. split.
    + unfold waiting at 2. simpl. by rewrite Hn.
    + intros j. rewrite Hbj. repeat case_decide; rewrite ?elem_of_cons in *; naive_solver.
Qed.

Ltac walk_side s :=
  first [done | set_solver | lia | intros ? ?%elem_of_seqZ; lia | destruct (ordered s); lia].

Lemma walk_walked s i (n : nat) :
  (∀ j, is_Some (buf s !! j) → j ∈ got s) →
  ∃ k m, walked s (walk s true i n) i n k m.
Proof.
  revert s i. induction n as [|n IH]; intros s i Hb.
  { exists 0%nat, 0%nat. split; simpl; rewrite ?app_nil_r; walk_side s. }
  cbn [walk]. destruct (decide (i ∈ got s)) as [Hi|Hi].
  - set (s1 := s <| cur := i |> <| got := got s ∖ {[ i ]} |>).
    destruct (deliver_fields s1 i) as (Eo & Ew & Ec & El & Eg & Esk).
    destruct (IH (deliver s1 i) (i + 1)) as (k & m & [Hsame Hcur Hgot Hrun Hgap Hspan Hout Hbuf]).
    { intros j. rewrite deliver_buf, Eg. intros [p [? Hp]%lookup_delete_Some]. subst s1; simpl in *.
      apply elem_of_difference. split; [eauto|]. set_solver. }
    rewrite Eo, Ew, El, Esk in Hsame. rewrite Ec in Hcur. rewrite Eg in Hgot, Hrun, Hgap.
    rewrite Eo in Hspan. rewrite deliver_waiting, deliver_buf in Hout.
    assert (∀ x : nat, seqZ i (Z.of_nat (S x)) = i :: seqZ (i + 1) (Z.of_nat x)) as Hseq
      by apply seqZ_S.
    exists (S k), (S m). split.
    + done.
    + rewrite Hcur. simpl. case_decide; lia.
    + rewrite Hgot, Hseq. subst s1; simpl. set_solver.
    + intros j. rewrite Hseq. intros [->|Hj]%elem_of_cons; [done|].
      apply Hrun in Hj. subst s1; simpl in Hj. set_solver.
    + intros Hk. replace (i + Z.of_nat (S k)) with (i + 1 + Z.of_nat k) by lia.
      intros Hin. apply Hgap; [lia|]. subst s1; simpl. apply elem_of_difference.
      split; [done|]. rewrite elem_of_singleton. lia.
    + change (ordered s) with (ordered s1) in *. destruct (ordered s1); lia.
    + rewrite Hout, <-app_assoc, Hseq, waiting_delete by (rewrite elem_of_seqZ; lia).
      by rewrite <-waiting_app.
    + intros j. rewrite Hbuf, Hseq, deliver_buf, lookup_delete.
      repeat case_decide; subst; rewrite ?elem_of_cons in *; naive_solver.
  - assert (buf s !! i = None) as Hn by (apply eq_None_not_Some; naive_solver).
    destruct (ordered s) eqn:Ho.
    + exists 0%nat, 0%nat. split; simpl; rewrite ?Ho, ?app_nil_r, ?Z.add_0_r; walk_side s.
    + destruct (walk_behind_gap s (i + 1) n Ho Hb) as (b & -> & Hbj).
      exists 0%nat, (S n). split; simpl; rewrite ?Ho, ?Z.add_0_r; try walk_side s.
      * rewrite seqZ_S. unfold waiting at 2. simpl. by rewrite Hn.
      * intros j. rewrite Hbj, seqZ_S. repeat case_decide; rewrite ?elem_of_cons in *; naive_solver.
Qed.
End walk_facts.

(** ** Every operation preserves well-formedness *)

Section wf.
Implicit Types (s : Spec) (i n : Z) (p : bytes).

Lemma forget_fields s i :
  ordered (forget s i) = ordered s ∧ window (forget s i) = window s ∧ cur (forget s i) = cur s ∧
  last (forget s i) = last s ∧ out (forget s i) = out s.
Proof. done. Qed.

Lemma skip_wf s : spec_wf s → spec_wf (skip s).
Proof.
  intros [Hw Ho Hg Hb]. unfold skip. destruct (Z.ltb_spec (cur s) (last s - window s)); [|done].
  split; simpl.
  - done.
  - lia.
  - intros i [Hi Hne]%elem_of_difference. rewrite elem_of_singleton in Hne.
    apply Hg in Hi. lia.
  - intros i [x [Hne Hx]%lookup_delete_Some].
    apply elem_of_difference. rewrite elem_of_singleton. naive_solver.
Qed.

Lemma skip_fields s :
  ordered (skip s) = ordered s ∧ window (skip s) = window s ∧ last (skip s) = last s ∧
  cur s ≤ cur (skip s) ≤ cur s + 1 ∧ out (skip s) = out s.
Proof. unfold skip. destruct (_ <? _); simpl; split_and!; (done || lia). Qed.

(** The state in which a packet that is not a duplicate is stored. *)
Definition arrived s n : Spec := advance (s <| last := Z.max (last s) n |>) n.

Lemma arrived_wf s n : spec_wf s → cur s < n → spec_wf (arrived s n).
Proof.
  intros [Hw Ho Hg Hb] Hn. unfold arrived, advance; simpl.
  destruct (Z.eqb_spec n (cur s + 1)) as [->|Hne]; split; simpl; try (done || lia).
  - intros i [Hi Hne]%elem_of_difference. rewrite elem_of_singleton in Hne.
    apply Hg in Hi. lia.
  - intros i [x [Hne Hx]%lookup_delete_Some].
    apply elem_of_difference. rewrite elem_of_singleton. naive_solver.
  - intros i Hi%Hg. lia.
Qed.

Lemma arrived_fields s n :
  cur s < n →
  ordered (arrived s n) = ordered s ∧ window (arrived s n) = window s ∧
  last (arrived s n) = Z.max (last s) n ∧ out (arrived s n) = out s ∧
  cur (arrived s n) = (if n =? cur s + 1 then n else cur s).
Proof. intros Hn. unfold arrived, advance; simpl. by destruct (_ =? _). Qed.

Lemma store_wf s n p : spec_wf s → cur s ≤ n ≤ last s → spec_wf (store s n p).
Proof.
  intros [Hw Ho Hg Hb] Hn. split; simpl; [done|done| |].
  - intros i [->%elem_of_singleton|Hi]%elem_of_union; [lia|by apply Hg].
  - intros i [x [[-> _]|[Hne Hx]]%lookup_insert_Some]; [set_solver|].
    apply elem_of_union_r, Hb. by exists x.
Qed.

(** The walk of [publish]. *)
Lemma publish_walked s :
  spec_wf s →
  ∃ k m, walked s (publish s) (cur s) (Z.to_nat (Z.min (window s) (last s - cur s + 1))) k m.
Proof. intros [_ _ _ Hb]. by apply walk_walked. Qed.

Lemma publish_wf s : spec_wf s → spec_wf (publish s).
Proof.
  intros Hs. destruct (publish_walked s Hs) as (k & m & [(Eo & Ew & El & _) Ec Eg _ _ Hm _ Hbuf]).
  destruct Hs as [Hw Ho Hg Hb]. split.
  - by rewrite Ew.
  - rewrite Ec, El. case_decide; lia.
  - intros i. rewrite Eg, El. intros [Hi Hn]%elem_of_difference.
    rewrite elem_of_list_to_set, elem_of_seqZ in Hn. apply Hg in Hi as Hi'.
    rewrite Ec. case_decide; lia.
  - intros i [x Hx]. rewrite Hbuf in Hx. case_decide as Hi; [done|].
    rewrite Eg. apply elem_of_difference. split; [eauto|].
    rewrite elem_of_list_to_set. rewrite elem_of_seqZ in *.
    destruct (ordered s); lia.
Qed.

(** The cases of [receive]. *)
Lemma receive_cases s n p :
  (n ≤ cur (skip s) ∧ receive s n p = (skip s, false)) ∨
  (cur (skip s) < n ∧ n ∈ got (arrived (skip s) n) ∧
   receive s n p = (arrived (skip s) n, false)) ∨
  (cur (skip s) < n ∧ n ∉ got (arrived (skip s) n) ∧
   receive s n p = (publish (store (arrived (skip s) n) n p), true)).
Proof.
  unfold receive. destruct (Z.leb_spec n (cur (skip s))); [by left|right].
  fold (arrived (skip s) n). case_decide; [by left|by right].
Qed.

Lemma arrived_store_wf s n p :
  spec_wf s → cur (skip s) < n → spec_wf (store (arrived (skip s) n) n p).
Proof.
  intros Hs Hn. apply store_wf; [by apply arrived_wf, Hn; apply skip_wf|].
  destruct (arrived_fields (skip s) n Hn) as (_ & _ & El & _ & Ec).
  rewrite El, Ec. destruct (_ =? _); lia.
Qed.

Lemma receive_wf s n p : spec_wf s → spec_wf (receive s n p).1.
Proof.
  intros Hs. destruct (receive_cases s n p) as [[Hn ->]|[(Hn & _ & ->)|(Hn & _ & ->)]]; simpl.
  - by apply skip_wf.
  - by apply arrived_wf, Hn; apply skip_wf.
  - by apply publish_wf, arrived_store_wf.
Qed.

Lemma consume_wf s : spec_wf s → spec_wf (consume s).
Proof. by intros []. Qed.

Lemma init_wf o w : 0 ≤ w → spec_wf (init o w).
Proof. split; simpl; try done; try lia; try set_solver. intros i [x Hx]. by rewrite lookup_empty in Hx. Qed.
End wf.
