(* ===== verification/receiver_delivery.v ===== *)
(** What a receiver delivers over a whole history.

    A history is a list of packets and of reads by the application.  On the
    specification of [receiver_spec.v] this file proves the two invariants the
    delivery theorems follow from: [safe], which holds of every history, and
    [on_time], which holds as long as no packet overruns the window. *)

From S2P Require Import prelude receiver_spec.

Import Spec.

(** A packet of index [n] arrives with [length] bytes at the front of the
    receive buffer [data]; or the application takes a published message. *)
Inductive event :=
| Packet (n : Z) (data : bytes) (length : Z)
| Consume.

Definition payload (data : bytes) (length : Z) : bytes := take (Z.to_nat length) data.

(** The state and what the application has taken so far. *)
Definition spec_event (st : Spec * list (Z * bytes)) (e : event) : Spec * list (Z * bytes) :=
  let '(s, taken) := st in
  match e with
  | Packet n data length => ((receive s n (payload data length)).1, taken)
  | Consume => (consume s, taken ++ match out s with [] => [] | m :: _ => [m] end)
  end.

Definition spec_run : Spec * list (Z * bytes) → list event → Spec * list (Z * bytes) :=
  foldl spec_event.

(** Everything delivered: taken by the application or published for it. *)
Definition delivered (st : Spec * list (Z * bytes)) : list (Z * bytes) := st.2 ++ out st.1.

Definition packets (es : list event) : list (Z * bytes) :=
  omap (λ e, match e with Packet n data length => Some (n, payload data length) | Consume => None end) es.

Lemma delivered_consume st : delivered (spec_event st Consume) = delivered st.
Proof.
  destruct st as [s taken]. unfold delivered; simpl.
  destruct (out s) as [|m ms] eqn:E; simpl; by rewrite <-?app_assoc, ?E.
Qed.

(** ** Safety: at most once, in order, and only what arrived *)

(** Behind the first element of [l] every element of a strictly increasing
    [l1 ++ l2] is strictly increasing. *)
Lemma strongly_sorted_app (l1 l2 : list Z) :
  StronglySorted Z.lt l1 → StronglySorted Z.lt l2 →
  (∀ x y, x ∈ l1 → y ∈ l2 → x < y) → StronglySorted Z.lt (l1 ++ l2).
Proof.
  induction l1 as [|x l1 IH]; intros H1 H2 Hlt; [done|]. simpl.
  apply StronglySorted_inv in H1 as [H1 Hx]. constructor.
  - apply IH; [done..|]. intros y z Hy Hz. apply Hlt; [by right|done].
  - apply Forall_app. split; [done|]. apply Forall_forall. intros y Hy.
    apply Hlt; [by left|done].
Qed.

Lemma waiting_keys b l : (waiting b l).*1 = filter (λ i, is_Some (b !! i)) l.
Proof.
  induction l as [|i l IH]; [done|]. rewrite filter_cons.
  change (i :: l) with ([i] ++ l). rewrite waiting_app, fmap_app, IH.
  unfold waiting; simpl. case_decide as Hi.
  - by destruct Hi as [p ->].
  - by apply eq_None_not_Some in Hi as ->.
Qed.

Lemma sorted_filter (P : Z → Prop) `{!∀ x, Decision (P x)} l :
  StronglySorted Z.lt l → StronglySorted Z.lt (filter P l).
Proof.
  induction 1 as [|x l Hl IH Hx]; [constructor|]. rewrite filter_cons. case_decide; [|done].
  constructor; [done|]. rewrite Forall_forall in *. intros y [_ Hy]%list_elem_of_filter. by apply Hx.
Qed.

Lemma sorted_seqZ i n : StronglySorted Z.lt (seqZ i n).
Proof.
  destruct (Z.le_gt_cases n 0); [by rewrite seqZ_nil by lia; constructor|].
  replace n with (Z.of_nat (Z.to_nat n)) by lia. generalize (Z.to_nat n) as k. clear H n.
  intros k. revert i. induction k as [|k IH]; intros i; [constructor|].
  rewrite seqZ_S. constructor; [apply IH|]. apply Forall_forall.
  intros j Hj%elem_of_seqZ. lia.
Qed.

Lemma sorted_NoDup (l : list Z) : StronglySorted Z.lt l → NoDup l.
Proof.
  induction 1 as [|x l Hl IH Hx]; constructor; [|done].
  intros Hin. rewrite Forall_forall in Hx. specialize (Hx x Hin). lia.
Qed.

(** [es] is the history so far and [st] what it led to. *)
Record safe (ps : list (Z * bytes)) (st : Spec * list (Z * bytes)) : Prop := {
  sf_wf : spec_wf st.1;
  sf_arrived m : m ∈ delivered st → m ∈ ps;
  sf_waiting i p : buf st.1 !! i = Some p → (i, p) ∈ ps;
  sf_done i : i ∈ (delivered st).*1 → buf st.1 !! i = None ∧ (i ≤ cur st.1 ∨ i ∈ got st.1);
  sf_nodup : NoDup (delivered st).*1;
  sf_ordered : ordered st.1 = true →
    StronglySorted Z.lt (delivered st).*1 ∧ ∀ i, i ∈ (delivered st).*1 → i ≤ cur st.1
}.

Section safety.
Implicit Types (s : Spec) (n : Z) (p : bytes) (ps : list (Z * bytes)) (taken : list (Z * bytes)).

Lemma safe_mono ps ps' st : ps ⊆ ps' → safe ps st → safe ps' st.
Proof. intros Hps []. split; try done; eauto. Qed.

Lemma safe_skip ps s taken : safe ps (s, taken) → safe ps (skip s, taken).
Proof.
  intros [Hwf Ha Hb Hd Hn Ho]. pose proof (skip_fields s) as (Eo & _ & _ & Hc & Eout).
  unfold delivered in *; simpl in *. split; unfold delivered; simpl; rewrite ?Eout, ?Eo; try done.
  - by apply skip_wf.
  - unfold skip. destruct (_ <? _); [|done]. simpl. intros i p [_ ?]%lookup_delete_Some. eauto.
  - intros i Hi. destruct (Hd i Hi) as [Hnone Hor]. unfold skip. destruct (_ <? _); [|done]. simpl.
    split; [by apply lookup_delete_None; right|].
    destruct (decide (i = cur s)) as [->|]; [left; lia|].
    destruct Hor; [left; lia|right]. apply elem_of_difference. by rewrite elem_of_singleton.
  - intros HO. destruct (Ho HO) as [? Hle]. split; [done|]. intros i Hi%Hle. lia.
Qed.

Lemma safe_arrived ps s taken n :
  cur s < n → safe ps (s, taken) → safe ps (arrived s n, taken).
Proof.
  intros Hlt [Hwf Ha Hb Hd Hn Ho]. pose proof (arrived_fields s n Hlt) as (Eo & _ & _ & Eout & Ec).
  unfold delivered in *; simpl in *. split; unfold delivered; simpl; rewrite ?Eout, ?Eo; try done.
  - by apply arrived_wf.
  - unfold arrived, advance. destruct (_ =? _); simpl; [|done].
    intros i p [_ ?]%lookup_delete_Some. eauto.
  - intros i Hi. destruct (Hd i Hi) as [Hnone Hor]. rewrite Ec.
    unfold arrived, advance; simpl. destruct (Z.eqb_spec n (cur s + 1)) as [->|]; simpl; [|done].
    split; [by apply lookup_delete_None; right|].
    destruct (decide (i = cur s)) as [->|]; [left; lia|].
    destruct Hor; [left; lia|right]. apply elem_of_difference. by rewrite elem_of_singleton.
  - intros HO. destruct (Ho HO) as [? Hle]. split; [done|]. intros i Hi%Hle. rewrite Ec.
    destruct (_ =? _) eqn:E; lia.
Qed.

(** Storing a packet that is neither old nor a duplicate. *)
Lemma safe_store ps s taken n p :
  safe ps (s, taken) → cur s ≤ n ≤ last s → n ∉ got s → (n = cur s → n ∉ (delivered (s, taken)).*1) →
  (n, p) ∈ ps → safe ps (store s n p, taken).
Proof.
  intros [Hwf Ha Hb Hd Hn Ho] Hr Hg Hnew Hp. unfold delivered in *; simpl in *.
  split; unfold delivered; simpl; try done.
  - by apply store_wf.
  - intros i q [[<- <-]|[_ ?]]%lookup_insert_Some; eauto.
  - intros i Hi. destruct (Hd i Hi) as [Hnone Hor]. assert (n ≠ i) as Hne.
    { intros ->. destruct Hor; [|done]. apply Hnew; [lia|done]. }
    rewrite lookup_insert_ne by done. split; [done|]. set_solver.
Qed.

Lemma safe_publish ps s taken : safe ps (s, taken) → safe ps (publish s, taken).
Proof.
  intros [Hwf Ha Hb Hd Hn Ho].
  destruct (publish_walked s Hwf) as (k & m & [(Eo & _ & _) Ec Eg Hrun _ Hm Eout Hbuf]).
  assert (cur s ≤ cur (publish s) ∧ cur s + Z.of_nat k - 1 ≤ cur (publish s)) as [Hc1 Hc2]
    by (rewrite Ec; case_decide; lia).
  clear Ec. unfold delivered in *; simpl in *.
  assert (∀ i, i ∈ (waiting (buf s) (seqZ (cur s) (Z.of_nat m))).*1 →
    i ∉ (taken ++ out s).*1 ∧ cur s ≤ i < cur s + Z.of_nat m ∧ is_Some (buf s !! i)) as Hnew.
  { intros i. rewrite waiting_keys, list_elem_of_filter, elem_of_seqZ. intros [Hs Hi].
    split_and!; [|lia|lia|done]. intros [Hnone _]%Hd. rewrite Hnone in Hs. by destruct Hs. }
  assert (∀ i, i ∈ (taken ++ out s).*1 ++ (waiting (buf s) (seqZ (cur s) (Z.of_nat m))).*1 →
    i ∈ (taken ++ out s).*1 ∨ cur s ≤ i < cur s + Z.of_nat m ∧ i ∈ got s) as Hcases.
  { intros i [Hi|Hi]%elem_of_app; [by left|right]. apply Hnew in Hi as (_ & ? & Hi).
    split; [done|]. by apply (wf_buf _ Hwf). }
  split; unfold delivered; simpl; rewrite ?Eout, ?Eo, ?(app_assoc taken),
    ?(fmap_app _ (taken ++ out s)).
  - by apply publish_wf.
  - intros x [Hx|Hx]%elem_of_app; [by apply Ha|]. destruct x as [i p].
    apply elem_of_waiting in Hx as [_ Hx]. eauto.
  - intros i p. rewrite Hbuf. case_decide; [by intros ?|apply Hb].
  - intros i Hi%Hcases. rewrite Hbuf, Eg, elem_of_difference, elem_of_list_to_set.
    assert (i ∈ got s → i ≤ cur (publish s) ∨ i ∈ got s ∧ i ∉ seqZ (cur s) (Z.of_nat k)) as Hor'.
    { intros Hgot. rewrite elem_of_seqZ. destruct (decide (cur s ≤ i < cur s + Z.of_nat k)); [left; lia|by right]. }
    destruct Hi as [Hi|[Hi Hgot]].
    + destruct (Hd i Hi) as [-> Hor]. split; [by case_decide|].
      destruct Hor as [?|Hgot]; [left; lia|by apply Hor'].
    + rewrite decide_True by (rewrite elem_of_seqZ; lia). split; [done|by apply Hor'].
  - apply NoDup_app. split_and!; [done| |].
    + intros i Hi Hi'. by apply Hnew in Hi' as [Hi' _].
    + rewrite waiting_keys. apply sorted_NoDup, sorted_filter, sorted_seqZ.
  - intros HO. destruct (Ho HO) as [Hsort Hle].
    rewrite HO in Hm. split.
    + apply strongly_sorted_app; [done|rewrite waiting_keys; apply sorted_filter, sorted_seqZ|].
      intros x y Hx Hy. apply Hnew in Hy as (Hy & ? & _). specialize (Hle x Hx).
      assert (x ≠ y) by (by intros ->). lia.
    + intros i [Hi%Hle|Hi]%elem_of_app; [lia|]. apply Hnew in Hi as (_ & ? & _). lia.
Qed.

Lemma got_arrived s n i : i ≠ cur s → i ∈ got (arrived s n) ↔ i ∈ got s.
Proof.
  intros Hi. unfold arrived, advance; simpl. destruct (_ =? _); simpl; [|done].
  rewrite elem_of_difference, elem_of_singleton. naive_solver.
Qed.

Lemma safe_receive ps s taken n p :
  safe ps (s, taken) → safe (ps ++ [(n, p)]) ((receive s n p).1, taken).
Proof.
  intros Hs%(safe_mono _ (ps ++ [(n, p)])); [|set_solver].
  apply safe_skip in Hs. destruct (receive_cases s n p) as [[Hn ->]|[(Hn & _ & ->)|(Hn & Hg & ->)]];
    simpl; [done|by apply safe_arrived|].
  destruct (arrived_fields (skip s) n Hn) as (_ & _ & El & Eout & Ec).
  apply safe_publish, safe_store; [by apply safe_arrived|..].
  - rewrite El, Ec. destruct (_ =? _); lia.
  - done.
  - intros _ Hin. unfold delivered in Hin; simpl in Hin. rewrite Eout in Hin.
    apply (sf_done _ _ Hs) in Hin as [_ [Hle|Hgot]]; simpl in *; [lia|].
    apply Hg, got_arrived; [lia|done].
  - apply elem_of_app; right. by apply list_elem_of_singleton.
Qed.

Lemma safe_event ps st e : safe ps st → safe (ps ++ packets [e]) (spec_event st e).
Proof.
  destruct st as [s taken], e as [n data length|]; [apply safe_receive|].
  intros Hs. pose proof (delivered_consume (s, taken)) as Ed. simpl in *. rewrite app_nil_r.
  destruct Hs as [Hwf ? ? ? ? ?]. split; rewrite ?Ed; try done. by apply consume_wf.
Qed.

Lemma packets_app es es' : packets (es ++ es') = packets es ++ packets es'.
Proof. apply omap_app. Qed.

Lemma walk_ordered s step i (fuel : nat) : ordered (walk s step i fuel) = ordered s.
Proof.
  revert s step i. induction fuel as [|fuel IH]; intros s step i; [done|]. cbn [walk].
  case_decide.
  - rewrite IH. destruct (deliver_fields (if step then s <| cur := i |> <| got := got s ∖ {[ i ]} |> else s) i)
      as (-> & _). by destruct step.
  - destruct (ordered s) eqn:E; [done|]. by rewrite IH.
Qed.

Lemma receive_ordered s n p : ordered (receive s n p).1 = ordered s.
Proof.
  pose proof (skip_fields s) as (Eo & _).
  destruct (receive_cases s n p) as [[Hn ->]|[(Hn & _ & ->)|(Hn & _ & ->)]]; simpl; [done|..];
    destruct (arrived_fields (skip s) n Hn) as (Ea & _).
  - by rewrite Ea.
  - unfold publish. rewrite walk_ordered. simpl. by rewrite Ea.
Qed.

Lemma spec_run_ordered st es : ordered (spec_run st es).1 = ordered st.1.
Proof.
  induction es as [|e es IH] using rev_ind; [done|].
  unfold spec_run in *. rewrite foldl_snoc, <-IH.
  destruct (foldl spec_event st es) as [s taken], e as [n data length|]; [|done]. apply receive_ordered.
Qed.

Lemma walk_window s step i (fuel : nat) : window (walk s step i fuel) = window s.
Proof.
  revert s step i. induction fuel as [|fuel IH]; intros s step i; [done|]. cbn [walk].
  case_decide.
  - rewrite IH. destruct (deliver_fields (if step then s <| cur := i |> <| got := got s ∖ {[ i ]} |> else s) i)
      as (_ & -> & _). by destruct step.
  - destruct (ordered s) eqn:E; [done|]. by rewrite IH.
Qed.

Lemma receive_window s n p : window (receive s n p).1 = window s.
Proof.
  pose proof (skip_fields s) as (_ & Ew & _).
  destruct (receive_cases s n p) as [[Hn ->]|[(Hn & _ & ->)|(Hn & _ & ->)]]; simpl; [done|..];
    destruct (arrived_fields (skip s) n Hn) as (_ & Ea & _).
  - by rewrite Ea.
  - unfold publish. rewrite walk_window. simpl. by rewrite Ea.
Qed.

Lemma spec_run_window st es : window (spec_run st es).1 = window st.1.
Proof.
  induction es as [|e es IH] using rev_ind; [done|].
  unfold spec_run in *. rewrite foldl_snoc, <-IH.
  destruct (foldl spec_event st es) as [s taken], e as [n data length|]; [|done]. apply receive_window.
Qed.

(** Whatever arrives in whatever order, the receiver is safe. *)
Lemma safe_run o w es :
  0 ≤ w → safe (packets es) (spec_run (init o w, []) es).
Proof.
  intros Hw. induction es as [|e es IH] using rev_ind.
  - split; unfold delivered; simpl.
    + by apply init_wf.
    + by intros ? ?%elem_of_nil.
    + intros i p. by rewrite lookup_empty.
    + by intros ? ?%elem_of_nil.
    + constructor.
    + intros _. split; [constructor|]. by intros ? ?%elem_of_nil.
  - unfold spec_run. rewrite foldl_snoc, packets_app. by apply safe_event.
Qed.
End safety.

(** ** Liveness: while no packet overruns the window, nothing is lost *)

(** [f] is the last of the messages 1, 2, ... that have all arrived. *)
Definition is_frontier (A : gset Z) (f : Z) : Prop :=
  0 ≤ f ∧ (∀ i, 1 ≤ i ≤ f → i ∈ A) ∧ f + 1 ∉ A.

Lemma is_frontier_unique A f f' : is_frontier A f → is_frontier A f' → f = f'.
Proof.
  intros (H0 & H1 & H2) (H0' & H1' & H2').
  destruct (Z.lt_trichotomy f f') as [Hlt|[->|Hlt]]; [|done|].
  - exfalso. apply H2, H1'. lia.
  - exfalso. apply H2', H1. lia.
Qed.

Lemma is_frontier_mono A A' f f' : is_frontier A f → is_frontier A' f' → A ⊆ A' → f ≤ f'.
Proof.
  intros (H0 & H1 & _) (H0' & _ & H2') HA. destruct (Z.le_gt_cases f f'); [done|].
  exfalso. apply H2', HA, H1. lia.
Qed.

(** Packets carry the sender's messages [msg] and stay within [ahead] of the
    first message that is missing, and not too far behind it. *)
Fixpoint on_time (ahead : Z) (msg : Z → bytes) (A : gset Z) (es : list event) : Prop :=
  match es with
  | [] => True
  | Packet n data length :: es' =>
      1 ≤ n ∧ 0 ≤ length ≤ len data ∧ len data ≤ isize_max ∧ payload data length = msg n ∧
      (∀ f, is_frontier A f → f - 30000 ≤ n ≤ f + ahead) ∧
      on_time ahead msg ({[ n ]} ∪ A) es'
  | Consume :: es' => on_time ahead msg A es'
  end.

(** The indices that arrive, and without their repetitions. *)
Definition arrivals (es : list event) : list Z := (packets es).*1.

Fixpoint firsts (A : gset Z) (l : list Z) : list Z :=
  match l with
  | [] => []
  | n :: l' => if decide (n ∈ A) then firsts A l' else n :: firsts ({[ n ]} ∪ A) l'
  end.

(** The state while everything is on time. *)
Record timely (msg : Z → bytes) (A : gset Z) (s : Spec) : Prop := {
  tm_wf : spec_wf s;
  tm_window : 1 ≤ window s ∧ last s ≤ cur s + window s;
  tm_frontier : is_frontier A (cur s);
  tm_got i : i ∈ got s ↔ i ∈ A ∧ cur s < i;
  tm_buf i p : buf s !! i = Some p → p = msg i;
  tm_waiting i : ordered s = true → i ∈ got s → is_Some (buf s !! i);
  tm_empty : ordered s = false → buf s = ∅
}.

Lemma waiting_all b l (msg : Z → bytes) :
  (∀ i, i ∈ l → b !! i = Some (msg i)) → waiting b l = (λ i, (i, msg i)) <$> l.
Proof.
  intros H. induction l as [|i l IH]; [done|].
  change (i :: l) with ([i] ++ l). rewrite waiting_app, fmap_app, IH by set_solver.
  unfold waiting; simpl. by rewrite H by set_solver.
Qed.

Lemma waiting_none b l : (∀ i, i ∈ l → b !! i = None) → waiting b l = [].
Proof.
  intros H. induction l as [|i l IH]; [done|].
  change (i :: l) with ([i] ++ l). rewrite waiting_app, IH by set_solver.
  unfold waiting; simpl. by rewrite H by set_solver.
Qed.

Lemma waiting_single b l n p :
  NoDup l → n ∈ l → b !! n = Some p → (∀ i, i ≠ n → b !! i = None) → waiting b l = [(n, p)].
Proof.
  intros Hl (l1 & l2 & ->)%list_elem_of_split Hn Hb.
  apply NoDup_app in Hl as (_ & H1 & [H2 _]%NoDup_cons).
  change (n :: l2) with ([n] ++ l2). rewrite !waiting_app.
  rewrite (waiting_none b l1), (waiting_none b l2).
  - unfold waiting; simpl. by rewrite Hn.
  - intros i Hi. apply Hb. by intros ->.
  - intros i Hi. apply Hb. intros ->. apply (H1 n Hi). by left.
Qed.

Section liveness.
Context (msg : Z → bytes).
Implicit Types (s : Spec) (A : gset Z) (n : Z) (p : bytes).

Lemma timely_skip A s : timely msg A s → skip s = s.
Proof. intros [_ [_ Hl] _ _ _ _ _]. unfold skip. by destruct (Z.ltb_spec (cur s) (last s - window s)); [lia|]. Qed.

Lemma timely_duplicate A s n p :
  timely msg A s → n ∈ A → receive s n p = (s, false).
Proof.
  intros Ht Hn. pose proof Ht as [Hwf _ (_ & _ & Hf) Hgot _ _ _].
  destruct (receive_cases s n p) as [[? ->]|[(Hlt & Hg & ->)|(Hlt & Hg & ->)]];
    rewrite (timely_skip A s Ht) in *; [done|..].
  - f_equal. assert (n ≠ cur s + 1) by (by intros ->).
    assert (n ≤ last s) by (apply (wf_got _ Hwf), Hgot; by split).
    unfold arrived, advance; simpl. destruct (Z.eqb_spec n (cur s + 1)); [done|].
    rewrite Z.max_l by done. by destruct s.
  - destruct Hg. apply got_arrived; [lia|]. by apply Hgot.
Qed.

(** The state in which a new packet is published. *)
Lemma timely_stored A s n p :
  timely msg A s → 1 ≤ n → n ∉ A →
  let s2 := store (arrived s n) n p in
  cur s < n ∧ receive s n p = (publish s2, true) ∧
  (∀ i, i ∈ got s2 ↔ i = n ∨ i ∈ A ∧ cur s < i) ∧
  (∀ i, buf s2 !! i = if decide (i = n) then Some p else buf s !! i).
Proof.
  intros Ht Hn1 Hn s2. pose proof Ht as [Hwf _ (_ & Hall & _) Hgot _ _ _].
  assert (cur s < n) as Hlt.
  { apply Z.nle_gt. intros Hle. apply Hn, Hall. lia. }
  assert (cur s ∉ got s) as Hcur by (rewrite Hgot; lia).
  assert (∀ i, i ∈ got (arrived s n) ↔ i ∈ A ∧ cur s < i) as Hga.
  { intros i. rewrite <-Hgot. destruct (decide (i = cur s)) as [->|]; [|by apply got_arrived].
    unfold arrived, advance; simpl. destruct (_ =? _); simpl; [|done].
    rewrite elem_of_difference. naive_solver. }
  split_and!; [done|..].
  - destruct (receive_cases s n p) as [[? ->]|[(_ & Hg & ->)|(_ & Hg & ->)]];
      rewrite (timely_skip A s Ht) in *; [lia| |done].
    apply Hga in Hg as [? _]. done.
  - intros i. subst s2; simpl. rewrite elem_of_union, elem_of_singleton, Hga. done.
  - intros i. subst s2; simpl. case_decide as Hi; [subst; apply lookup_insert_eq|].
    rewrite lookup_insert_ne by done. unfold arrived, advance; simpl.
    destruct (_ =? _); simpl; [|done]. rewrite lookup_delete. case_decide; [|done].
    subst. symmetry. apply eq_None_not_Some. by intros ?%(wf_buf _ Hwf).
Qed.

Record published_on_time A s n (t : Spec) : Prop := {
  pt_timely : timely msg ({[ n ]} ∪ A) t;
  pt_ordered : ordered s = true →
    out t = out s ++ ((λ i, (i, msg i)) <$> seqZ (cur s + 1) (cur t - cur s));
  pt_unordered : ordered s = false → out t = out s ++ [(n, msg n)];
  pt_cur : cur s ≤ cur t;
  pt_same : ordered t = ordered s ∧ window t = window s
}.

(** How far the walk of a new packet gets. *)
Lemma timely_walk A s n s2 t k m :
  timely msg A s → n ∉ A → cur s < n ≤ cur s + window s →
  (∀ i, i ∈ got s2 ↔ i = n ∨ i ∈ A ∧ cur s < i) →
  window s2 = window s → last s2 = Z.max (last s) n →
  cur s2 = (if n =? cur s + 1 then n else cur s) →
  walked s2 t (cur s2) (Z.to_nat (Z.min (window s2) (last s2 - cur s2 + 1))) k m →
  is_frontier ({[ n ]} ∪ A) (cur t) ∧ cur s ≤ cur t ∧
  (∀ i, i ∈ got t ↔ i ∈ {[ n ]} ∪ A ∧ cur t < i) ∧
  seqZ (cur s2) (Z.of_nat k) = seqZ (cur s + 1) (cur t - cur s).
Proof.
  intros [Hwf [HW1 HW] (Hf0 & Hf1 & Hf2) Hgot _ _ _] Hn Hr Hg Ew El Ec2
    [_ Ec Eg Hrun Hgap [Hk _] _ _].
  assert (∀ i, i ∈ A → cur s < i → i ≤ last s) as Hlast
    by (intros i HA Hi; by apply (wf_got _ Hwf), Hgot).
  destruct (Z.eqb_spec n (cur s + 1)) as [Hnext|Hnext].
  - assert (k ≠ 0%nat) as Hk0.
    { intros ->. apply Hgap; [lia|]. apply Hg. lia. }
    rewrite decide_False in Ec by done. rewrite Ec2 in *.
    assert (∀ i, n ≤ i < n + Z.of_nat k → i ∈ {[ n ]} ∪ A) as Hin.
    { intros i Hi. rewrite elem_of_union, elem_of_singleton.
      destruct (proj1 (Hg i)) as [?|[? _]]; [apply Hrun, elem_of_seqZ; lia|by left|by right]. }
    assert (n + Z.of_nat k ∉ A) as Hnk.
    { intros HA. assert (Z.of_nat k ≤ last s - n) by (specialize (Hlast _ HA); lia).
      apply Hgap; [lia|]. apply Hg. right. split; [done|lia]. }
    split_and!; [split_and!|..].
    + lia.
    + intros i Hi. destruct (decide (i < n)); [|apply Hin; lia].
      apply elem_of_union_r, Hf1. lia.
    + rewrite Ec, elem_of_union, elem_of_singleton.
      replace (n + Z.of_nat k - 1 + 1) with (n + Z.of_nat k) by lia. naive_solver lia.
    + lia.
    + intros i. rewrite Eg, elem_of_difference, elem_of_list_to_set, elem_of_seqZ, Hg, Ec.
      rewrite elem_of_union, elem_of_singleton. split; [|naive_solver lia].
      intros [[->|[? ?]] ?]; [|split; [by right|]]; lia.
    + f_equal; lia.
  - rewrite Ec2 in *. assert (k = 0%nat) as ->.
    { destruct k as [|k]; [done|]. exfalso.
      destruct (proj1 (Hg (cur s))) as [?|[_ ?]]; [apply Hrun, elem_of_seqZ|..]; lia. }
    rewrite decide_True in Ec by done. rewrite Ec. split_and!; [split_and!|..].
    + done.
    + intros i Hi. by apply elem_of_union_r, Hf1.
    + rewrite elem_of_union, elem_of_singleton. naive_solver.
    + done.
    + intros i. rewrite Eg, elem_of_difference, elem_of_list_to_set, elem_of_seqZ, Hg.
      rewrite elem_of_union, elem_of_singleton. naive_solver lia.
    + rewrite !seqZ_nil by lia. done.
Qed.

(** Every packet that waits on an ordered channel is in its place. *)
Lemma timely_waits A s n s2 :
  timely msg A s → (∀ i, i ∈ got s2 ↔ i = n ∨ i ∈ A ∧ cur s < i) →
  (∀ i, buf s2 !! i = if decide (i = n) then Some (msg n) else buf s !! i) →
  ∀ i, i ∈ got s2 → ordered s = true → buf s2 !! i = Some (msg i).
Proof.
  intros Ht Hg Hb i Hi Ho. rewrite Hb. destruct (decide (i = n)) as [->|Hin]; [done|].
  apply Hg in Hi as [?|Hi]; [done|]. destruct (tm_waiting _ _ _ Ht i Ho) as [q Hq]; [by apply (tm_got _ _ _ Ht)|].
  rewrite Hq. by apply (tm_buf _ _ _ Ht) in Hq as ->.
Qed.

Lemma timely_new A s n :
  timely msg A s → 1 ≤ n → n ∉ A → n ≤ cur s + window s →
  (ordered s = false → n < cur s + window s) →
  ∃ t, receive s n (msg n) = (t, true) ∧ published_on_time A s n t.
Proof.
  intros Ht Hn1 Hn HnW HnU. set (s2 := store (arrived s n) n (msg n)).
  destruct (timely_stored A s n (msg n) Ht Hn1 Hn) as (Hlt & Hrec & Hg & Hb). fold s2 in Hrec, Hg, Hb.
  exists (publish s2). split; [done|]. clear Hrec.
  destruct (arrived_fields s n Hlt) as (Eo & Ew & El & Eout & Ec).
  change (ordered s2 = ordered s) in Eo. change (window s2 = window s) in Ew.
  change (last s2 = Z.max (last s) n) in El. change (out s2 = out s) in Eout.
  change (cur s2 = if n =? cur s + 1 then n else cur s) in Ec.
  assert (spec_wf s2) as Hwf2.
  { apply store_wf; [by apply arrived_wf, Hlt; destruct Ht|].
    change (cur s2 ≤ n ≤ last s2). rewrite Ec, El. destruct (_ =? _); lia. }
  destruct (publish_walked s2 Hwf2) as (k & m & Hw).
  destruct (timely_walk A s n s2 (publish s2) k m Ht Hn) as (Hf & Hc & Hgt & Hseq); try done.
  destruct Hw as [(Eo' & Ew' & El' & _) Ec' Eg' Hrun _ [Hk Hm] Eout' Hbuf'].
  pose proof Ht as Ht0. destruct Ht as [Hwf [HW1 HW] _ Hgot Hbuf Hwait Hempty].
  pose proof (timely_waits A s n s2 Ht0 Hg Hb) as Hwait2.
  assert (ordered s = false → m = Z.to_nat (Z.min (window s2) (last s2 - cur s2 + 1)) ∧
    n ∈ seqZ (cur s2) (Z.of_nat m)) as Hspan.
  { intros Ho. rewrite Eo, Ho in Hm. split; [done|]. specialize (HnU Ho).
    rewrite elem_of_seqZ, Hm, Ew, El, Ec. destruct (Z.eqb_spec n (cur s + 1)); lia. }
  split; [split| | | |].
  - by apply publish_wf.
  - rewrite Ew', El', Ew, El. lia.
  - done.
  - done.
  - intros i q. rewrite Hbuf'. destruct (decide (i ∈ _)); [done|]. rewrite Hb.
    destruct (decide (i = n)) as [->|]; [by intros [= <-]|apply Hbuf].
  - intros i. rewrite Eo', Eo, Eg'. intros Ho [Hi Hni]%elem_of_difference. rewrite Hbuf'.
    rewrite elem_of_list_to_set in Hni. rewrite Eo, Ho in Hm. subst m.
    rewrite decide_False by done. rewrite Hwait2 by done. done.
  - rewrite Eo', Eo. intros Ho. destruct (Hspan Ho) as [_ Hin]. apply map_empty. intros i.
    rewrite Hbuf'. destruct (decide (i ∈ _)); [done|]. rewrite Hb, Hempty by done.
    destruct (decide (i = n)) as [->|]; [done|apply lookup_empty].
  - intros Ho. rewrite Eout', Eout, <-Hseq. rewrite Eo, Ho in Hm. subst m. f_equal.
    apply waiting_all. intros i Hi. apply Hwait2; [by apply Hrun|done].
  - intros Ho. rewrite Eout', Eout. destruct (Hspan Ho) as [_ Hin]. f_equal.
    apply waiting_single; [apply NoDup_seqZ|done|..].
    + rewrite Hb. by rewrite decide_True.
    + intros i Hi. rewrite Hb, decide_False, Hempty by done. apply lookup_empty.
  - done.
  - by rewrite Eo', Ew'.
Qed.

(** ** Histories *)

(** How far ahead of the frontier packets may be: on an unordered channel the
    walk of [publish] stops one short of the last index of the window. *)
Definition lookahead (ordered : bool) (window : Z) : Z := if ordered then window else window - 1.

Definition msgs (l : list Z) : list (Z * bytes) := (λ i, (i, msg i)) <$> l.

Lemma timely_consume A s : timely msg A s → timely msg A (consume s).
Proof. intros [Hwf ? ? ? ? ? ?]. split; try done. by apply consume_wf. Qed.

Lemma on_time_run A s taken es :
  timely msg A s → on_time (lookahead (ordered s) (window s)) msg A es →
  ∃ t taken', spec_run (s, taken) es = (t, taken') ∧
    timely msg (list_to_set (arrivals es) ∪ A) t ∧
    delivered (t, taken') = delivered (s, taken) ++
      msgs (if ordered s then seqZ (cur s + 1) (cur t - cur s) else firsts A (arrivals es)) ∧
    cur s ≤ cur t.
Proof.
  revert A s taken. induction es as [|e es IH]; intros A s taken Ht Hes.
  { exists s, taken. split_and!; [done| | |done].
    - by replace (list_to_set (arrivals []) ∪ A) with A by set_solver.
    - rewrite seqZ_nil by lia. destruct (ordered s); by rewrite app_nil_r. }
  destruct e as [n data length|].
  - destruct Hes as (Hn1 & _ & _ & Hmsg & Hnf & Hes).
    specialize (Hnf _ (tm_frontier _ _ _ Ht)). unfold lookahead in Hnf.
    change (spec_run (s, taken) (Packet n data length :: es))
      with (spec_run ((receive s n (payload data length)).1, taken) es).
    change (arrivals (Packet n data length :: es)) with (n :: arrivals es).
    cbn [firsts list_to_set list_to_set]. rewrite Hmsg. destruct (decide (n ∈ A)) as [Hin|Hin].
    + rewrite (timely_duplicate A s n _ Ht Hin). simpl.
      replace ({[n]} ∪ A) with A in Hes by set_solver.
      destruct (IH A s taken Ht Hes) as (t & taken' & -> & HtA & Hd & Hc). exists t, taken'.
      split_and!; [done| |done|done].
      by replace ({[n]} ∪ list_to_set (arrivals es) ∪ A) with (list_to_set (arrivals es) ∪ A) by set_solver.
    + destruct (timely_new A s n Ht Hn1 Hin) as (s' & -> & [Ht' Ho Hu Hc [Eo Ew]]).
      { destruct (ordered s); lia. }
      { intros Eo. rewrite Eo in Hnf. lia. }
      rewrite <-Eo, <-Ew in Hes. simpl.
      destruct (IH _ s' taken Ht' Hes) as (t & taken' & -> & HtA & Hd & Hc'). exists t, taken'.
      split_and!; [done| | |lia].
      * by replace ({[n]} ∪ list_to_set (arrivals es) ∪ A)
          with (list_to_set (arrivals es) ∪ ({[n]} ∪ A)) by set_solver.
      * rewrite Hd, Eo. unfold delivered; simpl. destruct (ordered s).
        -- rewrite Ho by done. unfold msgs. rewrite <-!app_assoc, <-fmap_app. do 3 f_equal.
           replace (cur t - cur s) with ((cur s' - cur s) + (cur t - cur s')) by lia.
           rewrite seqZ_app by lia. do 2 f_equal. lia.
        -- rewrite Hu by done. by rewrite <-!app_assoc.
  - destruct (IH A (consume s) (taken ++ match out s with [] => [] | m :: _ => [m] end))
      as (t & taken' & Hrun & HtA & Hd & Hc); [by apply timely_consume|done|].
    exists t, taken'. split_and!; [done|done| |done].
    rewrite Hd. f_equal. apply (delivered_consume (s, taken)).
Qed.

Lemma timely_init o w : 1 ≤ w → timely msg ∅ (init o w).
Proof.
  intros Hw. split; simpl.
  - apply init_wf. lia.
  - lia.
  - split_and!; [done|lia|set_solver].
  - set_solver.
  - intros i p. by rewrite lookup_empty.
  - set_solver.
  - done.
Qed.
End liveness.

(** The packets that carry the messages of a list, in its order. *)
Definition arrive (msg : Z → bytes) (ks : list Z) : list event :=
  (λ k, Packet k (msg k) (len (msg k))) <$> ks.

Lemma arrivals_arrive msg ks : arrivals (arrive msg ks) = ks.
Proof. unfold arrivals, packets, arrive. induction ks as [|k ks IH]; [done|]. simpl. by f_equal. Qed.

(** The newest index that has arrived is the last one. *)
Definition newest (es : list event) : Z := foldr Z.max 0 (arrivals es).

Lemma newest_spec es :
  0 ≤ newest es ∧ (∀ i, i ∈ arrivals es → i ≤ newest es) ∧ (0 < newest es → newest es ∈ arrivals es).
Proof.
  unfold newest. induction (arrivals es) as [|n l (H0 & IH & Hin)]; simpl.
  { split_and!; [lia|by intros i ?%elem_of_nil|lia]. }
  split_and!; [lia|intros i [->|Hi%IH]%elem_of_cons; lia|].
  intros Hm. destruct (Z.max_spec n (foldr Z.max 0 l)) as [[Hlt ->]|[Hle ->]]; [right; apply Hin; lia|by left].
Qed.

Lemma on_time_positive ahead msg es i : ∀ A, on_time ahead msg A es → i ∈ arrivals es → 1 ≤ i.
Proof.
  induction es as [|[n data length|] es IH]; intros A Hes Hi; [by apply elem_of_nil in Hi| |by eapply IH].
  destruct Hes as (Hn & _ & _ & _ & _ & Hes). change (i ∈ n :: arrivals es) in Hi.
  apply elem_of_cons in Hi as [->|Hi]; [done|by eapply IH].
Qed.

Lemma receive_last s n p : spec_wf s → last (receive s n p).1 = Z.max (last s) n.
Proof.
  intros Hs. pose proof (skip_wf s Hs) as [_ Ho _ _]. destruct (skip_fields s) as (_ & _ & El & _ & _).
  destruct (receive_cases s n p) as [[Hn ->]|[(Hn & _ & ->)|(Hn & _ & ->)]]; simpl.
  - lia.
  - destruct (arrived_fields (skip s) n Hn) as (_ & _ & -> & _). lia.
  - destruct (publish_walked _ (arrived_store_wf s n p Hs Hn)) as (k & m & [(_ & _ & -> & _) _ _ _ _ _ _]).
    destruct (arrived_fields (skip s) n Hn) as (_ & _ & E & _). cbn [store set last]. rewrite E. lia.
Qed.

Lemma spec_run_last es : ∀ s taken, spec_wf s → last (spec_run (s, taken) es).1 = Z.max (last s) (newest es).
Proof.
  induction es as [|e es IH]; intros s taken Hs.
  { destruct Hs as [_ Ho _ _]. unfold newest. simpl. lia. }
  destruct e as [n data length|].
  - change (spec_run (s, taken) (Packet n data length :: es))
      with (spec_run ((receive s n (payload data length)).1, taken) es).
    change (newest (Packet n data length :: es)) with (Z.max n (newest es)).
    rewrite IH, receive_last by auto using receive_wf. lia.
  - apply (IH (consume s)). by apply consume_wf.
Qed.

(** [m] is the newest of the messages [A], or 0. *)
Definition is_newest (A : gset Z) (m : Z) : Prop := 0 ≤ m ∧ (∀ i, i ∈ A → i ≤ m) ∧ (0 < m → m ∈ A).

Lemma newest_is_newest es : is_newest (list_to_set (arrivals es)) (newest es).
Proof.
  destruct (newest_spec es) as (H0 & Hle & Hin). unfold is_newest. rewrite elem_of_list_to_set.
  split_and!; [done| |done]. intros i Hi%elem_of_list_to_set. by apply Hle.
Qed.

Lemma is_newest_unique A m m' : is_newest A m → is_newest A m' → m = m'.
Proof.
  intros (H0 & Hle & Hin) (H0' & Hle' & Hin').
  destruct (Z.lt_trichotomy m m') as [Hlt|[->|Hlt]]; [|done|].
  - specialize (Hle m' (Hin' ltac:(lia))). lia.
  - specialize (Hle' m (Hin ltac:(lia))). lia.
Qed.

Lemma is_newest_add A m k : 1 ≤ k → is_newest A m → is_newest ({[ k ]} ∪ A) (Z.max m k).
Proof.
  intros Hk (H0 & Hle & Hin). split_and!; [lia| |].
  - intros i [->%elem_of_singleton|Hi%Hle]%elem_of_union; lia.
  - intros _. apply elem_of_union. destruct (Z.max_spec m k) as [[_ ->]|[? ->]]; [left; by apply elem_of_singleton|].
    right. apply Hin. lia.
Qed.

(** ** An ordered receiver and its application

    The application has got the messages up to [j]; those up to the current one
    are published, in order. *)
Record serving (msg : Z → bytes) (W : Z) (A : gset Z) (s : Spec) (j : Z) : Prop := {
  sv_timely : timely msg A s;
  sv_ordered : ordered s = true ∧ window s = W;
  sv_out : out s = msgs msg (seqZ (j + 1) (cur s - j));
  sv_count : 0 ≤ j ≤ cur s;
  sv_newest : is_newest A (last s)
}.

Section serving.
Context {msg : Z → bytes}.
Implicit Types (W j k : Z) (A : gset Z) (s : Spec) (p : bytes) (ms : list (Z * bytes)).

Lemma serving_init W : 1 ≤ W → serving msg W ∅ (init true W) 0.
Proof.
  intros HW. split; [by apply timely_init|done|done|simpl; lia|].
  split_and!; [simpl; lia|intros i []%elem_of_empty|simpl; lia].
Qed.

Lemma serving_out W A s j k p ms : serving msg W A s j → out s = (k, p) :: ms → p = msg k.
Proof.
  intros [_ _ Ho _ _] E. rewrite Ho in E.
  destruct (seqZ (j + 1) (cur s - j)); simplify_eq/=. done.
Qed.

Lemma serving_consume W A s j k p ms :
  serving msg W A s j → out s = (k, p) :: ms → k = j + 1 ∧ serving msg W A (consume s) (j + 1).
Proof.
  intros [Ht Ho Hout Hj Hn] E. rewrite E in Hout.
  destruct (decide (cur s = j)) as [Ej|Hne]; [by rewrite Ej, Z.sub_diag in Hout|].
  rewrite seqZ_cons in Hout by lia. injection Hout as -> -> ->. split; [done|]. split.
  - by apply timely_consume.
  - done.
  - unfold consume. simpl. rewrite E. simpl. unfold msgs. f_equal. f_equal; lia.
  - simpl. lia.
  - done.
Qed.

(** The application takes everything. *)
Lemma serving_drain W A s j : serving msg W A s j → serving msg W A (s <| out := [] |>) (cur s).
Proof.
  intros [[Hwf ? ? ? ? ? ?] Ho Hout Hj Hn]. split; simpl; [|done|by rewrite Z.sub_diag|lia|done].
  split; try done. by destruct Hwf.
Qed.

Lemma serving_nothing W A s j : serving msg W A s j → out s = [] → cur s = j.
Proof.
  intros [_ _ Hout Hj _] E. rewrite E in Hout. destruct (decide (cur s = j)) as [|Hne]; [done|].
  by rewrite seqZ_cons in Hout by lia.
Qed.

(** A packet inside the window. *)
Lemma serving_receive W A s j k :
  serving msg W A s j → 1 ≤ k ≤ cur s + W → serving msg W ({[ k ]} ∪ A) (receive s k (msg k)).1 j.
Proof.
  intros [Ht [Ho HW] Hout Hj Hn] Hk. destruct (decide (k ∈ A)) as [Hin|Hni].
  - rewrite (timely_duplicate _ _ _ _ _ Ht Hin). replace ({[k]} ∪ A) with A by set_solver. by split.
  - pose proof (receive_last s k (msg k) (tm_wf _ _ _ Ht)) as Hl.
    destruct (timely_new msg A s k Ht ltac:(lia) Hni ltac:(lia)) as (t & E & [Ht' Hpub _ Hcur [Eo Ew]]);
      [by rewrite Ho|]. rewrite E in Hl |- *. simpl in Hl |- *.
    split; [done|by rewrite Eo, Ew| |lia|rewrite Hl; by apply is_newest_add; [lia|]].
    rewrite Hpub, Hout by done. unfold msgs. rewrite <-fmap_app. f_equal.
    replace (cur t - j) with ((cur s - j) + (cur t - cur s)) by lia.
    rewrite seqZ_app by lia. f_equal. f_equal. lia.
Qed.
End serving.
