(* ===== verification/receiver_typed.v ===== *)
(** What holds of a receiver whatever packets arrive.

    [typed] is the type of a receiver's state beyond what the source's types
    say: sequences fit 16 bits, both vectors have their 1024 slots, and every
    buffer has the bytes that its length claims.  Unlike the refinement of
    [receiver_refinement.v] it needs no packet to be within reach: it is kept by
    every operation on every input, and no operation panics on it. *)

From S2P Require Import prelude sequence sequence_buffer nack byte_buffer_pool receiver.

Import Receiver SequenceBuffer.

(** A vector of 1024 slots whose values satisfy [P]. *)
Definition slots_typed {T} (P : T → Prop) (b : SequenceBuffer T) : Prop :=
  wf b ∧ partition_by b = 1024 ∧ ∀ k v, at_slot b k = Some v → P v.

(** A buffer of the receiver's pool, and one that was filled: [P] is what is known
    of the packets it was filled with. *)
Definition packet_typed (P : bytes → Prop) (b : ByteBuffer.ByteBuffer) : Prop :=
  buffer_ok BYTE_BUFFER_SIZE_DEFAULT b ∧ P (firstn (Z.to_nat (ByteBuffer.length b)) (ByteBuffer.data b)).

Record typed (P : bytes → Prop) (r : Receiver) : Prop := {
  ty_last : is_u16 (last_sequence r);
  ty_current : is_u16 (current_sequence r);
  ty_skipped : 0 ≤ skipped_sequences r < 2 ^ 64;
  ty_received : slots_typed (λ _, True) (received r);
  ty_buffered : slots_typed (packet_typed P) (buffered r);
  ty_published : Forall (packet_typed P) (published r);
  ty_pool : pool_wf (buffer_pool r) ∧ ByteBufferPool.buffer_size (buffer_pool r) = BYTE_BUFFER_SIZE_DEFAULT
}.

Section slots.
Context {T : Type} (P : T → Prop).
Implicit Types (b : SequenceBuffer T) (s : Z).

Lemma slots_typed_empty : slots_typed P (mk (replicate (Z.to_nat RECEIVE_BUFFER_SIZE) None) RECEIVE_BUFFER_SIZE).
Proof.
  change (slots_typed P (empty T 1024)). split; [by apply empty_wf|]. split; [done|].
  intros k v. by rewrite at_slot_empty.
Qed.

Lemma slots_typed_put b k v :
  slots_typed P b → (∀ x, v = Some x → P x) → slots_typed P (put_slot k v b).
Proof.
  intros (Hwf & Hp & Hb) Hv. split; [by apply put_slot_wf|]. split; [done|]. intros j x.
  destruct (decide (j = k)) as [->|Hne]; [|rewrite at_put_slot_ne by done; apply Hb].
  unfold at_slot, put_slot. simpl. intros Hx.
  destruct (<[k:=v]> (values b) !! k) as [y|] eqn:E; [|done].
  apply list_lookup_insert_Some in E as [(_ & -> & _)|(? & _)]; [by apply Hv|done].
Qed.

Lemma typed_remove b s : slots_typed P b → ∃ b', remove b s = Ret b' ∧ slots_typed P b'.
Proof. intros Hb. rewrite remove_wf by apply Hb. eexists. split; [done|]. by apply slots_typed_put. Qed.

Lemma typed_take b s :
  slots_typed P b → ∃ v b', take b s = Ret (v, b') ∧ slots_typed P b' ∧ ∀ x, v = Some x → P x.
Proof.
  intros Hb. rewrite take_wf by apply Hb. do 2 eexists. split; [done|]. split; [by apply slots_typed_put|].
  intros x. apply Hb.
Qed.

Lemma typed_insert b s x : slots_typed P b → P x → ∃ b' v, insert b s x = Ret (b', v) ∧ slots_typed P b'.
Proof.
  intros Hb Hx. rewrite insert_wf by apply Hb. do 2 eexists. split; [done|]. apply slots_typed_put; [done|].
  by intros ? [= <-].
Qed.

Lemma typed_is_some b s : slots_typed P b → ∃ v, is_some b s = Ret v.
Proof. intros Hb. rewrite is_some_wf by apply Hb. by eexists. Qed.
End slots.

Lemma as_u64_range v : 0 ≤ as_u64 v < 2 ^ 64.
Proof. apply Z.mod_pos_bound. lia. Qed.

Section typed.
Context (P : bytes → Prop).
Implicit Types (r : Receiver) (s : Z) (data : bytes).

Lemma typed_create o w : typed P (create o w).
Proof.
  split; simpl; try lia.
  - apply slots_typed_empty.
  - apply slots_typed_empty.
  - constructor.
  - split; [apply pool_wf_default|done].
Qed.

Lemma next_sequence_u16 s : is_u16 s → is_u16 (Sequence.next_sequence s).
Proof. unfold Sequence.next_sequence, u16_max. destruct (Z.leb_spec (65535 - 1) s); lia. Qed.

Lemma skip_one_typed r : typed P r → ∃ r', skip_one r = Ret r' ∧ typed P r'.
Proof.
  intros Hr. unfold skip_one. destruct (should_increment_current _ _ _); [|by exists r].
  destruct (typed_take _ (received r) (current_sequence r) (ty_received _ _ Hr)) as (v & b & -> & Hb & _).
  rewrite bind_ret_l. cbv beta iota. eexists. split; [done|]. destruct Hr. split; simpl; try done.
  - by apply next_sequence_u16.
  - apply as_u64_range.
Qed.

Lemma set_buffered_typed r s data length :
  typed P r → 0 ≤ length ≤ len data → len data ≤ isize_max → P (firstn (Z.to_nat length) data) →
  ∃ r', set_buffered r s data length = Ret r' ∧ typed P r'.
Proof.
  intros Hr Hl Hd HP. pose proof (ty_pool _ _ Hr) as [Hpool Hsize].
  destruct (get_buffer_spec (buffer_pool r) length Hpool) as (pool & b & Hget & Hpool' & Hs' & _ & Hb & Hbl & _); [lia|].
  rewrite Hsize in Hb. assert (0 ≤ BYTE_BUFFER_SIZE_DEFAULT) as H0 by (unfold BYTE_BUFFER_SIZE_DEFAULT; lia).
  pose proof (buffer_ok_length _ _ H0 Hb) as Hblen.
  unfold set_buffered. rewrite Hget, bind_ret_l. cbv beta iota.
  rewrite slice_prefix, bind_ret_l by lia.
  assert (len (firstn (Z.to_nat length) data) = length) as Hpl by (rewrite length_take; lia).
  rewrite copy_in_bounds, bind_ret_l by lia. change (Z.to_nat 0) with 0%nat.
  set (b2 := ByteBuffer.get_mut b (splice 0 (firstn (Z.to_nat length) data) (ByteBuffer.data b))).
  assert (packet_typed P b2) as Hb2.
  { unfold packet_typed, b2, buffer_ok in *. simpl. rewrite Hbl in Hb. rewrite length_splice, Hbl, splice_0 by lia.
    split; [done|]. by rewrite take_app_length' by lia. }
  destruct (typed_insert _ (buffered r) s b2 (ty_buffered _ _ Hr) Hb2) as (b' & v & Hins & Hb').
  cbn [set buffered]. rewrite Hins. eexists. split; [done|].
  destruct Hr. split; simpl; try done. by rewrite Hs'.
Qed.

Lemma set_received_typed r s : typed P r → ∃ r', set_received r s = Ret r' ∧ typed P r'.
Proof.
  intros Hr. destruct (typed_insert _ (received r) s true (ty_received _ _ Hr) I) as (b & v & Hins & Hb).
  unfold set_received. rewrite Hins. eexists. split; [done|]. destruct Hr. by split.
Qed.

Lemma publish_step_typed stop r step s :
  typed P r → is_u16 s →
  ∃ r' step' s' go, publish_step stop (r, step, s) = Ret (r', step', s', go) ∧ typed P r' ∧ is_u16 s'.
Proof.
  intros Hr Hs. pose proof (next_sequence_u16 s Hs) as Hn. unfold publish_step, is_received.
  destruct (typed_is_some _ (received r) s (ty_received _ _ Hr)) as [[] ->]; rewrite bind_ret_l; cbv beta iota.
  - assert (∃ r1, (if current_sequence r =? s then
        b ← remove (received r) s; Ret (r <| received := b |>)
      else if step && Sequence.is_greater_then s (current_sequence r) then
        b ← remove (received r) s; Ret (r <| current_sequence := s |> <| received := b |>)
      else Ret r) = Ret r1 ∧ typed P r1) as (r1 & -> & Hr1).
    { destruct (typed_remove _ (received r) s (ty_received _ _ Hr)) as (b & -> & Hb). rewrite !bind_ret_l.
      repeat case_match; eexists; (split; [done|]); destruct Hr; by split. }
    rewrite bind_ret_l. unfold is_buffered.
    destruct (typed_is_some _ (buffered r1) s (ty_buffered _ _ Hr1)) as [[] ->]; rewrite bind_ret_l; cbv beta iota;
      [|rewrite !bind_ret_l; cbv beta iota zeta; by do 4 eexists].
    destruct (typed_take _ (buffered r1) s (ty_buffered _ _ Hr1)) as (v & b & -> & Hb & Hv). rewrite bind_ret_l.
    cbv beta iota zeta. destruct v as [x|]; rewrite !bind_ret_l; cbv beta iota zeta; do 4 eexists; (split; [done|]);
      (split; [|done]); destruct Hr1; split; simpl; try done.
    apply Forall_app. split; [done|]. constructor; [by apply Hv|constructor].
  - destruct (is_ordered r); rewrite bind_ret_l; cbv beta iota zeta; by do 4 eexists.
Qed.

Lemma publish_loop_typed stop n : ∀ r step s,
  typed P r → is_u16 s → ∃ r', publish_loop stop n (r, step, s) = Ret r' ∧ typed P r'.
Proof.
  induction n as [|n IH]; intros r step s Hr Hs; [by exists r|]. cbn [publish_loop].
  destruct (publish_step_typed stop r step s Hr Hs) as (r1 & step1 & s1 & go & -> & Hr1 & Hs1).
  rewrite bind_ret_l. cbv beta iota. destruct go; [by apply IH|by exists r1].
Qed.

Lemma publish_typed r : typed P r → ∃ r', publish r = Ret r' ∧ typed P r'.
Proof. intros Hr. apply publish_loop_typed; [done|apply Hr]. Qed.

(** A packet that may be given up, moves the current sequence or only the last
    one. *)
Lemma advance_typed r s :
  typed P r → is_u16 s →
  ∃ r', (if s =? Sequence.next_sequence (current_sequence r) then
           b ← remove (received (r <| current_sequence := s |>)) (current_sequence r);
           Ret (r <| current_sequence := s |> <| received := b |>)
         else Ret r) = Ret r' ∧ typed P r'.
Proof.
  intros Hr Hs. destruct (s =? _); [|by exists r].
  destruct (typed_remove _ (received r) (current_sequence r) (ty_received _ _ Hr)) as (b & Hrem & Hb).
  cbn [set received]. rewrite Hrem, bind_ret_l. eexists. split; [done|]. destruct Hr. by split.
Qed.

Lemma receive_packet_typed r s data length :
  typed P r → is_u16 s → 0 ≤ length ≤ len data → len data ≤ isize_max → P (firstn (Z.to_nat length) data) →
  ∃ r' accepted, receive_packet r s data length = Ret (r', accepted) ∧ typed P r'.
Proof.
  intros Hr Hs Hl Hd HP. unfold receive_packet.
  destruct (skip_one_typed r Hr) as (r1 & -> & Hr1). rewrite bind_ret_l.
  destruct (Sequence.is_greater_then s (current_sequence r1)); [|by do 2 eexists]. cbn [negb]. cbv zeta.
  set (r2 := if Sequence.is_greater_then s (last_sequence r1) then _ else r1).
  assert (typed P r2) as Hr2.
  { unfold r2. destruct (Sequence.is_greater_then s (last_sequence r1)); [|done]. destruct Hr1. by split. }
  clearbody r2. destruct (advance_typed r2 s Hr2 Hs) as (r3 & -> & Hr3). rewrite bind_ret_l.
  unfold is_received. destruct (typed_is_some _ (received r3) s (ty_received _ _ Hr3)) as [[] ->];
    rewrite bind_ret_l; cbv beta iota; [by do 2 eexists|].
  destruct (set_buffered_typed r3 s data length Hr3 Hl Hd HP) as (r4 & -> & Hr4). rewrite bind_ret_l.
  destruct (set_received_typed r4 s Hr4) as (r5 & -> & Hr5). rewrite bind_ret_l.
  destruct (publish_typed r5 Hr5) as (r6 & -> & Hr6). by do 2 eexists.
Qed.

Lemma take_published_typed r :
  typed P r → typed P (take_published r).2 ∧ ∀ b, (take_published r).1 = Some b → packet_typed P b.
Proof.
  intros Hr. unfold take_published. pose proof (ty_published _ _ Hr) as Hpub.
  destruct (published r) as [|b rest]; [done|]. apply Forall_cons in Hpub as [Hb Hrest]. simpl.
  split; [destruct Hr; by split|by intros ? [= <-]].
Qed.

Lemma return_buffer_typed r b : typed P r → packet_typed P b → typed P (Receiver.return_buffer r b).
Proof.
  intros Hr [Hb _]. pose proof (ty_pool _ _ Hr) as [Hpool Hsize]. rewrite <-Hsize in Hb.
  destruct (return_buffer_wf (buffer_pool r) b Hpool Hb) as (Hp' & Hs' & _).
  destruct Hr. split; simpl; try done. by rewrite Hs'.
Qed.
End typed.
