(* ===== verification/receiver_refinement.v ===== *)
(** The receiver implements its specification.

    [refines r s] relates the concrete receiver of [receiver.v] to a state of
    [receiver_spec.v].  Every operation preserves it as long as packets are
    within reach of the current index: then 16-bit sequences compare like
    indices, and no two indices share a slot of the 1024-slot vectors.  The
    operations of the concrete receiver never panic on related states. *)

From S2P Require Import prelude sequence sequence_buffer nack byte_buffer_pool receiver receiver_spec receiver_delivery.

Import SequenceBuffer Receiver Spec.

#[local] Arguments put_slot : simpl never.

Definition payload_of (b : ByteBuffer.ByteBuffer) : bytes :=
  firstn (Z.to_nat (ByteBuffer.length b)) (ByteBuffer.data b).

Record refines (r : Receiver) (s : Spec) : Prop := {
  rf_ordered : is_ordered r = ordered s;
  rf_window : receive_window_size r = window s ∧ window s ≤ 31000;
  rf_cur : current_sequence r = seq_of (cur s);
  rf_last : last_sequence r = seq_of (last s);
  rf_reach : last s ≤ cur s + 1022;
  rf_wf : spec_wf s;
  rf_received_wf : SequenceBuffer.wf (received r) ∧ partition_by (received r) = 1024;
  rf_buffered_wf : SequenceBuffer.wf (buffered r) ∧ partition_by (buffered r) = 1024;
  rf_received k : is_Some (at_slot (received r) k) ↔
    ∃ i, i ∈ got s ∧ slot (received r) (seq_of i) = k;
  rf_buffered i : i ∈ got s →
    payload_of <$> at_slot (buffered r) (slot (buffered r) (seq_of i)) = buf s !! i;
  rf_pool : pool_wf (buffer_pool r) ∧
    ByteBufferPool.buffer_size (buffer_pool r) = BYTE_BUFFER_SIZE_DEFAULT;
  rf_slots k b : at_slot (buffered r) k = Some b → buffer_ok BYTE_BUFFER_SIZE_DEFAULT b;
  rf_published : Forall (buffer_ok BYTE_BUFFER_SIZE_DEFAULT) (published r) ∧
    payload_of <$> published r = (out s).*2;
  rf_skipped : skipped_sequences r = as_u64 (skipped s)
}.

Lemma refines_create o w :
  0 ≤ w ≤ 31000 → refines (Receiver.create o w) (init o w).
Proof.
  intros Hw.
  assert (received (Receiver.create o w) = empty bool 1024) as Er by done.
  assert (buffered (Receiver.create o w) = empty ByteBuffer.ByteBuffer 1024) as Eb by done.
  split; rewrite ?Er, ?Eb; try done; try (split; [by apply empty_wf|done]).
  - simpl. lia.
  - apply init_wf. lia.
  - intros k. rewrite at_slot_empty. split; [by intros [? ?]|]. by intros (i & Hi & _).
  - intros k b. by rewrite at_slot_empty.
Qed.

(** ** Small updates *)

Section updates.
Implicit Types (r : Receiver) (s : Spec) (i n c : Z).

Lemma in_window r s i : refines r s → i ∈ got s → cur s ≤ i ≤ cur s + 1022.
Proof. intros Hr Hi. apply (wf_got _ (rf_wf _ _ Hr)) in Hi. pose proof (rf_reach _ _ Hr). lia. Qed.

Lemma is_received_refines r s i :
  refines r s → cur s ≤ i ≤ cur s + 1022 →
  is_received r (seq_of i) = Ret (bool_decide (i ∈ got s)).
Proof.
  intros Hr Hi. pose proof (rf_received_wf _ _ Hr) as [Hwf Hp].
  unfold is_received. rewrite is_some_wf by done. f_equal. apply bool_decide_ext.
  rewrite (rf_received _ _ Hr). split; [|by exists i].
  intros (j & Hj & Hs). apply slot_seq_of_inj in Hs as ->; [done..|].
  apply (in_window r s j Hr) in Hj. lia.
Qed.

(** Unmark [j] and move the current index to [c]. *)
Lemma forget_refines r s j c :
  refines r s → cur s ≤ c ≤ last s → cur s ≤ j ≤ cur s + 1022 →
  (∀ i, i ∈ got s → i = j ∨ c ≤ i) →
  refines (r <| received := put_slot (slot (received r) (seq_of j)) None (received r) |>
             <| current_sequence := seq_of c |>)
          ((forget s j) <| cur := c |>).
Proof.
  intros Hr Hc Hj Hg. pose proof Hr as [? ? ? ? Hreach Hwf [Hrw Hrp] ? Hrec Hbuf ? ? ? ?].
  split; simpl; try done.
  - lia.
  - destruct Hwf as [Hw Ho Hgot Hb]. split; simpl; [done|lia| |].
    + intros i [Hi Hne]%elem_of_difference. rewrite elem_of_singleton in Hne.
      destruct (Hg i Hi); [done|]. apply Hgot in Hi. lia.
    + intros i [p [Hne Hp]%lookup_delete_Some]. apply elem_of_difference.
      rewrite elem_of_singleton. naive_solver.
  - split; [by apply put_slot_wf|done].
  - intros k. destruct (decide (k = slot (received r) (seq_of j))) as [->|Hne].
    + rewrite at_put_slot_eq by by apply slot_lt. split; [by intros [? ?]|].
      intros (i & [Hi Hij]%elem_of_difference & Hs). rewrite elem_of_singleton in Hij.
      destruct Hij. rewrite slot_put_slot in Hs.
      apply slot_seq_of_inj in Hs; [done..|]. apply (in_window r s i Hr) in Hi. lia.
    + rewrite at_put_slot_ne, Hrec by done. apply exist_proper. intros i.
      rewrite elem_of_difference, elem_of_singleton. naive_solver.
  - intros i [Hi Hne]%elem_of_difference. rewrite elem_of_singleton in Hne.
    rewrite lookup_delete_ne by done. by apply Hbuf.
Qed.

Lemma last_refines r s n :
  refines r s → cur s < n ≤ cur s + 1022 →
  refines (if Sequence.is_greater_then (seq_of n) (last_sequence r)
           then r <| last_sequence := seq_of n |> else r)
          (s <| last := Z.max (last s) n |>).
Proof.
  intros Hr Hn. pose proof Hr as [? ? ? Hl Hreach Hwf ? ? ? ? ? ? ? ?].
  rewrite Hl, is_greater_then_seq_of by (destruct Hwf; lia).
  assert (spec_wf (s <| last := Z.max (last s) n |>)) as Hwf'.
  { destruct Hwf as [? ? Hg ?]. split; simpl; try done; [lia|]. intros i Hi%Hg. lia. }
  destruct (Z.ltb_spec (last s) n); split; simpl; try done; try lia; rewrite ?Hl; f_equal; lia.
Qed.

(** [deliver] is the taking of a buffered packet. *)
Definition deliver_concrete r i : Receiver :=
  match at_slot (buffered r) (slot (buffered r) (seq_of i)) with
  | Some b => r <| buffered := put_slot (slot (buffered r) (seq_of i)) None (buffered r) |>
                <| published := published r ++ [b] |>
  | None => r
  end.

Lemma deliver_refines r s i :
  refines r s → i ∈ got s → refines (deliver_concrete r i) (deliver s i).
Proof.
  intros Hr Hi. pose proof Hr as [? ? ? ? Hreach Hwf ? [Hbw Hbp] ? Hbuf ? Hok [Hpub Hout] ?].
  pose proof (Hbuf i Hi) as Hbi. unfold deliver_concrete, deliver.
  destruct (at_slot (buffered r) _) as [b|] eqn:Eb; simpl in Hbi; rewrite <-Hbi; [|done].
  split; simpl; try done.
  - destruct Hwf as [? ? ? Hb]. split; simpl; try done.
    intros j [p [_ Hp]%lookup_delete_Some]. apply Hb. by exists p.
  - split; [by apply put_slot_wf|done].
  - intros j Hj. rewrite slot_put_slot. destruct (decide (i = j)) as [<-|Hne].
    + rewrite at_put_slot_eq by by apply slot_lt. by rewrite lookup_delete_eq.
    + rewrite lookup_delete_ne by done. rewrite at_put_slot_ne; [by apply Hbuf|].
      apply slot_seq_of_ne; [done| |done].
      apply (in_window r s j Hr) in Hj. apply (in_window r s i Hr) in Hi. lia.
  - intros k b'. destruct (decide (slot (buffered r) (seq_of i) = k)) as [<-|Hne].
    + by rewrite at_put_slot_eq by by apply slot_lt.
    + rewrite at_put_slot_ne by done. apply Hok.
  - split.
    + apply Forall_app. split; [done|]. constructor; [by eapply Hok|done].
    + by rewrite !fmap_app, Hout.
Qed.
End updates.

(** ** Publishing *)

Section publishing.
Implicit Types (r : Receiver) (s : Spec) (i n c : Z).

Definition mark_concrete r i : Receiver :=
  r <| received := put_slot (slot (received r) (seq_of i)) None (received r) |>
    <| current_sequence := seq_of i |>.

Definition mark s i : Spec := s <| cur := i |> <| got := got s ∖ {[ i ]} |>.

(** Taking the buffered packet and unmarking it commute, in both worlds. *)
Lemma deliver_mark_concrete r i :
  deliver_concrete (mark_concrete r i) i = mark_concrete (deliver_concrete r i) i.
Proof. unfold deliver_concrete, mark_concrete; simpl. by destruct (at_slot _ _). Qed.

Lemma deliver_mark s i : deliver (mark s i) i = mark (deliver s i) i.
Proof. unfold deliver, mark; simpl. by destruct (buf s !! i). Qed.

Lemma mark_forget s i : buf s !! i = None → mark s i = (forget s i) <| cur := i |>.
Proof. intros Hi. unfold mark, forget; simpl. by rewrite delete_id. Qed.

Lemma mark_deliver_refines r s i :
  refines r s → i ∈ got s → (∀ j, j ∈ got s → i ≤ j) →
  refines (deliver_concrete (mark_concrete r i) i) (deliver (mark s i) i).
Proof.
  intros Hr Hi Hmin. rewrite deliver_mark_concrete, deliver_mark, mark_forget
    by (rewrite deliver_buf; apply lookup_delete_eq).
  pose proof (deliver_refines r s i Hr Hi) as Hr'.
  destruct (deliver_fields s i) as (_ & _ & Ec & El & Eg & _).
  apply forget_refines; [done|..]; rewrite ?Ec, ?El, ?Eg.
  - by apply (wf_got _ (rf_wf _ _ Hr)).
  - by eapply in_window.
  - intros j Hj. right. by apply Hmin.
Qed.

(** The part of an iteration that moves the packet. *)
Lemma deliver_computes {A} r i (k : Receiver → outcome A) :
  SequenceBuffer.wf (buffered r) →
  (buffered_seq ← is_buffered r (seq_of i);
   self ← (if (buffered_seq : bool) then
             '(taken, b) ← SequenceBuffer.take (buffered r) (seq_of i);
             let self := r <| buffered := b |> in
             match taken with
             | Some byte_buffer => Ret (self <| published := published self ++ [byte_buffer] |>)
             | None => Ret self
             end
           else Ret r);
   k self) = k (deliver_concrete r i).
Proof.
  intros Hwf. unfold is_buffered, deliver_concrete. rewrite is_some_wf, bind_ret_l, take_wf by done.
  by destruct (at_slot (buffered r) _).
Qed.

Definition go_on (stop i : Z) : bool := negb (seq_of (i + 1) =? stop).

(** An iteration of the loop at a received index. *)
Lemma publish_step_received stop r s (step : bool) i :
  refines r s → i ∈ got s → (if step then ∀ j, j ∈ got s → i ≤ j else cur s < i) →
  publish_step stop (r, step, seq_of i) =
    Ret (deliver_concrete (if step then mark_concrete r i else r) i, step, seq_of (i + 1), go_on stop i).
Proof.
  intros Hr Hi Hstep. pose proof (in_window r s i Hr Hi) as Hwin.
  pose proof (rf_received_wf _ _ Hr) as [Hwf _].
  assert (current_sequence r = seq_of i → mark_concrete r i =
    r <| received := put_slot (slot (received r) (seq_of i)) None (received r) |>) as Heq.
  { intros E. unfold mark_concrete. rewrite <-E. by destruct r. }
  unfold publish_step. rewrite (is_received_refines r s i Hr Hwin), bool_decide_true by done.
  rewrite bind_ret_l. rewrite (rf_cur _ _ Hr) in *.
  rewrite seq_of_eqb, is_greater_then_seq_of by lia.
  assert ((if cur s =? i
     then r0 ← remove (received r) (seq_of i); Ret (r <|received := r0|>)
     else if step && (cur s <? i)
          then r0 ← remove (received r) (seq_of i);
               Ret (r <|current_sequence := seq_of i|> <|received := r0|>)
          else Ret r) = Ret (if step then mark_concrete r i else r)) as ->.
  { rewrite remove_wf by done. destruct (Z.eqb_spec (cur s) i) as [E|Hne].
    - subst i. destruct step; [by rewrite Heq|lia].
    - destruct step; [|done]. destruct (Z.ltb_spec (cur s) i); [done|lia]. }
  rewrite bind_ret_l, deliver_computes; [|by destruct (rf_buffered_wf _ _ Hr), step].
  simpl. by rewrite seq_of_next.
Qed.

Lemma publish_step_missing stop r s (step : bool) i :
  refines r s → i ∉ got s → cur s ≤ i ≤ cur s + 1022 →
  publish_step stop (r, step, seq_of i) =
    if ordered s then Ret (r, step, seq_of i, false)
    else Ret (r, false, seq_of (i + 1), go_on stop i).
Proof.
  intros Hr Hi Hwin. unfold publish_step.
  rewrite (is_received_refines r s i Hr Hwin), bool_decide_false by done.
  rewrite bind_ret_l, (rf_ordered _ _ Hr). destruct (ordered s); [done|].
  simpl. by rewrite seq_of_next.
Qed.

(** The loop walks like the specification. *)
Lemma publish_loop_refines r s (step : bool) i (fuel : nat) :
  refines r s → cur s ≤ i ≤ last s → (0 < fuel)%nat →
  (if step then ∀ j, j ∈ got s → i ≤ j else cur s < i ∧ ordered s = false) →
  ∃ r', publish_loop (seq_of (last s + 1)) fuel (r, step, seq_of i) = Ret r' ∧
    refines r' (walk s step i (Nat.min fuel (Z.to_nat (last s - i + 1)))).
Proof.
  revert r s step i. induction fuel as [|fuel IH]; intros r s step i Hr Hi Hf Hstep; [lia|].
  replace (Nat.min (S fuel) (Z.to_nat (last s - i + 1)))
    with (S (Nat.min fuel (Z.to_nat (last s - (i + 1) + 1)))) by lia.
  assert (go_on (seq_of (last s + 1)) i = negb (i =? last s)) as Hgo.
  { unfold go_on. pose proof (rf_reach _ _ Hr). rewrite seq_of_eqb by lia. f_equal.
    destruct (Z.eqb_spec i (last s)), (Z.eqb_spec (i + 1) (last s + 1)); (done || lia). }
  cbn [publish_loop walk]. destruct (decide (i ∈ got s)) as [Hin|Hin].
  - rewrite (publish_step_received _ r s) by (done || by destruct step as [|]; [|destruct Hstep]).
    rewrite bind_ret_l, Hgo; cbv beta iota.
    set (s' := deliver (if step then s <| cur := i |> <| got := got s ∖ {[ i ]} |> else s) i).
    set (r' := deliver_concrete (if step then mark_concrete r i else r) i).
    assert (refines r' s') as Hr'.
    { subst r' s'. destruct step; [by apply mark_deliver_refines|by apply deliver_refines]. }
    assert (last s' = last s ∧ ordered s' = ordered s ∧ cur s' = (if step then i else cur s) ∧
      got s' = if step then got s ∖ {[ i ]} else got s) as (El & Eo & Ec & Eg).
    { subst s'. edestruct deliver_fields as (-> & _ & -> & -> & -> & _). by destruct step. }
    destruct (Z.eqb_spec i (last s)) as [E|Hne]; cbv beta iota.
    + exists r'. split; [done|].
      replace (Z.to_nat (last s - (i + 1) + 1)) with 0%nat by lia. by rewrite Nat.min_0_r.
    + destruct fuel as [|fuel]; [by exists r'|]. rewrite <-El.
      apply IH; [done| |lia|]; rewrite ?El, ?Ec, ?Eo, ?Eg.
      * destruct step; lia.
      * destruct step; [|destruct Hstep; split; [lia|done]].
        intros j [Hj Hji]%elem_of_difference. rewrite elem_of_singleton in Hji.
        apply Hstep in Hj. lia.
  - rewrite (publish_step_missing _ r s) by (done || pose proof (rf_reach _ _ Hr); lia).
    destruct (ordered s) eqn:Ho; [by exists r|]. rewrite bind_ret_l, Hgo; cbv beta iota.
    destruct (Z.eqb_spec i (last s)) as [E|Hne]; cbv beta iota.
    + exists r. split; [done|].
      replace (Z.to_nat (last s - (i + 1) + 1)) with 0%nat by lia. by rewrite Nat.min_0_r.
    + destruct fuel as [|fuel]; [by exists r|].
      apply IH; [done|lia|lia|]. by split; [lia|].
Qed.

Lemma publish_refines r s :
  refines r s → ∃ r', Receiver.publish r = Ret r' ∧ refines r' (Spec.publish s).
Proof.
  intros Hr. pose proof Hr as [_ [Ew _] Ec El _ [Hw Ho Hg _] _ _ _ _ _ _ _ _].
  unfold Receiver.publish, Spec.publish. rewrite Ec, El, Ew, seq_of_next.
  destruct (Z.to_nat (window s)) as [|fuel] eqn:Ef.
  { exists r. split; [done|]. by replace (Z.to_nat (Z.min (window s) (last s - cur s + 1))) with 0%nat by lia. }
  replace (Z.to_nat (Z.min (window s) (last s - cur s + 1)))
    with (Nat.min (S fuel) (Z.to_nat (last s - cur s + 1))) by lia.
  apply publish_loop_refines; [done|lia|lia|]. intros j Hj. by apply Hg.
Qed.
End publishing.

(** ** Receiving *)

Section receiving.
Implicit Types (r : Receiver) (s : Spec) (i n c : Z) (data : bytes).

Lemma should_increment_refines c l w :
  0 ≤ w ≤ 31000 → c ≤ l ≤ c + 1022 →
  should_increment_current (seq_of c) (seq_of l) w = (c <? l - w).
Proof.
  intros Hw Hl. unfold should_increment_current. rewrite seq_of_eqb by lia.
  destruct (Z.eqb_spec c l) as [->|Hne]; [destruct (Z.ltb_spec l (l - w)); [lia|done]|].
  assert (window_start (seq_of l) w = seq_of (l - w)) as ->.
  { unfold window_start, u16_max. destruct (seq_of_spec l) as (q & El & Hs). rewrite (as_i32_small w), as_i32_small by lia. cbv zeta.
    destruct (Z.ltb_spec (seq_of l - w) 0); rewrite as_u16_small by lia; symmetry.
    - apply (seq_of_unique _ (q - 1)); lia.
    - apply (seq_of_unique _ q); lia. }
  rewrite is_greater_then_seq_of by lia. by destruct (c <? l - w).
Qed.

Lemma as_u64_succ x : as_u64 (as_u64 x + 1) = as_u64 (x + 1).
Proof. unfold as_u64, wrap. by rewrite Zplus_mod_idemp_l. Qed.

Lemma skip_refines r s :
  refines r s → ∃ r', skip_one r = Ret r' ∧ refines r' (skip s).
Proof.
  intros Hr. pose proof Hr as [_ [Ew Hw] Ec El Hreach Hwf [Hrw _] _ _ _ _ _ _ Esk].
  unfold skip_one, skip. rewrite Ec, El, Ew, should_increment_refines by (destruct Hwf; lia).
  destruct (Z.ltb_spec (cur s) (last s - window s)) as [Hlt|]; [|by exists r].
  rewrite take_wf by done. eexists; split; [done|].
  destruct Hwf as [Hw0 Ho Hg Hb].
  pose proof (forget_refines r s (cur s) (cur s + 1) Hr) as Hf. destruct Hf; [lia|lia| |].
  { intros i Hi%Hg. lia. }
  split; simpl in *; try done.
  - by rewrite seq_of_next.
  - by destruct rf_wf0.
  - by rewrite Esk, as_u64_succ.
Qed.

(** The packet is copied to a buffer from the pool, and that into its slot. *)
Lemma set_buffered_spec r s q data length :
  refines r s → 0 ≤ length ≤ len data → len data ≤ isize_max →
  ∃ pool b, set_buffered r q data length =
      Ret (r <| buffer_pool := pool |> <| buffered := put_slot (slot (buffered r) q) (Some b) (buffered r) |>) ∧
    pool_wf pool ∧ ByteBufferPool.buffer_size pool = ByteBufferPool.buffer_size (buffer_pool r) ∧
    buffer_ok BYTE_BUFFER_SIZE_DEFAULT b ∧ payload_of b = payload data length.
Proof.
  intros Hr Hl Hd. destruct (rf_pool _ _ Hr) as [Hpool Hsize]. destruct (rf_buffered_wf _ _ Hr) as [Hbw _].
  destruct (get_buffer_spec (buffer_pool r) length Hpool) as (pool & b & Eget & Hp' & Hs' & _ & Hbok & Hbl & _); [lia|].
  rewrite Hsize in Hbok. assert (0 ≤ BYTE_BUFFER_SIZE_DEFAULT) as H0 by (unfold BYTE_BUFFER_SIZE_DEFAULT; lia).
  pose proof (buffer_ok_length _ _ H0 Hbok) as Hblen.
  set (b2 := ByteBuffer.get_mut b (splice 0 (payload data length) (ByteBuffer.data b))).
  assert (len (payload data length) = length) as Hpl by (unfold payload; rewrite length_take; lia).
  exists pool, b2. split_and!; [|done|done|..].
  - unfold set_buffered. rewrite Eget, bind_ret_l; cbv beta iota.
    rewrite slice_prefix, bind_ret_l by lia. fold (payload data length). rewrite copy_in_bounds, bind_ret_l by lia.
    change (Z.to_nat 0) with 0%nat. fold b2. cbn [set buffered]. by rewrite insert_wf by done.
  - unfold b2, buffer_ok in *. simpl. by rewrite length_splice by lia.
  - unfold b2, payload_of. simpl. rewrite Hbl, splice_0. by rewrite take_app_length' by lia.
Qed.

Lemma set_buffered_refines r s n data length :
  refines r s → cur s ≤ n ≤ last s → n ∉ got s →
  0 ≤ length ≤ len data → len data ≤ isize_max →
  ∃ r1 r2, set_buffered r (seq_of n) data length = Ret r1 ∧
    set_received r1 (seq_of n) = Ret r2 ∧
    refines r2 (store s n (payload data length)).
Proof.
  intros Hr Hn Hg Hl Hd.
  destruct (set_buffered_spec r s (seq_of n) data length Hr Hl Hd) as (pool & b2 & Eset & Hp' & Hs' & Hb2 & Hpay).
  pose proof Hr as [? ? ? ? Hreach Hwf [Hrw Hrp] [Hbw Hbp] Hrec Hbuf [Hpool Hsize] Hok ? ?].
  do 2 eexists. split; [exact Eset|]. split.
  { unfold set_received. cbn [set received]. by rewrite insert_wf by done. }
  split; simpl; try done.
  - by apply store_wf.
  - split; [by apply put_slot_wf|done].
  - split; [by apply put_slot_wf|done].
  - intros k. destruct (decide (k = slot (received r) (seq_of n))) as [->|Hne].
    + rewrite at_put_slot_eq by by apply slot_lt. split; [|by eexists].
      intros _. exists n. split; [set_solver|done].
    + rewrite at_put_slot_ne, Hrec by done. apply exist_proper. intros i.
      rewrite elem_of_union, elem_of_singleton. split; [naive_solver|].
      intros [[->|Hi] Hs]; [by rewrite <-Hs in Hne|done].
  - intros i Hi. rewrite slot_put_slot. destruct (decide (n = i)) as [<-|Hne].
    + rewrite at_put_slot_eq by by apply slot_lt. rewrite lookup_insert_eq. simpl. by rewrite Hpay.
    + rewrite lookup_insert_ne by done. assert (i ∈ got s) as Hi' by set_solver.
      rewrite at_put_slot_ne; [by apply Hbuf|]. apply slot_seq_of_ne; [done| |done].
      apply (in_window r s i Hr) in Hi'. lia.
  - by rewrite Hs'.
  - intros k b3. destruct (decide (slot (buffered r) (seq_of n) = k)) as [<-|Hne].
    + rewrite at_put_slot_eq by by apply slot_lt. by intros [= <-].
    + rewrite at_put_slot_ne by done. apply Hok.
Qed.

(** Taking a packet that is neither old nor next into account. *)
Lemma arrived_refines r s n :
  refines r s → cur s < n ≤ cur s + 1022 →
  ∃ r', (let self := if Sequence.is_greater_then (seq_of n) (last_sequence r)
                     then r <| last_sequence := seq_of n |> else r in
         let next := Sequence.next_sequence (current_sequence self) in
         if seq_of n =? next then
           let last_sequence := current_sequence self in
           let self := self <| current_sequence := seq_of n |> in
           r ← SequenceBuffer.remove (received self) last_sequence;
           Ret (self <| received := r |>)
         else Ret self) = Ret r' ∧ refines r' (arrived s n).
Proof.
  intros Hr Hn. pose proof (last_refines r s n Hr Hn) as Hl. cbv zeta.
  set (r1 := if Sequence.is_greater_then _ _ then _ else _) in *. clearbody r1.
  set (s1 := s <| last := Z.max (last s) n |>) in *.
  unfold arrived, advance. fold s1. change (cur s) with (cur s1) in Hn.
  rewrite (rf_cur _ _ Hl), seq_of_next, seq_of_eqb by lia.
  destruct (Z.eqb_spec n (cur s1 + 1)) as [Hnext|Hne]; [|by exists r1].
  cbn [set received]. rewrite remove_wf by by destruct (rf_received_wf _ _ Hl).
  eexists; split; [done|].
  pose proof (forget_refines r1 s1 (cur s1) n Hl) as Hf. apply Hf.
  - subst s1; simpl in *. lia.
  - lia.
  - intros i Hi. apply (wf_got _ (rf_wf _ _ Hl)) in Hi. lia.
Qed.

(** A packet within reach is handled as the specification says. *)
Lemma receive_refines r s n data length :
  refines r s → in_reach s n → 0 ≤ length ≤ len data → len data ≤ isize_max →
  ∃ r', receive_packet r (seq_of n) data length = Ret (r', (receive s n (payload data length)).2) ∧
        refines r' (receive s n (payload data length)).1.
Proof.
  intros Hr Hn Hl Hd. unfold in_reach in Hn.
  destruct (skip_refines r s Hr) as (r1 & Hskip & Hr1).
  pose proof (skip_fields s) as (_ & _ & _ & Hc & _).
  unfold receive_packet. rewrite Hskip, bind_ret_l.
  rewrite (rf_cur _ _ Hr1), is_greater_then_seq_of by lia.
  destruct (Z.ltb_spec (cur (skip s)) n) as [Hlt|Hle]; cbn [negb];
    destruct (receive_cases s n (payload data length)) as [[? ->]|[(? & Hg & ->)|(? & Hg & ->)]];
    try lia; [| |by exists r1].
  all: destruct (arrived_refines r1 (skip s) n Hr1) as (r2 & Harr & Hr2); [lia|].
  all: cbv zeta in Harr |- *; rewrite Harr, bind_ret_l.
  all: destruct (arrived_fields (skip s) n Hlt) as (_ & _ & El & _ & Ec).
  all: assert (cur (arrived (skip s) n) ≤ n ≤ last (arrived (skip s) n)) as Hin
    by (rewrite El, Ec; destruct (n =? _); lia).
  all: pose proof (rf_reach _ _ Hr2).
  all: rewrite (is_received_refines r2 _ n Hr2), bind_ret_l by lia.
  - rewrite bool_decide_true by done. by exists r2.
  - rewrite bool_decide_false by done.
    destruct (set_buffered_refines r2 _ n data length Hr2 Hin Hg Hl Hd) as (r3 & r4 & -> & Hset & Hr4).
    rewrite bind_ret_l, Hset, bind_ret_l.
    destruct (publish_refines r4 _ Hr4) as (r5 & -> & Hr5). by exists r5.
Qed.
End receiving.
