(* ===== verification/receiver_histories.v ===== *)
(** The receiver over whole histories: the delivery theorems.

    [receive_run] runs the concrete receiver of [receiver.v] over a history of
    packets and reads; message [n] travels under the sequence [seq_of n].  The
    application that takes a message copies its bytes and gives the buffer back
    to the pool, where it is reused for later packets.  The theorems carry the
    invariants of [receiver_delivery.v] over to it along the refinement. *)

From S2P Require Import prelude sequence byte_buffer_pool receiver receiver_spec receiver_delivery receiver_refinement.

Import Receiver Spec.

Definition receive_event (st : Receiver * list bytes) (e : event) :
    outcome (Receiver * list bytes) :=
  let '(r, taken) := st in
  match e with
  | Packet n data length =>
      '(r, _) ← receive_packet r (seq_of n) data length;
      Ret (r, taken)
  | Consume =>
      let '(b, r) := take_published r in
      match b with
      | Some b => Ret (Receiver.return_buffer r b, taken ++ [payload_of b])
      | None => Ret (r, taken)
      end
  end.

Definition receive_run : Receiver * list bytes → list event → outcome (Receiver * list bytes) :=
  foldl_m receive_event.

(** What the application has got or can take. *)
Definition delivered_payloads (st : Receiver * list bytes) : list bytes :=
  st.2 ++ (payload_of <$> published st.1).

(** Every packet of the history is within reach when it arrives. *)
Fixpoint within_reach (s : Spec) (es : list event) : Prop :=
  match es with
  | [] => True
  | Packet n data length :: es' =>
      in_reach s n ∧ 0 ≤ length ≤ len data ∧ len data ≤ isize_max ∧
      within_reach (receive s n (payload data length)).1 es'
  | Consume :: es' => within_reach (consume s) es'
  end.

Section histories.
Implicit Types (r : Receiver) (s : Spec) (taken : list (Z * bytes)).

Lemma consume_refines r s taken :
  refines r s →
  ∃ r', receive_event (r, taken.*2) Consume = Ret (r', (spec_event (s, taken) Consume).2.*2) ∧
        refines r' (consume s).
Proof.
  intros Hr. pose proof Hr as [? ? ? ? Hreach Hwf ? ? ? ? [Hpool Hsize] ? [Hpub Hout] ?].
  unfold receive_event, spec_event, take_published.
  destruct (published r) as [|b rest] eqn:Ep, (out s) as [|[i p] ms] eqn:Eo; try done; simpl in Hout.
  - exists r. split; [by rewrite app_nil_r|].
    split; simpl; rewrite ?Ep, ?Eo; try done. by apply consume_wf.
  - injection Hout as Hp Hms. apply Forall_cons in Hpub as [Hb Hrest].
    eexists. split; [simpl; by rewrite fmap_app; simpl; rewrite <-Hp|].
    rewrite <-Hsize in Hb. destruct (return_buffer_wf _ b Hpool Hb) as (Hp' & Hs' & _).
    split; simpl; rewrite ?Eo; try done; [by apply consume_wf|].
    split; [done|]. by rewrite Hs'.
Qed.

Lemma run_refines es : ∀ r s taken,
  refines r s → within_reach s es →
  ∃ r', receive_run (r, taken.*2) es = Ret (r', (spec_run (s, taken) es).2.*2) ∧
        refines r' (spec_run (s, taken) es).1.
Proof.
  induction es as [|e es IH]; intros r s taken Hr Hes; [by exists r|].
  destruct e as [n data length|].
  - destruct Hes as (Hn & Hl & Hd & Hes).
    destruct (receive_refines r s n data length Hr Hn Hl Hd) as (r' & Hrec & Hr').
    destruct (IH r' _ taken Hr' Hes) as (r2 & Hrun & Hr2). exists r2. split; [|done].
    unfold receive_run in *; cbn [foldl_m receive_event]. rewrite Hrec. apply Hrun.
  - destruct (consume_refines r s taken Hr) as (r' & Hc & Hr').
    destruct (IH r' _ (spec_event (s, taken) Consume).2 Hr' Hes) as (r2 & Hrun & Hr2).
    exists r2. split; [|done]. unfold receive_run in *; cbn [foldl_m]. rewrite Hc. apply Hrun.
Qed.

Lemma refines_delivered r s taken :
  refines r s → delivered_payloads (r, taken.*2) = (delivered (s, taken)).*2.
Proof.
  intros Hr. unfold delivered_payloads, delivered. simpl.
  destruct (rf_published _ _ Hr) as [_ ->]. by rewrite fmap_app.
Qed.

(** Packets that do not overrun the window are within reach. *)
Lemma on_time_within_reach msg es : ∀ A s,
  timely msg A s → window s ≤ 1022 → on_time (lookahead (ordered s) (window s)) msg A es →
  within_reach s es.
Proof.
  induction es as [|e es IH]; intros A s Ht Hw Hes; [done|]. destruct e as [n data length|].
  - destruct Hes as (Hn1 & Hl & Hd & Hmsg & Hnf & Hes).
    specialize (Hnf _ (tm_frontier _ _ _ Ht)). unfold lookahead in Hnf. simpl.
    split; [unfold in_reach; destruct (ordered s); lia|]. split; [done|]. split; [done|].
    rewrite Hmsg. destruct (decide (n ∈ A)) as [Hin|Hin].
    + rewrite (timely_duplicate msg A s n _ Ht Hin). simpl.
      replace ({[n]} ∪ A) with A in Hes by set_solver. by eapply IH.
    + destruct (timely_new msg A s n Ht Hn1 Hin) as (s' & -> & [Ht' _ _ _ [Eo Ew]]).
      { destruct (ordered s); lia. }
      { intros Eo. rewrite Eo in Hnf. lia. }
      rewrite <-Eo, <-Ew in Hes. apply (IH _ s' Ht'); [lia|done].
  - apply (IH A); [by apply timely_consume|done|done].
Qed.

(** The run of a history that is on time, from a new receiver. *)
Lemma on_time_receive_run o w msg es :
  1 ≤ w ≤ 1022 → on_time (lookahead o w) msg ∅ es →
  ∃ r (taken : list bytes) f, receive_run (Receiver.create o w, []) es = Ret (r, taken) ∧
    current_sequence r = seq_of f ∧ is_frontier (list_to_set (arrivals es)) f ∧
    delivered_payloads (r, taken) =
      msg <$> (if o then seqZ 1 f else firsts ∅ (arrivals es)).
Proof.
  intros Hw Hes. pose proof (timely_init msg o w ltac:(lia)) as Ht.
  pose proof (refines_create o w ltac:(lia)) as Hr.
  pose proof (on_time_within_reach msg es ∅ (init o w) Ht ltac:(simpl; lia) Hes) as Hreach.
  destruct (run_refines es _ (init o w) [] Hr Hreach) as (r & Hrun & Hr').
  destruct (on_time_run msg ∅ (init o w) [] es Ht Hes) as (t & taken & Hspec & Ht' & Hd & _).
  rewrite Hspec in Hrun, Hr'. simpl in Hrun, Hr'. exists r, taken.*2, (cur t).
  split; [done|]. split; [by apply rf_cur|].
  split.
  - pose proof (tm_frontier _ _ _ Ht') as Hf. by rewrite (right_id_L ∅ (∪)) in Hf.
  - rewrite (refines_delivered r t taken Hr'), Hd. unfold msgs. simpl.
    rewrite <-list_fmap_compose, Z.sub_0_r. by destruct o.
Qed.
End histories.

(** ** Properties *)

(** C9: the receiver implements its specification: over every history whose
    packets are within reach of the current index, from a new receiver with any
    window up to 31000, nothing panics, every sequence number, window slot and
    buffered payload stands for the specification's state, and the application
    gets the payloads the specification publishes. *)
Theorem receiver_implements_spec (o : bool) (w : Z) (es : list event) :
  0 ≤ w ≤ 31000 → within_reach (init o w) es →
  ∃ r (taken : list bytes), receive_run (Receiver.create o w, []) es = Ret (r, taken) ∧
    refines r (spec_run (init o w, []) es).1 ∧
    delivered_payloads (r, taken) = (delivered (spec_run (init o w, []) es)).*2.
Proof.
  intros Hw Hes. destruct (run_refines es _ (init o w) [] (refines_create o w Hw) Hes) as (r & Hrun & Hr).
  do 2 eexists. split; [exact Hrun|]. split; [done|].
  destruct (spec_run (init o w, []) es). by apply refines_delivered.
Qed.

Lemma receiver_implements_spec_witness :
  ∃ r (taken : list bytes), receive_run (Receiver.create false 512, [])
      [Packet 2 [7; 8] 2; Consume; Packet 2 [7; 8] 2; Packet (-1) [] 0; Packet 1000 [9; 9] 1] = Ret (r, taken) ∧
    refines r (spec_run (init false 512, [])
      [Packet 2 [7; 8] 2; Consume; Packet 2 [7; 8] 2; Packet (-1) [] 0; Packet 1000 [9; 9] 1]).1 ∧
    delivered_payloads (r, taken) = (delivered (spec_run (init false 512, [])
      [Packet 2 [7; 8] 2; Consume; Packet 2 [7; 8] 2; Packet (-1) [] 0; Packet 1000 [9; 9] 1])).*2.
Proof.
  apply receiver_implements_spec; [lia|].
  cbn [within_reach]. unfold isize_max. split_and!; try (vm_compute; done); try (simpl; lia); done.
Defined.

(** What was delivered has arrived and comes once, on ordered channels in order. *)
Lemma delivered_once (o : bool) (w : Z) (es : list event) :
  0 ≤ w ≤ 31000 → within_reach (init o w) es →
  ∃ r (taken : list bytes) ms, receive_run (Receiver.create o w, []) es = Ret (r, taken) ∧
    delivered_payloads (r, taken) = ms.*2 ∧ NoDup ms.*1 ∧ (o = true → StronglySorted Z.lt ms.*1) ∧
    ∀ m, m ∈ ms → m ∈ packets es.
Proof.
  intros Hw Hes. destruct (run_refines es _ (init o w) [] (refines_create o w Hw) Hes) as (r & Hrun & Hr).
  pose proof (safe_run o w es ltac:(lia)) as Hs.
  exists r. eexists. exists (delivered (spec_run (init o w, []) es)).
  split; [exact Hrun|]. split; [|split; [by apply Hs|split; [|by apply Hs]]].
  - destruct (spec_run (init o w, []) es). by apply refines_delivered.
  - intros ->. apply (sf_ordered _ _ Hs). by rewrite spec_run_ordered.
Qed.

(** C20: on an ordered channel the application gets messages in the order of
    their indices, none twice and none that did not arrive, whatever is lost,
    duplicated, reordered or skipped on the way, as long as packets stay within
    reach: at most 1022 ahead of the current message and 30000 behind it. *)
Theorem ordered_delivers_in_order (w : Z) (es : list event) :
  0 ≤ w ≤ 31000 → within_reach (init true w) es →
  ∃ r (taken : list bytes) ms, receive_run (Receiver.create true w, []) es = Ret (r, taken) ∧
    delivered_payloads (r, taken) = ms.*2 ∧
    StronglySorted Z.lt ms.*1 ∧ ∀ m, m ∈ ms → m ∈ packets es.
Proof.
  intros Hw Hes. destruct (delivered_once true w es Hw Hes) as (r & taken & ms & Hrun & Hd & _ & Ho & Hin).
  exists r, taken, ms. split_and!; [done|done|by apply Ho|done].
Qed.

Lemma ordered_delivers_in_order_witness :
  ∃ r (taken : list bytes) ms, receive_run (Receiver.create true 4, [])
      [Packet 2 [7; 8] 2; Packet 7 [1] 1; Packet 1 [3] 1; Packet 8 [] 0; Consume] = Ret (r, taken) ∧
    delivered_payloads (r, taken) = ms.*2 ∧ StronglySorted Z.lt ms.*1 ∧
    ∀ m, m ∈ ms → m ∈ packets
      [Packet 2 [7; 8] 2; Packet 7 [1] 1; Packet 1 [3] 1; Packet 8 [] 0; Consume].
Proof.
  apply ordered_delivers_in_order; [lia|].
  cbn [within_reach]. unfold isize_max. split_and!; try (vm_compute; done); try (simpl; lia); done.
Defined.

(** Out of reach the order is lost: message 1026 is put where message 2 belongs and
    is delivered in its place, as 1024 slots are shared by all sequences. *)
Example out_of_reach_is_out_of_order :
  ∃ r (taken : list bytes),
    receive_run (Receiver.create true 512, []) [Packet 1 [1] 1; Packet 1026 [26] 1; Packet 5 [5] 1; Packet 4 [4] 1] = Ret (r, taken) ∧
    delivered_payloads (r, taken) = [[1]; [26]; [4]; [5]].
Proof. eexists _, _. split; [vm_compute; reflexivity|]. vm_compute. reflexivity. Qed.

(** An unordered channel delivers every message at most once and none that did
    not arrive, as long as packets stay within reach. *)
Lemma unordered_delivers_at_most_once (w : Z) (es : list event) :
  0 ≤ w ≤ 31000 → within_reach (init false w) es →
  ∃ r (taken : list bytes) ms, receive_run (Receiver.create false w, []) es = Ret (r, taken) ∧
    delivered_payloads (r, taken) = ms.*2 ∧ NoDup ms.*1 ∧ ∀ m, m ∈ ms → m ∈ packets es.
Proof.
  intros Hw Hes. destruct (delivered_once false w es Hw Hes) as (r & taken & ms & Hrun & Hd & Hnd & _ & Hin).
  by exists r, taken, ms.
Qed.

Lemma unordered_delivers_at_most_once_witness :
  ∃ r (taken : list bytes) ms, receive_run (Receiver.create false 4, [])
      [Packet 2 [7; 8] 2; Packet 7 [1] 1; Packet 2 [3] 1; Packet 8 [] 0; Consume] = Ret (r, taken) ∧
    delivered_payloads (r, taken) = ms.*2 ∧ NoDup ms.*1 ∧
    ∀ m, m ∈ ms → m ∈ packets
      [Packet 2 [7; 8] 2; Packet 7 [1] 1; Packet 2 [3] 1; Packet 8 [] 0; Consume].
Proof.
  apply unordered_delivers_at_most_once; [lia|].
  cbn [within_reach]. unfold isize_max. split_and!; try (vm_compute; done); try (simpl; lia); done.
Defined.

(** C8: no message is lost while packets do not overrun the window: the
    application of an ordered channel gets exactly the messages 1 to [f], in
    order, where [f] is the last index up to which everything has arrived, in
    whatever order and however often, and across the wrap of the 16-bit
    sequences. *)
Theorem ordered_delivers_everything (w : Z) (msg : Z → bytes) (es : list event) :
  1 ≤ w ≤ 1022 → on_time w msg ∅ es →
  ∃ r (taken : list bytes) f, receive_run (Receiver.create true w, []) es = Ret (r, taken) ∧
    is_frontier (list_to_set (arrivals es)) f ∧
    current_sequence r = seq_of f ∧
    delivered_payloads (r, taken) = msg <$> seqZ 1 f.
Proof.
  intros Hw Hes. destruct (on_time_receive_run true w msg es Hw Hes) as (r & taken & f & ? & ? & ? & ?).
  by exists r, taken, f.
Qed.

Lemma ordered_delivers_everything_witness :
  ∃ r (taken : list bytes) f, receive_run (Receiver.create true 512, [])
      [Packet 2 [2; 0] 1; Packet 1 [1] 1; Consume; Packet 2 [2] 1] = Ret (r, taken) ∧
    is_frontier (list_to_set (arrivals [Packet 2 [2; 0] 1; Packet 1 [1] 1; Consume; Packet 2 [2] 1])) f ∧
    current_sequence r = seq_of f ∧
    delivered_payloads (r, taken) = (λ n, [n]) <$> seqZ 1 f.
Proof.
  apply (ordered_delivers_everything 512 (λ n, [n])); [lia|].
  cbn [on_time]. unfold isize_max.
  split_and!; try (simpl; lia); try reflexivity; try exact I; intros f Hf.
  - rewrite (is_frontier_unique _ f 0 Hf); [lia|]. split_and!; [lia|lia|set_solver].
  - rewrite (is_frontier_unique _ f 0 Hf); [lia|]. split_and!; [lia|lia|set_solver].
  - rewrite (is_frontier_unique _ f 2 Hf); [lia|]. split_and!; [lia| |set_solver].
    intros i Hi. assert (i = 1 ∨ i = 2) as [-> | ->] by lia; set_solver.
Defined.

(** C21: an unordered channel delivers every message exactly once, as soon as
    it arrives, while packets stay strictly inside the window: the application
    gets the messages in the order of their first arrival. *)
Theorem unordered_delivers_exactly_once (w : Z) (msg : Z → bytes) (es : list event) :
  1 ≤ w ≤ 1022 → on_time (w - 1) msg ∅ es →
  ∃ r (taken : list bytes), receive_run (Receiver.create false w, []) es = Ret (r, taken) ∧
    delivered_payloads (r, taken) = msg <$> firsts ∅ (arrivals es).
Proof.
  intros Hw Hes. destruct (on_time_receive_run false w msg es Hw Hes) as (r & taken & f & ? & ? & ? & ?).
  by exists r, taken.
Qed.

Lemma unordered_delivers_exactly_once_witness :
  ∃ r (taken : list bytes), receive_run (Receiver.create false 4, [])
      [Packet 3 [3; 0] 1; Packet 1 [1] 1; Consume; Packet 3 [3] 1] = Ret (r, taken) ∧
    delivered_payloads (r, taken) = (λ n, [n]) <$>
      firsts ∅ (arrivals [Packet 3 [3; 0] 1; Packet 1 [1] 1; Consume; Packet 3 [3] 1]).
Proof.
  apply (unordered_delivers_exactly_once 4 (λ n, [n])); [lia|].
  cbn [on_time]. unfold isize_max.
  split_and!; try (simpl; lia); try reflexivity; try exact I; intros f Hf.
  - rewrite (is_frontier_unique _ f 0 Hf); [lia|]. split_and!; [lia|lia|set_solver].
  - rewrite (is_frontier_unique _ f 0 Hf); [lia|]. split_and!; [lia|lia|set_solver].
  - rewrite (is_frontier_unique _ f 1 Hf); [lia|]. split_and!; [lia| |set_solver].
    intros i Hi. assert (i = 1) as -> by lia; set_solver.
Defined.

(** Skipping may lose messages that were received: with a window of 4 messages
    2 and 3 arrive and are accepted, message 1 is given up, and the next two
    packets, duplicates that are rejected, each give up one more message without
    publishing; the ordered channel delivers 4 and 5 but neither 2 nor 3. *)
Definition overrun : list event :=
  (λ n, Packet n [n] 1) <$> [2; 3; 4; 5; 8; 1; 1; 9].

Lemma skipping_loses_received_messages :
  (receive (init true 4) 2 [2]).2 = true ∧
  ∃ r (taken : list bytes), receive_run (Receiver.create true 4, []) overrun = Ret (r, taken) ∧
    delivered_payloads (r, taken) = [[4]; [5]].
Proof.
  split; [vm_compute; done|].
  destruct (run_refines overrun _ (init true 4) [] (refines_create true 4 ltac:(lia))) as (r & Hrun & Hr).
  - cbn [within_reach overrun fmap list_fmap]. unfold isize_max.
    split_and!; try (vm_compute; done); try (simpl; lia).
  - exists r. eexists. split; [exact Hrun|].
    pose proof (refines_delivered r _ (spec_run (init true 4, []) overrun).2 Hr) as ->.
    vm_compute. done.
Qed.
