(* ===== verification/receiver_nacks.v ===== *)
(** What the receiver asks for again.

    [create_nacks] and [set_resend_list] walk down from the last received
    sequence.  On related states (see [receiver_refinement.v]) the nacks name
    exactly the missing messages of the stretch that was walked, newest first;
    the stretch reaches down to the current index unless the iterations run out
    first, and one is spent on every received message at the head of a nack. *)

From S2P Require Import prelude sequence sequence_buffer nack byte_buffer_pool receiver receiver_spec receiver_delivery receiver_refinement receiver_histories.

Import Receiver Spec.

(** The indices [i], [i - 1], ... of a stretch of [n]. *)
Definition down (i n : Z) : list Z := (λ j, i - j) <$> seqZ 0 n.

(** Those of them that have not been received. *)
Definition missing_down (s : Spec) (i n : Z) : list Z := filter (λ j, j ∉ got s) (down i n).

Section down.
Implicit Types (s : Spec) (i j n m : Z).

Lemma elem_of_down i n j : j ∈ down i n ↔ i - n < j ≤ i.
Proof.
  unfold down. rewrite list_elem_of_fmap. split.
  - intros (k & -> & Hk%elem_of_seqZ). lia.
  - intros Hj. exists (i - j). rewrite elem_of_seqZ. lia.
Qed.

Lemma seqZ_shift k n : seqZ k n = (λ j, k + j) <$> seqZ 0 n.
Proof.
  unfold seqZ. rewrite <-list_fmap_compose. apply list_fmap_ext. intros _ j _. simpl. lia.
Qed.

Lemma down_app i n m : 0 ≤ n → 0 ≤ m → down i (n + m) = down i n ++ down (i - n) m.
Proof.
  intros Hn Hm. unfold down. rewrite seqZ_app, fmap_app by lia. f_equal.
  rewrite Z.add_0_l, (seqZ_shift n), <-list_fmap_compose. apply list_fmap_ext.
  intros _ j _. simpl. lia.
Qed.

Lemma down_1 i : down i 1 = [i].
Proof. unfold down. simpl. f_equal. lia. Qed.

Lemma missing_down_app s i n m :
  0 ≤ n → 0 ≤ m → missing_down s i (n + m) = missing_down s i n ++ missing_down s (i - n) m.
Proof. intros Hn Hm. unfold missing_down. by rewrite down_app, filter_app. Qed.

Lemma missing_down_S s i n :
  0 ≤ n →
  missing_down s i (1 + n) = (if decide (i ∈ got s) then [] else [i]) ++ missing_down s (i - 1) n.
Proof.
  intros Hn. rewrite missing_down_app by lia. f_equal.
  unfold missing_down. rewrite down_1, filter_cons, filter_nil. repeat case_decide; done.
Qed.

Lemma elem_of_missing_down s i n j : j ∈ missing_down s i n ↔ i - n < j ≤ i ∧ j ∉ got s.
Proof. unfold missing_down. rewrite list_elem_of_filter, elem_of_down. naive_solver. Qed.

Lemma down_NoDup i n : NoDup (down i n).
Proof. unfold down. apply NoDup_fmap_2; [intros x y; lia|apply NoDup_seqZ]. Qed.
End down.

Section filters.
Context {A : Type} (P Q : A → Prop) `{!∀ x, Decision (P x)} `{!∀ x, Decision (Q x)}.

Lemma filter_none (l : list A) : (∀ x, x ∈ l → ¬ P x) → filter P l = [].
Proof.
  intros Hl. induction l as [|x l IH]; [done|]. rewrite filter_cons, decide_False by (apply Hl; by left).
  apply IH. intros y Hy. apply Hl. by right.
Qed.

Lemma filter_agree (l : list A) : (∀ x, x ∈ l → P x ↔ Q x) → filter P l = filter Q l.
Proof.
  intros Hl. induction l as [|x l IH]; [done|]. rewrite !filter_cons, IH by (intros y Hy; apply Hl; by right).
  pose proof (Hl x ltac:(by left)). repeat case_decide; naive_solver.
Qed.
End filters.

Lemma filter_fmap {A B} (f : A → B) (P : B → Prop) `{!∀ x, Decision (P x)} (l : list A) :
  filter P (f <$> l) = f <$> filter (λ x, P (f x)) l.
Proof.
  induction l as [|x l IH]; [done|]. rewrite fmap_cons, !filter_cons, IH. by case_decide.
Qed.

(** The bits of a nack from bit [a] to bit [b] stand for the missing messages. *)
Definition bits_missing (s : Spec) (k fl a b : Z) : Prop :=
  ∀ j, 0 ≤ j → Z.testbit fl j = bool_decide (a ≤ j < b ∧ k - 1 - j ∉ got s).

Lemma bits_missing_nacked s k fl b :
  0 ≤ b ≤ 32 → k ∉ got s → bits_missing s k fl 0 b →
  nacked_indices k fl = missing_down s k (1 + b).
Proof.
  intros Hb Hk Hbits. rewrite missing_down_S, decide_False by (done || lia).
  unfold nacked_indices. simpl app. f_equal.
  unfold flagged_indices, missing_down, down. rewrite filter_fmap. f_equal.
  replace (seqZ 0 32) with (seqZ 0 (b + (32 - b))) by (f_equal; lia).
  rewrite seqZ_app, filter_app by lia.
  rewrite (filter_none _ (seqZ (0 + b) _)), app_nil_r.
  - apply filter_agree. intros j Hj%elem_of_seqZ.
    rewrite Hbits, bool_decide_eq_true by lia. naive_solver lia.
  - intros j Hj%elem_of_seqZ. rewrite Hbits, bool_decide_eq_true by lia. lia.
Qed.

Section nacks.
Implicit Types (r : Receiver) (s : Spec) (k a b c : Z).

Lemma testbit_set_bits n i j :
  0 ≤ i < 32 → 0 ≤ j →
  Z.testbit (Nack.flags (Nack.set_bits n i true)) j = (i =? j) || Z.testbit (Nack.flags n) j.
Proof.
  intros Hi Hj. cbn -[Z.lor Z.testbit]. rewrite mask_pow, Z.lor_spec, Z.pow2_bits_eqb by lia.
  apply orb_comm.
Qed.

Lemma bits_missing_received s k fl a :
  0 ≤ a → k - 1 - a ∈ got s → bits_missing s k fl 0 a → bits_missing s k fl 0 (a + 1).
Proof.
  intros Ha Hg Hb j Hj. rewrite Hb by done. apply bool_decide_ext.
  destruct (decide (j = a)) as [->|]; [naive_solver lia|]. naive_solver lia.
Qed.

Lemma bits_missing_set s k n a :
  0 ≤ a < 32 → k - 1 - a ∉ got s → bits_missing s k (Nack.flags n) 0 a →
  bits_missing s k (Nack.flags (Nack.set_bits n a true)) 0 (a + 1).
Proof.
  intros Ha Hg Hb j Hj. rewrite testbit_set_bits, Hb by done.
  destruct (Z.eqb_spec a j) as [<-|Hne]; simpl.
  - symmetry. apply bool_decide_eq_true. split; [lia|done].
  - apply bool_decide_ext. naive_solver lia.
Qed.

(** What one nack covers: [b] bits below its start [k]. *)
Record covers r s k (current : Nack.Nack) b (reached : bool) : Prop := {
  cv_start : Nack.start_sequence current = seq_of k;
  cv_bits : bits_missing s k (Nack.flags current) 0 b;
  cv_end : if reached then k - 1 - b = cur s ∧ 0 ≤ b < 32 else b = 32 ∧ cur s < k - 32
}.

Lemma nack_bits_spec r s k (n : nat) : ∀ a current c,
  refines r s → k ≤ last s → 0 ≤ a → a + Z.of_nat n = 32 → cur s < k - a →
  Nack.start_sequence current = seq_of k → bits_missing s k (Nack.flags current) 0 a →
  ∃ current' b (reached : bool),
    nack_bits r n a current (seq_of (k - a)) c =
      Ret (current', seq_of (k - b - Z.b2z reached), c + len (missing_down s (k - 1 - a) (b - a)), reached) ∧
    a ≤ b ∧ covers r s k current' b reached.
Proof.
  induction n as [|n IH]; intros a current c Hr Hk Ha Hn Hc Hst Hb.
  { exists current, a, false. split; [|split; [lia|split; [done|done|lia]]].
    cbn [nack_bits]. unfold missing_down, down. rewrite Z.sub_diag. simpl.
    by rewrite Z.add_0_r, Z.sub_0_r. }
  cbn [nack_bits]. rewrite seq_of_previous, (rf_cur _ _ Hr).
  pose proof (rf_reach _ _ Hr) as Hreach.
  rewrite is_equal_to_or_less_than_seq_of by lia.
  destruct (Z.leb_spec (k - a - 1) (cur s)) as [Hle|Hgt].
  { exists current, a, true. split; [|split; [lia|split; [done|done|lia]]].
    unfold missing_down, down. rewrite Z.sub_diag. simpl. by rewrite Z.add_0_r. }
  rewrite (is_received_refines r s _ Hr), bind_ret_l by lia.
  replace (k - a - 1) with (k - (a + 1)) in * by lia.
  assert (∀ b, a + 1 ≤ b → missing_down s (k - 1 - a) (b - a) =
    (if decide (k - (a + 1) ∈ got s) then [] else [k - (a + 1)]) ++ missing_down s (k - 1 - (a + 1)) (b - (a + 1))) as Hm.
  { intros b Hab. replace (b - a) with (1 + (b - (a + 1))) by lia. rewrite missing_down_S by lia.
    replace (k - 1 - a) with (k - (a + 1)) by lia. do 2 f_equal. lia. }
  assert (k - 1 - a = k - (a + 1)) as Ek by lia.
  destruct (decide (k - (a + 1) ∈ got s)) as [Hin|Hin].
  - rewrite bool_decide_true by done.
    destruct (IH (a + 1) current c) as (current' & b & reached & -> & Hab & Hcov);
      [done|done|lia|lia|lia|done|apply bits_missing_received; by rewrite ?Ek|].
    exists current', b, reached. rewrite Hm by done. split; [done|]. split; [lia|done].
  - rewrite bool_decide_false by done. cbv zeta.
    destruct (IH (a + 1) ((Nack.set_bits current a true) <| Nack.nacked_count := c + 1 |>) (c + 1))
      as (current' & b & reached & -> & Hab & Hcov); [done|done|lia|lia|lia|done| |].
    { apply (bits_missing_set s k current a); [lia|by rewrite Ek|done]. }
    exists current', b, reached. rewrite Hm by done. split; [|split; [lia|done]].
    do 3 f_equal. rewrite length_app. simpl. lia.
Qed.

Lemma push_nack_refines r s nk : refines r s → refines (push_nack r nk) s.
Proof. by intros []. Qed.

Lemma bits_missing_0 s k : bits_missing s k 0 0 0.
Proof. intros j Hj. rewrite Z.testbit_0_l. symmetry. apply bool_decide_eq_false. lia. Qed.

(** What the outer loop adds to the nack list, after [m] indices from [i]. *)
Record nacked r r' s i m c c' : Prop := {
  nk_pushed : ∃ nks, nack_list r' = nack_list r ++ nks ∧ nack_queue r' = nack_queue r ++ nks ∧
    all_nacked nks [] = seq_of <$> missing_down s i m ∧ Forall nack_wf nks;
  nk_count : c' = c + len (missing_down s i m);
  nk_rest : r' <| nack_list := nack_list r |> <| nack_queue := nack_queue r |> = r
}.

Lemma bits_missing_u32 s k fl b : b ≤ 32 → bits_missing s k fl 0 b → is_u32 fl.
Proof.
  intros Hb Hbits. assert (fl = fl mod 2 ^ 32) as ->; [|by apply Z.mod_pos_bound].
  apply Z.bits_inj'. intros j Hj. destruct (decide (j < 32)).
  - by rewrite Z.mod_pow2_bits_low.
  - rewrite Z.mod_pow2_bits_high, Hbits by lia. apply bool_decide_eq_false. lia.
Qed.

Lemma all_nacked_acc nks acc : all_nacked nks acc = acc ++ all_nacked nks [].
Proof.
  revert acc. induction nks as [|n nks IH]; intros acc; [by rewrite app_nil_r|].
  rewrite !all_nacked_cons, IH, (IH (Nack.get_nacked n [])), get_nacked_app. by rewrite <-app_assoc.
Qed.

(** The nacks and the count when the walk is over at once. *)
Lemma nacked_nil r s i m c : missing_down s i m = [] → nacked r r s i m c c.
Proof.
  intros Hm. split; rewrite ?Hm.
  - exists []. by rewrite !app_nil_r.
  - simpl. lia.
  - by destruct r.
Qed.

Lemma nacked_received r r' s i m c c' :
  i ∈ got s → 0 ≤ m → nacked r r' s (i - 1) m c c' → nacked r r' s i (1 + m) c c'.
Proof.
  intros Hi Hm [H1 H2 H3]. split; [|by rewrite missing_down_S, decide_True by done|done].
  destruct H1 as (nks & ? & ? & ? & ?). exists nks. by rewrite missing_down_S, decide_True by done.
Qed.

Lemma nacked_pushed r r' s i b m c c' nk :
  i ∉ got s → 0 ≤ b ≤ 32 → 0 ≤ m →
  Nack.start_sequence nk = seq_of i → bits_missing s i (Nack.flags nk) 0 b →
  nacked (push_nack r nk) r' s (i - (1 + b)) m (c + 1 + len (missing_down s (i - 1) b)) c' →
  nacked r r' s i (1 + b + m) c c'.
Proof.
  intros Hi Hb Hm Hst Hbits [(nks & Hl & Hq & Hall & Hwf) Hc Hr].
  pose proof (bits_missing_nacked s i _ b Hb Hi Hbits) as Hnk.
  assert (missing_down s i (1 + b + m) = missing_down s i (1 + b) ++ missing_down s (i - (1 + b)) m) as Em
    by (apply missing_down_app; lia).
  split.
  - exists (nk :: nks). unfold push_nack in Hl, Hq. simpl in Hl, Hq. rewrite Hl, Hq, <-!app_assoc.
    split; [done|]. split; [done|]. split.
    + rewrite all_nacked_cons, all_nacked_acc, (get_nacked_spec nk i), Hnk, Hall, Em by done.
      by rewrite fmap_app.
    + constructor; [|done]. split; [rewrite Hst; apply seq_of_u16|].
      eapply bits_missing_u32; [|done]. lia.
  - rewrite Hc, Em, length_app, (missing_down_S s i b) by lia. rewrite decide_False by done.
    rewrite length_app. cbn [length]. lia.
  - apply (f_equal (λ x, x <| nack_list := nack_list r |> <| nack_queue := nack_queue r |>)) in Hr.
    by destruct r, r'.
Qed.

Lemma create_nacks_loop_spec s (n : nat) : ∀ r i c,
  refines r s → cur s ≤ i < last s →
  ∃ r' m c', create_nacks_loop r n (seq_of i) c = Ret (r', c') ∧ nacked r r' s i m c c' ∧
    0 ≤ m ∧ (m = i - cur s ∨ Z.of_nat n ≤ m < i - cur s).
Proof.
  induction n as [|n IH]; intros r i c Hr Hi.
  { exists r, 0, c. split; [done|]. split; [by apply nacked_nil|]. lia. }
  pose proof (rf_reach _ _ Hr) as Hreach.
  cbn [create_nacks_loop]. rewrite (rf_cur _ _ Hr), is_equal_to_or_less_than_seq_of by lia.
  destruct (Z.leb_spec i (cur s)).
  { exists r, 0, c. split; [done|]. split; [by apply nacked_nil|]. lia. }
  rewrite (is_received_refines r s _ Hr), bind_ret_l by lia.
  destruct (decide (i ∈ got s)) as [Hin|Hin].
  - rewrite bool_decide_true by done. cbv zeta.
    rewrite seq_of_previous, is_equal_to_or_less_than_seq_of by lia.
    destruct (Z.leb_spec (i - 1) (cur s)).
    + exists r, 1, c. split; [done|]. split; [|lia]. apply nacked_nil.
      change 1 with (1 + 0) at 1. rewrite missing_down_S by lia. by rewrite decide_True.
    + destruct (IH r (i - 1) c Hr ltac:(lia)) as (r' & m & c' & -> & Hm & Hm0 & Hend).
      exists r', (1 + m), c'. split; [done|]. split; [by apply nacked_received|]. lia.
  - rewrite bool_decide_false by done. cbv zeta. set (nk := _ <| Nack.nacked_count := _ |>).
    replace (seq_of i) with (seq_of (i - 0)) by (f_equal; lia).
    destruct (nack_bits_spec r s i 32 0 nk (c + 1) Hr) as (nk' & b & reached & -> & Hb & [Hst Hbits Hend]);
      [lia|lia|lia|lia|done|apply bits_missing_0|].
    rewrite bind_ret_l; cbv beta iota. replace (i - 1 - 0) with (i - 1) by lia.
    rewrite (Z.sub_0_r b). destruct reached.
    + exists (push_nack r nk'). do 2 eexists. split; [done|]. split.
      * apply (nacked_pushed r _ s i b 0 c _ nk'); try done; [lia|]. apply nacked_nil. done.
      * lia.
    + simpl Z.b2z. rewrite seq_of_previous.
      destruct (IH (push_nack r nk') (i - (1 + b)) (c + 1 + len (missing_down s (i - 1) b)))
        as (r' & m & c' & Hrun & Hm & Hm0 & Hend'); [by apply push_nack_refines|lia|].
      exists r', (1 + b + m), c'. split; [|split].
      * rewrite <-Hrun. f_equal. f_equal. lia.
      * apply (nacked_pushed r _ s i b m c _ nk'); try done; lia.
      * lia.
Qed.
End nacks.

Section resends.
Implicit Types (r : Receiver) (s : Spec) (i c : Z).

Lemma set_resend_list_loop_spec s (n : nat) : ∀ r i,
  refines r s → cur s < i < last s → (0 < n)%nat →
  set_resend_list_loop (seq_of (cur s)) n r (seq_of i) =
    Ret (r <| resend_list := resend_list r ++
                (seq_of <$> missing_down s i (Z.min (Z.of_nat n) (i - cur s))) |>).
Proof.
  induction n as [|n IH]; intros r i Hr Hi Hn; [lia|].
  pose proof (rf_reach _ _ Hr) as Hreach. cbn [set_resend_list_loop].
  rewrite (is_received_refines r s _ Hr), bind_ret_l by lia. rewrite seq_of_previous, seq_of_eqb by lia.
  replace (Z.min (Z.of_nat (S n)) (i - cur s)) with (1 + Z.min (Z.of_nat n) (i - 1 - cur s)) by lia.
  rewrite missing_down_S, fmap_app by lia.
  set (r1 := if bool_decide (i ∈ got s) then r else r <| resend_list := resend_list r ++ [seq_of i] |>).
  assert (r1 = r <| resend_list := resend_list r ++ (seq_of <$> if decide (i ∈ got s) then [] else [i]) |>) as Er1.
  { subst r1. destruct (decide (i ∈ got s)) as [Hin|Hin].
    - rewrite bool_decide_true by done. simpl. rewrite app_nil_r. by destruct r.
    - by rewrite bool_decide_false. }
  assert (∀ m, m ≤ 0 → missing_down s (i - 1) m = []) as Hnil.
  { intros m Hm. unfold missing_down, down. by rewrite seqZ_nil. }
  destruct (Z.eqb_spec (i - 1) (cur s)) as [E|Hne]; cbv beta iota.
  - rewrite Er1. by rewrite Hnil, app_nil_r by lia.
  - destruct n as [|n]; [cbn [set_resend_list_loop]; rewrite Er1; by rewrite Hnil, app_nil_r by lia|].
    rewrite IH; [|rewrite Er1; by destruct Hr|lia|lia].
    rewrite Er1. f_equal. unfold set; simpl. by rewrite <-app_assoc.
Qed.

(** The [n] messages from [i] down have been received, as far as they are not
    behind the current one. *)
Definition all_received s i n : Prop := ∀ j, cur s < j → i - n < j ≤ i → j ∈ got s.

(** A stretch of received messages below the last one is walked and no nack is
    made. *)
Lemma create_nacks_loop_received s (n : nat) : ∀ r i c,
  refines r s → cur s ≤ i < last s →
  all_received s i (Z.of_nat n) →
  create_nacks_loop r n (seq_of i) c = Ret (r, c).
Proof.
  induction n as [|n IH]; intros r i c Hr Hi Hg; [done|].
  pose proof (rf_reach _ _ Hr) as Hreach.
  cbn [create_nacks_loop]. rewrite (rf_cur _ _ Hr), is_equal_to_or_less_than_seq_of by lia.
  destruct (Z.leb_spec i (cur s)); [done|].
  rewrite (is_received_refines r s _ Hr), bind_ret_l, bool_decide_true by (lia || apply Hg; lia).
  rewrite seq_of_previous, is_equal_to_or_less_than_seq_of by lia.
  destruct (Z.leb_spec (i - 1) (cur s)); [done|].
  apply IH; [done|lia|]. intros j Hj1 Hj2. apply Hg; lia.
Qed.

(** [create_nacks] on related states, as its loop. *)
Lemma create_nacks_unfold r s :
  refines r s →
  create_nacks r =
    if last s - 1 <=? cur s then Ret (r <| nack_list := [] |> <| nack_queue := [] |>, 0)
    else create_nacks_loop (r <| nack_list := [] |> <| nack_queue := [] |>)
           (Z.to_nat (window s / 32)) (seq_of (last s - 1)) 0.
Proof.
  intros Hr. pose proof Hr as [_ [Ew _] Ec El Hreach [_ Ho _ _] _ _ _ _ _ _ _ _].
  unfold create_nacks. cbn [set last_sequence current_sequence receive_window_size].
  rewrite El, Ec, Ew, seq_of_previous, is_equal_to_or_less_than_seq_of by lia. done.
Qed.
End resends.

(** A round of the loop makes one nack at most. *)
Lemma create_nacks_loop_length (n : nat) : ∀ r r' seq c c',
  create_nacks_loop r n seq c = Ret (r', c') → len (nack_list r') ≤ len (nack_list r) + Z.of_nat n.
Proof.
  induction n as [|n IH]; intros r r' seq c c'; cbn [create_nacks_loop]; [intros [= -> ->]; lia|].
  destruct (Sequence.is_equal_to_or_less_than _ _); [intros [= -> ->]; lia|].
  intros ([|] & _ & H)%bind_Ret; cbv zeta in H.
  - destruct (Sequence.is_equal_to_or_less_than _ _); [injection H as [= -> ->]; lia|].
    apply IH in H. lia.
  - apply bind_Ret in H as ([[[current seq'] c1] reached] & _ & H). cbv beta iota zeta in H.
    assert (len (nack_list (push_nack r current)) = len (nack_list r) + 1) as Hl.
    { unfold push_nack. simpl. rewrite length_app. simpl. lia. }
    destruct reached; [injection H as [= <- ->]; lia|]. apply IH in H. lia.
Qed.

Lemma create_nacks_length r r' c :
  create_nacks r = Ret (r', c) → len (nack_list r') ≤ Z.max 0 (receive_window_size r / 32).
Proof.
  unfold create_nacks. destruct (Sequence.is_equal_to_or_less_than _ _); [intros [= <- _]; simpl; lia|].
  intros H%create_nacks_loop_length. cbn [nack_list set receive_window_size] in H. simpl in H. lia.
Qed.

(** ** Properties *)

Lemma create_nacks_spec (r : Receiver) (s : Spec) :
  refines r s →
  ∃ r' m, create_nacks r = Ret (r', len (missing_down s (last s - 1) m)) ∧
    all_nacked (nack_list r') [] = seq_of <$> missing_down s (last s - 1) m ∧ Forall nack_wf (nack_list r') ∧
    NoDup (all_nacked (nack_list r') []) ∧
    nack_queue r' = nack_list r' ∧
    (∀ i, i ∈ missing_down s (last s - 1) m → missing s i) ∧
    (m = Z.max 0 (last s - 1 - cur s) ∨ window s / 32 ≤ m < last s - 1 - cur s) ∧
    (∀ i, missing s i → last s - 1 - i < window s / 32 → seq_of i ∈ all_nacked (nack_list r') []) ∧
    r' <| nack_list := nack_list r |> <| nack_queue := nack_queue r |> = r.
Proof.
  intros Hr. pose proof (rf_reach _ _ Hr) as Hreach.
  rewrite (create_nacks_unfold r s Hr).
  set (r0 := r <| nack_list := [] |> <| nack_queue := [] |>).
  assert (∃ r' m, (if last s - 1 <=? cur s then Ret (r0, 0) else
      create_nacks_loop r0 (Z.to_nat (window s / 32)) (seq_of (last s - 1)) 0) =
    Ret (r', len (missing_down s (last s - 1) m)) ∧
    nacked r0 r' s (last s - 1) m 0 (len (missing_down s (last s - 1) m)) ∧
    0 ≤ m ≤ Z.max 0 (last s - 1 - cur s) ∧
    (m = Z.max 0 (last s - 1 - cur s) ∨ window s / 32 ≤ m < last s - 1 - cur s))
    as (r' & m & Hrun & [(nks & Hl & Hq & Hall & Hnwf) _ Hrest] & Hm & Hend).
  { destruct (Z.leb_spec (last s - 1) (cur s)).
    - exists r0, 0. split; [done|]. split; [by apply nacked_nil|]. lia.
    - destruct (create_nacks_loop_spec s (Z.to_nat (window s / 32)) r0 (last s - 1) 0)
        as (r' & m & c' & -> & Hm & Hm0 & Hend); [by destruct Hr|lia|].
      exists r', m. pose proof (nk_count _ _ _ _ _ _ _ Hm) as Hc. rewrite Z.add_0_l in Hc. subst c'.
      split; [done|]. split; [done|]. pose proof (Z.div_pos (window s) 32).
      pose proof (wf_window _ (rf_wf _ _ Hr)). lia. }
  exists r', m. simpl in Hl, Hq. rewrite Hl, Hall.
  split_and!; [done|done|done| |by rewrite Hq| |done| |].
  - apply NoDup_fmap_2_strong; [|apply NoDup_filter, down_NoDup].
    intros x y [Hx _]%elem_of_missing_down [Hy _]%elem_of_missing_down. apply seq_of_inj. lia.
  - intros i [Hi Hg]%elem_of_missing_down. split; [lia|done].
  - intros i [Hi Hg] Hw. apply list_elem_of_fmap. exists i. split; [done|].
    apply elem_of_missing_down. split; [lia|done].
  - apply (f_equal (λ x, x <| nack_list := nack_list r |> <| nack_queue := nack_queue r |>)) in Hrest.
    by destruct r, r'.
Qed.

(** C16: the nacks a receiver makes after any history within reach name exactly
    the missing messages of the stretch they cover, newest first and none twice.
    The stretch starts below the last received message and ends at the current
    one, or after at least one message for every 32 of the window; so every
    message that is missing among the newest [window / 32] is asked for.  The
    count is the number of messages named, the queue holds the same nacks as the
    list, and nothing else changes. *)
Theorem nacks_name_the_missing (o : bool) (w : Z) (es : list event) :
  0 ≤ w ≤ 31000 → within_reach (init o w) es →
  ∃ r (taken : list bytes) r' m,
    let s := (spec_run (init o w, []) es).1 in
    receive_run (Receiver.create o w, []) es = Ret (r, taken) ∧
    create_nacks r = Ret (r', len (missing_down s (last s - 1) m)) ∧
    all_nacked (nack_list r') [] = seq_of <$> missing_down s (last s - 1) m ∧
    NoDup (all_nacked (nack_list r') []) ∧
    nack_queue r' = nack_list r' ∧
    (∀ i, i ∈ missing_down s (last s - 1) m → missing s i) ∧
    (m = Z.max 0 (last s - 1 - cur s) ∨ w / 32 ≤ m < last s - 1 - cur s) ∧
    (∀ i, missing s i → last s - 1 - i < w / 32 → seq_of i ∈ all_nacked (nack_list r') []) ∧
    r' <| nack_list := nack_list r |> <| nack_queue := nack_queue r |> = r.
Proof.
  intros Hw Hes. destruct (run_refines es _ (init o w) [] (refines_create o w Hw) Hes) as (r & Hrun & Hr).
  destruct (create_nacks_spec r _ Hr) as (r' & m & H1 & H2 & _ & H3 & H4 & H5 & H6 & H7 & H8).
  rewrite spec_run_window in H6, H7. exists r. eexists. exists r', m. cbv zeta. split; [exact Hrun|].
  done.
Qed.

Lemma nacks_name_the_missing_witness :
  ∃ r (taken : list bytes) r' m,
    let s := (spec_run (init true 512, []) [Packet 1 [7] 1; Packet 4 [7; 8] 2; Packet 9 [] 0]).1 in
    receive_run (Receiver.create true 512, []) [Packet 1 [7] 1; Packet 4 [7; 8] 2; Packet 9 [] 0]
      = Ret (r, taken) ∧
    create_nacks r = Ret (r', len (missing_down s (last s - 1) m)) ∧
    all_nacked (nack_list r') [] = seq_of <$> missing_down s (last s - 1) m ∧
    NoDup (all_nacked (nack_list r') []) ∧
    nack_queue r' = nack_list r' ∧
    (∀ i, i ∈ missing_down s (last s - 1) m → missing s i) ∧
    (m = Z.max 0 (last s - 1 - cur s) ∨ 512 / 32 ≤ m < last s - 1 - cur s) ∧
    (∀ i, missing s i → last s - 1 - i < 512 / 32 → seq_of i ∈ all_nacked (nack_list r') []) ∧
    r' <| nack_list := nack_list r |> <| nack_queue := nack_queue r |> = r.
Proof.
  apply nacks_name_the_missing; [lia|].
  cbn [within_reach]. unfold isize_max. split_and!; try (vm_compute; done); try (simpl; lia); done.
Defined.

(** An iteration of [create_nacks] is spent on every received message that
    is met where a nack could start: when the newest [window / 32] messages
    below the last one have all been received, nothing is asked for, whatever
    is missing before them. *)
Lemma received_messages_use_up_the_walk (o : bool) (w : Z) (es : list event) :
  0 ≤ w ≤ 31000 → within_reach (init o w) es →
  (let s := (spec_run (init o w, []) es).1 in all_received s (last s - 1) (w / 32)) →
  ∃ r (taken : list bytes) r',
    receive_run (Receiver.create o w, []) es = Ret (r, taken) ∧
    create_nacks r = Ret (r', 0) ∧ nack_list r' = [] ∧ nack_queue r' = [].
Proof.
  intros Hw Hes Hg. destruct (run_refines es _ (init o w) [] (refines_create o w Hw) Hes) as (r & Hrun & Hr).
  exists r. eexists. rewrite (create_nacks_unfold r _ Hr).
  exists (r <| nack_list := [] |> <| nack_queue := [] |>). split; [exact Hrun|]. split; [|done].
  destruct (Z.leb_spec (last (spec_run (init o w, []) es).1 - 1) (cur (spec_run (init o w, []) es).1)); [done|].
  eapply create_nacks_loop_received; [by destruct Hr|lia|].
  intros j Hj1 Hj2. rewrite spec_run_window in Hj2. apply Hg; [done|]. simpl in Hj2.
  pose proof (Z.div_pos w 32). lia.
Qed.

(** [set_resend_list] lists the missing messages between the current and
    the last one, newest first, at most [window] of them looked at; the list is
    empty when everything has been received. *)
Lemma resend_list_is_the_missing (o : bool) (w : Z) (es : list event) :
  1 ≤ w ≤ 31000 → within_reach (init o w) es →
  (let s := (spec_run (init o w, []) es).1 in last s ≠ cur s + 1) →
  ∃ r (taken : list bytes),
    let s := (spec_run (init o w, []) es).1 in
    receive_run (Receiver.create o w, []) es = Ret (r, taken) ∧
    set_resend_list r = Ret (r <| resend_list :=
      seq_of <$> missing_down s (last s - 1) (Z.min w (last s - 1 - cur s)) |>).
Proof.
  intros Hw Hes Hne. destruct (run_refines es _ (init o w) [] (refines_create o w ltac:(lia)) Hes) as (r & Hrun & Hr).
  exists r. eexists. cbv zeta in *. split; [exact Hrun|].
  pose proof (spec_run_window (init o w, []) es) as Ew. simpl in Ew.
  set (s := (spec_run (init o w, []) es).1) in *.
  pose proof Hr as [_ [Ew' _] Ec El Hreach [_ Ho _ _] _ _ _ _ _ _ _ _].
  unfold set_resend_list. set (r0 := r <| resend_list := [] |>). cbv zeta.
  change (current_sequence r0) with (current_sequence r).
  change (last_sequence r0) with (last_sequence r).
  change (receive_window_size r0) with (receive_window_size r).
  rewrite El, Ec, Ew', Ew, seq_of_eqb by lia. destruct (Z.eqb_spec (cur s) (last s)) as [E|Hn].
  { unfold missing_down, down. rewrite seqZ_nil by lia. done. }
  rewrite seq_of_previous, set_resend_list_loop_spec; [|by destruct Hr|lia|lia].
  simpl. by rewrite Z2Nat.id by lia.
Qed.
