(* ===== verification/fragmentation.v ===== *)
(** Fragmentation of large messages ([src/tachyon/fragmentation.rs]).

    A message of 1200 bytes or more is cut into fragments that travel as
    separate reliable messages; the receiving side keeps the fragments of a
    group in a map and assembles the message when the group is complete.  The
    hash maps are finite maps: the source iterates over them only to sum lengths
    and to collect what expired, where the order does not matter.  As in the
    sender, the clock reading is an argument. *)

From S2P Require Import prelude sequence sequence_buffer int_buffer header byte_buffer_pool send_buffer_manager.

Definition GROUP_EXPIRE : Z := 5000.
Definition FRAG_SIZE : Z := 1200.

(** [slice.chunks(n)] *)
Fixpoint chunks_fuel (fuel : nat) (n : nat) (l : bytes) : list bytes :=
  match fuel, l with
  | S fuel', _ :: _ => firstn n l :: chunks_fuel fuel' n (skipn n l)
  | _, _ => []
  end.
Definition chunks (n : nat) (l : bytes) : list bytes := chunks_fuel (length l) n l.

Module Fragmentation.
Import SendBufferManager.

Record Fragmentation := mk {
  next_group : Z;
  received : gmap Z (gmap Z bytes);
  received_at : gmap Z Z
}.

#[global] Instance eta_Fragmentation : Eta Fragmentation := λ f,
  mk (next_group f) (received f) (received_at f).

Definition default : Fragmentation := mk 1 ∅ ∅.

Definition expire_groups (self : Fragmentation) (now : Z) : Fragmentation :=
  let expired := (filter (λ p, GROUP_EXPIRE < elapsed_millis now p.2) (map_to_list (received_at self))).*1 in
  self <| received := foldr delete (received self) expired |>
       <| received_at := foldr delete (received_at self) expired |>.

Definition should_fragment (length : Z) : bool := FRAG_SIZE <=? length.

Definition get_next_group (self : Fragmentation) : Fragmentation * Z :=
  let self := self <| next_group := as_u16 (next_group self + 1) |> in
  let self := if u16_max - 1 <=? next_group self then self <| next_group := 1 |> else self in
  (self, next_group self).

(** [value.len() - TACHYON_FRAGMENTED_HEADER_SIZE] wraps for a shorter value. *)
Definition get_group_length (map : gmap Z bytes) : Z :=
  map_fold (λ _ value length, as_u64 (length + usize_sub (len value) TACHYON_FRAGMENTED_HEADER_SIZE)) 0 map.

(** The loop of [assemble]: [None] when a fragment is missing. *)
Fixpoint assemble_loop (map : gmap Z bytes) (n : nat) (seq offset : Z) (buffer : bytes) :
    outcome (option bytes) :=
  match n with
  | O => Ret (Some buffer)
  | S n' =>
      match map !! seq with
      | Some fragment =>
          let frag_body_len := usize_sub (len fragment) TACHYON_FRAGMENTED_HEADER_SIZE in
          src ← slice fragment TACHYON_FRAGMENTED_HEADER_SIZE (len fragment);
          buffer ← copy_from_slice buffer offset (offset + frag_body_len) src;
          assemble_loop map n' (Sequence.next_sequence seq) (offset + frag_body_len) buffer
      | None => Ret None
      end
  end.

Definition assemble (self : Fragmentation) (header : Header.Header) :
    outcome (Fragmentation * Result bytes unit) :=
  match received self !! Header.fragment_group header with
  | None => Ret (self, RErr ())
  | Some map =>
      if negb (Z.of_nat (size map) =? Header.fragment_count header) then Ret (self, RErr ())
      else
        let body_length := get_group_length map in
        buffer ← vec_zeroed body_length;
        res ← assemble_loop map (Z.to_nat (Header.fragment_count header))
                (Header.fragment_start_sequence header) 0 buffer;
        let self := self <| received := delete (Header.fragment_group header) (received self) |> in
        match res with
        | None => Ret (self, RErr ())
        | Some buffer => Ret (self, ROk buffer)
        end
  end.

Definition receive_fragment (self : Fragmentation) (data : bytes) (length now : Z) :
    outcome (Fragmentation * (bool * bool)) :=
  header ← Header.read_fragmented data;
  let group := Header.fragment_group header in
  let self :=
    match received self !! group with
    | None => self <| received := <[group := ∅]> (received self) |>
                   <| received_at := <[group := now]> (received_at self) |>
    | Some _ => self
    end in
  match received self !! group with
  | Some map =>
      slice' ← slice data 0 length;
      fragment ← vec_zeroed length;
      fragment ← copy_from_slice fragment 0 (len fragment) slice';
      let map := match map !! Header.sequence header with
                 | None => <[Header.sequence header := fragment]> map
                 | Some _ => map
                 end in
      let self := self <| received := <[group := map]> (received self) |> in
      Ret (self, (true, Z.of_nat (size map) =? Header.fragment_count header))
  | None => Ret (self, (false, false))
  end.

(** The loop of [create_fragments] from chunk [index]. *)
Fixpoint create_loop (channel group fragment_count now : Z) (chunks : list bytes)
    (sender : SendBufferManager) (index start_sequence : Z) (fragments : list Z) :
    outcome (SendBufferManager * list Z) :=
  match chunks with
  | [] => Ret (sender, fragments)
  | chunk :: chunks' =>
      let chunk_len := len chunk in
      let fragment_len := chunk_len + TACHYON_FRAGMENTED_HEADER_SIZE in
      '(sender, created) ← create_send_buffer sender fragment_len now;
      match created with
      | Some send_buffer =>
          let sequence' := sequence send_buffer in
          let start_sequence := if index =? 0 then sequence' else start_sequence in
          let fragment_header :=
            Header.create_fragmented sequence' channel group start_sequence fragment_count in
          data ← Header.write_fragmented fragment_header (ByteBuffer.data (byte_buffer send_buffer));
          data ← copy_from_slice data TACHYON_FRAGMENTED_HEADER_SIZE
                   (chunk_len + TACHYON_FRAGMENTED_HEADER_SIZE) chunk;
          sender ← store sender (fill send_buffer data);
          create_loop channel group fragment_count now chunks' sender (index + 1) start_sequence
            (fragments ++ [sequence'])
      | None => Ret (sender, [])
      end
  end.

Definition create_fragments (self : Fragmentation) (sender : SendBufferManager) (channel : Z)
    (data : bytes) (length now : Z) : outcome (Fragmentation * SendBufferManager * list Z) :=
  slice' ← slice data 0 length;
  let chunks := chunks (Z.to_nat FRAG_SIZE) slice' in
  let fragment_count := as_u16 (len chunks) in
  let '(self, group) := get_next_group self in
  '(sender, fragments) ← create_loop channel group fragment_count now chunks sender 0 0 [];
  Ret (self, sender, fragments).

End Fragmentation.

Import Fragmentation SendBufferManager.

(** ** Chunks *)

Section chunks.
Context (n : nat) (Hn : (0 < n)%nat).
Implicit Types (l : bytes).

Lemma chunks_fuel_spec fuel l :
  (length l ≤ fuel)%nat →
  concat (chunks_fuel fuel n l) = l ∧
  Forall (λ c, 0 < len c ≤ Z.of_nat n) (chunks_fuel fuel n l) ∧
  Z.of_nat n * (len (chunks_fuel fuel n l) - 1) ≤ len l.
Proof.
  revert l. induction fuel as [|fuel IH]; intros [|x l] Hl; simpl in Hl; try lia.
  - split_and!; [done|constructor|simpl; lia].
  - split_and!; [done|constructor|simpl; lia].
  - cbn [chunks_fuel]. destruct (IH (skipn n (x :: l))) as (H1 & H2 & H3).
    { rewrite length_drop. simpl. lia. }
    split_and!.
    + cbn [concat]. rewrite H1. apply take_drop.
    + constructor; [|done]. rewrite length_take. cbn [length]. lia.
    + rewrite length_drop in H3. cbn [length] in *.
      destruct (decide (n ≤ S (length l))%nat) as [|Hlt]; [lia|].
      rewrite (drop_ge (x :: l)) by (simpl; lia). destruct fuel; simpl; lia.
Qed.

Lemma length_concat_le (cs : list bytes) :
  Forall (λ c, 0 < len c ≤ Z.of_nat n) cs → len (concat cs) ≤ Z.of_nat n * len cs.
Proof.
  induction 1 as [|c cs Hc _ IH]; [simpl; lia|]. cbn [concat length]. rewrite length_app. lia.
Qed.

Lemma concat_chunks l : concat (chunks n l) = l.
Proof. by apply chunks_fuel_spec. Qed.

Lemma chunks_sizes l : Forall (λ c, 0 < len c ≤ Z.of_nat n) (chunks n l).
Proof. by apply chunks_fuel_spec. Qed.

Lemma length_chunks l : Z.of_nat n * (len (chunks n l) - 1) ≤ len l.
Proof. by apply chunks_fuel_spec. Qed.
End chunks.

(** ** The packets of a fragmented message *)

(** The header of the fragment with index [k] of a group that starts at index
    [start], and its packet. *)
Definition frag_header (channel group start count k : Z) : Header.Header :=
  Header.create_fragmented (seq_of k) channel group (seq_of start) count.

Definition frag_packet (channel group start count k : Z) (chunk : bytes) : bytes :=
  Header.enc_fragmented (frag_header channel group start count k) ++ chunk.

Definition group_ok (channel group count : Z) : Prop :=
  is_u8 channel ∧ is_u16 group ∧ is_u16 count.

Lemma frag_header_wf channel group start count k :
  group_ok channel group count → Header.wf (frag_header channel group start count k).
Proof.
  intros (Hc & Hg & Hn). pose proof (seq_of_u16 k). pose proof (seq_of_u16 start).
  unfold Header.wf, frag_header, Header.create_fragmented, MESSAGE_TYPE_FRAGMENT; simpl. lia.
Qed.

Lemma frag_header_part channel group start count k :
  Header.fragment_part (frag_header channel group start count k) = frag_header channel group start count k.
Proof. done. Qed.

Lemma length_frag_packet channel group start count k chunk :
  len (frag_packet channel group start count k chunk) = 10 + len chunk.
Proof. unfold frag_packet. rewrite length_app, length_enc_fragmented. lia. Qed.

(** Writing the header and then the chunk behind it. *)
Lemma fill_fragment channel group start count k chunk d :
  group_ok channel group count → 10 + len chunk ≤ len d →
  ∃ d1 d2, Header.write_fragmented (frag_header channel group start count k) d = Ret d1 ∧
    copy_from_slice d1 TACHYON_FRAGMENTED_HEADER_SIZE (len chunk + TACHYON_FRAGMENTED_HEADER_SIZE) chunk
      = Ret d2 ∧
    length d2 = length d ∧
    firstn (Z.to_nat (len chunk + 10)) d2 = frag_packet channel group start count k chunk.
Proof.
  intros Hok Hd. unfold TACHYON_FRAGMENTED_HEADER_SIZE.
  set (h := frag_header channel group start count k).
  assert (length (Header.enc_fragmented h) = 10%nat) as Hl by apply length_enc_fragmented.
  exists (splice 0 (Header.enc_fragmented h) d), (splice 0 (frag_packet channel group start count k chunk) d).
  split_and!.
  - apply write_fragmented_spec; [by apply frag_header_wf|lia].
  - rewrite copy_in_bounds by (rewrite ?length_splice; lia). f_equal.
    unfold frag_packet. fold h. rewrite <-splice_app by lia. by rewrite Hl.
  - rewrite length_splice; [done|]. pose proof (length_frag_packet channel group start count k chunk). lia.
  - pose proof (length_frag_packet channel group start count k chunk) as Hp.
    rewrite splice_0. apply take_app_length'. lia.
Qed.

(** The log of a sender after the chunks of a message. *)
Definition log_fragments (log : Z → bytes) (channel group start count : Z) (cs : list bytes) : Z → bytes :=
  λ k, match cs !! Z.to_nat (k - start) with
       | Some chunk => if start <=? k then frag_packet channel group start count k chunk else log k
       | None => log k
       end.

Lemma sends_ext m n log log' : (∀ k, 1 ≤ k ≤ n → log k = log' k) → sends m n log → sends m n log'.
Proof. intros Hlog. apply manages_weaken. intros k b Hk _. by rewrite Hlog. Qed.

Lemma create_loop_spec channel group start count now cs : ∀ m n log index fragments,
  group_ok channel group count → Forall (λ c, 0 < len c ≤ 1200) cs →
  sends m n log → 0 ≤ n → 0 ≤ index → n + 1 = start + index →
  ∃ m', create_loop channel group count now cs m index (if index =? 0 then 0 else seq_of start) fragments
          = Ret (m', fragments ++ (seq_of <$> seqZ (n + 1) (len cs))) ∧
        sends m' (n + len cs)
          (λ k, match cs !! Z.to_nat (k - (n + 1)) with
                | Some chunk => if n + 1 <=? k then frag_packet channel group start count k chunk else log k
                | None => log k
                end).
Proof.
  induction cs as [|c cs IH]; intros m n log index fragments Hok Hcs Hm Hn Hi Hstart.
  { exists m. cbn [create_loop]. rewrite seqZ_nil, Z.add_0_r by (simpl; lia). rewrite app_nil_r.
    split; [done|]. eapply sends_ext, Hm. intros k _. by rewrite lookup_nil. }
  apply Forall_cons in Hcs as [Hc Hcs]. cbn [create_loop]. cbv zeta.
  assert (TACHYON_FRAGMENTED_HEADER_SIZE = 10) as E10 by done.
  destruct (send_spec m n log (len c + TACHYON_FRAGMENTED_HEADER_SIZE) now Hm Hn)
    as (m1 & sb & -> & Hseq & Hlen & Hdata & Hfill); [unfold isize_max; lia|].
  rewrite E10 in Hlen, Hdata, Hfill.
  rewrite bind_ret_l; cbv beta iota zeta. rewrite Hseq.
  assert ((if index =? 0 then seq_of (n + 1) else if index =? 0 then 0 else seq_of start) = seq_of start) as ->.
  { destruct (Z.eqb_spec index 0) as [->|]; [f_equal; lia|done]. }
  destruct (fill_fragment channel group start count (n + 1) c (ByteBuffer.data (byte_buffer sb)) Hok)
    as (d1 & d2 & Hw & Hcp & Hd2 & Hpkt); [lia|].
  fold (frag_header channel group start count (n + 1)). rewrite Hw, bind_ret_l, Hcp, bind_ret_l.
  destruct (Hfill d2 Hd2) as (m2 & -> & Hm2). rewrite bind_ret_l.
  destruct (IH m2 (n + 1) _ (index + 1) (fragments ++ [seq_of (n + 1)]) Hok Hcs Hm2) as (m' & Hrun & Hm');
    [lia|lia|lia|].
  destruct (Z.eqb_spec (index + 1) 0) as [|_]; [lia|]. rewrite Hrun. exists m'. split.
  - do 2 f_equal. rewrite <-app_assoc. f_equal. cbn [length].
    rewrite (seqZ_cons (n + 1)) by lia. simpl. do 3 f_equal; lia.
  - cbn [length]. replace (n + Z.of_nat (S (length cs))) with (n + 1 + len cs) by lia.
    eapply sends_ext, Hm'. intros k Hk. simpl.
    destruct (decide (k ≤ n)) as [Hle|Hgt].
    + destruct (Z.leb_spec (n + 1 + 1) k), (Z.leb_spec (n + 1) k); try lia.
      destruct (decide (k = n + 1)); [lia|]. by repeat case_match.
    + destruct (Z.leb_spec (n + 1) k); [|lia].
      destruct (decide (k = n + 1)) as [->|Hne].
      * rewrite Z.sub_diag. simpl. destruct (Z.leb_spec (n + 1 + 1) (n + 1)); [lia|].
        rewrite Hpkt. by case_match.
      * destruct (Z.leb_spec (n + 1 + 1) k); [|lia].
        replace (Z.to_nat (k - (n + 1))) with (S (Z.to_nat (k - (n + 1 + 1)))) by lia. done.
Qed.

(** ** Assembling *)

Section group.
Context (channel group start count : Z).
Implicit Types (cs : list bytes) (k : Z) (map : gmap Z bytes).

Notation packet k c := (frag_packet channel group start count k c).

(** The map of a complete group whose chunks [cs] start at index [k]. *)
Fixpoint group_map k cs : gmap Z bytes :=
  match cs with
  | [] => ∅
  | c :: cs' => <[seq_of k := packet k c]> (group_map (k + 1) cs')
  end.

Lemma group_map_Some k cs s p :
  group_map k cs !! s = Some p →
  ∃ i c, cs !! i = Some c ∧ s = seq_of (k + Z.of_nat i) ∧ p = packet (k + Z.of_nat i) c.
Proof.
  revert k. induction cs as [|c cs IH]; intros k; simpl; [by rewrite lookup_empty|].
  intros [[<- <-]|[_ H]]%lookup_insert_Some.
  - exists 0%nat, c. rewrite Z.add_0_r. done.
  - destruct (IH _ H) as (i & c' & Hi & -> & ->). exists (S i), c'.
    replace (k + Z.of_nat (S i)) with (k + 1 + Z.of_nat i) by lia. done.
Qed.

Lemma group_map_fresh k cs : len cs < 65535 → group_map (k + 1) cs !! seq_of k = None.
Proof.
  intros Hl. destruct (group_map (k + 1) cs !! seq_of k) as [p|] eqn:E; [|done].
  apply group_map_Some in E as (i & c & Hi%lookup_lt_Some & Hs & _).
  apply seq_of_inj in Hs; lia.
Qed.

Lemma group_map_lookup k cs i c :
  len cs ≤ 65535 → cs !! i = Some c →
  group_map k cs !! seq_of (k + Z.of_nat i) = Some (packet (k + Z.of_nat i) c).
Proof.
  revert k i. induction cs as [|c0 cs IH]; intros k i Hl Hi; [done|]. simpl in *.
  destruct i as [|i]; simpl in Hi.
  - injection Hi as ->. rewrite Z.add_0_r. apply lookup_insert_eq.
  - pose proof (lookup_lt_Some _ _ _ Hi). rewrite lookup_insert_ne.
    + replace (k + Z.of_nat (S i)) with (k + 1 + Z.of_nat i) by lia. apply IH; [lia|done].
    + intros Hs%seq_of_inj; lia.
Qed.

Lemma group_map_size k cs : len cs ≤ 65535 → size (group_map k cs) = length cs.
Proof.
  revert k. induction cs as [|c cs IH]; intros k Hl; simpl in *; [apply map_size_empty|].
  rewrite map_size_insert_None by (apply group_map_fresh; lia). by rewrite IH by lia.
Qed.

Lemma group_map_length k cs :
  len cs ≤ 65535 → len (concat cs) < 2 ^ 63 → get_group_length (group_map k cs) = len (concat cs).
Proof.
  revert k. induction cs as [|c cs IH]; intros k Hl Hc; simpl in Hl; [done|].
  cbn [concat] in Hc. rewrite length_app in Hc.
  cbn [group_map]. unfold get_group_length. rewrite map_fold_insert_L.
  - fold (get_group_length (group_map (k + 1) cs)). rewrite IH by lia.
    rewrite length_frag_packet. unfold TACHYON_FRAGMENTED_HEADER_SIZE, as_u64.
    rewrite usize_sub_small, wrap_small by lia. cbn [concat]. rewrite length_app. lia.
  - intros j1 j2 z1 z2 y _ _ _. unfold as_u64, wrap. rewrite !Zplus_mod_idemp_l. f_equal. lia.
  - apply group_map_fresh. lia.
Qed.

Lemma assemble_loop_spec map cs : ∀ k pre,
  (∀ i c, cs !! i = Some c → map !! seq_of (k + Z.of_nat i) = Some (packet (k + Z.of_nat i) c)) →
  len pre + len (concat cs) < 2 ^ 63 →
  assemble_loop map (length cs) (seq_of k) (len pre) (pre ++ replicate (length (concat cs)) 0) =
    Ret (Some (pre ++ concat cs)).
Proof.
  induction cs as [|c cs IH]; intros k pre Hmap Hlen; [done|].
  cbn [assemble_loop length concat] in *. rewrite length_app in Hlen.
  pose proof (Hmap 0%nat c eq_refl) as Hc. rewrite Z.add_0_r in Hc. rewrite Hc.
  cbv zeta. pose proof (length_frag_packet channel group start count k c) as Hp.
  unfold TACHYON_FRAGMENTED_HEADER_SIZE. rewrite usize_sub_small by lia.
  rewrite slice_in_bounds, bind_ret_l by lia.
  assert (firstn (Z.to_nat (len (packet k c) - 10)) (drop (Z.to_nat 10) (packet k c)) = c) as ->.
  { rewrite Hp. unfold frag_packet. rewrite drop_app_length' by done. apply firstn_all2. lia. }
  rewrite copy_in_bounds by (rewrite ?length_app, ?length_replicate; lia). rewrite bind_ret_l, seq_of_next.
  assert (splice (Z.to_nat (len pre)) c (pre ++ replicate (length (c ++ concat cs)) 0) =
    (pre ++ c) ++ replicate (length (concat cs)) 0) as ->.
  { unfold splice. rewrite Nat2Z.id, take_app_length, drop_app, drop_ge by lia. simpl.
    rewrite drop_replicate, <-app_assoc, length_app. do 3 f_equal. lia. }
  replace (len pre + (len (packet k c) - 10)) with (len (pre ++ c)) by (rewrite length_app; lia).
  rewrite IH; [by rewrite <-app_assoc| |rewrite length_app; lia].
  intros i c' Hi. specialize (Hmap (S i) c' Hi).
  by replace (k + 1 + Z.of_nat i) with (k + Z.of_nat (S i)) by lia.
Qed.

(** A complete group is assembled and leaves the map, an incomplete one stays. *)
Lemma assemble_complete f h cs :
  Header.fragment_group h = group → Header.fragment_start_sequence h = seq_of start →
  Header.fragment_count h = len cs → len cs ≤ 65535 → len (concat cs) ≤ isize_max →
  received f !! group = Some (group_map start cs) →
  assemble f h = Ret (f <| received := delete group (received f) |>, ROk (concat cs)).
Proof.
  intros Hg Hs Hc Hl Hlen Hf. unfold assemble. rewrite Hg, Hf, Hc, Hs, group_map_size by done.
  rewrite Z.eqb_refl; cbn [negb]. cbv zeta. unfold isize_max in Hlen.
  rewrite group_map_length by (done || lia). unfold vec_zeroed, isize_max.
  destruct (Z.leb_spec (len (concat cs)) (2 ^ 63 - 1)); [|lia]. rewrite bind_ret_l, !Nat2Z.id.
  pose proof (assemble_loop_spec (group_map start cs) cs start []) as Hloop.
  simpl app in Hloop. change (Z.of_nat (length [])) with 0 in Hloop. rewrite Hloop; [done| |lia]. intros i c Hi. by apply group_map_lookup.
Qed.

Lemma assemble_incomplete f h map :
  Header.fragment_group h = group → received f !! group = Some map →
  Z.of_nat (size map) ≠ Header.fragment_count h → assemble f h = Ret (f, RErr ()).
Proof.
  intros Hg Hf Hn. unfold assemble. rewrite Hg, Hf.
  destruct (Z.eqb_spec (Z.of_nat (size map)) (Header.fragment_count h)); done.
Qed.
End group.

(** ** Receiving the fragments of a group in any order *)

(** The fragment with index [i] of the group [cs] arrives in a buffer whose
    content behind the packet is [junk]. *)
Definition receive_one (channel group start count : Z) (cs : list bytes) (now : Z)
    (f : Fragmentation) (arrival : nat * bytes) : outcome Fragmentation :=
  let '(i, junk) := arrival in
  match cs !! i with
  | Some c =>
      let p := frag_packet channel group start count (start + Z.of_nat i) c in
      '(f, _) ← receive_fragment f (p ++ junk) (len p) now;
      Ret f
  | None => Ret f
  end.

Section receiving.
Context (channel group start count now : Z) (cs : list bytes).
Context (Hok : group_ok channel group count) (Hcs : len cs ≤ 65535) (Hsize : Forall (λ c, 0 < len c ≤ 1200) cs).

Notation packet k c := (frag_packet channel group start count k c).

Lemma group_map_Some_iff s p :
  group_map channel group start count start cs !! s = Some p ↔
  ∃ i c, cs !! i = Some c ∧ s = seq_of (start + Z.of_nat i) ∧ p = packet (start + Z.of_nat i) c.
Proof.
  split; [apply group_map_Some|]. intros (i & c & Hi & -> & ->). by apply group_map_lookup.
Qed.

(** The fragments of [S] are there and nothing else. *)
Record partial (f0 f : Fragmentation) (S : list nat) : Prop := {
  pa_rest : delete group (received f) = received f0;
  pa_there s p : from_option id ∅ (received f !! group) !! s = Some p ↔
    ∃ i c, i ∈ S ∧ cs !! i = Some c ∧ s = seq_of (start + Z.of_nat i) ∧ p = packet (start + Z.of_nat i) c;
  pa_group : S = [] ∧ received f !! group = None ∨ S ≠ [] ∧ is_Some (received f !! group)
}.

Lemma read_packet k c junk :
  Header.read_fragmented (packet k c ++ junk) = Ret (frag_header channel group start count k).
Proof.
  apply (read_fragmented_spec (frag_header channel group start count k)); [by apply frag_header_wf|].
  split; [done|]. change (Z.to_nat 0) with 0%nat. rewrite drop_0. unfold frag_packet.
  by rewrite <-!app_assoc, drop_app_length.
Qed.

Lemma receive_fragment_partial f0 f S i junk c :
  partial f0 f S → cs !! i = Some c → len junk ≤ isize_max - 2000 →
  let p := packet (start + Z.of_nat i) c in
  ∃ f' full, receive_fragment f (p ++ junk) (len p) now = Ret (f', (true, full)) ∧ partial f0 f' (i :: S).
Proof.
  intros [Hrest Hthere Hgroup] Hi Hjunk p.
  assert (len p = 10 + len c) as Hp by apply length_frag_packet.
  rewrite Forall_lookup in Hsize. pose proof (Hsize _ _ Hi) as Hc. unfold isize_max in Hjunk.
  unfold receive_fragment. subst p. rewrite read_packet, bind_ret_l. cbv zeta.
  set (p := packet (start + Z.of_nat i) c) in *.
  change (Header.fragment_group (frag_header channel group start count (start + Z.of_nat i))) with group.
  change (Header.sequence (frag_header channel group start count (start + Z.of_nat i)))
    with (seq_of (start + Z.of_nat i)).
  set (f1 := match received f !! group with Some _ => f | None => _ end).
  assert (received f1 !! group = Some (from_option id ∅ (received f !! group)) ∧
    delete group (received f1) = received f0) as [E1 E2].
  { subst f1. destruct (received f !! group) as [m|] eqn:E; simpl; [by rewrite E|].
    rewrite lookup_insert_eq. split; [done|]. by rewrite delete_insert_eq. }
  rewrite E1. set (m := from_option id ∅ (received f !! group)) in *.
  rewrite slice_prefix by (rewrite length_app; lia).
  rewrite bind_ret_l, Nat2Z.id, take_app_length.
  rewrite vec_zeroed_spec, bind_ret_l by (unfold isize_max; lia).
  rewrite copy_in_bounds, bind_ret_l by (rewrite ?length_replicate; lia).
  assert (splice (Z.to_nat 0) p (replicate (Z.to_nat (len p)) 0) = p) as ->.
  { change (Z.to_nat 0) with 0%nat. rewrite splice_0, drop_ge, app_nil_r; [done|].
    rewrite length_replicate. lia. }
  do 2 eexists. split; [done|]. split; simpl.
  - by rewrite delete_insert_eq.
  - intros s q. rewrite lookup_insert_eq. simpl.
    setoid_rewrite elem_of_cons. destruct (m !! seq_of (start + Z.of_nat i)) as [q'|] eqn:Em.
    + rewrite Hthere. split; [naive_solver|]. intros (j & c' & [->|Hj] & Hjc & -> & ->); [|naive_solver].
      apply Hthere in Em as (j & c2 & Hj & Hc2 & Hs & _).
      pose proof (lookup_lt_Some _ _ _ Hi). pose proof (lookup_lt_Some _ _ _ Hc2).
      apply seq_of_inj in Hs; [|lia]. assert (i = j) as -> by lia. naive_solver.
    + rewrite lookup_insert_Some, Hthere. split; [|].
      * intros [[<- <-]|[_ H]]; [by exists i, c; auto|naive_solver].
      * intros (j & c' & [->|Hj] & Hjc & -> & ->); [left; naive_solver|].
        right. split; [|naive_solver]. intros Hs.
        assert (m !! seq_of (start + Z.of_nat j) = Some (packet (start + Z.of_nat j) c')) as Hm
          by (apply Hthere; naive_solver).
        rewrite <-Hs, Em in Hm. done.
  - right. by rewrite lookup_insert_eq.
Qed.

Lemma receive_one_partial f0 f S i junk c :
  partial f0 f S → cs !! i = Some c → len junk ≤ isize_max - 2000 →
  ∃ f', receive_one channel group start count cs now f (i, junk) = Ret f' ∧ partial f0 f' (i :: S).
Proof.
  intros Hf Hi Hjunk. destruct (receive_fragment_partial f0 f S i junk c Hf Hi Hjunk) as (f' & full & Hrun & Hf').
  exists f'. split; [|done]. unfold receive_one. rewrite Hi. cbv zeta. by rewrite Hrun.
Qed.

Lemma receive_all_partial f0 (order : list (nat * bytes)) :
  received f0 !! group = None →
  Forall (λ a, (a.1 < length cs)%nat ∧ len a.2 ≤ isize_max - 2000) order →
  ∃ f, foldl_m (receive_one channel group start count cs now) f0 order = Ret f ∧
    partial f0 f (rev order.*1).
Proof.
  intros Hf0 Ho.
  destruct (foldl_m_ind (receive_one channel group start count cs now)
    (λ k f, partial f0 f (rev (firstn k order).*1)) order f0) as (f & Hf & Hp).
  - split; [by apply delete_id|rewrite Hf0; simpl|by left].
    intros s p. rewrite lookup_empty. naive_solver set_solver.
  - intros k [i junk] f Hk Hp. rewrite Forall_lookup in Ho. destruct (Ho _ _ Hk) as [Hi Hj]. simpl in *.
    destruct (lookup_lt_is_Some_2 cs i Hi) as [c Hc].
    destruct (receive_one_partial f0 f _ i junk c Hp Hc Hj) as (f' & Hrun & Hf'). exists f'.
    split; [done|]. rewrite (take_S_r _ _ _ Hk), fmap_app, rev_app_distr. done.
  - exists f. split; [done|]. by rewrite firstn_all in Hp.
Qed.

(** When every fragment has arrived the group is complete. *)
Lemma partial_complete f0 f S :
  partial f0 f S → cs ≠ [] → (∀ i, (i < length cs)%nat → i ∈ S) →
  received f !! group = Some (group_map channel group start count start cs).
Proof.
  intros [_ Hthere Hgroup] Hne Hall.
  assert (is_Some (received f !! group)) as [m Em].
  { destruct Hgroup as [[-> _]|[_ ?]]; [|done]. destruct cs; [done|]. specialize (Hall 0%nat). simpl in Hall.
    exfalso. apply (not_elem_of_nil 0%nat). apply Hall. lia. }
  rewrite Em in *. simpl in Hthere. f_equal. apply map_eq. intros s. apply option_eq. intros p.
  rewrite Hthere, group_map_Some_iff. split; [naive_solver|].
  intros (i & c & Hi & ? & ?). exists i, c. split; [|done]. apply Hall. by eapply lookup_lt_Some.
Qed.

(** While one is missing it is not. *)
Lemma partial_incomplete f0 f S i map :
  partial f0 f S → (i < length cs)%nat → i ∉ S → received f !! group = Some map →
  (size map < length cs)%nat.
Proof.
  intros [_ Hthere _] Hi HiS Hm. rewrite Hm in Hthere. simpl in Hthere.
  destruct (lookup_lt_is_Some_2 cs i Hi) as [c Hc].
  rewrite <-(group_map_size channel group start count start cs Hcs).
  apply map_subset_size. apply map_subset_alt. split.
  - apply map_subseteq_spec. intros s p Hp. apply Hthere in Hp as (j & cj & _ & ? & ? & ?).
    apply group_map_Some_iff. eauto.
  - exists (seq_of (start + Z.of_nat i)). split.
    + apply eq_None_not_Some. intros [p Hp]. apply Hthere in Hp as (j & cj & Hj & Hcj & Hs & _).
      pose proof (lookup_lt_Some _ _ _ Hcj). apply seq_of_inj in Hs; [|lia].
      assert (i = j) as -> by lia. done.
    + eexists. by apply group_map_lookup.
Qed.
End receiving.

(** ** From the sender's buffers to the receiver's message *)

(** The packets of a group, first fragment first. *)
Definition group_packets (channel group start count : Z) (cs : list bytes) : list bytes :=
  imap (λ i c, frag_packet channel group start count (start + Z.of_nat i) c) cs.

(** Packet [i] arrives in a buffer whose content behind it is [junk]. *)
Definition receive_arrival (now : Z) (packets : list bytes) (f : Fragmentation) (arrival : nat * bytes) :
    outcome Fragmentation :=
  let '(i, junk) := arrival in
  match packets !! i with
  | Some p => '(f, _) ← receive_fragment f (p ++ junk) (len p) now; Ret f
  | None => Ret f
  end.

Lemma receive_arrival_one channel group start count cs now f a :
  receive_arrival now (group_packets channel group start count cs) f a =
  receive_one channel group start count cs now f a.
Proof.
  destruct a as [i junk]. unfold receive_arrival, receive_one, group_packets.
  rewrite list_lookup_imap. by destruct (cs !! i).
Qed.

Lemma get_next_group_spec f :
  is_u16 (next_group f) →
  ∃ f' group, get_next_group f = (f', group) ∧ is_u16 group ∧ next_group f' = group ∧
    received f' = received f ∧ received_at f' = received_at f.
Proof.
  intros Hg. unfold get_next_group. pose proof (as_u16_range (next_group f + 1)) as Hr.
  cbv zeta. simpl. destruct (u16_max - 1 <=? as_u16 (next_group f + 1)); do 2 eexists;
    (split; [done|]); (split; [simpl; lia|done]).
Qed.

Lemma create_fragments_spec f m n log channel data length now :
  sends m n log → 0 ≤ n → is_u8 channel → is_u16 (next_group f) →
  0 ≤ length ≤ len data → length ≤ 1200 * 65534 →
  let cs := chunks 1200 (firstn (Z.to_nat length) data) in
  ∃ f' m' group, create_fragments f m channel data length now =
      Ret (f', m', seq_of <$> seqZ (n + 1) (len cs)) ∧
    get_next_group f = (f', group) ∧ group_ok channel group (len cs) ∧
    sends m' (n + len cs)
      (λ k, match group_packets channel group (n + 1) (len cs) cs !! Z.to_nat (k - (n + 1)) with
            | Some p => if n + 1 <=? k then p else log k
            | None => log k
            end).
Proof.
  intros Hm Hn Hch Hg Hl Hmax cs.
  assert (Forall (λ c, 0 < len c ≤ 1200) cs) as Hsz by (apply (chunks_sizes 1200); lia).
  assert (1200 * (len cs - 1) ≤ length) as Hcount.
  { pose proof (length_chunks 1200 ltac:(lia) (firstn (Z.to_nat length) data)) as H.
    fold cs in H. rewrite length_take in H. lia. }
  destruct (get_next_group_spec f Hg) as (f' & group & Egroup & Hgroup & _).
  assert (group_ok channel group (len cs)) as Hok by (split_and!; lia).
  unfold create_fragments. rewrite slice_prefix, bind_ret_l by lia. cbv zeta.
  change (Z.to_nat FRAG_SIZE) with 1200%nat. fold cs. rewrite as_u16_small, Egroup by lia.
  destruct (create_loop_spec channel group (n + 1) (len cs) now cs m n log 0 [] Hok Hsz Hm)
    as (m' & Hrun & Hm'); [lia|lia|lia|].
  change (if 0 =? 0 then 0 else seq_of (n + 1)) with 0 in Hrun. rewrite Hrun.
  exists f', m', group. split_and!; try done. eapply sends_ext, Hm'.
  intros k Hk. unfold group_packets. rewrite list_lookup_imap.
  destruct (cs !! Z.to_nat (k - (n + 1))) as [c|]; simpl; [|done].
  destruct (Z.leb_spec (n + 1) k); [|done]. f_equal. lia.
Qed.

(** The chunks of a message of at most [max] full fragments. *)
Lemma message_chunks data length max :
  0 < length ≤ len data → length < 1200 * max →
  let cs := chunks 1200 (firstn (Z.to_nat length) data) in
  concat cs = firstn (Z.to_nat length) data ∧ Forall (λ c, 0 < len c ≤ 1200) cs ∧ cs ≠ [] ∧ len cs ≤ max.
Proof.
  intros Hl Hmax cs.
  assert (concat cs = firstn (Z.to_nat length) data) as Hconcat by (apply (concat_chunks 1200); lia).
  split; [done|]. split; [apply (chunks_sizes 1200); lia|]. split.
  - intros E. rewrite E in Hconcat. simpl in Hconcat. apply (f_equal List.length) in Hconcat.
    rewrite length_take in Hconcat. simpl in Hconcat. lia.
  - pose proof (length_chunks 1200 ltac:(lia) (firstn (Z.to_nat length) data)) as H. fold cs in H.
    rewrite length_take in H. lia.
Qed.

(** The packets that [create_fragments] keeps for sending. *)
Lemma create_fragments_packets f m n log channel data length now :
  sends m n log → 0 ≤ n → is_u8 channel → is_u16 (next_group f) →
  0 < length ≤ len data → length < 1200 * 1023 →
  let cs := chunks 1200 (firstn (Z.to_nat length) data) in
  ∃ f' m', let packets := group_packets channel (next_group f') (n + 1) (len cs) cs in
    create_fragments f m channel data length now = Ret (f', m', seq_of <$> seqZ (n + 1) (len packets)) ∧
    group_ok channel (next_group f') (len cs) ∧
    ∀ i p, packets !! i = Some p → ∃ sb,
      get_send_buffer m' (seq_of (n + 1 + Z.of_nat i)) = Ret (Some sb) ∧ holds p sb.
Proof.
  intros Hm Hn Hch Hg Hl Hmax cs. destruct (message_chunks data length 1023 Hl Hmax) as (_ & _ & _ & Hcount).
  destruct (create_fragments_spec f m n log channel data length now Hm Hn Hch Hg)
    as (f' & m' & group & Hcreate & Hgroup & Hok & Hm'); [lia|lia|].
  fold cs in Hcreate, Hok, Hm', Hcount.
  assert (next_group f' = group) as <-.
  { destruct (get_next_group_spec f Hg) as (f2 & g2 & E & _ & E2 & _). congruence. }
  exists f', m'. intros packets. assert (List.length packets = List.length cs) as Hlen by apply length_imap.
  rewrite Hlen. split; [done|]. split; [done|].
  intros i p Hp. pose proof (lookup_lt_Some _ _ _ Hp).
  destruct (mg_kept _ _ _ Hm' (n + 1 + Z.of_nat i)) as (sb & Hsb & _ & Hholds); [lia..|].
  exists sb. rewrite (get_send_buffer_spec m' _ _ _ Hm'). split; [by rewrite Hsb|].
  replace (Z.to_nat (n + 1 + Z.of_nat i - (n + 1))) with i in Hholds by lia.
  fold packets in Hholds. rewrite Hp in Hholds. by destruct (Z.leb_spec (n + 1) (n + 1 + Z.of_nat i)); [|lia].
Qed.

(** ** Properties *)

(** C15: a message of fewer than 1023 * 1200 bytes survives fragmentation: every
    fragment is kept for sending under consecutive sequences; and when the
    receiving side has got every fragment at least once, in any order and each
    in a buffer with any content behind it, the header of any of them assembles
    exactly the bytes that were sent, and the group leaves the map as it was
    before. *)
Theorem fragments_roundtrip (f : Fragmentation) (m : SendBufferManager) (n : Z) (log : Z → bytes)
    (channel : Z) (data : bytes) (length now : Z) :
  sends m n log → 0 ≤ n → is_u8 channel → is_u16 (next_group f) →
  0 < length ≤ len data → length < 1200 * 1023 →
  ∃ f' m' packets,
    create_fragments f m channel data length now =
      Ret (f', m', seq_of <$> seqZ (n + 1) (len packets)) ∧
    (∀ i p, packets !! i = Some p → ∃ sb,
      get_send_buffer m' (seq_of (n + 1 + Z.of_nat i)) = Ret (Some sb) ∧ holds p sb) ∧
    ∀ (fr : Fragmentation) (order : list (nat * bytes)) (later : Z),
      received fr !! next_group f' = None →
      (∀ i, (i < List.length packets)%nat ↔ i ∈ order.*1) →
      Forall (λ a, len a.2 ≤ isize_max - 2000) order →
      ∃ fr', foldl_m (receive_arrival later packets) fr order = Ret fr' ∧
        ∀ p, p ∈ packets → ∃ h fr'',
          Header.read_fragmented p = Ret h ∧
          assemble fr' h = Ret (fr'', ROk (firstn (Z.to_nat length) data)) ∧
          received fr'' = received fr.
Proof.
  intros Hm Hn Hch Hg Hl Hmax.
  destruct (message_chunks data length 1023 Hl ltac:(lia)) as (Hconcat & Hsz & Hne & Hcount).
  destruct (create_fragments_packets f m n log channel data length now Hm Hn Hch Hg Hl ltac:(lia))
    as (f' & m' & Hcreate & Hok & Hkept).
  set (cs := chunks 1200 (firstn (Z.to_nat length) data)) in *. set (group := next_group f') in *.
  set (packets := group_packets channel group (n + 1) (len cs) cs) in *.
  assert (List.length packets = List.length cs) as Hlen by apply length_imap.
  exists f', m', packets. split; [done|]. split; [done|]. rewrite Hlen.
  intros fr order later Hfr Hcover Hjunk. fold group in Hfr.
  rewrite (foldl_m_ext _ (receive_one channel group (n + 1) (len cs) cs later)) by apply receive_arrival_one.
  destruct (receive_all_partial channel group (n + 1) (len cs) later cs Hok ltac:(lia) Hsz fr order Hfr)
    as (fr' & Hrun & Hpart).
  { rewrite Forall_forall in *. intros a Ha. split; [|by apply Hjunk].
    apply Hcover, list_elem_of_fmap. by exists a. }
  exists fr'. split; [done|]. intros p Hp.
  apply list_elem_of_lookup in Hp as [i Hi]. unfold packets, group_packets in Hi.
  rewrite list_lookup_imap in Hi. destruct (cs !! i) as [c|] eqn:Ec; [|done].
  injection Hi as <-. exists (frag_header channel group (n + 1) (len cs) (n + 1 + Z.of_nat i)).
  eexists. split; [|split].
  - rewrite <-(app_nil_r (frag_packet _ _ _ _ _ _)). by apply read_packet.
  - rewrite <-Hconcat. eapply (assemble_complete channel group (n + 1) (len cs)); try done; [lia| |].
    + rewrite Hconcat, length_take. unfold isize_max. lia.
    + eapply (partial_complete channel group (n + 1) (len cs) cs); [lia|done|exact Hpart|done|].
      intros j Hj. rewrite list_elem_of_In, <-in_rev, <-list_elem_of_In. by apply Hcover.
  - simpl. apply Hpart.
Qed.

Lemma fragments_roundtrip_witness :
  ∃ f' m' packets,
    create_fragments Fragmentation.default SendBufferManager.default 3 (replicate 4000 7) 2500 0 =
      Ret (f', m', seq_of <$> seqZ 1 (len packets)) ∧
    (∀ i p, packets !! i = Some p → ∃ sb,
      get_send_buffer m' (seq_of (0 + 1 + Z.of_nat i)) = Ret (Some sb) ∧ holds p sb) ∧
    ∀ (fr : Fragmentation) (order : list (nat * bytes)) (later : Z),
      received fr !! next_group f' = None →
      (∀ i, (i < List.length packets)%nat ↔ i ∈ order.*1) →
      Forall (λ a, len a.2 ≤ isize_max - 2000) order →
      ∃ fr', foldl_m (receive_arrival later packets) fr order = Ret fr' ∧
        ∀ p, p ∈ packets → ∃ h fr'',
          Header.read_fragmented p = Ret h ∧
          assemble fr' h = Ret (fr'', ROk (firstn (Z.to_nat 2500) (replicate 4000 7))) ∧
          received fr'' = received fr.
Proof.
  apply (fragments_roundtrip _ _ 0 (λ _, [])); [apply manages_default|lia|lia|simpl; lia| |lia].
  rewrite length_replicate. lia.
Defined.

(** A message of more than 1024 fragments does not survive: by the time it
    has been cut up, the slot of its first fragment holds fragment 1024, so the
    fragment that is found when the first one is looked up to be sent is another
    one. *)
Lemma long_message_overwrites_itself (f : Fragmentation) (m : SendBufferManager) (n : Z)
    (log : Z → bytes) (channel : Z) (data : bytes) (length now : Z) :
  sends m n log → 0 ≤ n → is_u8 channel → is_u16 (next_group f) →
  1200 * 1024 < length ≤ len data → length ≤ 1200 * 2045 → n + 2047 < 65535 →
  ∃ f' m' group count sb chunk,
    create_fragments f m channel data length now = Ret (f', m', seq_of <$> seqZ (n + 1) count) ∧
    1024 < count ∧ get_send_buffer m' (seq_of (n + 1)) = Ret (Some sb) ∧
    sequence sb = n + 1025 ∧
    holds (frag_packet channel group (n + 1) count (n + 1025) chunk) sb.
Proof.
  intros Hm Hn Hch Hg Hl Hmax Hwrap.
  destruct (create_fragments_spec f m n log channel data length now Hm Hn Hch Hg)
    as (f' & m' & group & Hcreate & _ & _ & Hm'); [lia|lia|].
  set (cs := chunks 1200 (firstn (Z.to_nat length) data)) in *.
  pose proof (length_chunks 1200 ltac:(lia) (firstn (Z.to_nat length) data)) as Hup.
  pose proof (length_concat_le 1200 ltac:(lia) cs (chunks_sizes 1200 ltac:(lia) _)) as Hlow.
  unfold cs in Hlow at 1. rewrite concat_chunks in Hlow by lia. fold cs in Hlow, Hup.
  rewrite length_take in Hlow, Hup.
  destruct (lookup_lt_is_Some_2 cs 1024) as [c Hc]; [lia|].
  destruct (mg_kept _ _ _ Hm' (n + 1025)) as (sb & Hsb & Hseq & Hholds); [lia..|].
  exists f', m', group, (len cs), sb, c. split; [done|]. split; [lia|].
  rewrite (get_send_buffer_spec m' _ _ _ Hm').
  assert (SequenceBuffer.slot (buffers m') (seq_of (n + 1)) =
    SequenceBuffer.slot (buffers m') (seq_of (n + 1025))) as ->.
  { unfold SequenceBuffer.slot. rewrite (mg_slots _ _ _ Hm'), !seq_of_small by (unfold valid_seq; lia). f_equal. div_lia. }
  rewrite Hsb, Hseq, seq_of_small by (unfold valid_seq; lia). split; [done|]. split; [done|].
  replace (Z.to_nat (n + 1025 - (n + 1))) with 1024%nat in Hholds by lia.
  unfold group_packets in Hholds. rewrite list_lookup_imap, Hc in Hholds. simpl in Hholds.
  destruct (Z.leb_spec (n + 1) (n + 1025)); [|lia].
  replace (n + 1 + Z.of_nat 1024) with (n + 1025) in Hholds by lia. done.
Qed.

Lemma long_message_overwrites_itself_witness :
  ∃ f' m' group count sb chunk,
    create_fragments Fragmentation.default SendBufferManager.default 3 (replicate (Z.to_nat 1300000) 7) 1300000 0 =
      Ret (f', m', seq_of <$> seqZ 1 count) ∧
    1024 < count ∧ get_send_buffer m' (seq_of (0 + 1)) = Ret (Some sb) ∧ sequence sb = 1025 ∧
    holds (frag_packet 3 group 1 count 1025 chunk) sb.
Proof.
  apply (long_message_overwrites_itself _ _ 0 (λ _, []));
    [apply manages_default|lia|lia|simpl; lia| |lia|lia].
  split; [lia|]. rewrite length_replicate. lia.
Defined.
