(* ===== verification/channel.v ===== *)
(** A channel of a connection ([src/tachyon/channel.rs]).

    A [Channel] joins the send buffers, the receiver and the fragmentation of one
    channel number of one peer: it sends reliable messages, asks for what is
    missing, resends what the peer asks for, and hands published messages to the
    application.  The operations are modelled statement by statement over an
    abstract socket; the receive buffer is an argument that is read and
    overwritten, as in the source.  The static [NONE_SEND_DATA], four bytes that
    all channels of the process share, is threaded as [none_send_data]. *)

From S2P Require Import prelude sequence sequence_buffer network_address int_buffer header nack byte_buffer_pool.
From S2P Require Import send_buffer_manager receiver fragmentation send_result tachyon_socket.

Definition NACK_REDUNDANCY_DEFAULT : Z := 1.

Module ChannelStats.

Record ChannelStats := mk {
  sent : Z; received : Z; bytes_sent : Z; bytes_received : Z;
  fragments_sent : Z; fragments_received : Z; fragments_assembled : Z;
  published : Z; published_consumed : Z;
  nacks_sent : Z; nacks_received : Z; resent : Z;
  nones_sent : Z; nones_received : Z; nones_accepted : Z; skipped_sequences : Z
}.

#[global] Instance eta_ChannelStats : Eta ChannelStats := λ s,
  mk (sent s) (received s) (bytes_sent s) (bytes_received s)
     (fragments_sent s) (fragments_received s) (fragments_assembled s)
     (published s) (published_consumed s)
     (nacks_sent s) (nacks_received s) (resent s)
     (nones_sent s) (nones_received s) (nones_accepted s) (skipped_sequences s).

Definition default : ChannelStats := mk 0 0 0 0 0 0 0 0 0 0 0 0 0 0 0 0.

Definition add_from (self other : ChannelStats) : ChannelStats :=
  mk (as_u64 (sent self + sent other))
     (as_u64 (received self + received other))
     (as_u64 (bytes_sent self + bytes_sent other))
     (as_u64 (bytes_received self + bytes_received other))
     (as_u64 (fragments_sent self + fragments_sent other))
     (as_u64 (fragments_received self + fragments_received other))
     (as_u64 (fragments_assembled self + fragments_assembled other))
     (as_u64 (published self + published other))
     (as_u64 (published_consumed self + published_consumed other))
     (as_u64 (nacks_sent self + nacks_sent other))
     (as_u64 (nacks_received self + nacks_received other))
     (as_u64 (resent self + resent other))
     (as_u64 (nones_sent self + nones_sent other))
     (as_u64 (nones_received self + nones_received other))
     (as_u64 (nones_accepted self + nones_accepted other))
     (as_u64 (skipped_sequences self + skipped_sequences other)).

End ChannelStats.

Module ChannelConfig.

Record ChannelConfig := mk {
  receive_window_size : Z;
  nack_redundancy : Z;
  ordered : Z
}.

Definition default_ordered : ChannelConfig := mk RECEIVE_WINDOW_SIZE_DEFAULT NACK_REDUNDANCY_DEFAULT 1.

Definition default_unordered : ChannelConfig := mk RECEIVE_WINDOW_SIZE_DEFAULT NACK_REDUNDANCY_DEFAULT 0.

Definition is_ordered (self : ChannelConfig) : bool := ordered self =? 1.

End ChannelConfig.

Module Channel.
Import NetworkAddress.

Record Channel := mk {
  id : Z;
  address : NetworkAddress;
  frag : Fragmentation.Fragmentation;
  send_buffers : SendBufferManager.SendBufferManager;
  receiver : Receiver.Receiver;
  stats : ChannelStats.ChannelStats;
  nack_send_data : bytes;
  nacked_sequences : list Z;
  nacked_sequence_map : gmap Z NetworkAddress;
  resend_rewrite_buffer : bytes;
  nack_redundancy : Z
}.

#[global] Instance eta_Channel : Eta Channel := λ c,
  mk (id c) (address c) (frag c) (send_buffers c) (receiver c) (stats c) (nack_send_data c)
     (nacked_sequences c) (nacked_sequence_map c) (resend_rewrite_buffer c) (nack_redundancy c).

Definition create (id : Z) (address : NetworkAddress) (config : ChannelConfig.ChannelConfig) : Channel :=
  mk id address Fragmentation.default SendBufferManager.default
     (Receiver.create (ChannelConfig.is_ordered config) (ChannelConfig.receive_window_size config))
     ChannelStats.default (replicate 512 0) [] ∅ (replicate 2048 0) (ChannelConfig.nack_redundancy config).

(** The new content of [NONE_SEND_DATA]. *)
Definition create_none (none_send_data : bytes) (sequence channel_id : Z) : outcome bytes :=
  let header := Header.default in
  let header := header <| Header.message_type := MESSAGE_TYPE_NONE |> in
  let header := header <| Header.sequence := sequence |> in
  let header := header <| Header.channel := channel_id |> in
  Header.write header none_send_data.

Definition is_ordered (self : Channel) : bool := Receiver.is_ordered (receiver self).

(** [self.stats.f += n] on a [u64] *)
Definition count (f : ChannelStats.ChannelStats → Z)
    `{!Setter f} (n : Z) (self : Channel) : Channel :=
  self <| stats := set f (λ v, as_u64 (v + n)) (stats self) |>.

Definition update_stats (self : Channel) : Channel :=
  self <| stats := (stats self) <| ChannelStats.skipped_sequences :=
            Receiver.skipped_sequences (receiver self) |> |>.

Definition receive_published_internal (self : Channel) (receive_buffer : bytes) :
    outcome (Channel * bytes * (Z * NetworkAddress * bool)) :=
  let '(taken, r) := Receiver.take_published (receiver self) in
  let self := self <| receiver := r |> in
  match taken with
  | Some byte_buffer =>
      let buffer_len := ByteBuffer.length byte_buffer in
      '(_, message_type) ← IntBuffer.read_u8 (IntBuffer.mk 0) (ByteBuffer.data byte_buffer);
      if message_type =? MESSAGE_TYPE_NONE then
        let self := self <| receiver := Receiver.return_buffer (receiver self) byte_buffer |> in
        Ret (self, receive_buffer, (0, address self, true))
      else if message_type =? MESSAGE_TYPE_FRAGMENT then
        header ← Header.read_fragmented (ByteBuffer.data byte_buffer);
        '(f, res) ← Fragmentation.assemble (frag self) header;
        let self := self <| frag := f |> in
        match res with
        | ROk res =>
            let assembled_len := len res in
            receive_buffer ← copy_from_slice receive_buffer 0 assembled_len res;
            let self := count ChannelStats.received 1 self in
            let self := count ChannelStats.fragments_assembled (Header.fragment_count header) self in
            let self := count ChannelStats.published_consumed 1 self in
            Ret (self, receive_buffer, (as_u32 assembled_len, address self, true))
        | RErr _ =>
            let self := self <| receiver := Receiver.return_buffer (receiver self) byte_buffer |> in
            Ret (self, receive_buffer, (0, address self, true))
        end
      else
        let header_size :=
          if message_type =? MESSAGE_TYPE_RELIABLE_WITH_NACK then Some TACHYON_NACKED_HEADER_SIZE
          else if message_type =? MESSAGE_TYPE_RELIABLE then Some TACHYON_HEADER_SIZE
          else None in
        match header_size with
        | None => Ret (self, receive_buffer, (0, address self, true))
        | Some header_size =>
            let body_len := usize_sub buffer_len header_size in
            src ← slice (ByteBuffer.data byte_buffer) header_size buffer_len;
            receive_buffer ← copy_from_slice receive_buffer 0 body_len src;
            let self := self <| receiver := Receiver.return_buffer (receiver self) byte_buffer |> in
            let self := count ChannelStats.published_consumed 1 self in
            Ret (self, receive_buffer, (as_u32 body_len, address self, true))
        end
  | None => Ret (self, receive_buffer, (0, address self, false))
  end.

Fixpoint receive_published_loop (n : nat) (self : Channel) (receive_buffer : bytes) :
    outcome (Channel * bytes * (Z * NetworkAddress)) :=
  match n with
  | O => Ret (self, receive_buffer, (0, address self))
  | S n' =>
      '(self, receive_buffer, res) ← receive_published_internal self receive_buffer;
      let '(length, addr, retry) := res in
      if 0 <? length then Ret (self, receive_buffer, (length, addr))
      else if negb retry then Ret (self, receive_buffer, (0, address self))
      else receive_published_loop n' self receive_buffer
  end.

Definition receive_published (self : Channel) (receive_buffer : bytes) :
    outcome (Channel * bytes * (Z * NetworkAddress)) :=
  receive_published_loop 1000 self receive_buffer.

Definition process_none_message (self : Channel) (sequence : Z) (receive_buffer : bytes) (received_len : Z) :
    outcome Channel :=
  let self := count ChannelStats.nones_received 1 self in
  '(r, accepted) ← Receiver.receive_packet (receiver self) sequence receive_buffer received_len;
  let self := self <| receiver := r |> in
  Ret (if (accepted : bool) then count ChannelStats.nones_accepted 1 self else self).

Definition process_fragment_message (self : Channel) (sequence : Z) (receive_buffer : bytes)
    (received_len now : Z) : outcome Channel :=
  '(f, received_frag_res) ← Fragmentation.receive_fragment (frag self) receive_buffer received_len now;
  let self := self <| frag := f |> in
  if (received_frag_res.1 : bool) then
    '(r, accepted) ← Receiver.receive_packet (receiver self) sequence receive_buffer
                       TACHYON_FRAGMENTED_HEADER_SIZE;
    let self := self <| receiver := r |> in
    Ret (if (accepted : bool) then count ChannelStats.fragments_received 1 self else self)
  else Ret self.

Definition copy_nacked_to_map (self : Channel) (address : NetworkAddress) : Channel :=
  self <| nacked_sequence_map :=
    foldl (λ m sequence, <[sequence := address]> m) (nacked_sequence_map self) (nacked_sequences self) |>.

Definition process_single_nack (self : Channel) (address : NetworkAddress) (receive_buffer : bytes) :
    outcome Channel :=
  let self := self <| nacked_sequences := [] |> in
  sequences ← Nack.read_single (nacked_sequences self) receive_buffer TACHYON_HEADER_SIZE;
  let self := self <| nacked_sequences := sequences |> in
  Ret (copy_nacked_to_map self address).

(** The body is rewritten behind a shorter header: the rewritten buffer and the
    length to send. *)
Definition rewrite_reliable_nack_to_reliable (rewrite_buffer send_buffer : bytes) : outcome (bytes * Z) :=
  header ← Header.read send_buffer;
  let src_body_len := Z.max 0 (len send_buffer - TACHYON_NACKED_HEADER_SIZE) in
  src ← slice send_buffer TACHYON_NACKED_HEADER_SIZE (len send_buffer);
  rewrite_buffer ← copy_from_slice rewrite_buffer TACHYON_HEADER_SIZE (TACHYON_HEADER_SIZE + src_body_len) src;
  let header := header <| Header.message_type := MESSAGE_TYPE_RELIABLE |> in
  rewrite_buffer ← Header.write header rewrite_buffer;
  Ret (rewrite_buffer, TACHYON_HEADER_SIZE + src_body_len).

Section nack_messages.
Context `{VarintOps}.

Definition process_nack_message (self : Channel) (address : NetworkAddress) (receive_buffer : bytes) :
    outcome Channel :=
  let self := self <| nacked_sequences := [] |> in
  sequences ← Nack.read_varint (nacked_sequences self) receive_buffer TACHYON_HEADER_SIZE;
  let self := self <| nacked_sequences := sequences |> in
  Ret (copy_nacked_to_map self address).
End nack_messages.

Section sending.
Context `{Os} `{VarintOps} `{HashIter}.

(** The nack that a message may carry, taken from the queue and put back. *)
Definition next_nack (self : Channel) : Channel * option Nack.Nack :=
  if 0 <? nack_redundancy self then
    match Receiver.nack_queue (receiver self) with
    | nack :: rest =>
        let '(nack, nack_option) :=
          if Nack.sent_count nack <? nack_redundancy self then
            let nack := nack <| Nack.sent_count := as_u32 (Nack.sent_count nack + 1) |> in
            (nack, Some nack)
          else (nack, None) in
        (self <| receiver := (receiver self) <| Receiver.nack_queue := rest ++ [nack] |> |>, nack_option)
    | [] => (self, None)
    end
  else (self, None).

Definition send_reliable (self : Channel) (address : NetworkAddress) (data : bytes) (body_len : Z)
    (socket : TachyonSocket.TachyonSocket) (now : Z) (w : World) :
    outcome (Channel * World * TachyonSendResult.TachyonSendResult) :=
  let result := TachyonSendResult.default in
  let '(self, nack_option) := next_nack self in
  let header_len := match nack_option with
                    | Some _ => TACHYON_NACKED_HEADER_SIZE
                    | None => TACHYON_HEADER_SIZE
                    end in
  let send_buffer_len := body_len + header_len in
  '(sender, created) ← SendBufferManager.create_send_buffer (send_buffers self) send_buffer_len now;
  let self := self <| send_buffers := sender |> in
  match created with
  | Some send_buffer =>
      let sequence := SendBufferManager.sequence send_buffer in
      src ← slice data 0 body_len;
      buffer ← copy_from_slice (ByteBuffer.data (SendBufferManager.byte_buffer send_buffer))
                 header_len (body_len + header_len) src;
      let header := Header.default in
      let header := header <| Header.channel := id self |> in
      let header := header <| Header.sequence := sequence |> in
      let '(header, self) :=
        match nack_option with
        | Some nack =>
            (header <| Header.message_type := MESSAGE_TYPE_RELIABLE_WITH_NACK |>
                    <| Header.start_sequence := Nack.start_sequence nack |>
                    <| Header.flags := Nack.flags nack |>,
             count ChannelStats.nacks_sent (Nack.nacked_count nack) self)
        | None => (header <| Header.message_type := MESSAGE_TYPE_RELIABLE |>, self)
        end in
      buffer ← Header.write header buffer;
      sender ← SendBufferManager.store (send_buffers self) (fill send_buffer buffer);
      let self := self <| send_buffers := sender |> in
      '(w, sent_len) ← TachyonSocket.send_to socket address buffer send_buffer_len w;
      let result := result <| TachyonSendResult.sent_len := as_u32 sent_len |>
                           <| TachyonSendResult.header := header |> in
      let self := count ChannelStats.bytes_sent sent_len self in
      let self := count ChannelStats.sent 1 self in
      Ret (self, w, result)
  | None => Ret (self, w, result <| TachyonSendResult.error := SEND_ERROR_UNKNOWN |>)
  end.

(** One round of the loop of [resend_nacked]. *)
Definition resend_one (socket : TachyonSocket.TachyonSocket) (st : Channel * bytes * World)
    (entry : Z * NetworkAddress) : outcome (Channel * bytes * World) :=
  let '(self, none_send_data, w) := st in
  let '(sequence, address) := entry in
  let self := count ChannelStats.nacks_received 1 self in
  found ← SendBufferManager.get_send_buffer (send_buffers self) sequence;
  match found with
  | Some send_buffer =>
      let data := ByteBuffer.data (SendBufferManager.byte_buffer send_buffer) in
      '(_, message_type) ← IntBuffer.read_u8 (IntBuffer.mk 0) data;
      '(self, w) ←
        (if message_type =? MESSAGE_TYPE_RELIABLE_WITH_NACK then
           '(rewritten, send_len) ← rewrite_reliable_nack_to_reliable (resend_rewrite_buffer self) data;
           let self := self <| resend_rewrite_buffer := rewritten |> in
           '(w, _) ← TachyonSocket.send_to socket address rewritten send_len w;
           Ret (self, w)
         else
           '(w, _) ← TachyonSocket.send_to socket address data
                       (ByteBuffer.length (SendBufferManager.byte_buffer send_buffer)) w;
           Ret (self, w));
      Ret (count ChannelStats.resent 1 self, none_send_data, w)
  | None =>
      none_send_data ← create_none none_send_data sequence (id self);
      '(w, _) ← TachyonSocket.send_to socket address none_send_data TACHYON_HEADER_SIZE w;
      Ret (count ChannelStats.nones_sent 1 self, none_send_data, w)
  end.

Definition resend_nacked (self : Channel) (none_send_data : bytes) (socket : TachyonSocket.TachyonSocket)
    (w : World) : outcome (Channel * bytes * World) :=
  if Z.of_nat (size (nacked_sequence_map self)) =? 0 then Ret (self, none_send_data, w) else
  '(self, none_send_data, w) ←
    foldl_m (resend_one socket) (self, none_send_data, w) (hash_iter (nacked_sequence_map self));
  Ret (self <| nacked_sequence_map := ∅ |>, none_send_data, w).

Definition send_nacks (self : Channel) (socket : TachyonSocket.TachyonSocket) (w : World) :
    outcome (Channel * World) :=
  '(r, nack_count) ← Receiver.create_nacks (receiver self);
  let self := self <| receiver := r |> in
  if len (Receiver.nack_list (receiver self)) =? 0 then Ret (self, w) else
  let header := Header.default in
  let header := header <| Header.message_type := MESSAGE_TYPE_NACK |> in
  let header := header <| Header.channel := id self |> in
  data ← Header.write header (nack_send_data self);
  '(position, data) ← Nack.write_varint (Receiver.nack_list (receiver self)) data TACHYON_HEADER_SIZE;
  let self := self <| nack_send_data := data |> in
  '(w, _) ← TachyonSocket.send_to socket (address self) data position w;
  Ret (count ChannelStats.nacks_sent nack_count self, w).

Definition update (self : Channel) (none_send_data : bytes) (socket : TachyonSocket.TachyonSocket) (w : World) :
    outcome (Channel * bytes * World) :=
  '(self, w) ← send_nacks self socket w;
  '(self, none_send_data, w) ← resend_nacked self none_send_data socket w;
  r ← Receiver.publish (receiver self);
  Ret (self <| receiver := r |>, none_send_data, w).

End sending.
End Channel.
