(* ===== verification/connection.v ===== *)
(** Connections, identities and what a receive returns
    ([src/tachyon/connection.rs], [src/tachyon/receive_result.rs]). *)

From S2P Require Import prelude network_address.

Module Identity.

Record Identity := mk { id : Z; session_id : Z; linked : Z }.

#[global] Instance eta_Identity : Eta Identity := λ i, mk (id i) (session_id i) (linked i).

Definition default : Identity := mk 0 0 0.

Definition is_valid (self : Identity) : bool := (0 <? id self) && (0 <? session_id self).

Definition is_linked (self : Identity) : bool := is_valid self && (linked self =? 1).

Definition set_linked (self : Identity) (linked' : Z) : Identity := self <| linked := linked' |>.

End Identity.

Module Connection.

Record Connection := mk {
  address : NetworkAddress.NetworkAddress;
  identity : Identity.Identity;
  tachyon_id : Z;
  received_at : Z;
  since_last_received : Z
}.

#[global] Instance eta_Connection : Eta Connection := λ c,
  mk (address c) (identity c) (tachyon_id c) (received_at c) (since_last_received c).

Definition create (address : NetworkAddress.NetworkAddress) (tachyon_id : Z) : Connection :=
  mk address Identity.default tachyon_id 0 0.

End Connection.

(** ** Results of a receive *)

Definition RECEIVE_ERROR_UNKNOWN : Z := 1.
Definition RECEIVE_ERROR_CHANNEL : Z := 2.

Inductive ReceiveResult :=
| Reliable (network_address : NetworkAddress.NetworkAddress) (channel_id : Z)
| Error
| Empty
| Retry
| ChannelError
| UnReliable (received_len : Z) (network_address : NetworkAddress.NetworkAddress).

Module TachyonReceiveResult.

Record TachyonReceiveResult := mk {
  channel : Z;
  address : NetworkAddress.NetworkAddress;
  length : Z;
  error : Z
}.

#[global] Instance eta_TachyonReceiveResult : Eta TachyonReceiveResult := λ r,
  mk (channel r) (address r) (length r) (error r).

Definition default : TachyonReceiveResult := mk 0 NetworkAddress.default 0 0.

End TachyonReceiveResult.
