(* ===== verification/tachyon_state.v ===== *)
(** The state of a [Tachyon] and its connections' channels ([src/tachyon.rs]).

    A [Tachyon] is one socket with the connections on it.  This file has the
    record, its creation and the maps of channels; [connection_impl.v] has the
    life of connections and identities, [tachyon.v] what is sent and received.
    The callbacks are foreign functions: a parameter that acts on the world.
    The clock is an argument in milliseconds, read once per operation. *)

From S2P Require Import prelude network_address header send_result tachyon_socket unreliable_sender.
From S2P Require Import receiver channel connection.

(** The [extern] callbacks for connection and identity events. *)
Class Callbacks `{Os} := {
  EventCallback : Type;
  call_event : EventCallback → Z → Connection.Connection → World → World
}.

Definition SOCKET_RECEIVE_BUFFER_LEN : Z := 1024 * 1024.

Module TachyonStats.

Record TachyonStats := mk {
  channel_stats : ChannelStats.ChannelStats;
  packets_dropped : Z;
  unreliable_sent : Z;
  unreliable_received : Z
}.

#[global] Instance eta_TachyonStats : Eta TachyonStats := λ s,
  mk (channel_stats s) (packets_dropped s) (unreliable_sent s) (unreliable_received s).

Definition default : TachyonStats := mk ChannelStats.default 0 0 0.

End TachyonStats.

Module TachyonConfig.

Record TachyonConfig := mk {
  use_identity : Z;
  drop_packet_chance : Z;
  drop_reliable_only : Z
}.

#[global] Instance eta_TachyonConfig : Eta TachyonConfig := λ c,
  mk (use_identity c) (drop_packet_chance c) (drop_reliable_only c).

Definition default : TachyonConfig := mk 0 0 0.

End TachyonConfig.

Module Tachyon.
Import NetworkAddress.

Section tachyon.
Context `{Callbacks} `{HashIter}.

Record Tachyon := mk {
  id : Z;
  socket : TachyonSocket.TachyonSocket;
  socket_receive_buffer : bytes;
  unreliable_sender : option UnreliableSender.UnreliableSender;
  identities : gmap Z Z;
  connections : gmap NetworkAddress Connection.Connection;
  identity_to_address_map : gmap Z NetworkAddress;
  channels : gmap (NetworkAddress * Z) Channel.Channel;
  channel_config : gmap Z ChannelConfig.ChannelConfig;
  config : TachyonConfig.TachyonConfig;
  nack_send_data : bytes;
  stats : TachyonStats.TachyonStats;
  start_time : Z;
  last_identity_link_request : Z;
  identity : Identity.Identity;
  identity_event_callback : option EventCallback;
  connection_event_callback : option EventCallback
}.

#[global] Instance eta_Tachyon : Eta Tachyon := λ t,
  mk (id t) (socket t) (socket_receive_buffer t) (unreliable_sender t) (identities t) (connections t)
     (identity_to_address_map t) (channels t) (channel_config t) (config t) (nack_send_data t) (stats t)
     (start_time t) (last_identity_link_request t) (identity t) (identity_event_callback t)
     (connection_event_callback t).

Definition create_with_id (config : TachyonConfig.TachyonConfig) (id now : Z) : Tachyon :=
  let tachyon := mk id TachyonSocket.create (replicate (Z.to_nat SOCKET_RECEIVE_BUFFER_LEN) 0) None
    ∅ ∅ ∅ ∅ ∅ config (replicate 4096 0) TachyonStats.default now (now - 100 * 1000) Identity.default
    None None in
  let tachyon := tachyon <| channel_config := <[1 := ChannelConfig.default_ordered]> (channel_config tachyon) |> in
  let tachyon := tachyon <| channel_config := <[2 := ChannelConfig.default_unordered]> (channel_config tachyon) |> in
  tachyon.

Definition create (config : TachyonConfig.TachyonConfig) (now : Z) : Tachyon := create_with_id config 0 now.

(** [Instant::duration_since] is zero when the clock is behind. *)
Definition time_since_start (self : Tachyon) (now : Z) : Z := as_u64 (Z.max 0 (now - start_time self)).

Definition create_unreliable_sender (self : Tachyon) (w : World) :
    outcome (World * option UnreliableSender.UnreliableSender) :=
  '(w, sock) ← TachyonSocket.clone_socket (socket self) w;
  if negb (opt_is_some sock) then Ret (w, None) else
  Ret (w, Some (UnreliableSender.create sock)).

Definition get_channel (self : Tachyon) (address : NetworkAddress) (channel_id : Z) : option Channel.Channel :=
  channels self !! (address, channel_id).

Definition create_configured_channels (self : Tachyon) (address : NetworkAddress) : Tachyon :=
  self <| channels :=
    foldl (λ m entry, match m !! (address, entry.1) with
                      | Some _ => m
                      | None => <[(address, entry.1) := Channel.create entry.1 address entry.2]> m
                      end)
      (channels self) (hash_iter (channel_config self)) |>.

Definition get_channel_count (self : Tachyon) (address : NetworkAddress) : Z :=
  foldl (λ count entry, if opt_is_some (channels self !! (address, entry.1)) then count + 1 else count)
    0 (hash_iter (channel_config self)).

Definition remove_configured_channels (self : Tachyon) (address : NetworkAddress) : Tachyon :=
  self <| channels :=
    foldl (λ m entry, delete (address, entry.1) m) (channels self) (hash_iter (channel_config self)) |>.

Definition configure_channel (self : Tachyon) (channel_id : Z) (config : ChannelConfig.ChannelConfig) :
    Tachyon * bool :=
  if channel_id <? 3 then (self, false)
  else (self <| channel_config := <[channel_id := config]> (channel_config self) |>, true).

Definition get_combined_stats (self : Tachyon) : Tachyon * TachyonStats.TachyonStats :=
  let '(channels', channel_stats) :=
    foldl (λ st entry,
             let channel := Channel.update_stats entry.2 in
             (<[entry.1 := channel]> st.1, ChannelStats.add_from st.2 (Channel.stats channel)))
      (channels self, ChannelStats.default) (hash_iter (channels self)) in
  (self <| channels := channels' |>, (stats self) <| TachyonStats.channel_stats := channel_stats |>).

End tachyon.
End Tachyon.
