(* ===== verification/connection_impl.v ===== *)
(** The life of connections and identities ([src/tachyon/connection_impl.rs]).

    A server links an identity to the address that presents its session; the
    operations are those of [impl Tachyon] in that file, on the state of
    [tachyon_state.v]. *)

From S2P Require Import prelude network_address int_buffer header send_result tachyon_socket unreliable_sender.
From S2P Require Import receiver channel connection tachyon_state.

Definition IDENTITY_SEND_INTERVAL : Z := 300.

Definition CONNECTION_ADDED_EVENT : Z := 1.
Definition CONNECTION_REMOVED_EVENT : Z := 2.

Definition LINK_IDENTITY_EVENT : Z := 1.
Definition UNLINK_IDENTITY_EVENT : Z := 2.
Definition IDENTITY_LINKED_EVENT : Z := 3.
Definition IDENTITY_UNLINKED_EVENT : Z := 4.

Module ConnectionImpl.
Import NetworkAddress Connection Tachyon.

Section connections.
Context `{Callbacks} `{HashIter}.
Implicit Types (self : Tachyon) (address : NetworkAddress) (w : World).

Definition fire_identity_event self (event_id : Z) address (id session_id : Z) (w : World) : World :=
  match identity_event_callback self with
  | Some callback =>
      let conn := Connection.create address (Tachyon.id self) in
      let conn := conn <| Connection.identity := Identity.mk id session_id 0 |> in
      let conn := if event_id =? IDENTITY_LINKED_EVENT
                  then conn <| Connection.identity := (Connection.identity conn) <| Identity.linked := 1 |> |>
                  else conn in
      call_event callback event_id conn w
  | None => w
  end.

Definition fire_connection_event self (event_id : Z) address (w : World) : World :=
  match connection_event_callback self with
  | Some callback => call_event callback event_id (Connection.create address (Tachyon.id self)) w
  | None => w
  end.

Definition create_connection self address (identity : Identity.Identity) (now : Z) (w : World) : Tachyon * World :=
  let conn := Connection.create address (Tachyon.id self) in
  let conn := conn <| Connection.identity := identity |> in
  let conn := conn <| received_at := time_since_start self now |> in
  let self := self <| connections := <[address := conn]> (connections self) |> in
  let self := create_configured_channels self address in
  (self, fire_connection_event self CONNECTION_ADDED_EVENT address w).

Definition remove_connection self address (w : World) : Tachyon * World :=
  let self := self <| connections := delete address (connections self) |> in
  let self := remove_configured_channels self address in
  (self, fire_connection_event self CONNECTION_REMOVED_EVENT address w).

Definition get_connection self address : option Connection := connections self !! address.

Definition get_connection_by_identity self (id : Z) : option Connection :=
  match identity_to_address_map self !! id with
  | Some address => get_connection self address
  | None => None
  end.

(** The loop of [get_connections]; it looks at the count after each element. *)
Fixpoint get_connections_loop self (since_start result_count count : Z)
    (conns : list (NetworkAddress * Connection)) (list : list Connection) : Tachyon * List.list Connection :=
  match conns with
  | [] => (self, list)
  | (key, conn) :: conns' =>
      let conn := conn <| since_last_received := as_u64 (since_start - received_at conn) |> in
      let self := self <| connections := <[key := conn]> (connections self) |> in
      let list := list ++ [conn] in
      let count := count + 1 in
      if result_count <=? count then (self, list)
      else get_connections_loop self since_start result_count count conns' list
  end.

(** [max as usize] of a negative [i32] is beyond every length. *)
Definition get_connections self (max now : Z) : Tachyon * list Connection :=
  let result_count := Z.min (Z.of_nat (size (connections self))) (max mod 2 ^ 64) in
  get_connections_loop self (time_since_start self now) result_count 0 (hash_iter (connections self)) [].

Definition on_receive_connection_update self address (now : Z) (w : World) : Tachyon * World :=
  let since_start := time_since_start self now in
  match connections self !! address with
  | Some conn =>
      (self <| connections := <[address := conn <| received_at := since_start |>]> (connections self) |>, w)
  | None => create_connection self address Identity.default now w
  end.

Definition validate_and_update_linked_connection self address (now : Z) : Tachyon * bool :=
  let since_start := time_since_start self now in
  match connections self !! address with
  | Some conn =>
      if Identity.id (Connection.identity conn) =? 0 then (self, false)
      else (self <| connections := <[address := conn <| received_at := since_start |>]> (connections self) |>, true)
  | None => (self, false)
  end.

Definition get_connection_identity self address : Identity.Identity :=
  match connections self !! address with
  | Some conn => Connection.identity conn
  | None => Identity.default
  end.

Definition remove_connection_by_identity self (id : Z) (w : World) : Tachyon * World :=
  let addresses := omap (λ entry, if Identity.id (Connection.identity entry.2) =? id
                                  then Some (Connection.address entry.2) else None)
                     (hash_iter (connections self)) in
  foldl (λ st addr, remove_connection st.1 addr st.2) (self, w) addresses.

Definition set_identity self (id session_id : Z) (w : World) : Tachyon * World :=
  let '(self, w) := remove_connection_by_identity self id w in
  if session_id =? 0 then (self <| identities := delete id (identities self) |>, w)
  else (self <| identities := <[id := session_id]> (identities self) |>, w).

Definition send_identity_message self (message_type id session_id : Z) address (w : World) : outcome World :=
  let header := ConnectionHeader.default in
  let header := header <| ConnectionHeader.message_type := message_type |> in
  let header := header <| ConnectionHeader.id := id |> in
  let header := header <| ConnectionHeader.session_id := session_id |> in
  let send_buffer := replicate 12 0 in
  send_buffer ← ConnectionHeader.write header send_buffer;
  '(w, _) ← TachyonSocket.send_to (socket self) address send_buffer (len send_buffer) w;
  Ret w.

Definition send_link_identity self (id session_id : Z) (w : World) : outcome World :=
  send_identity_message self MESSAGE_TYPE_LINK_IDENTITY id session_id NetworkAddress.default w.

Definition send_unlink_identity self (id session_id : Z) (w : World) : outcome World :=
  send_identity_message self MESSAGE_TYPE_UNLINK_IDENTITY id session_id NetworkAddress.default w.

Definition send_identity_linked self address (w : World) : outcome World :=
  send_identity_message self MESSAGE_TYPE_IDENTITY_LINKED 0 0 address w.

Definition send_identity_unlinked self address (w : World) : outcome World :=
  send_identity_message self MESSAGE_TYPE_IDENTITY_UNLINKED 0 0 address w.

Definition try_link_identity self address (id session_id now : Z) (w : World) : outcome (Tachyon * World * bool) :=
  match identities self !! id with
  | Some current_session_id =>
      if negb (session_id =? current_session_id) then Ret (self, w, false) else
      let identity := get_connection_identity self address in
      if (Identity.id identity =? id) && (Identity.session_id identity =? current_session_id)
      then Ret (self, w, true) else
      let '(self, w) := remove_connection_by_identity self id w in
      let identity := Identity.mk id session_id 0 in
      let '(self, w) := create_connection self address identity now w in
      let self := self <| identity_to_address_map := <[id := address]> (identity_to_address_map self) |> in
      w ← send_identity_linked self address w;
      Ret (self, w, true)
  | None => Ret (self, w, false)
  end.

Definition try_unlink_identity self address (id session_id : Z) (w : World) : outcome (Tachyon * World * bool) :=
  match identities self !! id with
  | Some current_session_id =>
      if negb (session_id =? current_session_id) then Ret (self, w, false) else
      let '(self, w) := remove_connection_by_identity self id w in
      let self := self <| identity_to_address_map := delete id (identity_to_address_map self) |> in
      w ← send_identity_unlinked self address w;
      Ret (self, w, true)
  | None =>
      w ← send_identity_unlinked self address w;
      Ret (self, w, false)
  end.

Definition client_identity_update self (now : Z) (w : World) : outcome (Tachyon * World) :=
  if TachyonConfig.use_identity (config self) =? 0 then Ret (self, w) else
  if negb (opt_is_some (TachyonSocket.socket (socket self))) then Ret (self, w) else
  if TachyonSocket.is_server (socket self) then Ret (self, w) else
  if negb (Identity.is_valid (identity self)) then Ret (self, w) else
  if Identity.is_linked (identity self) then Ret (self, w) else
  let since_last := Z.max 0 (now - last_identity_link_request self) in
  if IDENTITY_SEND_INTERVAL <? since_last then
    let self := self <| last_identity_link_request := now |> in
    w ← send_link_identity self (Identity.id (identity self)) (Identity.session_id (identity self)) w;
    Ret (self, w)
  else Ret (self, w).

Definition can_send self : bool :=
  if TachyonSocket.is_server (socket self) then true
  else if TachyonConfig.use_identity (config self) =? 1 then Identity.linked (identity self) =? 1
  else true.

End connections.
End ConnectionImpl.
