(* ===== verification/tachyon.v ===== *)
(** Sending, receiving and the update of a [Tachyon] ([src/tachyon.rs]).

    The operations of the application's loop: [update] sends nacks and resends
    on every channel, [receive_loop] takes datagrams from the socket until one
    message is complete, [send_reliable] and [send_unreliable] send. *)

From S2P Require Import prelude network_address int_buffer header nack byte_buffer_pool send_buffer_manager receiver fragmentation.
From S2P Require Import send_result tachyon_socket unreliable_sender channel connection tachyon_state connection_impl.

Module SendTarget.

Record SendTarget := mk { identity_id : Z; address : NetworkAddress.NetworkAddress }.

#[global] Instance eta_SendTarget : Eta SendTarget := λ t, mk (identity_id t) (address t).

End SendTarget.

Module TachyonIo.
Import NetworkAddress Tachyon ConnectionImpl.

Section io.
Context `{Callbacks} `{VarintOps} `{HashIter}.
Implicit Types (self : Tachyon) (address : NetworkAddress) (w : World) (none_send_data receive_buffer : bytes).

Definition bind self address (w : World) : outcome (Tachyon * World * bool) :=
  '(sock, w, res) ← TachyonSocket.bind_socket (socket self) address w;
  let self := self <| socket := sock |> in
  match res with
  | TachyonSocket.Success =>
      '(w, sender) ← create_unreliable_sender self w;
      Ret (self <| unreliable_sender := sender |>, w, true)
  | TachyonSocket.Error => Ret (self, w, false)
  end.

Definition connect self address (now : Z) (w : World) : outcome (Tachyon * World * bool) :=
  '(sock, w, res) ← TachyonSocket.connect_socket (socket self) address w;
  let self := self <| socket := sock |> in
  match res with
  | TachyonSocket.Success =>
      let local_address := NetworkAddress.default in
      let '(self, w) := create_connection self local_address Identity.default now w in
      '(w, sender) ← create_unreliable_sender self w;
      Ret (self <| unreliable_sender := sender |>, w, true)
  | TachyonSocket.Error => Ret (self, w, false)
  end.

(** One channel of [update]. *)
Definition update_channel (st : Tachyon * bytes * World) (entry : NetworkAddress * Z * Channel.Channel) :
    outcome (Tachyon * bytes * World) :=
  let '(self, none_send_data, w) := st in
  '(channel, none_send_data, w) ← Channel.update entry.2 none_send_data (socket self) w;
  Ret (self <| channels := <[entry.1 := channel]> (channels self) |>, none_send_data, w).

Definition update self none_send_data (now : Z) (w : World) : outcome (Tachyon * bytes * World) :=
  '(self, w) ← client_identity_update self now w;
  foldl_m update_channel (self, none_send_data, w) (hash_iter (channels self)).

Definition receive_published_channel_id self receive_buffer address (channel_id : Z) :
    outcome (Tachyon * bytes * Z) :=
  match channels self !! (address, channel_id) with
  | Some channel =>
      '(channel, receive_buffer, res) ← Channel.receive_published channel receive_buffer;
      Ret (self <| channels := <[(address, channel_id) := channel]> (channels self) |>, receive_buffer, res.1)
  | None => Ret (self, receive_buffer, 0)
  end.

Fixpoint receive_published_all_loop self receive_buffer
    (entries : list (NetworkAddress * Z * Channel.Channel)) :
    outcome (Tachyon * bytes * TachyonReceiveResult.TachyonReceiveResult) :=
  match entries with
  | [] => Ret (self, receive_buffer, TachyonReceiveResult.default)
  | (key, channel) :: entries' =>
      '(channel, receive_buffer, res) ← Channel.receive_published channel receive_buffer;
      let self := self <| channels := <[key := channel]> (channels self) |> in
      if 0 <? res.1 then
        Ret (self, receive_buffer,
             TachyonReceiveResult.default <| TachyonReceiveResult.length := res.1 |>
               <| TachyonReceiveResult.address := res.2 |>
               <| TachyonReceiveResult.channel := Channel.id channel |>)
      else receive_published_all_loop self receive_buffer entries'
  end.

Definition receive_published_all_channels self receive_buffer :
    outcome (Tachyon * bytes * TachyonReceiveResult.TachyonReceiveResult) :=
  receive_published_all_loop self receive_buffer (hash_iter (channels self)).

(** What the connection or the identity of the sender decides: [None] when the
    datagram is for a channel, the result of the receive otherwise. *)
Definition admit_datagram self (header : Header.Header) address (now : Z) (w : World) :
    outcome (Tachyon * World * option ReceiveResult) :=
  let message_type := Header.message_type header in
  if TachyonSocket.is_server (socket self) then
    if TachyonConfig.use_identity (config self) =? 1 then
      if message_type =? MESSAGE_TYPE_LINK_IDENTITY then
        connection_header ← ConnectionHeader.read (socket_receive_buffer self);
        let id := ConnectionHeader.id connection_header in
        let session_id := ConnectionHeader.session_id connection_header in
        '(self, w, linked) ← try_link_identity self address id session_id now w;
        let w := if (linked : bool)
                 then fire_identity_event self LINK_IDENTITY_EVENT address id session_id w else w in
        Ret (self, w, Some Retry)
      else if message_type =? MESSAGE_TYPE_UNLINK_IDENTITY then
        connection_header ← ConnectionHeader.read (socket_receive_buffer self);
        let id := ConnectionHeader.id connection_header in
        let session_id := ConnectionHeader.session_id connection_header in
        '(self, w, unlinked) ← try_unlink_identity self address id session_id w;
        let w := if (unlinked : bool)
                 then fire_identity_event self UNLINK_IDENTITY_EVENT address id session_id w else w in
        Ret (self, w, Some Retry)
      else
        let '(self, valid) := validate_and_update_linked_connection self address now in
        if negb valid then Ret (self, w, Some Retry) else Ret (self, w, None)
    else
      let '(self, w) := on_receive_connection_update self address now w in
      Ret (self, w, None)
  else
    if TachyonConfig.use_identity (config self) =? 1 then
      if message_type =? MESSAGE_TYPE_IDENTITY_LINKED then
        let self := self <| identity := Identity.set_linked (identity self) 1 |> in
        Ret (self, fire_identity_event self IDENTITY_LINKED_EVENT address 0 0 w, Some Retry)
      else if message_type =? MESSAGE_TYPE_IDENTITY_UNLINKED then
        let self := self <| identity := Identity.set_linked (identity self) 0 |> in
        Ret (self, fire_identity_event self IDENTITY_UNLINKED_EVENT address 0 0 w, Some Retry)
      else if negb (Identity.is_linked (identity self)) then Ret (self, w, Some Retry)
      else Ret (self, w, None)
    else Ret (self, w, None).

(** The dispatch on the message type, for the channel it is for. *)
Definition receive_on_channel (channel : Channel.Channel) (header : Header.Header) address
    (socket_receive_buffer : bytes) (received_len now : Z) : outcome (Channel.Channel * ReceiveResult) :=
  let message_type := Header.message_type header in
  let sequence := Header.sequence header in
  let channel := Channel.count ChannelStats.bytes_received received_len channel in
  if message_type =? MESSAGE_TYPE_NONE then
    channel ← Channel.process_none_message channel sequence socket_receive_buffer received_len;
    Ret (channel, Retry)
  else if message_type =? MESSAGE_TYPE_NACK then
    channel ← Channel.process_nack_message channel address socket_receive_buffer;
    Ret (channel, Retry)
  else if message_type =? MESSAGE_TYPE_FRAGMENT then
    channel ← Channel.process_fragment_message channel sequence socket_receive_buffer received_len now;
    Ret (channel, Retry)
  else if (message_type =? MESSAGE_TYPE_RELIABLE) || (message_type =? MESSAGE_TYPE_RELIABLE_WITH_NACK) then
    channel ← (if message_type =? MESSAGE_TYPE_RELIABLE_WITH_NACK
               then Channel.process_single_nack channel address socket_receive_buffer
               else Ret channel);
    '(r, accepted) ← Receiver.receive_packet (Channel.receiver channel) sequence socket_receive_buffer received_len;
    let channel := channel <| Channel.receiver := r |> in
    if (accepted : bool) then
      let channel := Channel.count ChannelStats.received 1 channel in
      Ret (channel, Reliable address (Channel.id channel))
    else Ret (channel, Retry)
  else Ret (channel, Error).

Definition receive_from_socket self (now : Z) (w : World) : outcome (Tachyon * World * ReceiveResult) :=
  '(sock, buffer, w, socket_result) ←
    TachyonSocket.receive (socket self) (socket_receive_buffer self)
      (TachyonConfig.drop_packet_chance (config self)) (TachyonConfig.drop_reliable_only (config self) =? 1) w;
  let self := self <| socket := sock |> <| socket_receive_buffer := buffer |> in
  match socket_result with
  | TachyonSocket.REmpty => Ret (self, w, Empty)
  | TachyonSocket.RError => Ret (self, w, Error)
  | TachyonSocket.RDropped =>
      let self := self <| stats := (stats self)
        <| TachyonStats.packets_dropped := as_u64 (TachyonStats.packets_dropped (stats self) + 1) |> |> in
      Ret (self, w, Retry)
  | TachyonSocket.RSuccess received_len address =>
      header ← Header.read (socket_receive_buffer self);
      '(self, w, decided) ← admit_datagram self header address now w;
      match decided with
      | Some res => Ret (self, w, res)
      | None =>
          if Header.message_type header =? MESSAGE_TYPE_UNRELIABLE then
            let self := self <| stats := (stats self)
              <| TachyonStats.unreliable_received := as_u64 (TachyonStats.unreliable_received (stats self) + 1) |> |> in
            Ret (self, w, UnReliable received_len address)
          else
            match channels self !! (address, Header.channel header) with
            | None => Ret (self, w, ChannelError)
            | Some channel =>
                '(channel, res) ← receive_on_channel channel header address (socket_receive_buffer self)
                                    received_len now;
                Ret (self <| channels := <[(address, Header.channel header) := channel]> (channels self) |>, w, res)
            end
      end
  end.

Fixpoint receive_loop_n (n : nat) self receive_buffer (now : Z) (w : World) :
    outcome (Tachyon * bytes * World * TachyonReceiveResult.TachyonReceiveResult) :=
  let result := TachyonReceiveResult.default in
  match n with
  | O =>
      '(self, receive_buffer, result) ← receive_published_all_channels self receive_buffer;
      Ret (self, receive_buffer, w, result)
  | S n' =>
      '(self, w, receive_result) ← receive_from_socket self now w;
      match receive_result with
      | Reliable socket_addr channel_id =>
          '(self, receive_buffer, published) ←
            receive_published_channel_id self receive_buffer socket_addr channel_id;
          if 0 <? published then
            Ret (self, receive_buffer, w,
                 result <| TachyonReceiveResult.channel := channel_id |>
                        <| TachyonReceiveResult.length := published |>
                        <| TachyonReceiveResult.address := socket_addr |>)
          else receive_loop_n n' self receive_buffer now w
      | UnReliable received_len socket_addr =>
          src ← slice (socket_receive_buffer self) 1 received_len;
          receive_buffer ← copy_from_slice receive_buffer 0 (usize_sub received_len 1) src;
          Ret (self, receive_buffer, w,
               result <| TachyonReceiveResult.length := as_u32 (usize_sub received_len 1) |>
                      <| TachyonReceiveResult.address := socket_addr |>)
      | Empty =>
          '(self, receive_buffer, result) ← receive_published_all_channels self receive_buffer;
          Ret (self, receive_buffer, w, result)
      | Retry => receive_loop_n n' self receive_buffer now w
      | Error => Ret (self, receive_buffer, w, result <| TachyonReceiveResult.error := RECEIVE_ERROR_UNKNOWN |>)
      | ChannelError =>
          Ret (self, receive_buffer, w, result <| TachyonReceiveResult.error := RECEIVE_ERROR_CHANNEL |>)
      end
  end.

Definition receive_loop self receive_buffer (now : Z) (w : World) :
    outcome (Tachyon * bytes * World * TachyonReceiveResult.TachyonReceiveResult) :=
  receive_loop_n 100 self receive_buffer now w.

(** ** Sending *)

Definition send_unreliable self address (data : bytes) (body_len : Z) (w : World) :
    outcome (Tachyon * World * TachyonSendResult.TachyonSendResult) :=
  if negb (can_send self)
  then Ret (self, w, TachyonSendResult.default <| TachyonSendResult.error := SEND_ERROR_IDENTITY |>) else
  match unreliable_sender self with
  | Some sender =>
      '(sender, w, result) ← UnreliableSender.send sender address data body_len w;
      let self := self <| unreliable_sender := Some sender |> in
      let self :=
        if TachyonSendResult.error result =? 0 then
          self <| stats := (stats self)
            <| TachyonStats.unreliable_sent := as_u64 (TachyonStats.unreliable_sent (stats self) + 1) |> |>
        else self in
      Ret (self, w, result)
  | None => Ret (self, w, TachyonSendResult.default <| TachyonSendResult.error := SEND_ERROR_UNKNOWN |>)
  end.

(** The loop that sends the fragments; the result is [false] when one is gone. *)
Fixpoint send_fragments (channel : Channel.Channel) address (sock : TachyonSocket.TachyonSocket)
    (frag_sequences : list Z) (fragment_bytes_sent : Z) (w : World) :
    outcome (Channel.Channel * World * Z * bool) :=
  match frag_sequences with
  | [] => Ret (channel, w, fragment_bytes_sent, true)
  | seq :: rest =>
      found ← SendBufferManager.get_send_buffer (Channel.send_buffers channel) seq;
      match found with
      | Some fragment =>
          let byte_buffer := SendBufferManager.byte_buffer fragment in
          '(w, sent) ← TachyonSocket.send_to sock address (ByteBuffer.data byte_buffer)
                         (ByteBuffer.length byte_buffer) w;
          let channel := Channel.count ChannelStats.bytes_sent sent channel in
          let channel := Channel.count ChannelStats.fragments_sent 1 channel in
          send_fragments channel address sock rest (as_u64 (fragment_bytes_sent + sent)) w
      | None => Ret (channel, w, fragment_bytes_sent, false)
      end
  end.

Definition send_reliable self (channel_id : Z) address (data : bytes) (body_len now : Z) (w : World) :
    outcome (Tachyon * World * TachyonSendResult.TachyonSendResult) :=
  let result := TachyonSendResult.default in
  let fail error := Ret (self, w, result <| TachyonSendResult.error := error |>) in
  if negb (can_send self) then fail SEND_ERROR_IDENTITY else
  if body_len =? 0 then fail SEND_ERROR_LENGTH else
  if channel_id =? 0 then fail SEND_ERROR_CHANNEL else
  if negb (opt_is_some (TachyonSocket.socket (socket self))) then fail SEND_ERROR_SOCKET else
  match channels self !! (address, channel_id) with
  | None => fail SEND_ERROR_CHANNEL
  | Some channel =>
      let put channel := self <| channels := <[(address, channel_id) := channel]> (channels self) |> in
      if Fragmentation.should_fragment body_len then
        '(f, sender, frag_sequences) ←
          Fragmentation.create_fragments (Channel.frag channel) (Channel.send_buffers channel)
            (Channel.id channel) data body_len now;
        let channel := channel <| Channel.frag := f |> <| Channel.send_buffers := sender |> in
        if len frag_sequences =? 0 then
          Ret (put channel, w, result <| TachyonSendResult.error := SEND_ERROR_FRAGMENT |>) else
        '(channel, w, fragment_bytes_sent, complete) ←
          send_fragments channel address (socket self) frag_sequences 0 w;
        if negb complete then
          Ret (put channel, w, result <| TachyonSendResult.error := SEND_ERROR_FRAGMENT |>) else
        let result := result <| TachyonSendResult.header :=
                        (TachyonSendResult.header result) <| Header.message_type := MESSAGE_TYPE_FRAGMENT |> |> in
        let result := result <| TachyonSendResult.sent_len := as_u32 fragment_bytes_sent |> in
        let channel := Channel.count ChannelStats.sent 1 channel in
        Ret (put channel, w, result)
      else
        '(channel, w, result) ← Channel.send_reliable channel address data body_len (socket self) now w;
        Ret (put channel, w, result)
  end.

Definition send_to_target self (channel : Z) (target : SendTarget.SendTarget) (data : bytes) (length now : Z)
    (w : World) : outcome (Tachyon * World * TachyonSendResult.TachyonSendResult) :=
  let send address :=
    if 0 <? channel then send_reliable self channel address data length now w
    else send_unreliable self address data length w in
  if 0 <? SendTarget.identity_id target then
    match identity_to_address_map self !! SendTarget.identity_id target with
    | Some addr => send addr
    | None => Ret (self, w, TachyonSendResult.default <| TachyonSendResult.error := SEND_ERROR_IDENTITY |>)
    end
  else send (SendTarget.address target).

End io.
End TachyonIo.
