(* ===== verification/channel_typed.v ===== *)
(** What holds of a channel whatever datagrams arrive.

    [channel_typed] extends the type of a receiver ([receiver_typed.v]) with the
    fragments that are being collected.  Every datagram that is at least as long
    as the header its type calls for keeps it and is received without a panic,
    and reading from such a channel does not panic when the application's buffer
    is large enough. *)

From S2P Require Import prelude sequence sequence_buffer network_address int_buffer header nack byte_buffer_pool.
From S2P Require Import send_buffer_manager receiver receiver_typed fragmentation send_result tachyon_socket.
From S2P Require Import unreliable_sender channel connection tachyon_state connection_impl tachyon.

Import Channel Fragmentation.

(** ** Datagrams *)

(** The length of the header that the rest of the program expects. *)
Definition header_size (message_type : Z) : Z :=
  if (message_type =? MESSAGE_TYPE_FRAGMENT) || (message_type =? MESSAGE_TYPE_RELIABLE_WITH_NACK) then 10
  else if message_type =? MESSAGE_TYPE_UNRELIABLE then 1 else 4.

(** A datagram of bytes that is not shorter than its header. *)
Definition well_sized (d : bytes) : Prop :=
  Forall (λ b, is_u8 b) d ∧ ∃ message_type rest, d = message_type :: rest ∧ header_size message_type ≤ len d.

Lemma well_sized_take d :
  well_sized d → 10 ≤ len d → well_sized (take 10 d).
Proof.
  intros (Hd & ty & rest & -> & Hs) Hl. split; [by apply Forall_take|]. exists ty, (take 9 rest). split; [done|].
  simpl in *. rewrite length_take. unfold header_size.
  repeat case_match; lia.
Qed.

Section reads.
Implicit Types (d : bytes) (h : Header.Header).

Lemma lor_u16 a b : is_u8 a → is_u16 b → is_u16 (Z.lor a b).
Proof.
  intros Ha Hb. split; [apply Z.lor_nonneg; lia|].
  destruct (decide (Z.lor a b = 0)) as [->|Hne]; [lia|]. apply (Z.log2_lt_pow2 _ 16).
  - pose proof (proj2 (Z.lor_nonneg a b) ltac:(lia)). lia.
  - rewrite Z.log2_lor by lia. apply Z.max_lub_lt.
    + apply (Z.le_lt_trans _ (Z.log2 255)); [apply Z.log2_le_mono; lia|done].
    + apply (Z.le_lt_trans _ (Z.log2 65535)); [apply Z.log2_le_mono; lia|done].
Qed.

Lemma read_u16_range d i r v :
  Forall (λ b, is_u8 b) d → IntBuffer.read_u16 i d = Ret (r, v) → is_u16 v.
Proof.
  intros Hd. unfold IntBuffer.read_u16. intros (b0 & H0 & H)%bind_Ret. apply bind_Ret in H as (b1 & H1 & H).
  injection H as _ <-. apply get_at_Ret in H0 as [_ H0]. apply lor_u16; [|apply as_u16_range].
  by eapply (Forall_lookup_1 _ _ _ _ Hd).
Qed.

Lemma read_sequence_range d h : Forall (λ b, is_u8 b) d → Header.read d = Ret h → is_u16 (Header.sequence h).
Proof.
  intros Hd. unfold Header.read. cbv zeta. intros ([r1 v1] & _ & H)%bind_Ret.
  apply bind_Ret in H as ([r2 v2] & _ & H). apply bind_Ret in H as ([r3 v3] & H3 & H). injection H as <-.
  by eapply read_u16_range.
Qed.

(** Reading the longer header succeeds and gives 16-bit numbers. *)
Lemma read_fragmented_range p more :
  Forall (λ b, is_u8 b) p → 10 ≤ len p →
  ∃ h, Header.read_fragmented (p ++ more) = Ret h ∧ is_u16 (Header.sequence h) ∧
    is_u16 (Header.fragment_start_sequence h) ∧ is_u16 (Header.fragment_count h).
Proof.
  intros Hp Hl. assert (∀ i r v, 0 ≤ i → i + 2 ≤ 10 → IntBuffer.read_u16 (IntBuffer.mk i) (p ++ more) = Ret (r, v) → is_u16 v)
    as Hread.
  { intros i r v Hi0 Hi (b0 & H0 & H)%bind_Ret. apply bind_Ret in H as (b1 & _ & H). injection H as _ <-.
    apply get_at_Ret in H0 as [_ H0]. cbn [IntBuffer.index] in H0. rewrite lookup_app_l in H0 by lia.
    apply lor_u16; [|apply as_u16_range]. by apply (Forall_lookup_1 _ _ _ _ Hp H0). }
  assert (10 ≤ len (p ++ more)) as Hlen by (rewrite length_app; lia).
  destruct (read_fragmented_returns _ Hlen) as [h Hh]. exists h. split; [done|].
  unfold Header.read_fragmented in Hh. cbv zeta in Hh.
  destruct (read_u8_returns (p ++ more) 0) as [v1 E1]; [lia|]. rewrite E1, bind_ret_l in Hh.
  destruct (read_u8_returns (p ++ more) (0 + 1)) as [v2 E2]; [lia|]. rewrite E2, bind_ret_l in Hh.
  do 4 (match type of Hh with
        | context [IntBuffer.read_u16 (IntBuffer.mk ?i) _] =>
            let v := fresh "v" in let E := fresh "E" in
            destruct (read_u16_returns (p ++ more) i) as [v E]; [lia..|]; rewrite E, bind_ret_l in Hh;
            apply Hread in E; [|lia..]
        end).
  injection Hh as <-. simpl. lia.
Qed.
End reads.

(** ** Fragments *)

(** Every fragment that is kept has its header and came in one datagram. *)
Definition fragment_typed (s : Z) (p : bytes) : Prop := is_u16 s ∧ 10 ≤ len p ≤ SOCKET_RECEIVE_BUFFER_LEN.

Definition frags_typed (f : Fragmentation) : Prop :=
  ∀ g map, received f !! g = Some map → map_Forall fragment_typed map.

(** The bytes of the fragments of a group behind their headers. *)
Definition body_size (map : gmap Z bytes) : Z := map_fold (λ _ p n, n + (len p - 10)) 0 map.

Section groups.
Implicit Types (map rest : gmap Z bytes) (s : Z) (p : bytes).

Lemma body_size_insert map s p : map !! s = None → body_size (<[s := p]> map) = body_size map + (len p - 10).
Proof. intros Hs. unfold body_size. rewrite map_fold_insert_L; [done|lia|done]. Qed.

Lemma body_size_delete map s p : map !! s = Some p → body_size map = body_size (delete s map) + (len p - 10).
Proof.
  intros Hs. rewrite <-(body_size_insert (delete s map) s p) by apply lookup_delete_eq.
  by rewrite insert_delete_id.
Qed.

Lemma body_size_bounds map :
  map_Forall fragment_typed map → 0 ≤ body_size map ≤ SOCKET_RECEIVE_BUFFER_LEN * Z.of_nat (size map).
Proof.
  induction map as [|s p map Hs IH] using map_ind; intros Hm; [done|].
  apply map_Forall_insert in Hm as [[_ Hp] Hm]; [|done].
  rewrite body_size_insert, map_size_insert_None by done. specialize (IH Hm). lia.
Qed.

Lemma get_group_length_typed map :
  map_Forall fragment_typed map → Z.of_nat (size map) < 65536 → get_group_length map = body_size map.
Proof.
  induction map as [|s p map Hs IH] using map_ind; intros Hm Hn; [done|].
  apply map_Forall_insert in Hm as [[_ Hp] Hm]; [|done]. rewrite map_size_insert_None in Hn by done.
  rewrite body_size_insert by done. unfold get_group_length. rewrite map_fold_insert_L; [|intros|done].
  - fold (get_group_length map). rewrite IH by (done || lia). pose proof (body_size_bounds map Hm) as Hb.
    unfold SOCKET_RECEIVE_BUFFER_LEN in *. unfold TACHYON_FRAGMENTED_HEADER_SIZE, as_u64.
    rewrite usize_sub_small, wrap_small by lia. done.
  - unfold as_u64, wrap. rewrite !Zplus_mod_idemp_l. f_equal. lia.
Qed.

(** The sequences that [assemble] looks up are different from each other. *)
Lemma iter_next_seq_of s (i : nat) :
  is_u16 s → (0 < i)%nat → Nat.iter i Sequence.next_sequence s = seq_of (Z.min s 65534 + Z.of_nat i).
Proof.
  intros Hs Hi. destruct i as [|i]; [lia|]. clear Hi. induction i as [|i IH].
  - change (Sequence.next_sequence s = seq_of (Z.min s 65534 + 1)).
    rewrite <-(seq_of_next (Z.min s 65534)), seq_of_small by (unfold valid_seq; lia).
    unfold Sequence.next_sequence, u16_max. destruct (Z.leb_spec (65535 - 1) s), (Z.leb_spec (65535 - 1) (Z.min s 65534)); lia.
  - rewrite Nat.iter_succ, IH, seq_of_next. f_equal. lia.
Qed.

Lemma iter_next_ne s (i : nat) :
  is_u16 s → 0 < Z.of_nat i < 65535 → Nat.iter i Sequence.next_sequence s ≠ s.
Proof.
  intros Hs Hi E. rewrite iter_next_seq_of in E by lia. destruct (decide (s = 65535)) as [->|Hne].
  - pose proof (seq_of_valid (Z.min 65535 65534 + Z.of_nat i)) as Hv. rewrite E in Hv. unfold valid_seq in Hv. lia.
  - rewrite Z.min_l in E by lia. rewrite <-(seq_of_small s) in E at 2 by (unfold valid_seq; lia).
    apply seq_of_inj in E; lia.
Qed.

(** [rest] holds the fragments that have not been copied yet. *)
Lemma assemble_loop_typed map (n : nat) : ∀ s offset buffer rest,
  is_u16 s → Z.of_nat n ≤ 65535 → map_Forall fragment_typed map → map_Forall fragment_typed rest →
  (∀ i, (i < n)%nat → map !! Nat.iter i Sequence.next_sequence s = rest !! Nat.iter i Sequence.next_sequence s) →
  0 ≤ offset → offset + body_size rest = len buffer → len buffer < 2 ^ 63 →
  ∃ res, assemble_loop map n s offset buffer = Ret res ∧ ∀ b, res = Some b → len b = len buffer.
Proof.
  induction n as [|n IH]; intros s offset buffer rest Hs Hn Hm Hrest Hsame Ho Hlen Hmax.
  { eexists. split; [done|]. by intros b [= ->]. }
  cbn [assemble_loop]. pose proof (Hsame 0%nat ltac:(lia)) as H0. simpl in H0.
  destruct (map !! s) as [p|] eqn:Ep; [|by exists None].
  pose proof (Hm s p Ep) as [_ Hp]. symmetry in H0. pose proof (body_size_delete rest s p H0) as Hb.
  pose proof (map_Forall_delete _ rest s Hrest) as Hrest'.
  pose proof (body_size_bounds _ Hrest') as Hpos. cbv zeta.
  unfold TACHYON_FRAGMENTED_HEADER_SIZE. rewrite usize_sub_small by (unfold SOCKET_RECEIVE_BUFFER_LEN in *; lia).
  rewrite slice_in_bounds, bind_ret_l by lia.
  assert (len (take (Z.to_nat (len p - 10)) (drop (Z.to_nat 10) p)) = len p - 10) as Hsrc
    by (rewrite length_take, length_drop; lia).
  rewrite copy_in_bounds, bind_ret_l by lia.
  destruct (IH (Sequence.next_sequence s) (offset + (len p - 10))
    (splice (Z.to_nat offset) (take (Z.to_nat (len p - 10)) (drop (Z.to_nat 10) p)) buffer) (delete s rest))
    as (res & Hrun & Hres); try done; rewrite ?length_splice by lia; try lia.
  - by apply next_sequence_u16.
  - intros i Hi. rewrite <-Nat.iter_succ_r, Hsame by lia. rewrite lookup_delete_ne; [done|].
    intros E. symmetry in E. by apply (iter_next_ne s (S i)) in E; [|done|lia].
  - exists res. split; [done|]. intros b Hb'. rewrite (Hres b Hb'). rewrite length_splice by lia. done.
Qed.
End groups.

Lemma assemble_typed f h :
  frags_typed f → is_u16 (Header.fragment_start_sequence h) → is_u16 (Header.fragment_count h) →
  ∃ f' res, assemble f h = Ret (f', res) ∧ (∀ g, received f' !! g = None ∨ received f' !! g = received f !! g) ∧
    ∀ m, res = ROk m → ∃ g map, received f !! g = Some map ∧ len m = body_size map.
Proof.
  intros Hf Hs Hc. unfold assemble. destruct (received f !! Header.fragment_group h) as [map|] eqn:Em.
  2:{ do 2 eexists. split; [done|]. split; [by right|by intros]. }
  destruct (Z.eqb_spec (Z.of_nat (size map)) (Header.fragment_count h)) as [Hn|]; cbn [negb].
  2:{ do 2 eexists. split; [done|]. split; [by right|by intros]. }
  pose proof (Hf _ _ Em) as Hm. pose proof (body_size_bounds map Hm) as Hb.
  rewrite get_group_length_typed by (done || lia). cbv zeta.
  assert (body_size map < 2 ^ 63 - 1) as Hmax by (unfold SOCKET_RECEIVE_BUFFER_LEN in Hb; lia).
  rewrite vec_zeroed_spec, bind_ret_l by (unfold isize_max; lia).
  destruct (assemble_loop_typed map (Z.to_nat (Header.fragment_count h)) (Header.fragment_start_sequence h) 0
    (replicate (Z.to_nat (body_size map)) 0) map) as (res & Hrun & Hres); try done;
    rewrite ?length_replicate; try lia.
  rewrite Hrun, bind_ret_l. rewrite length_replicate in Hres.
  assert (∀ g, received (f <| received := delete (Header.fragment_group h) (received f) |>) !! g = None ∨
    received (f <| received := delete (Header.fragment_group h) (received f) |>) !! g = received f !! g) as Hrec.
  { intros g. simpl. destruct (decide (g = Header.fragment_group h)) as [->|];
      [left; apply lookup_delete_eq|right; by rewrite lookup_delete_ne]. }
  destruct res as [m|]; do 2 eexists; (split; [done|]); (split; [exact Hrec|]); intros m' [= <-].
  exists (Header.fragment_group h), map. split; [done|]. rewrite (Hres m eq_refl). lia.
Qed.

Lemma frags_typed_kept f f' :
  (∀ g, received f' !! g = None ∨ received f' !! g = received f !! g) → frags_typed f → frags_typed f'.
Proof. intros Hr Hf g map Hm. destruct (Hr g) as [E|E]; rewrite E in Hm; [done|by apply (Hf g)]. Qed.

Lemma receive_fragment_typed f d more now :
  frags_typed f → Forall (λ b, is_u8 b) d → 10 ≤ len d ≤ SOCKET_RECEIVE_BUFFER_LEN →
  ∃ f' full, receive_fragment f (d ++ more) (len d) now = Ret (f', (true, full)) ∧ frags_typed f'.
Proof.
  intros Hf Hd Hl. destruct (read_fragmented_range d more Hd) as (h & Hread & Hs & _); [lia|].
  unfold receive_fragment. rewrite Hread, bind_ret_l. cbv zeta.
  set (g := Header.fragment_group h).
  set (f1 := match received f !! g with Some _ => f | None => _ end).
  assert (∃ map, received f1 !! g = Some map ∧ map_Forall fragment_typed map ∧ frags_typed f1) as (map & Eg & Hm & Hf1).
  { subst f1. destruct (received f !! g) as [map|] eqn:E; [exists map; split_and!; [done|by apply (Hf g)|done]|].
    exists ∅. simpl. rewrite lookup_insert_eq. split_and!; [done|apply map_Forall_empty|].
    intros g' map'. simpl. rewrite lookup_insert_Some. intros [[_ <-]|[_ ?]]; [apply map_Forall_empty|by apply (Hf g')]. }
  rewrite Eg. rewrite slice_prefix by (rewrite length_app; lia).
  rewrite bind_ret_l, Nat2Z.id, take_app_length.
  unfold SOCKET_RECEIVE_BUFFER_LEN in *. rewrite vec_zeroed_spec, bind_ret_l by (unfold isize_max; lia).
  rewrite copy_in_bounds, bind_ret_l by (rewrite ?length_replicate; lia).
  do 2 eexists. split; [done|]. intros g' map'. simpl. rewrite lookup_insert_Some. intros [[_ <-]|[_ ?]]; [|by apply (Hf1 g')].
  destruct (map !! Header.sequence h) as [p|]; [done|]. apply map_Forall_insert_2; [|done].
  split; [done|]. change (Z.to_nat 0) with 0%nat. rewrite length_splice by (rewrite length_replicate; lia).
  rewrite length_replicate. unfold SOCKET_RECEIVE_BUFFER_LEN. lia.
Qed.

(** ** Channels *)

Record channel_typed (c : Channel) : Prop := {
  ct_receiver : typed well_sized (receiver c);
  ct_frag : frags_typed (frag c)
}.

Lemma channel_typed_same c c' :
  receiver c' = receiver c → frag c' = frag c → channel_typed c → channel_typed c'.
Proof. intros Er Ef [? ?]. split; [by rewrite Er|by rewrite Ef]. Qed.

Lemma channel_typed_create id a cfg : channel_typed (Channel.create id a cfg).
Proof. split; [apply typed_create|]. intros g map. simpl. by rewrite lookup_empty. Qed.

Section receiving.
Context `{V : VarintOps}.
Implicit Types (c : Channel) (d more buffer : bytes) (header : Header.Header).

(** The receiver takes the front [p] of a buffer. *)
Lemma receive_front c seq p more :
  channel_typed c → is_u16 seq → well_sized p → len (p ++ more) ≤ isize_max →
  ∃ r accepted, Receiver.receive_packet (receiver c) seq (p ++ more) (len p) = Ret (r, accepted) ∧
    typed well_sized r.
Proof.
  intros Hc Hs Hp Hmax.
  apply receive_packet_typed; [apply Hc|done|rewrite length_app; lia|done|].
  by rewrite Nat2Z.id, take_app_length.
Qed.

Definition nacks_readable buffer : Prop := ∀ l, returns (Nack.read_varint l buffer TACHYON_HEADER_SIZE).

Lemma read_single_returns l buffer : 10 ≤ len buffer → returns (Nack.read_single l buffer TACHYON_HEADER_SIZE).
Proof.
  intros Hb. unfold Nack.read_single, TACHYON_HEADER_SIZE. cbv zeta.
  destruct (read_u16_returns buffer 4) as [v ->]; [lia..|]. rewrite bind_ret_l. cbv beta iota.
  destruct (_ =? 0); [by eexists|].
  destruct (read_u32_returns buffer (4 + 2)) as [fl ->]; [lia..|]. rewrite bind_ret_l. by eexists.
Qed.

Lemma process_fragment_typed c seq d more now :
  channel_typed c → is_u16 seq → well_sized d → 10 ≤ len d ≤ SOCKET_RECEIVE_BUFFER_LEN → len (d ++ more) ≤ isize_max →
  ∃ c', process_fragment_message c seq (d ++ more) (len d) now = Ret c' ∧ channel_typed c'.
Proof.
  intros Hc Hseq Hd Hl Hmax. unfold process_fragment_message.
  destruct (receive_fragment_typed (frag c) d more now (ct_frag _ Hc)) as (f & full & -> & Hf); [apply Hd|lia|].
  rewrite bind_ret_l. cbv beta iota zeta. cbn [fst].
  destruct (receive_front (c <| frag := f |>) seq (take 10 d) (drop 10 d ++ more))
    as (r & accepted & Hrec & Hr); [by split; [apply Hc|]|done|apply well_sized_take; [done|lia]| |].
  { by rewrite app_assoc, take_drop. }
  rewrite app_assoc, take_drop in Hrec. rewrite length_take_le in Hrec by lia.
  unfold TACHYON_FRAGMENTED_HEADER_SIZE. change (Z.of_nat 10) with 10 in Hrec. rewrite Hrec, bind_ret_l.
  eexists. split; [done|]. destruct accepted; split; (exact Hr || exact Hf).
Qed.

Lemma receive_on_channel_typed c header a d more now :
  channel_typed c → well_sized d → len d ≤ SOCKET_RECEIVE_BUFFER_LEN → len (d ++ more) ≤ isize_max →
  Header.read (d ++ more) = Ret header → is_u16 (Header.sequence header) →
  (Header.message_type header = MESSAGE_TYPE_NACK → nacks_readable (d ++ more)) →
  ∃ c' res, TachyonIo.receive_on_channel c header a (d ++ more) (len d) now = Ret (c', res) ∧ channel_typed c'.
Proof.
  intros Hc Hd Hlen Hmax Hread Hseq Hnack.
  assert (header_size (Header.message_type header) ≤ len d) as Hsize.
  { destruct Hd as (_ & ty & rest & -> & Hs). by rewrite (read_message_type _ _ _ Hread). }
  unfold TachyonIo.receive_on_channel. cbv zeta. set (c1 := count _ _ c).
  assert (channel_typed c1) as Hc1 by by apply (channel_typed_same c). clearbody c1. clear c Hc.
  destruct (Z.eqb_spec (Header.message_type header) MESSAGE_TYPE_NONE) as [Ety|_].
  { unfold process_none_message. set (c2 := count _ _ c1). change (receiver c2) with (receiver c1).
    destruct (receive_front c1 (Header.sequence header) d more Hc1 Hseq Hd Hmax) as (r & accepted & -> & Hr).
    rewrite !bind_ret_l. do 2 eexists. split; [done|].
    destruct accepted; split; (exact Hr || apply Hc1). }
  destruct (Z.eqb_spec (Header.message_type header) MESSAGE_TYPE_NACK) as [Ety|_].
  { unfold process_nack_message. cbv zeta. destruct (Hnack Ety []) as [l Hl]. cbn [nacked_sequences set]. rewrite Hl.
    rewrite !bind_ret_l. do 2 eexists. split; [done|]. by apply (channel_typed_same c1). }
  destruct (Z.eqb_spec (Header.message_type header) MESSAGE_TYPE_FRAGMENT) as [Ety|_].
  { rewrite Ety in Hsize. change (10 ≤ len d) in Hsize.
    destruct (process_fragment_typed c1 (Header.sequence header) d more now) as (c2 & -> & Hc2);
      [done|done|done|lia|done|].
    by do 2 eexists. }
  destruct (_ || _) eqn:Erel; [|by do 2 eexists].
  assert (∃ c2, (if Header.message_type header =? MESSAGE_TYPE_RELIABLE_WITH_NACK
      then process_single_nack c1 a (d ++ more) else Ret c1) = Ret c2 ∧ channel_typed c2) as (c2 & -> & Hc2).
  { destruct (Z.eqb_spec (Header.message_type header) MESSAGE_TYPE_RELIABLE_WITH_NACK) as [Ety|_]; [|by exists c1].
    rewrite Ety in Hsize. change (10 ≤ len d) in Hsize. unfold process_single_nack. cbv zeta.
    destruct (read_single_returns [] (d ++ more)) as [l Hl]; [rewrite length_app; lia|].
    cbn [nacked_sequences set]. rewrite Hl, bind_ret_l. eexists. split; [done|]. by apply (channel_typed_same c1). }
  rewrite bind_ret_l.
  destruct (receive_front c2 (Header.sequence header) d more Hc2 Hseq Hd Hmax) as (r & accepted & -> & Hr).
  rewrite bind_ret_l. cbv beta iota zeta. destruct accepted; do 2 eexists; (split; [done|]); split;
    (exact Hr || apply Hc2).
Qed.

(** Only a nack message that cannot be decoded panics. *)
Lemma receive_on_channel_survives `{!Varint V} c header a d more now :
  channel_typed c → well_sized d → len d ≤ SOCKET_RECEIVE_BUFFER_LEN → len (d ++ more) ≤ isize_max →
  Header.read (d ++ more) = Ret header → is_u16 (Header.sequence header) →
  match TachyonIo.receive_on_channel c header a (d ++ more) (len d) now with
  | Ret (c', _) => channel_typed c'
  | Panic _ => Header.message_type header = MESSAGE_TYPE_NACK ∧ nack_message_readable (drop 4 (d ++ more)) = false
  end.
Proof.
  intros Hc Hd Hlen Hmax Hread Hseq.
  destruct (decide (Header.message_type header = MESSAGE_TYPE_NACK ∧ nack_message_readable (drop 4 (d ++ more)) = false))
    as [[Ety Hbad]|Hgood].
  - unfold TachyonIo.receive_on_channel. cbv zeta. rewrite Ety. cbn [Z.eqb MESSAGE_TYPE_NACK MESSAGE_TYPE_NONE Pos.eqb].
    unfold process_nack_message. cbv zeta.
    pose proof (read_varint_total [] (d ++ more) TACHYON_HEADER_SIZE ltac:(done)) as Hr.
    change (Z.to_nat TACHYON_HEADER_SIZE) with 4%nat in Hr. rewrite Hbad in Hr. destruct Hr as [why Hr].
    cbn [nacked_sequences set]. rewrite Hr. done.
  - destruct (receive_on_channel_typed c header a d more now Hc Hd Hlen Hmax Hread Hseq) as (c' & res & -> & Hc'); [|done].
    intros Ety l. pose proof (read_varint_total l (d ++ more) TACHYON_HEADER_SIZE ltac:(done)) as Hr.
    change (Z.to_nat TACHYON_HEADER_SIZE) with 4%nat in Hr.
    destruct (nack_message_readable (drop 4 (d ++ more))); [done|by destruct Hgood].
Qed.
End receiving.

(** ** Reading *)

(** Everything that is published or collected fits the application's buffer. *)
Record fits (c : Channel) (rb : bytes) : Prop := {
  ft_max : len rb ≤ isize_max;
  ft_published : Forall (λ b, ByteBuffer.length b ≤ len rb) (Receiver.published (receiver c));
  ft_groups g map : received (frag c) !! g = Some map → body_size map ≤ len rb
}.

Lemma fits_length c rb rb' : length rb' = length rb → fits c rb → fits c rb'.
Proof. intros E [? ? ?]. by split; rewrite ?E. Qed.

(** What is left when buffer [b] has been read from [c]. *)
Record read_from (c c' : Channel) : Prop := {
  left_typed : channel_typed c';
  left_published : ∃ b, Receiver.published (receiver c) = b :: Receiver.published (receiver c');
  left_groups g : received (frag c') !! g = None ∨ received (frag c') !! g = received (frag c) !! g
}.

Lemma fits_read c c' rb : read_from c c' → fits c rb → fits c' rb.
Proof.
  intros [_ [b Hb] Hg] [Hmax Hp Hgr]. split; [done| |].
  - rewrite Hb in Hp. by apply Forall_cons in Hp as [_ Hp].
  - intros g map Hm. destruct (Hg g) as [E|E]; rewrite E in Hm; [done|by apply (Hgr g)].
Qed.

(** Giving the buffer back, counting, and the fragments that are left. *)
Lemma read_from_intro c b rest c' :
  channel_typed c → Receiver.published (receiver c) = b :: rest →
  (receiver c' = (receiver c) <| Receiver.published := rest |> ∨
   receiver c' = Receiver.return_buffer ((receiver c) <| Receiver.published := rest |>) b) →
  (∀ g, received (frag c') !! g = None ∨ received (frag c') !! g = received (frag c) !! g) →
  read_from c c'.
Proof.
  intros [Hr Hf] Hp Hc' Hg. destruct (take_published_typed _ _ Hr) as [Hr1 Hb]. unfold Receiver.take_published in Hr1, Hb.
  rewrite Hp in Hr1, Hb. simpl in Hr1, Hb.
  split; [split; [|by eapply frags_typed_kept]| |done].
  - destruct Hc' as [-> | ->]; [done|]. apply return_buffer_typed; [done|by apply Hb].
  - exists b. rewrite Hp. by destruct Hc' as [-> | ->].
Qed.

Section reading.
Implicit Types (c : Channel) (rb : bytes).

(** A filled buffer is its packet, which starts with the message type. *)
Lemma packet_typed_spec b :
  packet_typed well_sized b →
  ∃ ty p more, ByteBuffer.data b = (ty :: p) ++ more ∧ ByteBuffer.length b = len (ty :: p) ∧
    Forall (λ b, is_u8 b) (ty :: p) ∧ header_size ty ≤ len (ty :: p).
Proof.
  intros [Hb (Hu & ty & p & Hp & Hs)].
  apply buffer_ok_length in Hb; [|unfold BYTE_BUFFER_SIZE_DEFAULT; lia].
  exists ty, p, (drop (Z.to_nat (ByteBuffer.length b)) (ByteBuffer.data b)).
  rewrite Hp in *. split_and!; [by rewrite <-Hp, take_drop| |done|done].
  rewrite <-Hp, length_take. lia.
Qed.

(** The body behind a header of [size] bytes. *)
Lemma copy_body rb p more size :
  4 ≤ size ≤ len p → len p ≤ len rb → len rb ≤ isize_max →
  ∃ src, slice (p ++ more) size (len p) = Ret src ∧
    copy_from_slice rb 0 (usize_sub (len p) size) src = Ret (splice 0 src rb) ∧
    length (splice 0 src rb) = length rb.
Proof.
  intros Hs Hrb Hmax. unfold isize_max in Hmax. rewrite slice_in_bounds by (rewrite ?length_app; lia).
  eexists. split; [done|].
  assert (len (take (Z.to_nat (len p - size)) (drop (Z.to_nat size) (p ++ more))) = len p - size) as Hl.
  { rewrite length_take, length_drop, length_app. lia. }
  rewrite usize_sub_small by lia. rewrite copy_in_bounds by lia. split; [done|]. rewrite length_splice; [done|lia].
Qed.

Lemma internal_typed c rb :
  channel_typed c → fits c rb →
  ∃ c' rb' n retry, receive_published_internal c rb = Ret (c', rb', (n, address c, retry)) ∧
    length rb' = length rb ∧ address c' = address c ∧ (read_from c c' ∨ retry = false ∧ c' = c ∧ n = 0).
Proof.
  intros Hc Hfits. unfold receive_published_internal, Receiver.take_published.
  destruct (Receiver.published (receiver c)) as [|b rest] eqn:Ep.
  { do 4 eexists. split; [done|]. split; [done|]. split; [done|]. right. by destruct c. }
  pose proof (take_published_typed _ _ (ct_receiver _ Hc)) as [_ Hb]. unfold Receiver.take_published in Hb.
  rewrite Ep in Hb. specialize (Hb b eq_refl). destruct (packet_typed_spec b Hb) as (ty & p & more & Hd & Hl & Hu & Hs).
  pose proof (ft_published _ _ Hfits) as Hpub. rewrite Ep in Hpub. apply Forall_cons in Hpub as [Hlen _].
  rewrite Hl in Hlen. pose proof (ft_max _ _ Hfits) as Hmax.
  assert (IntBuffer.read_u8 (IntBuffer.mk 0) (ByteBuffer.data b) = Ret (IntBuffer.mk 1, ty)) as Hty by by rewrite Hd.
  rewrite Hty, bind_ret_l. cbv beta iota zeta.
  pose proof (λ c', read_from_intro c b rest c' Hc Ep) as Hleft.
  destruct (Z.eqb_spec ty MESSAGE_TYPE_NONE) as [->|_].
  { do 4 eexists. split; [done|]. split; [done|]. split; [done|]. left. apply Hleft; [by right|by right]. }
  destruct (Z.eqb_spec ty MESSAGE_TYPE_FRAGMENT) as [->|_].
  { destruct (read_fragmented_range (MESSAGE_TYPE_FRAGMENT :: p) more Hu Hs) as (h & Hread & _ & Hst & Hcnt).
    rewrite Hd, Hread, bind_ret_l. cbn [frag set].
    destruct (assemble_typed (frag c) h (ct_frag _ Hc) Hst Hcnt) as (f & res & -> & Hf & Hres). rewrite bind_ret_l.
    cbv beta iota zeta. destruct res as [m|e].
    - destruct (Hres m eq_refl) as (g & map & Hg & Hm). pose proof (ft_groups _ _ Hfits g map Hg).
      rewrite copy_in_bounds, bind_ret_l by lia. do 4 eexists. split; [done|].
      split; [rewrite length_splice; [done|lia]|]. split; [done|]. left. apply Hleft; [by left|exact Hf].
    - do 4 eexists. split; [done|]. split; [done|]. split; [done|]. left. apply Hleft; [by right|exact Hf]. }
  set (size := if ty =? MESSAGE_TYPE_RELIABLE_WITH_NACK then Some _ else _).
  assert (match size with None => True | Some n => 4 ≤ n ≤ len (ty :: p) end) as Hsize.
  { unfold size, header_size, TACHYON_NACKED_HEADER_SIZE, TACHYON_HEADER_SIZE in *.
    destruct (Z.eqb_spec ty MESSAGE_TYPE_RELIABLE_WITH_NACK) as [->|]; [simpl in *; lia|].
    by destruct (Z.eqb_spec ty MESSAGE_TYPE_RELIABLE) as [->|]; [simpl in *; lia|]. }
  destruct size as [n|].
  - destruct (copy_body rb (ty :: p) more n Hsize Hlen Hmax) as (src & Hsrc & Hcopy & Hl').
    rewrite Hd, Hl, Hsrc, bind_ret_l, Hcopy, bind_ret_l. do 4 eexists. split; [done|]. split; [done|].
    split; [done|]. left. apply Hleft; [by right|by right].
  - do 4 eexists. split; [done|]. split; [done|]. split; [done|]. left. apply Hleft; [by left|by right].
Qed.

Lemma receive_published_loop_typed n : ∀ c rb,
  channel_typed c → fits c rb →
  ∃ c' rb' l, receive_published_loop n c rb = Ret (c', rb', (l, address c)) ∧
    length rb' = length rb ∧ channel_typed c' ∧ fits c' rb'.
Proof.
  induction n as [|n IH]; intros c rb Hc Hfits; [by do 3 eexists|]. cbn [receive_published_loop].
  destruct (internal_typed c rb Hc Hfits) as (c1 & rb1 & l & retry & -> & Hl & Ha & Hor). rewrite bind_ret_l.
  cbv beta iota zeta.
  assert (channel_typed c1 ∧ fits c1 rb1) as [Hc1 Hfits1].
  { destruct Hor as [Hleft|(_ & -> & _)]; (split; [|eapply fits_length; [exact Hl|]]); try done;
      [apply Hleft|by eapply fits_read]. }
  destruct (0 <? l); [by do 3 eexists|]. destruct retry; cbn [negb]; [|rewrite Ha; by do 3 eexists].
  destruct (IH c1 rb1 Hc1 Hfits1) as (c2 & rb2 & l2 & Hrun & Hl2 & Hc2 & Hfits2).
  exists c2, rb2, l2. rewrite Hrun, Ha. split_and!; [done|congruence|done|done].
Qed.
End reading.
