(* ===== verification/connection_invariants.v ===== *)
(** Which peers a server is connected to, and under which identity.

    The operations of [connection_impl.v] over whole histories of a server: who
    is linked holds the session that is set for its identity, no identity is
    linked twice, and channels belong to connections. *)

From S2P Require Import prelude network_address int_buffer header send_result tachyon_socket unreliable_sender.
From S2P Require Import receiver channel connection tachyon_state connection_impl.

Import NetworkAddress Tachyon ConnectionImpl.

Section invariants.
Context `{Callbacks} `{HashIter} `{!HashIterLaws _}.
Implicit Types (t : Tachyon) (a : NetworkAddress) (w : World) (id session : Z).

(** ** Removal *)

(** [t'] is [t] without the connections and configured channels of [addrs]. *)
Record removed (addrs : list NetworkAddress) (t t' : Tachyon) : Prop := {
  rm_connections a : connections t' !! a = if decide (a ∈ addrs) then None else connections t !! a;
  rm_channels a ch : channels t' !! (a, ch) =
    if decide (a ∈ addrs ∧ is_Some (channel_config t !! ch)) then None else channels t !! (a, ch);
  rm_rest : identities t' = identities t ∧ identity_to_address_map t' = identity_to_address_map t ∧
    channel_config t' = channel_config t ∧ socket t' = socket t ∧ config t' = config t
}.

Lemma removed_nil t : removed [] t t.
Proof. split; intros; try done; by rewrite decide_False by (rewrite elem_of_nil; naive_solver). Qed.

Lemma foldl_delete_lookup {A} (l : list (Z * A)) (m : gmap (NetworkAddress * Z) Channel.Channel) a a' ch :
  foldl (λ m entry, delete (a, entry.1) m) m l !! (a', ch) =
    if decide (a' = a ∧ ch ∈ l.*1) then None else m !! (a', ch).
Proof.
  revert m. induction l as [|[k x] l IH]; intros m; cbn [foldl fmap list_fmap fst].
  { rewrite decide_False; [done|]. rewrite elem_of_nil. naive_solver. }
  rewrite IH, lookup_delete. repeat case_decide; set_solver.
Qed.

Lemma remove_connection_spec t a w :
  removed [a] t (remove_connection t a w).1.
Proof.
  unfold remove_connection, remove_configured_channels. split; try done.
  - intros a'. simpl. rewrite lookup_delete. repeat case_decide; set_solver.
  - intros a' ch. cbn [channels set fst channel_config]. rewrite foldl_delete_lookup.
    assert (ch ∈ (hash_iter (channel_config t)).*1 ↔ is_Some (channel_config t !! ch)) as Hch.
    { rewrite list_elem_of_fmap. setoid_rewrite hash_iter_perm. split.
      - intros ([k c] & -> & Hk%elem_of_map_to_list). by eexists.
      - intros [c Hc]. exists (ch, c). by rewrite elem_of_map_to_list. }
    destruct (decide (a' = a ∧ _)) as [Hd|Hd], (decide (a' ∈ [a] ∧ _)) as [Hd'|Hd']; try done;
      rewrite Hch in Hd; set_solver.
Qed.

Lemma removed_trans l1 l2 t1 t2 t3 : removed l1 t1 t2 → removed l2 t2 t3 → removed (l1 ++ l2) t1 t3.
Proof.
  intros [Hc1 Hh1 (? & ? & Ecfg & ? & ?)] [Hc2 Hh2 (? & ? & ? & ? & ?)]. split.
  - intros a. rewrite Hc2, Hc1. repeat case_decide; set_solver.
  - intros a ch. rewrite Hh2, Hh1, Ecfg.
    repeat case_decide; try done; rewrite ?elem_of_app in *; naive_solver.
  - split_and!; congruence.
Qed.

Lemma remove_connections_spec addrs : ∀ t w,
  removed addrs t (foldl (λ st addr, remove_connection st.1 addr st.2) (t, w) addrs).1.
Proof.
  induction addrs as [|a addrs IH]; intros t w; [apply removed_nil|]. cbn [foldl fst snd].
  pose proof (remove_connection_spec t a w) as Hone. destruct (remove_connection t a w) as [t1 w1].
  apply (removed_trans [a] addrs t t1); [done|apply IH].
Qed.

(** ** The invariant *)

Record server_ok t : Prop := {
  (** a connection is filed under its address *)
  ok_address a conn : connections t !! a = Some conn → Connection.address conn = a;
  (** who is linked holds the session of the identity *)
  ok_session a conn : connections t !! a = Some conn → Identity.id (Connection.identity conn) ≠ 0 →
    identities t !! Identity.id (Connection.identity conn) = Some (Identity.session_id (Connection.identity conn));
  (** no identity is linked at two addresses *)
  ok_unique a a' conn conn' : connections t !! a = Some conn → connections t !! a' = Some conn' →
    Identity.id (Connection.identity conn) ≠ 0 →
    Identity.id (Connection.identity conn) = Identity.id (Connection.identity conn') → a = a';
  (** a linked identity is found at its address *)
  ok_found a conn : connections t !! a = Some conn → Identity.id (Connection.identity conn) ≠ 0 →
    identity_to_address_map t !! Identity.id (Connection.identity conn) = Some a;
  (** channels are configured ones of connections *)
  ok_channels a ch : is_Some (channels t !! (a, ch)) →
    is_Some (connections t !! a) ∧ is_Some (channel_config t !! ch)
}.

Lemma server_ok_removed addrs t t' : removed addrs t t' → server_ok t → server_ok t'.
Proof.
  intros [Hc Hh (Ei & Em & Ecfg & _ & _)] [K1 K2 K3 K4 K5].
  assert (∀ a conn, connections t' !! a = Some conn → connections t !! a = Some conn) as Hsub.
  { intros a conn. rewrite Hc. by case_decide. }
  split; rewrite ?Ei, ?Em, ?Ecfg.
  - intros a conn Ha%Hsub. by apply K1.
  - intros a conn Ha%Hsub. by apply (K2 a).
  - intros a a' conn conn' Ha%Hsub Ha'%Hsub. by apply K3.
  - intros a conn Ha%Hsub. by apply K4.
  - intros a ch. rewrite Hh, Hc. case_decide as Hd; [by intros [? ?]|].
    intros [Hconn Hcfg]%K5. split; [|done]. rewrite decide_False; [done|]. naive_solver.
Qed.

Lemma remove_by_identity_spec t id w :
  server_ok t → ∃ addrs, removed addrs t (remove_connection_by_identity t id w).1 ∧
    ∀ a, a ∈ addrs ↔ ∃ conn, connections t !! a = Some conn ∧ Identity.id (Connection.identity conn) = id.
Proof.
  intros Hok. unfold remove_connection_by_identity. eexists. split; [apply remove_connections_spec|].
  intros a. rewrite list_elem_of_omap. setoid_rewrite hash_iter_perm. split.
  - intros ([k conn] & Hk%elem_of_map_to_list & Ha). simpl in Ha.
    destruct (Z.eqb_spec (Identity.id (Connection.identity conn)) id); [|done]. injection Ha as <-.
    exists conn. by rewrite (ok_address t Hok _ _ Hk).
  - intros (conn & Ha & Hid). exists (a, conn). rewrite elem_of_map_to_list. split; [done|]. simpl.
    destruct (Z.eqb_spec (Identity.id (Connection.identity conn)) id); [|done].
    by rewrite (ok_address t Hok _ _ Ha).
Qed.

(** ** Creation *)

Lemma foldl_create_lookup a (l : list (Z * ChannelConfig.ChannelConfig))
    (m : gmap (NetworkAddress * Z) Channel.Channel) a' ch :
  foldl (λ m entry, match m !! (a, entry.1) with
                    | Some _ => m
                    | None => <[(a, entry.1) := Channel.create entry.1 a entry.2]> m
                    end) m l !! (a', ch) =
    match m !! (a', ch) with
    | Some c => Some c
    | None => if decide (a' = a) then Channel.create ch a <$> (list_to_map l : gmap Z _) !! ch else None
    end.
Proof.
  revert m. induction l as [|[k c] l IH]; intros m; cbn [foldl fst snd list_to_map foldr].
  { rewrite lookup_empty. case_decide; by destruct (m !! (a', ch)). }
  rewrite IH. destruct (decide (a' = a)) as [->|Hne].
  - destruct (decide (ch = k)) as [->|Hk].
    + rewrite lookup_insert_eq. destruct (m !! (a, k)) eqn:E; [by rewrite E|]. by rewrite lookup_insert_eq.
    + rewrite (lookup_insert_ne _ k ch) by done.
      destruct (m !! (a, k)); [done|]. by rewrite lookup_insert_ne by congruence.
  - destruct (m !! (a, k)); [done|]. by rewrite lookup_insert_ne by congruence.
Qed.

Lemma create_configured_spec t a a' ch :
  channels (create_configured_channels t a) !! (a', ch) =
    match channels t !! (a', ch) with
    | Some c => Some c
    | None => if decide (a' = a) then Channel.create ch a <$> channel_config t !! ch else None
    end.
Proof.
  unfold create_configured_channels. cbn [channels set]. rewrite foldl_create_lookup.
  assert (list_to_map (hash_iter (channel_config t)) = channel_config t) as ->; [|done].
  rewrite <-(list_to_map_to_list (channel_config t)) at 2. apply list_to_map_proper; [|apply hash_iter_perm].
  rewrite hash_iter_perm. apply NoDup_fst_map_to_list.
Qed.

(** A connection is made for an identity that is not linked elsewhere. *)
Lemma create_connection_ok t a identity now w :
  server_ok t →
  (Identity.id identity ≠ 0 → identities t !! Identity.id identity = Some (Identity.session_id identity) ∧
    ∀ a' conn, connections t !! a' = Some conn → Identity.id (Connection.identity conn) ≠ Identity.id identity) →
  let t' := (create_connection t a identity now w).1 in
  server_ok (t' <| identity_to_address_map :=
    if Identity.id identity =? 0 then identity_to_address_map t
    else <[Identity.id identity := a]> (identity_to_address_map t) |>).
Proof.
  intros [K1 K2 K3 K4 K5] Hid t'. unfold t', create_connection. cbv zeta.
  set (conn0 := _ <| Connection.received_at := _ |>).
  assert (∀ a' conn, <[a := conn0]> (connections t) !! a' = Some conn →
    (a' = a ∧ conn = conn0) ∨ (a' ≠ a ∧ connections t !! a' = Some conn)) as Hcases.
  { intros a' conn [[-> ->]|[? ?]]%lookup_insert_Some; [by left|right]. by split. }
  set (t1 := t <| connections := <[a := conn0]> (connections t) |>). set (t2 := create_configured_channels t1 a).
  assert (connections t2 = <[a := conn0]> (connections t)) as Ec by done.
  assert (identities t2 = identities t) as Ei by done.
  assert (channel_config t2 = channel_config t) as Ecfg by done.
  assert (channels t2 = channels (create_configured_channels t1 a)) as Eh by done. clearbody t2.
  split; cbn [fst connections identities identity_to_address_map channels channel_config set];
    rewrite ?Ec, ?Ei, ?Ecfg, ?Eh.
  - intros a' conn [[-> ->]|[_ Ha]]%Hcases; [done|by apply K1].
  - intros a' conn [[-> ->]|[_ Ha]]%Hcases; [by apply Hid|by apply (K2 a')].
  - intros a1 a2 conn1 conn2 [[-> ->]|[Hn1 Ha1]]%Hcases [[-> ->]|[Hn2 Ha2]]%Hcases Hne E; [done|..|by eapply K3].
    + destruct (Hid Hne) as [_ Hother]. by destruct (Hother _ _ Ha2).
    + rewrite E in Hne. destruct (Hid Hne) as [_ Hother]. by destruct (Hother _ _ Ha1).
  - intros a' conn [[-> ->]|[Hn Ha]]%Hcases Hne.
    + change (Connection.identity conn0) with identity in *.
      destruct (Z.eqb_spec (Identity.id identity) 0); [done|]. apply lookup_insert_eq.
    + destruct (Z.eqb_spec (Identity.id identity) 0) as [E0|E0]; [by apply K4|].
      destruct (Hid E0) as [_ Hother]. rewrite lookup_insert_ne by (symmetry; by eapply Hother). by apply K4.
  - intros a' ch. rewrite create_configured_spec. change (channels t1) with (channels t).
    change (channel_config t1) with (channel_config t).
    destruct (channels t !! (a', ch)) eqn:Ech.
    + intros _. destruct (K5 a' ch) as [Hconn Hcfg]; [by eexists|]. split; [|done].
      destruct (decide (a' = a)) as [->|]; [by rewrite lookup_insert_eq|by rewrite lookup_insert_ne].
    + case_decide; [|by intros [? ?]]. subst a'. intros [c Hc]. rewrite lookup_insert_eq. split; [done|].
      by destruct (channel_config t !! ch).
Qed.

(** ** The operations *)

(** Records that differ in what the invariant does not speak of. *)
Lemma server_ok_ext t t' :
  (∀ a conn', connections t' !! a = Some conn' → ∃ conn, connections t !! a = Some conn ∧
     Connection.address conn' = Connection.address conn ∧ Connection.identity conn' = Connection.identity conn) →
  (∀ a, is_Some (connections t !! a) → is_Some (connections t' !! a)) →
  identities t' = identities t →
  (∀ i, i ≠ 0 → identity_to_address_map t' !! i = identity_to_address_map t !! i) →
  channels t' = channels t →
  (∀ ch, is_Some (channel_config t !! ch) → is_Some (channel_config t' !! ch)) →
  server_ok t → server_ok t'.
Proof.
  intros Hconn Hdom Ei Em Ech Hcfg [K1 K2 K3 K4 K5]. split; rewrite ?Ei, ?Ech.
  - intros a conn' (conn & Ha & -> & _)%Hconn. by apply K1.
  - intros a conn' (conn & Ha & _ & ->)%Hconn. by apply (K2 a).
  - intros a1 a2 c1 c2 (d1 & Ha1 & _ & ->)%Hconn (d2 & Ha2 & _ & ->)%Hconn. by apply K3.
  - intros a conn' (conn & Ha & _ & ->)%Hconn Hne. rewrite Em by done. by apply K4.
  - intros a ch [Hc Hcf]%K5. auto.
Qed.

Lemma touch_connection_ok t a conn r :
  server_ok t → connections t !! a = Some conn →
  server_ok (t <| connections := <[a := conn <| Connection.received_at := r |>]> (connections t) |>).
Proof.
  intros Hok Ha. eapply server_ok_ext, Hok; try done; cbn [connections set].
  - intros a' conn' [[-> <-]|[Hne Ha']]%lookup_insert_Some; [by exists conn|by exists conn'].
  - intros a' Hs. destruct (decide (a' = a)) as [->|]; [by rewrite lookup_insert_eq|by rewrite lookup_insert_ne].
Qed.

Lemma send_identity_returns t ty a w :
  is_u8 ty → ∃ w', send_identity_message t ty 0 0 a w = Ret w'.
Proof.
  intros Hty. unfold send_identity_message. cbv zeta.
  rewrite connection_write_spec; [|unfold ConnectionHeader.wf; simpl; lia|simpl; lia].
  rewrite bind_ret_l, send_to_spec, bind_ret_l; [by eexists|].
  split; [lia|]. lia.
Qed.

Lemma set_identity_ok t id session w : server_ok t → server_ok (set_identity t id session w).1.
Proof.
  intros Hok. destruct (remove_by_identity_spec t id w Hok) as (addrs & Hrm & Haddrs).
  unfold set_identity. destruct (remove_connection_by_identity t id w) as [t1 w1]. simpl in Hrm.
  pose proof (server_ok_removed _ _ _ Hrm Hok) as [K1 K2 K3 K4 K5].
  assert (∀ a conn, connections t1 !! a = Some conn → Identity.id (Connection.identity conn) ≠ id) as Hne.
  { intros a conn. rewrite (rm_connections _ _ _ Hrm). case_decide as Hin; [done|]. intros Ha E.
    apply Hin, Haddrs. by exists conn. }
  destruct (session =? 0); split; cbn [fst connections identities identity_to_address_map channels channel_config set];
    try done; intros a conn Ha Hid; pose proof (Hne a conn Ha).
  - rewrite lookup_delete_ne by done. by apply (K2 a).
  - rewrite lookup_insert_ne by done. by apply (K2 a).
Qed.

Lemma try_link_ok t a id session now w :
  server_ok t → ∃ t' w' linked, try_link_identity t a id session now w = Ret (t', w', linked) ∧ server_ok t'.
Proof.
  intros Hok. unfold try_link_identity. destruct (identities t !! id) as [current|] eqn:Eid; [|by do 3 eexists].
  destruct (Z.eqb_spec session current) as [->|]; [|by do 3 eexists]. cbn [negb].
  destruct (_ && _); [by do 3 eexists|].
  destruct (remove_by_identity_spec t id w Hok) as (addrs & Hrm & Haddrs).
  destruct (remove_connection_by_identity t id w) as [t1 w1]. cbn [fst] in Hrm.
  pose proof (server_ok_removed _ _ _ Hrm Hok) as Hok1.
  pose proof (create_connection_ok t1 a (Identity.mk id current 0) now w1 Hok1) as Hok2. cbv zeta in Hok2.
  destruct (create_connection t1 a (Identity.mk id current 0) now w1) as [t2 w2] eqn:Et2. cbn [fst] in Hok2.
  assert (identity_to_address_map t2 = identity_to_address_map t1) as Em.
  { unfold create_connection in Et2. by injection Et2 as <- _. }
  set (t3 := t2 <| identity_to_address_map := <[id := a]> (identity_to_address_map t2) |>).
  destruct (send_identity_returns t3 MESSAGE_TYPE_IDENTITY_LINKED a w2 ltac:(done)) as [w3 Hsend].
  exists t3, w3, true. unfold send_identity_linked. rewrite Hsend. split; [done|].
  eapply server_ok_ext, Hok2; try done.
  - intros a' conn Ha. by exists conn.
  - intros i Hi. unfold t3. cbn [identity_to_address_map set Identity.id]. rewrite Em.
    destruct (Z.eqb_spec id 0) as [->|]; [by rewrite lookup_insert_ne|done].
  - cbn [Identity.id Identity.session_id]. intros _. split.
    + destruct (rm_rest _ _ _ Hrm) as (-> & _). done.
    + intros a' conn. rewrite (rm_connections _ _ _ Hrm). case_decide as Hin; [done|]. intros Ha' E.
      apply Hin, Haddrs. by exists conn.
Qed.

Lemma try_unlink_ok t a id session w :
  server_ok t → ∃ t' w' unlinked, try_unlink_identity t a id session w = Ret (t', w', unlinked) ∧ server_ok t'.
Proof.
  intros Hok. unfold try_unlink_identity.
  destruct (send_identity_returns t MESSAGE_TYPE_IDENTITY_UNLINKED a w ltac:(done)) as [w0 Hsend0].
  destruct (identities t !! id) as [current|]; [|unfold send_identity_unlinked; rewrite Hsend0; by do 3 eexists].
  destruct (Z.eqb_spec session current) as [->|]; [|by do 3 eexists]. cbn [negb].
  destruct (remove_by_identity_spec t id w Hok) as (addrs & Hrm & Haddrs).
  destruct (remove_connection_by_identity t id w) as [t1 w1]. cbn [fst] in Hrm.
  pose proof (server_ok_removed _ _ _ Hrm Hok) as [K1 K2 K3 K4 K5].
  set (t2 := t1 <| identity_to_address_map := delete id (identity_to_address_map t1) |>).
  destruct (send_identity_returns t2 MESSAGE_TYPE_IDENTITY_UNLINKED a w1 ltac:(done)) as [w2 Hsend].
  exists t2, w2, true. unfold send_identity_unlinked. rewrite Hsend. split; [done|].
  split; try done. intros a' conn Ha Hne. unfold t2. cbn [identity_to_address_map set].
  rewrite lookup_delete_ne; [by apply K4|]. intros E. revert Ha.
  change (connections t2) with (connections t1). rewrite (rm_connections _ _ _ Hrm).
  case_decide as Hin; [done|]. intros Ha. apply Hin, Haddrs. by exists conn.
Qed.

(** ** Histories *)

(** What a server does about its peers: what the application calls and what the
    datagrams of a peer make it do. *)
Inductive server_op :=
| SetIdentity (id session : Z)
| LinkRequest (a : NetworkAddress) (id session now : Z)
| UnlinkRequest (a : NetworkAddress) (id session : Z)
| ReceivedLinked (a : NetworkAddress) (now : Z)
| ReceivedAny (a : NetworkAddress) (now : Z)
| Configure (ch : Z) (cfg : ChannelConfig.ChannelConfig).

Definition server_step (st : Tachyon * World) (op : server_op) : outcome (Tachyon * World) :=
  let '(t, w) := st in
  match op with
  | SetIdentity id session => Ret (set_identity t id session w)
  | LinkRequest a id session now => '(t, w, _) ← try_link_identity t a id session now w; Ret (t, w)
  | UnlinkRequest a id session => '(t, w, _) ← try_unlink_identity t a id session w; Ret (t, w)
  | ReceivedLinked a now => Ret ((validate_and_update_linked_connection t a now).1, w)
  | ReceivedAny a now => Ret (on_receive_connection_update t a now w)
  | Configure ch cfg => Ret ((configure_channel t ch cfg).1, w)
  end.

Lemma server_step_ok t w op :
  server_ok t → ∃ t' w', server_step (t, w) op = Ret (t', w') ∧ server_ok t'.
Proof.
  intros Hok. destruct op as [id session|a id session now|a id session|a now|a now|ch cfg]; unfold server_step.
  - pose proof (set_identity_ok t id session w Hok) as Hok'.
    destruct (set_identity t id session w) as [t' w']. by exists t', w'.
  - destruct (try_link_ok t a id session now w Hok) as (t' & w' & b & -> & Hok'). by exists t', w'.
  - destruct (try_unlink_ok t a id session w Hok) as (t' & w' & b & -> & Hok'). by exists t', w'.
  - do 2 eexists. split; [done|]. unfold validate_and_update_linked_connection.
    destruct (connections t !! a) as [conn|] eqn:Ha; [|done].
    destruct (_ =? 0); [done|]. by apply touch_connection_ok.
  - unfold on_receive_connection_update. destruct (connections t !! a) as [conn|] eqn:Ha.
    + do 2 eexists. split; [done|]. by apply touch_connection_ok.
    + pose proof (create_connection_ok t a Identity.default now w Hok ltac:(done)) as Hok'. cbv zeta in Hok'.
      destruct (create_connection t a Identity.default now w) as [t' w'] eqn:Et. exists t', w'. split; [done|].
      eapply server_ok_ext, Hok'; try done; [intros a' conn Ha'; by exists conn|].
      intros i _. unfold create_connection in Et. by injection Et as <- _.
  - do 2 eexists. split; [done|]. unfold configure_channel. destruct (ch <? 3); [done|].
    eapply server_ok_ext, Hok; try done; [intros a' conn Ha'; by exists conn|].
    intros ch' Hs. cbn [fst channel_config set].
    destruct (decide (ch' = ch)) as [->|]; [by rewrite lookup_insert_eq|by rewrite lookup_insert_ne].
Qed.

Lemma server_run_ok ops : ∀ t w,
  server_ok t → ∃ t' w', foldl_m server_step (t, w) ops = Ret (t', w') ∧ server_ok t'.
Proof.
  induction ops as [|op ops IH]; intros t w Hok; [by exists t, w|].
  destruct (server_step_ok t w op Hok) as (t1 & w1 & Hstep & Hok1).
  cbn [foldl_m]. rewrite Hstep. by apply IH.
Qed.

Lemma create_ok cfg id now : server_ok (create_with_id cfg id now).
Proof.
  split; unfold create_with_id; cbn [connections channels set].
  - intros a conn. by rewrite lookup_empty.
  - intros a conn. by rewrite lookup_empty.
  - intros a a' conn conn'. by rewrite lookup_empty.
  - intros a conn. by rewrite lookup_empty.
  - intros a ch. rewrite lookup_empty. by intros [? ?].
Qed.
End invariants.

(** ** Properties *)

Section properties.
Context `{Callbacks} `{HashIter} `{!HashIterLaws _}.

(** C14: whatever the application sets and whatever peers ask for, in any order,
    a server never panics over it, and at every time: a connection is filed
    under its own address; a peer is linked to an identity only while that
    identity's current session is the one the peer presented; no identity is
    linked at two addresses; a linked identity is found at its address; and
    channels exist only for connections and configured channel numbers. *)
Theorem linked_peers_hold_the_session cfg id0 now0 (w : World) (ops : list server_op) :
  ∃ t w', foldl_m server_step (create_with_id cfg id0 now0, w) ops = Ret (t, w') ∧
    (∀ a conn, connections t !! a = Some conn → Connection.address conn = a) ∧
    (∀ a conn, connections t !! a = Some conn → Identity.id (Connection.identity conn) ≠ 0 →
      identities t !! Identity.id (Connection.identity conn) = Some (Identity.session_id (Connection.identity conn)) ∧
      get_connection_by_identity t (Identity.id (Connection.identity conn)) = Some conn) ∧
    (∀ a a' conn conn', connections t !! a = Some conn → connections t !! a' = Some conn' →
      Identity.id (Connection.identity conn) ≠ 0 →
      Identity.id (Connection.identity conn) = Identity.id (Connection.identity conn') → a = a') ∧
    (∀ a ch, is_Some (channels t !! (a, ch)) → is_Some (connections t !! a) ∧ is_Some (channel_config t !! ch)).
Proof.
  destruct (server_run_ok ops (create_with_id cfg id0 now0) w (create_ok cfg id0 now0)) as (t & w' & Hrun & [K1 K2 K3 K4 K5]).
  exists t, w'. split; [done|]. split; [done|]. split; [|by split].
  intros a conn Ha Hne. split; [by apply (K2 a)|].
  unfold get_connection_by_identity, get_connection. by rewrite (K4 a conn Ha Hne).
Qed.

(** An identity is not forgotten where it was linked.  When a second identity
    links from the same address, the first one is still looked up there: the
    connection that is returned for it, to which messages for it are sent, is the
    second one's. *)
Lemma stale_identity_finds_another_peer (t : Tachyon) a conn id1 id2 session2 now (w : World) :
  server_ok t → connections t !! a = Some conn → Identity.id (Connection.identity conn) = id1 →
  id1 ≠ 0 → id2 ≠ id1 → identities t !! id2 = Some session2 →
  ∃ t' w' conn', try_link_identity t a id2 session2 now w = Ret (t', w', true) ∧
    get_connection_by_identity t' id1 = Some conn' ∧ Connection.address conn' = a ∧
    Connection.identity conn' = Identity.mk id2 session2 0.
Proof.
  intros Hok Ha Hid1 Hne1 Hne2 Hses. unfold try_link_identity. rewrite Hses, Z.eqb_refl. cbn [negb].
  unfold get_connection_identity. rewrite Ha, Hid1. destruct (Z.eqb_spec id1 id2); [congruence|]. cbn [andb].
  destruct (remove_by_identity_spec t id2 w Hok) as (addrs & Hrm & Haddrs).
  destruct (remove_connection_by_identity t id2 w) as [t1 w1]. cbn [fst] in Hrm.
  destruct (create_connection t1 a (Identity.mk id2 session2 0) now w1) as [t2 w2] eqn:Et2.
  unfold create_connection in Et2. injection Et2 as Et2 _.
  set (t3 := t2 <| identity_to_address_map := <[id2 := a]> (identity_to_address_map t2) |>).
  destruct (send_identity_returns t3 MESSAGE_TYPE_IDENTITY_LINKED a w2 ltac:(done)) as [w3 Hsend].
  unfold send_identity_linked. rewrite Hsend. do 3 eexists. split; [done|].
  unfold get_connection_by_identity, get_connection, t3. cbn [identity_to_address_map connections set].
  rewrite lookup_insert_ne by done. subst t2. cbn [identity_to_address_map connections set create_configured_channels].
  destruct (rm_rest _ _ _ Hrm) as (_ & -> & _). rewrite <-Hid1, (ok_found t Hok a conn Ha) by congruence.
  rewrite lookup_insert_eq. done.
Qed.
End properties.
