(* ===== verification/tachyon_typed.v ===== *)
(** Which datagrams a [Tachyon] survives.

    Any datagram from anyone that is at least as long as the header its type
    calls for, except a nack message that cannot be decoded: receiving it does not
    panic and keeps the types of [channel_typed.v] on every channel, whatever the
    configuration, the connections and the identities are. *)

From S2P Require Import prelude network_address int_buffer header nack byte_buffer_pool send_buffer_manager.
From S2P Require Import receiver receiver_typed fragmentation send_result tachyon_socket unreliable_sender channel connection.
From S2P Require Import tachyon_state connection_impl tachyon channel_typed connection_invariants.

Import NetworkAddress Tachyon ConnectionImpl TachyonIo.

Section typed.
Context `{Callbacks} `{V : VarintOps} `{HashIter} `{!OsLaws _}.
Implicit Types (t : Tachyon) (w : World) (a : NetworkAddress) (d : bytes).

Definition channels_typed t : Prop := map_Forall (λ _ c, channel_typed c) (channels t).

Record tachyon_typed t : Prop := {
  tt_buffer : len (socket_receive_buffer t) = SOCKET_RECEIVE_BUFFER_LEN;
  tt_bytes : Forall (λ b, is_u8 b) (socket_receive_buffer t);
  tt_channels : channels_typed t
}.

Lemma tachyon_typed_same t t' :
  socket_receive_buffer t' = socket_receive_buffer t → channels t' = channels t → tachyon_typed t → tachyon_typed t'.
Proof. intros Eb Ec [? ? ?]. split; unfold channels_typed; by rewrite ?Eb, ?Ec. Qed.

Lemma tachyon_typed_socket t sock : tachyon_typed t → tachyon_typed (t <| socket := sock |>).
Proof. by apply tachyon_typed_same. Qed.

Lemma tachyon_typed_create cfg i now : tachyon_typed (create_with_id cfg i now).
Proof.
  split.
  - change (socket_receive_buffer (create_with_id cfg i now)) with (replicate (Z.to_nat SOCKET_RECEIVE_BUFFER_LEN) 0).
    rewrite length_replicate. unfold SOCKET_RECEIVE_BUFFER_LEN. lia.
  - cbn [socket_receive_buffer create_with_id set channel_config]. apply Forall_replicate. lia.
  - apply map_Forall_empty.
Qed.

(** ** Connections *)

(** The receive buffer stays, and so do the types of the channels. *)
Definition keeps t t' : Prop :=
  socket_receive_buffer t' = socket_receive_buffer t ∧ (channels_typed t → channels_typed t').

Lemma keeps_typed t t' : keeps t t' → tachyon_typed t → tachyon_typed t'.
Proof. intros [E Hc] [? ? ?]. split; rewrite ?E; auto. Qed.

Lemma keeps_refl t : keeps t t.
Proof. by split. Qed.

Lemma keeps_trans t1 t2 t3 : keeps t1 t2 → keeps t2 t3 → keeps t1 t3.
Proof. intros [E1 K1] [E2 K2]. split; [congruence|auto]. Qed.

Lemma keeps_connections t m : keeps t (t <| connections := m |>).
Proof. by split. Qed.

Lemma remove_configured_keeps t a : keeps t (remove_configured_channels t a).
Proof.
  split; [done|]. unfold channels_typed, remove_configured_channels. cbn [channels set].
  generalize (channels t) as m. induction (hash_iter (channel_config t)) as [|e l IH]; intros m Hm; [done|].
  cbn [foldl]. by apply IH, map_Forall_delete.
Qed.

(** What holds of new channels holds of those that are created for a peer. *)
Lemma configured_channels (P : Channel.Channel → Prop) t a :
  Forall (λ e, P (Channel.create e.1 a e.2)) (hash_iter (channel_config t)) → map_Forall (λ _ c, P c) (channels t) →
  map_Forall (λ _ c, P c) (channels (create_configured_channels t a)).
Proof.
  unfold create_configured_channels. cbn [channels set]. intros HP.
  generalize (channels t) as m. induction HP as [|e l He HP IH]; intros m Hm; [done|].
  cbn [foldl]. apply IH. destruct (m !! (a, e.1)); [done|]. by apply map_Forall_insert_2.
Qed.

Lemma created_channels (P : Channel.Channel → Prop) t a :
  (∀ i cfg, P (Channel.create i a cfg)) → map_Forall (λ _ c, P c) (channels t) →
  map_Forall (λ _ c, P c) (channels (create_configured_channels t a)).
Proof. intros HP. apply configured_channels, Forall_forall. intros e _. apply HP. Qed.

Lemma create_configured_keeps t a : keeps t (create_configured_channels t a).
Proof. split; [done|]. apply created_channels. intros i cfg. apply channel_typed_create. Qed.

Lemma remove_connection_keeps t a w : keeps t (remove_connection t a w).1.
Proof. eapply keeps_trans; [apply (keeps_connections t (delete a (connections t)))|apply remove_configured_keeps]. Qed.

Lemma create_connection_keeps t a identity now w : keeps t (create_connection t a identity now w).1.
Proof. eapply keeps_trans; [eapply (keeps_connections t)|apply create_configured_keeps]. Qed.

Lemma remove_by_identity_keeps t i w : keeps t (remove_connection_by_identity t i w).1.
Proof.
  unfold remove_connection_by_identity. generalize (omap (λ entry, if Identity.id (Connection.identity entry.2) =? i
    then Some (Connection.address entry.2) else None) (hash_iter (connections t))) as l.
  intros l. revert t w. induction l as [|a l IH]; intros t w; [apply keeps_refl|]. cbn [foldl fst snd].
  pose proof (remove_connection_keeps t a w) as Hone. destruct (remove_connection t a w) as [t1 w1].
  exact (keeps_trans _ _ _ Hone (IH t1 w1)).
Qed.

Lemma try_link_keeps t a i session now w :
  ∃ t' w' linked, try_link_identity t a i session now w = Ret (t', w', linked) ∧ keeps t t'.
Proof.
  unfold try_link_identity. destruct (identities t !! i) as [current|]; [|eauto using keeps_refl].
  destruct (negb _); [eauto using keeps_refl|]. cbv zeta. destruct (_ && _); [eauto using keeps_refl|].
  pose proof (remove_by_identity_keeps t i w) as K1. destruct (remove_connection_by_identity t i w) as [t1 w1].
  pose proof (create_connection_keeps t1 a (Identity.mk i session 0) now w1) as K2.
  destruct (create_connection t1 a (Identity.mk i session 0) now w1) as [t2 w2]. unfold send_identity_linked.
  destruct (send_identity_returns (t2 <| identity_to_address_map := <[i:=a]> (identity_to_address_map t2) |>)
    MESSAGE_TYPE_IDENTITY_LINKED a w2 ltac:(done)) as [w3 ->]. rewrite bind_ret_l.
  do 3 eexists. split; [done|]. exact (keeps_trans _ _ _ K1 K2).
Qed.

Lemma try_unlink_keeps t a i session w :
  ∃ t' w' unlinked, try_unlink_identity t a i session w = Ret (t', w', unlinked) ∧ keeps t t'.
Proof.
  unfold try_unlink_identity, send_identity_unlinked. destruct (identities t !! i) as [current|].
  - destruct (negb _); [eauto using keeps_refl|].
    pose proof (remove_by_identity_keeps t i w) as K1. destruct (remove_connection_by_identity t i w) as [t1 w1].
    cbv zeta. destruct (send_identity_returns (t1 <| identity_to_address_map := delete i (identity_to_address_map t1) |>)
      MESSAGE_TYPE_IDENTITY_UNLINKED a w1 ltac:(done)) as [w2 ->]. rewrite bind_ret_l. by do 3 eexists.
  - destruct (send_identity_returns t MESSAGE_TYPE_IDENTITY_UNLINKED a w ltac:(done)) as [w2 ->]. rewrite bind_ret_l.
    do 3 eexists. split; [done|apply keeps_refl].
Qed.

Lemma admit_keeps t header a now w :
  9 ≤ len (socket_receive_buffer t) →
  ∃ t' w' decided, admit_datagram t header a now w = Ret (t', w', decided) ∧ keeps t t'.
Proof.
  intros Hb. unfold admit_datagram. cbv zeta. destruct (TachyonSocket.is_server (socket t)).
  - destruct (_ =? 1).
    + destruct (read_connection_returns _ Hb) as [h Hh].
      destruct (_ =? MESSAGE_TYPE_LINK_IDENTITY); [|destruct (_ =? MESSAGE_TYPE_UNLINK_IDENTITY)].
      * rewrite Hh, bind_ret_l.
        destruct (try_link_keeps t a (ConnectionHeader.id h) (ConnectionHeader.session_id h) now w) as (t1 & w1 & l & -> & K1).
        rewrite bind_ret_l. by do 3 eexists.
      * rewrite Hh, bind_ret_l.
        destruct (try_unlink_keeps t a (ConnectionHeader.id h) (ConnectionHeader.session_id h) w) as (t1 & w1 & l & -> & K1).
        rewrite bind_ret_l. by do 3 eexists.
      * unfold validate_and_update_linked_connection. destruct (connections t !! a) as [conn|];
          [|by do 3 eexists; split; [done|apply keeps_refl]].
        destruct (_ =? 0); do 3 eexists; (split; [done|by split]).
    + unfold on_receive_connection_update. destruct (connections t !! a) as [conn|].
      * do 3 eexists. split; [done|by split].
      * pose proof (create_connection_keeps t a Identity.default now w) as K1.
        destruct (create_connection t a Identity.default now w) as [t1 w1]. by do 3 eexists.
  - repeat case_match; do 3 eexists; (split; [done|by split]).
Qed.

(** ** One datagram *)

(** The datagram that the next receive takes from the socket. *)
Definition next_datagram t w : option bytes :=
  match TachyonSocket.socket (socket t) with
  | None => None
  | Some sock =>
      if TachyonSocket.is_server (socket t) then
        fst <$> (os_recv_from sock (len (socket_receive_buffer t)) w).2
      else (os_recv sock (len (socket_receive_buffer t)) w).2
  end.

(** What the socket gives. *)
Lemma socket_receive_typed t chance reliable w :
  1 ≤ len (socket_receive_buffer t) →
  ∃ sock buffer w' res, TachyonSocket.receive (socket t) (socket_receive_buffer t) chance reliable w =
      Ret (sock, buffer, w', res) ∧
    (buffer = socket_receive_buffer t ∨ ∃ d, next_datagram t w = Some d ∧ buffer = splice 0 d (socket_receive_buffer t)) ∧
    (∀ n a, res = TachyonSocket.RSuccess n a →
      ∃ d, next_datagram t w = Some d ∧ buffer = splice 0 d (socket_receive_buffer t) ∧ n = len d) ∧
    length buffer = length (socket_receive_buffer t).
Proof.
  intros Hb. unfold TachyonSocket.receive, next_datagram.
  destruct (TachyonSocket.socket (socket t)) as [sock|]; [|do 4 eexists; split; [done|]; by split; [left|]].
  destruct (TachyonSocket.is_server (socket t)).
  - destruct (os_recv_from sock (len (socket_receive_buffer t)) w) as [w' [[d src]|]] eqn:E;
      [|do 4 eexists; split; [done|]; by split; [left|]].
    assert (length (splice 0 d (socket_receive_buffer t)) = length (socket_receive_buffer t)) as Hl.
    { apply os_recv_from_fits in E; [|lia]. rewrite length_splice; [done|lia]. }
    destruct (should_drop_draws (socket t) (splice 0 d (socket_receive_buffer t)) chance reliable) as (rng & dropped & -> & _);
      [lia|]. rewrite bind_ret_l. cbv beta iota zeta. destruct dropped; do 4 eexists; (split; [done|]);
      (split; [right; by exists d|split; [|done]]); [done|]. intros n a [= <- _]. by exists d.
  - destruct (os_recv sock (len (socket_receive_buffer t)) w) as [w' [d|]] eqn:E;
      [|do 4 eexists; split; [done|]; by split; [left|]].
    assert (length (splice 0 d (socket_receive_buffer t)) = length (socket_receive_buffer t)) as Hl.
    { apply os_recv_fits in E; [|lia]. rewrite length_splice; [done|lia]. }
    destruct (should_drop_draws (socket t) (splice 0 d (socket_receive_buffer t)) chance reliable) as (rng & dropped & -> & _);
      [lia|]. rewrite bind_ret_l. cbv beta iota zeta. destruct dropped; do 4 eexists; (split; [done|]);
      (split; [right; by exists d|split; [|done]]); [done|]. intros n a [= <- _]. by exists d.
Qed.

(** The rest of [receive_from_socket] once a datagram is at the front of the
    receive buffer. *)
Lemma datagram_typed `{!Varint V} t a d now w :
  tachyon_typed t → well_sized d → (∃ more, socket_receive_buffer t = d ++ more) →
  match
    (header ← Header.read (socket_receive_buffer t);
     '(self, w, decided) ← admit_datagram t header a now w;
     match decided with
     | Some res => Ret (self, w, res)
     | None =>
         if Header.message_type header =? MESSAGE_TYPE_UNRELIABLE then
           let self := self <| stats := (stats self)
             <| TachyonStats.unreliable_received := as_u64 (TachyonStats.unreliable_received (stats self) + 1) |> |> in
           Ret (self, w, UnReliable (len d) a)
         else
           match channels self !! (a, Header.channel header) with
           | None => Ret (self, w, ChannelError)
           | Some channel =>
               '(channel, res) ← receive_on_channel channel header a (socket_receive_buffer self) (len d) now;
               Ret (self <| channels := <[(a, Header.channel header) := channel]> (channels self) |>, w, res)
           end
     end)
  with
  | Ret (t', _, _) => tachyon_typed t'
  | Panic _ => ∃ rest, d = MESSAGE_TYPE_NACK :: rest ∧ nack_message_readable (drop 4 (socket_receive_buffer t)) = false
  end.
Proof.
  intros Ht Hd [more Hmore]. pose proof (tt_buffer _ Ht) as Hlen. unfold SOCKET_RECEIVE_BUFFER_LEN in Hlen.
  destruct (read_returns (socket_receive_buffer t)) as [h Hh]; [lia|]. rewrite Hh, bind_ret_l.
  destruct (admit_keeps t h a now w) as (t1 & w1 & decided & -> & Hkeeps); [lia|].
  pose proof (keeps_typed _ _ Hkeeps Ht) as Ht1. destruct Hkeeps as [Eb _]. rewrite bind_ret_l. cbv beta iota.
  destruct decided as [res|]; [done|].
  destruct (Header.message_type h =? MESSAGE_TYPE_UNRELIABLE); [by apply (tachyon_typed_same t1)|].
  destruct (channels t1 !! (a, Header.channel h)) as [c|] eqn:Ec; [|done].
  pose proof (tt_channels _ Ht1 _ _ Ec) as Hc. simpl in Hc. rewrite Eb.
  pose proof (read_sequence_range _ _ (tt_bytes _ Ht) Hh) as Hseq. rewrite Hmore in *.
  assert (len d + len more = 1024 * 1024) as Hsum by (rewrite length_app in Hlen; lia).
  pose proof (receive_on_channel_survives c h a d more now Hc Hd) as Hsurvive.
  destruct (receive_on_channel c h a (d ++ more) (len d) now) as [[c' res]|why]; cbn [mbind outcome_bind].
  - split; [by rewrite <-(tt_buffer _ Ht1)|apply Ht1|]. apply map_Forall_insert_2; [|apply Ht1].
    apply Hsurvive; unfold SOCKET_RECEIVE_BUFFER_LEN, isize_max; (lia || done).
  - destruct Hsurvive as [Ety Hread]; unfold SOCKET_RECEIVE_BUFFER_LEN, isize_max; [lia|lia|done|done|].
    destruct Hd as (_ & ty & rest & -> & _). exists rest. split; [|done]. f_equal.
    by rewrite <-Ety, (read_message_type _ _ _ Hh).
Qed.

(** C10: no datagram that is as long as the header its type calls for stops a
    [Tachyon], but a nack message that cannot be decoded: whoever it comes from,
    whatever else it contains, and whatever the connections, identities and
    channels are, receiving it does not panic, and every channel keeps its type:
    16-bit sequences, 1024 slots, buffers that have the bytes they claim.  When
    receiving panics, the datagram is a nack message, and in the receive buffer
    its header is not followed by a count and as many pairs of variable-length
    integers. *)
Theorem datagrams_are_survived `{!Varint V} t now w :
  tachyon_typed t → (∀ d, next_datagram t w = Some d → well_sized d) →
  match receive_from_socket t now w with
  | Ret (t', _, _) => tachyon_typed t'
  | Panic _ => ∃ rest, next_datagram t w = Some (MESSAGE_TYPE_NACK :: rest) ∧
      nack_message_readable (drop 4 (splice 0 (MESSAGE_TYPE_NACK :: rest) (socket_receive_buffer t))) = false
  end.
Proof.
  intros Ht Hin. pose proof (tt_buffer _ Ht) as Hlen. unfold SOCKET_RECEIVE_BUFFER_LEN in Hlen.
  unfold receive_from_socket.
  destruct (socket_receive_typed t (TachyonConfig.drop_packet_chance (config t))
    (TachyonConfig.drop_reliable_only (config t) =? 1) w) as (sock & buffer & w1 & res & -> & Hbuf & Hres & Hl); [lia|].
  rewrite bind_ret_l. cbv beta iota zeta.
  set (t1 := t <| socket := sock |> <| socket_receive_buffer := buffer |>).
  assert (tachyon_typed t1) as Ht1.
  { split; [|  |apply Ht]; change (socket_receive_buffer t1) with buffer; [by rewrite Hl; apply Ht|].
    destruct Hbuf as [->|(d & Hd & ->)]; [apply Ht|]. rewrite splice_0. apply Forall_app. split.
    - apply (proj1 (Hin d Hd)).
    - apply Forall_drop, Ht. }
  destruct res as [n a| | |]; [|done|done|by apply (tachyon_typed_same t1)].
  destruct (Hres n a eq_refl) as (d & Hd & Eb & ->).
  assert (∃ more, socket_receive_buffer t1 = d ++ more) as Hfront.
  { exists (drop (length d) (socket_receive_buffer t)). change (buffer = d ++ drop (length d) (socket_receive_buffer t)).
    by rewrite Eb, splice_0. }
  pose proof (datagram_typed t1 a d now w1 Ht1 (Hin d Hd) Hfront) as Hone.
  change (socket_receive_buffer t1) with buffer in Hone |- *.
  cbv zeta in Hone. destruct (_ ≫= _) as [[[t' w'] res]|why]; [done|].
  destruct Hone as (rest & -> & Hread). exists rest. by rewrite <-Eb.
Qed.

(** ** Reading *)

Lemma put_channel_typed t k c : tachyon_typed t → channel_typed c → tachyon_typed (t <| channels := <[k := c]> (channels t) |>).
Proof. intros [? ? ?] Hc. split; [done|done|]. by apply map_Forall_insert_2. Qed.

Lemma all_loop_typed entries : ∀ t rb,
  tachyon_typed t → Forall (λ e, channel_typed e.2 ∧ fits e.2 rb) entries →
  ∃ t' rb' res, receive_published_all_loop t rb entries = Ret (t', rb', res) ∧
    tachyon_typed t' ∧ length rb' = length rb.
Proof.
  induction entries as [|[k c] entries IH]; intros t rb Ht He; [by do 3 eexists|].
  apply Forall_cons in He as [[Hc Hfits] He]. cbn [receive_published_all_loop snd fst] in *.
  destruct (receive_published_loop_typed 1000 c rb Hc Hfits) as (c' & rb' & l & Hrun & Hl & Hc' & _).
  unfold Channel.receive_published. rewrite Hrun, bind_ret_l. cbv beta iota zeta.
  pose proof (put_channel_typed t k c' Ht Hc') as Ht'. cbn [fst]. destruct (0 <? l); [by do 3 eexists|].
  destruct (IH _ rb' Ht') as (t2 & rb2 & res & Hrun2 & Ht2 & Hl2).
  { eapply Forall_impl; [exact He|]. intros e [? ?]. split; [done|]. by eapply fits_length. }
  exists t2, rb2, res. split; [done|]. split; [done|congruence].
Qed.

(** C24: reading does not panic either as long as everything that is published or
    collected fits the application's buffer: the channels keep their types and
    the buffer its length. *)
Theorem reading_is_survived `{!HashIterLaws _} t rb a ch :
  tachyon_typed t → (∀ k c, channels t !! k = Some c → fits c rb) →
  (∃ t' rb' res, receive_published_all_channels t rb = Ret (t', rb', res) ∧ tachyon_typed t' ∧ length rb' = length rb) ∧
  (∃ t' rb' l, receive_published_channel_id t rb a ch = Ret (t', rb', l) ∧ tachyon_typed t' ∧ length rb' = length rb).
Proof.
  intros Ht Hfits. split.
  - apply all_loop_typed; [done|]. apply Forall_forall. intros [k c] Hk.
    rewrite hash_iter_perm, elem_of_map_to_list in Hk. split; [|by apply (Hfits k)].
    by apply (map_Forall_lookup_1 _ _ _ _ (tt_channels _ Ht) Hk).
  - unfold receive_published_channel_id. destruct (channels t !! (a, ch)) as [c|] eqn:Ec; [|by do 3 eexists].
    destruct (receive_published_loop_typed 1000 c rb) as (c' & rb' & l & Hrun & Hl & Hc' & _);
      [by apply (map_Forall_lookup_1 _ _ _ _ (tt_channels _ Ht) Ec)|by apply (Hfits (a, ch))|].
    unfold Channel.receive_published. rewrite Hrun, bind_ret_l. cbv beta iota zeta. do 3 eexists. split; [done|].
    split; [by apply put_channel_typed|done].
Qed.
End typed.
