(* ===== verification/channel_sending.v ===== *)
(** What a channel puts on the wire.

    The datagrams of [send_reliable] and of the resends, in terms of the log of
    what the channel sent.  A message that carries a nack leaves room for it but
    the nack is not written there, and when such a message is resent its length
    is that of the whole buffer; both are stated as the code has them. *)

From S2P Require Import prelude sequence sequence_buffer network_address int_buffer header nack byte_buffer_pool.
From S2P Require Import send_buffer_manager receiver fragmentation send_result tachyon_socket channel.

Import Channel.

#[local] Arguments TachyonSocket.send_to : simpl never.

(** The first four bytes of every reliable datagram. *)
Definition plain_header (message_type id k : Z) : Header.Header :=
  Header.mk message_type id (seq_of k) 0 0 0 0 0.

Definition plain_bytes (message_type id k : Z) : bytes := Header.enc (plain_header message_type id k).

Definition reliable_datagram (id k : Z) (body : bytes) : bytes :=
  plain_bytes MESSAGE_TYPE_RELIABLE id k ++ body.

Lemma plain_header_wf t id k : is_u8 t → is_u8 id → Header.wf (plain_header t id k).
Proof. intros Ht Hi. pose proof (seq_of_u16 k). unfold Header.wf; simpl. lia. Qed.

Lemma length_plain_bytes t id k : length (plain_bytes t id k) = 4%nat.
Proof. done. Qed.

(** [Header.write] writes the plain part of a header. *)
Lemma write_plain h d t id k :
  Header.plain_part h = plain_header t id k → is_u8 t → is_u8 id → 4 ≤ len d →
  Header.write h d = Ret (splice 0 (plain_bytes t id k) d).
Proof.
  intros Hh Ht Hi Hd. change (Header.write h d) with (Header.write (Header.plain_part h) d).
  rewrite Hh. apply write_spec; [by apply plain_header_wf|done].
Qed.

(** A body behind room for a header of [hl] bytes, then the header. *)
Lemma fill_message hl t id k body d :
  (4 ≤ hl)%nat → (hl + length body ≤ length d)%nat →
  let d2 := splice 0 (plain_bytes t id k) (splice hl body d) in
  length d2 = length d ∧
  firstn (hl + length body) d2 = plain_bytes t id k ++ drop 4 (firstn hl d) ++ body.
Proof.
  intros Hh Hd d2. pose proof (length_plain_bytes t id k) as Hp.
  assert (length d2 = length d) as Hl by (unfold d2; rewrite !length_splice; rewrite ?length_splice; lia).
  split; [done|]. unfold d2. rewrite splice_0, Hp. unfold splice.
  rewrite drop_app, length_take, Nat.min_l by lia. replace (4 - hl)%nat with 0%nat by lia.
  rewrite drop_0, !app_assoc. rewrite take_app_length'; [done|].
  rewrite !length_app, length_drop, length_take. lia.
Qed.

Section sending.
Context `{Os}.
Implicit Types (c : Channel) (n k : Z) (log : Z → bytes) (w : World).

(** The header length and the message type of a message with or without a nack. *)
Definition header_len_of (nack : option Nack.Nack) : Z :=
  match nack with Some _ => TACHYON_NACKED_HEADER_SIZE | None => TACHYON_HEADER_SIZE end.
Definition message_type_of (nack : option Nack.Nack) : Z :=
  match nack with Some _ => MESSAGE_TYPE_RELIABLE_WITH_NACK | None => MESSAGE_TYPE_RELIABLE end.

(** What the buffer for the next message held between the two headers. *)
Definition stale_bytes (m : SendBufferManager.SendBufferManager) (hl size now : Z) : bytes :=
  match SendBufferManager.create_send_buffer m size now with
  | Ret (_, Some sb) => drop 4 (firstn (Z.to_nat hl) (ByteBuffer.data (SendBufferManager.byte_buffer sb)))
  | _ => []
  end.

Lemma next_nack_fields c c1 nack :
  next_nack c = (c1, nack) →
  id c1 = id c ∧ address c1 = address c ∧ frag c1 = frag c ∧ send_buffers c1 = send_buffers c ∧
  nacked_sequence_map c1 = nacked_sequence_map c ∧
  (nack = None ∨ ∃ nk rest, Receiver.nack_queue (receiver c) = nk :: rest ∧ 0 < nack_redundancy c).
Proof.
  unfold next_nack. destruct (Z.ltb_spec 0 (nack_redundancy c)); [|intros [= <- <-]; auto 10].
  destruct (Receiver.nack_queue (receiver c)) as [|nk rest] eqn:E; [intros [= <- <-]; auto 10|].
  destruct (_ <? _); intros [= <- <-]; simpl; split_and!; eauto.
Qed.

Lemma send_reliable_spec c n log addr data body_len sock now w c1 nack :
  next_nack c = (c1, nack) →
  sends (send_buffers c) n log → 0 ≤ n → is_u8 (id c) →
  0 ≤ body_len ≤ len data → body_len ≤ isize_max - 10 →
  let hl := header_len_of nack in
  let stale := stale_bytes (send_buffers c) hl (body_len + hl) now in
  let d := plain_bytes (message_type_of nack) (id c) (n + 1) ++ stale ++ firstn (Z.to_nat body_len) data in
  len stale = hl - 4 ∧
  ∃ c' result,
    send_reliable c addr data body_len sock now w = Ret (c', transmit sock (addr, d) w, result) ∧
    TachyonSendResult.sent_len result = as_u32 (transmitted sock (addr, d) w) ∧
    TachyonSendResult.error result = 0 ∧
    Header.plain_part (TachyonSendResult.header result) = plain_header (message_type_of nack) (id c) (n + 1) ∧
    sends (send_buffers c') (n + 1) (λ k, if decide (k = n + 1) then d else log k) ∧
    receiver c' = receiver c1 ∧ id c' = id c ∧ address c' = address c ∧ frag c' = frag c ∧
    nacked_sequence_map c' = nacked_sequence_map c.
Proof.
  intros Hnack Hm Hn Hid Hb Hmax. cbv zeta.
  assert (header_len_of nack = 4 ∨ header_len_of nack = 10) as Hhl by (destruct nack; auto).
  assert (is_u8 (message_type_of nack)) as Ht by (by destruct nack).
  destruct (next_nack_fields c c1 nack Hnack) as (Eid & Eaddr & Efrag & Esb & Emap & _).
  set (hl := header_len_of nack) in *.
  destruct (send_spec (send_buffers c) n log (body_len + hl) now Hm Hn)
    as (m1 & sb & Hcreate & Hseq & Hlen & Hdata & Hfill); [unfold isize_max in *; lia|].
  set (data0 := ByteBuffer.data (SendBufferManager.byte_buffer sb)) in *.
  assert (stale_bytes (send_buffers c) hl (body_len + hl) now = drop 4 (firstn (Z.to_nat hl) data0)) as ->
    by (unfold stale_bytes; by rewrite Hcreate).
  set (body := firstn (Z.to_nat body_len) data).
  assert (len body = body_len) as Hbody by (unfold body; rewrite length_take; lia).
  destruct (fill_message (Z.to_nat hl) (message_type_of nack) (id c) (n + 1) body data0) as [Hl2 Htake]; [lia|lia|].
  set (d2 := splice 0 _ _) in *.
  replace (Z.to_nat hl + length body)%nat with (Z.to_nat (body_len + hl)) in Htake by lia.
  destruct (Hfill d2 Hl2) as (m2 & Hstore & Hm2). rewrite Htake in Hm2.
  split; [rewrite length_drop, length_take; lia|].
  set (d := plain_bytes _ _ _ ++ _) in *.
  unfold send_reliable. rewrite Hnack. cbv beta iota zeta.
  fold (header_len_of nack). fold hl. rewrite Esb, Hcreate, bind_ret_l. cbv beta iota zeta.
  rewrite slice_prefix, bind_ret_l by lia. fold data0 body.
  rewrite copy_in_bounds, bind_ret_l by lia. rewrite Hseq.
  destruct nack as [nk|]; cbn [message_type_of] in *; cbv zeta beta iota.
  1: rewrite (write_plain _ _ MESSAGE_TYPE_RELIABLE_WITH_NACK (id c) (n + 1));
    [|simpl; rewrite Eid; reflexivity|done|done|rewrite length_splice; lia].
  2: rewrite (write_plain _ _ MESSAGE_TYPE_RELIABLE (id c) (n + 1));
    [|simpl; rewrite Eid; reflexivity|done|done|rewrite length_splice; lia].
  all: rewrite bind_ret_l; fold d2; cbn [send_buffers set count eta eta_Channel]; rewrite Hstore, bind_ret_l.
  all: rewrite send_to_spec, Htake, bind_ret_l by lia; cbv beta iota zeta.
  all: do 2 eexists; split; [done|]; simpl; split_and!; try done; by rewrite <-Eid.
Qed.
End sending.

(** ** Resends *)

(** The index behind [n] of the message that travels under [s]. *)
Definition behind (n s : Z) : Z := n - seq_of (n - s).

Lemma behind_seq_of n k : n - 65535 < k ≤ n → behind n (seq_of k) = k.
Proof.
  intros Hk. unfold behind. destruct (seq_of_spec k) as (q & Eq & Hs).
  rewrite (seq_of_unique (n - seq_of k) q (n - k)); lia.
Qed.

(** A message that is kept for resends and does not carry a nack. *)
Definition resendable (n : Z) (log : Z → bytes) (s : Z) : Prop :=
  ∃ k t rest, s = seq_of k ∧ 1 ≤ k ∧ n - 1022 ≤ k ≤ n ∧ log k = t :: rest ∧
    t ≠ MESSAGE_TYPE_RELIABLE_WITH_NACK.

Section resending.
Context `{Os} `{HashIter}.
Implicit Types (c : Channel) (n k : Z) (log : Z → bytes) (w : World).

(** What is found under the sequence of a retained message. *)
Lemma lookup_retained c n log k :
  sends (send_buffers c) n log → 1 ≤ k → n - 1022 ≤ k ≤ n →
  ∃ sb, SendBufferManager.get_send_buffer (send_buffers c) (seq_of k) = Ret (Some sb) ∧
    holds (log k) sb ∧ buffer_ok BYTE_BUFFER_SIZE_DEFAULT (SendBufferManager.byte_buffer sb).
Proof.
  intros Hm H1 H2. destruct (mg_kept _ _ _ Hm k H1 H2) as (sb & Hsb & _ & Hh).
  exists sb. rewrite (get_send_buffer_spec _ _ _ _ Hm). split; [by rewrite Hsb|].
  split; [done|]. by destruct (mg_ok _ _ _ Hm _ _ Hsb).
Qed.

Lemma holds_data p sb :
  holds p sb → ∃ rest, ByteBuffer.data (SendBufferManager.byte_buffer sb) = p ++ rest.
Proof.
  intros [_ Hd]. exists (drop (length p) (ByteBuffer.data (SendBufferManager.byte_buffer sb))).
  rewrite <-Hd at 1. symmetry. apply take_drop.
Qed.

Lemma read_u8_head t rest : IntBuffer.read_u8 (IntBuffer.mk 0) (t :: rest) = Ret (IntBuffer.mk 1, t).
Proof. done. Qed.

Lemma read_u8_plain t id k rest :
  IntBuffer.read_u8 (IntBuffer.mk 0) (plain_bytes t id k ++ rest) = Ret (IntBuffer.mk 1, t).
Proof. done. Qed.

Lemma resend_one_spec c n log s a sock :
  sends (send_buffers c) n log → resendable n log s →
  ∃ st, ∀ none w, resend_one sock (c, none, w) (s, a) =
    Ret (c <| stats := st |>, none, transmit sock (a, log (behind n s)) w).
Proof.
  intros Hm (k & t & rest & -> & H1 & H2 & Hlog & Ht).
  destruct (lookup_retained c n log k Hm H1 H2) as (sb & Hget & Hh & _).
  rewrite behind_seq_of by lia. eexists. intros none w. unfold resend_one. cbn [send_buffers count set eta eta_Channel].
  rewrite Hget, bind_ret_l. cbv beta iota zeta.
  pose proof Hh as [Hlen _]. destruct (holds_data _ _ Hh) as [rest' Hd]. rewrite Hlog in Hd.
  rewrite Hd. cbn [app]. rewrite read_u8_head, bind_ret_l. cbv beta iota.
  destruct (Z.eqb_spec t MESSAGE_TYPE_RELIABLE_WITH_NACK); [done|].
  rewrite send_to_spec by (rewrite Hlen, Hlog; cbn [length]; rewrite length_app; lia).
  rewrite !bind_ret_l. cbv beta iota. rewrite Hlen.
  assert (firstn (Z.to_nat (len (log k))) (t :: rest ++ rest') = log k) as ->; [|reflexivity].
  rewrite Nat2Z.id, Hlog. apply (take_app_length (t :: rest) rest').
Qed.

(** The datagrams of the resends, in the order of the map's iteration. *)
Definition resends (n : Z) (log : Z → bytes) (entries : list (Z * NetworkAddress.NetworkAddress)) :
    list (NetworkAddress.NetworkAddress * bytes) :=
  (λ e, (e.2, log (behind n e.1))) <$> entries.

Lemma resend_loop_spec n log sock entries : ∀ c,
  sends (send_buffers c) n log → Forall (λ e, resendable n log e.1) entries →
  ∃ st, ∀ none w, foldl_m (resend_one sock) (c, none, w) entries =
    Ret (c <| stats := st |>, none, transmit_all sock (resends n log entries) w).
Proof.
  induction entries as [|[s a] entries IH]; intros c Hm He.
  { exists (stats c). by destruct c. }
  apply Forall_cons in He as [Hs He].
  destruct (resend_one_spec c n log s a sock Hm Hs) as (st & Hone).
  set (c1 := c <| stats := st |>) in Hone. destruct (IH c1 Hm He) as (st' & Hrest). exists st'. intros none w.
  cbn [foldl_m]. rewrite Hone, bind_ret_l. apply Hrest.
Qed.

Lemma resend_nacked_spec c n log sock `{!HashIterLaws _} :
  sends (send_buffers c) n log →
  (∀ s a, nacked_sequence_map c !! s = Some a → resendable n log s) →
  ∃ st, ∀ none w, resend_nacked c none sock w =
    Ret (c <| stats := st |> <| nacked_sequence_map := ∅ |>, none,
         transmit_all sock (resends n log (hash_iter (nacked_sequence_map c))) w).
Proof.
  intros Hm Hs. unfold resend_nacked.
  destruct (Z.eqb_spec (Z.of_nat (size (nacked_sequence_map c))) 0) as [E|_].
  - assert (nacked_sequence_map c = ∅) as Em by (apply map_size_empty_inv; lia).
    exists (stats c). rewrite Em.
    assert (hash_iter (∅ : gmap Z NetworkAddress.NetworkAddress) = []) as ->.
    { apply Permutation_nil_r. rewrite hash_iter_perm. by rewrite map_to_list_empty. }
    simpl. by destruct c; simpl in *; subst.
  - destruct (resend_loop_spec n log sock (hash_iter (nacked_sequence_map c)) c Hm) as (st & Hloop).
    { apply Forall_forall. intros [s a] Hin. rewrite hash_iter_perm, elem_of_map_to_list in Hin. eauto. }
    exists st. intros none w. by rewrite Hloop.
Qed.

(** ** Any request *)

(** What is found under the sequence fits the buffer it is rewritten in when it
    carries a nack. *)
Definition rewritable (m : SendBufferManager.SendBufferManager) (s : Z) : Prop :=
  ∀ sb rest, SendBufferManager.get_send_buffer m s = Ret (Some sb) →
    ByteBuffer.data (SendBufferManager.byte_buffer sb) = MESSAGE_TYPE_RELIABLE_WITH_NACK :: rest →
    len (ByteBuffer.data (SendBufferManager.byte_buffer sb)) ≤ 2054.

Lemma resendable_or_not n log s : resendable n log s ∨ ¬ resendable n log s.
Proof.
  destruct (decide (s = seq_of (behind n s) ∧ 1 ≤ behind n s ∧ n - 1022 ≤ behind n s ≤ n)) as [(E & H1 & H2)|Hno].
  - destruct (log (behind n s)) as [|t rest] eqn:Hlog.
    + right. intros (k & t & rest & -> & ? & ? & Hk & _). rewrite behind_seq_of in Hlog by lia. congruence.
    + destruct (decide (t = MESSAGE_TYPE_RELIABLE_WITH_NACK)) as [->|Ht].
      * right. intros (k & t & rest' & -> & ? & ? & Hk & Ht). rewrite behind_seq_of in Hlog by lia. congruence.
      * left. by exists (behind n s), t, rest.
  - right. intros (k & t & rest & -> & H1 & H2 & _). apply Hno. by rewrite behind_seq_of by lia.
Qed.

Lemma rewrite_returns rb data :
  10 ≤ len data ≤ 2054 → length rb = 2048%nat →
  ∃ rb' n, rewrite_reliable_nack_to_reliable rb data = Ret (rb', n) ∧ 0 ≤ n ≤ len rb' ∧ length rb' = 2048%nat.
Proof.
  intros Hd Hrb. unfold rewrite_reliable_nack_to_reliable. destruct (read_returns data) as [h ->]; [lia|].
  rewrite bind_ret_l. unfold TACHYON_NACKED_HEADER_SIZE, TACHYON_HEADER_SIZE. cbv zeta.
  rewrite slice_in_bounds, bind_ret_l by lia. rewrite copy_in_bounds, bind_ret_l;
    [|lia|rewrite ?length_take, ?length_drop; lia..].
  match goal with |- context [Header.write ?h ?d] => destruct (write_returns h d) as (d' & -> & Hd') end.
  { rewrite length_splice; rewrite ?length_take, ?length_drop; lia. }
  rewrite length_splice in Hd' by (rewrite ?length_take, ?length_drop; lia).
  rewrite bind_ret_l. do 2 eexists. split; [done|]. split; [lia|congruence].
Qed.

(** Whatever is asked for is answered with a datagram. *)
Lemma resend_one_answers c n log s a sock none w :
  sends (send_buffers c) n log → 4 ≤ len none → length (resend_rewrite_buffer c) = 2048%nat →
  rewritable (send_buffers c) s →
  ∃ st rb none' d, resend_one sock (c, none, w) (s, a) =
      Ret (c <| stats := st |> <| resend_rewrite_buffer := rb |>, none', transmit sock (a, d) w) ∧
    (4 ≤ len none' ∧ length rb = 2048%nat) ∧ (resendable n log s → d = log (behind n s)).
Proof.
  intros Hm Hnone Hrb Hs. destruct (resendable_or_not n log s) as [Hyes|Hno].
  { destruct (resend_one_spec c n log s a sock Hm Hyes) as (st & Hone). rewrite Hone.
    exists st, (resend_rewrite_buffer c), none. eexists. split; [by destruct c|done]. }
  unfold rewritable in Hs. rewrite (get_send_buffer_spec _ _ _ _ Hm) in Hs.
  unfold resend_one. cbn [send_buffers count set eta eta_Channel].
  rewrite (get_send_buffer_spec _ _ _ _ Hm), bind_ret_l.
  destruct (SequenceBuffer.at_slot _ _) as [sb|] eqn:Hslot; cbv beta iota zeta.
  - destruct (mg_ok _ _ _ Hm _ _ Hslot) as [Hok _]. specialize (Hs sb).
    pose proof (buffer_ok_length BYTE_BUFFER_SIZE_DEFAULT _ ltac:(unfold BYTE_BUFFER_SIZE_DEFAULT; lia) Hok) as Hl.
    unfold buffer_ok, BYTE_BUFFER_SIZE_DEFAULT in Hok.
    set (data := ByteBuffer.data (SendBufferManager.byte_buffer sb)) in *.
    assert (1240 ≤ len data) as Hlong by (destruct (ByteBuffer.pooled (SendBufferManager.byte_buffer sb)); lia). clear Hok.
    destruct data as [|t rest] eqn:Ed; [simpl in Hlong; lia|]. rewrite read_u8_head, bind_ret_l. cbv beta iota.
    destruct (Z.eqb_spec t MESSAGE_TYPE_RELIABLE_WITH_NACK) as [->|_].
    + destruct (rewrite_returns (resend_rewrite_buffer c) (MESSAGE_TYPE_RELIABLE_WITH_NACK :: rest)) as (rb' & n' & Hrw & Hn' & Hrb');
        [specialize (Hs rest eq_refl eq_refl); lia|done|].
      change (resend_rewrite_buffer (count _ _ c)) with (resend_rewrite_buffer c). rewrite Hrw, !bind_ret_l. cbv beta iota.
      rewrite send_to_spec, !bind_ret_l by done. do 4 eexists. split; [done|]. by split.
    + rewrite send_to_spec, !bind_ret_l by done.
      eexists (stats (count ChannelStats.resent 1 (count ChannelStats.nacks_received 1 c))), (resend_rewrite_buffer c), none, _.
      split; [reflexivity|]. by split.
  - unfold create_none. match goal with |- context [Header.write ?h none] =>
      destruct (write_returns h none Hnone) as (none' & -> & Hnone') end.
    rewrite bind_ret_l. unfold TACHYON_HEADER_SIZE. rewrite send_to_spec, bind_ret_l by lia.
    eexists (stats (count ChannelStats.nones_sent 1 (count ChannelStats.nacks_received 1 c))), (resend_rewrite_buffer c), none', _.
    split; [reflexivity|]. split; [split; [lia|done]|done].
Qed.

Lemma resend_loop_answers n log sock entries : ∀ c none w,
  sends (send_buffers c) n log → 4 ≤ len none → length (resend_rewrite_buffer c) = 2048%nat →
  Forall (λ e, rewritable (send_buffers c) e.1) entries →
  ∃ st rb none' ds, foldl_m (resend_one sock) (c, none, w) entries =
      Ret (c <| stats := st |> <| resend_rewrite_buffer := rb |>, none', transmit_all sock ds w) ∧
    (4 ≤ len none' ∧ length rb = 2048%nat) ∧
    Forall2 (λ e d, d.1 = e.2 ∧ (resendable n log e.1 → d.2 = log (behind n e.1))) entries ds.
Proof.
  induction entries as [|[s a] entries IH]; intros c none w Hm Hnone Hrb He.
  { exists (stats c), (resend_rewrite_buffer c), none, []. split; [by destruct c|]. by split. }
  apply Forall_cons in He as [Hs He].
  destruct (resend_one_answers c n log s a sock none w Hm Hnone Hrb Hs) as (st & rb & none1 & d & Hone & [Hnone1 Hrb1] & Hd).
  set (c1 := c <| stats := st |> <| resend_rewrite_buffer := rb |>) in Hone.
  destruct (IH c1 none1 (transmit sock (a, d) w) Hm Hnone1 Hrb1 He) as (st' & rb' & none' & ds & Hrest & Hok & Hds).
  exists st', rb', none', ((a, d) :: ds). cbn [foldl_m]. rewrite Hone, bind_ret_l. split; [exact Hrest|].
  split; [done|]. by constructor.
Qed.

(** ** The resend of a message that carries a nack *)

Lemma read_plain t id k rest :
  is_u8 t → is_u8 id → Header.read (plain_bytes t id k ++ rest) = Ret (plain_header t id k).
Proof.
  intros Ht Hi. rewrite (read_spec (plain_header t id k)); [done|by apply plain_header_wf|].
  split; [done|]. change (Z.to_nat 0) with 0%nat. rewrite drop_0. f_equal.
Qed.

Lemma rewrite_spec rb id k gap body :
  is_u8 id → length gap = 6%nat → 4 + len body ≤ len rb →
  ∃ rb', rewrite_reliable_nack_to_reliable rb
      (plain_bytes MESSAGE_TYPE_RELIABLE_WITH_NACK id k ++ gap ++ body) = Ret (rb', 4 + len body) ∧
    length rb' = length rb ∧
    firstn (Z.to_nat (4 + len body)) rb' = reliable_datagram id k body.
Proof.
  intros Hid Hgap Hrb. set (p := plain_bytes _ _ _ ++ _).
  assert (len p = 10 + len body) as Hp.
  { unfold p. rewrite !length_app, length_plain_bytes, Hgap. lia. }
  assert (Header.read p = Ret (plain_header MESSAGE_TYPE_RELIABLE_WITH_NACK id k)) as Hread
    by by apply read_plain.
  unfold rewrite_reliable_nack_to_reliable. rewrite Hread, bind_ret_l.
  unfold TACHYON_NACKED_HEADER_SIZE, TACHYON_HEADER_SIZE. cbv zeta.
  rewrite slice_in_bounds, bind_ret_l by lia.
  assert (firstn (Z.to_nat (len p - 10)) (drop (Z.to_nat 10) p) = body) as ->.
  { rewrite Hp. unfold p. rewrite app_assoc, drop_app_length'
      by (rewrite length_app, length_plain_bytes, Hgap; done).
    apply firstn_all2. lia. }
  replace (Z.max 0 (len p - 10)) with (len body) by lia.
  rewrite copy_in_bounds, bind_ret_l by lia.
  rewrite (write_plain _ _ MESSAGE_TYPE_RELIABLE id k); [|done|done|done|rewrite length_splice; lia].
  rewrite bind_ret_l.
  destruct (fill_message 4 MESSAGE_TYPE_RELIABLE id k body rb) as [Hl Ht]; [lia|lia|].
  eexists. split; [done|]. change (Z.to_nat 4) with 4%nat. split; [done|].
  replace (Z.to_nat (4 + len body)) with (4 + length body)%nat by lia.
  rewrite Ht. unfold reliable_datagram. f_equal.
  rewrite (drop_ge (firstn 4 rb)) by (rewrite length_take; lia). done.
Qed.
End resending.

(** ** Properties *)

Section properties.
Context `{Os} `{HashIter}.
Implicit Types (c : Channel) (n k : Z) (log : Z → bytes) (w : World).

(** C29: a reliable message without a nack leaves as one datagram, a header with
    the channel and the next sequence and then exactly its bytes, whatever was
    in the buffer before; it is kept for resends under that sequence, and the
    messages kept before it stay as they were. *)
Theorem reliable_message_is_sent_and_kept c n log addr data body_len sock now w :
  (next_nack c).2 = None →
  sends (send_buffers c) n log → 0 ≤ n → is_u8 (id c) →
  0 ≤ body_len ≤ len data → body_len ≤ isize_max - 10 →
  let d := reliable_datagram (id c) (n + 1) (firstn (Z.to_nat body_len) data) in
  ∃ c' result,
    send_reliable c addr data body_len sock now w = Ret (c', transmit sock (addr, d) w, result) ∧
    TachyonSendResult.sent_len result = as_u32 (transmitted sock (addr, d) w) ∧
    TachyonSendResult.error result = 0 ∧
    sends (send_buffers c') (n + 1) (λ k, if decide (k = n + 1) then d else log k).
Proof.
  intros Hnack Hm Hn Hid Hb Hmax d. destruct (next_nack c) as [c1 nack] eqn:E. simpl in Hnack. subst nack.
  destruct (send_reliable_spec c n log addr data body_len sock now w c1 None E Hm Hn Hid Hb Hmax)
    as (Hstale & c' & result & Hsend & Hlen & Herr & _ & Hsends & _).
  change (4 - 4) with 0 in Hstale. assert (stale_bytes (send_buffers c) (header_len_of None) (body_len + header_len_of None) now = []) as Hnil
    by (apply length_zero_iff_nil; unfold header_len_of, TACHYON_HEADER_SIZE in *; lia).
  rewrite Hnil in Hsend, Hlen, Hsends.
  by exists c', result.
Qed.

(** A message that is to carry a nack does not: its datagram has the
    message type of one that does and six bytes of room, which hold whatever the
    recycled buffer had there; they do not depend on the nack. *)
Lemma carried_nack_is_not_written c n log addr data body_len sock now w :
  sends (send_buffers c) n log → 0 ≤ n → is_u8 (id c) → 0 < nack_redundancy c →
  0 ≤ body_len ≤ len data → body_len ≤ isize_max - 10 →
  ∃ gap, length gap = 6%nat ∧
    ∀ nack rest, Nack.sent_count nack < nack_redundancy c →
      let c0 := c <| receiver := (receiver c) <| Receiver.nack_queue := nack :: rest |> |> in
      let d := plain_bytes MESSAGE_TYPE_RELIABLE_WITH_NACK (id c) (n + 1) ++ gap ++
               firstn (Z.to_nat body_len) data in
      ∃ c' result,
        send_reliable c0 addr data body_len sock now w = Ret (c', transmit sock (addr, d) w, result) ∧
        Receiver.nack_queue (receiver c') =
          rest ++ [nack <| Nack.sent_count := as_u32 (Nack.sent_count nack + 1) |>] ∧
        sends (send_buffers c') (n + 1) (λ k, if decide (k = n + 1) then d else log k).
Proof.
  intros Hm Hn Hid Hred Hb Hmax. exists (stale_bytes (send_buffers c) 10 (body_len + 10) now).
  assert (∀ nack rest, Nack.sent_count nack < nack_redundancy c →
    ∃ c1, next_nack (c <| receiver := (receiver c) <| Receiver.nack_queue := nack :: rest |> |>) =
      (c1, Some (nack <| Nack.sent_count := as_u32 (Nack.sent_count nack + 1) |>)) ∧
      Receiver.nack_queue (receiver c1) =
        rest ++ [nack <| Nack.sent_count := as_u32 (Nack.sent_count nack + 1) |>]) as Hnext.
  { intros nack rest Hs. unfold next_nack. simpl.
    destruct (Z.ltb_spec 0 (nack_redundancy c)); [|lia].
    destruct (Z.ltb_spec (Nack.sent_count nack) (nack_redundancy c)); [|lia]. by eexists. }
  set (nack0 := Nack.default <| Nack.sent_count := nack_redundancy c - 1 |>).
  split.
  - destruct (Hnext nack0 []) as (c1 & E & _); [simpl; lia|].
    destruct (send_reliable_spec _ n log addr data body_len sock now w c1 _ E Hm Hn Hid Hb Hmax) as (Hl & _).
    simpl in Hl. unfold TACHYON_NACKED_HEADER_SIZE in Hl. lia.
  - intros nack rest Hs c0 d. destruct (Hnext nack rest Hs) as (c1 & E & Hq).
    destruct (send_reliable_spec c0 n log addr data body_len sock now w c1 _ E Hm Hn Hid Hb Hmax)
      as (_ & c' & result & Hsend & _ & _ & _ & Hsends & Hr & _).
    exists c', result. split; [exact Hsend|]. split; [by rewrite Hr|exact Hsends].
Qed.

(** The resend of such a message is as long as its whole buffer: the
    datagram has the header of a reliable message and the right body, but
    behind it everything up to the 1240 bytes of the buffer, and the receiver
    cannot tell where the body ends. *)
Lemma resent_message_is_padded c n log none a w sock k gap body :
  sends (send_buffers c) n log → 1 ≤ k → n - 1022 ≤ k ≤ n → is_u8 (id c) →
  log k = plain_bytes MESSAGE_TYPE_RELIABLE_WITH_NACK (id c) k ++ gap ++ body → length gap = 6%nat →
  len body ≤ 1230 → length (resend_rewrite_buffer c) = 2048%nat →
  ∃ c' padding, len body + len padding = 1230 ∧
    resend_one sock (c, none, w) (seq_of k, a) =
      Ret (c', none, transmit sock (a, reliable_datagram (id c) k (body ++ padding)) w).
Proof.
  intros Hm H1 H2 Hid Hlog Hgap Hbody Hrb.
  destruct (lookup_retained c n log k Hm H1 H2) as (sb & Hget & Hh & Hok).
  destruct (holds_data _ _ Hh) as [padding Hd]. pose proof Hh as [Hlen _].
  assert (len (log k) = 10 + len body) as Hl.
  { rewrite Hlog, !length_app, length_plain_bytes, Hgap. lia. }
  assert (len body + len padding = 1230) as Hp.
  { unfold buffer_ok, BYTE_BUFFER_SIZE_DEFAULT in Hok. rewrite Hd, length_app in Hok.
    destruct (ByteBuffer.pooled _); lia. }
  rewrite Hlog, <-!app_assoc in Hd.
  destruct (rewrite_spec (resend_rewrite_buffer c) (id c) k gap (body ++ padding) Hid Hgap)
    as (rb & Hrw & Hlrb & Htake); [rewrite length_app; lia|].
  unfold resend_one. cbn [send_buffers count set eta eta_Channel]. rewrite Hget, bind_ret_l.
  cbv beta iota zeta. rewrite Hd.
  rewrite read_u8_plain, bind_ret_l. cbv beta iota. rewrite Z.eqb_refl.
  change (resend_rewrite_buffer (count _ _ c)) with (resend_rewrite_buffer c).
  rewrite Hrw, !bind_ret_l. cbv beta iota.
  rewrite send_to_spec by (rewrite length_app in *; lia). rewrite !bind_ret_l. cbv beta iota.
  rewrite Htake. by do 2 eexists.
Qed.

(** C19: every request for a message is answered with one datagram, to the
    address that asked last, and the requests are then forgotten: whatever else is
    asked for, a message that is still kept and does not carry a nack is resent
    byte for byte as it was sent.  (What carries a nack is padded, see
    [resent_message_is_padded], and it must not be longer than the buffer it is
    rewritten in.) *)
Theorem resends_are_what_was_sent c n log none sock w `{!HashIterLaws _} :
  sends (send_buffers c) n log → 4 ≤ len none → length (resend_rewrite_buffer c) = 2048%nat →
  (∀ s a, nacked_sequence_map c !! s = Some a → rewritable (send_buffers c) s) →
  ∃ c' none' entries ds,
    entries ≡ₚ map_to_list (nacked_sequence_map c) ∧
    resend_nacked c none sock w = Ret (c', none', transmit_all sock ds w) ∧
    Forall2 (λ e d, d.1 = e.2 ∧ (resendable n log e.1 → d.2 = log (behind n e.1))) entries ds ∧
    nacked_sequence_map c' = ∅ ∧ send_buffers c' = send_buffers c ∧ receiver c' = receiver c.
Proof.
  intros Hm Hnone Hrb Hs.
  destruct (resend_loop_answers n log sock (hash_iter (nacked_sequence_map c)) c none w Hm Hnone Hrb)
    as (st & rb & none' & ds & Hloop & _ & Hds).
  { apply Forall_forall. intros [s a] Hin. rewrite hash_iter_perm, elem_of_map_to_list in Hin. by eapply Hs. }
  unfold resend_nacked. destruct (Z.eqb_spec (Z.of_nat (size (nacked_sequence_map c))) 0) as [E|_].
  - assert (nacked_sequence_map c = ∅) as Em by (apply map_size_empty_inv; lia).
    exists c, none, [], []. rewrite Em. split; [by rewrite map_to_list_empty|]. by split_and!.
  - rewrite Hloop, bind_ret_l. do 4 eexists. split; [apply hash_iter_perm|]. split; [done|]. by split_and!.
Qed.
End properties.
