(* ===== verification/channel_receiving.v ===== *)
(** What a channel hands to the application.

    Published payloads are whole packets; [receive_published] strips the header
    of a reliable message, drops the packets that only fill a sequence, and goes
    on until it has a message or nothing is left. *)

From S2P Require Import prelude sequence sequence_buffer network_address int_buffer header nack byte_buffer_pool.
From S2P Require Import send_buffer_manager receiver receiver_spec receiver_delivery receiver_refinement.
From S2P Require Import receiver_histories fragmentation send_result tachyon_socket channel channel_sending.

Import Channel.

(** A packet that only stands for a message that could not be resent. *)
Definition silent (p : bytes) : Prop := ∃ rest, p = MESSAGE_TYPE_NONE :: rest.

(** The header of a fragment, as the receiver publishes it. *)
Definition fragment_of (h : Header.Header) (p : bytes) : Prop :=
  (∃ rest, p = MESSAGE_TYPE_FRAGMENT :: rest) ∧ ∀ more, Header.read_fragmented (p ++ more) = Ret h.

(** A packet without a message for the application: it only fills a sequence, or
    it is a fragment of a message that cannot be assembled. *)
Definition skippable (f : Fragmentation.Fragmentation) (p : bytes) : Prop :=
  silent p ∨ ∃ h, fragment_of h p ∧ Fragmentation.assemble f h = Ret (f, RErr ()).

(** Only the receiver and the statistics of the channel change. *)
Definition reads (c c' : Channel) : Prop := ∃ r st, c' = c <| receiver := r |> <| stats := st |>.

Lemma reads_refl c : reads c c.
Proof. exists (receiver c), (stats c). by destruct c. Qed.

Lemma reads_trans c1 c2 c3 : reads c1 c2 → reads c2 c3 → reads c1 c3.
Proof. intros (r & st & ->) (r' & st' & ->). by exists r', st'. Qed.

Lemma reads_count f `{!Setter f} n c c' : reads c c' → reads c (count f n c').
Proof. intros (r & st & ->). by eexists r, _. Qed.

Lemma reads_same c c' :
  reads c c' → frag c' = frag c ∧ address c' = address c ∧ id c' = id c.
Proof. by intros (r & st & ->). Qed.

Section receiving.
Implicit Types (c : Channel) (s : Spec.Spec) (p rb body : bytes).

Lemma take_refines r s k p ms :
  refines r s → Spec.out s = (k, p) :: ms →
  ∃ b, (Receiver.take_published r).1 = Some b ∧ payload_of b = p ∧
    refines (Receiver.return_buffer (Receiver.take_published r).2 b) (Spec.consume s) ∧
    refines (Receiver.take_published r).2 (Spec.consume s) ∧
    ∃ rest, ByteBuffer.data b = p ++ rest ∧ ByteBuffer.length b = len p.
Proof.
  intros Hr Ho. destruct (consume_refines r s [] Hr) as (r' & Hev & Hr').
  destruct (rf_published _ _ Hr) as [Hok Hpub]. rewrite Ho in Hpub.
  unfold receive_event, Receiver.take_published in *.
  destruct (Receiver.published r) as [|b rest]; [done|]. injection Hpub as Hp Hms.
  injection Hev as <- _. exists b. split; [done|]. split; [done|]. split; [done|].
  split.
  { destruct Hr as [? ? ? ? ? Hwf ? ? ? ? ? ? _ ?]. apply Forall_cons in Hok as [_ Hok].
    split; simpl; try done; [by apply consume_wf|]. by rewrite Ho. }
  apply Forall_cons in Hok as [Hb _].
  apply buffer_ok_length in Hb; [|unfold BYTE_BUFFER_SIZE_DEFAULT; lia]. unfold payload_of in Hp.
  exists (drop (Z.to_nat (ByteBuffer.length b)) (ByteBuffer.data b)). rewrite <-Hp, take_drop.
  split; [done|]. rewrite length_take. lia.
Qed.

Lemma internal_empty c s rb :
  refines (receiver c) s → Spec.out s = [] →
  receive_published_internal c rb = Ret (c, rb, (0, address c, false)).
Proof.
  intros Hr Ho. destruct (rf_published _ _ Hr) as [_ Hpub]. rewrite Ho in Hpub.
  unfold receive_published_internal, Receiver.take_published.
  destruct (Receiver.published (receiver c)) as [|b rest]; [|done]. by destruct c.
Qed.

Lemma internal_silent c s rb k p ms :
  refines (receiver c) s → Spec.out s = (k, p) :: ms → silent p →
  ∃ c', receive_published_internal c rb = Ret (c', rb, (0, address c, true)) ∧
    reads c c' ∧ refines (receiver c') (Spec.consume s).
Proof.
  intros Hr Ho [rest ->]. destruct (take_refines _ _ _ _ _ Hr Ho) as (b & Htake & _ & Hr' & _ & more & Hd & _).
  unfold receive_published_internal. destruct (Receiver.take_published (receiver c)) as [taken r1].
  simpl in Htake, Hr'. subst taken. rewrite Hd. cbn [app]. rewrite read_u8_head, bind_ret_l.
  cbv beta iota zeta. eexists. split; [done|].
  split; [|exact Hr']. exists (Receiver.return_buffer r1 b), (stats c). reflexivity.
Qed.

(** A fragment: what [assemble] says. *)
Lemma internal_fragment c s rb k p ms h f res :
  refines (receiver c) s → Spec.out s = (k, p) :: ms → fragment_of h p →
  Fragmentation.assemble (frag c) h = Ret (f, res) →
  match res with
  | RErr _ => ∃ c', receive_published_internal c rb = Ret (c', rb, (0, address c, true)) ∧
      reads (c <| frag := f |>) c' ∧ refines (receiver c') (Spec.consume s)
  | ROk m => len m ≤ len rb →
      ∃ c', receive_published_internal c rb = Ret (c', splice 0 m rb, (as_u32 (len m), address c, true)) ∧
        reads (c <| frag := f |>) c' ∧ refines (receiver c') (Spec.consume s)
  end.
Proof.
  intros Hr Ho [[tl Htl] Hread] Has.
  destruct (take_refines _ _ _ _ _ Hr Ho) as (b & Htake & _ & Hr' & Hr1 & more & Hd & _).
  unfold receive_published_internal. destruct (Receiver.take_published (receiver c)) as [taken r1].
  simpl in Htake, Hr', Hr1. subst taken. rewrite Hd, Hread. rewrite Htl. cbn [app].
  rewrite read_u8_head, bind_ret_l. cbv beta iota zeta.
  change (MESSAGE_TYPE_FRAGMENT =? MESSAGE_TYPE_NONE) with false.
  change (MESSAGE_TYPE_FRAGMENT =? MESSAGE_TYPE_FRAGMENT) with true. cbv beta iota.
  change (frag (c <| receiver := r1 |>)) with (frag c). rewrite bind_ret_l, Has, bind_ret_l. cbv beta iota.
  destruct res as [m|e].
  - intros Hm. rewrite copy_in_bounds, bind_ret_l by lia. eexists. split; [done|]. split; [|exact Hr1].
    do 3 apply reads_count. exists r1, (stats c). reflexivity.
  - eexists. split; [done|]. split; [|exact Hr']. exists (Receiver.return_buffer r1 b), (stats c). reflexivity.
Qed.

(** A packet that is skipped. *)
Lemma internal_skippable c s rb k p ms :
  refines (receiver c) s → Spec.out s = (k, p) :: ms → skippable (frag c) p →
  ∃ c', receive_published_internal c rb = Ret (c', rb, (0, address c, true)) ∧
    reads c c' ∧ refines (receiver c') (Spec.consume s).
Proof.
  intros Hr Ho [Hp|(h & Hp & Has)]; [by eapply internal_silent|].
  pose proof (internal_fragment c s rb k p ms h (frag c) (RErr ()) Hr Ho Hp Has) as H. simpl in H.
  by replace (c <| frag := frag c |>) with c in H by (by destruct c).
Qed.

Lemma internal_reliable c s rb k i j body ms :
  refines (receiver c) s → Spec.out s = (k, reliable_datagram i j body) :: ms → len body ≤ len rb → len rb ≤ isize_max →
  ∃ c', receive_published_internal c rb = Ret (c', splice 0 body rb, (as_u32 (len body), address c, true)) ∧
    reads c c' ∧ refines (receiver c') (Spec.consume s).
Proof.
  intros Hr Ho Hlen Hmax. destruct (take_refines _ _ _ _ _ Hr Ho) as (b & Htake & _ & Hr' & _ & more & Hd & Hl).
  unfold receive_published_internal. destruct (Receiver.take_published (receiver c)) as [taken r1].
  simpl in Htake, Hr'. subst taken. unfold reliable_datagram in Hd, Hl.
  rewrite length_app, length_plain_bytes in Hl.
  rewrite Hd, <-app_assoc, read_u8_plain, bind_ret_l. cbv beta iota zeta.
  unfold TACHYON_HEADER_SIZE.
  change (MESSAGE_TYPE_RELIABLE =? MESSAGE_TYPE_NONE) with false.
  change (MESSAGE_TYPE_RELIABLE =? MESSAGE_TYPE_FRAGMENT) with false.
  change (MESSAGE_TYPE_RELIABLE =? MESSAGE_TYPE_RELIABLE_WITH_NACK) with false.
  change (MESSAGE_TYPE_RELIABLE =? MESSAGE_TYPE_RELIABLE) with true. cbv beta iota.
  rewrite Hl, usize_sub_small by (unfold isize_max in Hmax; lia). replace (Z.of_nat (4 + length body) - 4) with (len body) by lia.
  rewrite slice_in_bounds, bind_ret_l by (rewrite ?length_app, ?length_plain_bytes; lia).
  assert (firstn (Z.to_nat (Z.of_nat (4 + length body) - 4))
    (drop (Z.to_nat 4) (plain_bytes MESSAGE_TYPE_RELIABLE i j ++ body ++ more)) = body) as ->.
  { rewrite drop_app_length' by done. apply take_app_length'. lia. }
  rewrite copy_in_bounds, bind_ret_l by lia.
  eexists. split; [done|]. split; [apply reads_count; exists (Receiver.return_buffer r1 b), (stats c); reflexivity|exact Hr'].
Qed.

(** [receive_published] with at least [n] rounds left. *)
Lemma receive_published_skips c s rb ms1 ms2 n :
  refines (receiver c) s → Spec.out s = ms1 ++ ms2 → Forall (λ m, skippable (frag c) m.2) ms1 →
  (length ms1 < n)%nat →
  ∃ c' s', receive_published_loop n c rb = receive_published_loop (n - length ms1) c' rb ∧
    reads c c' ∧ refines (receiver c') s' ∧ s' = s <| Spec.out := ms2 |>.
Proof.
  intros Hr Ho Hms. remember (frag c) as f eqn:Ef. revert c s n Hr Ho Ef.
  induction Hms as [|[k p] ms1 Hp _ IH]; intros c s n Hr Ho -> Hn.
  { exists c, s. rewrite Nat.sub_0_r. split; [done|]. split; [apply reads_refl|]. split; [done|].
    simpl in Ho. rewrite <-Ho. by destruct s. }
  destruct n as [|n]; [simpl in Hn; lia|].
  destruct (internal_skippable c s rb k p (ms1 ++ ms2) Hr Ho Hp) as (c1 & Hint & Hc1 & Hr1).
  destruct (IH c1 (Spec.consume s) n Hr1) as (c' & s' & Hloop & Hc' & Hr' & Hs').
  { unfold Spec.consume. simpl. by rewrite Ho. }
  { by destruct (reads_same _ _ Hc1) as [-> _]. }
  { simpl in Hn. lia. }
  exists c', s'. split; [|split; [by eapply reads_trans|split; [done|by rewrite Hs']]].
  cbn [receive_published_loop]. rewrite Hint, bind_ret_l. cbv beta iota zeta. simpl. apply Hloop.
Qed.
End receiving.

Section published.
Implicit Types (c : Channel) (s : Spec.Spec) (rb body : bytes).

Lemma receive_published_message c s rb ms1 ms2 k i j body :
  refines (receiver c) s → Spec.out s = ms1 ++ (k, reliable_datagram i j body) :: ms2 →
  Forall (λ m, skippable (frag c) m.2) ms1 → (length ms1 < 1000)%nat →
  0 < len body < 2 ^ 32 → len body ≤ len rb → len rb ≤ isize_max →
  ∃ c', receive_published c rb = Ret (c', splice 0 body rb, (len body, address c)) ∧
    reads c c' ∧ refines (receiver c') (s <| Spec.out := ms2 |>).
Proof.
  intros Hr Ho Hms Hn Hbody Hlen Hmax.
  destruct (receive_published_skips c s rb ms1 _ 1000 Hr Ho Hms Hn) as (c1 & s1 & Hloop & Hc1 & Hr1 & ->).
  unfold receive_published. rewrite Hloop.
  destruct (1000 - length ms1)%nat as [|n] eqn:En; [lia|].
  destruct (internal_reliable c1 _ rb k i j body ms2 Hr1 eq_refl Hlen Hmax) as (c2 & Hint & Hc2 & Hr2).
  exists c2. cbn [receive_published_loop]. rewrite Hint, bind_ret_l. cbv beta iota zeta.
  rewrite as_u32_small by lia. destruct (Z.ltb_spec 0 (len body)); [|lia].
  replace (address c1) with (address c) by (by destruct Hc1 as (? & ? & ->)).
  split; [done|]. split; [|done]. by eapply reads_trans.
Qed.

(** A channel without published messages is left as it is. *)
Lemma receive_published_empty c rb :
  Receiver.published (receiver c) = [] → receive_published c rb = Ret (c, rb, (0, address c)).
Proof.
  intros Hp. assert (∀ n, receive_published_loop (S n) c rb = Ret (c, rb, (0, address c))) as Hloop;
    [intros n|exact (Hloop 999%nat)].
  cbn [receive_published_loop]. unfold receive_published_internal, Receiver.take_published. rewrite Hp, bind_ret_l. cbv beta iota zeta.
  simpl. by destruct c.
Qed.

Lemma refines_nothing_published r s : refines r s → Spec.out s = [] → Receiver.published r = [].
Proof.
  intros Hr Ho. destruct (rf_published _ _ Hr) as [_ Hpub]. rewrite Ho in Hpub.
  by destruct (Receiver.published r).
Qed.

Lemma receive_published_nothing c s rb :
  refines (receiver c) s → Forall (λ m, skippable (frag c) m.2) (Spec.out s) → (length (Spec.out s) < 1000)%nat →
  ∃ c', receive_published c rb = Ret (c', rb, (0, address c)) ∧
    reads c c' ∧ refines (receiver c') (s <| Spec.out := [] |>).
Proof.
  intros Hr Hms Hn.
  destruct (receive_published_skips c s rb (Spec.out s) [] 1000 Hr) as (c1 & s1 & Hloop & Hc1 & Hr1 & ->);
    [by rewrite app_nil_r|done|done|].
  unfold receive_published. rewrite Hloop.
  destruct (1000 - length (Spec.out s))%nat as [|n] eqn:En; [lia|].
  exists c1. cbn [receive_published_loop]. rewrite (internal_empty c1 _ rb Hr1) by done.
  rewrite bind_ret_l. cbv beta iota zeta. 
  replace (address c1) with (address c) by (by destruct Hc1 as (? & ? & ->)). by split.
Qed.

(** C23: reading from a channel skips the packets that only fill a sequence and
    the fragments of messages that cannot be assembled, and
    returns the next reliable message: its body, without the header, at the
    front of the application's buffer, with its length.  When there is none it
    returns length 0 and leaves the buffer as it is.  In both cases the
    application has consumed exactly what was skipped and returned. *)
Theorem published_messages_are_read c s rb :
  refines (receiver c) s → len rb ≤ isize_max →
  (∀ ms1 k i j body ms2,
    Spec.out s = ms1 ++ (k, reliable_datagram i j body) :: ms2 →
    Forall (λ m, skippable (frag c) m.2) ms1 → (length ms1 < 1000)%nat → 0 < len body < 2 ^ 32 → len body ≤ len rb →
    ∃ c', receive_published c rb = Ret (c', splice 0 body rb, (len body, address c)) ∧
      reads c c' ∧ refines (receiver c') (s <| Spec.out := ms2 |>)) ∧
  (Forall (λ m, skippable (frag c) m.2) (Spec.out s) → (length (Spec.out s) < 1000)%nat →
    ∃ c', receive_published c rb = Ret (c', rb, (0, address c)) ∧
      reads c c' ∧ refines (receiver c') (s <| Spec.out := [] |>)).
Proof.
  intros Hr Hmax. split.
  - intros ms1 k i j body ms2 Ho Hms Hn Hbody Hlen. by eapply receive_published_message.
  - by apply receive_published_nothing.
Qed.
End published.
