(* ===== verification/channel_recovery.v ===== *)
(** Lost messages are asked for and sent again.

    The two ends of a channel together: the receiver's nacks travel as one
    datagram, the sender collects the sequences it names, and its next update
    resends them. *)

From S2P Require Import prelude sequence sequence_buffer network_address int_buffer header nack byte_buffer_pool.
From S2P Require Import send_buffer_manager receiver receiver_spec receiver_delivery receiver_refinement.
From S2P Require Import receiver_histories receiver_nacks fragmentation send_result tachyon_socket channel channel_sending.

Import Channel.

#[local] Arguments TachyonSocket.send_to : simpl never.

(** ** The sequences collected for resends *)

Lemma copy_nacked_spec l a :
  NoDup l →
  map_to_list (foldl (λ (m : gmap Z NetworkAddress.NetworkAddress) s, <[s := a]> m) ∅ l) ≡ₚ (., a) <$> l.
Proof.
  intros Hl.
  assert (foldl (λ (m : gmap Z NetworkAddress.NetworkAddress) s, <[s := a]> m) ∅ l =
    list_to_map ((., a) <$> reverse l)) as ->.
  { rewrite foldl_foldr_reverse || rewrite <-(reverse_involutive l) at 1.
    induction (reverse l) as [|s l' IH]; [done|]. rewrite reverse_cons, foldl_snoc. simpl. by rewrite IH. }
  rewrite map_to_list_to_map.
  - by rewrite reverse_Permutation.
  - rewrite <-list_fmap_compose. simpl. rewrite list_fmap_id. by rewrite reverse_Permutation.
Qed.

(** ** The nack datagram *)

Definition nack_datagram `{VarintOps} (id : Z) (nks : list Nack.Nack) : bytes :=
  plain_bytes MESSAGE_TYPE_NACK id 0 ++ enc_nack_message nks.

Section nacks.
Context `{Os} `{VarintOps} `{!Varint _}.
Implicit Types (c : Channel) (w : World).

Lemma send_nacks_spec c s :
  refines (receiver c) s → Spec.window s ≤ 1984 → is_u8 (id c) → length (nack_send_data c) = 512%nat →
  ∃ r' k data st, Receiver.create_nacks (receiver c) = Ret (r', k) ∧ len (Receiver.nack_list r') ≤ 62 ∧
    (Receiver.nack_list r' ≠ [] →
     ∀ sock w, send_nacks c sock w =
       Ret (c <| receiver := r' |> <| nack_send_data := data |> <| stats := st |>,
            transmit sock (address c, nack_datagram (id c) (Receiver.nack_list r')) w)).
Proof.
  intros Hr Hw Hid Hlen. destruct (create_nacks_spec (receiver c) s Hr) as (r' & m & Hc & _ & Hwf & _).
  pose proof (create_nacks_length _ _ _ Hc) as Hl. destruct (rf_window _ _ Hr) as [Ew _]. rewrite Ew in Hl.
  assert (Spec.window s / 32 ≤ 62) as Hd by (apply Z.div_le_upper_bound; lia).
  assert (len (Receiver.nack_list r') ≤ 62) as Hn by lia. clear Hl Hd.
  pose proof (length_enc_nack_message _ Hwf ltac:(lia)) as Hm.
  set (nks := Receiver.nack_list r') in *.
  set (data := splice 4 (enc_nack_message nks) (splice 0 (plain_bytes MESSAGE_TYPE_NACK (id c) 0) (nack_send_data c))).
  exists r'. eexists _, data, _. split; [exact Hc|]. split; [done|]. intros Hne sock w.
  unfold send_nacks. rewrite Hc, bind_ret_l. cbv beta iota zeta.
  change (Receiver.nack_list (receiver (c <| receiver := r' |>))) with nks.
  assert (len nks ≠ 0) as Hne0 by (fold nks in Hne; intros E; apply Hne, length_zero_iff_nil; lia).
  destruct (Z.eqb_spec (len nks) 0); [done|].
  rewrite (write_plain _ _ MESSAGE_TYPE_NACK (id c) 0);
    [|reflexivity|done|done|cbn [nack_send_data set]; lia].
  rewrite bind_ret_l.
  set (d0 := splice 0 _ _) in *. assert (length d0 = 512%nat) as Hd0.
  { unfold d0. rewrite length_splice; [done|]. rewrite length_plain_bytes. cbn [nack_send_data set]. lia. }
  change (splice 0 _ (nack_send_data (c <| receiver := r' |>))) with d0.
  change (Receiver.nack_list (receiver (c <| receiver := r' |>))) with nks.
  rewrite write_varint_spec, bind_ret_l by (done || unfold TACHYON_HEADER_SIZE; lia).
  cbv beta iota zeta. change (Z.to_nat TACHYON_HEADER_SIZE) with 4%nat. fold data.
  assert (length data = 512%nat) as Hdata by (unfold data; rewrite length_splice; lia).
  unfold TACHYON_HEADER_SIZE. rewrite send_to_spec by lia. rewrite bind_ret_l. cbv beta iota.
  assert (firstn (Z.to_nat (4 + len (enc_nack_message nks))) data = nack_datagram (id c) nks) as ->; [|done].
  assert (data = splice 0 (nack_datagram (id c) nks) (nack_send_data c)) as ->.
  { apply (splice_app 0 (plain_bytes MESSAGE_TYPE_NACK (id c) 0) (enc_nack_message nks)).
    rewrite length_plain_bytes. lia. }
  rewrite splice_0. apply take_app_length'. unfold nack_datagram. rewrite length_app, length_plain_bytes. lia.
Qed.

Lemma process_nack_spec c a id nks :
  Forall nack_wf nks → len nks < 65536 → nacked_sequence_map c = ∅ → NoDup (all_nacked nks []) →
  ∃ c', (∀ junk, process_nack_message c a (nack_datagram id nks ++ junk) = Ret c') ∧
    map_to_list (nacked_sequence_map c') ≡ₚ (., a) <$> all_nacked nks [] ∧
    send_buffers c' = send_buffers c ∧ receiver c' = receiver c ∧
    Channel.id c' = Channel.id c ∧ Channel.address c' = Channel.address c.
Proof.
  intros Hwf Hn Hmap Hnd. eexists. split.
  - intros junk. unfold process_nack_message. cbv zeta.
    rewrite (read_varint_spec nks _ _ _ junk Hwf Hn); [reflexivity|].
    split; [done|]. change (Z.to_nat TACHYON_HEADER_SIZE) with 4%nat. unfold nack_datagram.
    rewrite <-app_assoc. by apply drop_app_length'.
  - unfold copy_nacked_to_map. cbn [nacked_sequence_map nacked_sequences set send_buffers receiver Channel.id Channel.address].
    rewrite Hmap. split; [by apply copy_nacked_spec|done].
Qed.
End nacks.

(** ** One round of recovery on an ordered channel *)

Section recovery.
Implicit Types (w n f k : Z) (log : Z → bytes) (es : list event) (A : gset Z).

Lemma frontier_le A f i : is_frontier A f → (∀ j, j ∈ A → j ≤ i) → 0 ≤ i → f ≤ i.
Proof. intros (H0 & H1 & _) Hi H. destruct (Z.le_gt_cases f i); [done|]. specialize (Hi f (H1 f ltac:(lia))). lia. Qed.

(** Messages between the frontier and the newest one are on time, also while
    others of them arrive. *)
Lemma resent_on_time log w f i ks : ∀ A,
  (∀ j, 1 ≤ j ≤ f → j ∈ A) → (∀ j, j ∈ A → j ≤ i) → 0 ≤ f → 0 ≤ w ≤ 1022 → i ≤ f + w →
  Forall (λ k, f < k ≤ i ∧ len (log k) ≤ isize_max) ks →
  on_time w log A (arrive log ks).
Proof.
  induction ks as [|k ks IH]; intros A Hf Hi Hf0 Hw Hiw Hks; [done|].
  apply Forall_cons in Hks as [[Hk Hl] Hks]. simpl. split_and!; [lia|lia|lia|done| | |].
  - unfold payload. apply firstn_all2. lia.
  - intros f' Hf'. pose proof (frontier_le _ _ _ Hf' Hi ltac:(lia)). destruct Hf' as (H0 & _ & H2).
    assert (f ≤ f') by (destruct (Z.le_gt_cases f f'); [done|]; destruct H2; apply Hf; lia). lia.
  - apply IH; try done; [set_solver|set_solver by lia].
Qed.

Lemma create_nacks_refines r s r' k :
  refines r s → Receiver.create_nacks r = Ret (r', k) → refines r' s.
Proof.
  intros Hr Hc. destruct (create_nacks_spec r s Hr) as (r2 & m & Hc' & _ & _ & _ & _ & _ & _ & _ & Hrest).
  rewrite Hc in Hc'. injection Hc' as -> _. rewrite <-Hrest in Hr. by destruct Hr.
Qed.

(** The state of an ordered receiver after a history that was on time. *)
Lemma on_time_state w log es r taken :
  1 ≤ w ≤ 1022 → on_time w log ∅ es → receive_run (Receiver.create true w, []) es = Ret (r, taken) →
  ∃ t mine, taken = mine.*2 ∧ refines r t ∧ timely log (list_to_set (arrivals es)) t ∧
    Spec.ordered t = true ∧ Spec.window t = w ∧ Spec.last t = newest es ∧
    (delivered (t, mine)).*2 = log <$> seqZ 1 (Spec.cur t).
Proof.
  intros Hw Hes Hrun. pose proof (timely_init log true w ltac:(lia)) as Ht.
  pose proof (on_time_within_reach log es ∅ (Spec.init true w) Ht ltac:(simpl; lia) Hes) as Hreach.
  destruct (run_refines es _ (Spec.init true w) [] (refines_create true w ltac:(lia)) Hreach) as (r' & Hrun' & Hr').
  destruct (on_time_run log ∅ (Spec.init true w) [] es Ht Hes) as (t & mine & Hspec & Ht' & Hd & _).
  pose proof (spec_run_last es (Spec.init true w) [] (init_wf true w ltac:(lia))) as Hlast.
  pose proof (spec_run_ordered (Spec.init true w, []) es) as Ho.
  pose proof (spec_run_window (Spec.init true w, []) es) as Hwin.
  rewrite Hspec in *. injection (eq_trans (eq_sym Hrun) Hrun') as -> ->. simpl in *.
  exists t, mine. rewrite (right_id_L ∅ (∪)) in Ht'. split_and!; try done.
  - rewrite Hlast. pose proof (newest_spec es). lia.
  - rewrite Hd. unfold msgs. simpl. rewrite <-list_fmap_compose, Z.sub_0_r. done.
Qed.

(** When what is missing below [m] arrives, everything up to [m] has. *)
Lemma filled_frontier (A B : gset Z) f m :
  is_frontier A f → 0 ≤ m → (0 < m → m ∈ A) → (∀ i, i ∈ A → i ≤ m) → (∀ i, i ∈ B → i ≤ m) →
  (∀ i, f < i < m → i ∉ A → i ∈ B) → is_frontier (B ∪ A) m.
Proof.
  intros (Hf0 & Hf1 & _) H0 Hm HA HB Hfill. split_and!; [done| |].
  - intros i Hi. apply elem_of_union. destruct (decide (i ∈ A)) as [|Hni]; [by right|left].
    apply Hfill; [|done]. split.
    + apply Z.nle_gt. intros Hle. apply Hni, Hf1. lia.
    + destruct (decide (i = m)) as [->|]; [|lia]. destruct Hni. apply Hm. lia.
  - intros [Hi%HB|Hi%HA]%elem_of_union; lia.
Qed.

(** When the missing messages arrive, in any order, everything is delivered. *)
Lemma recovered w log es r t (mine : list (Z * bytes)) ks :
  1 ≤ w ≤ 1022 → refines r t → timely log (list_to_set (arrivals es)) t →
  Spec.ordered t = true → Spec.window t = w → Spec.last t = newest es → Spec.cur t < newest es →
  (delivered (t, mine)).*2 = log <$> seqZ 1 (Spec.cur t) →
  (∀ k, k ∈ ks ↔ Spec.cur t < k < newest es ∧ k ∉ arrivals es) →
  Forall (λ k, len (log k) ≤ isize_max) ks →
  ∃ r' (taken' : list bytes),
    receive_run (r, mine.*2) (arrive log ks) = Ret (r', taken') ∧
    delivered_payloads (r', taken') = log <$> seqZ 1 (newest es).
Proof.
  intros Hw Hr Ht Ho Hwin Hlast Hcur Hd Hks Hlen. destruct (newest_spec es) as (H0 & Hmax & Hin).
  pose proof (tm_frontier _ _ _ Ht) as (Hf0 & Hf1 & _). destruct (tm_window _ _ _ Ht) as [_ Hlw].
  assert (on_time (lookahead (Spec.ordered t) (Spec.window t)) log (list_to_set (arrivals es)) (arrive log ks))
    as Hon.
  { rewrite Ho, Hwin. simpl. apply (resent_on_time _ _ (Spec.cur t) (newest es)); try (done || lia).
    - intros j Hj%elem_of_list_to_set. by apply Hmax.
    - apply Forall_forall. intros k Hk. split; [apply Hks in Hk; lia|]. by eapply Forall_forall in Hlen. }
  pose proof (on_time_within_reach _ _ _ _ Ht ltac:(lia) Hon) as Hreach.
  destruct (run_refines _ _ _ mine Hr Hreach) as (r' & Hrun & Hr').
  destruct (on_time_run _ _ _ mine _ Ht Hon) as (t' & mine' & Hspec & Ht' & Hd' & Hc).
  rewrite Hspec in Hrun, Hr'. exists r', mine'.*2. split; [exact Hrun|].
  rewrite (refines_delivered r' t' mine' Hr'), Hd', fmap_app, Hd, Ho.
  assert (Spec.cur t' = newest es) as ->.
  { apply (is_frontier_unique _ _ _ (tm_frontier _ _ _ Ht')). rewrite arrivals_arrive.
    apply (filled_frontier _ _ _ _ (tm_frontier _ _ _ Ht)); [done|intros Hp; by apply elem_of_list_to_set, Hin| | |].
    - intros i Hi%elem_of_list_to_set. by apply Hmax.
    - intros i Hi%elem_of_list_to_set. apply Hks in Hi. lia.
    - intros i Hi Hni. apply elem_of_list_to_set, Hks. by rewrite <-(elem_of_list_to_set (C:=gset Z)). }
  unfold msgs. rewrite <-list_fmap_compose, <-fmap_app. simpl.
  replace (seqZ 1 (newest es)) with (seqZ 1 (Spec.cur t + (newest es - Spec.cur t))) by (f_equal; lia).
  rewrite seqZ_app by lia. do 2 f_equal. f_equal. lia.
Qed.
End recovery.

(** The resends of the messages a list of sequences names. *)
Lemma resends_named n log a entries ks :
  entries ≡ₚ (., a) <$> (seq_of <$> ks) → Forall (λ k, n - 65535 < k ≤ n) ks →
  ∃ lost, lost ≡ₚ ks ∧ resends n log entries = (λ k, (a, log k)) <$> lost.
Proof.
  intros He Hks. exists (behind n ∘ fst <$> entries). split.
  - rewrite He, <-!list_fmap_compose. rewrite <-(list_fmap_id ks) at 2.
    match goal with |- ?l ≡ₚ ?l' => assert (l = l') as ->; [|done] end.
    apply list_fmap_ext. intros i k Hk. apply behind_seq_of. exact (Forall_lookup_1 _ _ _ _ Hks Hk).
  - unfold resends. rewrite <-list_fmap_compose. apply list_fmap_ext. intros i [s b] Hi. simpl.
    assert ((s, b) ∈ (., a) <$> (seq_of <$> ks)) as (k & [= -> ->] & _)%list_elem_of_fmap; [|done].
    rewrite <-He. by eapply list_elem_of_lookup_2.
Qed.


(** ** Property *)

Section property.
Context `{Os} `{VarintOps} `{!Varint _} `{HashIter} `{!HashIterLaws _}.

(** C6: what is lost is sent again.  An ordered channel has received some of the
    messages of a sender that kept them, and the messages missing below the
    newest one lie within window/32 of it.  The receiver's nacks are one
    datagram; the sender that reads it collects exactly the missing messages,
    and its resend transmits each of them once, as it was sent; when they arrive
    the application has got every message up to the newest one, in order. *)
Theorem lost_messages_are_recovered w log es n f taken a none sock sock' wd wd' (cr cs : Channel) :
  1 ≤ w ≤ 1022 → on_time w log ∅ es →
  receive_run (Receiver.create true w, []) es = Ret (receiver cr, taken) →
  is_frontier (list_to_set (arrivals es)) f → f + 1 < newest es → newest es - 1 - f ≤ w / 32 →
  is_u8 (id cr) → length (nack_send_data cr) = 512%nat →
  sends (send_buffers cs) n log → nacked_sequence_map cs = ∅ → newest es ≤ n → n - 1023 ≤ f →
  (∀ k, f < k < newest es → k ∉ arrivals es →
    ∃ body, log k = reliable_datagram (id cs) k body ∧ len (log k) ≤ isize_max) →
  ∃ lost d cr' cs1 cs2 r' (taken' : list bytes),
    NoDup lost ∧ (∀ k, k ∈ lost ↔ f < k < newest es ∧ k ∉ arrivals es) ∧
    send_nacks cr sock wd = Ret (cr', transmit sock (address cr, d) wd) ∧
    (∀ junk, process_nack_message cs a (d ++ junk) = Ret cs1) ∧
    resend_nacked cs1 none sock' wd' =
      Ret (cs2, none, transmit_all sock' ((λ k, (a, log k)) <$> lost) wd') ∧
    receive_run (receiver cr', taken) (arrive log lost) = Ret (r', taken') ∧
    delivered_payloads (r', taken') = log <$> seqZ 1 (newest es).
Proof.
  intros Hw Hes Hrun Hf Hgap Hwin Hid Hlen Hsends Hmap Hn Hkept Hlog.
  destruct (on_time_state w log es _ _ Hw Hes Hrun) as (t & mine & -> & Hr & Ht & Ho & Ewin & Elast & Hd).
  assert (Spec.cur t = f) as <- by (by apply (is_frontier_unique _ _ _ (tm_frontier _ _ _ Ht))).
  pose proof Hf as (Hf0 & _).
  destruct (create_nacks_spec _ t Hr) as (r1 & m & Hc & Hall & Hwf & Hnd & _ & Hmiss & Hm & Hnear & _).
  assert (m = newest es - 1 - Spec.cur t) as -> by (rewrite Elast, Ewin in Hm; lia).
  clear Hm. rewrite Elast in *.
  set (ks := missing_down t (newest es - 1) (newest es - 1 - Spec.cur t)) in *.
  assert (∀ k, k ∈ ks ↔ Spec.cur t < k < newest es ∧ k ∉ arrivals es) as Hks.
  { intros k. unfold ks. rewrite elem_of_missing_down, (tm_got _ _ _ Ht), elem_of_list_to_set.
    destruct (decide (k ∈ arrivals es)); naive_solver lia. }
  destruct (send_nacks_spec cr t Hr ltac:(lia) Hid Hlen) as (r1' & k' & data & st & Hc' & Hcount & Hsend).
  rewrite Hc in Hc'. injection Hc' as <- _.
  assert (Receiver.nack_list r1 ≠ []) as Hne.
  { intros E. rewrite E in Hall. simpl in Hall. apply (f_equal List.length) in Hall. rewrite length_fmap in Hall.
    assert (Spec.cur t + 1 ∈ ks) as Hin; [|destruct ks; [by apply elem_of_nil in Hin|done]].
    apply Hks. split; [lia|]. rewrite <-(elem_of_list_to_set (C:=gset Z)). by destruct Hf as (_ & _ & ?). }
  specialize (Hsend Hne). set (d := nack_datagram _ _) in Hsend.
  destruct (process_nack_spec cs a (id cr) (Receiver.nack_list r1) Hwf ltac:(lia) Hmap Hnd)
    as (cs1 & Hproc & Hmap1 & Hsb1 & _ & Hid1 & _).
  rewrite Hall in Hmap1. rewrite <-Hsb1 in Hsends.
  destruct (resend_nacked_spec cs1 n log sock' Hsends) as (st' & Hresend).
  { intros s b Hsb. apply elem_of_map_to_list in Hsb. rewrite Hmap1 in Hsb.
    apply list_elem_of_fmap in Hsb as (s' & [= <- <-] & Hs'). apply list_elem_of_fmap in Hs' as (k & -> & Hk).
    apply Hks in Hk as [Hk Hna]. destruct (Hlog k Hk Hna) as (body & E & _).
    exists k, MESSAGE_TYPE_RELIABLE. eexists. split; [done|]. split; [lia|]. split; [lia|]. split; [exact E|done]. }
  destruct (resends_named n log a (hash_iter (nacked_sequence_map cs1)) ks) as (lost & Hlost & Eresends).
  { by rewrite hash_iter_perm. }
  { apply Forall_forall. intros k Hk%Hks. lia. }
  rewrite Eresends in Hresend.
  assert (∀ k, k ∈ lost ↔ Spec.cur t < k < newest es ∧ k ∉ arrivals es) as Hlk.
  { intros k. by rewrite Hlost. }
  destruct (recovered w log es r1 t mine lost) as (r' & taken' & Hrun' & Hd'); try done; [..|].
  { by eapply create_nacks_refines. }
  { lia. }
  { apply Forall_forall. intros k Hk. apply Hlk in Hk as [Hk Hna]. by destruct (Hlog k Hk Hna) as (? & _ & ?). }
  exists lost, d. do 3 eexists. exists r', taken'.
  split; [|split; [exact Hlk|]]. { rewrite Hlost. apply NoDup_filter, down_NoDup. }
  split; [apply Hsend|]. split; [exact Hproc|]. split; [apply Hresend|]. done.
Qed.
End property.
