(* ===== verification/tachyon_admission.v ===== *)
(** Which datagrams a server lets through. *)

From S2P Require Import prelude network_address int_buffer header nack send_result tachyon_socket unreliable_sender.
From S2P Require Import receiver channel connection tachyon_state connection_impl tachyon.

Import NetworkAddress Tachyon ConnectionImpl TachyonIo.

Section admission.
Context `{Callbacks} `{VarintOps} `{HashIter} `{!OsLaws _}.
Implicit Types (t : Tachyon) (w : World) (rb d : bytes).

(** A server's socket without simulated losses gives the datagram and its source. *)
Lemma server_receive t sock w w' d src :
  TachyonSocket.socket (socket t) = Some sock → TachyonSocket.is_server (socket t) = true →
  TachyonConfig.drop_packet_chance (config t) = 0 →
  os_recv_from sock (len (socket_receive_buffer t)) w = (w', Some (d, src)) →
  TachyonSocket.receive (socket t) (socket_receive_buffer t) (TachyonConfig.drop_packet_chance (config t))
    (TachyonConfig.drop_reliable_only (config t) =? 1) w =
  Ret (socket t, splice 0 d (socket_receive_buffer t), w', TachyonSocket.RSuccess (len d) (from_socket_addr src)).
Proof.
  intros Hsock Hserver Hdrop Hrecv. unfold TachyonSocket.receive.
  by rewrite Hsock, Hserver, Hrecv, Hdrop.
Qed.

(** C32: a server that uses identities ignores a peer that is not linked: from an
    address without a connection, or with one that has no identity, every
    datagram of at least a byte but a link or unlink request is read from the
    socket and changes nothing: no channel, no connection, no event, no answer.
    Only the receive buffer has it, and when losses are simulated the generator
    and the count of dropped packets may go on.  (A datagram of no bytes is taken
    for what the last one left in the buffer: [empty_datagram_repeats_link].) *)
Theorem unlinked_peers_are_ignored t sock w w' ty body src now :
  TachyonSocket.socket (socket t) = Some sock → TachyonSocket.is_server (socket t) = true →
  TachyonConfig.use_identity (config t) = 1 → 4 ≤ len (socket_receive_buffer t) →
  os_recv_from sock (len (socket_receive_buffer t)) w = (w', Some (ty :: body, src)) →
  ty ≠ MESSAGE_TYPE_LINK_IDENTITY → ty ≠ MESSAGE_TYPE_UNLINK_IDENTITY →
  (∀ conn, connections t !! from_socket_addr src = Some conn → Identity.id (Connection.identity conn) = 0) →
  ∃ rng dropped, receive_from_socket t now w =
      Ret (t <| socket := (socket t) <| TachyonSocket.rng := rng |> |>
             <| socket_receive_buffer := splice 0 (ty :: body) (socket_receive_buffer t) |>
             <| stats := (stats t) <| TachyonStats.packets_dropped := dropped |> |>, w', Retry) ∧
    (TachyonConfig.drop_packet_chance (config t) ≤ 0 →
      rng = TachyonSocket.rng (socket t) ∧ dropped = TachyonStats.packets_dropped (stats t)).
Proof.
  intros Hsock Hserver Huse Hbuf Hrecv Hl Hu Hconn.
  assert (len (ty :: body) ≤ len (socket_receive_buffer t)) as Hd by (eapply os_recv_from_fits; [|done]; lia).
  assert (len (splice 0 (ty :: body) (socket_receive_buffer t)) = len (socket_receive_buffer t)) as Hlen
    by (rewrite length_splice; lia).
  unfold receive_from_socket, TachyonSocket.receive. rewrite Hsock, Hserver, Hrecv.
  assert (∃ rest, splice 0 (ty :: body) (socket_receive_buffer t) = ty :: rest) as [rest Erest] by (rewrite splice_0; by eexists).
  set (buffer := splice 0 (ty :: body) (socket_receive_buffer t)) in *.
  destruct (should_drop_draws (socket t) buffer (TachyonConfig.drop_packet_chance (config t))
    (TachyonConfig.drop_reliable_only (config t) =? 1)) as (rng & dropped & -> & Hzero); [lia|].
  rewrite bind_ret_l. cbv beta iota. destruct dropped; rewrite bind_ret_l; cbv beta iota zeta.
  { do 2 eexists. split; [done|]. intros Hc. by apply Hzero in Hc as [_ ?]. }
  set (t1 := t <| socket := _ |> <| socket_receive_buffer := buffer |>). exists rng, (TachyonStats.packets_dropped (stats t)).
  split; [|intros Hc; by split; [apply Hzero|]].
  change (socket_receive_buffer t1) with buffer. destruct (read_returns buffer) as [h Hh]; [lia|].
  assert (Header.message_type h = ty) as Hty by (rewrite Erest in Hh; by apply read_message_type in Hh).
  rewrite Hh, bind_ret_l. unfold admit_datagram.
  change (TachyonSocket.is_server (socket t1)) with (TachyonSocket.is_server (socket t)).
  change (config t1) with (config t). rewrite Hserver, Huse, Hty. change (1 =? 1) with true. cbv iota zeta.
  destruct (Z.eqb_spec ty MESSAGE_TYPE_LINK_IDENTITY); [done|].
  destruct (Z.eqb_spec ty MESSAGE_TYPE_UNLINK_IDENTITY); [done|].
  unfold validate_and_update_linked_connection. change (connections t1) with (connections t).
  transitivity (Ret (t1, w', Retry)); [|unfold t1; destruct (stats t) eqn:Es; clear -Es; destruct t; simpl in Es; by subst].
  destruct (connections t !! from_socket_addr src) as [conn|] eqn:Ec; [|done].
  by rewrite (Hconn conn eq_refl).
Qed.

(** A datagram of no bytes from anyone repeats the link request that the last
    datagram left in the receive buffer, for the address it comes from. *)
Lemma empty_datagram_repeats_link t sock w w' src now link more t' w2 :
  TachyonSocket.socket (socket t) = Some sock → TachyonSocket.is_server (socket t) = true →
  TachyonConfig.drop_packet_chance (config t) = 0 → TachyonConfig.use_identity (config t) = 1 →
  os_recv_from sock (len (socket_receive_buffer t)) w = (w', Some ([], src)) →
  ConnectionHeader.wf link → ConnectionHeader.message_type link = MESSAGE_TYPE_LINK_IDENTITY →
  socket_receive_buffer t = ConnectionHeader.enc link ++ more →
  let peer := from_socket_addr src in
  try_link_identity t peer (ConnectionHeader.id link) (ConnectionHeader.session_id link) now w' = Ret (t', w2, true) →
  receive_from_socket t now w = Ret (t',
    fire_identity_event t' LINK_IDENTITY_EVENT peer (ConnectionHeader.id link) (ConnectionHeader.session_id link) w2, Retry).
Proof.
  intros Hsock Hserver Hdrop Huse Hrecv Hwf Hlink Hbuf peer Htry.
  unfold receive_from_socket. rewrite (server_receive t sock w w' [] src), bind_ret_l by done. cbv beta iota zeta.
  change (splice 0 [] (socket_receive_buffer t)) with (socket_receive_buffer t).
  assert (t <| socket := socket t |> <| socket_receive_buffer := socket_receive_buffer t |> = t) as -> by (by destruct t).
  assert (ConnectionHeader.read (socket_receive_buffer t) = Ret link) as Hread.
  { apply connection_read_spec; [done|]. rewrite Hbuf. split; [done|]. change (Z.to_nat 0) with 0%nat.
    by rewrite drop_0, drop_app_length. }
  assert (∃ rest, socket_receive_buffer t = MESSAGE_TYPE_LINK_IDENTITY :: rest ∧ 4 ≤ len (socket_receive_buffer t)) as (rest & Erest & Hlen).
  { rewrite Hbuf. unfold ConnectionHeader.enc. rewrite Hlink. eexists. split; [done|].
    rewrite !length_app, !length_le_bytes. simpl. lia. }
  destruct (read_returns (socket_receive_buffer t)) as [h Hh]; [done|].
  assert (Header.message_type h = MESSAGE_TYPE_LINK_IDENTITY) as Hty by (rewrite Erest in Hh; by apply read_message_type in Hh).
  rewrite Hh, bind_ret_l. unfold admit_datagram. rewrite Hserver, Huse, Hty.
  change (1 =? 1) with true. change (MESSAGE_TYPE_LINK_IDENTITY =? MESSAGE_TYPE_LINK_IDENTITY) with true. cbv iota zeta.
  rewrite Hread, bind_ret_l. cbv zeta. fold peer. by rewrite Htry, !bind_ret_l.
Qed.

(** The body of an unreliable message without bytes cannot be cut out. *)
Lemma receive_loop_empty (n : nat) t rb now w t' w' a :
  receive_from_socket t now w = Ret (t', w', UnReliable 0 a) →
  receive_loop_n (S n) t rb now w = Panic SliceOutOfRange.
Proof. intros Hone. cbn [receive_loop_n]. by rewrite Hone. Qed.

(** An empty datagram stops the server.  [receive_loop] of a server without
    identities panics on a datagram of no bytes when the datagram before it, or
    none, left the type of an unreliable message at the front of the receive
    buffer; which is so on a new server. *)
Lemma empty_datagram_panics t sock w w' src now rb rest :
  TachyonSocket.socket (socket t) = Some sock → TachyonSocket.is_server (socket t) = true →
  TachyonConfig.drop_packet_chance (config t) = 0 → TachyonConfig.use_identity (config t) = 0 →
  socket_receive_buffer t = MESSAGE_TYPE_UNRELIABLE :: rest → 3 ≤ len rest →
  os_recv_from sock (len (socket_receive_buffer t)) w = (w', Some ([], src)) →
  receive_loop t rb now w = Panic SliceOutOfRange.
Proof.
  intros Hsock Hserver Hdrop Huse Hbuf Hrest Hrecv.
  destruct (read_returns (socket_receive_buffer t)) as [h Hh]; [rewrite Hbuf; simpl; lia|].
  assert (Header.message_type h = MESSAGE_TYPE_UNRELIABLE) as Hty
    by (rewrite Hbuf in Hh; by apply read_message_type in Hh).
  assert (∃ t' w2, receive_from_socket t now w = Ret (t', w2, UnReliable 0 (from_socket_addr src)))
    as (t' & w2 & Hone); [|apply (receive_loop_empty 99 _ _ _ _ _ _ _ Hone)].
  unfold receive_from_socket. rewrite (server_receive t sock w w' [] src), bind_ret_l by done.
  cbv beta iota zeta. change (splice 0 [] (socket_receive_buffer t)) with (socket_receive_buffer t).
  set (t1 := t <| socket := socket t |> <| socket_receive_buffer := socket_receive_buffer t |>).
  change (socket_receive_buffer t1) with (socket_receive_buffer t).
  rewrite Hh, bind_ret_l. unfold admit_datagram.
  change (TachyonSocket.is_server (socket t1)) with (TachyonSocket.is_server (socket t)).
  change (config t1) with (config t). rewrite Hserver, Huse. change (0 =? 1) with false. cbv iota zeta.
  destruct (on_receive_connection_update t1 (from_socket_addr src) now w') as [t2 w2].
  rewrite bind_ret_l. cbv beta iota. rewrite Hty.
  change (MESSAGE_TYPE_UNRELIABLE =? MESSAGE_TYPE_UNRELIABLE) with true. cbv iota zeta. by do 2 eexists.
Qed.
End admission.
