(* ===== verification/tachyon_sending.v ===== *)
(** What [send_reliable] of a [Tachyon] does: the refusals, the message in one
    datagram, and the message in fragments. *)

From S2P Require Import prelude sequence network_address int_buffer header nack byte_buffer_pool send_buffer_manager.
From S2P Require Import receiver fragmentation send_result tachyon_socket unreliable_sender channel connection.
From S2P Require Import tachyon_state connection_impl tachyon channel_sending.

Import NetworkAddress Tachyon ConnectionImpl TachyonIo.

Section sending.
Context `{Callbacks} `{VarintOps} `{HashIter}.
Implicit Types (c : Channel.Channel) (n k : Z) (log : Z → bytes) (w : World).

(** The fragments that are kept under consecutive indices are sent in order. *)
Lemma send_fragments_spec n log address sock ps : ∀ c k sent w,
  sends (Channel.send_buffers c) n log → 1 ≤ k → n - 1022 ≤ k → k + len ps - 1 ≤ n →
  (∀ i p, ps !! i = Some p → log (k + Z.of_nat i) = p) →
  ∃ c' sent', send_fragments c address sock (seq_of <$> seqZ k (len ps)) sent w =
      Ret (c', transmit_all sock ((address,.) <$> ps) w, sent', true) ∧
    Channel.send_buffers c' = Channel.send_buffers c ∧ Channel.frag c' = Channel.frag c ∧
    Channel.id c' = Channel.id c ∧ Channel.receiver c' = Channel.receiver c.
Proof.
  induction ps as [|p ps IH]; intros c k sent w Hm Hk1 Hk2 Hn Hlog; [by do 2 eexists|].
  cbn [length] in *. rewrite (seqZ_cons k) by lia. cbn [fmap list_fmap send_fragments].
  destruct (lookup_retained c n log k Hm Hk1 ltac:(lia)) as (sb & Hget & Hh & _).
  rewrite Hget, bind_ret_l. cbv beta iota zeta.
  pose proof (Hlog 0%nat p eq_refl) as Hp. rewrite Z.add_0_r in Hp. rewrite Hp in Hh.
  pose proof Hh as [Hlen _]. destruct (holds_data _ _ Hh) as [rest Hd]. rewrite Hd, Hlen.
  rewrite send_to_spec, bind_ret_l by (rewrite length_app; lia). cbv beta iota.
  rewrite Nat2Z.id, take_app_length.
  set (c1 := Channel.count ChannelStats.fragments_sent 1 _).
  destruct (IH c1 (k + 1) (as_u64 (sent + transmitted sock (address, p) w)) (transmit sock (address, p) w) Hm)
    as (c' & sent' & Hrun & Hsb & Hrest); [lia|lia|lia| |].
  { intros i q Hi. rewrite <-(Hlog (S i) q Hi). f_equal. lia. }
  replace (Z.succ k) with (k + 1) by lia. replace (Z.pred (Z.of_nat (S (length ps)))) with (len ps) by lia.
  exists c', sent'. split; [exact Hrun|done].
Qed.

Lemma channel_send_error c address data body_len sock now w c' w' r :
  Channel.send_reliable c address data body_len sock now w = Ret (c', w', r) →
  TachyonSendResult.error r = 0 ∨ TachyonSendResult.error r = SEND_ERROR_UNKNOWN.
Proof.
  unfold Channel.send_reliable. destruct (Channel.next_nack c) as [c1 nack]. cbv beta iota zeta.
  intros ([m [sb|]] & _ & H3)%bind_Ret; cbv beta iota zeta in H3; [|injection H3 as <- <- <-; by right].
  apply bind_Ret in H3 as (src & _ & H3). apply bind_Ret in H3 as (buffer & _ & H3).
  destruct nack; cbv beta iota zeta in H3;
    apply bind_Ret in H3 as (buffer' & _ & H3); apply bind_Ret in H3 as (m' & _ & H3);
    apply bind_Ret in H3 as ([w2 sent] & _ & H3); injection H3 as <- <- <-; by left.
Qed.
End sending.

(** ** Properties *)

Section properties.
Context `{Callbacks} `{VarintOps} `{HashIter}.

(** The fragments are the pieces of 1200 bytes of the message. *)
Lemma send_large_spec (t : Tachyon) (c : Channel.Channel) channel_id address
    (data : bytes) body_len now n log (w : World) :
  can_send t = true → channel_id ≠ 0 → is_Some (TachyonSocket.socket (socket t)) →
  channels t !! (address, channel_id) = Some c → is_u8 (Channel.id c) →
  is_u16 (Fragmentation.next_group (Channel.frag c)) →
  sends (Channel.send_buffers c) n log → 0 ≤ n →
  1200 ≤ body_len ≤ len data → body_len ≤ 1200 * 1022 →
  let parts := chunks 1200 (firstn (Z.to_nat body_len) data) in
  ∃ t' c' result group,
    group_ok (Channel.id c) group (len parts) ∧
    (t' = t <| channels := <[(address, channel_id) := c']> (channels t) |> ∧ Channel.id c' = Channel.id c ∧
     Channel.receiver c' = Channel.receiver c ∧ is_u16 (Fragmentation.next_group (Channel.frag c'))) ∧
    send_reliable t channel_id address data body_len now w =
      Ret (t', transmit_all (socket t)
                 ((address,.) <$> group_packets (Channel.id c) group (n + 1) (len parts) parts) w, result) ∧
    TachyonSendResult.error result = 0 ∧
    Header.message_type (TachyonSendResult.header result) = MESSAGE_TYPE_FRAGMENT ∧
    concat parts = firstn (Z.to_nat body_len) data ∧ Forall (λ p, 0 < len p ≤ 1200) parts ∧
    channels t' = <[(address, channel_id) := c']> (channels t) ∧
    ∃ log', sends (Channel.send_buffers c') (n + len parts) log' ∧ (∀ k, k ≤ n → log' k = log k) ∧
      ∀ i p, group_packets (Channel.id c) group (n + 1) (len parts) parts !! i = Some p →
        log' (n + 1 + Z.of_nat i) = p.
Proof.
  intros Hcan Hch Hsock Hc Hid Hgroup Hm Hn Hlen Hmax parts.
  destruct (create_fragments_spec (Channel.frag c) (Channel.send_buffers c) n log (Channel.id c) data body_len now
    Hm Hn Hid Hgroup) as (f' & m' & group & Hcreate & Hnext & Hok & Hm'); [lia|lia|].
  assert (is_u16 (Fragmentation.next_group f')) as Hgroup'.
  { destruct (get_next_group_spec _ Hgroup) as (f2 & g2 & E & Hg2 & <- & _). rewrite E in Hnext. by injection Hnext as <- _. }
  fold parts in Hcreate, Hok, Hm'.
  pose proof (length_chunks 1200 ltac:(lia) (firstn (Z.to_nat body_len) data)) as Hup.
  pose proof (concat_chunks 1200 ltac:(lia) (firstn (Z.to_nat body_len) data)) as Hconcat. fold parts in Hconcat, Hup.
  assert (Forall (λ p, 0 < len p ≤ 1200) parts) as Hsz by (apply (chunks_sizes 1200); lia).
  assert (1 ≤ len parts ≤ 1023) as Hcount.
  { rewrite length_take in Hup. split; [|lia].
    assert (len parts ≠ 0) as Hne; [intros E; change 0 with (Z.of_nat 0) in E; apply Nat2Z.inj, length_zero_iff_nil in E|lia].
    rewrite E in Hconcat. apply (f_equal List.length) in Hconcat. rewrite length_take in Hconcat.
    simpl in Hconcat. lia. }
  set (ps := group_packets (Channel.id c) group (n + 1) (len parts) parts) in *.
  assert (len ps = len parts) as Hps by (unfold ps, group_packets; by rewrite length_imap).
  set (log' := λ k, match ps !! Z.to_nat (k - (n + 1)) with Some p => if n + 1 <=? k then p else log k | None => log k end) in *.
  assert (∀ i p, ps !! i = Some p → log' (n + 1 + Z.of_nat i) = p) as Hlog'.
  { intros i p Hi. unfold log'. replace (Z.to_nat (n + 1 + Z.of_nat i - (n + 1))) with i by lia.
    rewrite Hi. by destruct (Z.leb_spec (n + 1) (n + 1 + Z.of_nat i)); [|lia]. }
  set (c1 := c <| Channel.frag := f' |> <| Channel.send_buffers := m' |>).
  destruct (send_fragments_spec (n + len parts) log' address (socket t) ps c1 (n + 1) 0 w Hm')
    as (c2 & sent & Hsend & Hsb & Efrag & Eid & Er); [lia|lia|lia|done|].
  unfold send_reliable. cbv zeta. rewrite Hcan. destruct Hsock as [sk ->]. cbn [negb opt_is_some].
  destruct (Z.eqb_spec body_len 0); [lia|]. destruct (Z.eqb_spec channel_id 0); [done|]. rewrite Hc.
  unfold Fragmentation.should_fragment, FRAG_SIZE. destruct (Z.leb_spec 1200 body_len); [|lia].
  rewrite Hcreate, bind_ret_l. cbv beta iota zeta.
  rewrite length_fmap, length_seqZ, Nat2Z.id. destruct (Z.eqb_spec (len parts) 0); [lia|].
  rewrite Hps in Hsend. fold c1. rewrite Hsend, bind_ret_l. cbv beta iota. cbn [negb].
  set (c3 := Channel.count ChannelStats.sent 1 c2).
  eexists _, c3, _, group. fold ps. split; [exact Hok|].
  split; [|split; [reflexivity|]].
  { split; [reflexivity|]. change (Channel.id c3) with (Channel.id c2). change (Channel.receiver c3) with (Channel.receiver c2).
    change (Channel.frag c3) with (Channel.frag c2). by rewrite Efrag. }
  split; [done|]. split; [done|]. split; [done|]. split; [done|]. split; [done|].
  exists log'. split; [|split; [|done]].
  - change (Channel.send_buffers c3) with (Channel.send_buffers c2). by rewrite Hsb.
  - intros k Hk. unfold log'. destruct (Z.leb_spec (n + 1) k); [lia|]. by destruct (ps !! _).
Qed.

(** A message of 1200 bytes or more, up to 1022 full fragments, is sent whole:
    [send_reliable] transmits one datagram per fragment, in order, each at most
    1210 bytes with its header and its part of the message, under consecutive
    sequences; the parts are the message, and every fragment is kept for
    resends. *)
Lemma large_message_is_sent_in_fragments (t : Tachyon) (c : Channel.Channel) channel_id address
    (data : bytes) body_len now n log (w : World) :
  can_send t = true → channel_id ≠ 0 → is_Some (TachyonSocket.socket (socket t)) →
  channels t !! (address, channel_id) = Some c → is_u8 (Channel.id c) →
  is_u16 (Fragmentation.next_group (Channel.frag c)) →
  sends (Channel.send_buffers c) n log → 0 ≤ n →
  1200 ≤ body_len ≤ len data → body_len ≤ 1200 * 1022 →
  ∃ t' c' result group parts,
    send_reliable t channel_id address data body_len now w =
      Ret (t', transmit_all (socket t)
                 ((address,.) <$> group_packets (Channel.id c) group (n + 1) (len parts) parts) w, result) ∧
    TachyonSendResult.error result = 0 ∧
    Header.message_type (TachyonSendResult.header result) = MESSAGE_TYPE_FRAGMENT ∧
    concat parts = firstn (Z.to_nat body_len) data ∧ Forall (λ p, 0 < len p ≤ 1200) parts ∧
    channels t' = <[(address, channel_id) := c']> (channels t) ∧
    ∃ log', sends (Channel.send_buffers c') (n + len parts) log' ∧ (∀ k, k ≤ n → log' k = log k) ∧
      ∀ i p, group_packets (Channel.id c) group (n + 1) (len parts) parts !! i = Some p →
        log' (n + 1 + Z.of_nat i) = p.
Proof.
  intros Hcan Hch Hsock Hc Hid Hgroup Hm Hn Hlen Hmax.
  destruct (send_large_spec t c channel_id address data body_len now n log w Hcan Hch Hsock Hc Hid Hgroup Hm Hn Hlen Hmax)
    as (t' & c' & result & group & _ & _ & Hsend). by eexists t', c', result, group, _.
Qed.

(** The error of a send that got to the channel, and only the channel changed. *)
Lemma only_channel (t : Tachyon) key (c : Channel.Channel) (e : Z) :
  e = 0 ∨ e = SEND_ERROR_UNKNOWN ∨ e = SEND_ERROR_FRAGMENT →
  e ∈ [0; SEND_ERROR_UNKNOWN; SEND_ERROR_FRAGMENT] ∧
  ∃ c', t <| channels := <[key := c]> (channels t) |> = t <| channels := <[key := c']> (channels t) |>.
Proof. intros He. split; [set_solver|by exists c]. Qed.

(** C33: what is not sent changes nothing, and each reason has its error: the
    identity that is not linked, the empty message, channel 0 or one that the
    address does not have, and no socket; in this order of precedence.  What is
    not refused changes nothing of the [Tachyon] but the channel it is sent on:
    neither its other channels, connections and identities, nor its socket,
    buffer, configuration and counters. *)
Theorem refused_messages_change_nothing (t : Tachyon) channel_id address (data : bytes) body_len now (w : World) :
  let refused := 
    if negb (can_send t) then Some SEND_ERROR_IDENTITY
    else if body_len =? 0 then Some SEND_ERROR_LENGTH
    else if channel_id =? 0 then Some SEND_ERROR_CHANNEL
    else if negb (opt_is_some (TachyonSocket.socket (socket t))) then Some SEND_ERROR_SOCKET
    else if negb (opt_is_some (channels t !! (address, channel_id))) then Some SEND_ERROR_CHANNEL
    else None in
  match refused with
  | Some e => send_reliable t channel_id address data body_len now w =
      Ret (t, w, TachyonSendResult.mk 0 e Header.default)
  | None => ∀ t' w' result, send_reliable t channel_id address data body_len now w = Ret (t', w', result) →
      TachyonSendResult.error result ∈ [0; SEND_ERROR_UNKNOWN; SEND_ERROR_FRAGMENT] ∧
      ∃ c, t' = t <| channels := <[(address, channel_id) := c]> (channels t) |>
  end.
Proof.
  intros refused. unfold refused, send_reliable. cbv zeta.
  destruct (negb (can_send t)); [done|]. destruct (body_len =? 0); [done|]. destruct (channel_id =? 0); [done|].
  destruct (negb (opt_is_some _)); [done|].
  destruct (channels t !! (address, channel_id)) as [c|]; [|done]. cbn [opt_is_some negb].
  intros t' w' result.
  destruct (Fragmentation.should_fragment body_len).
  - intros ([[f m] seqs] & _ & H3)%bind_Ret. cbv beta iota zeta in H3.
    destruct (len seqs =? 0); [injection H3 as <- _ <-; by apply only_channel; auto|].
    apply bind_Ret in H3 as ([[[c' w2] sent] [|]] & _ & H3); cbv beta iota zeta in H3; cbn [negb] in H3;
      injection H3 as <- _ <-; by apply only_channel; auto.
  - intros ([[c' w2] r] & Hsend & H3)%bind_Ret. cbv beta iota in H3. injection H3 as <- _ <-.
    apply only_channel. apply channel_send_error in Hsend as [-> | ->]; auto.
Qed.
End properties.
