(* ===== verification/tachyon_delivery.v ===== *)
(** What the application of a server gets from its socket.

    One ordered channel end to end: the datagrams of reliable messages wait at
    the socket in any order, some lost and some repeated; calls of
    [receive_loop] hand the bodies to the application. *)

From S2P Require Import prelude sequence network_address int_buffer header nack byte_buffer_pool.
From S2P Require Import send_buffer_manager receiver receiver_spec receiver_delivery receiver_refinement.
From S2P Require Import receiver_histories fragmentation send_result tachyon_socket unreliable_sender channel.
From S2P Require Import connection tachyon_state connection_impl tachyon channel_sending channel_receiving.

Import NetworkAddress Tachyon ConnectionImpl TachyonIo.

Lemma union_shuffle (X Y Z' : gset Z) : X ∪ Y ∪ Z' = Y ∪ (X ∪ Z').
Proof. set_solver. Qed.

(** The datagrams [ds] of [peer] wait at the socket, in this order. *)
Inductive pending `{Os} (peer : NetworkAddress) (sock : UdpSocket) : list bytes → World → Prop :=
| pending_nil w :
    os_recv_from sock SOCKET_RECEIVE_BUFFER_LEN w = (w, None) → pending peer sock [] w
| pending_cons d ds w w' src :
    os_recv_from sock SOCKET_RECEIVE_BUFFER_LEN w = (w', Some (d, src)) →
    from_socket_addr src = peer → len d ≤ SOCKET_RECEIVE_BUFFER_LEN →
    pending peer sock ds w' → pending peer sock (d :: ds) w.

Section delivery.
Context `{Callbacks} `{VarintOps} `{HashIter} `{!HashIterLaws _}.
Context (peer : NetworkAddress) (ch : Z) (sock : UdpSocket) (body : Z → bytes).
Hypothesis Hch : is_u8 ch.

(** The datagram of message [k]. *)
Definition datagram (k : Z) : bytes := reliable_datagram ch k (body k).

(** The messages [ks] wait at the socket, in this order. *)
Definition inbox (ks : list Z) (w : World) : Prop := pending peer sock (datagram <$> ks) w.

(** A server that receives from [peer] on channel [ch], where the receiver's
    state stands for [s]; nothing is published on its other channels. *)
Record ready (t : Tachyon) (s : Spec.Spec) : Prop := {
  rd_socket : TachyonSocket.socket (socket t) = Some sock ∧ TachyonSocket.is_server (socket t) = true;
  rd_drop : TachyonConfig.drop_packet_chance (config t) = 0;
  rd_buffer : len (socket_receive_buffer t) = SOCKET_RECEIVE_BUFFER_LEN;
  rd_conn : ∃ conn, connections t !! peer = Some conn ∧
    (TachyonConfig.use_identity (config t) = 1 → Identity.id (Connection.identity conn) ≠ 0);
  rd_channel : ∃ c, channels t !! (peer, ch) = Some c ∧ Channel.id c = ch ∧ Channel.address c = peer ∧
    refines (Channel.receiver c) s;
  rd_others k c : channels t !! k = Some c → k ≠ (peer, ch) → Receiver.published (Channel.receiver c) = []
}.

(** What receiving and reading leave of a channel that sends, too. *)
Definition only_receives (c c' : Channel.Channel) : Prop :=
  Channel.send_buffers c' = Channel.send_buffers c ∧ Channel.frag c' = Channel.frag c ∧
  Channel.nacked_sequence_map c' = Channel.nacked_sequence_map c ∧
  Channel.nack_send_data c' = Channel.nack_send_data c.

#[local] Instance only_receives_preorder : PreOrder only_receives.
Proof.
  split; [done|]. intros c1 c2 c3 (? & ? & ? & ?) (? & ? & ? & ?). split_and!; congruence.
Qed.

Lemma reads_only_receives c c' : reads c c' → only_receives c c'.
Proof. by intros (r & st & ->). Qed.

(** What such a server leaves as it was. *)
Record undisturbed t t' : Prop := {
  ud_socket : socket t' = socket t;
  ud_config : config t' = config t;
  ud_channel c : channels t !! (peer, ch) = Some c →
    ∃ c', channels t' !! (peer, ch) = Some c' ∧ only_receives c c';
  ud_others k : k ≠ (peer, ch) → channels t' !! k = channels t !! k
}.

#[local] Instance undisturbed_preorder : PreOrder undisturbed.
Proof.
  split; [split; [done|done|by intros c Hc; exists c|done]|]. intros t1 t2 t3 [Es Ec Hc Ho] [Es' Ec' Hc' Ho'].
  split; [congruence|congruence| |].
  - intros c1 (c2 & (c3 & E3 & H23)%Hc' & H12)%Hc. exists c3. split; [done|by etrans].
  - intros k Hk. by rewrite Ho', Ho.
Qed.

(** The channel of the peer is put back. *)
Lemma undisturbed_put t c c' :
  channels t !! (peer, ch) = Some c → only_receives c c' →
  undisturbed t (t <| channels := <[(peer, ch) := c']> (channels t) |>).
Proof.
  intros Hc Hcc. split; [done|done| |].
  - intros c1 E. rewrite Hc in E. injection E as <-. exists c'. cbn [channels set]. by rewrite lookup_insert_eq.
  - intros k Hk. cbn [channels set]. by rewrite lookup_insert_ne.
Qed.

Lemma receive_datagram t s w w' d src :
  ready t s → os_recv_from sock SOCKET_RECEIVE_BUFFER_LEN w = (w', Some (d, src)) →
  len d ≤ SOCKET_RECEIVE_BUFFER_LEN →
  TachyonSocket.receive (socket t) (socket_receive_buffer t)
    (TachyonConfig.drop_packet_chance (config t)) (TachyonConfig.drop_reliable_only (config t) =? 1) w =
  Ret (socket t, splice 0 d (socket_receive_buffer t), w', TachyonSocket.RSuccess (len d) (from_socket_addr src)).
Proof.
  intros [[Hsock Hserver] Hdrop Hbuf _ _ _] Hrecv Hd. unfold TachyonSocket.receive.
  rewrite Hsock, Hserver, Hbuf, Hrecv, Hdrop. done.
Qed.

Lemma receive_none t s w :
  ready t s → os_recv_from sock SOCKET_RECEIVE_BUFFER_LEN w = (w, None) →
  ∀ now, receive_from_socket t now w = Ret (t, w, Empty).
Proof.
  intros [[Hsock Hserver] Hdrop Hbuf _ _ _] Hrecv now. unfold receive_from_socket, TachyonSocket.receive.
  rewrite Hsock, Hserver, Hbuf, Hrecv, bind_ret_l. cbv beta iota zeta. by destruct t.
Qed.

(** A datagram of the peer for a channel passes, and only its connection changes. *)
Lemma admit_ready t s header now w :
  ready t s → Header.message_type header ≠ MESSAGE_TYPE_LINK_IDENTITY →
  Header.message_type header ≠ MESSAGE_TYPE_UNLINK_IDENTITY →
  ∃ conn', admit_datagram t header peer now w =
      Ret (t <| connections := <[peer := conn']> (connections t) |>, w, None) ∧
    (TachyonConfig.use_identity (config t) = 1 → Identity.id (Connection.identity conn') ≠ 0).
Proof.
  intros [[_ Hserver] _ _ (conn & Hconn & Hid) _ _] Hlink Hunlink. unfold admit_datagram. rewrite Hserver.
  exists (conn <| Connection.received_at := time_since_start t now |>).
  destruct (Z.eqb_spec (TachyonConfig.use_identity (config t)) 1) as [E|E].
  - cbv zeta. destruct (Z.eqb_spec (Header.message_type header) MESSAGE_TYPE_LINK_IDENTITY); [done|].
    destruct (Z.eqb_spec (Header.message_type header) MESSAGE_TYPE_UNLINK_IDENTITY); [done|].
    unfold validate_and_update_linked_connection. rewrite Hconn. specialize (Hid E).
    destruct (Z.eqb_spec (Identity.id (Connection.identity conn)) 0); [done|]. done.
  - unfold on_receive_connection_update. by rewrite Hconn.
Qed.

(** The channel takes a reliable datagram. *)
Lemma receive_on_channel_spec c s k d more now :
  refines (Channel.receiver c) s → Channel.id c = ch → Spec.in_reach s k →
  len (d ++ more) ≤ isize_max →
  ∃ c', receive_on_channel c (plain_header MESSAGE_TYPE_RELIABLE ch k) peer (d ++ more)
      (len d) now =
        Ret (c', if (Spec.receive s k d).2 then Reliable peer ch else Retry) ∧
    Channel.id c' = ch ∧ Channel.address c' = Channel.address c ∧
    refines (Channel.receiver c') (Spec.receive s k d).1 ∧ only_receives c c'.
Proof.
  intros Hr Hid Hreach Hmax. unfold receive_on_channel.
  change (Header.message_type (plain_header MESSAGE_TYPE_RELIABLE ch k)) with MESSAGE_TYPE_RELIABLE.
  change (MESSAGE_TYPE_RELIABLE =? MESSAGE_TYPE_NONE) with false.
  change (MESSAGE_TYPE_RELIABLE =? MESSAGE_TYPE_NACK) with false.
  change (MESSAGE_TYPE_RELIABLE =? MESSAGE_TYPE_FRAGMENT) with false.
  change (MESSAGE_TYPE_RELIABLE =? MESSAGE_TYPE_RELIABLE_WITH_NACK) with false.
  change (MESSAGE_TYPE_RELIABLE =? MESSAGE_TYPE_RELIABLE) with true. cbv beta iota zeta.
  change (Header.sequence (plain_header MESSAGE_TYPE_RELIABLE ch k)) with (seq_of k).
  cbn [orb]. rewrite bind_ret_l. set (c1 := Channel.count _ _ c).
  destruct (receive_refines (Channel.receiver c) s k (d ++ more) (len d) Hr Hreach)
    as (r' & Hrec & Hr'); [rewrite length_app in *; lia|done|].
  assert (payload (d ++ more) (len d) = d) as Hp.
  { unfold payload. apply take_app_length'. lia. }
  rewrite Hp in Hrec, Hr'. change (Channel.receiver c1) with (Channel.receiver c).
  rewrite Hrec, bind_ret_l. cbv beta iota.
  destruct (Spec.receive s k d).2.
  - set (c2 := Channel.count ChannelStats.received 1 _). exists c2.
    change (Channel.id c2) with (Channel.id c). change (Channel.receiver c2) with r'. by rewrite Hid.
  - set (c2 := c1 <| Channel.receiver := r' |>). exists c2.
    change (Channel.id c2) with (Channel.id c). change (Channel.receiver c2) with r'. by rewrite Hid.
Qed.

(** Putting back the channel of the peer. *)
Lemma ready_put t s s' c' :
  ready t s → Channel.id c' = ch → Channel.address c' = peer → refines (Channel.receiver c') s' →
  ready (t <| channels := <[(peer, ch) := c']> (channels t) |>) s'.
Proof.
  intros [? ? ? ? _ Hothers] Hid Ha Hr. split; try done.
  - exists c'. simpl. by rewrite lookup_insert_eq.
  - intros k c. simpl. intros Hk Hne. rewrite lookup_insert_ne in Hk by done. by eapply Hothers.
Qed.

(** A datagram whose header is for the channel of the peer: what the channel
    does with it. *)
Lemma receive_front_channel t s w w' d src now header c :
  ready t s → os_recv_from sock SOCKET_RECEIVE_BUFFER_LEN w = (w', Some (d, src)) →
  from_socket_addr src = peer → len d ≤ SOCKET_RECEIVE_BUFFER_LEN → channels t !! (peer, ch) = Some c →
  Header.read (splice 0 d (socket_receive_buffer t)) = Ret header → Header.channel header = ch →
  Header.message_type header ≠ MESSAGE_TYPE_LINK_IDENTITY → Header.message_type header ≠ MESSAGE_TYPE_UNLINK_IDENTITY →
  Header.message_type header ≠ MESSAGE_TYPE_UNRELIABLE →
  ∃ more, len (d ++ more) = SOCKET_RECEIVE_BUFFER_LEN ∧
    ∀ c' res, receive_on_channel c header peer (d ++ more) (len d) now = Ret (c', res) →
    ∃ t', receive_from_socket t now w = Ret (t', w', res) ∧ channels t' !! (peer, ch) = Some c' ∧
      (only_receives c c' → undisturbed t t') ∧
      ∀ s', Channel.id c' = ch → Channel.address c' = peer → refines (Channel.receiver c') s' → ready t' s'.
Proof.
  intros Hready Hrecv Hsrc Hd Hc Hread Hhch Hlink Hunlink Hunrel. pose proof (rd_buffer _ _ Hready) as Hbuf.
  set (buffer := splice 0 d (socket_receive_buffer t)) in *.
  assert (len buffer = SOCKET_RECEIVE_BUFFER_LEN) as Hlen by (unfold buffer; rewrite length_splice; lia).
  exists (drop (length d) (socket_receive_buffer t)). rewrite <-splice_0. fold buffer. split; [done|].
  intros c' res Hon. unfold receive_from_socket. rewrite (receive_datagram t s w w' _ src Hready Hrecv Hd), bind_ret_l.
  cbv beta iota zeta. rewrite Hsrc. fold buffer.
  clearbody buffer. set (t1 := t <| socket := socket t |> <| socket_receive_buffer := buffer |>).
  assert (ready t1 s) as Hready1 by (destruct Hready; by split).
  change (socket_receive_buffer t1) with buffer. rewrite Hread, bind_ret_l.
  destruct (admit_ready t1 s header now w' Hready1 Hlink Hunlink) as (conn' & Hadmit & Hconn').
  rewrite Hadmit, bind_ret_l. cbv beta iota.
  set (t2 := t1 <| connections := <[peer := conn']> (connections t1) |>).
  assert (ready t2 s) as Hready2.
  { destruct Hready1 as [? ? ? _ ? ?]. split; try done. exists conn'. split; [apply lookup_insert_eq|done]. }
  destruct (Z.eqb_spec (Header.message_type header) MESSAGE_TYPE_UNRELIABLE); [done|].
  rewrite Hhch. change (channels t2 !! (peer, ch)) with (channels t !! (peer, ch)). rewrite Hc.
  change (socket_receive_buffer t2) with buffer. rewrite Hon, bind_ret_l. cbv beta iota.
  eexists. split; [done|]. cbn [channels set]. split; [apply lookup_insert_eq|]. split.
  - intros Hcc. destruct (undisturbed_put t2 c c' Hc Hcc) as [_ _ Hc2 Ho2]. split; [done|done|exact Hc2|exact Ho2].
  - intros s' Hid Ha Hr. by apply (ready_put t2 s s' c' Hready2).
Qed.

(** One datagram. *)
Lemma receive_front_datagram t s w w' k d src now :
  ready t s → os_recv_from sock SOCKET_RECEIVE_BUFFER_LEN w = (w', Some (d, src)) →
  from_socket_addr src = peer → len d ≤ SOCKET_RECEIVE_BUFFER_LEN → Spec.in_reach s k →
  Header.read (splice 0 d (socket_receive_buffer t)) = Ret (plain_header MESSAGE_TYPE_RELIABLE ch k) →
  ∃ t', receive_from_socket t now w =
      Ret (t', w', if (Spec.receive s k d).2 then Reliable peer ch else Retry) ∧
    ready t' (Spec.receive s k d).1 ∧ undisturbed t t'.
Proof.
  intros Hready Hrecv Hsrc Hd Hreach Hread. destruct (rd_channel _ _ Hready) as (c & Hc & Hcid & Hca & Hr).
  destruct (receive_front_channel t s w w' d src now _ c Hready Hrecv Hsrc Hd Hc Hread) as (more & Hlen & Hfront); [done..|].
  destruct (receive_on_channel_spec c s k d more now Hr Hcid Hreach) as (c' & Hon & Hid' & Ha' & Hr' & Hcc).
  { rewrite Hlen. unfold SOCKET_RECEIVE_BUFFER_LEN, isize_max. lia. }
  destruct (Hfront _ _ Hon) as (t' & Hrun & _ & Hun & Hready'). exists t'. split; [done|]. split; [|by apply Hun].
  apply Hready'; [done|congruence|done].
Qed.

Lemma receive_one_datagram t s w w' k src now :
  ready t s → os_recv_from sock SOCKET_RECEIVE_BUFFER_LEN w = (w', Some (datagram k, src)) →
  from_socket_addr src = peer → len (datagram k) ≤ SOCKET_RECEIVE_BUFFER_LEN → Spec.in_reach s k →
  ∃ t', receive_from_socket t now w =
      Ret (t', w', if (Spec.receive s k (datagram k)).2 then Reliable peer ch else Retry) ∧
    ready t' (Spec.receive s k (datagram k)).1 ∧ undisturbed t t'.
Proof.
  intros Hready Hrecv Hsrc Hd Hreach. apply (receive_front_datagram t s w w' k _ src); try done.
  rewrite splice_0. unfold datagram, reliable_datagram. rewrite <-app_assoc. by apply read_plain.
Qed.

(** ** Reading what is published *)

Hypothesis Hbody : ∀ k, 0 < len (body k) ≤ SOCKET_RECEIVE_BUFFER_LEN - 4.

(** The application's buffer. *)
Definition buffer_fits (rb : bytes) : Prop := (∀ k, len (body k) ≤ len rb) ∧ len rb ≤ isize_max.

Lemma fits_splice rb k : buffer_fits rb → buffer_fits (splice 0 (body k) rb).
Proof.
  intros [Hk Hm]. specialize (Hk k) as Hl. unfold buffer_fits. rewrite length_splice by lia. by split.
Qed.

(** Message [k] as the application gets it. *)
Definition is_message (k : Z) (rb : bytes) (res : TachyonReceiveResult.TachyonReceiveResult) : Prop :=
  res = TachyonReceiveResult.mk ch peer (len (body k)) 0 ∧ firstn (Z.to_nat (len (body k))) rb = body k.

Lemma message_at_front rb k : firstn (Z.to_nat (len (body k))) (splice 0 (body k) rb) = body k.
Proof. rewrite splice_0. apply take_app_length'. lia. Qed.

(** What one read of the peer's channel gives. *)
Lemma read_channel c s rb k ms :
  refines (Channel.receiver c) s → Spec.out s = (k, datagram k) :: ms → buffer_fits rb →
  ∃ c', Channel.receive_published c rb = Ret (c', splice 0 (body k) rb, (len (body k), Channel.address c)) ∧
    reads c c' ∧ refines (Channel.receiver c') (Spec.consume s).
Proof.
  intros Hr Ho [Hfit Hmax]. destruct (Hbody k) as [Hb1 Hb2]. unfold SOCKET_RECEIVE_BUFFER_LEN in Hb2.
  destruct (receive_published_message c s rb [] ms k ch k (body k) Hr Ho) as (c' & Hpub & Hc & Hr');
    [constructor|simpl; lia|lia|done|done|].
  exists c'. split; [done|]. split; [done|].
  unfold Spec.consume. by rewrite Ho.
Qed.

Lemma read_one t s rb :
  ready t s → (∀ k p ms, Spec.out s = (k, p) :: ms → p = datagram k) → buffer_fits rb →
  match Spec.out s with
  | [] => receive_published_channel_id t rb peer ch = Ret (t, rb, 0)
  | (k, _) :: _ => ∃ t', receive_published_channel_id t rb peer ch =
      Ret (t', splice 0 (body k) rb, len (body k)) ∧ ready t' (Spec.consume s) ∧ undisturbed t t'
  end.
Proof.
  intros Hready Hout Hfit. destruct (rd_channel _ _ Hready) as (c & Hc & Hcid & Hca & Hr).
  unfold receive_published_channel_id. rewrite Hc. destruct (Spec.out s) as [|[k p] ms] eqn:Ho.
  - rewrite receive_published_empty by (by eapply refines_nothing_published).
    rewrite bind_ret_l. cbv beta iota zeta. rewrite insert_id by done. by destruct t.
  - rewrite (Hout k p ms eq_refl) in Ho.
    destruct (read_channel c s rb k ms Hr Ho Hfit) as (c' & -> & Hc' & Hr').
    rewrite bind_ret_l. cbv beta iota zeta. simpl. eexists. split; [done|].
    split; [|by apply (undisturbed_put t c c'), reads_only_receives].
    apply (ready_put t s _ c' Hready); [..|done]; destruct Hc' as (? & ? & ->); done.
Qed.

(** A channel on which nothing is published is passed over. *)
Lemma read_all_skip t rb key c entries :
  channels t !! key = Some c → Receiver.published (Channel.receiver c) = [] →
  receive_published_all_loop t rb ((key, c) :: entries) = receive_published_all_loop t rb entries.
Proof.
  intros Hc Hp. cbn [receive_published_all_loop]. rewrite receive_published_empty, bind_ret_l by done.
  cbv beta iota zeta. simpl. rewrite insert_id by done. by destruct t.
Qed.

Lemma read_all_nothing t s rb entries :
  ready t s → Spec.out s = [] → (∀ key c, (key, c) ∈ entries → channels t !! key = Some c) →
  receive_published_all_loop t rb entries = Ret (t, rb, TachyonReceiveResult.default).
Proof.
  intros Hready Ho. induction entries as [|[key c] entries IH]; intros Hin; [done|].
  pose proof (Hin key c ltac:(left)) as Hc. rewrite read_all_skip; [|done|].
  - apply IH. intros key' c' Hk. apply Hin. by right.
  - destruct (decide (key = (peer, ch))) as [->|Hne]; [|by eapply rd_others].
    destruct (rd_channel _ _ Hready) as (c0 & Hc0 & _ & _ & Hr). simplify_eq.
    by eapply refines_nothing_published.
Qed.

Lemma read_all_message t s rb k ms entries :
  ready t s → Spec.out s = (k, datagram k) :: ms → buffer_fits rb →
  (∀ key c, (key, c) ∈ entries → channels t !! key = Some c) → (∃ c, ((peer, ch), c) ∈ entries) →
  ∃ t', receive_published_all_loop t rb entries =
      Ret (t', splice 0 (body k) rb, TachyonReceiveResult.mk ch peer (len (body k)) 0) ∧
    ready t' (Spec.consume s) ∧ undisturbed t t'.
Proof.
  intros Hready Ho Hfit. induction entries as [|[key c] entries IH]; intros Hin [c0 Hc0]; [by apply elem_of_nil in Hc0|].
  pose proof (Hin key c ltac:(left)) as Hc.
  destruct (decide (key = (peer, ch))) as [->|Hne].
  - destruct (rd_channel _ _ Hready) as (c1 & Hc1 & Hcid & Hca & Hr). rewrite Hc in Hc1. injection Hc1 as <-.
    destruct (read_channel c s rb k ms Hr Ho Hfit) as (c' & Hpub & Hc' & Hr').
    cbn [receive_published_all_loop]. rewrite Hpub, bind_ret_l. cbv beta iota zeta. cbn [fst snd].
    destruct (Z.ltb_spec 0 (len (body k))); [|specialize (Hbody k); lia].
    assert (Channel.id c' = Channel.id c ∧ Channel.address c' = Channel.address c) as [Ei Ea]
      by (by destruct Hc' as (? & ? & ->)).
    eexists. split; [by rewrite Ei, Hcid, Hca|]. split; [|by apply (undisturbed_put t c c'), reads_only_receives].
    apply (ready_put t s _ c' Hready); [congruence|congruence|done].
  - rewrite read_all_skip by (done || by eapply rd_others). apply IH.
    + intros key' c' Hk. apply Hin. by right.
    + apply elem_of_cons in Hc0 as [[= E _]|Hc0]; [by subst|by exists c0].
Qed.

Lemma read_all t s rb :
  ready t s → (∀ k p ms, Spec.out s = (k, p) :: ms → p = datagram k) → buffer_fits rb →
  match Spec.out s with
  | [] => receive_published_all_channels t rb = Ret (t, rb, TachyonReceiveResult.default)
  | (k, _) :: _ => ∃ t', receive_published_all_channels t rb =
        Ret (t', splice 0 (body k) rb, TachyonReceiveResult.mk ch peer (len (body k)) 0) ∧
      ready t' (Spec.consume s) ∧ undisturbed t t'
  end.
Proof.
  intros Hready Hout Hfit.
  assert (∀ key c, (key, c) ∈ hash_iter (channels t) → channels t !! key = Some c) as Hin.
  { intros key c. by rewrite hash_iter_perm, elem_of_map_to_list. }
  unfold receive_published_all_channels. destruct (Spec.out s) as [|[k p] ms] eqn:Ho.
  - by eapply read_all_nothing.
  - rewrite (Hout k p ms eq_refl) in Ho. eapply read_all_message; try done.
    destruct (rd_channel _ _ Hready) as (c & Hc & _). exists c. by rewrite hash_iter_perm, elem_of_map_to_list.
Qed.

(** ** The loop *)

#[local] Notation serving := (receiver_delivery.serving datagram).

(** The next datagram is on time. *)
Lemma serving_next W A s j k ks :
  serving W A s j → 1 ≤ W ≤ 1022 → on_time W datagram A (arrive datagram (k :: ks)) →
  Spec.in_reach s k ∧ serving W ({[ k ]} ∪ A) (Spec.receive s k (datagram k)).1 j ∧
  on_time W datagram ({[ k ]} ∪ A) (arrive datagram ks).
Proof.
  intros Hs HW (Hk1 & _ & _ & _ & Hf & Hon). specialize (Hf _ (tm_frontier _ _ _ (sv_timely _ _ _ _ _ Hs))).
  split; [unfold Spec.in_reach; lia|]. split; [|done]. apply serving_receive; [done|lia].
Qed.

(** What a call of the loop gives: the next message, or nothing when nothing is
    published and the inbox is empty or [n] datagrams have been read. *)
Record loop_result (W : Z) (n : nat) (ks : list Z) (j : Z) (t0 t : Tachyon) (rb : bytes) (w : World)
    (res : TachyonReceiveResult.TachyonReceiveResult) (A : gset Z) : Prop := {
  lr_outcome : ∃ ks1 ks2 s j', ks = ks1 ++ ks2 ∧ ready t s ∧ serving W (list_to_set ks1 ∪ A) s j' ∧
    inbox ks2 w ∧ on_time W datagram (list_to_set ks1 ∪ A) (arrive datagram ks2) ∧
    ((j' = j + 1 ∧ is_message j' rb res) ∨
     (j' = j ∧ res = TachyonReceiveResult.default ∧ Spec.out s = [] ∧ (ks2 = [] ∨ length ks1 = n)));
  lr_buffer : buffer_fits rb;
  lr_undisturbed : undisturbed t0 t
}.

Lemma read_all_result W A t s j rb w ks n :
  ready t s → serving W A s j → buffer_fits rb → inbox ks w → on_time W datagram A (arrive datagram ks) →
  (ks = [] ∨ n = 0%nat) →
  ∃ t' rb' res, receive_published_all_channels t rb = Ret (t', rb', res) ∧
    loop_result W n ks j t t' rb' w res A.
Proof.
  intros Hready Hs Hfit Hin Hon Hend. pose proof (read_all t s rb Hready) as Hread.
  specialize (Hread ltac:(intros k p ms; by eapply serving_out) Hfit).
  destruct (Spec.out s) as [|[k p] ms] eqn:Ho.
  - do 3 eexists. split; [exact Hread|]. split; [|done|done]. exists [], ks, s, j.
    replace (list_to_set [] ∪ A) with A by set_solver.
    split_and!; try done. right. split_and!; try done. destruct Hend as [-> | ->]; auto.
  - destruct Hread as (t' & Hread & Hready' & Hun). destruct (serving_consume _ _ _ _ _ _ _ Hs Ho) as [-> Hs'].
    do 3 eexists. split; [exact Hread|]. split; [|by apply fits_splice|done].
    exists [], ks, (Spec.consume s), (j + 1). replace (list_to_set [] ∪ A) with A by set_solver.
    split_and!; try done. left. split; [done|]. split; [done|apply message_at_front].
Qed.

Lemma loop_result_cons W n ks j k t0 t1 t rb w res A :
  undisturbed t0 t1 → loop_result W n ks j t1 t rb w res ({[ k ]} ∪ A) →
  loop_result W (S n) (k :: ks) j t0 t rb w res A.
Proof.
  intros Hun [(ks1 & ks2 & s & j' & -> & Hready & Hs & Hin & Hon & Hres) Hfit Hun']. split; [|done|by etrans].
  exists (k :: ks1), ks2, s, j'. replace (list_to_set (k :: ks1) ∪ A) with (list_to_set ks1 ∪ ({[k]} ∪ A)) by set_solver.
  split_and!; try done. destruct Hres as [?|(? & ? & ? & Hend)]; [by left|right]. split_and!; try done.
  destruct Hend as [?|Hn]; [by left|right]. simpl. by f_equal.
Qed.

Lemma receive_loop_n_spec W (n : nat) now : 1 ≤ W ≤ 1022 → ∀ A t s j rb w ks,
  ready t s → serving W A s j → buffer_fits rb → inbox ks w → on_time W datagram A (arrive datagram ks) →
  ∃ t' rb' w' res, receive_loop_n n t rb now w = Ret (t', rb', w', res) ∧
    loop_result W n ks j t t' rb' w' res A.
Proof.
  intros HW. induction n as [|n IH]; intros A t s j rb w ks Hready Hs Hfit Hin Hon.
  { destruct (read_all_result W A t s j rb w ks 0 Hready Hs Hfit Hin Hon) as (t' & rb' & res & Hread & Hres);
      [by right|].
    exists t', rb', w, res. split; [|done]. cbn [receive_loop_n]. by rewrite Hread. }
  cbn [receive_loop_n]. unfold inbox in Hin.
  destruct ks as [|k ks]; inversion Hin as [? Hrecv|d ds ? w' src Hrecv Hsrc Hlen Hin']; subst; clear Hin.
  - rewrite (receive_none t s w Hready Hrecv), bind_ret_l. cbv beta iota.
    destruct (read_all_result W A t s j rb w [] (S n) Hready Hs Hfit (pending_nil peer sock w Hrecv) Hon)
      as (t' & rb' & res & Hread & Hres); [by left|].
    exists t', rb', w, res. split; [by rewrite Hread|done].
  - rename Hin' into Hin. destruct (serving_next W A s j k ks Hs HW Hon) as (Hreach & Hs1 & Hon1).
    destruct (receive_one_datagram t s w w' k src now Hready Hrecv Hsrc Hlen Hreach) as (t1 & Hone & Hready1 & Hun1).
    rewrite Hone, bind_ret_l. cbv beta iota. set (s1 := (Spec.receive s k (datagram k)).1) in *.
    destruct (Spec.receive s k (datagram k)).2.
    + pose proof (read_one t1 s1 rb Hready1 ltac:(intros k' p ms; by eapply serving_out) Hfit) as Hread.
      destruct (Spec.out s1) as [|[k' p] ms] eqn:Ho.
      * rewrite Hread, bind_ret_l. cbv beta iota. simpl (0 <? 0). cbv iota.
        destruct (IH _ t1 s1 j rb w' ks Hready1 Hs1 Hfit Hin Hon1) as (t' & rb' & w2 & res & Hloop & Hres).
        exists t', rb', w2, res. split; [done|by apply (loop_result_cons _ _ _ _ _ _ t1)].
      * destruct Hread as (t2 & Hread & Hready2 & Hun2). rewrite Hread, bind_ret_l. cbv beta iota.
        destruct (Z.ltb_spec 0 (len (body k'))); [|specialize (Hbody k'); lia].
        destruct (serving_consume _ _ _ _ _ _ _ Hs1 Ho) as [-> Hs2].
        do 4 eexists. split; [done|]. split; [|by apply fits_splice|by etrans].
        exists [k], ks, (Spec.consume s1), (j + 1).
        replace (list_to_set [k] ∪ A) with ({[k]} ∪ A) by set_solver.
        split_and!; try done. left. split; [done|]. split; [done|apply message_at_front].
    + destruct (IH _ t1 s1 j rb w' ks Hready1 Hs1 Hfit Hin Hon1) as (t' & rb' & w2 & res & Hloop & Hres).
      exists t', rb', w2, res. split; [done|by apply (loop_result_cons _ _ _ _ _ _ t1)].
Qed.

(** ** The application's calls *)

(** The messages with a length that calls of [receive_loop] return, at the times
    [nows]: the channel, the address and the bytes. *)
Fixpoint receive_calls (nows : list Z) (t : Tachyon) (rb : bytes) (w : World) :
    outcome (Tachyon * bytes * World * list (Z * NetworkAddress * bytes)) :=
  match nows with
  | [] => Ret (t, rb, w, [])
  | now :: nows' =>
      '(t, rb, w, res) ← receive_loop t rb now w;
      let got := if 0 <? TachyonReceiveResult.length res
                 then [(TachyonReceiveResult.channel res, TachyonReceiveResult.address res,
                        firstn (Z.to_nat (TachyonReceiveResult.length res)) rb)]
                 else [] in
      '(t, rb, w, rest) ← receive_calls nows' t rb w;
      Ret (t, rb, w, got ++ rest)
  end.

(** When the calls have taken everything. *)
Record after_calls (state : Spec.Spec → Prop) (t t' : Tachyon) (rb' : bytes) : Prop := {
  ac_state : ∃ s, ready t' s ∧ state s;
  ac_buffer : buffer_fits rb';
  ac_undisturbed : undisturbed t t'
}.

Lemma receive_calls_spec W f nows : 1 ≤ W ≤ 1022 → ∀ A t s j rb w ks,
  ready t s → serving W A s j → buffer_fits rb → inbox ks w → on_time W datagram A (arrive datagram ks) →
  is_frontier (list_to_set ks ∪ A) f → len ks + (f - j) ≤ len nows →
  ∃ t' rb' w', receive_calls nows t rb w =
      Ret (t', rb', w', (λ k, (ch, peer, body k)) <$> seqZ (j + 1) (f - j)) ∧
    after_calls (λ s, serving W (list_to_set ks ∪ A) s f) t t' rb'.
Proof.
  intros HW. induction nows as [|now nows IH]; intros A t s j rb w ks Hready Hs Hfit Hin Hon Hf Hn.
  - simpl in Hn. assert (j ≤ f) as Hle.
    { destruct (sv_count _ _ _ _ _ Hs) as [_ Hj]. etrans; [exact Hj|].
      eapply is_frontier_mono; [apply (sv_timely _ _ _ _ _ Hs)|exact Hf|apply union_subseteq_r]. }
    exists t, rb, w. rewrite seqZ_nil by lia. split; [done|]. assert (ks = []) as -> by (apply length_zero_iff_nil; lia).
    assert (f = j) as -> by (simpl in Hn; lia).
    rewrite list_to_set_nil, (left_id_L ∅ (∪)). split; [by exists s|done|done].
  - destruct (receive_loop_n_spec W 100 now HW A t s j rb w ks Hready Hs Hfit Hin Hon)
      as (t1 & rb1 & w1 & res & Hloop & [(ks1 & ks2 & s1 & j' & -> & Hready1 & Hs1 & Hin1 & Hon1 & Hres) Hfit1 Hun1]).
    rewrite list_to_set_app_L in Hf |- *. rewrite union_shuffle in Hf |- *.
    rewrite length_app in Hn. cbn [length] in Hn.
    assert (∃ t' rb' w', receive_calls nows t1 rb1 w1 =
        Ret (t', rb', w', (λ k, (ch, peer, body k)) <$> seqZ (j' + 1) (f - j')) ∧
      after_calls (λ s, serving W (list_to_set ks2 ∪ (list_to_set ks1 ∪ A)) s f) t1 t' rb') as (t' & rb' & w' & Hrest & [Hstate Hfit' Hun']).
    { eapply IH; try done. destruct Hres as [[-> _]|(-> & _ & Ho & [-> | Hl])]; [lia| |lia].
      pose proof (serving_nothing _ _ _ _ Hs1 Ho) as <-. replace f with (Spec.cur s1); [simpl; lia|].
      eapply is_frontier_unique, Hf. rewrite list_to_set_nil, (left_id_L ∅ (∪)). apply (sv_timely _ _ _ _ _ Hs1). }
    exists t', rb', w'. split; [|split; [done|done|by etrans]].
    cbn [receive_calls]. unfold receive_loop. rewrite Hloop, bind_ret_l. cbv beta iota zeta.
    rewrite Hrest, bind_ret_l. cbv beta iota.
    destruct Hres as [(-> & -> & Hfront)|(-> & -> & _)]; cbn [TachyonReceiveResult.length TachyonReceiveResult.default].
    + destruct (Z.ltb_spec 0 (len (body (j + 1)))); [|specialize (Hbody (j + 1)); lia].
      cbn [TachyonReceiveResult.channel TachyonReceiveResult.address]. rewrite Hfront.
      assert (j + 1 ≤ f) as Hle.
      { destruct (sv_count _ _ _ _ _ Hs1) as [_ Hj]. etrans; [exact Hj|].
        eapply is_frontier_mono; [apply (sv_timely _ _ _ _ _ Hs1)|exact Hf|apply union_subseteq_r]. }
      rewrite (seqZ_cons (j + 1)) by lia. cbn [fmap list_fmap app]. do 4 f_equal. f_equal; lia.
    + done.
Qed.

(** ** Property *)

(** C5: the messages of a reliable ordered channel reach the application of a
    server in order.  When datagrams of messages 1, 2, ... wait at the socket in
    any order, with losses and repetitions but none more than a window ahead of
    the first that is missing when it arrives, enough calls
    of [receive_loop] return exactly the bodies of the messages up to the first
    one that is missing, in order and each once, with the peer's address and the
    channel. *)
Theorem application_gets_messages_in_order W f nows t rb w ks :
  1 ≤ W ≤ 1022 → ready t (Spec.init true W) → buffer_fits rb → inbox ks w →
  on_time W datagram ∅ (arrive datagram ks) → is_frontier (list_to_set ks) f → len ks + f ≤ len nows →
  ∃ t' rb' w', receive_calls nows t rb w = Ret (t', rb', w', (λ k, (ch, peer, body k)) <$> seqZ 1 f).
Proof.
  intros HW Hready Hfit Hin Hon Hf Hn.
  destruct (receive_calls_spec W f nows HW ∅ t (Spec.init true W) 0 rb w ks Hready) as (t' & rb' & w' & Hrun & _);
    try done; [|by rewrite (right_id_L ∅ (∪))|lia|].
  - apply serving_init. lia.
  - exists t', rb', w'. rewrite Hrun. by rewrite Z.sub_0_r.
Qed.
End delivery.
