(* ===== verification/tachyon_unordered.v ===== *)
(** What the application of a server gets from an unordered channel.

    A message of an unordered channel is published when it arrives, so calls of
    [receive_loop] hand the messages over as they come, each once.  At the end,
    what calls give on either kind of channel. *)

From S2P Require Import prelude sequence network_address int_buffer header nack byte_buffer_pool.
From S2P Require Import send_buffer_manager receiver receiver_spec receiver_delivery receiver_refinement.
From S2P Require Import receiver_histories fragmentation send_result tachyon_socket unreliable_sender channel.
From S2P Require Import connection tachyon_state connection_impl tachyon channel_sending channel_receiving tachyon_delivery.

Import NetworkAddress Tachyon ConnectionImpl TachyonIo.

(** ** The receiver *)

(** An unordered receiver that has got [A], all of it read. *)
Record passing (msg : Z → bytes) (W : Z) (A : gset Z) (s : Spec.Spec) : Prop := {
  ps_timely : timely msg A s;
  ps_unordered : Spec.ordered s = false ∧ Spec.window s = W;
  ps_out : Spec.out s = [];
  ps_newest : is_newest A (Spec.last s)
}.

Lemma passing_init msg W : 1 ≤ W → passing msg W ∅ (Spec.init false W).
Proof.
  intros HW. split; [by apply timely_init|done|done|].
  split_and!; [simpl; lia|intros i []%elem_of_empty|simpl; lia].
Qed.

Lemma firsts_app l1 : ∀ A l2, firsts A (l1 ++ l2) = firsts A l1 ++ firsts (list_to_set l1 ∪ A) l2.
Proof.
  induction l1 as [|k l1 IH]; intros A l2.
  { by rewrite list_to_set_nil, (left_id_L ∅ (∪)). }
  cbn [app firsts]. assert (list_to_set (k :: l1) ∪ A = list_to_set l1 ∪ ({[ k ]} ∪ A)) as -> by set_solver.
  destruct (decide (k ∈ A)) as [Hk|Hk]; rewrite IH; [|done].
  by replace ({[ k ]} ∪ A) with A by set_solver.
Qed.

(** A message that was received is refused; a new one is published at once. *)
Lemma passing_receive msg W A s k :
  passing msg W A s → 1 ≤ k ≤ Spec.cur s + (W - 1) →
  (k ∈ A ∧ Spec.receive s k (msg k) = (s, false) ∧ {[ k ]} ∪ A = A) ∨
  (k ∉ A ∧ ∃ s', Spec.receive s k (msg k) = (s', true) ∧ Spec.out s' = [(k, msg k)] ∧
     passing msg W ({[ k ]} ∪ A) (Spec.consume s')).
Proof.
  intros [Ht [Ho HW] Hout Hn] Hk. destruct (decide (k ∈ A)) as [Hin|Hni]; [left|right]; (split; [done|]).
  - rewrite (timely_duplicate _ _ _ _ _ Ht Hin). split; [done|]. set_solver.
  - pose proof (receive_last s k (msg k) (tm_wf _ _ _ Ht)) as Hl.
    destruct (timely_new msg A s k Ht ltac:(lia) Hni) as (s' & Hrec & [Ht' _ Hpub _ [Eo Ew]]); [lia|intros _; lia|].
    rewrite Hrec in Hl. specialize (Hpub Ho). rewrite Hout in Hpub. exists s'. split; [done|]. split; [done|]. split.
    + by apply timely_consume.
    + simpl. by rewrite Eo, Ew.
    + unfold Spec.consume. simpl. by rewrite Hpub.
    + simpl in Hl |- *. rewrite Hl. by apply is_newest_add; [lia|].
Qed.

Section unordered.
Context `{Callbacks} `{VarintOps} `{HashIter} `{!HashIterLaws _}.
Context (peer : NetworkAddress) (ch : Z) (sock : UdpSocket) (body : Z → bytes).
Hypothesis Hch : is_u8 ch.
Hypothesis Hbody : ∀ k, 0 < len (body k) ≤ SOCKET_RECEIVE_BUFFER_LEN - 4.
Context (W : Z) (HW : 1 ≤ W ≤ 1022).
Implicit Types (t : Tachyon) (s : Spec.Spec) (w : World) (ks : list Z) (rb : bytes) (A : gset Z).

#[local] Notation datagram := (datagram ch body).
#[local] Notation ready := (ready peer ch sock).
#[local] Notation inbox := (inbox peer ch sock body).
#[local] Notation passing := (passing datagram W).
#[local] Notation undisturbed := (undisturbed peer ch).
#[local] Existing Instance undisturbed_preorder.

(** What a call gives: it takes datagrams up to the first that is new, or up to
    [n] of them when none is. *)
Record loop_passes (n : nat) (ks : list Z) (t0 t : Tachyon) (rb : bytes) (w : World)
    (res : TachyonReceiveResult.TachyonReceiveResult) A : Prop := {
  lp_outcome : ∃ ks1 ks2 s, ks = ks1 ++ ks2 ∧ ready t s ∧ passing (list_to_set ks1 ∪ A) s ∧ inbox ks2 w ∧
    on_time (W - 1) datagram (list_to_set ks1 ∪ A) (arrive datagram ks2) ∧
    ((∃ k, firsts A ks1 = [k] ∧ ks1 ≠ [] ∧ is_message peer ch body k rb res) ∨
     (firsts A ks1 = [] ∧ res = TachyonReceiveResult.default ∧ (ks2 = [] ∨ length ks1 = n)));
  lp_buffer : buffer_fits body rb;
  lp_undisturbed : undisturbed t0 t
}.

Lemma loop_passes_old n ks k t0 t1 t rb w res A : k ∈ A → {[ k ]} ∪ A = A → undisturbed t0 t1 →
  loop_passes n ks t1 t rb w res A → loop_passes (S n) (k :: ks) t0 t rb w res A.
Proof.
  intros Hk EA Hun [(ks1 & ks2 & s & -> & Hready & Hs & Hin & Hon & Hres) Hfit Hun']. split; [|done|by etrans].
  exists (k :: ks1), ks2, s.
  assert (list_to_set (k :: ks1) ∪ A = list_to_set ks1 ∪ A) as -> by (rewrite <-EA at 2; clear EA; set_solver).
  cbn [firsts]. rewrite decide_True by done. split_and!; try done.
  destruct Hres as [(k' & E & _ & Hm)|(E & -> & Hend)]; [left; by exists k'|right].
  split_and!; [done|done|]. destruct Hend as [?|<-]; [by left|by right].
Qed.

Lemma passing_reads_nothing t s rb : ready t s → Spec.out s = [] → buffer_fits body rb →
  receive_published_all_channels t rb = Ret (t, rb, TachyonReceiveResult.default).
Proof.
  intros Hready Ho Hfit. pose proof (read_all peer ch sock body Hbody t s rb Hready) as Hread. rewrite Ho in Hread.
  by apply Hread.
Qed.

Lemma loop_passes_end n ks t s rb w A : ready t s → passing A s → buffer_fits body rb → inbox ks w →
  on_time (W - 1) datagram A (arrive datagram ks) → (ks = [] ∨ n = 0%nat) →
  loop_passes n ks t t rb w TachyonReceiveResult.default A.
Proof.
  intros Hready Hs Hfit Hin Hon Hend. split; [|done|done]. exists [], ks, s.
  rewrite list_to_set_nil, (left_id_L ∅ (∪)). split_and!; try done. right. split_and!; try done.
  destruct Hend as [-> | ->]; auto.
Qed.

Lemma receive_loop_passes (n : nat) now : ∀ A t s rb w ks,
  ready t s → passing A s → buffer_fits body rb → inbox ks w → on_time (W - 1) datagram A (arrive datagram ks) →
  ∃ t' rb' w' res, receive_loop_n n t rb now w = Ret (t', rb', w', res) ∧ loop_passes n ks t t' rb' w' res A.
Proof.
  induction n as [|n IH]; intros A t s rb w ks Hready Hs Hfit Hin Hon.
  { exists t, rb, w, TachyonReceiveResult.default. split; [|apply (loop_passes_end _ _ _ s); auto].
    cbn [receive_loop_n]. by rewrite (passing_reads_nothing t s rb Hready (ps_out _ _ _ _ Hs) Hfit). }
  cbn [receive_loop_n]. destruct ks as [|k ks].
  - inversion Hin as [? Hrecv|]; subst.
    rewrite (receive_none peer ch sock t s w Hready Hrecv), bind_ret_l. cbv beta iota.
    exists t, rb, w, TachyonReceiveResult.default. split; [|apply (loop_passes_end _ _ _ s); auto].
    by rewrite (passing_reads_nothing t s rb Hready (ps_out _ _ _ _ Hs) Hfit).
  - inversion Hin as [|? ? ? w1 src Hrecv Hsrc Hlen Hin1]; subst. destruct Hon as (Hk1 & _ & _ & _ & Hk & Hon).
    specialize (Hk _ (tm_frontier _ _ _ (ps_timely _ _ _ _ Hs))).
    destruct (receive_one_datagram peer ch sock body Hch t s w w1 k src now Hready Hrecv Hsrc Hlen)
      as (t1 & Hone & Hready1 & Hun1); [unfold Spec.in_reach; lia|].
    rewrite Hone, bind_ret_l. cbv beta iota.
    destruct (passing_receive datagram W A s k Hs ltac:(lia)) as [(Hka & E & EA)|(Hka & s' & E & Ho & Hs')];
      rewrite E in Hready1 |- *; cbn [fst snd] in *.
    + rewrite EA in Hon. destruct (IH A t1 s rb w1 ks Hready1 Hs Hfit Hin1 Hon) as (t' & rb' & w' & res & Hloop & Hres).
      exists t', rb', w', res. split; [done|]. by apply (loop_passes_old _ _ _ t t1).
    + pose proof (read_one peer ch sock body Hbody t1 s' rb Hready1) as Hread. rewrite Ho in Hread.
      destruct Hread as (t2 & Hread & Hready2 & Hun2); [by intros k' p ms [= -> <- _]|done|].
      rewrite Hread, bind_ret_l. cbv beta iota. destruct (Z.ltb_spec 0 (len (body k))); [|specialize (Hbody k); lia].
      do 4 eexists. split; [done|]. split; [|by apply fits_splice|by etrans].
      exists [k], ks, (Spec.consume s').
      replace (list_to_set [k] ∪ A) with ({[ k ]} ∪ A) by set_solver. split_and!; try done.
      left. exists k. cbn [firsts]. rewrite decide_False by done. split; [done|]. split; [done|].
      split; [done|by apply message_at_front].
Qed.

Lemma unordered_calls_spec nows : ∀ A t s rb w ks,
  ready t s → passing A s → buffer_fits body rb → inbox ks w → on_time (W - 1) datagram A (arrive datagram ks) →
  len ks ≤ len nows →
  ∃ t' rb' w', receive_calls nows t rb w = Ret (t', rb', w', (λ k, (ch, peer, body k)) <$> firsts A ks) ∧
    after_calls peer ch sock body (passing (list_to_set ks ∪ A)) t t' rb'.
Proof.
  induction nows as [|now nows IH]; intros A t s rb w ks Hready Hs Hfit Hin Hon Hn.
  { destruct ks; [|simpl in Hn; lia]. exists t, rb, w. rewrite list_to_set_nil, (left_id_L ∅ (∪)).
    split; [done|]. split; [by exists s|done|done]. }
  destruct (receive_loop_passes 100 now A t s rb w ks Hready Hs Hfit Hin Hon)
    as (t1 & rb1 & w1 & res & Hloop & [(ks1 & ks2 & s1 & -> & Hready1 & Hs1 & Hin1 & Hon1 & Hres) Hfit1 Hun1]).
  rewrite length_app in Hn. cbn [length] in Hn.
  destruct (IH _ t1 s1 rb1 w1 ks2 Hready1 Hs1 Hfit1 Hin1 Hon1) as (t' & rb' & w' & Hrest & [Hstate Hfit' Hun']).
  { destruct Hres as [(k & _ & Hne & _)|(_ & _ & [-> | Hl])]; [|simpl; lia|lia].
    destruct ks1; [done|]. simpl in Hn. lia. }
  exists t', rb', w'. rewrite list_to_set_app_L, union_shuffle. split; [|split; [done|done|by etrans]].
  cbn [receive_calls]. unfold receive_loop. rewrite Hloop, bind_ret_l. cbv beta iota zeta.
  rewrite Hrest, bind_ret_l. cbv beta iota. rewrite firsts_app.
  destruct Hres as [(k & -> & _ & -> & Hfront)|(-> & -> & _)]; [|done].
  cbn [TachyonReceiveResult.length TachyonReceiveResult.channel TachyonReceiveResult.address].
  destruct (Z.ltb_spec 0 (len (body k))); [|specialize (Hbody k); lia]. by rewrite Hfront.
Qed.

(** ** Either kind of channel *)

(** The receiver has got [A]; the application has read everything up to [j] on
    an ordered channel, and everything on an unordered one. *)
Definition reading (o : bool) A s (j : Z) : Prop :=
  if o then serving datagram W A s j else passing A s.

Lemma reading_init o : reading o ∅ (Spec.init o W) 0.
Proof. destruct o; [apply serving_init; lia|apply passing_init; lia]. Qed.

Lemma reading_timely o A s j : reading o A s j → timely datagram A s ∧ Spec.window s = W ∧ is_newest A (Spec.last s).
Proof. destruct o; intros [Ht [_ Hw] ?]; done. Qed.

Lemma channel_calls_spec o (j f : Z) nows A t s rb w ks :
  ready t s → reading o A s j → buffer_fits body rb → inbox ks w →
  on_time (lookahead o W) datagram A (arrive datagram ks) →
  is_frontier (list_to_set ks ∪ A) f → j ≤ f → len ks + (f - j) ≤ len nows →
  ∃ t' rb' w', receive_calls nows t rb w =
      Ret (t', rb', w', (λ k, (ch, peer, body k)) <$> (if o then seqZ (j + 1) (f - j) else firsts A ks)) ∧
    after_calls peer ch sock body (λ s', reading o (list_to_set ks ∪ A) s' f) t t' rb'.
Proof.
  intros Hready Hs Hfit Hin Hon Hf Hj Hn. destruct o; cbn [reading lookahead] in *.
  - by apply (receive_calls_spec peer ch sock body Hch Hbody W f nows HW A t s j).
  - apply (unordered_calls_spec nows A t s); try done. lia.
Qed.
End unordered.
