(* ===== verification/tachyon_conversation.v ===== *)
(** What a client sends is what the application of a server reads.

    A client sends small messages on a reliable channel; the network carries its
    datagrams to the server's socket in any order, losing and repeating some; the
    application of the server calls [receive_loop]. *)

From S2P Require Import prelude sequence network_address int_buffer header nack byte_buffer_pool.
From S2P Require Import send_buffer_manager receiver receiver_spec receiver_delivery receiver_refinement.
From S2P Require Import receiver_histories fragmentation send_result tachyon_socket unreliable_sender channel.
From S2P Require Import connection tachyon_state connection_impl tachyon channel_sending channel_receiving tachyon_delivery tachyon_unordered.

Import NetworkAddress Tachyon ConnectionImpl TachyonIo.

Section conversation.
Context `{Callbacks} `{VarintOps} `{HashIter} `{!HashIterLaws _}.
Context (dest : NetworkAddress) (ch : Z).
Hypothesis Hch : is_u8 ch ∧ ch ≠ 0.
Implicit Types (t : Tachyon) (w : World) (bodies : list bytes).

(** ** The client *)

(** A client that may send on channel [ch] to [dest] and has sent [n] messages
    there, which are [log]; it has no nacks to carry. *)
Record sending t (n : Z) (log : Z → bytes) : Prop := {
  sd_can : can_send t = true;
  sd_socket : is_Some (TachyonSocket.socket (socket t));
  sd_channel : ∃ c, channels t !! (dest, ch) = Some c ∧ Channel.id c = ch ∧
    Receiver.nack_queue (Channel.receiver c) = [] ∧ sends (Channel.send_buffers c) n log
}.

(** The application sends a message at time [now]. *)
Definition send_message (st : Tachyon * World) (m : Z * bytes) : outcome (Tachyon * World) :=
  '(t, w, _) ← send_reliable st.1 ch dest m.2 (len m.2) m.1 st.2;
  Ret (t, w).

Definition small (m : Z * bytes) : Prop := 1 ≤ len m.2 < 1200.

(** Nothing changes but what the channel has sent. *)
Record only_sent t t' : Prop := {
  sn_rest : t' = t <| channels := channels t' |>;
  sn_channel c : channels t !! (dest, ch) = Some c → ∃ c', channels t' !! (dest, ch) = Some c' ∧
    Channel.receiver c' = Channel.receiver c ∧ Channel.nacked_sequence_map c' = Channel.nacked_sequence_map c ∧
    Channel.frag c' = Channel.frag c;
  sn_others k : k ≠ (dest, ch) → channels t' !! k = channels t !! k
}.

#[local] Instance only_sent_preorder : PreOrder only_sent.
Proof.
  split; [intros t; split; [by destruct t|by intros c Hc; exists c|done]|].
  intros t1 t2 t3 [E12 Hc Ho] [E23 Hc' Ho']. split.
  - rewrite E12 in E23. exact E23.
  - intros c1 (c2 & (c3 & ? & ? & ? & ?)%Hc' & ? & ? & ?)%Hc. exists c3. split_and!; congruence.
  - intros k Hk. by rewrite Ho', Ho.
Qed.

Lemma send_message_spec t n log m w :
  sending t n log → 0 ≤ n → small m →
  ∃ t' log', send_message (t, w) m = Ret (t', transmit (socket t) (dest, reliable_datagram ch (n + 1) m.2) w) ∧
    sending t' (n + 1) log' ∧ only_sent t t' ∧
    log' (n + 1) = reliable_datagram ch (n + 1) m.2 ∧ ∀ k, k ≤ n → log' k = log k.
Proof.
  intros [Hcan [sock Hsock] (c & Hc & Hid & Hq & Hm)] Hn Hsmall. unfold small in Hsmall.
  assert (Channel.next_nack c = (c, None)) as Hnack by (unfold Channel.next_nack; rewrite Hq; by destruct (0 <? _)).
  destruct (send_reliable_spec c n log dest m.2 (len m.2) (socket t) m.1 w c None Hnack Hm Hn)
    as (Hstale & c' & r & Hsend & _ & _ & _ & Hm' & Hr' & Hid' & _ & Hfrag' & Hmap'); [rewrite Hid; apply Hch|lia|unfold isize_max; lia|].
  change (header_len_of None - 4) with 0 in Hstale.
  rewrite (proj1 (length_zero_iff_nil (stale_bytes _ _ _ _))) in Hsend, Hm' by lia.
  rewrite Nat2Z.id, firstn_all, Hid in Hsend, Hm'.
  unfold send_message, send_reliable. cbv zeta. cbn [fst snd]. rewrite Hcan, Hsock. cbn [negb opt_is_some].
  destruct (Z.eqb_spec (len m.2) 0); [lia|]. destruct (Z.eqb_spec ch 0); [by destruct Hch|]. rewrite Hc.
  unfold Fragmentation.should_fragment, FRAG_SIZE. destruct (Z.leb_spec 1200 (len m.2)); [lia|].
  rewrite Hsend, !bind_ret_l. do 2 eexists. split; [done|]. split; [|split; [split|split]].
  - split; [done|by eexists|]. exists c'. cbn [channels set]. rewrite lookup_insert_eq.
    split_and!; [done|congruence|by rewrite Hr'|exact Hm'].
  - done.
  - intros c1 E. rewrite Hc in E. injection E as <-. exists c'. cbn [channels set]. by rewrite lookup_insert_eq.
  - intros k Hk. cbn [channels set]. by rewrite lookup_insert_ne.
  - cbv beta. by destruct (decide (n + 1 = n + 1)).
  - intros k Hk. cbv beta. destruct (decide (k = n + 1)); [lia|done].
Qed.

(** ** The messages on the wire *)

(** The body of message [k]; beyond the last one, any. *)
Definition nth_body (ms : list (Z * bytes)) (k : Z) : bytes :=
  match ms !! Z.to_nat (k - 1) with Some m => m.2 | None => [0] end.

Lemma nth_body_small ms k : Forall small ms → 1 ≤ len (nth_body ms k) < 1200.
Proof.
  clear Hch. intros Hms. unfold nth_body. destruct (ms !! Z.to_nat (k - 1)) as [m|] eqn:E; [|simpl; lia].
  by apply (Forall_lookup_1 _ _ _ _ Hms) in E.
Qed.

(** Message [n + 1 + i] is element [i]. *)
Lemma bodies_from ms1 ms2 :
  (datagram ch (nth_body (ms1 ++ ms2))) <$> seqZ (len ms1 + 1) (len ms2) =
  imap (λ i m, reliable_datagram ch (len ms1 + 1 + Z.of_nat i) m.2) ms2.
Proof.
  apply list_eq. intros i. rewrite list_lookup_fmap, list_lookup_imap. destruct (ms2 !! i) as [m|] eqn:E.
  - pose proof (lookup_lt_Some _ _ _ E). rewrite lookup_seqZ_lt by lia. cbn [fmap option_fmap option_map].
    unfold datagram, nth_body. replace (Z.to_nat (len ms1 + 1 + Z.of_nat i - 1)) with (length ms1 + i)%nat by lia.
    rewrite lookup_app_r by lia. replace (length ms1 + i - length ms1)%nat with i by lia. by rewrite E.
  - pose proof (lookup_ge_None_1 _ _ E). by rewrite lookup_seqZ_ge by lia.
Qed.

Lemma send_messages_spec ms : ∀ t n log w,
  sending t n log → 0 ≤ n → Forall small ms →
  ∃ t' log', foldl_m send_message (t, w) ms =
    Ret (t', transmit_all (socket t) ((dest,.) <$> imap (λ i m, reliable_datagram ch (n + 1 + Z.of_nat i) m.2) ms) w) ∧
    sending t' (n + len ms) log' ∧ only_sent t t' ∧ (∀ k, k ≤ n → log' k = log k) ∧
    ∀ i m, ms !! i = Some m → log' (n + 1 + Z.of_nat i) = reliable_datagram ch (n + 1 + Z.of_nat i) m.2.
Proof.
  induction ms as [|m ms IH]; intros t n log w Ht Hn Hms; cbn [foldl_m].
  { exists t, log. rewrite Z.add_0_r. split_and!; done. }
  apply Forall_cons in Hms as [Hm Hms].
  destruct (send_message_spec t n log m w Ht Hn Hm) as (t1 & log1 & -> & Ht1 & Hs1 & Hl1 & Hk1). rewrite bind_ret_l.
  destruct (IH t1 (n + 1) log1 (transmit (socket t) (dest, reliable_datagram ch (n + 1) m.2) w) Ht1)
    as (t2 & log2 & -> & Ht2 & Hs2 & Hk2 & Hl2); [lia|done|].
  exists t2, log2. rewrite (sn_rest _ _ Hs1). cbn [socket set]. split; [|split; [|split; [|split]]].
  - cbn [imap]. rewrite Z.add_0_r. cbn [fmap list_fmap]. unfold transmit_all. cbn [foldl]. do 3 f_equal. f_equal.
    apply imap_ext. intros i x _. simpl. f_equal. lia.
  - cbn [length]. replace (n + Z.of_nat (S (length ms))) with (n + 1 + len ms) by lia. done.
  - by etrans; [exact Hs1|].
  - intros k Hk. rewrite Hk2 by lia. by apply Hk1.
  - intros [|i] m' Hi; cbn in Hi.
    + injection Hi as <-. rewrite Z.add_0_r, Hk2 by lia. exact Hl1.
    + replace (n + 1 + Z.of_nat (S i)) with (n + 1 + 1 + Z.of_nat i) by lia. by apply Hl2.
Qed.

(** When there are no more messages than the window, nothing overruns it. *)
Lemma few_on_time W (msg : Z → bytes) N ks : ∀ A,
  N ≤ W ≤ 1022 → (∀ k, len (msg k) ≤ isize_max) → (∀ i, i ∈ A → 1 ≤ i ≤ N) → Forall (λ k, 1 ≤ k ≤ N) ks →
  on_time W msg A (arrive msg ks).
Proof.
  clear Hch. induction ks as [|k ks IH]; intros A HW Hmsg HA Hks; [done|]. apply Forall_cons in Hks as [Hk Hks].
  cbn [arrive fmap list_fmap on_time]. pose proof (Hmsg k). split_and!; [lia|lia|lia|done| | |].
  - unfold payload. rewrite Nat2Z.id. apply firstn_all.
  - intros f (Hf & Hin & _). assert (f ≤ N).
    { destruct (decide (f = 0)); [lia|]. assert (f ∈ A) as Hfa by (apply Hin; lia). apply HA in Hfa; lia. }
    lia.
  - apply IH; [done|done| |done]. intros i [->%elem_of_singleton|Hi]%elem_of_union; [done|by apply HA].
Qed.

(** ** What the server makes of them *)

Lemma nth_body_fits ms : Forall small ms → ∀ k, 0 < len (nth_body ms k) ≤ SOCKET_RECEIVE_BUFFER_LEN - 4.
Proof.
  clear Hch. intros Hms k. pose proof (nth_body_small ms k Hms). unfold SOCKET_RECEIVE_BUFFER_LEN. lia.
Qed.

Lemma small_datagram ms k : Forall small ms → len (datagram ch (nth_body ms) k) ≤ isize_max.
Proof.
  clear Hch. intros Hms. pose proof (nth_body_small ms k Hms). unfold datagram, reliable_datagram.
  rewrite length_app, length_plain_bytes. unfold isize_max. lia.
Qed.

Lemma small_buffer ms rb : Forall small ms → 1200 ≤ len rb ≤ isize_max → buffer_fits (nth_body ms) rb.
Proof.
  clear Hch. intros Hms Hrb. split; [|lia]. intros k. pose proof (nth_body_small ms k Hms). lia.
Qed.

Lemma frontier_bound ks f N : is_frontier (list_to_set ks) f → Forall (λ k, 1 ≤ k ≤ N) ks → 0 ≤ N → f ≤ N.
Proof.
  clear Hch. intros (Hf0 & Hall & _) Hks HN. destruct (decide (f = 0)); [lia|].
  assert (f ∈ (list_to_set ks : gset Z)) as Hi%elem_of_list_to_set by (apply Hall; lia).
  rewrite Forall_forall in Hks. apply Hks in Hi. lia.
Qed.

(** Messages [a + 1] to [b] as they are read. *)
Lemma read_messages (peer : NetworkAddress) (ms : list (Z * bytes)) (a b : nat) : (a ≤ b ≤ length ms)%nat →
  (λ k, (ch, peer, nth_body ms k)) <$> seqZ (Z.of_nat a + 1) (Z.of_nat b - Z.of_nat a) =
  (λ m : Z * bytes, (ch, peer, m.2)) <$> take (b - a) (drop a ms).
Proof.
  clear Hch. intros Hab. apply list_eq. intros i. rewrite !list_lookup_fmap. destruct (decide (i < b - a)%nat) as [Hi|Hi].
  - rewrite lookup_seqZ_lt by lia. rewrite lookup_take_lt, lookup_drop by done.
    destruct (lookup_lt_is_Some_2 ms (a + i)) as [m Em]; [lia|]. rewrite Em. cbn [fmap option_fmap option_map].
    unfold nth_body. replace (Z.to_nat (Z.of_nat a + 1 + Z.of_nat i - 1)) with (a + i)%nat by lia. by rewrite Em.
  - rewrite lookup_seqZ_ge, lookup_take_ge by lia. done.
Qed.

(** ** Property *)

(** C1: what a client sends is what the application of the server reads.  A
    client sends messages of 1 to 1199 bytes on a reliable channel, up to a window
    of them on an ordered channel and one less on an unordered one: exactly their
    datagrams leave, in order.  A server that waits for the
    first message of a channel of that number, and whose socket gets some of these
    datagrams, in any order and any of them repeatedly, returns from enough calls
    of [receive_loop] exactly the bytes that the client gave to [send_reliable]:
    on an ordered channel in the order they were sent, each once, up to the first
    that the network lost; on an unordered channel as they arrive, each that
    arrived once. *)
Theorem what_a_client_sends_is_read (o : bool) t log ms w W :
  sending t 0 log → Forall small ms → 1 ≤ W ≤ 1022 → len ms ≤ lookahead o W →
  let body := nth_body ms in
  ∃ t' log', foldl_m send_message (t, w) ms =
      Ret (t', transmit_all (socket t) ((dest,.) <$> (datagram ch body <$> seqZ 1 (len ms))) w) ∧
    sending t' (len ms) log' ∧
    ∀ peer sock server rb w2 ks (f : nat) nows,
      ready peer ch sock server (Spec.init o W) → 1200 ≤ len rb ≤ isize_max →
      Forall (λ k, 1 ≤ k ≤ len ms) ks → inbox peer ch sock body ks w2 →
      is_frontier (list_to_set ks) (Z.of_nat f) → len ks + Z.of_nat f ≤ len nows →
      ∃ server' rb' w3, receive_calls nows server rb w2 = Ret (server', rb', w3,
        if o then (λ m, (ch, peer, m.2)) <$> take f ms else (λ k, (ch, peer, body k)) <$> firsts ∅ ks).
Proof.
  intros Ht Hms HW Hlen body.
  destruct (send_messages_spec ms t 0 log w Ht ltac:(lia) Hms) as (t' & log' & Hsend & Ht' & _).
  exists t', log'. split; [|split; [exact Ht'|]].
  { rewrite Hsend. assert (datagram ch body <$> seqZ 1 (len ms) =
      imap (λ i m, reliable_datagram ch (0 + 1 + Z.of_nat i) m.2) ms) as -> by exact (bodies_from [] ms). done. }
  intros peer sock server rb w2 ks f nows Hready Hrb Hks Hin Hf Hn.
  pose proof (frontier_bound _ _ _ Hf Hks ltac:(lia)) as Hfm.
  assert (on_time (lookahead o W) (datagram ch body) ∅ (arrive (datagram ch body) ks)) as Hon.
  { apply (few_on_time _ _ (len ms)); [destruct o; simpl in *; lia|intros k; by apply small_datagram|set_solver|done]. }
  destruct (channel_calls_spec peer ch sock body (proj1 Hch) (nth_body_fits ms Hms) W HW o 0 (Z.of_nat f) nows ∅ server
    (Spec.init o W) rb w2 ks Hready) as (server' & rb' & w3 & Hrun & _);
    [by apply reading_init|by apply small_buffer|done|done|by rewrite (right_id_L ∅ (∪))|lia|lia|].
  exists server', rb', w3. rewrite Hrun. do 2 f_equal. destruct o; [|done].
  pose proof (read_messages peer ms 0 f ltac:(destruct Hf; simpl in *; lia)) as Hread. by rewrite Nat.sub_0_r in Hread.
Qed.
End conversation.
