(* ===== verification/tachyon_short.v ===== *)
(** Datagrams that are shorter than their header.

    The length of a reliable datagram is not compared with that of its header:
    [receive_loop] reads the header from the receive buffer, where an earlier
    datagram may have left the rest of it, and the panic comes when the message
    is read. *)

From S2P Require Import prelude sequence network_address int_buffer header nack byte_buffer_pool.
From S2P Require Import send_buffer_manager receiver receiver_spec receiver_delivery receiver_refinement.
From S2P Require Import fragmentation send_result tachyon_socket unreliable_sender channel.
From S2P Require Import connection tachyon_state connection_impl tachyon channel_sending channel_receiving tachyon_delivery.

Import NetworkAddress Tachyon ConnectionImpl TachyonIo.

(** What will come under the next index is open. *)
Lemma serving_next_open msg W A s p :
  serving msg W A s (Spec.cur s) →
  ∃ msg', msg' (Spec.cur s + 1) = p ∧ serving msg' W A s (Spec.cur s).
Proof.
  intros [Ht Ho Hout Hj Hn]. exists (λ i, if decide (i = Spec.cur s + 1) then p else msg i).
  split; [by rewrite decide_True|]. rewrite Z.sub_diag in Hout. split; [|done|by rewrite Z.sub_diag|done|done].
  destruct Ht as [Hwf ? Hf Hgot Hbuf ? ?]. split; try done. intros i q Hi. rewrite decide_False; [by apply Hbuf|].
  intros ->. assert (Spec.cur s + 1 ∈ Spec.got s) as Hin by (apply Hwf; by eexists).
  apply Hgot in Hin as [Hin _]. by apply Hf in Hin.
Qed.

(** A published packet of a reliable message without its whole header. *)
Lemma short_message_panics c s rb k ms :
  refines (Channel.receiver c) s → Spec.out s = (k, [MESSAGE_TYPE_RELIABLE]) :: ms →
  Channel.receive_published c rb = Panic SliceOutOfRange.
Proof.
  intros Hr Ho. assert (∀ n, Channel.receive_published_loop (S n) c rb = Panic SliceOutOfRange) as Hloop;
    [intros n|exact (Hloop 999%nat)].
  destruct (take_refines _ _ _ _ _ Hr Ho) as (b & Htake & _ & _ & _ & more & Hd & Hl).
  cbn [Channel.receive_published_loop]. unfold Channel.receive_published_internal.
  destruct (Receiver.take_published (Channel.receiver c)) as [taken r1]. simpl in Htake. subst taken.
  by rewrite Hd, Hl.
Qed.

Section short.
Context `{Callbacks} `{VarintOps} `{HashIter}.
Implicit Types (t : Tachyon) (w : World) (s : Spec.Spec) (rb more : bytes).

(** C39: a datagram of one byte stops the server.  On an ordered channel whose
    messages have all been read, when the last datagram left the channel and the
    next sequence in the receive buffer, a datagram of the peer with nothing but
    the type of a reliable message is accepted as the next message, and reading
    it panics in the same call of [receive_loop]. *)
Theorem short_datagram_panics peer ch sock t s W A msg rb now w w' src more :
  is_u8 ch → 1 ≤ W ≤ 1022 → ready peer ch sock t s → serving msg W A s (Spec.cur s) →
  os_recv_from sock SOCKET_RECEIVE_BUFFER_LEN w = (w', Some ([MESSAGE_TYPE_RELIABLE], src)) →
  from_socket_addr src = peer →
  splice 0 [MESSAGE_TYPE_RELIABLE] (socket_receive_buffer t) =
    plain_bytes MESSAGE_TYPE_RELIABLE ch (Spec.cur s + 1) ++ more →
  receive_loop t rb now w = Panic SliceOutOfRange.
Proof.
  intros Hch HW Hready Hs Hrecv Hsrc Hbuf.
  destruct (serving_next_open msg W A s [MESSAGE_TYPE_RELIABLE] Hs) as (msg' & Hmsg & Hs').
  remember (Spec.cur s + 1) as k eqn:Ek.
  destruct (receive_front_datagram peer ch sock t s w w' k [MESSAGE_TYPE_RELIABLE] src now Hready Hrecv Hsrc)
    as (t1 & Hone & Hready1 & _).
  { unfold SOCKET_RECEIVE_BUFFER_LEN. simpl. lia. }
  { unfold Spec.in_reach. lia. }
  { rewrite Hbuf. by apply read_plain. }
  pose proof Hs' as [Ht [Ho Hw] Hout Hj _]. rewrite Z.sub_diag in Hout.
  destruct (timely_new msg' A s k Ht) as (s1 & Hnew & [Ht1 Hpub _ Hcur _]).
  { lia. }
  { rewrite Ek. apply (tm_frontier _ _ _ Ht). }
  { lia. }
  { by rewrite Ho. }
  rewrite Hmsg in Hnew. rewrite Hnew in Hone, Hready1. cbn [fst snd] in *.
  assert (Spec.cur s < Spec.cur s1) as Hlt.
  { destruct (decide (Spec.cur s < Spec.cur s1)); [done|]. destruct (tm_frontier _ _ _ Ht1) as (_ & _ & []).
    assert (Spec.cur s1 = Spec.cur s) as -> by lia. set_solver. }
  specialize (Hpub Ho). rewrite seqZ_nil in Hout by lia. rewrite Hout, <-Ek, (seqZ_cons k) in Hpub by lia.
  cbn [msgs fmap list_fmap app] in Hpub. rewrite Hmsg in Hpub.
  destruct (rd_channel _ _ _ _ _ Hready1) as (c & Hc & _ & _ & Hr).
  assert (∀ n, receive_loop_n (S n) t rb now w = Panic SliceOutOfRange) as Hloop; [intros n|exact (Hloop 99%nat)].
  cbn [receive_loop_n]. rewrite Hone, bind_ret_l. cbv beta iota.
  unfold receive_published_channel_id. rewrite Hc. by rewrite (short_message_panics c s1 rb k _ Hr Hpub).
Qed.
End short.
