(* ===== verification/channel_fragments.v ===== *)
(** A fragmented message from the network to the application.

    The receiving end of an ordered channel: the fragments arrive in any order
    and repeatedly while the application reads, every read hands out what is
    complete.  A fragment passes the receiver with its header only; its bytes are
    collected per group ([fragmentation.v]), and the first header that is read
    once the group is complete gives the message. *)

From S2P Require Import prelude sequence sequence_buffer network_address int_buffer header nack byte_buffer_pool.
From S2P Require Import send_buffer_manager receiver receiver_spec receiver_delivery receiver_refinement.
From S2P Require Import receiver_histories fragmentation send_result tachyon_socket unreliable_sender channel.
From S2P Require Import connection tachyon_state connection_impl tachyon channel_sending channel_receiving channel_recovery.

Import Channel Fragmentation.

(** Fragment [i] arrives in a buffer with [junk] behind it; or the application
    reads into its buffer [rb]. *)
Inductive happening :=
| Arrives (i : nat) (junk : bytes)
| Reads (rb : bytes).

Definition arrived (es : list happening) : list nat :=
  omap (λ e, match e with Arrives i _ => Some i | Reads _ => None end) es.

(** What reads that find nothing give: the buffer as it was, and length 0. *)
Definition reads_nothing (es : list happening) : list (bytes * Z) :=
  omap (λ e, match e with Arrives _ _ => None | Reads rb => Some (rb, 0) end) es.

(** Every fragment that arrives is one of the [count] fragments of the group. *)
Definition arrives_ok (count : nat) (e : happening) : Prop :=
  match e with Arrives i junk => (i < count)%nat ∧ len junk ≤ isize_max - 2000 | Reads _ => True end.

(** The fragments that arrive without a read between them. *)
Definition arrive_all (late : list (nat * bytes)) : list happening := (λ a, Arrives a.1 a.2) <$> late.

Section happens.
Context `{VarintOps}.

(** The channel, and what the reads so far gave. *)
Definition happens (peer : NetworkAddress.NetworkAddress) (now : Z) (packets : list bytes)
    (st : Channel * list (bytes * Z)) (e : happening) : outcome (Channel * list (bytes * Z)) :=
  let '(c, results) := st in
  match e with
  | Arrives i junk =>
      match packets !! i with
      | Some p =>
          header ← Header.read (p ++ junk);
          '(c, _) ← TachyonIo.receive_on_channel c header peer (p ++ junk) (len p) now;
          Ret (c, results)
      | None => Ret st
      end
  | Reads rb =>
      '(c, rb, (length, _)) ← receive_published c rb;
      Ret (c, results ++ [(rb, length)])
  end.
End happens.

Lemma arrived_app es es' : arrived (es ++ es') = arrived es ++ arrived es'.
Proof. apply omap_app. Qed.

(** A published fragment that completes a message is read as that message. *)
Lemma receive_published_assembled c s rb k p ms h f m :
  refines (receiver c) s → Spec.out s = (k, p) :: ms → fragment_of h p →
  assemble (frag c) h = Ret (f, ROk m) → 0 < len m < 2 ^ 32 → len m ≤ len rb →
  ∃ c', receive_published c rb = Ret (c', splice 0 m rb, (len m, address c)) ∧
    reads (c <| frag := f |>) c' ∧ refines (receiver c') (Spec.consume s).
Proof.
  intros Hr Ho Hp Has Hm Hrb.
  destruct (internal_fragment c s rb k p ms h f (ROk m) Hr Ho Hp Has Hrb) as (c' & Hint & Hc' & Hr').
  exists c'. split; [|done].
  assert (∀ n, receive_published_loop (S n) c rb = Ret (c', splice 0 m rb, (len m, address c))) as Hloop;
    [intros n|exact (Hloop 999%nat)].
  cbn [receive_published_loop]. rewrite Hint, bind_ret_l. cbv beta iota zeta. rewrite as_u32_small by lia.
  by destruct (Z.ltb_spec 0 (len m)); [|lia].
Qed.

Lemma length_group_packets ch group start count cs : length (group_packets ch group start count cs) = length cs.
Proof. apply length_imap. Qed.

Section gathering.
Context `{VarintOps} (peer : NetworkAddress.NetworkAddress) (now : Z).
Context (W n ch group : Z) (log : Z → bytes) (cs : list bytes) (f0 : Fragmentation).
Context (HW : 1 ≤ W ≤ 1022) (Hn : 0 ≤ n) (Hok : group_ok ch group (len cs)).
Context (Hcount : len cs ≤ Z.min W 1000) (Hsize : Forall (λ c, 0 < len c ≤ 1200) cs).
Context (Hfresh : received f0 !! group = None).
Implicit Types (c : Channel) (s : Spec.Spec) (S T : list nat) (i : nat) (j k : Z) (rb junk : bytes).

Notation packets := (group_packets ch group (n + 1) (len cs) cs).
Notation header k := (frag_header ch group (n + 1) (len cs) k).

(** What the receiver gets under each index. *)
Definition received_under k : bytes := if k <=? n then log k else Header.enc_fragmented (header k).

Definition indices S : gset Z := list_to_set (seqZ 1 n) ∪ list_to_set ((λ i, n + 1 + Z.of_nat i) <$> S).

Lemma elem_of_indices S k :
  k ∈ indices S ↔ 1 ≤ k ≤ n ∨ ∃ i, i ∈ S ∧ k = n + 1 + Z.of_nat i.
Proof.
  unfold indices. rewrite elem_of_union, !elem_of_list_to_set, elem_of_seqZ, list_elem_of_fmap.
  split; (intros [Hk|(i & Hi & Hj)]; [left; lia|right; by exists i]).
Qed.

Lemma indices_cons i S : indices (i :: S) = {[ n + 1 + Z.of_nat i ]} ∪ indices S.
Proof. unfold indices. simpl. set_solver. Qed.

Lemma indices_nil : indices [] = list_to_set (seqZ 1 n).
Proof. unfold indices. simpl. set_solver. Qed.

(** The fragments [S] have arrived, those of [T] since the group was last
    assembled; the application has read up to [j]. *)
Record gathering (S T : list nat) (j : Z) (s : Spec.Spec) (c : Channel) : Prop := {
  ga_receiver : refines (receiver c) s;
  ga_serving : serving received_under W (indices S) s j;
  ga_partial : partial ch group (n + 1) (len cs) cs f0 (frag c) T;
  ga_read : n ≤ j;
  ga_arrived : Forall (λ i, (i < length cs)%nat) S;
  ga_since : T ⊆ S
}.

Lemma gathering_cur S T j s c : gathering S T j s c → n ≤ Spec.cur s ≤ n + len cs.
Proof.
  intros [_ Hs _ Hj HS _]. pose proof (sv_count _ _ _ _ _ Hs).
  destruct (tm_frontier _ _ _ (sv_timely _ _ _ _ _ Hs)) as (Hf0 & Hf & _). split; [lia|].
  destruct (decide (Spec.cur s ≤ n)); [lia|].
  destruct (proj1 (elem_of_indices S (Spec.cur s)) (Hf (Spec.cur s) ltac:(lia))) as [?|(i & Hi & ->)]; [lia|].
  rewrite Forall_forall in HS. specialize (HS i Hi). lia.
Qed.

Lemma gathering_missing S T j s c i :
  gathering S T j s c → i ∉ S → (i < length cs)%nat → Spec.cur s < n + len cs.
Proof.
  intros Hg Hi Hl. pose proof (gathering_cur _ _ _ _ _ Hg). destruct Hg as [_ Hs _ Hj HS _].
  destruct (decide (Spec.cur s = n + len cs)) as [E|]; [|lia].
  destruct (tm_frontier _ _ _ (sv_timely _ _ _ _ _ Hs)) as (_ & Hf & _).
  destruct (proj1 (elem_of_indices S (n + 1 + Z.of_nat i)) (Hf (n + 1 + Z.of_nat i) ltac:(lia))) as [?|(i' & Hi' & E')]; [lia|].
  by assert (i' = i) as -> by lia.
Qed.

Lemma gathering_complete S T j s c :
  gathering S T j s c → (∀ i, (i < length cs)%nat → i ∈ S) → Spec.cur s = n + len cs.
Proof.
  intros Hg HS. pose proof (gathering_cur _ _ _ _ _ Hg) as Hc. destruct Hg as [_ Hs _ Hj _ _].
  destruct (decide (Spec.cur s < n + len cs)); [|lia].
  destruct (tm_frontier _ _ _ (sv_timely _ _ _ _ _ Hs)) as (_ & _ & []). apply elem_of_indices. right.
  exists (Z.to_nat (Spec.cur s - n)). split; [apply HS|]; lia.
Qed.

(** An ordered receiver whose application has read the messages up to [n], and
    for which nothing else is on the way. *)
Lemma gathering_start es r taken c :
  on_time W log ∅ es → receive_run (Receiver.create true W, []) es = Ret (r, taken) →
  is_frontier (list_to_set (arrivals es)) n → newest es ≤ n →
  receiver c = r → Receiver.published r = [] → frag c = f0 →
  ∃ s, gathering [] [] n s c.
Proof.
  intros Hes Hrun Hfront Hnew <- Hpub Hf.
  destruct (on_time_state W log es _ taken HW Hes Hrun) as (t & mine & _ & Hr & Ht & Ho & Hwin & Hlast & _).
  assert (Spec.cur t = n) as Hcur by (eapply is_frontier_unique, Hfront; apply Ht).
  assert (list_to_set (arrivals es) = indices []) as EA.
  { apply set_eq. intros k. rewrite elem_of_indices, elem_of_list_to_set. split.
    - intros Hk. left. pose proof (on_time_positive _ _ _ _ _ Hes Hk). destruct (newest_spec es) as (_ & Hle & _).
      specialize (Hle k Hk). lia.
    - intros [Hk|(i & Hi & _)]; [|by apply elem_of_nil in Hi]. by apply (elem_of_list_to_set (C:=gset Z)), Hfront. }
  pose proof (newest_is_newest es) as Hnewest. rewrite EA in Ht, Hnewest. exists t. split; [done| | |lia|constructor|done].
  - split; [|done| |lia|by rewrite Hlast].
    + destruct Ht as [Hwf ? ? Hgot Hbuf Hwait ?]. split; try done. intros i p Hi.
      assert (i ∈ Spec.got t) as [HiA Hlt]%Hgot by (apply Hwf; by eexists).
      apply elem_of_indices in HiA as [?|(? & Hi' & _)]; [lia|by apply elem_of_nil in Hi'].
    + rewrite Hcur, Z.sub_diag. destruct (rf_published _ _ Hr) as [_ Hout]. rewrite Hpub in Hout.
      by destruct (Spec.out t).
  - rewrite Hf. split; [by apply delete_id|intros q p; rewrite Hfresh; simpl|by left].
    rewrite lookup_empty. split; [done|]. intros (i & ? & Hi & _). by apply elem_of_nil in Hi.
Qed.

(** ** Arrivals *)

Lemma read_header k chunk junk :
  Header.read (frag_packet ch group (n + 1) (len cs) k chunk ++ junk) = Ret (Header.plain_part (header k)).
Proof.
  apply read_spec; [by apply frag_header_wf|]. split; [done|].
  change (Z.to_nat 0) with 0%nat. rewrite drop_0. unfold frag_packet, Header.enc_fragmented.
  by rewrite <-!app_assoc, drop_app_length.
Qed.

Lemma payload_header k chunk junk :
  payload (frag_packet ch group (n + 1) (len cs) k chunk ++ junk) TACHYON_FRAGMENTED_HEADER_SIZE =
    Header.enc_fragmented (header k).
Proof.
  unfold payload, frag_packet. rewrite <-app_assoc. apply take_app_length'.
  by rewrite length_enc_fragmented.
Qed.

(** The receiver takes the header of fragment [i]. *)
Lemma gathering_received S T j s c f' i chunk junk :
  let k := n + 1 + Z.of_nat i in
  let p := frag_packet ch group (n + 1) (len cs) k chunk in
  gathering S T j s c → (i < length cs)%nat → len chunk ≤ 1200 → len junk ≤ isize_max - 2000 →
  partial ch group (n + 1) (len cs) cs f0 f' (i :: T) →
  ∃ s' r' accepted,
    Receiver.receive_packet (receiver c) (seq_of k) (p ++ junk) TACHYON_FRAGMENTED_HEADER_SIZE =
      Ret (r', accepted) ∧
    gathering (i :: S) (i :: T) j s' (c <| frag := f' |> <| receiver := r' |>).
Proof.
  intros k p Hg Hi Hchunk Hjunk Hp'. pose proof (gathering_cur _ _ _ _ _ Hg) as Hcur. destruct Hg as [Hr Hs _ Hj HS HT].
  assert (len p = 10 + len chunk) as Hpl by apply length_frag_packet.
  destruct (receive_refines (receiver c) s k (p ++ junk) TACHYON_FRAGMENTED_HEADER_SIZE Hr) as (r' & Hrec & Hr').
  { unfold Spec.in_reach. lia. }
  { unfold TACHYON_FRAGMENTED_HEADER_SIZE. rewrite length_app. lia. }
  { rewrite length_app. unfold isize_max in *. lia. }
  assert (payload (p ++ junk) TACHYON_FRAGMENTED_HEADER_SIZE = received_under k) as Hpay.
  { unfold p. rewrite payload_header. unfold received_under. by destruct (Z.leb_spec k n); [lia|]. }
  rewrite Hpay in Hrec, Hr'. do 3 eexists. split; [exact Hrec|].
  split; [done| |done|done|by constructor|set_solver].
  rewrite indices_cons. apply serving_receive; [done|]. lia.
Qed.

(** The channel takes fragment [i]. *)
Lemma gathering_takes S T j s c i chunk junk :
  let p := frag_packet ch group (n + 1) (len cs) (n + 1 + Z.of_nat i) chunk in
  gathering S T j s c → cs !! i = Some chunk → len junk ≤ isize_max - 2000 →
  ∃ s' c', TachyonIo.receive_on_channel c (Header.plain_part (header (n + 1 + Z.of_nat i))) peer (p ++ junk) (len p) now =
      Ret (c', Retry) ∧ gathering (i :: S) (i :: T) j s' c' ∧ id c' = id c ∧ address c' = address c.
Proof.
  intros p Hg Hchunk Hjunk. pose proof (lookup_lt_Some _ _ _ Hchunk) as Hi.
  assert (0 < len chunk ≤ 1200) as Hcl by (by eapply (Forall_lookup_1 _ _ _ _ Hsize)).
  unfold p. clear p. set (k := n + 1 + Z.of_nat i). unfold TachyonIo.receive_on_channel. cbv zeta.
  change (Header.message_type (Header.plain_part (header k))) with MESSAGE_TYPE_FRAGMENT.
  change (MESSAGE_TYPE_FRAGMENT =? MESSAGE_TYPE_NONE) with false.
  change (MESSAGE_TYPE_FRAGMENT =? MESSAGE_TYPE_NACK) with false.
  change (MESSAGE_TYPE_FRAGMENT =? MESSAGE_TYPE_FRAGMENT) with true. cbv beta iota.
  change (Header.sequence (Header.plain_part (header k))) with (seq_of k).
  destruct (receive_fragment_partial ch group (n + 1) (len cs) now cs Hok ltac:(lia) Hsize f0 (frag c) T i junk chunk
    (ga_partial _ _ _ _ _ Hg) Hchunk Hjunk) as (f' & full & Hfrag & Hp').
  destruct (gathering_received S T j s c f' i chunk junk Hg Hi ltac:(lia) Hjunk Hp') as (s' & r' & accepted & Hrec & Hg').
  fold k in Hfrag, Hrec. set (p := frag_packet _ _ _ _ _ _) in *.
  unfold process_fragment_message. set (c1 := count ChannelStats.bytes_received (len p) c).
  change (frag c1) with (frag c). rewrite Hfrag, bind_ret_l. cbv beta iota zeta. cbn [fst].
  change (receiver (c1 <| frag := f' |>)) with (receiver c). rewrite Hrec, bind_ret_l. cbv beta iota zeta.
  exists s'. destruct accepted; eexists; (split; [done|]); (split; [by destruct Hg'|done]).
Qed.

Lemma gathering_arrives S T j s c i junk results :
  gathering S T j s c → (i < length cs)%nat → len junk ≤ isize_max - 2000 →
  ∃ s' c', happens peer now packets (c, results) (Arrives i junk) = Ret (c', results) ∧
    gathering (i :: S) (i :: T) j s' c'.
Proof.
  intros Hg Hi Hjunk. destruct (lookup_lt_is_Some_2 cs i Hi) as [chunk Hchunk].
  unfold happens, group_packets. rewrite list_lookup_imap, Hchunk. cbn [fmap option_fmap option_map].
  rewrite read_header, bind_ret_l.
  destruct (gathering_takes S T j s c i chunk junk Hg Hchunk Hjunk) as (s' & c' & Hon & Hg' & _).
  exists s', c'. by rewrite Hon, bind_ret_l.
Qed.

(** ** Reads *)

Lemma fragment_of_header k : fragment_of (header k) (Header.enc_fragmented (header k)).
Proof.
  split; [by eexists|]. intros more. pose proof (read_packet ch group (n + 1) (len cs) Hok k [] more) as H1.
  unfold frag_packet in H1. by rewrite app_nil_r in H1.
Qed.

(** What is published are headers of the group. *)
Lemma gathering_out S T j s c k p :
  gathering S T j s c → (k, p) ∈ Spec.out s → p = Header.enc_fragmented (header k).
Proof.
  intros [_ Hs _ Hj _ _]. rewrite (sv_out _ _ _ _ _ Hs). unfold msgs.
  intros (k' & [= -> ->] & Hk)%list_elem_of_fmap. apply elem_of_seqZ in Hk.
  unfold received_under. by destruct (Z.leb_spec k' n); [lia|].
Qed.

Lemma gathering_out_length S T j s c : gathering S T j s c → len (Spec.out s) = Spec.cur s - j.
Proof.
  intros [_ Hs _ _ _ _]. pose proof (sv_count _ _ _ _ _ Hs).
  rewrite (sv_out _ _ _ _ _ Hs). unfold msgs. rewrite length_fmap, length_seqZ. lia.
Qed.

Lemma assemble_missing T f i k :
  partial ch group (n + 1) (len cs) cs f0 f T → (i < length cs)%nat → i ∉ T →
  assemble f (header k) = Ret (f, RErr ()).
Proof.
  intros Hp Hi HiT. destruct (received f !! group) as [map|] eqn:Em.
  - eapply (assemble_incomplete group); [done|exact Em|].
    pose proof (partial_incomplete ch group (n + 1) (len cs) cs ltac:(lia) f0 f T i map Hp Hi HiT Em). simpl. lia.
  - unfold assemble. simpl. by rewrite Em.
Qed.

(** While a fragment is missing a read gives nothing. *)
Lemma gathering_reads_nothing S T j s c i rb :
  gathering S T j s c → i ∉ T → (i < length cs)%nat → Spec.cur s - j < 1000 →
  ∃ s' c', receive_published c rb = Ret (c', rb, (0, address c)) ∧
    (frag c' = frag c ∧ address c' = address c ∧ id c' = id c) ∧
    gathering S T (Spec.cur s') s' c' ∧ Spec.cur s' = Spec.cur s ∧ Spec.out s' = [].
Proof.
  intros Hg HiT Hi Hlen. pose proof (gathering_out_length _ _ _ _ _ Hg) as Hl.
  destruct (receive_published_nothing c s rb (ga_receiver _ _ _ _ _ Hg)) as (c' & Hrun & Hc' & Hr').
  - apply Forall_forall. intros [k p] Hk. simpl. rewrite (gathering_out _ _ _ _ _ _ _ Hg Hk). right.
    exists (header k). split; [apply fragment_of_header|]. eapply assemble_missing, HiT; [apply Hg|done].
  - lia.
  - destruct (reads_same _ _ Hc') as (Ef & _ & _). exists (s <| Spec.out := [] |>), c'.
    split; [done|]. split; [by apply reads_same|]. split; [|done].
    destruct Hg as [_ Hs Hp Hj HS HT]. split; [done| |by rewrite Ef| |done|done].
    + exact (serving_drain _ _ _ _ Hs).
    + pose proof (sv_count _ _ _ _ _ Hs). simpl. lia.
Qed.

Lemma gathering_reads S T j s c i rb results :
  gathering S T j s c → i ∉ T → (i < length cs)%nat → Spec.cur s - j < 1000 →
  ∃ s' c', happens peer now packets (c, results) (Reads rb) = Ret (c', results ++ [(rb, 0)]) ∧
    gathering S T (Spec.cur s') s' c' ∧ Spec.out s' = [] ∧ frag c' = frag c.
Proof.
  intros Hg HiT Hi Hlen.
  destruct (gathering_reads_nothing S T j s c i rb Hg HiT Hi Hlen) as (s' & c' & Hrun & Hc' & Hg' & _ & Ho).
  exists s', c'. unfold happens. rewrite Hrun, bind_ret_l. split_and!; [done..|apply Hc'].
Qed.

Lemma message_length : cs ≠ [] → 0 < len (concat cs) ≤ 1200 * 1000.
Proof.
  intros Hne. pose proof (length_concat_le 1200 ltac:(lia) cs Hsize). split; [|lia].
  destruct cs as [|c0 cs']; [done|]. apply Forall_cons in Hsize as [? _]. simpl. rewrite length_app. lia.
Qed.

(** When all have arrived the next read gives the message, and the group is gone. *)
Lemma gathering_reads_message S T j s c rb :
  gathering S T j s c → j < Spec.cur s → (∀ i, (i < length cs)%nat → i ∈ T) → len (concat cs) ≤ len rb →
  ∃ s' c', receive_published c rb = Ret (c', splice 0 (concat cs) rb, (len (concat cs), address c)) ∧
    id c' = id c ∧ address c' = address c ∧
    gathering S [] (j + 1) s' c' ∧ Spec.cur s' = Spec.cur s ∧ received (frag c') = received f0.
Proof.
  intros Hg Hj HT Hrb. pose proof (gathering_out_length _ _ _ _ _ Hg) as Hl.
  pose proof (gathering_cur _ _ _ _ _ Hg) as Hc. pose proof (ga_read _ _ _ _ _ Hg) as Hnj.
  assert (cs ≠ []) as Hne by (intros ->; simpl in *; lia). pose proof (message_length Hne) as Hm.
  destruct (Spec.out s) as [|[k p] ms] eqn:Ho; [simpl in Hl; lia|].
  pose proof (gathering_out _ _ _ _ _ k p Hg ltac:(rewrite Ho; by left)) as ->.
  destruct (receive_published_assembled c s rb k _ ms (header k) ((frag c) <| received := delete group (received (frag c)) |>)
    (concat cs) (ga_receiver _ _ _ _ _ Hg) Ho (fragment_of_header k)) as (c1 & Hrun & Hc1 & Hr1); [|lia|done|].
  { eapply (assemble_complete ch group (n + 1) (len cs)); try done; [lia|unfold isize_max; lia|].
    eapply (partial_complete ch group (n + 1) (len cs) cs); [lia|done|apply Hg|done..]. }
  exists (Spec.consume s), c1. split; [done|]. split; [by apply reads_same in Hc1 as (_ & _ & ->)|].
  split; [by apply reads_same in Hc1 as (_ & -> & _)|].
  destruct Hg as [_ Hs Hp _ HS _]. destruct (reads_same _ _ Hc1) as (Ef & _ & _).
  split; [|by rewrite Ef; split; [|apply (pa_rest _ _ _ _ _ _ _ _ Hp)]]. split; rewrite ?Ef; [done| | |lia|done|apply list_subseteq_nil].
  - by destruct (serving_consume _ _ _ _ _ _ _ Hs Ho) as [_ ?].
  - simpl. split; simpl; [by rewrite (pa_rest _ _ _ _ _ _ _ _ Hp), delete_id| |left; split; [done|apply lookup_delete_eq]].
    intros q p. rewrite lookup_delete_eq. simpl. rewrite lookup_empty. split; [done|].
    intros (i & ? & Hi & _). by apply elem_of_nil in Hi.
Qed.

Lemma gathering_message S T j s c rb results :
  gathering S T j s c → j < Spec.cur s → (∀ i, (i < length cs)%nat → i ∈ T) → len (concat cs) ≤ len rb →
  ∃ s' c', happens peer now packets (c, results) (Reads rb) =
      Ret (c', results ++ [(splice 0 (concat cs) rb, len (concat cs))]) ∧
    gathering S [] (j + 1) s' c' ∧ Spec.cur s' = Spec.cur s ∧ received (frag c') = received f0.
Proof.
  intros Hg Hj HT Hrb. destruct (gathering_reads_message S T j s c rb Hg Hj HT Hrb) as (s' & c' & Hrun & _ & _ & Hg').
  exists s', c'. unfold happens. by rewrite Hrun, bind_ret_l.
Qed.

(** ** Histories *)

(** What happens while a fragment is missing. *)
Lemma gathering_run es i : ∀ S T j s c results,
  gathering S T j s c → i ∉ S → (i < length cs)%nat → i ∉ arrived es → Forall (arrives_ok (length cs)) es →
  ∃ S' T' j' s' c', foldl_m (happens peer now packets) (c, results) es = Ret (c', results ++ reads_nothing es) ∧
    gathering S' T' j' s' c' ∧ i ∉ S' ∧ (∀ i', i' ∈ T ∨ i' ∈ arrived es → i' ∈ T').
Proof.
  induction es as [|e es IH]; intros S T j s c results Hg HiS Hi Hies Hes.
  { exists S, T, j, s, c. simpl. rewrite app_nil_r. split_and!; try done. set_solver. }
  apply Forall_cons in Hes as [He Hes]. cbn [foldl_m]. destruct e as [i' junk|rb].
  - destruct He as [Hi' Hjunk]. change (i ∉ i' :: arrived es) in Hies.
    destruct (gathering_arrives S T j s c i' junk results Hg Hi' Hjunk) as (s1 & c1 & Hrun & Hg1).
    destruct (IH _ _ _ _ _ results Hg1) as (S' & T' & j' & s' & c' & Hrest & Hg' & Hm & HT'); [set_solver..|].
    exists S', T', j', s', c'. rewrite Hrun, bind_ret_l. split_and!; [done|done|done|].
    intros i2. change (i2 ∈ T ∨ i2 ∈ i' :: arrived es → i2 ∈ T'). set_solver.
  - pose proof (gathering_missing _ _ _ _ _ i Hg HiS Hi). pose proof (ga_read _ _ _ _ _ Hg).
    destruct (gathering_reads S T j s c i rb results Hg) as (s1 & c1 & Hrun & Hg1 & _ & _);
      [intros HiT; by apply HiS, Hg|done|lia|].
    destruct (IH _ _ _ _ _ (results ++ [(rb, 0)]) Hg1 HiS Hi Hies Hes) as (S' & T' & j' & s' & c' & Hrest & Hg' & Hm & HT').
    exists S', T', j', s', c'. rewrite Hrun, bind_ret_l, Hrest, <-app_assoc. by split_and!.
Qed.

Lemma gathering_arrivals late : ∀ S T j s c results,
  gathering S T j s c → Forall (arrives_ok (length cs)) (arrive_all late) →
  ∃ S' T' s' c', foldl_m (happens peer now packets) (c, results) (arrive_all late) = Ret (c', results) ∧
    gathering S' T' j s' c' ∧ (∀ i, i ∈ T ∨ i ∈ late.*1 → i ∈ T').
Proof.
  induction late as [|[i junk] late IH]; intros S T j s c results Hg Hlate.
  { exists S, T, s, c. simpl. split_and!; try done. set_solver. }
  apply Forall_cons in Hlate as [[Hi Hjunk] Hlate]. cbn [foldl_m arrive_all fmap list_fmap fst snd] in *.
  destruct (gathering_arrives S T j s c i junk results Hg Hi Hjunk) as (s1 & c1 & Hrun & Hg1).
  destruct (IH _ _ _ _ _ results Hg1 Hlate) as (S' & T' & s' & c' & Hrest & Hg' & HT').
  exists S', T', s', c'. rewrite Hrun, bind_ret_l. split_and!; [done|done|set_solver].
Qed.

(** Arrivals that complete the group, and the read of the message. *)
Lemma gathering_completes S T j s c late rb results :
  gathering S T j s c → j < n + len cs → Forall (arrives_ok (length cs)) (arrive_all late) →
  (∀ i, (i < length cs)%nat → i ∈ T ∨ i ∈ late.*1) → len (concat cs) ≤ len rb →
  ∃ S' s' c', foldl_m (happens peer now packets) (c, results) (arrive_all late ++ [Reads rb]) =
      Ret (c', results ++ [(splice 0 (concat cs) rb, len (concat cs))]) ∧
    gathering S' [] (j + 1) s' c' ∧ Spec.cur s' = n + len cs ∧ received (frag c') = received f0.
Proof.
  intros Hg Hj Hlate Hcover Hrb.
  destruct (gathering_arrivals late S T j s c results Hg Hlate) as (S2 & T2 & s2 & c2 & Hrun2 & Hg2 & HT2).
  assert (∀ i, (i < length cs)%nat → i ∈ T2) as Hall by (intros i Hi; by apply HT2, Hcover).
  assert (Spec.cur s2 = n + len cs) as Hc.
  { eapply gathering_complete; [exact Hg2|]. intros i Hi. by apply Hg2, Hall. }
  destruct (gathering_message S2 T2 j s2 c2 rb results Hg2) as (s3 & c3 & Hrun3 & Hg3 & Hc3 & Hgone); [lia|done|done|].
  exists S2, s3, c3. rewrite foldl_m_app, Hrun2, bind_ret_l. cbn [foldl_m]. rewrite Hrun3, bind_ret_l.
  split; [done|]. split; [done|]. split; [lia|done].
Qed.

(** From the first fragment to the read behind the message. *)
Lemma gathering_delivers s c es late i rb rb' :
  gathering [] [] n s c → (i < length cs)%nat → i ∉ arrived es →
  Forall (arrives_ok (length cs)) es → Forall (arrives_ok (length cs)) (arrive_all late) →
  (∀ i, (i < length cs)%nat → i ∈ arrived es ∨ i ∈ late.*1) → len (concat cs) ≤ len rb →
  ∃ c', foldl_m (happens peer now packets) (c, []) (es ++ arrive_all late ++ [Reads rb; Reads rb']) =
      Ret (c', reads_nothing es ++ [(splice 0 (concat cs) rb, len (concat cs)); (rb', 0)]) ∧
    received (frag c') = received f0 ∧ Receiver.published (receiver c') = [].
Proof.
  intros Hg0 Hi Hmiss Hes Hlate Hcover Hrb.
  destruct (gathering_run es i [] [] n s c [] Hg0) as (S1 & T1 & j & s1 & c1 & Hrun1 & Hg1 & HiS & HT1);
    [by apply not_elem_of_nil|done..|].
  pose proof (gathering_missing _ _ _ _ _ i Hg1 HiS Hi) as Hlt. pose proof (ga_read _ _ _ _ _ Hg1) as Hnj.
  pose proof (sv_count _ _ _ _ _ (ga_serving _ _ _ _ _ Hg1)) as Hj.
  destruct (gathering_completes S1 T1 j s1 c1 late rb (reads_nothing es) Hg1) as (S2 & s2 & c2 & Hrun2 & Hg2 & Hc2 & Hgone);
    [lia|done| |done|].
  { intros i' Hi'. destruct (Hcover i' Hi'); [left; apply HT1; by right|by right]. }
  destruct (gathering_reads S2 [] (j + 1) s2 c2 i rb'
    (reads_nothing es ++ [(splice 0 (concat cs) rb, len (concat cs))]) Hg2) as (s3 & c3 & Hrun3 & Hg3 & Ho3 & Ef);
    [by apply not_elem_of_nil|done|lia|].
  exists c3. cbn [app] in Hrun1. change [Reads rb; Reads rb'] with ([Reads rb] ++ [Reads rb']).
  rewrite foldl_m_app, Hrun1, bind_ret_l, app_assoc, foldl_m_app, Hrun2, bind_ret_l. cbn [foldl_m].
  rewrite Hrun3, bind_ret_l, <-app_assoc. split; [done|]. split; [by rewrite Ef|].
  apply (refines_nothing_published _ _ (ga_receiver _ _ _ _ _ Hg3) Ho3).
Qed.
End gathering.

(** ** Property *)

Section delivery.
Context `{VarintOps}.


(** C38: fragments are collected before the receiver looks for repetitions, so a
    network that repeats packets can make the application get a message twice:
    when the fragments of a message of at least two have arrived and the message
    has been read, and all of them arrive once more before the next read, that
    read returns the message again. *)
Theorem repeated_fragments_are_delivered_again (W n ch group : Z) (cs : list bytes) (msg : Z → bytes)
    (es0 : list event) (taken : list bytes) (c : Channel) (peer : NetworkAddress.NetworkAddress) (now : Z)
    (first second : list (nat * bytes)) (rb rb' : bytes) :
  1 ≤ W ≤ 1022 → 0 ≤ n → group_ok ch group (len cs) → 2 ≤ len cs ≤ Z.min W 1000 →
  Forall (λ c, 0 < len c ≤ 1200) cs →
  on_time W msg ∅ es0 → receive_run (Receiver.create true W, []) es0 = Ret (receiver c, taken) →
  is_frontier (list_to_set (arrivals es0)) n → newest es0 ≤ n → Receiver.published (receiver c) = [] →
  received (frag c) !! group = None →
  Forall (arrives_ok (length cs)) (arrive_all first ++ arrive_all second) →
  (∀ i, (i < length cs)%nat → i ∈ first.*1 ∧ i ∈ second.*1) →
  len (concat cs) ≤ len rb → len (concat cs) ≤ len rb' →
  let packets := group_packets ch group (n + 1) (len cs) cs in
  ∃ c', foldl_m (happens peer now packets) (c, [])
      ((arrive_all first ++ [Reads rb]) ++ (arrive_all second ++ [Reads rb'])) =
      Ret (c', [(splice 0 (concat cs) rb, len (concat cs)); (splice 0 (concat cs) rb', len (concat cs))]).
Proof.
  intros HW Hn Hok Hcount Hsz Hes0 Hrun0 Hfront Hnew Hpub Hfresh [H1 H2]%Forall_app Hcover Hrb Hrb' packets.
  destruct (gathering_start W n ch group msg cs (frag c) HW Hn Hfresh es0 (receiver c) taken c) as (s0 & Hg0); try done.
  pose proof (gathering_completes peer now W n ch group msg cs (frag c) HW Hn Hok ltac:(lia) Hsz Hfresh) as Hcomplete.
  destruct (Hcomplete [] [] n s0 c first rb [] Hg0) as (S1 & s1 & c1 & Hrun1 & Hg1 & _); [lia|done| |done|].
  { intros i Hi. right. by apply Hcover. }
  destruct (Hcomplete S1 [] (n + 1) s1 c1 second rb' [(splice 0 (concat cs) rb, len (concat cs))] Hg1)
    as (S2 & s2 & c2 & Hrun2 & _); [lia|done| |done|].
  { intros i Hi. right. by apply Hcover. }
  exists c2. rewrite foldl_m_app. cbn [app] in Hrun1. unfold packets. by rewrite Hrun1, bind_ret_l, Hrun2.
Qed.
End delivery.
