(* ===== verification/tachyon_fragments.v ===== *)
(** A large message from the send of a client to the read of a server.

    The client cuts the message up; the network carries the fragments in any order
    and repeats some; the application of the server calls [receive_loop], each call
    of which takes up to a hundred datagrams and then looks at every channel. *)

From S2P Require Import prelude sequence network_address int_buffer header nack byte_buffer_pool.
From S2P Require Import send_buffer_manager receiver receiver_spec receiver_delivery receiver_refinement.
From S2P Require Import receiver_histories fragmentation send_result tachyon_socket unreliable_sender channel.
From S2P Require Import connection tachyon_state connection_impl tachyon channel_sending channel_receiving channel_recovery.
From S2P Require Import tachyon_sending tachyon_delivery channel_fragments.

Import NetworkAddress Tachyon ConnectionImpl TachyonIo.

Lemma comes_once (x : nat) l1 : ∀ l2 k1 k2, l1 ++ x :: l2 = k1 ++ x :: k2 → x ∉ l1 → x ∉ l2 → x ∉ k2.
Proof.
  induction l1 as [|y l1 IH]; intros l2 [|z k1] k2; cbn [app].
  - by intros [= ->].
  - intros [= <- ->] _ Hx. destruct Hx. apply elem_of_app. right. by left.
  - intros [= -> _] Hx. destruct Hx. by left.
  - intros [= <- E] [_ Hx]%not_elem_of_cons. by eapply IH.
Qed.

(** ** Reading every channel *)

Section reading.
Context `{Callbacks} `{VarintOps} `{HashIter} `{!HashIterLaws _}.
Implicit Types (t : Tachyon) (rb : bytes).

Definition nothing_published t (e : NetworkAddress * Z * Channel.Channel) : Prop :=
  channels t !! e.1 = Some e.2 ∧ Receiver.published (Channel.receiver e.2) = [].

Lemma read_all_passes t rb entries rest : Forall (nothing_published t) entries →
  receive_published_all_loop t rb (entries ++ rest) = receive_published_all_loop t rb rest.
Proof.
  induction 1 as [|[key c] entries [Hc Hp] _ IH]; [done|]. cbn [app]. by rewrite read_all_skip.
Qed.

(** Nothing is published but on channel [key]: what its read gives. *)
Lemma read_all_one t rb key c c' rb' l a :
  channels t !! key = Some c → Channel.receive_published c rb = Ret (c', rb', (l, a)) →
  (∀ key' c1, channels t !! key' = Some c1 → key' ≠ key → Receiver.published (Channel.receiver c1) = []) →
  receive_published_all_channels t rb =
    Ret (t <| channels := <[key := c']> (channels t) |>, rb',
      if 0 <? l then TachyonReceiveResult.mk (Channel.id c') a l 0 else TachyonReceiveResult.default).
Proof.
  intros Hc Hread Hothers. unfold receive_published_all_channels.
  destruct (hash_iter_around _ _ _ Hc) as (l1 & l2 & -> & Hall & Hkey).
  assert (∀ e, e ∈ l1 ++ l2 → nothing_published t e ∧ e.1 ≠ key) as Hskip.
  { intros e He. assert (e.1 ≠ key) by (intros <-; apply Hkey, list_elem_of_fmap; by exists e).
    split; [|done]. split; [by apply Hall|]. by eapply Hothers; [apply Hall|]. }
  rewrite read_all_passes by (apply Forall_forall; intros e He; apply Hskip, elem_of_app; by left).
  cbn [receive_published_all_loop]. rewrite Hread, bind_ret_l. cbv beta iota zeta. cbn [fst snd].
  destruct (0 <? l); [done|]. set (t' := t <| channels := _ |>).
  rewrite <-(app_nil_r l2), read_all_passes; [done|]. apply Forall_forall. intros e He.
  destruct (Hskip e) as [[Hk Hp] Hne]; [apply elem_of_app; by right|].
  split; [|done]. unfold t'. cbn [channels set]. by rewrite lookup_insert_ne.
Qed.
End reading.

(** ** A server that collects the fragments of a message *)

Section collecting.
Context `{Callbacks} `{VarintOps} `{HashIter} `{!HashIterLaws _}.
Context (peer : NetworkAddress) (ch : Z) (sock : UdpSocket).
Context (W n group : Z) (log : Z → bytes) (cs : list bytes) (f0 : Fragmentation.Fragmentation).
Context (HW : 1 ≤ W ≤ 1022) (Hn : 0 ≤ n) (Hok : group_ok ch group (len cs)).
Context (Hcount : len cs ≤ Z.min W 1000) (Hsize : Forall (λ c, 0 < len c ≤ 1200) cs).
Context (Hfresh : Fragmentation.received f0 !! group = None).
Implicit Types (t : Tachyon) (s : Spec.Spec) (S T : list nat) (i : nat) (j : Z) (rb : bytes) (w : World).

Notation packets := (group_packets ch group (n + 1) (len cs) cs).
Notation gathering := (gathering W n ch group log cs f0).

(** The fragments with these numbers. *)
Definition fragments (order : list nat) : list bytes := omap (λ i, packets !! i) order.

(** The server's channel has got the fragments [S], and those of [T] since the
    message was last put together; the application has read up to [j]. *)
Record collecting t S T (j : Z) s : Prop := {
  co_ready : ready peer ch sock t s;
  co_channel c : channels t !! (peer, ch) = Some c → gathering S T j s c
}.

Lemma collecting_put t s s' c' t' S T j :
  ready peer ch sock t s → t' = t <| channels := <[(peer, ch) := c']> (channels t) |> →
  Channel.id c' = ch → Channel.address c' = peer → gathering S T j s' c' → collecting t' S T j s'.
Proof.
  intros Hready -> Hid Ha Hg. split; [apply (ready_put peer ch sock t s s' c' Hready Hid Ha); apply Hg|].
  cbn [channels set]. rewrite lookup_insert_eq. by intros c [= <-].
Qed.

(** One fragment is taken from the socket. *)
Lemma collecting_takes t S T (j : Z) s i d src now w w' :
  collecting t S T j s → packets !! i = Some d →
  os_recv_from sock SOCKET_RECEIVE_BUFFER_LEN w = (w', Some (d, src)) → from_socket_addr src = peer →
  len d ≤ SOCKET_RECEIVE_BUFFER_LEN →
  ∃ t' s', receive_from_socket t now w = Ret (t', w', Retry) ∧ collecting t' (i :: S) (i :: T) j s'.
Proof.
  intros [Hready Hch] Hi Hrecv Hsrc Hd. destruct (rd_channel _ _ _ _ _ Hready) as (c & Hc & Hcid & Hca & _).
  specialize (Hch c Hc). unfold group_packets in Hi. rewrite list_lookup_imap in Hi.
  destruct (cs !! i) as [chunk|] eqn:Hchunk; [|done]. cbn [fmap option_fmap option_map] in Hi. injection Hi as <-.
  set (k := n + 1 + Z.of_nat i) in *. set (d := frag_packet _ _ _ _ _ _) in *.
  destruct (receive_front_channel peer ch sock t s w w' d src now (Header.plain_part (frag_header ch group (n + 1) (len cs) k)) c
    Hready Hrecv Hsrc Hd Hc) as (more & Hlen & Hfront); [|done..|].
  { rewrite splice_0. apply (read_header n ch group cs Hok). }
  destruct (gathering_takes peer now W n ch group log cs f0 HW Hn Hok Hcount Hsize Hfresh S T j s c i chunk more Hch Hchunk)
    as (s' & c' & Hon & Hg' & Hid' & Ha').
  { rewrite length_app in Hlen. unfold SOCKET_RECEIVE_BUFFER_LEN, isize_max in *. lia. }
  destruct (Hfront _ _ Hon) as (t' & Hrun & Hc' & _ & Hready'). exists t', s'. split; [done|]. split.
  - apply Hready'; [congruence|congruence|apply Hg'].
  - rewrite Hc'. by intros c1 [= <-].
Qed.

(** A call takes up to [m] fragments and then reads. *)
Lemma collecting_loop (m : nat) now rb : ∀ t S T (j : Z) s w order,
  collecting t S T j s → Forall (λ i, (i < length cs)%nat) order → pending peer sock (fragments order) w →
  ∃ t' s' w' taken rest, order = taken ++ rest ∧
    receive_loop_n m t rb now w =
      ('(t, rb, res) ← receive_published_all_channels t' rb; Ret (t, rb, w', res)) ∧
    collecting t' (reverse taken ++ S) (reverse taken ++ T) j s' ∧ pending peer sock (fragments rest) w' ∧
    (rest = [] ∨ length taken = m).
Proof.
  induction m as [|m IH]; intros t S T j s w order Hco Hord Hin.
  { exists t, s, w, [], order. split_and!; try done. by right. }
  destruct order as [|i order].
  { inversion Hin as [? Hrecv|]; subst. exists t, s, w, [], []. split_and!; try done; [|by left].
    cbn [receive_loop_n]. rewrite (receive_none peer ch sock t s w (co_ready _ _ _ _ _ Hco) Hrecv), bind_ret_l. done. }
  apply Forall_cons in Hord as [Hi Hord].
  destruct (packets !! i) as [d|] eqn:Hd; [|apply lookup_ge_None in Hd; rewrite length_group_packets in Hd; lia].
  unfold fragments in Hin. cbn [omap list_omap] in Hin. rewrite Hd in Hin.
  inversion Hin as [|? ? ? w1 src Hrecv Hsrc Hlen Hin']; subst.
  destruct (collecting_takes t S T j s i d src now w w1 Hco Hd Hrecv Hsrc Hlen) as (t1 & s1 & Hone & Hco1).
  destruct (IH t1 _ _ j s1 w1 order Hco1 Hord Hin') as (t' & s' & w' & taken & rest & -> & Hrun & Hco' & Hin2 & Hend).
  exists t', s', w', (i :: taken), rest. split; [done|]. split; [|split; [|split; [done|]]].
  - cbn [receive_loop_n]. by rewrite Hone, bind_ret_l.
  - rewrite reverse_cons. by rewrite <-!app_assoc.
  - destruct Hend as [?|<-]; [by left|by right].
Qed.

(** ** Reads *)

(** A read while a fragment is missing. *)
Lemma collecting_reads_nothing t S T j s i rb :
  collecting t S T j s → i ∉ T → (i < length cs)%nat → Spec.cur s - j < 1000 →
  ∃ t' s', receive_published_all_channels t rb = Ret (t', rb, TachyonReceiveResult.default) ∧
    collecting t' S T (Spec.cur s') s' ∧ Spec.cur s' = Spec.cur s.
Proof.
  intros [Hready Hch] HiT Hi Hlen. destruct (rd_channel _ _ _ _ _ Hready) as (c & Hc & Hcid & Hca & _). specialize (Hch c Hc).
  destruct (gathering_reads_nothing W n ch group log cs f0 Hok Hcount S T j s c i rb Hch HiT Hi Hlen)
    as (s' & c' & Hread & (_ & Ea & Ei) & Hg' & Hcur & _).
  eexists _, s'. split; [exact (read_all_one t rb (peer, ch) c c' rb 0 _ Hc Hread (rd_others _ _ _ _ _ Hready))|].
  split; [|done]. eapply collecting_put; [done|done|congruence|congruence|done].
Qed.

(** The read when none is missing. *)
Lemma collecting_reads_message t S T j s rb :
  collecting t S T j s → j < Spec.cur s → (∀ i, (i < length cs)%nat → i ∈ T) → len (concat cs) ≤ len rb →
  ∃ t' s', receive_published_all_channels t rb =
      Ret (t', splice 0 (concat cs) rb, TachyonReceiveResult.mk ch peer (len (concat cs)) 0) ∧
    collecting t' S [] (j + 1) s' ∧ Spec.cur s' = Spec.cur s.
Proof.
  intros [Hready Hch] Hj HT Hrb. destruct (rd_channel _ _ _ _ _ Hready) as (c & Hc & Hcid & Hca & _). specialize (Hch c Hc).
  destruct (gathering_reads_message W n ch group log cs f0 Hn Hok Hcount Hsize Hfresh S T j s c rb Hch Hj HT Hrb)
    as (s' & c' & Hread & Ei & Ea & Hg' & Hcur & _).
  pose proof (read_all_one t rb (peer, ch) c c' _ _ _ Hc Hread (rd_others _ _ _ _ _ Hready)) as Hall.
  assert (cs ≠ []) as Hne.
  { intros ->. pose proof (gathering_cur W n ch group log [] f0 Hn _ _ _ _ _ Hch). pose proof (ga_read _ _ _ _ _ _ _ _ _ _ _ _ Hch). simpl in *. lia. }
  pose proof (message_length W ch group cs Hok Hcount Hsize Hne) as Hm. destruct (Z.ltb_spec 0 (len (concat cs))); [|lia].
  eexists _, s'. split; [rewrite Hall, Ei, Hcid, Hca; done|]. split; [|done].
  eapply collecting_put; [done|done|congruence|congruence|done].
Qed.

(** ** Calls *)

Definition missing T : Prop := ∃ i, (i < length cs)%nat ∧ i ∉ T.

Lemma missing_or_all T : missing T ∨ ∀ i, (i < length cs)%nat → i ∈ T.
Proof.
  destruct (decide (Forall (λ i, i ∈ T) (seq 0 (length cs)))) as [Hall|Hsome].
  - right. intros i Hi. rewrite Forall_forall in Hall. apply Hall, elem_of_seq. lia.
  - apply not_Forall_Exists in Hsome; [|apply _]. apply Exists_exists in Hsome as (i & Hi%elem_of_seq & HiT).
    left. exists i. split; [lia|done].
Qed.

(** After the message: a fragment that does not come again keeps it from being
    put together once more. *)
Lemma collecting_quiet last nows : ∀ t S T j s rb w order,
  collecting t S T j s → n + 1 ≤ j → last ∉ T → last ∉ order → (last < length cs)%nat →
  Forall (λ i, (i < length cs)%nat) order → pending peer sock (fragments order) w →
  ∃ t' w', receive_calls nows t rb w = Ret (t', rb, w', []).
Proof.
  induction nows as [|now nows IH]; intros t S T j s rb w order Hco Hj HlT Hlo Hl Hord Hin; [by exists t, w|].
  destruct (collecting_loop 100 now rb t S T j s w order Hco Hord Hin) as (t1 & s1 & w1 & taken & rest & -> & Hloop & Hco1 & Hin1 & _).
  apply not_elem_of_app in Hlo as [Hlt Hlr]. apply Forall_app in Hord as [_ Hord].
  assert (last ∉ reverse taken ++ T) as HlT1 by (rewrite elem_of_app, elem_of_reverse; by intros [?|?]).
  assert (Spec.cur s1 - j < 1000) as Hcur.
  { destruct (rd_channel _ _ _ _ _ (co_ready _ _ _ _ _ Hco1)) as (c & Hc & _).
    pose proof (gathering_cur W n ch group log cs f0 Hn _ _ _ _ _ (co_channel _ _ _ _ _ Hco1 c Hc)). lia. }
  destruct (collecting_reads_nothing t1 _ _ j s1 last rb Hco1 HlT1 Hl Hcur) as (t2 & s2 & Hread & Hco2 & Ecur).
  destruct (rd_channel _ _ _ _ _ (co_ready _ _ _ _ _ Hco1)) as (c & Hc & _).
  pose proof (sv_count _ _ _ _ _ (ga_serving _ _ _ _ _ _ _ _ _ _ _ _ (co_channel _ _ _ _ _ Hco1 c Hc))) as Hcount'.
  destruct (IH t2 _ _ _ s2 rb w1 rest Hco2) as (t' & w' & Hrest); [lia|done..|].
  exists t', w'. cbn [receive_calls]. unfold receive_loop. by rewrite Hloop, Hread, !bind_ret_l, Hrest.
Qed.

(** Until the message: every call takes a hundred fragments, or all. *)
Lemma collecting_calls last nows : ∀ t T j s rb w order,
  collecting t T T j s → j < n + len cs → missing T → (∀ i, (i < length cs)%nat → i ∈ T ∨ i ∈ order) →
  (last < length cs)%nat → (last ∈ T → last ∉ order) → (∀ l1 l2, order = l1 ++ last :: l2 → last ∉ l2) →
  Forall (λ i, (i < length cs)%nat) order → pending peer sock (fragments order) w →
  (length order ≤ 100 * length nows)%nat → len (concat cs) ≤ len rb →
  ∃ t' rb' w', receive_calls nows t rb w = Ret (t', rb', w', [(ch, peer, concat cs)]).
Proof.
  induction nows as [|now nows IH]; intros t T j s rb w order Hco Hj Hmiss Hcover Hl HlT Honce Hord Hin Hn' Hrb.
  { destruct order; [|simpl in Hn'; lia]. destruct Hmiss as (i & Hi & HiT). destruct (Hcover i Hi) as [?|[]%elem_of_nil]. done. }
  destruct (collecting_loop 100 now rb t T T j s w order Hco Hord Hin) as (t1 & s1 & w1 & taken & rest & -> & Hloop & Hco1 & Hin1 & Hend).
  destruct (rd_channel _ _ _ _ _ (co_ready _ _ _ _ _ Hco1)) as (c & Hc & _).
  pose proof (co_channel _ _ _ _ _ Hco1 c Hc) as Hg. apply Forall_app in Hord as [_ Hord].
  assert (∀ i, i ∈ reverse taken ++ T ↔ i ∈ taken ∨ i ∈ T) as HT1 by (intros i; by rewrite elem_of_app, elem_of_reverse).
  assert (last ∈ reverse taken ++ T → last ∉ rest) as Hgone.
  { intros [Ht|?]%HT1; [|intros Hr; apply HlT; [done|]; apply elem_of_app; by right].
    apply list_elem_of_split in Ht as (l1 & l2 & ->). specialize (Honce l1 (l2 ++ rest)). rewrite <-app_assoc in Honce.
    intros Hr. apply (Honce eq_refl), elem_of_app. by right. }
  cbn [receive_calls]. unfold receive_loop. rewrite Hloop.
  destruct (missing_or_all (reverse taken ++ T)) as [Hm|Hall].
  - destruct Hm as (i & Hi & HiT).
    pose proof (gathering_missing W n ch group log cs f0 Hn _ _ _ _ _ i Hg HiT Hi) as Hcur.
    pose proof (ga_read _ _ _ _ _ _ _ _ _ _ _ _ Hg) as Hnj.
    destruct (collecting_reads_nothing t1 _ _ j s1 i rb Hco1 HiT Hi) as (t2 & s2 & Hread & Hco2 & Ecur); [lia|].
    destruct (IH t2 _ _ s2 rb w1 rest Hco2) as (t' & rb' & w' & Hrest); try done.
    + lia.
    + by exists i.
    + intros i' Hi'. destruct (Hcover i' Hi') as [?|[?|?]%elem_of_app]; [left; apply HT1; by right|left; apply HT1; by left|by right].
    + intros l1 l2 E. apply (Honce (taken ++ l1)). by rewrite E, <-app_assoc.
    + rewrite length_app in Hn'. destruct Hend as [->|Ht]; [simpl; lia|simpl in Hn'; lia].
    + exists t', rb', w'. by rewrite Hread, !bind_ret_l, Hrest.
  - assert (Spec.cur s1 = n + len cs) as Hcur by (eapply (gathering_complete W n ch group log cs f0 Hn); [exact Hg|done]).
    destruct (collecting_reads_message t1 _ _ j s1 rb Hco1) as (t2 & s2 & Hread & Hco2 & _); [lia|done|done|].
    pose proof (ga_read _ _ _ _ _ _ _ _ _ _ _ _ Hg) as Hnj.
    destruct (collecting_quiet last nows t2 _ [] (j + 1) s2 (splice 0 (concat cs) rb) w1 rest Hco2) as (t' & w' & Hrest);
      [lia|apply not_elem_of_nil|by apply Hgone, Hall|done..|].
    exists t', (splice 0 (concat cs) rb), w'. rewrite Hread, !bind_ret_l. cbn [TachyonReceiveResult.length TachyonReceiveResult.channel TachyonReceiveResult.address].
    assert (cs ≠ []) as Hne by (intros ->; simpl in Hl; lia).
    pose proof (message_length W ch group cs Hok Hcount Hsize Hne) as Hm. destruct (Z.ltb_spec 0 (len (concat cs))); [|lia].
    rewrite Hrest, bind_ret_l. cbn [app]. do 4 f_equal. rewrite splice_0. by rewrite take_app_length' by lia.
Qed.
End collecting.

(** ** Property *)

Lemma group_packets_short ch group start count cs : Forall (λ c, 0 < len c ≤ 1200) cs →
  Forall (λ p, len p ≤ 1210) (group_packets ch group start count cs).
Proof.
  intros Hsz. apply Forall_lookup_2. intros i p. unfold group_packets. rewrite list_lookup_imap.
  destruct (cs !! i) as [c|] eqn:Ec; [|done]. cbn [fmap option_fmap option_map]. intros [= <-].
  apply (Forall_lookup_1 _ _ _ _ Hsz) in Ec. pose proof (length_frag_packet ch group start count (start + Z.of_nat i) c). lia.
Qed.

Section property.
Context `{Callbacks} `{VarintOps} `{HashIter} `{!HashIterLaws _}.

End property.
