(* ===== verification/tachyon_recovery.v ===== *)
(** What the network loses is read in the end.

    A client has sent messages and a server has read some of them.  The update of
    the server asks for what is missing, the client takes that datagram from its
    socket, the update of the client resends, and the server reads the rest.  All
    other channels of the two are at rest: [update] goes over them too. *)

From S2P Require Import prelude sequence network_address int_buffer header nack byte_buffer_pool.
From S2P Require Import send_buffer_manager receiver receiver_spec receiver_delivery receiver_refinement.
From S2P Require Import receiver_histories receiver_nacks fragmentation send_result tachyon_socket unreliable_sender channel.
From S2P Require Import connection tachyon_state connection_impl tachyon channel_sending channel_receiving channel_recovery.
From S2P Require Import tachyon_delivery tachyon_unordered tachyon_conversation tachyon_fragments.

Import NetworkAddress Tachyon ConnectionImpl TachyonIo.

(** ** The update of one channel *)

Lemma walk_nothing s (step : bool) (n : nat) : Spec.buf s = ∅ → step = false → ∀ i, Spec.walk s step i n = s.
Proof.
  intros Hb ->. induction n as [|n IH]; intros i; [done|]. cbn [Spec.walk].
  assert (Spec.deliver s i = s) as -> by (unfold Spec.deliver; by rewrite Hb, lookup_empty).
  destruct (decide (i ∈ Spec.got s)); [apply IH|]. destruct (Spec.ordered s); [done|apply IH].
Qed.

Lemma publish_nothing s : Spec.cur s ∉ Spec.got s → (Spec.ordered s = false → Spec.buf s = ∅) → Spec.publish s = s.
Proof.
  intros Hcur Hend. unfold Spec.publish. destruct (Z.to_nat _) as [|n]; [done|].
  cbn [Spec.walk]. rewrite decide_False by done. destruct (Spec.ordered s); [done|]. apply walk_nothing; auto.
Qed.

Lemma publish_timely msg A s : timely msg A s → Spec.publish s = s.
Proof. intros Ht. apply publish_nothing; [rewrite (tm_got _ _ _ Ht); lia|apply (tm_empty _ _ _ Ht)]. Qed.

(** Nothing is missing and nothing is published. *)
Definition complete (s : Spec.Spec) : Prop :=
  Spec.got s = ∅ ∧ Spec.last s = Spec.cur s ∧ Spec.out s = [].

Lemma publish_complete s : spec_wf s → complete s → Spec.publish s = s.
Proof.
  intros Hwf (Hg & _ & _). apply publish_nothing; [rewrite Hg; apply not_elem_of_empty|]. intros _.
  apply map_empty. intros i. apply eq_None_not_Some. intros Hi%(wf_buf _ Hwf). rewrite Hg in Hi.
  by apply not_elem_of_empty in Hi.
Qed.

(** Nothing happens on the channel but, perhaps, resends. *)
Definition at_rest (c : Channel.Channel) : Prop := ∃ s, refines (Channel.receiver c) s ∧ complete s.

Lemma at_rest_published c : at_rest c → Receiver.published (Channel.receiver c) = [].
Proof. intros (s & Hr & _ & _ & Ho). by eapply refines_nothing_published. Qed.

Section channels.
Context `{Os} `{VarintOps} `{!Varint _} `{HashIter} `{!HashIterLaws _}.
Implicit Types (c : Channel.Channel) (w : World) (none : bytes).

Lemma send_nacks_at_rest c s :
  refines (Channel.receiver c) s → complete s →
  ∃ r', refines r' s ∧ ∀ sock w, Channel.send_nacks c sock w = Ret (c <| Channel.receiver := r' |>, w).
Proof.
  intros Hr (_ & Hl & _). pose proof (create_nacks_unfold _ _ Hr) as Hc. rewrite Hl in Hc.
  destruct (Z.leb_spec (Spec.cur s - 1) (Spec.cur s)); [|lia].
  eexists. split; [exact (create_nacks_refines _ _ _ _ Hr Hc)|].
  intros sock w. unfold Channel.send_nacks. by rewrite Hc.
Qed.

Lemma resend_nothing c none sock w :
  Channel.nacked_sequence_map c = ∅ → Channel.resend_nacked c none sock w = Ret (c, none, w).
Proof. intros Hmap. unfold Channel.resend_nacked. by rewrite Hmap, map_size_empty. Qed.

(** A channel on which nothing was asked for. *)
Lemma update_at_rest c : at_rest c → Channel.nacked_sequence_map c = ∅ →
  ∃ c', at_rest c' ∧ Channel.nacked_sequence_map c' = ∅ ∧
    ∀ none sock w, Channel.update c none sock w = Ret (c', none, w).
Proof.
  intros (s & Hr & Hs) Hmap. destruct (send_nacks_at_rest c s Hr Hs) as (r1 & Hr1 & Hnacks).
  destruct (publish_refines r1 s Hr1) as (r2 & Hpub & Hr2). rewrite (publish_complete s (rf_wf _ _ Hr) Hs) in Hr2.
  exists (c <| Channel.receiver := r2 |>). split; [by exists s|]. split; [done|]. intros none sock w.
  unfold Channel.update. rewrite Hnacks, bind_ret_l. cbv beta iota.
  rewrite resend_nothing, bind_ret_l by done. cbv beta iota. change (Channel.receiver (c <| Channel.receiver := r1 |>)) with r1.
  by rewrite Hpub.
Qed.

(** A channel that sends, on which the peer has asked for messages. *)
Lemma update_resends c n log sock : at_rest c → sends (Channel.send_buffers c) n log →
  (∀ s a, Channel.nacked_sequence_map c !! s = Some a → resendable n log s) →
  ∃ c', at_rest c' ∧ Channel.nacked_sequence_map c' = ∅ ∧ Channel.send_buffers c' = Channel.send_buffers c ∧
    Channel.id c' = Channel.id c ∧
    ∀ none w, Channel.update c none sock w =
      Ret (c', none, transmit_all sock (resends n log (hash_iter (Channel.nacked_sequence_map c))) w).
Proof.
  intros (s & Hr & Hs) Hm Hmap. destruct (send_nacks_at_rest c s Hr Hs) as (r1 & Hr1 & Hnacks).
  destruct (publish_refines r1 s Hr1) as (r2 & Hpub & Hr2). rewrite (publish_complete s (rf_wf _ _ Hr) Hs) in Hr2.
  set (c1 := c <| Channel.receiver := r1 |>). destruct (resend_nacked_spec c1 n log sock Hm Hmap) as (st & Hresend).
  eexists. split; [|split; [|split; [|split]]]; cycle -1.
  - intros none w. unfold Channel.update. rewrite Hnacks, bind_ret_l. fold c1. cbv beta iota.
    rewrite Hresend, bind_ret_l. cbv beta iota. set (c2 := _ <| Channel.nacked_sequence_map := ∅ |>).
    change (Channel.receiver c2) with r1. rewrite Hpub, bind_ret_l. reflexivity.
  - by exists s.
  - done.
  - done.
  - done.
Qed.

(** A channel with gaps asks for the messages in them. *)
Lemma update_asks c s : refines (Channel.receiver c) s → Spec.publish s = s →
  Channel.nacked_sequence_map c = ∅ → is_u8 (Channel.id c) → length (Channel.nack_send_data c) = 512%nat →
  Spec.window s ≤ 1984 → Spec.last s - 1 - Spec.cur s ≤ Spec.window s / 32 → (∃ i, Spec.missing s i) →
  ∃ c' nks, Forall nack_wf nks ∧ len nks ≤ 62 ∧ NoDup (all_nacked nks []) ∧
    all_nacked nks [] = seq_of <$> missing_down s (Spec.last s - 1) (Spec.last s - 1 - Spec.cur s) ∧
    refines (Channel.receiver c') s ∧ Channel.id c' = Channel.id c ∧ Channel.address c' = Channel.address c ∧
    ∀ none sock w, Channel.update c none sock w =
      Ret (c', none, transmit sock (Channel.address c, nack_datagram (Channel.id c) nks) w).
Proof.
  intros Hr Hs Hmap Hid Hlen Hw Hnear (i & Hi & Hgi).
  destruct (create_nacks_spec _ s Hr) as (r1 & m & Hc & Hall & Hwf & Hnd & _ & Hmiss & Hm & _ & _).
  assert (m = Spec.last s - 1 - Spec.cur s) as -> by lia. clear Hm.
  destruct (send_nacks_spec c s Hr Hw Hid Hlen) as (r1' & k' & data & st & Hc' & Hcount & Hsend).
  rewrite Hc in Hc'. injection Hc' as <- _.
  assert (Receiver.nack_list r1 ≠ []) as Hne.
  { intros E. rewrite E in Hall. apply (f_equal List.length) in Hall. rewrite length_fmap in Hall.
    assert (i ∈ missing_down s (Spec.last s - 1) (Spec.last s - 1 - Spec.cur s)) as Hin
      by (apply elem_of_missing_down; split; [lia|done]).
    destruct (missing_down s (Spec.last s - 1) (Spec.last s - 1 - Spec.cur s)); [by apply elem_of_nil in Hin|done]. }
  pose proof (create_nacks_refines _ _ _ _ Hr Hc) as Hr1.
  destruct (publish_refines r1 s Hr1) as (r2 & Hpub & Hr2). rewrite Hs in Hr2.
  do 2 eexists. split; [exact Hwf|]. split; [exact Hcount|]. split; [exact Hnd|]. split; [exact Hall|].
  split; [|split; [|split]]; cycle -1.
  - intros none sock w. unfold Channel.update. rewrite (Hsend Hne), bind_ret_l. cbv beta iota.
    rewrite resend_nothing, bind_ret_l by done. cbv beta iota. set (c1 := _ <| Channel.stats := st |>).
    change (Channel.receiver c1) with r1. rewrite Hpub, bind_ret_l. reflexivity.
  - exact Hr2.
  - done.
  - done.
Qed.
End channels.

(** ** The update of a [Tachyon] *)

(** Nothing happens on the channel. *)
Definition idle (c : Channel.Channel) : Prop := at_rest c ∧ Channel.nacked_sequence_map c = ∅.

Section updates.
Context `{Callbacks} `{VarintOps} `{!Varint _} `{HashIter} `{!HashIterLaws _}.
Implicit Types (t : Tachyon) (w : World) (none : bytes).

(** Every channel but this one is idle. *)
Definition others_idle t (key : NetworkAddress * Z) : Prop :=
  ∀ k c, channels t !! k = Some c → k ≠ key → idle c.

Lemma update_channel_spec t key c c' none w w' :
  Channel.update c none (socket t) w = Ret (c', none, w') →
  update_channel (t, none, w) (key, c) = Ret (t <| channels := <[key := c']> (channels t) |>, none, w').
Proof. intros Hup. unfold update_channel. cbn [fst snd]. by rewrite Hup. Qed.

Lemma update_passes entries : ∀ t, Forall (λ e : NetworkAddress * Z * Channel.Channel, idle e.2) entries →
  ∃ m, (∀ none w rest, foldl_m update_channel (t, none, w) (entries ++ rest) =
      foldl_m update_channel (t <| channels := m |>, none, w) rest) ∧
    (∀ k, k ∉ entries.*1 → m !! k = channels t !! k) ∧
    (∀ k c, m !! k = Some c → channels t !! k = Some c ∨ idle c).
Proof.
  induction entries as [|[key c] entries IH]; intros t Hidle.
  { exists (channels t). split_and!; [intros none w rest; by destruct t|done|by left]. }
  apply Forall_cons in Hidle as [[Hrest Hmap] Hidle].
  destruct (update_at_rest c Hrest Hmap) as (c' & Hrest' & Hmap' & Hup).
  set (t1 := t <| channels := <[key := c']> (channels t) |>).
  destruct (IH t1 Hidle) as (m & Hrun & Hkeep & Hm). exists m. split_and!.
  - intros none w rest. cbn [app foldl_m].
    rewrite (update_channel_spec t key c c' none w w (Hup none _ w)), bind_ret_l. exact (Hrun none w rest).
  - cbn [fmap list_fmap fst]. intros k [Hk Hks]%not_elem_of_cons. rewrite Hkeep by done.
    unfold t1. cbn [channels set]. by rewrite lookup_insert_ne.
  - intros k c1 [E|?]%Hm; [|by right]. unfold t1 in E. cbn [channels set] in E.
    apply lookup_insert_Some in E as [[_ <-]|[_ E]]; [by right|by left].
Qed.

(** When the clock does not make the client ask for its link. *)
Definition settled t : Prop := ∀ now w, client_identity_update t now w = Ret (t, w).

Lemma settled_server t : TachyonSocket.is_server (socket t) = true → settled t.
Proof. intros Hs now w. unfold client_identity_update. rewrite Hs. by repeat case_match. Qed.

Lemma settled_client t :
  TachyonConfig.use_identity (config t) = 0 ∨ Identity.is_linked (identity t) = true → settled t.
Proof.
  intros Hid now w. unfold client_identity_update.
  destruct Hid as [-> | ->]; [done|]. by repeat case_match.
Qed.

(** All channels but one are idle: the update is that of this one. *)
Lemma update_one t key c c' f :
  settled t → channels t !! key = Some c → others_idle t key →
  (∀ none w, Channel.update c none (socket t) w = Ret (c', none, f w)) →
  ∃ t', (∀ none now w, update t none now w = Ret (t', none, f w)) ∧
    t' = t <| channels := channels t' |> ∧ channels t' !! key = Some c' ∧ others_idle t' key.
Proof.
  intros Hset Hc Hothers Hup. destruct (hash_iter_around _ _ _ Hc) as (l1 & l2 & El & Hall & Hkey).
  rewrite fmap_app in Hkey. apply not_elem_of_app in Hkey as [Hk1 Hk2].
  assert (Forall (λ e : NetworkAddress * Z * Channel.Channel, idle e.2) (l1 ++ l2)) as [Hl1 Hl2]%Forall_app.
  { apply Forall_forall. intros e He. eapply Hothers; [by apply Hall|]. intros E.
    apply elem_of_app in He as [He|He]; [apply Hk1|apply Hk2]; rewrite <-E; by apply list_elem_of_fmap_2. }
  destruct (update_passes l1 t Hl1) as (m1 & Hrun1 & Hkeep1 & Hm1).
  set (t0 := t <| channels := m1 |>) in Hrun1. set (t1 := t <| channels := <[key := c']> m1 |>).
  destruct (update_passes l2 t1 Hl2) as (m2 & Hrun2 & Hkeep2 & Hm2).
  exists (t <| channels := m2 |>). split; [|split; [done|split]].
  - intros none now w. unfold update. rewrite Hset, bind_ret_l. cbv beta iota. rewrite El, Hrun1.
    cbn [foldl_m]. rewrite (update_channel_spec t0 key c c' none w (f w) (Hup none w)), bind_ret_l.
    specialize (Hrun2 none (f w) []). rewrite app_nil_r in Hrun2. exact Hrun2.
  - cbn [channels set]. rewrite Hkeep2 by done. apply lookup_insert_eq.
  - intros k c1 Hk Hne. cbn [channels set] in Hk. destruct (Hm2 _ _ Hk) as [E|?]; [|done].
    unfold t1 in E. cbn [channels set] in E. rewrite lookup_insert_ne in E by done.
    destruct (Hm1 _ _ E) as [E'|?]; [by eapply Hothers|done].
Qed.
End updates.

(** ** The client *)

(** The datagrams [ds] wait at a connected socket: then nothing comes. *)
Inductive heard `{Os} (sock : UdpSocket) : list bytes → World → World → Prop :=
| heard_nil w : os_recv sock SOCKET_RECEIVE_BUFFER_LEN w = (w, None) → heard sock [] w w
| heard_cons d ds w w1 w' :
    os_recv sock SOCKET_RECEIVE_BUFFER_LEN w = (w1, Some d) → len d ≤ SOCKET_RECEIVE_BUFFER_LEN →
    heard sock ds w1 w' → heard sock (d :: ds) w w'.

Section client.
Context `{Callbacks} `{VarintOps} `{!Varint _} `{HashIter} `{!HashIterLaws _}.
Context (ch : Z) (sock : UdpSocket).
Hypothesis Hch : is_u8 ch ∧ ch ≠ 0.
Implicit Types (t : Tachyon) (w : World) (none rb : bytes).

Notation here := NetworkAddress.default.

(** A client that listens, linked if it has an identity, on whose channels
    nothing happens but what it sends. *)
Record hearing t : Prop := {
  he_socket : TachyonSocket.socket (socket t) = Some sock ∧ TachyonSocket.is_server (socket t) = false;
  he_drop : TachyonConfig.drop_packet_chance (config t) = 0;
  he_buffer : len (socket_receive_buffer t) = SOCKET_RECEIVE_BUFFER_LEN;
  he_identity : TachyonConfig.use_identity (config t) = 0 ∨ Identity.is_linked (identity t) = true;
  he_idle k c : channels t !! k = Some c → idle c
}.

Lemma only_sent_hearing t t' : only_sent here ch t t' → hearing t → is_Some (channels t !! (here, ch)) → hearing t'.
Proof.
  intros [Ht Hc Ho] [Hs Hd Hb Hi Hidle] [c E]. rewrite Ht. split; try done. cbn [channels set]. intros k c1 Hk.
  destruct (decide (k = (here, ch))) as [->|Hne]; [|eapply Hidle; by rewrite <-Ho].
  destruct (Hc c E) as (c' & E' & Er & Em & _). rewrite Hk in E'. injection E' as <-.
  unfold idle, at_rest. rewrite Er, Em. by apply (Hidle _ _ E).
Qed.

Lemma hear_datagram t d w w' :
  hearing t → os_recv sock SOCKET_RECEIVE_BUFFER_LEN w = (w', Some d) →
  TachyonSocket.receive (socket t) (socket_receive_buffer t)
    (TachyonConfig.drop_packet_chance (config t)) (TachyonConfig.drop_reliable_only (config t) =? 1) w =
  Ret (socket t, splice 0 d (socket_receive_buffer t), w', TachyonSocket.RSuccess (len d) here).
Proof.
  intros [[Hsock Hserver] Hdrop Hbuf _ _] Hrecv. unfold TachyonSocket.receive.
  by rewrite Hsock, Hserver, Hbuf, Hrecv, Hdrop.
Qed.

(** What is for a channel passes. *)
Lemma hearing_admits t header now w :
  hearing t → Header.message_type header ≠ MESSAGE_TYPE_IDENTITY_LINKED →
  Header.message_type header ≠ MESSAGE_TYPE_IDENTITY_UNLINKED →
  admit_datagram t header here now w = Ret (t, w, None).
Proof.
  intros [[_ Hserver] _ _ Hid _] Hl Hu. unfold admit_datagram. rewrite Hserver. cbv zeta.
  destruct (Z.eqb_spec (Header.message_type header) MESSAGE_TYPE_IDENTITY_LINKED); [done|].
  destruct (Z.eqb_spec (Header.message_type header) MESSAGE_TYPE_IDENTITY_UNLINKED); [done|].
  destruct Hid as [-> | ->]; [done|]. by destruct (_ =? 1).
Qed.

Lemma nothing_to_read t rb :
  (∀ k c, channels t !! k = Some c → at_rest c) →
  receive_published_all_channels t rb = Ret (t, rb, TachyonReceiveResult.default).
Proof.
  intros Hrest. unfold receive_published_all_channels. rewrite <-(app_nil_r (hash_iter _)), read_all_passes; [done|].
  apply Forall_forall. intros [k c] Hin. rewrite hash_iter_perm, elem_of_map_to_list in Hin.
  split; [done|]. eapply at_rest_published, Hrest, Hin.
Qed.

(** The channel takes a nack datagram. *)
Lemma nack_on_channel c nks :
  Forall nack_wf nks → len nks ≤ 62 → NoDup (all_nacked nks []) → Channel.nacked_sequence_map c = ∅ →
  let d := nack_datagram ch nks in
  ∃ c', (∀ junk now, receive_on_channel c (plain_header MESSAGE_TYPE_NACK ch 0) here (d ++ junk) (len d) now =
      Ret (c', Retry)) ∧
    Channel.receiver c' = Channel.receiver c ∧ Channel.send_buffers c' = Channel.send_buffers c ∧
    map_to_list (Channel.nacked_sequence_map c') ≡ₚ (., here) <$> all_nacked nks [].
Proof.
  intros Hwf Hn Hnd Hmap d. set (c1 := Channel.count ChannelStats.bytes_received (len d) c).
  destruct (process_nack_spec c1 here ch nks Hwf ltac:(lia) Hmap Hnd) as (c' & Hproc & Hmap' & Hsb & Hr & _).
  exists c'. split; [|done]. intros junk now. unfold receive_on_channel. fold c1.
  change (Header.message_type (plain_header MESSAGE_TYPE_NACK ch 0)) with MESSAGE_TYPE_NACK.
  change (MESSAGE_TYPE_NACK =? MESSAGE_TYPE_NONE) with false.
  change (MESSAGE_TYPE_NACK =? MESSAGE_TYPE_NACK) with true. cbv beta iota zeta.
  unfold d. by rewrite Hproc.
Qed.

Lemma length_nack_datagram nks :
  Forall nack_wf nks → len nks ≤ 62 → len (nack_datagram ch nks) ≤ 512.
Proof.
  intros Hwf Hn. unfold nack_datagram. rewrite length_app, length_plain_bytes.
  pose proof (length_enc_nack_message nks Hwf ltac:(lia)). lia.
Qed.

(** One call of [receive_loop] takes the nacks from the socket. *)
Lemma hear_nacks t n log nks :
  hearing t → sending here ch t n log →
  Forall nack_wf nks → len nks ≤ 62 → NoDup (all_nacked nks []) →
  ∃ t' c', (∀ rb now w w', heard sock [nack_datagram ch nks] w w' →
      receive_loop t rb now w = Ret (t', rb, w', TachyonReceiveResult.default)) ∧
    socket t' = socket t ∧ settled t' ∧ others_idle t' (here, ch) ∧ channels t' !! (here, ch) = Some c' ∧
    at_rest c' ∧ sends (Channel.send_buffers c') n log ∧
    map_to_list (Channel.nacked_sequence_map c') ≡ₚ (., here) <$> all_nacked nks [].
Proof.
  intros Ht [_ _ (c & Hc & _ & _ & Hm)] Hwf Hn Hnd. set (d := nack_datagram ch nks).
  destruct (he_idle _ Ht _ _ Hc) as [Hrest Hmap].
  destruct (nack_on_channel c nks Hwf Hn Hnd Hmap) as (c' & Hon & Hr' & Hsb & Hmap'). fold d in Hon.
  pose proof (he_buffer _ Ht) as Hbuf. pose proof (length_nack_datagram nks Hwf Hn) as Hd. fold d in Hd.
  set (buffer := splice 0 d (socket_receive_buffer t)).
  assert (len buffer = SOCKET_RECEIVE_BUFFER_LEN) as Hlen by (unfold buffer; rewrite length_splice; unfold SOCKET_RECEIVE_BUFFER_LEN in *; lia).
  assert (buffer = d ++ drop (length d) (socket_receive_buffer t)) as Eb by apply splice_0.
  assert (Header.read buffer = Ret (plain_header MESSAGE_TYPE_NACK ch 0)) as Hread.
  { rewrite Eb. unfold d, nack_datagram. rewrite <-app_assoc. by apply read_plain; [|apply Hch]. }
  specialize (Hon (drop (length d) (socket_receive_buffer t))). rewrite <-Eb in Hon. clear Eb.
  set (t1 := t <| socket_receive_buffer := buffer |>).
  assert (hearing t1) as Ht1 by (destruct Ht; by split).
  set (t' := t1 <| channels := <[(here, ch) := c']> (channels t1) |>).
  assert (∀ k c1, channels t' !! k = Some c1 → k ≠ (here, ch) → idle c1) as Hothers.
  { intros k c1 Hk Hne. unfold t' in Hk. cbn [channels set] in Hk. rewrite lookup_insert_ne in Hk by done.
    by apply (he_idle _ Ht k). }
  assert (channels t' !! (here, ch) = Some c') as Hc' by apply lookup_insert_eq.
  assert (at_rest c') as Hrest' by (unfold at_rest; by rewrite Hr').
  exists t', c'. split_and!; try done; [|apply settled_client, (he_identity _ Ht)|by rewrite Hsb].
  assert (∀ w now, os_recv sock SOCKET_RECEIVE_BUFFER_LEN w = (w, None) → receive_from_socket t' now w = Ret (t', w, Empty))
    as Hnothing.
  { intros w now Hrecv. unfold receive_from_socket, TachyonSocket.receive.
    change (socket t') with (socket t). change (len (socket_receive_buffer t')) with (len buffer).
    destruct (he_socket _ Ht) as [-> ->]. rewrite Hlen, Hrecv, bind_ret_l. cbv beta iota zeta. by destruct t. }
  assert (∀ n rb now w w', heard sock [d] w w' →
    receive_loop_n (S (S n)) t rb now w = Ret (t', rb, w', TachyonReceiveResult.default)) as Hloop;
    [|intros rb now w w' Hw; exact (Hloop 98%nat rb now w w' Hw)].
  intros n' rb now w w' Hw. inversion Hw as [|? ? ? w1 ? Hrecv _ Hrest1]; subst.
  inversion Hrest1 as [? Hrecv1|]; subst. cbn [receive_loop_n].
  assert (receive_from_socket t now w = Ret (t', w', Retry)) as ->.
  { unfold receive_from_socket. rewrite (hear_datagram t d w w' Ht Hrecv), bind_ret_l. cbv beta iota zeta. fold buffer.
    change (t <| socket := socket t |> <| socket_receive_buffer := buffer |>) with t1.
    change (socket_receive_buffer t1) with buffer. rewrite Hread, bind_ret_l.
    rewrite (hearing_admits t1 _ now w' Ht1) by done. rewrite bind_ret_l. cbv beta iota.
    change (Header.message_type _ =? MESSAGE_TYPE_UNRELIABLE) with false. cbv iota.
    change (Header.channel (plain_header MESSAGE_TYPE_NACK ch 0)) with ch.
    change (channels t1) with (channels t). rewrite Hc. change (socket_receive_buffer t1) with buffer.
    by rewrite Hon. }
  rewrite bind_ret_l. cbv beta iota. rewrite Hnothing, bind_ret_l by done. cbv beta iota.
  rewrite nothing_to_read; [done|]. intros k c1 Hk. destruct (decide (k = (here, ch))) as [->|Hne].
  - rewrite Hc' in Hk. by injection Hk as <-.
  - by apply (Hothers k).
Qed.
(** The update of the client resends what was named. *)
Lemma client_resends t c n (log : Z → bytes) ks :
  settled t → others_idle t (here, ch) → channels t !! (here, ch) = Some c → at_rest c →
  sends (Channel.send_buffers c) n log →
  map_to_list (Channel.nacked_sequence_map c) ≡ₚ (., here) <$> (seq_of <$> ks) →
  Forall (λ k, 1 ≤ k ∧ n - 1022 ≤ k ≤ n ∧ ∃ body, log k = reliable_datagram ch k body) ks →
  ∃ t' lost, lost ≡ₚ ks ∧
    ∀ none now w, update t none now w =
      Ret (t', none, transmit_all (socket t) ((λ k, (here, log k)) <$> lost) w).
Proof.
  intros Hset Hothers Hc Hrest Hm Hmap Hks.
  destruct (update_resends c n log (socket t) Hrest Hm) as (c' & _ & _ & _ & _ & Hup).
  { intros s a Hsa. apply elem_of_map_to_list in Hsa. rewrite Hmap in Hsa.
    apply list_elem_of_fmap in Hsa as (s' & [= -> ->] & Hs'). apply list_elem_of_fmap in Hs' as (k & -> & Hk).
    rewrite Forall_forall in Hks. destruct (Hks k Hk) as (Hk1 & Hkn & body & E).
    exists k, MESSAGE_TYPE_RELIABLE. eexists. split_and!; [done|lia|lia|lia|exact E|done]. }
  destruct (resends_named n log here (hash_iter (Channel.nacked_sequence_map c)) ks) as (lost & Hlost & Eresends).
  { by rewrite hash_iter_perm. }
  { eapply Forall_impl; [exact Hks|]. cbv beta. intros k Hk. lia. }
  rewrite Eresends in Hup. destruct (update_one t (here, ch) c c' _ Hset Hc Hothers Hup) as (t' & Hupdate & _).
  by exists t', lost.
Qed.
End client.

(** ** The server *)

Section server.
Context `{Callbacks} `{VarintOps} `{!Varint _} `{HashIter} `{!HashIterLaws _}.
Context (peer : NetworkAddress) (ch : Z) (sock : UdpSocket).
Hypothesis Hch : is_u8 ch.
Implicit Types (t : Tachyon) (s : Spec.Spec).

(** A server that asks for nothing but what is missing on this channel, where
    it sends nothing. *)
Record asking t : Prop := {
  as_channel c : channels t !! (peer, ch) = Some c →
    Channel.nacked_sequence_map c = ∅ ∧ length (Channel.nack_send_data c) = 512%nat;
  as_others : others_idle t (peer, ch)
}.

Lemma undisturbed_asking t t' : undisturbed peer ch t t' → is_Some (channels t !! (peer, ch)) → asking t → asking t'.
Proof.
  intros [_ _ Hc Ho] [c Ec] [Has Hidle]. split.
  - intros c1 E. destruct (Hc c Ec) as (c' & E' & _ & _ & Em & En). rewrite E in E'. injection E' as <-.
    rewrite Em, En. by apply Has.
  - intros k c1 E Hne. rewrite Ho in E by done. by apply (Hidle k).
Qed.

(** The update of the server asks for what is missing. *)
Lemma server_asks t s :
  ready peer ch sock t s → asking t → Spec.publish s = s → Spec.window s ≤ 1984 →
  Spec.last s - 1 - Spec.cur s ≤ Spec.window s / 32 → (∃ i, Spec.missing s i) →
  ∃ t' nks, Forall nack_wf nks ∧ len nks ≤ 62 ∧ NoDup (all_nacked nks []) ∧
    all_nacked nks [] = seq_of <$> missing_down s (Spec.last s - 1) (Spec.last s - 1 - Spec.cur s) ∧
    ready peer ch sock t' s ∧
    ∀ none now w, update t none now w = Ret (t', none, transmit (socket t) (peer, nack_datagram ch nks) w).
Proof.
  intros [Hsock Hdrop Hbuf Hconn (c & Hc & Hid & Ha & Hr) _] [Has Hidle] Hs Hw Hnear Hmiss.
  destruct (Has c Hc) as [Hmap Hlen].
  destruct (update_asks c s Hr Hs Hmap ltac:(by rewrite Hid) Hlen Hw Hnear Hmiss)
    as (c' & nks & Hwf & Hn & Hnd & Hall & Hr' & Hid' & Ha' & Hup).
  rewrite Ha, Hid in Hup.
  destruct (update_one t (peer, ch) c c' _ (settled_server t (proj2 Hsock)) Hc Hidle (λ none w, Hup none (socket t) w))
    as (t' & Hupdate & Et & Hc' & Hidle').
  exists t', nks. split_and!; try done. rewrite Et. split; try done; cbn [channels set].
  - exists c'. split_and!; [done|congruence|congruence|done].
  - intros k c1 Hk Hne. by apply at_rest_published, (Hidle' k).
Qed.
(** After it has received [ks] and its application has read up to [f]. *)
Lemma server_asks_for_gaps o body t s W ks f m :
  ready peer ch sock t s → asking t → reading ch body W o (list_to_set ks) s f → W ≤ 1022 →
  is_frontier (list_to_set ks) f → is_newest (list_to_set ks) m → f + 1 < m → m - 1 - f ≤ W / 32 →
  ∃ t' nks gaps, Forall nack_wf nks ∧ len nks ≤ 62 ∧ NoDup (all_nacked nks []) ∧ all_nacked nks [] = seq_of <$> gaps ∧
    NoDup gaps ∧ (∀ k, k ∈ gaps ↔ f < k < m ∧ k ∉ ks) ∧ ready peer ch sock t' s ∧
    ∀ none now w, update t none now w = Ret (t', none, transmit (socket t) (peer, nack_datagram ch nks) w).
Proof.
  intros Hready Hask Hs HW Hf Hm Hgap Hnear. destruct (reading_timely ch body W o _ _ _ Hs) as (Htime & Ew & Hnew).
  assert (Spec.cur s = f) as Ecur by (eapply is_frontier_unique; [apply (tm_frontier _ _ _ Htime)|exact Hf]).
  assert (Spec.last s = m) as Elast by (by eapply is_newest_unique).
  assert (∀ k, k ∈ Spec.got s ↔ k ∈ ks ∧ f < k) as Hgot.
  { intros k. by rewrite (tm_got _ _ _ Htime), Ecur, elem_of_list_to_set. }
  assert (f + 1 ∉ ks) as Hfk by (rewrite <-(elem_of_list_to_set (C:=gset Z)); apply Hf).
  destruct (server_asks t s Hready Hask (publish_timely _ _ _ Htime)) as (t' & nks & Hwf & Hn & Hnd & Hall & Hready' & Hupdate).
  { lia. }
  { rewrite Ew. lia. }
  { exists (f + 1). split; [lia|]. rewrite Hgot. naive_solver. }
  rewrite Elast, Ecur in Hall. exists t', nks, (missing_down s (m - 1) (m - 1 - f)). split_and!; try done.
  - apply NoDup_filter, down_NoDup.
  - intros k. rewrite elem_of_missing_down, Hgot. destruct (decide (k ∈ ks)); naive_solver lia.
Qed.

(** When the resends have arrived the application reads the rest. *)
Lemma server_reads_the_rest o ms t s rb w W ks back (f m : nat) nows :
  Forall small ms → 1 ≤ W ≤ 1022 → len ms ≤ lookahead o W → Z.of_nat m ≤ len ms → (f ≤ m)%nat →
  ready peer ch sock t s → reading ch (nth_body ms) W o (list_to_set ks) s (Z.of_nat f) →
  buffer_fits (nth_body ms) rb → Forall (λ k, 1 ≤ k ≤ len ms) ks →
  is_frontier (list_to_set ks) (Z.of_nat f) → is_newest (list_to_set ks) (Z.of_nat m) →
  (∀ k, Z.of_nat f < k < Z.of_nat m → k ∉ ks → k ∈ back) → Forall (λ k, 1 ≤ k ≤ Z.of_nat m) back →
  inbox peer ch sock (nth_body ms) back w → len back + Z.of_nat (m - f) ≤ len nows →
  ∃ t' rb' w', receive_calls nows t rb w =
    Ret (t', rb', w', if o then (λ x, (ch, peer, x.2)) <$> take (m - f) (drop f ms)
                      else (λ k, (ch, peer, nth_body ms k)) <$> firsts (list_to_set ks) back).
Proof.
  intros Hms HW Hlen Hm Hfm Hready Hs Hfit Hks Hf (Hm0 & Hle & Hmin) Hback Hbk Hin Hnows.
  destruct (channel_calls_spec peer ch sock (nth_body ms) Hch (nth_body_fits ms Hms) W HW o (Z.of_nat f) (Z.of_nat m) nows
    (list_to_set ks) t s rb w back Hready Hs Hfit Hin) as (t' & rb' & w' & Hrun & _).
  - apply (few_on_time _ _ (len ms)); [destruct o; simpl in *; lia|intros k; by apply small_datagram| |].
    + intros i Hi%elem_of_list_to_set. rewrite Forall_forall in Hks. by apply Hks.
    + eapply Forall_impl; [exact Hbk|]. cbv beta. lia.
  - apply (filled_frontier _ _ _ _ Hf); [done|done|done| |].
    + intros i Hi%elem_of_list_to_set. rewrite Forall_forall in Hbk. by apply Hbk.
    + intros i Hi Hni. apply elem_of_list_to_set, Hback; [done|]. by rewrite <-(elem_of_list_to_set (C:=gset Z)).
  - lia.
  - lia.
  - exists t', rb', w'. rewrite Hrun. do 2 f_equal. destruct o; [|done]. apply read_messages. lia.
Qed.
End server.

(** ** Property *)

Section property.
Context `{Callbacks} `{VarintOps} `{!Varint _} `{HashIter} `{!HashIterLaws _}.
Context (ch : Z).
Hypothesis Hch : is_u8 ch ∧ ch ≠ 0.

Notation here := NetworkAddress.default.

(** What the client has sent, by its index. *)
Lemma sent_log ms (log : Z → bytes) k :
  (∀ i m, ms !! i = Some m → log (0 + 1 + Z.of_nat i) = reliable_datagram ch (0 + 1 + Z.of_nat i) m.2) →
  1 ≤ k ≤ len ms → log k = datagram ch (nth_body ms) k.
Proof.
  clear Hch. intros Hlog Hk. destruct (lookup_lt_is_Some_2 ms (Z.to_nat (k - 1))) as [m Em]; [lia|].
  specialize (Hlog _ _ Em). unfold datagram, nth_body. rewrite Em.
  by replace (0 + 1 + Z.of_nat (Z.to_nat (k - 1))) with k in Hlog by lia.
Qed.

(** C3: what the network loses is read in the end.  A client sends up to a
    window of messages of 1 to 1199 bytes on an ordered channel, or up to a window
    minus one on an unordered one; the server reads
    those up to the first that the network lost, or on an unordered channel those
    that arrive.  If messages are missing within window/32 of the newest one, the
    server's [update] transmits one datagram of nacks; the client's [receive_loop]
    takes it and gives its application nothing; the client's [update] transmits
    each of the missing messages, and only these, once and as it was sent; and when
    the resends reach the server, in any order and repeated, its application reads
    on an ordered channel every message up to the newest one, in order and each
    once, and on an unordered channel the missing ones as they come, each once. *)
Theorem lost_messages_are_read (o : bool) t log ms w W csock :
  sending here ch t 0 log → hearing csock t → Forall small ms → 1 ≤ W ≤ 1022 → len ms ≤ lookahead o W →
  let body := nth_body ms in
  ∃ t1, foldl_m (send_message here ch) (t, w) ms =
      Ret (t1, transmit_all (socket t) ((here,.) <$> (datagram ch body <$> seqZ 1 (len ms))) w) ∧
    ∀ peer sock server rb w1 ks (f m : nat) nows,
      ready peer ch sock server (Spec.init o W) → asking peer ch server → 1200 ≤ len rb ≤ isize_max →
      Forall (λ k, 1 ≤ k ≤ len ms) ks → inbox peer ch sock body ks w1 →
      is_frontier (list_to_set ks) (Z.of_nat f) → is_newest (list_to_set ks) (Z.of_nat m) →
      (f + 1 < m)%nat → Z.of_nat m - 1 - Z.of_nat f ≤ W / 32 → len ks + Z.of_nat f ≤ len nows →
      ∃ server1 rb1 w2 server2 nack t2 t3 lost,
        receive_calls nows server rb w1 = Ret (server1, rb1, w2,
          if o then (λ x, (ch, peer, x.2)) <$> take f ms else (λ k, (ch, peer, body k)) <$> firsts ∅ ks) ∧
        (∀ none now w', update server1 none now w' = Ret (server2, none, transmit (socket server) (peer, nack) w')) ∧
        len nack ≤ 512 ∧
        (∀ rb' now w' w'', heard csock [nack] w' w'' →
          receive_loop t1 rb' now w' = Ret (t2, rb', w'', TachyonReceiveResult.default)) ∧
        NoDup lost ∧ (∀ k, k ∈ lost ↔ Z.of_nat f < k < Z.of_nat m ∧ k ∉ ks) ∧
        (∀ none now w', update t2 none now w' =
          Ret (t3, none, transmit_all (socket t) ((λ k, (here, datagram ch body k)) <$> lost) w')) ∧
        ∀ back w3 nows', (∀ k, k ∈ lost → k ∈ back) → Forall (λ k, 1 ≤ k ≤ Z.of_nat m) back →
          inbox peer ch sock body back w3 → len back + Z.of_nat (m - f) ≤ len nows' →
          ∃ server3 rb3 w4, receive_calls nows' server2 rb1 w3 = Ret (server3, rb3, w4,
            if o then (λ x, (ch, peer, x.2)) <$> take (m - f) (drop f ms)
            else (λ k, (ch, peer, body k)) <$> firsts (list_to_set ks) back).
Proof.
  intros Ht Hear Hms HW Hlen body. pose proof Ht as [_ _ (c & Hc & _)].
  destruct (send_messages_spec here ch Hch ms t 0 log w Ht ltac:(lia) Hms) as (t1 & log1 & Hsend & Ht1 & Honly & _ & Hlog).
  pose proof (only_sent_hearing ch csock t t1 Honly Hear ltac:(by exists c)) as Hear1.
  pose proof (λ k, sent_log ms log1 k Hlog) as Hlog1. fold body in Hlog1.
  assert (socket t1 = socket t) as Esock by (by rewrite (sn_rest _ _ _ _ Honly)).
  assert (imap (λ i m, reliable_datagram ch (0 + 1 + Z.of_nat i) m.2) ms = datagram ch body <$> seqZ 1 (len ms)) as Ewire
    by exact (eq_sym (bodies_from ch Hch [] ms)).
  rewrite Ewire in Hsend. exists t1. split; [exact Hsend|].
  intros peer sock server rb w1 ks f m nows Hready Hask Hrb Hks Hin Hf Hm Hgap Hnear Hnows.
  pose proof (frontier_bound _ _ _ Hf Hks ltac:(lia)) as Hfm.
  assert (Z.of_nat m ≤ len ms) as Hmm.
  { destruct Hm as (_ & _ & Hmin). specialize (Hmin ltac:(lia)). apply elem_of_list_to_set in Hmin.
    rewrite Forall_forall in Hks. by apply Hks. }
  destruct (channel_calls_spec peer ch sock body (proj1 Hch) (nth_body_fits ms Hms) W HW o 0 (Z.of_nat f) nows ∅ server
    (Spec.init o W) rb w1 ks Hready) as (server1 & rb1 & w2 & Hrun & [(s & Hready1 & Hs) Hfit1 Hun]);
    [by apply reading_init|by apply small_buffer|done| |by rewrite (right_id_L ∅ (∪))|lia|lia|].
  { apply (few_on_time _ _ (len ms)); [destruct o; simpl in *; lia|intros k; by apply small_datagram|set_solver|done]. }
  rewrite (right_id_L ∅ (∪)) in Hs. destruct (rd_channel _ _ _ _ _ Hready) as (c0 & Hc0 & _).
  pose proof (undisturbed_asking peer ch server server1 Hun ltac:(by exists c0) Hask) as Hask1.
  destruct (server_asks_for_gaps peer ch sock (proj1 Hch) o body server1 s W ks (Z.of_nat f) (Z.of_nat m) Hready1 Hask1 Hs)
    as (server2 & nks & gaps & Hwf & Hn & Hnd & Hall & Hgnd & Hgaps & Hready2 & Hupdate); [lia|done|done|lia|done|].
  destruct (hear_nacks ch csock Hch t1 _ log1 nks Hear1 Ht1 Hwf Hn Hnd)
    as (t2 & c2 & Hloop & Esock2 & Hset & Hothers & Hc2 & Hrest & Hsends & Hmap).
  rewrite Hall in Hmap.
  destruct (client_resends ch Hch t2 c2 _ log1 gaps Hset Hothers Hc2 Hrest Hsends Hmap) as (t3 & lost & Hlost & Hresend).
  { assert (len ms ≤ W) by (destruct o; simpl in *; lia).
    apply Forall_forall. intros k [Hk _]%Hgaps. split_and!; [lia|lia|lia|]. exists (body k). apply Hlog1. lia. }
  exists server1, rb1, w2, server2, (nack_datagram ch nks), t2, t3, lost.
  split; [|split; [|split; [by apply length_nack_datagram|split; [exact Hloop|split; [by rewrite Hlost|split; [|split]]]]]].
  - rewrite Hrun. do 2 f_equal. destruct o; [|done]. pose proof (read_messages ch peer ms 0 f ltac:(lia)) as Hread. by rewrite Nat.sub_0_r in Hread.
  - intros none now w'. by rewrite Hupdate, (ud_socket _ _ _ _ Hun).
  - intros k. by rewrite Hlost.
  - intros none now w'. rewrite Hresend, Esock2, Esock. do 3 f_equal. apply list_fmap_ext. intros i k Hk.
    f_equal. apply Hlog1. apply list_elem_of_lookup_2 in Hk. rewrite Hlost in Hk. apply Hgaps in Hk as [Hk _]. lia.
  - intros back w3 nows' Hback Hbk Hin3 Hnows'.
    apply (server_reads_the_rest peer ch sock (proj1 Hch) o ms server2 s rb1 w3 W ks back f m nows'); try done; [lia|].
    intros k Hk Hni. apply Hback. rewrite Hlost. by apply Hgaps.
Qed.
End property.
