(* ===== verification/channel_examples.v ===== *)
(** The theorems on channels at concrete inputs, over the operating system of
    [trace_os.v]. *)

From S2P Require Import prelude sequence sequence_buffer network_address int_buffer header nack byte_buffer_pool.
From S2P Require Import send_buffer_manager receiver fragmentation send_result tachyon_socket unreliable_sender trace_os.
From S2P Require Import leb128 receiver_spec receiver_delivery receiver_histories channel channel_sending channel_recovery.
From S2P Require Import channel_fragments.

Import Channel.

Definition peer : NetworkAddress.NetworkAddress := NetworkAddress.localhost 8001.

Definition example_channel : Channel := Channel.create 1 peer ChannelConfig.default_ordered.

Lemma example_sends log : sends (send_buffers example_channel) 0 log.
Proof. apply manages_default. Qed.

Lemma reliable_message_is_sent_and_kept_witness :
  ∃ c' result,
    send_reliable example_channel peer [7; 8; 9; 0] 3 example_socket 0 example_world =
      Ret (c', transmit example_socket (peer, [1; 1; 1; 0; 7; 8; 9]) example_world, result) ∧
    TachyonSendResult.sent_len result =
      as_u32 (transmitted example_socket (peer, [1; 1; 1; 0; 7; 8; 9]) example_world) ∧
    TachyonSendResult.error result = 0 ∧
    sends (send_buffers c') 1 (λ k, if decide (k = 1) then [1; 1; 1; 0; 7; 8; 9] else []).
Proof.
  apply (reliable_message_is_sent_and_kept example_channel 0 (λ _, []) peer [7; 8; 9; 0] 3
           example_socket 0 example_world); [done|apply example_sends|lia|simpl; lia|simpl; lia|].
  unfold isize_max. lia.
Defined.

Lemma carried_nack_is_not_written_witness :
  ∃ gap, length gap = 6%nat ∧
    ∀ nack rest, Nack.sent_count nack < 1 →
      ∃ c' result,
        send_reliable (example_channel <| receiver := (receiver example_channel)
            <| Receiver.nack_queue := nack :: rest |> |>) peer [7; 8; 9; 0] 3 example_socket 0 example_world =
          Ret (c', transmit example_socket (peer, [5; 1; 1; 0] ++ gap ++ [7; 8; 9]) example_world, result) ∧
        Receiver.nack_queue (receiver c') =
          rest ++ [nack <| Nack.sent_count := as_u32 (Nack.sent_count nack + 1) |>] ∧
        sends (send_buffers c') 1 (λ k, if decide (k = 1) then [5; 1; 1; 0] ++ gap ++ [7; 8; 9] else []).
Proof.
  apply (carried_nack_is_not_written example_channel 0 (λ _, []) peer [7; 8; 9; 0] 3
           example_socket 0 example_world);
    [apply example_sends|lia|done|done|simpl; lia|unfold isize_max; lia].
Defined.

(** A channel that has sent one message that was to carry a nack. *)
Lemma example_nacked_message :
  ∃ c gap, length gap = 6%nat ∧ id c = 1 ∧ length (resend_rewrite_buffer c) = 2048%nat ∧
    sends (send_buffers c) 1 (λ k, plain_bytes MESSAGE_TYPE_RELIABLE_WITH_NACK 1 k ++ gap ++ [7]).
Proof.
  destruct (send_spec SendBufferManager.default 0 (λ _, []) 11 0) as (m1 & sb & _ & _ & Hlen & Hdata & Hfill);
    [apply manages_default|lia|unfold isize_max; lia|].
  set (p := plain_bytes MESSAGE_TYPE_RELIABLE_WITH_NACK 1 1 ++ replicate 6 0 ++ [7]).
  set (data := ByteBuffer.data (SendBufferManager.byte_buffer sb)) in *.
  assert (11 ≤ length data)%nat as Hl by lia.
  destruct (Hfill (splice 0 p data)) as (m2 & _ & Hm2);
    [apply length_splice; exact Hl|].
  exists (example_channel <| send_buffers := m2 |>), (replicate 6 0).
  split; [done|]. split; [done|]. split; [apply length_replicate|].
  eapply sends_ext, Hm2. intros k Hk. assert (k = 1) as -> by lia. done.
Qed.

Lemma resent_message_is_padded_witness :
  ∃ (c : Channel) (gap : bytes), length gap = 6%nat ∧ ∃ c' padding, len [7] + len padding = 1230 ∧
    resend_one example_socket (c, [], example_world) (seq_of 1, peer) =
      Ret (c', [], transmit example_socket (peer, reliable_datagram 1 1 ([7] ++ padding)) example_world).
Proof.
  destruct example_nacked_message as (c & gap & Hgap & Hid & Hrb & Hsends).
  exists c, gap. split; [done|].
  pose proof (resent_message_is_padded c 1 _ [] peer example_world example_socket 1 gap [7] Hsends) as H.
  rewrite Hid in H. apply H; [lia|lia|lia|done|done|simpl; lia|done].
Defined.

(** A channel that was asked for the one message it has sent. *)
Definition example_log (k : Z) : bytes := reliable_datagram 1 k [7].

Lemma example_asked :
  ∃ c, sends (send_buffers c) 1 example_log ∧ nacked_sequence_map c = {[ 1 := peer ]} ∧
    length (resend_rewrite_buffer c) = 2048%nat.
Proof.
  destruct (send_spec SendBufferManager.default 0 (λ _, []) 5 0) as (m1 & sb & _ & _ & Hlen & Hdata & Hfill);
    [apply manages_default|lia|unfold isize_max; lia|].
  set (data := ByteBuffer.data (SendBufferManager.byte_buffer sb)) in *.
  assert (5 ≤ length data)%nat as Hl by lia.
  destruct (Hfill (splice 0 (example_log 1) data)) as (m2 & _ & Hm2);
    [apply length_splice; exact Hl|].
  exists (example_channel <| send_buffers := m2 |> <| nacked_sequence_map := {[ 1 := peer ]} |>).
  split; [|by split; [|apply length_replicate]]. eapply sends_ext, Hm2. intros k Hk. assert (k = 1) as -> by lia. done.
Qed.

(** It is resent, whatever the buffer for NONE messages holds. *)
Lemma resends_are_what_was_sent_witness :
  ∃ c c' none' entries ds, nacked_sequence_map c = {[ 1 := peer ]} ∧
    entries ≡ₚ map_to_list (nacked_sequence_map c) ∧
    resend_nacked c [0; 0; 0; 0] example_socket example_world = Ret (c', none', transmit_all example_socket ds example_world) ∧
    Forall2 (λ e d, d.1 = e.2 ∧ (resendable 1 example_log e.1 → d.2 = example_log (behind 1 e.1))) entries ds ∧
    nacked_sequence_map c' = ∅ ∧ send_buffers c' = send_buffers c ∧ receiver c' = receiver c.
Proof.
  destruct example_asked as (c & Hsends & Hmap & Hrb). exists c.
  destruct (resends_are_what_was_sent c 1 example_log [0; 0; 0; 0] example_socket example_world Hsends)
    as (c' & none' & entries & ds & H); [simpl; lia|exact Hrb| |].
  - intros s a. rewrite Hmap. intros [<- <-]%lookup_singleton_Some sb rest Hget Hd.
    destruct (lookup_retained c 1 example_log 1 Hsends ltac:(lia) ltac:(lia)) as (sb' & Hget' & Hh & _).
    change (seq_of 1) with 1 in Hget'. rewrite Hget' in Hget. injection Hget as ->.
    apply holds_data in Hh as [rest' Hd']. rewrite Hd in Hd'. discriminate Hd'.
  - exists c', none', entries, ds. split; [exact Hmap|exact H].
Defined.

(** A log of any messages that were sent. *)
Lemma sendable (log : Z → bytes) (n : nat) :
  (∀ k, len (log k) ≤ isize_max) → ∃ m, sends m (Z.of_nat n) log.
Proof.
  intros Hlog. induction n as [|n [m Hm]]; [exists SendBufferManager.default; apply manages_default|].
  pose proof (Hlog (Z.of_nat n + 1)) as Hp. set (p := log (Z.of_nat n + 1)) in *.
  destruct (send_spec m (Z.of_nat n) log (len p) 0 Hm) as (m1 & sb & _ & _ & _ & Hdata & Hfill);
    [lia|lia|].
  set (data := ByteBuffer.data (SendBufferManager.byte_buffer sb)) in *.
  destruct (Hfill (splice 0 p data)) as (m2 & _ & Hm2); [apply length_splice; lia|].
  exists m2. replace (Z.of_nat (S n)) with (Z.of_nat n + 1) by lia.
  eapply sends_ext, Hm2. intros k Hk. simpl. case_decide as E; [|done].
  rewrite splice_0, take_app_length' by lia. by subst.
Qed.

Definition example_history : list event :=
  [Packet 1 (example_log 1) 5; Packet 3 (example_log 3) 5].

Lemma example_on_time : on_time 64 example_log ∅ example_history.
Proof.
  unfold example_history. cbn [on_time]. unfold isize_max.
  split_and!; try (simpl; lia); try reflexivity; try exact I; intros f Hf.
  - rewrite (is_frontier_unique _ f 0 Hf); [lia|]. split_and!; [lia|lia|set_solver].
  - rewrite (is_frontier_unique _ f 1 Hf); [lia|]. split_and!; [lia| |set_solver].
    intros i Hi. assert (i = 1) as -> by lia. set_solver.
Qed.

Lemma example_frontier : is_frontier (list_to_set (arrivals example_history)) 1.
Proof.
  change (arrivals example_history) with [1; 3]. cbn [list_to_set].
  split_and!; [lia|intros i Hi; assert (i = 1) as -> by lia; set_solver|set_solver].
Qed.

Lemma lost_messages_are_recovered_witness :
  ∃ r (taken : list bytes) m, receive_run (Receiver.create true 64, []) example_history = Ret (r, taken) ∧
    sends m 3 example_log ∧
    let cr := example_channel <| receiver := r |> in
    let cs := example_channel <| send_buffers := m |> in
    ∃ lost d cr' cs1 cs2 r' (taken' : list bytes),
      NoDup lost ∧ (∀ k, k ∈ lost ↔ 1 < k < newest example_history ∧ k ∉ arrivals example_history) ∧
      send_nacks cr example_socket example_world =
        Ret (cr', transmit example_socket (peer, d) example_world) ∧
      (∀ junk, process_nack_message cs peer (d ++ junk) = Ret cs1) ∧
      resend_nacked cs1 [] example_socket example_world =
        Ret (cs2, [], transmit_all example_socket ((λ k, (peer, example_log k)) <$> lost) example_world) ∧
      receive_run (receiver cr', taken) (arrive example_log lost) = Ret (r', taken') ∧
      delivered_payloads (r', taken') = example_log <$> seqZ 1 (newest example_history).
Proof.
  destruct (on_time_receive_run true 64 example_log example_history ltac:(lia) example_on_time)
    as (r & taken & _ & Hrun & _).
  destruct (sendable example_log 3) as (m & Hm); [intros k; unfold isize_max; simpl; lia|].
  exists r, taken, m. split; [exact Hrun|]. split; [exact Hm|]. cbv zeta.
  set (cr := example_channel <| receiver := r |>). set (cs := example_channel <| send_buffers := m |>).
  pose proof (lost_messages_are_recovered 64 example_log example_history 3 1 taken peer []
           example_socket example_socket example_world example_world cr cs) as H.
  apply H; clear H.
  - lia.
  - exact example_on_time.
  - exact Hrun.
  - exact example_frontier.
  - vm_compute. done.
  - vm_compute. done.
  - change (id cr) with 1. lia.
  - exact (length_replicate 512 0).
  - exact Hm.
  - reflexivity.
  - vm_compute. done.
  - lia.
  - intros k _ _. exists [7]. split; [done|]. unfold isize_max. simpl. lia.
Defined.

(** ** Fragments *)

Ltac arrivals_ok :=
  unfold arrive_all; cbn [app fmap list_fmap]; unfold arrives_ok, isize_max;
  repeat first [apply Forall_nil_2|apply Forall_cons_2]; first [exact I|simpl; lia].

Lemma nothing_arrived : is_frontier (list_to_set (arrivals [])) 0.
Proof. split_and!; [lia|intros; lia|set_solver]. Qed.


Lemma repeated_fragments_are_delivered_again_witness :
  ∃ c', foldl_m (happens peer 0 (group_packets 1 2 1 2 [[7; 8]; [9]])) (example_channel, [])
      ((arrive_all [(0%nat, []); (1%nat, [])] ++ [Reads [0; 0; 0; 0]]) ++
       (arrive_all [(1%nat, [5]); (0%nat, [])] ++ [Reads [1; 1; 1]])) =
      Ret (c', [([7; 8; 9; 0], 3); ([7; 8; 9], 3)]).
Proof.
  apply (repeated_fragments_are_delivered_again 512 0 1 2 [[7; 8]; [9]] (λ _, []) [] [] example_channel peer 0
    [(0%nat, []); (1%nat, [])] [(1%nat, [5]); (0%nat, [])] [0; 0; 0; 0] [1; 1; 1]).
  - lia.
  - lia.
  - unfold group_ok. simpl. lia.
  - simpl. lia.
  - repeat constructor; simpl; lia.
  - exact I.
  - vm_compute. reflexivity.
  - exact nothing_arrived.
  - vm_compute. done.
  - vm_compute. reflexivity.
  - apply lookup_empty.
  - arrivals_ok.
  - intros [|[|i]] Hi; simpl in Hi; [..|lia]; simpl; set_solver.
  - simpl. lia.
  - simpl. lia.
Defined.
