(* ===== verification/pool_state.v ===== *)
(** The pool of servers ([src/tachyon/pool.rs]): state, creation and routing.

    The queues of the [crossbeam] crate and the countdown of the [synchronoise]
    crate are parameters, with the documented behaviour as laws: a bounded
    first-in first-out queue, and a counter that is set when it reaches zero.
    Receiving, which runs on the threads of the [rayon] crate, is in
    [pool_receive.v]. *)

From S2P Require Import prelude network_address int_buffer header nack send_result tachyon_socket unreliable_sender.
From S2P Require Import channel connection tachyon_state connection_impl tachyon.

(** ** What the pool takes from other crates *)

(** [crossbeam::queue::ArrayQueue] *)
Class ArrayQueueOps := {
  ArrayQueue : Type → Type;
  queue_new {A} : Z → outcome (ArrayQueue A);
  queue_push {A} : A → ArrayQueue A → ArrayQueue A * Result unit A;
  queue_pop {A} : ArrayQueue A → ArrayQueue A * option A;
  queue_len {A} : ArrayQueue A → Z
}.

(** A queue holds at most as many elements as it was created for, and gives
    them back in the order in which they were pushed. *)
Class ArrayQueueLaws (ops : ArrayQueueOps) := {
  contents {A} : ArrayQueue A → list A;
  capacity {A} : ArrayQueue A → Z;
  queue_new_spec {A} n : 0 < n → ∃ q : ArrayQueue A, queue_new n = Ret q ∧ contents q = [] ∧ capacity q = n;
  queue_push_spec {A} (x : A) q : len (contents q) < capacity q →
    ∃ q', queue_push x q = (q', ROk tt) ∧ contents q' = contents q ++ [x] ∧ capacity q' = capacity q;
  queue_push_full {A} (x : A) q : capacity q ≤ len (contents q) → queue_push x q = (q, RErr x);
  queue_pop_spec {A} (q : ArrayQueue A) x l : contents q = x :: l →
    ∃ q', queue_pop q = (q', Some x) ∧ contents q' = l ∧ capacity q' = capacity q;
  queue_pop_empty {A} (q : ArrayQueue A) : contents q = [] → queue_pop q = (q, None);
  queue_len_spec {A} (q : ArrayQueue A) : queue_len q = len (contents q)
}.

(** [synchronoise::CountdownEvent] *)
Class CountdownOps := {
  CountdownEvent : Type;
  countdown_new : Z → CountdownEvent;
  (** the error is that the counter is at zero already *)
  countdown_decrement : CountdownEvent → CountdownEvent * Result bool unit;
  (** whether [wait] returns *)
  countdown_is_set : CountdownEvent → bool
}.

Class CountdownLaws (ops : CountdownOps) := {
  countdown_count : CountdownEvent → Z;
  countdown_new_spec n : 0 ≤ n → countdown_count (countdown_new n) = n;
  countdown_decrement_spec c : 0 < countdown_count c →
    ∃ c' b, countdown_decrement c = (c', ROk b) ∧ countdown_count c' = countdown_count c - 1;
  countdown_is_set_spec c : countdown_is_set c = (countdown_count c =? 0)
}.

Module OutBufferCounts.

Record OutBufferCounts := mk { bytes_written : Z; count : Z }.

#[global] Instance eta_OutBufferCounts : Eta OutBufferCounts := λ o, mk (bytes_written o) (count o).

Definition default : OutBufferCounts := mk 0 0.

End OutBufferCounts.

Module OutBuffer.

Record OutBuffer := mk { data : bytes; bytes_written : Z; count : Z }.

#[global] Instance eta_OutBuffer : Eta OutBuffer := λ o, mk (data o) (bytes_written o) (count o).

End OutBuffer.

Module PoolServerRef.

Record PoolServerRef := mk { address : NetworkAddress.NetworkAddress; id : Z }.

End PoolServerRef.

Module Pool.
Import NetworkAddress Tachyon.

Section pool.
Context `{Callbacks} `{VarintOps} `{HashIter} `{ArrayQueueOps} `{CountdownOps}.

Record Pool := mk {
  next_id : Z;
  max_servers : Z;
  receive_buffer_len : Z;
  servers : gmap Z Tachyon;
  receive_queue : ArrayQueue (list bytes);
  receive_buffers : ArrayQueue bytes;
  out_buffers : ArrayQueue OutBuffer.OutBuffer;
  published : list bytes;
  servers_in_use : ArrayQueue Tachyon;
  counter : option CountdownEvent;
  connections_by_identity : gmap Z Connection.Connection;
  connections_by_address : gmap NetworkAddress Connection.Connection
}.

#[global] Instance eta_Pool : Eta Pool := λ p,
  mk (next_id p) (max_servers p) (receive_buffer_len p) (servers p) (receive_queue p) (receive_buffers p)
     (out_buffers p) (published p) (servers_in_use p) (counter p) (connections_by_identity p)
     (connections_by_address p).

(** The loop of [create] that fills the three queues. *)
Fixpoint create_loop (n : nat) (receive_buffer_len out_buffer_len : Z)
    (st : ArrayQueue (list bytes) * ArrayQueue bytes * ArrayQueue OutBuffer.OutBuffer) :
    ArrayQueue (list bytes) * ArrayQueue bytes * ArrayQueue OutBuffer.OutBuffer :=
  match n with
  | O => st
  | S n' =>
      let '(queue, receive_buffers, out_buffers) := st in
      let '(queue, _) := queue_push [] queue in
      let '(receive_buffers, _) := queue_push (replicate (Z.to_nat receive_buffer_len) 0) receive_buffers in
      let buffer := OutBuffer.mk (replicate (Z.to_nat out_buffer_len) 0) 0 0 in
      let '(out_buffers, _) := queue_push buffer out_buffers in
      create_loop n' receive_buffer_len out_buffer_len (queue, receive_buffers, out_buffers)
  end.

Definition create (max_servers receive_buffer_len out_buffer_len : Z) : outcome Pool :=
  receive_buffers ← queue_new max_servers;
  out_buffers ← queue_new max_servers;
  queue ← queue_new max_servers;
  let '(queue, receive_buffers, out_buffers) :=
    create_loop (Z.to_nat max_servers) receive_buffer_len out_buffer_len (queue, receive_buffers, out_buffers) in
  in_use ← queue_new max_servers;
  Ret (mk 0 max_servers receive_buffer_len ∅ queue receive_buffers out_buffers [] in_use None ∅ ∅).

Definition create_server (self : Pool) (config : TachyonConfig.TachyonConfig) (address : NetworkAddress)
    (id now : Z) (w : World) : outcome (Pool * World * bool) :=
  if max_servers self <? Z.of_nat (size (servers self)) then Ret (self, w, false) else
  if opt_is_some (servers self !! id) then Ret (self, w, false) else
  let tachyon := Tachyon.create config now in
  '(tachyon, w, bound) ← TachyonIo.bind tachyon address w;
  if (bound : bool) then
    let tachyon := tachyon <| Tachyon.id := id |> in
    Ret (self <| servers := <[id := tachyon]> (servers self) |>, w, true)
  else Ret (self, w, false).

Definition get_server (self : Pool) (id : Z) : option Tachyon := servers self !! id.

Definition set_identity (self : Pool) (server_id id session_id on_self : Z) (w : World) : Pool * World :=
  match get_server self server_id with
  | Some tachyon =>
      if on_self =? 1 then
        let tachyon := tachyon <| identity := (identity tachyon) <| Identity.id := id |> |> in
        let tachyon := tachyon <| identity := (identity tachyon) <| Identity.session_id := session_id |> |> in
        (self <| servers := <[server_id := tachyon]> (servers self) |>, w)
      else
        let '(tachyon, w) := ConnectionImpl.set_identity tachyon id session_id w in
        (self <| servers := <[server_id := tachyon]> (servers self) |>, w)
  | None => (self, w)
  end.

(** ** Routing *)

Definition map_connection (self : Pool) (conn : Connection.Connection) : Pool :=
  let self := self <| connections_by_address :=
                <[Connection.address conn := conn]> (connections_by_address self) |> in
  if 0 <? Identity.id (Connection.identity conn) then
    self <| connections_by_identity :=
      <[Identity.id (Connection.identity conn) := conn]> (connections_by_identity self) |>
  else self.

Definition build_connection_maps (self : Pool) : Pool :=
  let self := self <| connections_by_address := ∅ |> in
  let self := self <| connections_by_identity := ∅ |> in
  foldl (λ self server,
           foldl (λ self conn, map_connection self conn.2) self (hash_iter (connections server.2)))
    self (hash_iter (servers self)).

Definition get_server_having_connection (self : Pool) (address : NetworkAddress) : Z :=
  match connections_by_address self !! address with
  | Some conn => Connection.tachyon_id conn
  | None => 0
  end.

Definition get_server_having_identity (self : Pool) (identity_id : Z) : Z :=
  match connections_by_identity self !! identity_id with
  | Some conn => Connection.tachyon_id conn
  | None => 0
  end.

Definition get_available_server (self : Pool) : option PoolServerRef.PoolServerRef :=
  (foldl (λ st entry,
            let '(low, best) := st in
            let server := entry.2 in
            let conn_count := Z.of_nat (size (connections server)) in
            if (conn_count <? low) && opt_is_some (TachyonSocket.socket (socket server)) then
              (conn_count, Some (PoolServerRef.mk (TachyonSocket.address (socket server)) (Tachyon.id server)))
            else (low, best))
     (10000, None) (hash_iter (servers self))).2.

(** A send on the server with the given key. *)
Definition send_on (self : Pool) (key : Z) (server : Tachyon) (channel_id : Z) (address : NetworkAddress)
    (data : bytes) (length now : Z) (w : World) : outcome (Pool * World * TachyonSendResult.TachyonSendResult) :=
  '(server, w, result) ←
    (if channel_id =? 0 then TachyonIo.send_unreliable server address data (as_u64 length) w
     else TachyonIo.send_reliable server channel_id address data (as_u64 length) now w);
  Ret (self <| servers := <[key := server]> (servers self) |>, w, result).

Definition send_to_identity (self : Pool) (channel_id id : Z) (data : bytes) (length now : Z) (w : World) :
    outcome (Pool * World * TachyonSendResult.TachyonSendResult) :=
  match connections_by_identity self !! id with
  | Some conn =>
      match servers self !! Connection.tachyon_id conn with
      | Some server =>
          send_on self (Connection.tachyon_id conn) server channel_id (Connection.address conn) data length now w
      | None => Ret (self, w, TachyonSendResult.default)
      end
  | None => Ret (self, w, TachyonSendResult.default)
  end.

Definition send_to_address (self : Pool) (channel_id : Z) (address : NetworkAddress) (data : bytes)
    (length now : Z) (w : World) : outcome (Pool * World * TachyonSendResult.TachyonSendResult) :=
  match connections_by_address self !! address with
  | Some conn =>
      match servers self !! Connection.tachyon_id conn with
      | Some sender => send_on self (Connection.tachyon_id conn) sender channel_id address data length now w
      | None => Ret (self, w, TachyonSendResult.default)
      end
  | None => Ret (self, w, TachyonSendResult.default)
  end.

Definition send_to_target (self : Pool) (channel_id : Z) (target : SendTarget.SendTarget) (data : bytes)
    (length now : Z) (w : World) : outcome (Pool * World * TachyonSendResult.TachyonSendResult) :=
  if 0 <? SendTarget.identity_id target
  then send_to_identity self channel_id (SendTarget.identity_id target) data length now w
  else send_to_address self channel_id (SendTarget.address target) data length now w.

(** ** Operations of [src/tachyon/pool_ffi.rs] that do more than pass pointers on *)

Definition pool_configure_channel (pool : Pool) (server_id channel_id : Z) (config : ChannelConfig.ChannelConfig) :
    Pool * Z :=
  match get_server pool server_id with
  | Some tachyon =>
      let '(tachyon, res) := configure_channel tachyon channel_id config in
      (pool <| servers := <[server_id := tachyon]> (servers pool) |>, if (res : bool) then 1 else -1)
  | None => (pool, -1)
  end.

Definition pool_update_servers (pool : Pool) (none_send_data : bytes) (now : Z) (w : World) :
    outcome (Pool * bytes * World) :=
  '(pool, none_send_data, w) ←
    foldl_m (λ st entry,
      let '(pool, none_send_data, w) := st in
      '(server, none_send_data, w) ← TachyonIo.update entry.2 none_send_data now w;
      Ret (pool <| servers := <[entry.1 := server]> (servers pool) |>, none_send_data, w))
      (pool, none_send_data, w) (hash_iter (servers pool));
  Ret (build_connection_maps pool, none_send_data, w).

Definition pool_register_callbacks (pool : Pool) (identity_event_callback' connection_event_callback' : option EventCallback) :
    Pool :=
  foldl (λ pool entry,
           let server := entry.2 in
           let server := if opt_is_some identity_event_callback'
                         then server <| identity_event_callback := identity_event_callback' |> else server in
           let server := if opt_is_some connection_event_callback'
                         then server <| connection_event_callback := connection_event_callback' |> else server in
           pool <| servers := <[entry.1 := server]> (servers pool) |>)
    pool (hash_iter (servers pool)).

End pool.
End Pool.
