(* ===== verification/pool_receive.v ===== *)
(** Receiving on all servers of a pool at once ([src/tachyon/pool.rs]).

    [receive] hands the servers to as many tasks on [rayon]'s threads, and
    [finish_receive] waits for them and collects what they received; the blocking
    variants do the same in one call.  A task is its program counter with the
    values it holds; a step of a task is one operation on the shared queues, on
    the counter, or one call of [receive_loop] on the server it holds.  The steps
    of different tasks interleave in any order: [Pool.step] lets any task go on.

    The four receive operations are two kinds of tasks, those of [receive], which
    take their server from a queue and give it back, and those of the blocking
    variants, which are given one; and two places for what is received, a
    [VecDeque] of messages and an [OutBuffer], which are a [Sink] here. *)

From S2P Require Import prelude network_address int_buffer header nack send_result tachyon_socket unreliable_sender.
From S2P Require Import channel connection tachyon_state connection_impl tachyon pool_state.

Module PoolReceive.
Import NetworkAddress Tachyon Pool.

Section receive.
Context `{Callbacks} `{VarintOps} `{HashIter} `{ArrayQueueOps} `{CountdownOps}.

(** ** One server *)

(** One iteration of [receive_server]; [false] is [break]. *)
Definition receive_server_step (server : Tachyon) (receive_queue : list bytes) (receive_buffer : bytes)
    (now : Z) (w : World) : outcome (Tachyon * list bytes * bytes * World * bool) :=
  '(server, receive_buffer, w, res) ← TachyonIo.receive_loop server receive_buffer now w;
  if (TachyonReceiveResult.length res =? 0) || (0 <? TachyonReceiveResult.error res)
  then Ret (server, receive_queue, receive_buffer, w, false)
  else
    message ← slice receive_buffer 0 (TachyonReceiveResult.length res);
    Ret (server, receive_queue ++ [message], receive_buffer, w, true).

Fixpoint receive_server_n (n : nat) (server : Tachyon) (receive_queue : list bytes) (receive_buffer : bytes)
    (now : Z) (w : World) : outcome (Tachyon * list bytes * bytes * World) :=
  match n with
  | O => Ret (server, receive_queue, receive_buffer, w)
  | S n' =>
      '(server, receive_queue, receive_buffer, w, continue) ←
        receive_server_step server receive_queue receive_buffer now w;
      if (continue : bool) then receive_server_n n' server receive_queue receive_buffer now w
      else Ret (server, receive_queue, receive_buffer, w)
  end.

Definition RECEIVE_SERVER_LOOPS : nat := Z.to_nat 100000.

Definition receive_server (server : Tachyon) (receive_queue : list bytes) (receive_buffer : bytes)
    (now : Z) (w : World) : outcome (Tachyon * list bytes * bytes * World) :=
  receive_server_n RECEIVE_SERVER_LOOPS server receive_queue receive_buffer now w.

(** One iteration of [receive_server_into_out_buffer], with its [writer]. *)
Definition receive_server_into_out_buffer_step (server : Tachyon)
    (st : LengthPrefixed.LengthPrefixed * OutBuffer.OutBuffer) (receive_buffer : bytes)
    (now : Z) (w : World) :
    outcome (Tachyon * (LengthPrefixed.LengthPrefixed * OutBuffer.OutBuffer) * bytes * World * bool) :=
  let '(writer, out_buffer) := st in
  '(server, receive_buffer, w, res) ← TachyonIo.receive_loop server receive_buffer now w;
  if (TachyonReceiveResult.length res =? 0) || (0 <? TachyonReceiveResult.error res)
  then
    let out_buffer := out_buffer <| OutBuffer.bytes_written :=
                        as_u32 (IntBuffer.index (LengthPrefixed.writer writer)) |> in
    Ret (server, (writer, out_buffer), receive_buffer, w, false)
  else
    message ← slice receive_buffer 0 (TachyonReceiveResult.length res);
    '(writer, data) ← LengthPrefixed.write writer (TachyonReceiveResult.channel res)
                        (TachyonReceiveResult.address res) message (OutBuffer.data out_buffer);
    let out_buffer := out_buffer <| OutBuffer.data := data |> in
    let out_buffer := out_buffer <| OutBuffer.count := as_u32 (OutBuffer.count out_buffer + 1) |> in
    Ret (server, (writer, out_buffer), receive_buffer, w, true).

(** ** Where a task puts what it receives *)

Record Sink := mk_sink {
  Item : Type;
  Work : Type;
  items : Pool → ArrayQueue Item;
  put_items : ArrayQueue Item → Pool → Pool;
  on_pop : Item → Item;
  open : Item → Work;
  work_step : Tachyon → Work → bytes → Z → World → outcome (Tachyon * Work * bytes * World * bool);
  close : Work → Item
}.

Definition into_queue : Sink := {|
  Item := list bytes;
  Work := list bytes;
  items := receive_queue;
  put_items := λ q p, p <| receive_queue := q |>;
  on_pop := λ q, q;
  open := λ q, q;
  work_step := receive_server_step;
  close := λ q, q
|}.

Definition into_out_buffer : Sink := {|
  Item := OutBuffer.OutBuffer;
  Work := LengthPrefixed.LengthPrefixed * OutBuffer.OutBuffer;
  items := out_buffers;
  put_items := λ q p, p <| out_buffers := q |>;
  on_pop := λ o, o <| OutBuffer.bytes_written := 0 |> <| OutBuffer.count := 0 |>;
  open := λ o, (LengthPrefixed.default, o);
  work_step := receive_server_into_out_buffer_step;
  close := snd
|}.

(** ** Tasks *)

(** [Spawned] tasks are the closures of [receive]; the closures of the blocking
    variants start with [HasServer] and end with [Served]. *)
Inductive task (sk : Sink) :=
| Spawned
| HasServer (server : Tachyon)
| HasItem (server : Tachyon) (item : Item sk)
| Receiving (n : nat) (server : Tachyon) (work : Work sk) (receive_buffer : bytes)
| PushBuffer (server : Tachyon) (item : Item sk) (receive_buffer : bytes)
| PushItem (server : Tachyon) (item : Item sk)
| Served (server : Tachyon)
| Returned
| Done.

#[global] Arguments Spawned {sk}.
#[global] Arguments HasServer {sk} server.
#[global] Arguments HasItem {sk} server item.
#[global] Arguments Receiving {sk} n server work receive_buffer.
#[global] Arguments PushBuffer {sk} server item receive_buffer.
#[global] Arguments PushItem {sk} server item.
#[global] Arguments Served {sk} server.
#[global] Arguments Returned {sk}.
#[global] Arguments Done {sk}.

(** The next step of a task, [None] when it has none.  [spawned] tells the tasks
    of [receive] from those of the blocking variants.  The counter that a task
    decrements is a clone of the [Arc] that [receive] leaves in the pool, so it is
    the pool's until the next [receive], which comes after [finish_receive]. *)
Definition task_step (sk : Sink) (spawned : bool) (t : task sk) (now : Z) (self : Pool) (w : World) :
    option (outcome (task sk * Pool * World)) :=
  match t with
  | Spawned =>
      let '(in_use, popped) := queue_pop (servers_in_use self) in
      let self := self <| servers_in_use := in_use |> in
      match popped with
      | Some server => Some (Ret (HasServer server, self, w))
      | None => Some (Ret (Returned, self, w))
      end
  | HasServer server =>
      let '(queue, popped) := queue_pop (items sk self) in
      let self := put_items sk queue self in
      match popped with
      | Some item => Some (Ret (HasItem server (on_pop sk item), self, w))
      | None => Some (Ret (Served server, self, w))
      end
  | HasItem server item =>
      let '(buffers, popped) := queue_pop (receive_buffers self) in
      let self := self <| receive_buffers := buffers |> in
      match popped with
      | Some receive_buffer =>
          Some (Ret (Receiving RECEIVE_SERVER_LOOPS server (open sk item) receive_buffer, self, w))
      | None => Some (Ret (PushItem server item, self, w))
      end
  | Receiving O server work receive_buffer =>
      Some (Ret (PushBuffer server (close sk work) receive_buffer, self, w))
  | Receiving (S n) server work receive_buffer =>
      Some ('(server, work, receive_buffer, w, continue) ← work_step sk server work receive_buffer now w;
            if (continue : bool) then Ret (Receiving n server work receive_buffer, self, w)
            else Ret (PushBuffer server (close sk work) receive_buffer, self, w))
  | PushBuffer server item receive_buffer =>
      let '(buffers, _) := queue_push receive_buffer (receive_buffers self) in
      Some (Ret (PushItem server item, self <| receive_buffers := buffers |>, w))
  | PushItem server item =>
      let '(queue, _) := queue_push item (items sk self) in
      Some (Ret (Served server, put_items sk queue self, w))
  | Served server =>
      if spawned then
        let '(in_use, _) := queue_push server (servers_in_use self) in
        Some (Ret (Returned, self <| servers_in_use := in_use |>, w))
      else None
  | Returned =>
      match counter self with
      | Some signal =>
          let '(signal, res) := countdown_decrement signal in
          let self := self <| counter := Some signal |> in
          match res with
          | ROk _ => Some (Ret (Done, self, w))
          | RErr _ => Some (Panic UnwrapOnNone)
          end
      | None => None
      end
  | Done => None
  end.

(** The tasks, what they share, and the world they act on. *)
Record run (sk : Sink) := mk_run { tasks : list (task sk); pool : Pool; world : World }.
#[global] Arguments mk_run {sk}.
#[global] Arguments tasks {sk}.
#[global] Arguments pool {sk}.
#[global] Arguments world {sk}.

(** Any task that can go on goes on. *)
Inductive step (sk : Sink) (spawned : bool) : run sk → run sk → Prop :=
| step_task l t l' p w now t' p' w' :
    task_step sk spawned t now p w = Some (Ret (t', p', w')) →
    step sk spawned (mk_run (l ++ t :: l') p w) (mk_run (l ++ t' :: l') p' w').

(** Tasks that run in the given order, each element the number of a task and the
    time; a task that has no step is passed over. *)
Fixpoint run_schedule (sk : Sink) (spawned : bool) (order : list (nat * Z)) (r : run sk) : outcome (run sk) :=
  match order with
  | [] => Ret r
  | (i, now) :: order' =>
      match tasks r !! i with
      | Some t =>
          match task_step sk spawned t now (pool r) (world r) with
          | Some o =>
              '(t', p', w') ← o;
              run_schedule sk spawned order' (mk_run (<[i := t']> (tasks r)) p' w')
          | None => run_schedule sk spawned order' r
          end
      | None => run_schedule sk spawned order' r
      end
  end.

(** ** The operations of the pool *)

Definition take_published (self : Pool) : Pool * option bytes :=
  match published self with
  | [] => (self, None)
  | value :: rest => (self <| published := rest |>, Some value)
  end.

Fixpoint move_received_loop (n : nat) (self : Pool) (count : Z) : Pool * Z :=
  match n with
  | O => (self, count)
  | S n' =>
      let '(queue, popped) := queue_pop (receive_queue self) in
      let self := self <| receive_queue := queue |> in
      match popped with
      | Some values =>
          let '(self, count) :=
            foldl (λ st value,
                     let '(self, count) := st in
                     (self <| published := published self ++ [value] |>, as_i32 (count + 1)))
              (self, count) values in
          let '(queue, _) := queue_push [] (receive_queue self) in
          move_received_loop n' (self <| receive_queue := queue |>) count
      | None => move_received_loop n' self count
      end
  end.

Definition move_received_to_published (self : Pool) : Pool * Z :=
  move_received_loop (Z.to_nat (queue_len (receive_queue self))) self 0.

(** [receive] returns while the tasks it spawned run. *)
Definition receive (self : Pool) : Pool * list (task into_queue) * bool :=
  let server_count := Z.of_nat (size (servers self)) in
  if server_count =? 0 then (self, [], false) else
  let drained := hash_iter (servers self) in
  let self := self <| servers := ∅ |> in
  let self := foldl (λ self s,
                       let '(in_use, _) := queue_push s.2 (servers_in_use self) in
                       self <| servers_in_use := in_use |>) self drained in
  let self := self <| counter := Some (countdown_new server_count) |> in
  (self, replicate (Z.to_nat server_count) Spawned, true).

Fixpoint collect_servers (n : nat) (self : Pool) (server_count : Z) : Pool * Z :=
  match n with
  | O => (self, server_count)
  | S n' =>
      let '(in_use, popped) := queue_pop (servers_in_use self) in
      let self := self <| servers_in_use := in_use |> in
      match popped with
      | Some server =>
          collect_servers n' (self <| servers := <[Tachyon.id server := server]> (servers self) |>)
            (as_u32 (server_count + 1))
      | None => collect_servers n' self server_count
      end
  end.

(** [None] while [wait] blocks. *)
Definition finish_receive (self : Pool) : option (Pool * Z * Z) :=
  match counter self with
  | Some signal =>
      if countdown_is_set signal then
        let '(self, message_count) := move_received_to_published self in
        let '(self, server_count) :=
          collect_servers (Z.to_nat (queue_len (servers_in_use self))) self 0 in
        Some (self <| counter := None |>, server_count, message_count)
      else None
  | None => Some (self, 0, 0)
  end.

(** The tasks of [par_iter_mut] have a server each and work on it in place. *)
Definition par_iter_tasks (sk : Sink) (self : Pool) : list (task sk) :=
  (λ s, HasServer s.2) <$> hash_iter (servers self).

(** The servers after the tasks have ended, under the keys they have. *)
Definition put_served {sk} (self : Pool) (ts : list (task sk)) : Pool :=
  self <| servers :=
    foldl (λ m e, match e.2 with Served s => <[e.1 := s]> m | _ => m end)
      (servers self) (zip (hash_iter (servers self)).*1 ts) |>.

Definition all_served {sk} (ts : list (task sk)) : Prop := Forall (λ t, ∃ s, t = Served s) ts.

(** [receive_blocking] when its tasks interleave in some way. *)
Inductive receive_blocking : Pool → World → Pool → World → Prop :=
| receive_blocking_intro self w ts self' w' :
    rtc (step into_queue false) (mk_run (par_iter_tasks into_queue self) self w) (mk_run ts self' w') →
    all_served ts →
    receive_blocking self w (move_received_to_published (put_served self' ts)).1 w'.

Inductive receive_blocking_out_buffer : Pool → World → Pool → World → Prop :=
| receive_blocking_out_buffer_intro self w ts self' w' :
    rtc (step into_out_buffer false) (mk_run (par_iter_tasks into_out_buffer self) self w) (mk_run ts self' w') →
    all_served ts →
    receive_blocking_out_buffer self w (put_served self' ts) w'.

Fixpoint get_next_out_buffer_loop (n : nat) (self : Pool) (receive_buffer : bytes)
    (result : OutBufferCounts.OutBufferCounts) : outcome (Pool * bytes * OutBufferCounts.OutBufferCounts) :=
  match n with
  | O => Ret (self, receive_buffer, result)
  | S n' =>
      let '(queue, popped) := queue_pop (out_buffers self) in
      let self := self <| out_buffers := queue |> in
      match popped with
      | Some out_buffer =>
          if OutBuffer.count out_buffer =? 0 then
            let '(queue, _) := queue_push out_buffer (out_buffers self) in
            get_next_out_buffer_loop n' (self <| out_buffers := queue |>) receive_buffer result
          else
            src ← slice (OutBuffer.data out_buffer) 0 (OutBuffer.bytes_written out_buffer);
            receive_buffer ← copy_from_slice receive_buffer 0 (OutBuffer.bytes_written out_buffer) src;
            let result := result <| OutBufferCounts.count := OutBuffer.count out_buffer |> in
            let result := result <| OutBufferCounts.bytes_written := OutBuffer.bytes_written out_buffer |> in
            let out_buffer := out_buffer <| OutBuffer.bytes_written := 0 |> in
            let out_buffer := out_buffer <| OutBuffer.count := 0 |> in
            let '(queue, _) := queue_push out_buffer (out_buffers self) in
            Ret (self <| out_buffers := queue |>, receive_buffer, result)
      | None => get_next_out_buffer_loop n' self receive_buffer result
      end
  end.

Definition get_next_out_buffer (self : Pool) (receive_buffer : bytes) :
    outcome (Pool * bytes * OutBufferCounts.OutBufferCounts) :=
  get_next_out_buffer_loop (Z.to_nat (queue_len (out_buffers self))) self receive_buffer OutBufferCounts.default.

End receive.
End PoolReceive.
