(* ===== verification/receive_lengths.v ===== *)
(** Every receive leaves the application's buffer as long as it was, and no
    operation of a pool changes the length of its receive buffers. *)

From S2P Require Import prelude network_address int_buffer header nack byte_buffer_pool send_buffer_manager receiver fragmentation.
From S2P Require Import send_result tachyon_socket unreliable_sender channel connection tachyon_state connection_impl tachyon.
From S2P Require Import pool_state pool_receive.

Import Tachyon TachyonIo.

Lemma copy_from_slice_length {A} (l : list A) lo hi src l' :
  copy_from_slice l lo hi src = Ret l' → length l' = length l.
Proof.
  unfold copy_from_slice. intros E. case_match eqn:Hb; [|done]. apply andb_prop in Hb as [[? ?]%andb_prop Hhi].
  destruct (Z.eqb_spec (hi - lo) (len src)) as [Hl|]; [|done]. injection E as <-.
  apply length_splice. apply Z.leb_le in Hhi. lia.
Qed.

Section channel.
Implicit Types (c : Channel.Channel) (rb : bytes).

Lemma receive_published_internal_length c rb c' rb' res :
  Channel.receive_published_internal c rb = Ret (c', rb', res) → length rb' = length rb.
Proof.
  unfold Channel.receive_published_internal. destruct (Receiver.take_published _) as [[b|] r]; [|naive_solver].
  intros ([i ty] & _ & E)%bind_Ret. cbv beta iota zeta in E. case_match; [naive_solver|]. case_match.
  - apply bind_Ret in E as (h & _ & ([f res'] & _ & E)%bind_Ret). cbv beta iota zeta in E.
    destruct res' as [body|]; [|naive_solver]. apply bind_Ret in E as (rb1 & Hc%copy_from_slice_length & E). naive_solver.
  - case_match; [|naive_solver]. apply bind_Ret in E as (src & _ & (rb1 & Hc%copy_from_slice_length & E)%bind_Ret). naive_solver.
Qed.

Lemma receive_published_loop_length n : ∀ c rb c' rb' res,
  Channel.receive_published_loop n c rb = Ret (c', rb', res) → length rb' = length rb.
Proof.
  induction n as [|n IH]; intros c rb c' rb' res; cbn [Channel.receive_published_loop]; [naive_solver|].
  intros ([[c1 rb1] [[l a] retry]] & Hi%receive_published_internal_length & E)%bind_Ret. cbv beta iota zeta in E.
  case_match; [naive_solver|]. case_match; [naive_solver|]. apply IH in E. congruence.
Qed.

Lemma receive_published_length c rb c' rb' res :
  Channel.receive_published c rb = Ret (c', rb', res) → length rb' = length rb.
Proof. apply receive_published_loop_length. Qed.
End channel.

Section lengths.
Context `{Callbacks} `{VarintOps} `{HashIter}.
Implicit Types (t : Tachyon) (w : World) (rb : bytes).

Lemma receive_channel_id_length t rb a ch t' rb' res :
  receive_published_channel_id t rb a ch = Ret (t', rb', res) → length rb' = length rb.
Proof.
  unfold receive_published_channel_id. destruct (channels t !! _) as [c|]; [|naive_solver].
  intros ([[c1 rb1] r] & Hr%receive_published_length & E)%bind_Ret. naive_solver.
Qed.

Lemma receive_all_length es : ∀ t rb t' rb' res,
  receive_published_all_loop t rb es = Ret (t', rb', res) → length rb' = length rb.
Proof.
  induction es as [|[k c] es IH]; intros t rb t' rb' res; cbn [receive_published_all_loop]; [naive_solver|].
  intros ([[c1 rb1] r] & Hr%receive_published_length & E)%bind_Ret. cbv beta iota zeta in E.
  case_match; [naive_solver|]. apply IH in E. congruence.
Qed.

Lemma receive_loop_n_length n : ∀ t rb now w t' rb' w' res,
  receive_loop_n n t rb now w = Ret (t', rb', w', res) → length rb' = length rb.
Proof.
  induction n as [|n IH]; intros t rb now w t' rb' w' res; cbn [receive_loop_n].
  - intros ([[t1 rb1] r1] & Hall%receive_all_length & [= <- <- _ _])%bind_Ret. done.
  - intros ([[t1 w1] r1] & _ & E)%bind_Ret. destruct r1.
    + apply bind_Ret in E as ([[t2 rb2] n2] & Hp%receive_channel_id_length & E). cbv beta iota in E.
      case_match; [naive_solver|]. apply IH in E. congruence.
    + naive_solver.
    + by apply bind_Ret in E as ([[t2 rb2] r2] & Hall%receive_all_length & [= <- <- _ _]).
    + by apply IH in E.
    + naive_solver.
    + apply bind_Ret in E as (src & _ & (rb1 & Hc%copy_from_slice_length & E)%bind_Ret). naive_solver.
Qed.

Lemma receive_loop_length t rb now w t' rb' w' res :
  receive_loop t rb now w = Ret (t', rb', w', res) → length rb' = length rb.
Proof. apply receive_loop_n_length. Qed.

Context `{ArrayQueueOps} `{CountdownOps}.
Import Pool PoolReceive.

Lemma get_next_loop_length n : ∀ p rb counts p' rb' counts',
  get_next_out_buffer_loop n p rb counts = Ret (p', rb', counts') →
  length rb' = length rb ∧ receive_buffer_len p' = receive_buffer_len p.
Proof.
  induction n as [|n IH]; intros p rb counts p' rb' counts'; cbn [get_next_out_buffer_loop]; [naive_solver|].
  destruct (queue_pop (out_buffers p)) as [q popped]. cbv beta iota zeta. destruct popped as [o|].
  - case_match.
    + destruct (queue_push _ _) as [q' ?]. intros [Hl ->]%IH. done.
    + intros (src & _ & (rb1 & Hc%copy_from_slice_length & E)%bind_Ret)%bind_Ret. cbv beta iota zeta in E.
      destruct (queue_push _ _) as [q' ?]. injection E as <- <- _. done.
  - intros [Hl ->]%IH. done.
Qed.

Lemma get_next_out_buffer_length p rb p' rb' counts :
  get_next_out_buffer p rb = Ret (p', rb', counts) →
  length rb' = length rb ∧ receive_buffer_len p' = receive_buffer_len p.
Proof. apply get_next_loop_length. Qed.

(** ** The receive buffers of a pool *)

Implicit Types (p : Pool).

Lemma foldl_same {S A B} (g : S → B) (f : S → A → S) (l : list A) : ∀ s,
  (∀ s a, g (f s a) = g s) → g (foldl f s l) = g s.
Proof. induction l as [|a l IH]; intros s Hf; [done|]. cbn [foldl]. by rewrite IH, Hf. Qed.

Lemma create_len max_servers n m p : Pool.create max_servers n m = Ret p → receive_buffer_len p = n.
Proof.
  unfold Pool.create. intros (b & _ & (o & _ & (q & _ & E)%bind_Ret)%bind_Ret)%bind_Ret.
  destruct (create_loop _ _ _ _) as [[q' b'] o']. apply bind_Ret in E as (u & _ & E). by injection E as <-.
Qed.

Lemma create_server_len p config a i now w p' w' b :
  Pool.create_server p config a i now w = Ret (p', w', b) → receive_buffer_len p' = receive_buffer_len p.
Proof.
  unfold Pool.create_server. case_match; [naive_solver|]. case_match; [naive_solver|].
  intros ([[t1 w1] bound] & _ & E)%bind_Ret. destruct bound; naive_solver.
Qed.

Lemma set_identity_len p server i session on_self w :
  receive_buffer_len (Pool.set_identity p server i session on_self w).1 = receive_buffer_len p.
Proof.
  unfold Pool.set_identity. destruct (get_server p server) as [t|]; [|done]. case_match; [done|].
  by destruct (ConnectionImpl.set_identity t i session w).
Qed.

Lemma configure_len p server ch config :
  receive_buffer_len (pool_configure_channel p server ch config).1 = receive_buffer_len p.
Proof.
  unfold pool_configure_channel. destruct (get_server p server) as [t|]; [|done].
  by destruct (configure_channel t ch config).
Qed.

Lemma register_len p i e : receive_buffer_len (pool_register_callbacks p i e) = receive_buffer_len p.
Proof. by apply (foldl_same receive_buffer_len). Qed.

Lemma build_maps_len p : receive_buffer_len (build_connection_maps p) = receive_buffer_len p.
Proof.
  unfold build_connection_maps. rewrite (foldl_same receive_buffer_len); [done|].
  intros p1 server. apply (foldl_same receive_buffer_len).
  intros p2 conn. unfold map_connection. by case_match.
Qed.

Lemma update_servers_len p d now w p' d' w' :
  pool_update_servers p d now w = Ret (p', d', w') → receive_buffer_len p' = receive_buffer_len p.
Proof.
  unfold pool_update_servers. intros ([[p1 d1] w1] & Hf & [= <- _ _])%bind_Ret. rewrite build_maps_len.
  revert Hf. generalize (hash_iter (servers p)) as l. intros l. revert p d w.
  induction l as [|[k server] l IH]; intros p d w; cbn [foldl_m]; [naive_solver|].
  intros ([[p2 d2] w2] & ([[t1 d3] w3] & _ & [= <- <- <-])%bind_Ret & Hf)%bind_Ret. by apply IH in Hf.
Qed.

Lemma send_to_target_len p ch target data n now w p' w' r :
  Pool.send_to_target p ch target data n now w = Ret (p', w', r) → receive_buffer_len p' = receive_buffer_len p.
Proof.
  assert (∀ key server a, send_on p key server ch a data n now w = Ret (p', w', r) →
    receive_buffer_len p' = receive_buffer_len p) as Hon.
  { unfold send_on. intros key server a ([[t1 w1] r1] & _ & [= <- _ _])%bind_Ret. done. }
  unfold Pool.send_to_target, Pool.send_to_identity, Pool.send_to_address.
  repeat case_match; naive_solver.
Qed.

Section schedule.
Context (sk : Sink) (put_len : ∀ q p, receive_buffer_len (put_items sk q p) = receive_buffer_len p).

Lemma task_step_len spawned (t : task sk) now p w (t' : task sk) p' w' :
  task_step sk spawned t now p w = Some (Ret (t', p', w')) → receive_buffer_len p' = receive_buffer_len p.
Proof using put_len.
  destruct t as [|server|server item|[|n] server work b|server item b|server item|server| |]; cbn [task_step].
  - destruct (queue_pop _) as [q [server|]]; naive_solver.
  - destruct (queue_pop _) as [q [item|]]; intros [= <- <- <-]; by rewrite put_len.
  - destruct (queue_pop _) as [q [b|]]; naive_solver.
  - naive_solver.
  - intros E. injection E as E. apply bind_Ret in E as ([[[[t1 wk1] b1] w1] go] & _ & E).
    cbv beta iota in E. destruct go; by injection E as <- <- <-.
  - destruct (queue_push _ _) as [q ?]. naive_solver.
  - destruct (queue_push _ _) as [q ?]. intros [= <- <- <-]. by rewrite put_len.
  - destruct spawned; [|done]. destruct (queue_push _ _) as [q ?]. naive_solver.
  - destruct (counter p) as [signal|]; [|done]. destruct (countdown_decrement signal) as [c [|]]; naive_solver.
  - done.
Qed.

Lemma run_schedule_len spawned order : ∀ r r', run_schedule sk spawned order r = Ret r' →
  receive_buffer_len (pool r') = receive_buffer_len (pool r) ∧ length (tasks r') = length (tasks r).
Proof using put_len.
  induction order as [|[i now] order IH]; intros r r'; cbn [run_schedule]; [naive_solver|].
  destruct (tasks r !! i) as [t|]; [|by intros ?%IH].
  destruct (task_step sk spawned t now (pool r) (world r)) as [[[[t1 p1] w1]|]|] eqn:Et; [|done|by intros ?%IH].
  rewrite bind_ret_l. apply task_step_len in Et. intros [-> ->]%IH. cbn [pool tasks].
  by rewrite length_insert.
Qed.
End schedule.

Lemma receive_len p p' ts b : PoolReceive.receive p = (p', ts, b) →
  receive_buffer_len p' = receive_buffer_len p ∧ (b = true → ts ≠ []) ∧ (b = false → ts = []).
Proof.
  unfold PoolReceive.receive. destruct (Z.eqb_spec (Z.of_nat (size (servers p))) 0) as [|Hs]; [naive_solver|].
  intros [= <- <- <-]. split; [|split; [|done]].
  - cbn [receive_buffer_len set]. rewrite (foldl_same receive_buffer_len); [done|]. intros p1 s.
    by destruct (queue_push s.2 (servers_in_use p1)).
  - intros _ E. apply (f_equal length) in E. rewrite length_replicate in E. simpl in E. lia.
Qed.

Lemma move_received_len n : ∀ p m, receive_buffer_len (move_received_loop n p m).1 = receive_buffer_len p.
Proof.
  induction n as [|n IH]; intros p m; [done|]. cbn [move_received_loop].
  destruct (queue_pop (receive_queue p)) as [q [values|]]; cbv beta iota zeta; [|by rewrite IH].
  destruct (foldl _ _ values) as [p1 m1] eqn:E.
  assert (receive_buffer_len p1 = receive_buffer_len p) as <-.
  { change p1 with (fst (p1, m1)). rewrite <-E. rewrite (foldl_same (λ st, receive_buffer_len st.1)); [done|].
    by intros [p2 m2] v. }
  destruct (queue_push [] (receive_queue p1)) as [q' ?]. by rewrite IH.
Qed.

Lemma collect_servers_len n : ∀ p m, receive_buffer_len (collect_servers n p m).1 = receive_buffer_len p.
Proof.
  induction n as [|n IH]; intros p m; [done|]. cbn [collect_servers].
  destruct (queue_pop (servers_in_use p)) as [q [server|]]; cbv beta iota zeta; by rewrite IH.
Qed.

Lemma finish_receive_len p p' n m : PoolReceive.finish_receive p = Some (p', n, m) →
  receive_buffer_len p' = receive_buffer_len p.
Proof.
  unfold PoolReceive.finish_receive. destruct (counter p) as [signal|]; [|naive_solver].
  destruct (countdown_is_set signal); [|done]. unfold move_received_to_published.
  pose proof (move_received_len (Z.to_nat (queue_len (receive_queue p))) p 0) as Hm.
  destruct (move_received_loop _ p 0) as [p1 m1].
  pose proof (collect_servers_len (Z.to_nat (queue_len (servers_in_use p1))) p1 0) as Hc.
  destruct (collect_servers _ p1 0) as [p2 n2]. intros [= <- _ _]. cbn [receive_buffer_len set fst] in *. congruence.
Qed.
End lengths.
