(* ===== verification/tachyon_session.v ===== *)
(** A whole conversation on an ordered channel.

    A client sends batch after batch, small messages and messages that travel in
    fragments; the network reorders the datagrams of a batch; the application of
    the server reads every batch before the next.  There is no bound on the number
    of batches, so the sequences wrap at both ends. *)

From S2P Require Import prelude sequence network_address int_buffer header nack byte_buffer_pool.
From S2P Require Import send_buffer_manager receiver receiver_spec receiver_delivery receiver_refinement.
From S2P Require Import receiver_histories fragmentation send_result tachyon_socket unreliable_sender channel.
From S2P Require Import connection tachyon_state connection_impl tachyon channel_sending channel_receiving channel_recovery.
From S2P Require Import tachyon_sending tachyon_delivery tachyon_conversation channel_fragments tachyon_fragments receive_lengths.

Import NetworkAddress Tachyon ConnectionImpl TachyonIo.

(** ** Batches *)

Inductive batch :=
| Small (ms : list (Z * bytes))
| Large (m : Z * bytes).

(** The messages with the times they are sent at. *)
Definition messages (b : batch) : list (Z * bytes) :=
  match b with Small ms => ms | Large m => [m] end.

(** A batch for a window of [W] and an application's buffer of length [R]. *)
Definition batch_ok (W R : Z) (b : batch) : Prop :=
  match b with
  | Small ms => Forall small ms ∧ len ms ≤ W
  | Large m => 1200 ≤ len m.2 < 1200 * Z.min W 1000 ∧ len m.2 ≤ R
  end.

(** ** Shuffles *)

(** What was shuffled, as a shuffle of its positions. *)
Lemma shuffled_positions {A} (l l' : list A) : l' ≡ₚ l →
  ∃ order, order ≡ₚ seq 0 (length l) ∧ l' = omap (λ i, l !! i) order.
Proof.
  intros Hl. assert ((λ i, l !! i) <$> seq 0 (length l) = Some <$> l) as E.
  { apply list_eq. intros i. rewrite !list_lookup_fmap. destruct (decide (i < length l)%nat) as [Hi|Hi].
    - rewrite lookup_seq_lt by done. destruct (lookup_lt_is_Some_2 l i Hi) as [x Hx]. cbn [fmap option_fmap option_map].
      by rewrite Nat.add_0_l, Hx.
    - by rewrite lookup_seq_ge, lookup_ge_None_2 by lia. }
  assert (Some <$> l' ≡ₚ (λ i, l !! i) <$> seq 0 (length l)) as Hp by (by rewrite E, Hl).
  apply Permutation.Permutation_map_inv in Hp as (order & Hmap & Hord). exists order. split; [by symmetry|].
  assert (∀ xs : list A, xs = omap (λ x, x) (Some <$> xs)) as Hid by (intros xs; induction xs; simpl; by f_equal).
  rewrite (Hid l'), Hmap. clear. induction order as [|i order IH]; [done|].
  cbn [map omap list_omap]. destruct (l !! i); cbn; by rewrite IH.
Qed.

(** The indices of datagrams that were shuffled. *)
Lemma shuffled_indices (f : Z → bytes) (ks : list Z) ds : ds ≡ₚ f <$> ks → ∃ ks', ks' ≡ₚ ks ∧ ds = f <$> ks'.
Proof. intros Hp. apply Permutation.Permutation_map_inv in Hp as (ks' & -> & Hk). exists ks'. by rewrite Hk. Qed.

(** ** The server between batches *)

(** The messages 1 to [n]. *)
Definition first_messages (n : Z) : gset Z := list_to_set (seqZ 1 n).

Lemma elem_of_first_messages n k : k ∈ first_messages n ↔ 1 ≤ k ≤ n.
Proof. unfold first_messages. rewrite elem_of_list_to_set, elem_of_seqZ. lia. Qed.

(** When nothing waits, what the messages are is open. *)
Lemma serving_open msg msg' W A s j : serving msg W A s j → Spec.cur s = j → (∀ i, i ∈ A → i ≤ j) → serving msg' W A s j.
Proof.
  intros [[Hwf ? ? Hgot Hbuf ? ?] Ho Hout Hj Hn] Hcur HA. split; [|done| |done|done].
  - split; try done. intros i p Hi. assert (i ∈ Spec.got s) as [Hi' Hlt]%Hgot by (apply (wf_buf _ Hwf); by eexists).
    apply HA in Hi'. lia.
  - rewrite Hout, Hcur, Z.sub_diag. done.
Qed.

Section server.
Context `{Callbacks} `{VarintOps} `{HashIter} `{!HashIterLaws _}.
Context (peer : NetworkAddress) (ch : Z) (sock : UdpSocket) (W : Z).
Hypothesis Hch : is_u8 ch.
Hypothesis HW : 1 ≤ W ≤ 1022.
Implicit Types (t : Tachyon) (w : World) (rb : bytes) (n : Z).

(** A server whose application has read messages 1 to [n], all that were sent. *)
Record caught_up n t : Prop := {
  cu_count : 0 ≤ n;
  cu_state : ∃ s msg, ready peer ch sock t s ∧ serving msg W (first_messages n) s n ∧ Spec.cur s = n;
  cu_groups c : channels t !! (peer, ch) = Some c → Fragmentation.received (Channel.frag c) = ∅
}.

Lemma receive_calls_length nows : ∀ t rb w t' rb' w' got,
  receive_calls nows t rb w = Ret (t', rb', w', got) → length rb' = length rb.
Proof.
  induction nows as [|now nows IH]; intros t rb w t' rb' w' got; cbn [receive_calls]; [by intros [= _ <- _ _]|].
  intros ([[[t1 rb1] w1] res] & Hloop%receive_loop_length & E)%bind_Ret. cbv beta iota zeta in E.
  apply bind_Ret in E as ([[[t2 rb2] w2] rest] & Hrest%IH & [= _ <- _ _]). congruence.
Qed.

(** *** Small messages *)

Lemma small_batch_read n t rb w ms ds nows :
  caught_up n t → Forall small ms → len ms ≤ W → 1200 ≤ len rb ≤ isize_max →
  ds ≡ₚ imap (λ i m, reliable_datagram ch (n + 1 + Z.of_nat i) m.2) ms → pending peer sock ds w →
  2 * len ms ≤ len nows →
  ∃ t' rb' w', receive_calls nows t rb w = Ret (t', rb', w', (λ m, (ch, peer, m.2)) <$> ms) ∧
    caught_up (n + len ms) t'.
Proof.
  intros [Hn (s & msg & Hready & Hs & Hcur) Hgroups] Hms Hlen Hrb Hds Hin Hnows.
  set (body k := nth_body ms (k - n)).
  assert (imap (λ i m, reliable_datagram ch (n + 1 + Z.of_nat i) m.2) ms = datagram ch body <$> seqZ (n + 1) (len ms)) as Ewire.
  { apply list_eq. intros i. rewrite list_lookup_fmap, list_lookup_imap. destruct (ms !! i) as [m|] eqn:E.
    - pose proof (lookup_lt_Some _ _ _ E). rewrite lookup_seqZ_lt by lia. cbn [fmap option_fmap option_map].
      unfold datagram, body, nth_body. replace (Z.to_nat (n + 1 + Z.of_nat i - n - 1)) with i by lia. by rewrite E.
    - pose proof (lookup_ge_None_1 _ _ E). by rewrite lookup_seqZ_ge by lia. }
  rewrite Ewire in Hds. apply shuffled_indices in Hds as (ks & Hks & ->).
  assert (∀ k, k ∈ ks ↔ n < k ≤ n + len ms) as Hin_ks by (intros k; rewrite Hks, elem_of_seqZ; lia).
  assert (list_to_set ks ∪ first_messages n = first_messages (n + len ms)) as Eset.
  { apply set_eq. intros k. rewrite elem_of_union, elem_of_list_to_set, Hin_ks, !elem_of_first_messages. lia. }
  assert (is_frontier (first_messages (n + len ms)) (n + len ms)) as Hf.
  { split_and!; [lia| |]; intros *; rewrite elem_of_first_messages; lia. }
  assert (∀ k, 0 < len (body k) ≤ SOCKET_RECEIVE_BUFFER_LEN - 4) as Hbody by (intros k; by apply nth_body_fits).
  destruct (receive_calls_spec peer ch sock body Hch Hbody W (n + len ms) nows HW (first_messages n) t s n rb w ks Hready)
    as (t' & rb' & w' & Hrun & [(s' & Hready' & Hs') _ Hun]).
  - apply (serving_open msg _ _ _ _ _ Hs Hcur). intros i. rewrite elem_of_first_messages. lia.
  - split; [|lia]. intros k. pose proof (nth_body_small ms (k - n) Hms : 1 ≤ len (body k) < 1200). lia.
  - exact Hin.
  - apply (resent_on_time _ W n (n + len ms)); [| |lia|lia|lia|].
    + intros j Hj. by apply elem_of_first_messages.
    + intros j. rewrite elem_of_first_messages. lia.
    + apply Forall_forall. intros k Hk%Hin_ks. split; [lia|]. exact (small_datagram ch ms (k - n) Hms).
  - by rewrite Eset.
  - apply Permutation_length in Hks. rewrite length_seqZ in Hks. lia.
  - rewrite Eset in Hs'. exists t', rb', w'. split.
    + rewrite Hrun. do 2 f_equal. replace (n + len ms - n) with (len ms) by lia. apply list_eq. intros i.
      rewrite !list_lookup_fmap. destruct (ms !! i) as [m|] eqn:E.
      * pose proof (lookup_lt_Some _ _ _ E). rewrite lookup_seqZ_lt by lia. cbn [fmap option_fmap option_map].
        unfold body, nth_body. replace (Z.to_nat (n + 1 + Z.of_nat i - n - 1)) with i by lia. by rewrite E.
      * pose proof (lookup_ge_None_1 _ _ E). by rewrite lookup_seqZ_ge by lia.
    + split; [lia| |].
      * exists s', (datagram ch body). split_and!; [done|done|].
        eapply is_frontier_unique; [apply (tm_frontier _ _ _ (sv_timely _ _ _ _ _ Hs'))|done].
      * destruct (rd_channel _ _ _ _ _ Hready) as (c & Hc & _).
        destruct (ud_channel _ _ _ _ Hun c Hc) as (c' & Hc' & _ & Ef & _). intros c1. rewrite Hc'. intros [= <-].
        rewrite Ef. by apply Hgroups.
Qed.

(** *** A large message *)

Section large.
Context (n group : Z) (log : Z → bytes) (cs : list bytes) (f0 : Fragmentation.Fragmentation).
Context (Hn : 0 ≤ n) (Hok : group_ok ch group (len cs)) (Hne : cs ≠ []).
Context (Hcount : len cs ≤ Z.min W 1000) (Hsize : Forall (λ c, 0 < len c ≤ 1200) cs).
Context (Hfresh : Fragmentation.received f0 !! group = None).

Notation collecting := (collecting peer ch sock W n group log cs f0).
Notation fragments := (fragments ch n group cs).

Lemma collecting_bounds t S T j s : collecting t S T j s → n ≤ j ≤ Spec.cur s ∧ Spec.cur s ≤ n + len cs.
Proof.
  intros [Hready Hg]. destruct (rd_channel _ _ _ _ _ Hready) as (c & Hc & _). specialize (Hg c Hc).
  pose proof (gathering_cur W n ch group log cs f0 Hn _ _ _ _ _ Hg). pose proof (ga_read _ _ _ _ _ _ _ _ _ _ _ _ Hg).
  pose proof (sv_count _ _ _ _ _ (ga_serving _ _ _ _ _ _ _ _ _ _ _ _ Hg)). lia.
Qed.

Lemma collecting_complete t S T j s :
  collecting t S T j s → (∀ i, (i < length cs)%nat → i ∈ S) → Spec.cur s = n + len cs.
Proof.
  intros [Hready Hg] HS. destruct (rd_channel _ _ _ _ _ Hready) as (c & Hc & _).
  by eapply (gathering_complete W n ch group log cs f0 Hn); [apply Hg|].
Qed.

Lemma chunks_positive : (0 < length cs)%nat.
Proof. clear -Hne. destruct cs; [done|simpl; lia]. Qed.

(** After the message calls give nothing, and pass over the other fragments. *)
Lemma collecting_settles nows : ∀ t S j s rb w,
  collecting t S [] j s → (∀ i, (i < length cs)%nat → i ∈ S) → n + 1 ≤ j → pending peer sock [] w →
  ∃ t' s' j' w', receive_calls nows t rb w = Ret (t', rb, w', []) ∧ collecting t' S [] j' s' ∧
    (nows ≠ [] ∨ j = n + len cs → j' = n + len cs).
Proof.
  induction nows as [|now nows IH]; intros t S j s rb w Hco HS Hj Hin.
  { exists t, s, j, w. split_and!; [done|done|]. by intros [?|?]. }
  destruct (collecting_loop peer ch sock W n group log cs f0 HW Hn Hok Hcount Hsize Hfresh 100 now rb t S [] j s w [] Hco)
    as (t1 & s1 & w1 & taken & rest & E & Hloop & Hco1 & Hin1 & _); [done|done|].
  symmetry in E. apply app_nil in E as [-> ->]. cbn [reverse app] in Hco1.
  pose proof (collecting_bounds _ _ _ _ _ Hco1) as Hb1. pose proof (collecting_complete _ _ _ _ _ Hco1 HS) as Hc1.
  destruct (collecting_reads_nothing peer ch sock W n group log cs f0 Hok Hcount t1 S [] j s1 0%nat rb Hco1)
    as (t2 & s2 & Hread & Hco2 & Ecur); [apply not_elem_of_nil|apply chunks_positive|lia|].
  destruct (IH t2 S _ s2 rb w1 Hco2 HS) as (t' & s' & j' & w' & Hrest & Hco' & Hj'); [lia|done|].
  exists t', s', j', w'. split; [|split; [done|]].
  - cbn [receive_calls]. unfold receive_loop. by rewrite Hloop, Hread, !bind_ret_l, Hrest.
  - intros _. apply Hj'. right. lia.
Qed.

(** Calls take the fragments, which come once each, and give the message. *)
Lemma collecting_all nows : ∀ t T j s rb w order,
  collecting t T T j s → j < n + len cs → missing cs T → (∀ i, (i < length cs)%nat ↔ i ∈ T ∨ i ∈ order) →
  NoDup (T ++ order) → pending peer sock (fragments order) w → (length order < length nows)%nat → len (concat cs) ≤ len rb →
  ∃ t' rb' w' s' S', receive_calls nows t rb w = Ret (t', rb', w', [(ch, peer, concat cs)]) ∧
    collecting t' S' [] (n + len cs) s' ∧ (∀ i, (i < length cs)%nat → i ∈ S').
Proof.
  induction nows as [|now nows IH]; intros t T j s rb w order Hco Hj (i0 & Hi0 & HiT0) Hcover Hnd Hin Hlen Hrb;
    [simpl in Hlen; lia|].
  assert (order ≠ []) as Hord0.
  { intros ->. destruct (proj1 (Hcover i0) Hi0) as [?|Hi]; [done|by apply elem_of_nil in Hi]. }
  assert (Forall (λ i, (i < length cs)%nat) order) as Hord by (apply Forall_forall; intros i Hi; apply Hcover; by right).
  destruct (collecting_loop peer ch sock W n group log cs f0 HW Hn Hok Hcount Hsize Hfresh 100 now rb t T T j s w order Hco Hord Hin)
    as (t1 & s1 & w1 & taken & rest & -> & Hloop & Hco1 & Hin1 & Hend).
  assert (taken ≠ []) as Htaken by (intros ->; by destruct Hend as [->|?]).
  assert (∀ i, i ∈ reverse taken ++ T ↔ i ∈ taken ∨ i ∈ T) as HT1 by (intros i; by rewrite elem_of_app, elem_of_reverse).
  assert (NoDup ((reverse taken ++ T) ++ rest)) as Hnd1.
  { rewrite <-app_assoc. rewrite (reverse_Permutation taken). by rewrite (app_assoc taken T rest), (Permutation_app_comm taken T), <-app_assoc. }
  pose proof (collecting_bounds _ _ _ _ _ Hco1) as Hb1.
  cbn [receive_calls]. unfold receive_loop. rewrite Hloop. rewrite length_app in Hlen. cbn [length] in Hlen.
  destruct (missing_or_all W cs (reverse taken ++ T)) as [Hm|Hall].
  - pose proof Hm as (i & Hi & HiT).
    assert (Spec.cur s1 < n + len cs) as Hcur.
    { destruct (rd_channel _ _ _ _ _ (co_ready _ _ _ _ _ _ _ _ _ _ _ _ _ _ Hco1)) as (c & Hc & _).
      exact (gathering_missing W n ch group log cs f0 Hn _ _ _ _ _ i (co_channel _ _ _ _ _ _ _ _ _ _ _ _ _ _ Hco1 c Hc) HiT Hi). }
    destruct (collecting_reads_nothing peer ch sock W n group log cs f0 Hok Hcount t1 _ _ j s1 i rb Hco1 HiT Hi)
      as (t2 & s2 & Hread & Hco2 & Ecur); [lia|].
    destruct (IH t2 _ _ s2 rb w1 rest Hco2) as (t' & rb' & w' & s' & S' & Hrest & Hfin);
      [lia|exact Hm| |exact Hnd1|exact Hin1|destruct taken; [done|cbn [length] in Hlen; lia]|exact Hrb|].
    { intros i'. rewrite HT1, Hcover, elem_of_app. clear. tauto. }
    exists t', rb', w', s', S'. split; [|done]. by rewrite Hread, !bind_ret_l, Hrest.
  - assert (rest = []) as ->.
    { destruct rest as [|i rest]; [done|]. exfalso. apply NoDup_app in Hnd1 as (_ & Hdis & _). apply (Hdis i); [|left].
      apply Hall, Hcover. right. apply elem_of_app. right. left. }
    pose proof (collecting_complete _ _ _ _ _ Hco1 Hall) as Hcur.
    destruct (collecting_reads_message peer ch sock W n group log cs f0 Hn Hok Hcount Hsize Hfresh t1 _ _ j s1 rb Hco1)
      as (t2 & s2 & Hread & Hco2 & _); [lia|done|done|].
    destruct (collecting_settles nows t2 _ (j + 1) s2 (splice 0 (concat cs) rb) w1 Hco2 Hall)
      as (t' & s' & j' & w' & Hrest & Hco' & Hj'); [lia|done|].
    assert (j' = n + len cs) as -> by (apply Hj'; left; destruct nows; [destruct taken; [done|cbn [length] in Hlen; lia]|done]).
    exists t', (splice 0 (concat cs) rb), w', s', (reverse taken ++ T). split; [|done].
    rewrite Hread, !bind_ret_l. cbn [TachyonReceiveResult.length TachyonReceiveResult.channel TachyonReceiveResult.address].
    pose proof (message_length W ch group cs Hok Hcount Hsize Hne) as Hm. destruct (Z.ltb_spec 0 (len (concat cs))); [|lia].
    rewrite Hrest, bind_ret_l. cbn [app]. do 4 f_equal. rewrite splice_0. by rewrite take_app_length' by lia.
Qed.
End large.

Lemma partial_none channel group start count cs f0 f :
  partial channel group start count cs f0 f [] → Fragmentation.received f0 = ∅ → Fragmentation.received f = ∅.
Proof.
  intros [Hrest _ [[_ Hg]|[? _]]] E; [|done]. by rewrite <-E, <-Hrest, delete_id.
Qed.

Lemma large_batch_read n t rb w group cs ds nows :
  caught_up n t → group_ok ch group (len cs) → cs ≠ [] → len cs ≤ Z.min W 1000 → Forall (λ c, 0 < len c ≤ 1200) cs →
  ds ≡ₚ group_packets ch group (n + 1) (len cs) cs → pending peer sock ds w →
  (length cs < length nows)%nat → len (concat cs) ≤ len rb →
  ∃ t' rb' w', receive_calls nows t rb w = Ret (t', rb', w', [(ch, peer, concat cs)]) ∧ caught_up (n + len cs) t'.
Proof.
  intros [Hn (s & msg & Hready & Hs & Hcur) Hgroups] Hok Hne Hcount Hsize Hds Hin Hnows Hrb.
  destruct (rd_channel _ _ _ _ _ Hready) as (c & Hc & _ & _ & Hr). specialize (Hgroups c Hc). set (f0 := Channel.frag c).
  assert (Fragmentation.received f0 !! group = None) as Hfresh by (unfold f0; by rewrite Hgroups, lookup_empty).
  assert (gathering W n ch group msg cs f0 [] [] n s c) as Hg.
  { split; [done| | |lia|constructor|done].
    - rewrite (indices_nil W n ch group msg cs f0 HW Hn Hok Hcount Hsize Hfresh). apply (serving_open msg _ _ _ _ _ Hs Hcur). intros i. rewrite elem_of_first_messages. lia.
    - split; [by apply delete_id| |by left]. intros q p. fold f0. rewrite Hfresh. simpl. rewrite lookup_empty.
      split; [done|]. intros (i & ? & Hi & _). by apply elem_of_nil in Hi. }
  destruct (shuffled_positions _ _ Hds) as (order & Horder & ->). rewrite length_group_packets in Horder.
  assert (∀ i, i ∈ order ↔ (i < length cs)%nat) as Hord by (intros i; rewrite Horder, elem_of_seq; lia).
  pose proof (chunks_positive cs Hne) as Hpos.
  destruct (collecting_all n group msg cs f0 Hn Hok Hne Hcount Hsize Hfresh nows t [] n s rb w order)
    as (t' & rb' & w' & s' & S' & Hrun & [Hready' Hg'] & HS').
  - split; [done|]. intros c1 E. rewrite Hc in E. by injection E as <-.
  - lia.
  - exists 0%nat. split; [done|apply not_elem_of_nil].
  - intros i. rewrite Hord, elem_of_nil. tauto.
  - cbn [app]. rewrite Horder. apply NoDup_seq.
  - exact Hin.
  - apply Permutation_length in Horder. rewrite length_seq in Horder. lia.
  - exact Hrb.
  - exists t', rb', w'. split; [done|]. destruct (rd_channel _ _ _ _ _ Hready') as (c' & Hc' & _).
    specialize (Hg' c' Hc'). assert (indices n S' = first_messages (n + len cs)) as ES.
    { apply set_eq. intros k. rewrite (elem_of_indices W n cs), elem_of_first_messages. split.
      - intros [?|(i & Hi & ->)]; [lia|]. pose proof (ga_arrived _ _ _ _ _ _ _ _ _ _ _ _ Hg') as HS.
        rewrite Forall_forall in HS. specialize (HS i Hi). lia.
      - intros Hk. destruct (decide (k ≤ n)); [left; lia|right]. exists (Z.to_nat (k - n - 1)).
        split; [apply HS'|]; lia. }
    split; [lia| |].
    + exists s', (received_under n ch group msg cs). rewrite <-ES.
      split_and!; [done|apply Hg'|by eapply (gathering_complete W n ch group msg cs f0 Hn)].
    + intros c1. rewrite Hc'. intros [= <-]. by eapply partial_none; [apply Hg'|].
Qed.
End server.

(** ** The client between batches *)

Section client.
Context `{Callbacks} `{VarintOps} `{HashIter} `{!HashIterLaws _}.
Context (dest : NetworkAddress) (ch : Z).
Hypothesis Hch : is_u8 ch ∧ ch ≠ 0.
Implicit Types (t : Tachyon) (w : World) (n : Z).

(** A client that has sent [n] reliable messages and fragments on the channel. *)
Record sender n t : Prop := {
  sr_count : 0 ≤ n;
  sr_sending : ∃ log, sending dest ch t n log;
  sr_group c : channels t !! (dest, ch) = Some c → is_u16 (Fragmentation.next_group (Channel.frag c))
}.

Lemma small_batch_sent n t ms w :
  sender n t → Forall small ms →
  ∃ t', foldl_m (send_message dest ch) (t, w) ms =
      Ret (t', transmit_all (socket t) ((dest,.) <$> imap (λ i m, reliable_datagram ch (n + 1 + Z.of_nat i) m.2) ms) w) ∧
    sender (n + len ms) t'.
Proof.
  intros [Hn [log Ht] Hgroup] Hms.
  destruct (send_messages_spec dest ch Hch ms t n log w Ht Hn Hms) as (t' & log' & Hsend & Ht' & Honly & _).
  exists t'. split; [done|]. split; [lia|by exists log'|]. intros c' Hc'. destruct Ht as [_ _ (c & Hc & _)].
  destruct (sn_channel _ _ _ _ Honly c Hc) as (c1 & Hc1 & _ & _ & Ef). rewrite Hc' in Hc1. injection Hc1 as <-.
  rewrite Ef. by apply Hgroup.
Qed.

Lemma large_batch_sent n t (m : Z * bytes) w W :
  sender n t → 1 ≤ W ≤ 1022 → 1200 ≤ len m.2 < 1200 * Z.min W 1000 →
  ∃ t' group cs, foldl_m (send_message dest ch) (t, w) [m] =
      Ret (t', transmit_all (socket t) ((dest,.) <$> group_packets ch group (n + 1) (len cs) cs) w) ∧
    sender (n + len cs) t' ∧ group_ok ch group (len cs) ∧ cs ≠ [] ∧ len cs ≤ Z.min W 1000 ∧
    Forall (λ c, 0 < len c ≤ 1200) cs ∧ concat cs = m.2.
Proof.
  intros [Hn [log [Hcan Hsock (c & Hc & Hid & Hq & Hm)]] Hgroup] HW Hlen. specialize (Hgroup c Hc).
  destruct (send_large_spec t c ch dest m.2 (len m.2) m.1 n log w)
    as (t' & c' & result & group & Hok & (Et & Hid' & Hr' & Hgroup') & Hsend & _ & _ & Hconcat & Hsz & Hch' & log' & Hm' & _);
    rewrite ?Hid; try done; [by destruct Hch|apply Hch|lia|lia|].
  destruct (message_chunks m.2 (len m.2) (Z.min W 1000)) as (_ & _ & Hne & Hcount); [lia|lia|].
  rewrite Hid in *. set (cs := chunks 1200 (firstn (Z.to_nat (len m.2)) m.2)) in *.
  exists t', group, cs. split; [|split].
  - cbn [foldl_m]. unfold send_message. cbn [fst snd]. by rewrite Hsend.
  - split; [lia| |].
    + exists log'. rewrite Et. split; [done|done|]. exists c'. cbn [channels set]. rewrite lookup_insert_eq.
      split_and!; [done|congruence|by rewrite Hr'|done].
    + intros c1. rewrite Hch', lookup_insert_eq. by intros [= <-].
  - split_and!; try done. by rewrite Hconcat, Nat2Z.id, firstn_all.
Qed.

(** ** The conversation *)

(** The batches [bs] go from the client [t] to the server's application: for
    every batch, whatever order its datagrams take, enough calls of [receive_loop]
    return its messages; and so on with the batches after it. *)
Fixpoint carried (peer : NetworkAddress) (sock : UdpSocket) (bs : list batch) (t server : Tachyon) (rb : bytes) : Prop :=
  match bs with
  | [] => True
  | b :: bs' => ∀ w, ∃ t' ds,
      foldl_m (send_message dest ch) (t, w) (messages b) = Ret (t', transmit_all (socket t) ((dest,.) <$> ds) w) ∧
      ∀ ds' w2 nows, ds' ≡ₚ ds → pending peer sock ds' w2 → 2 * len ds + 1 ≤ len nows →
      ∃ server' rb' w3,
        receive_calls nows server rb w2 = Ret (server', rb', w3, (λ m, (ch, peer, m.2)) <$> messages b) ∧
        carried peer sock bs' t' server' rb'
  end.

Lemma carried_from peer sock W R bs : 1 ≤ W ≤ 1022 → 1200 ≤ R ≤ isize_max → Forall (batch_ok W R) bs →
  ∀ n t server rb, sender n t → caught_up peer ch sock W n server → len rb = R → carried peer sock bs t server rb.
Proof.
  intros HW HR. induction 1 as [|b bs Hb _ IH]; intros n t server rb Ht Hserver Hrb; [done|].
  cbn [carried]. intros w. destruct b as [ms|m]; cbn [messages batch_ok] in *.
  - destruct Hb as [Hms Hlen]. destruct (small_batch_sent n t ms w Ht Hms) as (t' & Hsend & Ht').
    exists t'. eexists. split; [exact Hsend|]. rewrite length_imap. intros ds' w2 nows Hds Hin Hnows.
    destruct (small_batch_read peer ch sock W (proj1 Hch) HW n server rb w2 ms ds' nows Hserver Hms Hlen)
      as (server' & rb' & w3 & Hrun & Hserver'); [lia|done|done|lia|].
    exists server', rb', w3. split; [done|]. apply (IH (n + len ms)); [done|done|].
    by rewrite (receive_calls_length _ _ _ _ _ _ _ _ Hrun).
  - destruct Hb as [Hlen Hfit].
    destruct (large_batch_sent n t m w W Ht HW Hlen) as (t' & group & cs & Hsend & Ht' & Hok & Hne & Hcount & Hsize & Hm).
    exists t'. eexists. split; [exact Hsend|]. rewrite length_group_packets. intros ds' w2 nows Hds Hin Hnows.
    destruct (large_batch_read peer ch sock W (proj1 Hch) HW n server rb w2 group cs ds' nows Hserver Hok Hne Hcount Hsize Hds Hin)
      as (server' & rb' & w3 & Hrun & Hserver'); [lia|rewrite Hm; lia|].
    exists server', rb', w3. split; [by rewrite Hrun, Hm|]. apply (IH (n + len cs)); [done|done|].
    by rewrite (receive_calls_length _ _ _ _ _ _ _ _ Hrun).
Qed.

(** C4: a conversation is read as it was sent.  A client sends any number of
    batches on an ordered channel, each up to a window of small messages or one
    message in fewer fragments than the window and than 1000; the datagrams of a
    batch reach the server in any order before the next batch is sent.  After
    every batch enough calls of [receive_loop] return exactly its messages, in
    order and each once, from the first batch to the last, however often the
    sequences and the fragment groups wrap. *)
Theorem conversations_are_read t log peer sock server W rb bs :
  sending dest ch t 0 log →
  (∀ c, channels t !! (dest, ch) = Some c → is_u16 (Fragmentation.next_group (Channel.frag c))) →
  1 ≤ W ≤ 1022 → ready peer ch sock server (Spec.init true W) →
  (∀ c, channels server !! (peer, ch) = Some c → Fragmentation.received (Channel.frag c) = ∅) →
  1200 ≤ len rb ≤ isize_max → Forall (batch_ok W (len rb)) bs →
  carried peer sock bs t server rb.
Proof.
  intros Ht Hgroup HW Hready Hgroups Hrb Hbs.
  apply (carried_from peer sock W (len rb) bs HW Hrb Hbs 0); [split; [done|by exists log|done]| |done].
  split; [done| |done]. exists (Spec.init true W), (λ _, []). split_and!; [done| |done].
  apply serving_init. lia.
Qed.
End client.
