(* ===== verification/tachyon_examples.v ===== *)
(** The theorems on a whole [Tachyon] at concrete inputs. *)

From S2P Require Import prelude network_address int_buffer header nack leb128 byte_buffer_pool receiver receiver_spec.
From S2P Require Import receiver_delivery receiver_refinement receiver_histories send_result tachyon_socket unreliable_sender trace_os.
From S2P Require Import send_buffer_manager fragmentation channel connection tachyon_state connection_impl tachyon.
From S2P Require Import receiver_typed channel_typed tachyon_typed connection_invariants channel_sending channel_receiving.
From S2P Require Import tachyon_admission tachyon_sending tachyon_delivery tachyon_conversation tachyon_short channel_fragments tachyon_fragments.
From S2P Require Import tachyon_recovery tachyon_session.

Import NetworkAddress Tachyon ConnectionImpl TachyonIo.

(** Callbacks that do nothing. *)
#[export] Instance no_callbacks : Callbacks := {|
  EventCallback := unit;
  call_event := λ _ _ _ w, w
|}.

Definition client_address : NetworkAddress := NetworkAddress.localhost 4598.

Definition server_socket : TachyonSocket.TachyonSocket :=
  TachyonSocket.mk (NetworkAddress.localhost 8001) true (Some tt : option UdpSocket) (32634 : StdRng).

Lemma new_receive_buffer : len (replicate (Z.to_nat SOCKET_RECEIVE_BUFFER_LEN) (0 : Z)) = SOCKET_RECEIVE_BUFFER_LEN.
Proof. rewrite length_replicate. apply Z2Nat.id. unfold SOCKET_RECEIVE_BUFFER_LEN. lia. Qed.

(** A server with one connection. *)
Definition example_server : Tachyon :=
  (create_connection ((Tachyon.create TachyonConfig.default 0) <| socket := server_socket |>)
     client_address Identity.default 0 example_world).1.

Lemma example_server_ready :
  ready client_address 1 tt example_server (Spec.init true RECEIVE_WINDOW_SIZE_DEFAULT).
Proof.
  split.
  - done.
  - done.
  - exact new_receive_buffer.
  - eexists. split; [reflexivity|done].
  - exists (Channel.create 1 client_address ChannelConfig.default_ordered). split_and!; [|done..|].
    + reflexivity.
    + apply refines_create. unfold RECEIVE_WINDOW_SIZE_DEFAULT. lia.
  - intros k c Hk _. revert k c Hk.
    apply (created_channels (λ c, Receiver.published (Channel.receiver c) = [])); [done|apply map_Forall_empty].
Qed.

(** Message 2 comes first, then message 1, then message 2 again. *)
Definition example_body (k : Z) : bytes := if k =? 1 then [104; 105] else [33].

Definition example_arrivals : list Z := [2; 1; 2].

Definition example_inbox : World :=
  mk_trace ((λ k, (datagram 1 example_body k, to_socket_addr client_address)) <$> example_arrivals) [].

Lemma example_in_order : on_time RECEIVE_WINDOW_SIZE_DEFAULT (datagram 1 example_body) ∅
  (arrive (datagram 1 example_body) example_arrivals).
Proof.
  unfold RECEIVE_WINDOW_SIZE_DEFAULT, example_arrivals. cbn [on_time arrive fmap list_fmap]. unfold isize_max.
  split_and!; try (simpl; lia); try reflexivity; try exact I; intros f Hf.
  - rewrite (is_frontier_unique _ f 0 Hf); [lia|]. split_and!; [lia|lia|set_solver].
  - rewrite (is_frontier_unique _ f 0 Hf); [lia|]. split_and!; [lia|lia|set_solver].
  - rewrite (is_frontier_unique _ f 2 Hf); [lia|]. split_and!; [lia| |set_solver].
    intros i Hi. assert (i = 1 ∨ i = 2) as [-> | ->] by lia; set_solver.
Qed.

Lemma example_datagram_fits k : len (datagram 1 example_body k) ≤ SOCKET_RECEIVE_BUFFER_LEN.
Proof.
  unfold datagram, reliable_datagram, SOCKET_RECEIVE_BUFFER_LEN, example_body.
  rewrite length_app, length_plain_bytes. destruct (k =? 1); simpl; lia.
Qed.

(** The datagrams [ds] of the client wait at the socket. *)
Lemma trace_pending ds : Forall (λ d : bytes, len d ≤ SOCKET_RECEIVE_BUFFER_LEN) ds →
  pending client_address (tt : UdpSocket) ds (mk_trace ((λ d, (d, to_socket_addr client_address)) <$> ds) []).
Proof.
  induction 1 as [|d ds Hd _ IH]; [by constructor|].
  apply (pending_cons _ _ _ _ _ _ (to_socket_addr client_address)) with (4 := IH); [|done|done].
  cbn [fmap list_fmap os_recv_from trace_os trace_recv incoming sent]. rewrite firstn_all2 by lia. done.
Qed.

Lemma trace_inbox body ks : (∀ k, len (datagram 1 body k) ≤ SOCKET_RECEIVE_BUFFER_LEN) →
  inbox client_address 1 tt body ks (mk_trace ((λ k, (datagram 1 body k, to_socket_addr client_address)) <$> ks) []).
Proof.
  intros Hfit. unfold inbox.
  assert ((λ k, (datagram 1 body k, to_socket_addr client_address)) <$> ks =
    (λ d, (d, to_socket_addr client_address)) <$> (datagram 1 body <$> ks)) as -> by (by rewrite <-list_fmap_compose).
  apply trace_pending, Forall_fmap, Forall_forall. intros k _. apply Hfit.
Qed.

Lemma example_inbox_waits : inbox client_address 1 tt example_body example_arrivals example_inbox.
Proof. apply trace_inbox, example_datagram_fits. Qed.

Lemma application_gets_messages_in_order_witness :
  ∃ t' rb' w', receive_calls [0; 0; 1; 2; 3] example_server (replicate 16 0) example_inbox =
    Ret (t', rb', w', [(1, client_address, [104; 105]); (1, client_address, [33])]).
Proof.
  apply (@application_gets_messages_in_order trace_os no_callbacks leb128 list_iter list_iter_laws client_address 1 tt example_body ltac:(lia) ltac:(intros k; unfold example_body, SOCKET_RECEIVE_BUFFER_LEN; destruct (k =? 1); simpl; lia)
    RECEIVE_WINDOW_SIZE_DEFAULT 2 [0; 0; 1; 2; 3] example_server (replicate 16 0) example_inbox example_arrivals).
  - unfold RECEIVE_WINDOW_SIZE_DEFAULT. lia.
  - exact example_server_ready.
  - split; [intros k; unfold example_body; destruct (k =? 1); simpl; lia|unfold isize_max; simpl; lia].
  - exact example_inbox_waits.
  - exact example_in_order.
  - split_and!; [lia| |set_solver]. intros i Hi. assert (i = 1 ∨ i = 2) as [-> | ->] by lia; set_solver.
  - simpl. lia.
Defined.


(** ** Identities *)

(** A server with two identities, the first of which is linked. *)
Definition identity_server : Tachyon :=
  (Tachyon.create TachyonConfig.default 0) <| socket := server_socket |>
    <| config := TachyonConfig.default <| TachyonConfig.use_identity := 1 |> |>
    <| identities := {[ 1 := 10; 2 := 20 ]} |>
    <| connections := {[ client_address := Connection.mk client_address (Identity.mk 1 10 0) 0 0 0 ]} |>
    <| identity_to_address_map := {[ 1 := client_address ]} |>.

Lemma identity_server_fields :
  connections identity_server = {[ client_address := Connection.mk client_address (Identity.mk 1 10 0) 0 0 0 ]} ∧
  identities identity_server = {[ 1 := 10; 2 := 20 ]} ∧
  identity_to_address_map identity_server = {[ 1 := client_address ]} ∧
  channels identity_server = ∅.
Proof. split_and!; reflexivity. Qed.

Lemma identity_server_ok : server_ok identity_server.
Proof.
  destruct identity_server_fields as (Ec & Ei & Em & Eh). split; rewrite ?Ec, ?Ei, ?Em, ?Eh.
  - by intros a conn [<- <-]%lookup_singleton_Some.
  - by intros a conn [<- <-]%lookup_singleton_Some _.
  - by intros a a' conn conn' [<- <-]%lookup_singleton_Some [<- <-]%lookup_singleton_Some.
  - by intros a conn [<- <-]%lookup_singleton_Some _.
  - intros a ch. rewrite lookup_empty. by intros [? ?].
Qed.

Lemma stale_identity_finds_another_peer_witness :
  ∃ t' w' conn', try_link_identity identity_server client_address 2 20 5 example_world = Ret (t', w', true) ∧
    get_connection_by_identity t' 1 = Some conn' ∧ Connection.address conn' = client_address ∧
    Connection.identity conn' = Identity.mk 2 20 0.
Proof.
  apply (stale_identity_finds_another_peer identity_server client_address
    (Connection.mk client_address (Identity.mk 1 10 0) 0 0 0) 1 2 20 5 example_world);
    [exact identity_server_ok|reflexivity|reflexivity|lia|lia|reflexivity].
Defined.

(** Two identities are set, the first links, is set anew, and its peer links again. *)
Lemma linked_peers_hold_the_session_witness :
  ∃ t w', foldl_m server_step (create_with_id TachyonConfig.default 7 0, example_world)
      [SetIdentity 1 10; SetIdentity 2 20; LinkRequest client_address 1 10 5; SetIdentity 1 11;
       LinkRequest client_address 1 10 6; LinkRequest client_address 1 11 7] = Ret (t, w') ∧
    (∀ a conn, connections t !! a = Some conn → Identity.id (Connection.identity conn) ≠ 0 →
      identities t !! Identity.id (Connection.identity conn) = Some (Identity.session_id (Connection.identity conn)) ∧
      get_connection_by_identity t (Identity.id (Connection.identity conn)) = Some conn).
Proof.
  destruct (@linked_peers_hold_the_session trace_os no_callbacks list_iter list_iter_laws TachyonConfig.default 7 0
    example_world [SetIdentity 1 10; SetIdentity 2 20; LinkRequest client_address 1 10 5; SetIdentity 1 11;
       LinkRequest client_address 1 10 6; LinkRequest client_address 1 11 7]) as (t & w' & Hrun & _ & Hheld & _).
  exists t, w'. split; [exact Hrun|exact Hheld].
Defined.

Definition example_datagrams (ds : list bytes) : World :=
  mk_trace ((λ d, (d, V4 10 0 0 1 7777)) <$> ds) [].

Lemma unlinked_peers_are_ignored_witness :
  ∃ rng dropped, receive_from_socket identity_server 3 (example_datagrams [[1; 1; 1; 0; 9]]) =
    Ret (identity_server <| socket := (socket identity_server) <| TachyonSocket.rng := rng |> |>
      <| socket_receive_buffer := splice 0 [1; 1; 1; 0; 9] (socket_receive_buffer identity_server) |>
      <| stats := (stats identity_server) <| TachyonStats.packets_dropped := dropped |> |>, example_datagrams [], Retry) ∧
    (TachyonConfig.drop_packet_chance (config identity_server) ≤ 0 →
      rng = TachyonSocket.rng (socket identity_server) ∧ dropped = TachyonStats.packets_dropped (stats identity_server)).
Proof.
  apply (@unlinked_peers_are_ignored trace_os no_callbacks leb128 list_iter trace_os_laws identity_server tt
    (example_datagrams [[1; 1; 1; 0; 9]]) (example_datagrams []) 1 [1; 1; 0; 9] (V4 10 0 0 1 7777) 3).
  - reflexivity.
  - reflexivity.
  - reflexivity.
  - change (socket_receive_buffer identity_server) with (replicate (Z.to_nat SOCKET_RECEIVE_BUFFER_LEN) 0).
    rewrite length_replicate. unfold SOCKET_RECEIVE_BUFFER_LEN. lia.
  - change (socket_receive_buffer identity_server) with (replicate (Z.to_nat SOCKET_RECEIVE_BUFFER_LEN) 0).
    rewrite length_replicate. done.
  - done.
  - done.
  - change (from_socket_addr (V4 10 0 0 1 7777)) with (NetworkAddress.mk 10 0 0 1 7777).
    destruct identity_server_fields as (-> & _). intros conn [E _]%lookup_singleton_Some. by injection E.
Defined.

Lemma empty_datagram_panics_witness :
  receive_loop example_server [] 3 (example_datagrams [[]]) = Panic SliceOutOfRange.
Proof.
  apply (@empty_datagram_panics trace_os no_callbacks leb128 list_iter example_server tt
    (example_datagrams [[]]) (example_datagrams []) (V4 10 0 0 1 7777) 3 []
    (replicate (Nat.pred (Z.to_nat SOCKET_RECEIVE_BUFFER_LEN)) 0)).
  - reflexivity.
  - reflexivity.
  - reflexivity.
  - reflexivity.
  - change (socket_receive_buffer example_server) with (replicate (Z.to_nat SOCKET_RECEIVE_BUFFER_LEN) 0).
    destruct (Z.to_nat SOCKET_RECEIVE_BUFFER_LEN) eqn:E; [|done]. unfold SOCKET_RECEIVE_BUFFER_LEN in E. lia.
  - rewrite length_replicate. unfold SOCKET_RECEIVE_BUFFER_LEN. lia.
  - reflexivity.
Defined.

(** ** Arbitrary datagrams *)

Lemma example_server_typed : tachyon_typed example_server.
Proof.
  apply (keeps_typed ((Tachyon.create TachyonConfig.default 0) <| socket := server_socket |>));
    [apply create_connection_keeps|]. apply tachyon_typed_socket, tachyon_typed_create.
Qed.

(** A fragment with wild numbers. *)
Definition example_fragment : bytes := [2; 1; 255; 255; 7; 0; 254; 255; 255; 255; 9].

Lemma datagrams_are_survived_witness :
  ∃ t' w' res, receive_from_socket example_server 3 (example_datagrams [example_fragment]) = Ret (t', w', res) ∧
    tachyon_typed t'.
Proof.
  assert (next_datagram example_server (example_datagrams [example_fragment]) = Some example_fragment) as Enext.
  { assert (next_datagram example_server (example_datagrams [example_fragment]) =
      fst <$> (trace_recv (len (socket_receive_buffer example_server)) (example_datagrams [example_fragment])).2) as ->
      by reflexivity.
    rewrite (tt_buffer _ example_server_typed).
    transitivity (Some (firstn (Z.to_nat SOCKET_RECEIVE_BUFFER_LEN) example_fragment)); [reflexivity|].
    by rewrite firstn_all2 by (unfold SOCKET_RECEIVE_BUFFER_LEN; simpl; lia). }
  assert (∀ d, next_datagram example_server (example_datagrams [example_fragment]) = Some d → well_sized d) as Hin.
  { rewrite Enext. intros d [= <-]. split; [repeat (apply Forall_cons_2; [lia|]); apply Forall_nil_2|].
    do 2 eexists. split; [done|]. unfold header_size. simpl. lia. }
  pose proof (@datagrams_are_survived trace_os no_callbacks leb128 list_iter trace_os_laws leb128_varint example_server 3
    (example_datagrams [example_fragment]) example_server_typed Hin) as Hone.
  destruct (receive_from_socket _ _ _) as [[[t' w'] res]|why].
  - exists t', w', res. split; [reflexivity|exact Hone].
  - destruct Hone as (rest & E & _). rewrite Enext in E. discriminate E.
Defined.

Lemma reading_is_survived_witness :
  (∃ t' rb' res, receive_published_all_channels example_server [1; 2; 3] = Ret (t', rb', res) ∧
    tachyon_typed t' ∧ length rb' = 3%nat) ∧
  (∃ t' rb' l, receive_published_channel_id example_server [1; 2; 3] client_address 1 = Ret (t', rb', l) ∧
    tachyon_typed t' ∧ length rb' = 3%nat).
Proof.
  apply (@reading_is_survived trace_os no_callbacks list_iter list_iter_laws example_server [1; 2; 3] client_address 1
    example_server_typed).
  apply (created_channels (λ c, fits c [1; 2; 3])); [|apply map_Forall_empty]. intros i cfg.
  split; [unfold isize_max; simpl; lia|constructor|]. intros g map Hg. change ((∅ : gmap Z (gmap Z bytes)) !! g = Some map) in Hg.
  by rewrite lookup_empty in Hg.
Defined.

Lemma ready_buffer `{Os, Callbacks} peer ch sock t s buf :
  ready peer ch sock t s → len buf = SOCKET_RECEIVE_BUFFER_LEN →
  ready peer ch sock (t <| socket_receive_buffer := buf |>) s.
Proof. intros [? ? ? ? ? ?] Hbuf. by split. Qed.

(** [example_server] after a datagram that left channel 1 and sequence 1 in the
    receive buffer. *)
Definition short_server : Tachyon :=
  example_server <| socket_receive_buffer := [0; 1; 1; 0] ++ drop 4 (socket_receive_buffer example_server) |>.

Lemma short_server_ready :
  ready client_address 1 tt short_server (Spec.init true RECEIVE_WINDOW_SIZE_DEFAULT).
Proof.
  apply ready_buffer; [exact example_server_ready|].
  pose proof (rd_buffer _ _ _ _ _ example_server_ready) as Hbuf. revert Hbuf.
  generalize (socket_receive_buffer example_server). intros buf. unfold SOCKET_RECEIVE_BUFFER_LEN.
  rewrite length_app, length_drop. simpl. lia.
Qed.

Lemma short_server_buffer :
  splice 0 [MESSAGE_TYPE_RELIABLE] (socket_receive_buffer short_server) =
  plain_bytes MESSAGE_TYPE_RELIABLE 1 1 ++ drop 4 (socket_receive_buffer example_server).
Proof.
  assert (∀ t buf, splice 0 [MESSAGE_TYPE_RELIABLE]
      (socket_receive_buffer (t <| socket_receive_buffer := [0; 1; 1; 0] ++ buf |>)) =
    plain_bytes MESSAGE_TYPE_RELIABLE 1 1 ++ buf) as Hbuf by done.
  apply Hbuf.
Qed.

Lemma short_datagram_panics_witness :
  receive_loop short_server [] 3 (mk_trace [([MESSAGE_TYPE_RELIABLE], to_socket_addr client_address)] []) =
    Panic SliceOutOfRange.
Proof.
  apply (@short_datagram_panics trace_os no_callbacks leb128 list_iter client_address 1 tt short_server
    (Spec.init true RECEIVE_WINDOW_SIZE_DEFAULT) RECEIVE_WINDOW_SIZE_DEFAULT ∅ (λ _, []) [] 3 _
    (mk_trace [] []) (to_socket_addr client_address) (drop 4 (socket_receive_buffer example_server))).
  - lia.
  - unfold RECEIVE_WINDOW_SIZE_DEFAULT. lia.
  - exact short_server_ready.
  - apply serving_init. unfold RECEIVE_WINDOW_SIZE_DEFAULT. lia.
  - reflexivity.
  - reflexivity.
  - exact short_server_buffer.
Defined.

(** ** Sending *)

Lemma large_message_is_sent_in_fragments_witness :
  ∃ t' c' result group parts,
    send_reliable example_server 1 client_address (replicate 3000 7) 2500 4 example_world =
      Ret (t', transmit_all server_socket
                 ((client_address,.) <$> group_packets 1 group 1 (len parts) parts) example_world, result) ∧
    TachyonSendResult.error result = 0 ∧
    Header.message_type (TachyonSendResult.header result) = MESSAGE_TYPE_FRAGMENT ∧
    concat parts = firstn (Z.to_nat 2500) (replicate 3000 7) ∧ Forall (λ p, 0 < len p ≤ 1200) parts ∧
    channels t' = <[(client_address, 1) := c']> (channels example_server) ∧
    ∃ log', sends (Channel.send_buffers c') (0 + len parts) log' ∧ (∀ k, k ≤ 0 → log' k = []) ∧
      ∀ i p, group_packets 1 group 1 (len parts) parts !! i = Some p → log' (0 + 1 + Z.of_nat i) = p.
Proof.
  apply (large_message_is_sent_in_fragments example_server
    (Channel.create 1 client_address ChannelConfig.default_ordered) 1 client_address (replicate 3000 7) 2500 4
    0 (λ _, []) example_world).
  - reflexivity.
  - lia.
  - by eexists.
  - reflexivity.
  - change (Channel.id _) with 1. lia.
  - change (Fragmentation.next_group _) with 1. lia.
  - apply manages_default.
  - lia.
  - rewrite length_replicate. lia.
  - lia.
Defined.

(** [example_server] before it has received anything, with a short buffer. *)
Definition small_server : Tachyon := example_server <| socket_receive_buffer := [] |>.

Lemma small_server_sends : returns (send_reliable small_server 1 client_address [104; 105] 2 4 example_world).
Proof.
  assert (match send_reliable small_server 1 client_address [104; 105] 2 4 example_world with
          | Ret _ => true | Panic _ => false end = true) as Hret by (vm_compute; reflexivity).
  destruct (send_reliable _ _ _ _ _ _ _) as [r|]; [by exists r|discriminate].
Qed.

(** Channel 3 does not exist; on channel 1 the message is sent, and channel 2
    of the same peer stays as it was. *)
Lemma refused_messages_change_nothing_witness :
  send_reliable small_server 3 client_address [104; 105] 2 4 example_world =
    Ret (small_server, example_world, TachyonSendResult.mk 0 SEND_ERROR_CHANNEL Header.default) ∧
  ∃ t' w' result, send_reliable small_server 1 client_address [104; 105] 2 4 example_world = Ret (t', w', result) ∧
    TachyonSendResult.error result ∈ [0; SEND_ERROR_UNKNOWN; SEND_ERROR_FRAGMENT] ∧
    channels t' !! (client_address, 2) = channels small_server !! (client_address, 2).
Proof.
  split.
  - exact (refused_messages_change_nothing small_server 3 client_address [104; 105] 2 4 example_world).
  - destruct small_server_sends as [[[t' w'] result] E].
    exists t', w', result.
    destruct (refused_messages_change_nothing small_server 1 client_address [104; 105] 2 4 example_world t' w' result E)
      as (Herr & c & ->).
    split; [done|]. split; [done|]. cbn [channels set]. apply lookup_insert_ne. congruence.
Defined.

(** ** Reading *)

(** A channel that has received a NONE packet and a message. *)
Definition example_packets : list event :=
  [Packet 1 [MESSAGE_TYPE_NONE; 1; 1; 0] 4; Packet 2 (reliable_datagram 1 2 [104; 105]) 6].

Lemma published_messages_are_read_witness :
  ∃ c c', Channel.address c = client_address ∧
    Channel.receive_published c [9; 9; 9] = Ret (c', [104; 105; 9], (2, client_address)) ∧ reads c c'.
Proof.
  destruct (run_refines example_packets (Receiver.create true 512) (Spec.init true 512) []
    (refines_create true 512 ltac:(lia))) as (r & _ & Hr).
  { cbn [within_reach example_packets]. unfold isize_max. split_and!; try (vm_compute; done); try (simpl; lia); done. }
  set (c := (Channel.create 1 client_address ChannelConfig.default_ordered) <| Channel.receiver := r |>).
  destruct (published_messages_are_read c _ [9; 9; 9] Hr) as [Hsome _]; [unfold isize_max; simpl; lia|].
  destruct (Hsome [(1, [MESSAGE_TYPE_NONE; 1; 1; 0])] 2 1 2 [104; 105] []) as (c' & Hpub & Hreads & _).
  - vm_compute. reflexivity.
  - constructor; [left; by exists [1; 1; 0]|constructor].
  - simpl. lia.
  - simpl. lia.
  - simpl. lia.
  - exists c, c'. split; [reflexivity|]. split; [exact Hpub|exact Hreads].
Defined.

(** ** From one end to the other *)

Definition example_messages : list (Z * bytes) := [(5, [104; 105]); (6, [33])].

Lemma small_server_sending : sending client_address 1 small_server 0 (λ _, []).
Proof.
  split; [reflexivity|by eexists|]. exists (Channel.create 1 client_address ChannelConfig.default_ordered).
  split_and!; [reflexivity|reflexivity|reflexivity|apply manages_default].
Qed.

Lemma example_frontier_two : is_frontier (list_to_set example_arrivals) (Z.of_nat 2).
Proof. split_and!; [lia| |set_solver]. intros i Hi. assert (i = 1 ∨ i = 2) as [-> | ->] by lia; set_solver. Qed.

(** The second message arrives before the first, and a second time. *)
Lemma what_a_client_sends_is_read_witness :
  let body := nth_body example_messages in
  ∃ t' w', foldl_m (send_message client_address 1) (small_server, example_world) example_messages = Ret (t', w') ∧
    ∃ server' rb' w3, receive_calls [0; 0; 1; 2; 3] example_server (replicate 1200 0)
        (mk_trace ((λ k, (datagram 1 body k, to_socket_addr client_address)) <$> example_arrivals) []) =
      Ret (server', rb', w3, [(1, client_address, [104; 105]); (1, client_address, [33])]).
Proof.
  intros body.
  destruct (what_a_client_sends_is_read client_address 1 ltac:(lia) true small_server (λ _, []) example_messages example_world
    RECEIVE_WINDOW_SIZE_DEFAULT small_server_sending ltac:(unfold small; repeat constructor; simpl; lia)
    ltac:(unfold RECEIVE_WINDOW_SIZE_DEFAULT; lia) ltac:(unfold RECEIVE_WINDOW_SIZE_DEFAULT; simpl; lia))
    as (t' & log' & Hsend & _ & Hread).
  do 2 eexists. split; [exact Hsend|].
  apply (Hread client_address tt example_server (replicate 1200 0) _ example_arrivals 2%nat [0; 0; 1; 2; 3]).
  - exact example_server_ready.
  - rewrite length_replicate. unfold isize_max. lia.
  - unfold example_arrivals. repeat constructor; simpl; lia.
  - apply trace_inbox. intros k. unfold datagram, reliable_datagram, SOCKET_RECEIVE_BUFFER_LEN.
    rewrite length_app, length_plain_bytes. assert (Forall small example_messages) as Hsmall
      by (unfold small; repeat constructor; simpl; lia).
    pose proof (nth_body_small example_messages k Hsmall : 1 ≤ len (body k) < 1200). lia.
  - exact example_frontier_two.
  - simpl. lia.
Defined.

(** A message of 2500 bytes: the last fragment comes first, and it and the first
    one come again. *)
Definition fragment_arrivals : list nat := [2; 0; 2]%nat ++ 1%nat :: [0]%nat.


(** ** Recovery *)

(** A client that is connected to a server, as [connect] leaves it. *)
Definition example_client : Tachyon :=
  (create_connection ((Tachyon.create TachyonConfig.default 0) <| socket := example_socket |>)
     NetworkAddress.default Identity.default 0 example_world).1.

Lemma example_channels_idle t a k c :
  channel_config t = channel_config (Tachyon.create TachyonConfig.default 0) → channels t = ∅ →
  channels (create_configured_channels t a) !! k = Some c → idle c.
Proof.
  intros Econf Echan. revert k c. apply (configured_channels idle); [|rewrite Echan; apply map_Forall_empty].
  apply Forall_forall. intros [i cfg]. unfold hash_iter, list_iter. rewrite elem_of_map_to_list, Econf. intros Hi.
  change (<[2 := ChannelConfig.default_unordered]> (<[1 := ChannelConfig.default_ordered]> (∅ : gmap Z _)) !! i = Some cfg) in Hi.
  assert (ChannelConfig.receive_window_size cfg = 512) as Ew.
  { rewrite !lookup_insert_Some, lookup_empty in Hi. by destruct Hi as [[_ <-]|[_ [[_ <-]|[_ ?]]]]. }
  split; [|done]. exists (Spec.init (ChannelConfig.is_ordered cfg) (ChannelConfig.receive_window_size cfg)).
  split; [apply refines_create; rewrite Ew; lia|done].
Qed.

Lemma example_client_hearing : hearing tt example_client.
Proof.
  split.
  - done.
  - done.
  - exact new_receive_buffer.
  - by left.
  - intros k c. by apply example_channels_idle.
Qed.

Lemma example_client_sending : sending NetworkAddress.default 1 example_client 0 (λ _, []).
Proof.
  split; [reflexivity|by eexists|]. exists (Channel.create 1 NetworkAddress.default ChannelConfig.default_ordered).
  split_and!; [reflexivity|reflexivity|reflexivity|apply manages_default].
Qed.

Lemma example_server_asking : asking client_address 1 example_server.
Proof.
  split.
  - intros c Hc. change (Some (Channel.create 1 client_address ChannelConfig.default_ordered) = Some c) in Hc.
    injection Hc as <-. done.
  - intros k c Hk _. revert Hk. by apply example_channels_idle.
Qed.

Definition three_messages : list (Z * bytes) := [(5, [104; 105]); (6, [33]); (7, [63])].

Lemma three_messages_small : Forall small three_messages.
Proof. unfold small. repeat constructor; simpl; lia. Qed.

Lemma three_messages_wait ks :
  inbox client_address 1 tt (nth_body three_messages) ks
    (mk_trace ((λ k, (datagram 1 (nth_body three_messages) k, to_socket_addr client_address)) <$> ks) []).
Proof.
  apply trace_inbox. intros k. pose proof (nth_body_small three_messages k three_messages_small) as Hk.
  unfold datagram, reliable_datagram, SOCKET_RECEIVE_BUFFER_LEN. rewrite length_app, length_plain_bytes. lia.
Qed.

Lemma only_two (lost : list Z) : NoDup lost → (∀ k, k ∈ lost ↔ 1 < k < 3 ∧ k ∉ [3; 1]) → lost = [2].
Proof.
  intros Hnd Hlost. symmetry. apply Permutation_singleton_l, NoDup_Permutation; [apply NoDup_singleton|done|].
  intros k. rewrite Hlost, !not_elem_of_cons, list_elem_of_singleton. split; [|lia].
  intros ->. split_and!; [lia|lia|lia|lia|apply not_elem_of_nil].
Qed.

Lemma trace_recv_front n d a : len d ≤ n →
  @os_recv trace_os tt n (mk_trace [(d, a)] []) = (mk_trace [] [], Some d).
Proof. intros Hd. cbn. by rewrite firstn_all2 by lia. Qed.

Lemma trace_heard d a : len d ≤ SOCKET_RECEIVE_BUFFER_LEN →
  @heard trace_os tt [d] (mk_trace [(d, a)] []) example_world.
Proof. intros Hd. apply (heard_cons _ _ _ _ _ _ (trace_recv_front _ d a Hd) Hd). by constructor. Qed.

Lemma one_of_three : is_frontier (list_to_set [3; 1]) (Z.of_nat 1).
Proof.
  split_and!; [lia| |].
  - intros i Hi. assert (i = 1) as -> by lia. apply elem_of_list_to_set. right. left.
  - rewrite elem_of_list_to_set, !elem_of_cons, elem_of_nil. lia.
Qed.

Lemma three_is_newest : is_newest (list_to_set [3; 1]) (Z.of_nat 3).
Proof.
  split_and!; [lia| |].
  - intros i. rewrite elem_of_list_to_set, !elem_of_cons, elem_of_nil. lia.
  - intros _. apply elem_of_list_to_set. left.
Qed.

(** The third message arrives, then the first; the second is lost. *)
Lemma lost_messages_are_read_witness :
  let body := nth_body three_messages in
  let from_client ks := mk_trace ((λ k, (datagram 1 body k, to_socket_addr client_address)) <$> ks) [] in
  ∃ t1 w1 server1 rb1 w2 server2 nack t2 t3 server3 rb3 w3,
    foldl_m (send_message NetworkAddress.default 1) (example_client, example_world) three_messages = Ret (t1, w1) ∧
    receive_calls [0; 0; 1] example_server (replicate 1200 0) (from_client [3; 1]) =
      Ret (server1, rb1, w2, [(1, client_address, [104; 105])]) ∧
    update server1 [] 2 example_world = Ret (server2, [], transmit server_socket (client_address, nack) example_world) ∧
    receive_loop t1 [] 3 (mk_trace [(nack, V4 127 0 0 1 8001)] []) =
      Ret (t2, [], example_world, TachyonReceiveResult.default) ∧
    update t2 [] 4 example_world = Ret (t3, [], transmit example_socket (NetworkAddress.default, datagram 1 body 2) example_world) ∧
    receive_calls [5; 5; 5] server2 rb1 (from_client [2]) =
      Ret (server3, rb3, w3, [(1, client_address, [33]); (1, client_address, [63])]).
Proof.
  intros body from_client.
  destruct (lost_messages_are_read 1 ltac:(lia) true example_client (λ _, []) three_messages example_world
    RECEIVE_WINDOW_SIZE_DEFAULT tt example_client_sending example_client_hearing three_messages_small
    ltac:(unfold RECEIVE_WINDOW_SIZE_DEFAULT; lia) ltac:(unfold RECEIVE_WINDOW_SIZE_DEFAULT; simpl; lia))
    as (t1 & Hsend & Hrest).
  destruct (Hrest client_address tt example_server (replicate 1200 0) (from_client [3; 1]) [3; 1] 1%nat 3%nat [0; 0; 1])
    as (server1 & rb1 & w2 & server2 & nack & t2 & t3 & lost & Hread & Hask & Hnack & Hhear & Hnd & Hlost & Hresend & Hback).
  - exact example_server_ready.
  - exact example_server_asking.
  - rewrite length_replicate. unfold isize_max. lia.
  - repeat constructor; simpl; lia.
  - apply three_messages_wait.
  - exact one_of_three.
  - exact three_is_newest.
  - lia.
  - unfold RECEIVE_WINDOW_SIZE_DEFAULT. vm_compute. discriminate.
  - simpl. lia.
  - pose proof (only_two lost Hnd Hlost) as ->.
    destruct (Hback [2] (from_client [2]) [5; 5; 5]) as (server3 & rb3 & w3 & Hrun);
      [done|repeat constructor; lia|apply three_messages_wait|simpl; lia|].
    do 2 eexists. exists server1, rb1, w2, server2, nack, t2, t3, server3, rb3, w3.
    split; [exact Hsend|]. split; [exact Hread|]. split; [apply Hask|]. split; [|split; [apply Hresend|exact Hrun]].
    apply Hhear, trace_heard. unfold SOCKET_RECEIVE_BUFFER_LEN. lia.
Defined.

(** ** A conversation *)

Definition example_batches : list batch := [Small three_messages; Large (8, replicate 2500 7); Small [(9, [1; 2])]].

Lemma conversations_are_read_witness :
  carried NetworkAddress.default 1 client_address tt example_batches example_client example_server (replicate 3000 0).
Proof.
  apply (conversations_are_read NetworkAddress.default 1 ltac:(lia) example_client (λ _, []) client_address tt example_server
    RECEIVE_WINDOW_SIZE_DEFAULT).
  - exact example_client_sending.
  - intros c Hc. change (Some (Channel.create 1 NetworkAddress.default ChannelConfig.default_ordered) = Some c) in Hc.
    injection Hc as <-. change (Fragmentation.next_group _) with 1. lia.
  - unfold RECEIVE_WINDOW_SIZE_DEFAULT. lia.
  - exact example_server_ready.
  - intros c Hc. change (Some (Channel.create 1 client_address ChannelConfig.default_ordered) = Some c) in Hc.
    injection Hc as <-. reflexivity.
  - rewrite length_replicate. unfold isize_max. lia.
  - rewrite length_replicate. unfold RECEIVE_WINDOW_SIZE_DEFAULT.
    repeat constructor; cbn [fst snd]; rewrite ?length_replicate; unfold small; simpl; lia.
Defined.
