(* ===== verification/pool_unreliable_sender.v ===== *)
(** Unreliable messages on all servers of a pool, from another thread
    ([src/tachyon/pool_unreliable_sender.rs]).

    [build] clones the socket of every server and copies the connection maps; the
    sends after that do not use the pool. *)

From S2P Require Import prelude network_address int_buffer header nack send_result tachyon_socket unreliable_sender.
From S2P Require Import channel connection tachyon_state connection_impl tachyon pool_state.

Module PoolUnreliableSender.
Import NetworkAddress Tachyon.

Section sender.
Context `{Callbacks} `{VarintOps} `{HashIter} `{ArrayQueueOps} `{CountdownOps}.

Record PoolUnreliableSender := mk {
  identity_to_conn_map : gmap Z Connection.Connection;
  address_to_conn_map : gmap NetworkAddress Connection.Connection;
  senders : gmap Z UnreliableSender.UnreliableSender
}.

#[global] Instance eta_PoolUnreliableSender : Eta PoolUnreliableSender := λ s,
  mk (identity_to_conn_map s) (address_to_conn_map s) (senders s).

Definition create : PoolUnreliableSender := mk ∅ ∅ ∅.

(** The sender with the given key sends. *)
Definition send_on (self : PoolUnreliableSender) (key : Z) (sender : UnreliableSender.UnreliableSender)
    (address : NetworkAddress) (data : bytes) (length : Z) (w : World) :
    outcome (PoolUnreliableSender * World * TachyonSendResult.TachyonSendResult) :=
  '(sender, w, result) ← UnreliableSender.send sender address data (as_u64 length) w;
  Ret (self <| senders := <[key := sender]> (senders self) |>, w, result).

Definition send_to_identity (self : PoolUnreliableSender) (id : Z) (data : bytes) (length : Z) (w : World) :
    outcome (PoolUnreliableSender * World * TachyonSendResult.TachyonSendResult) :=
  match identity_to_conn_map self !! id with
  | Some conn =>
      match senders self !! Connection.tachyon_id conn with
      | Some sender => send_on self (Connection.tachyon_id conn) sender (Connection.address conn) data length w
      | None => Ret (self, w, TachyonSendResult.default)
      end
  | None => Ret (self, w, TachyonSendResult.default)
  end.

Definition send_to_address (self : PoolUnreliableSender) (address : NetworkAddress) (data : bytes) (length : Z)
    (w : World) : outcome (PoolUnreliableSender * World * TachyonSendResult.TachyonSendResult) :=
  match address_to_conn_map self !! address with
  | Some conn =>
      match senders self !! Connection.tachyon_id conn with
      | Some sender => send_on self (Connection.tachyon_id conn) sender address data length w
      | None => Ret (self, w, TachyonSendResult.default)
      end
  | None => Ret (self, w, TachyonSendResult.default)
  end.

Definition send_to_target (self : PoolUnreliableSender) (target : SendTarget.SendTarget) (data : bytes) (length : Z)
    (w : World) : outcome (PoolUnreliableSender * World * TachyonSendResult.TachyonSendResult) :=
  if 0 <? SendTarget.identity_id target
  then send_to_identity self (SendTarget.identity_id target) data length w
  else send_to_address self (SendTarget.address target) data length w.

Definition build_connection (self : PoolUnreliableSender) (conn : Connection.Connection) : PoolUnreliableSender :=
  let self := self <| address_to_conn_map := <[Connection.address conn := conn]> (address_to_conn_map self) |> in
  if 0 <? Identity.id (Connection.identity conn) then
    self <| identity_to_conn_map := <[Identity.id (Connection.identity conn) := conn]> (identity_to_conn_map self) |>
  else self.

Definition build_server (st : PoolUnreliableSender * World) (server : Tachyon) : outcome (PoolUnreliableSender * World) :=
  let '(self, w) := st in
  '(self, w) ←
    (if opt_is_some (senders self !! Tachyon.id server) then Ret (self, w)
     else
       '(w, created) ← create_unreliable_sender server w;
       match created with
       | Some sender => Ret (self <| senders := <[Tachyon.id server := sender]> (senders self) |>, w)
       | None => Ret (self, w)
       end);
  Ret (foldl (λ self conn, build_connection self conn.2) self (hash_iter (connections server)), w).

Definition build (self : PoolUnreliableSender) (pool : Pool.Pool) (w : World) : outcome (PoolUnreliableSender * World) :=
  let self := self <| address_to_conn_map := ∅ |> in
  let self := self <| identity_to_conn_map := ∅ |> in
  let self := self <| senders := ∅ |> in
  foldl_m (λ st server, build_server st server.2) (self, w) (hash_iter (Pool.servers pool)).

End sender.
End PoolUnreliableSender.
