(* ===== verification/tachyon_evolution.v ===== *)
(** What every operation keeps of a [Tachyon].

    Its id, its socket once it has one, and that a connection is filed under its
    own address and carries the id of the [Tachyon]: what a pool relies on when it
    looks a server up.  [evolves] is a preorder that every operation is in. *)

From S2P Require Import prelude network_address int_buffer header nack byte_buffer_pool send_buffer_manager receiver fragmentation.
From S2P Require Import send_result tachyon_socket unreliable_sender channel connection tachyon_state connection_impl tachyon.

Import Tachyon ConnectionImpl TachyonIo.

Section evolution.
Context `{Callbacks} `{VarintOps} `{HashIter}.
Implicit Types (t : Tachyon) (w : World).

(** ** The preorder *)

Definition filed t : Prop := ∀ a conn, connections t !! a = Some conn →
  Connection.address conn = a ∧ Connection.tachyon_id conn = id t.

Definition has_socket t : Prop := is_Some (TachyonSocket.socket (socket t)).

Record evolves t t' : Prop := {
  ev_id : id t' = id t;
  ev_socket : has_socket t → has_socket t';
  ev_filed : filed t → filed t'
}.

#[export] Instance evolves_preorder : PreOrder evolves.
Proof.
  split; [by split|]. intros t1 t2 t3 [I1 S1 F1] [I2 S2 F2]. split; [congruence|auto..].
Qed.

(** Connections of [t'] are new ones of its own or those of [t], with other times. *)
Lemma evolves_connections t t' :
  id t' = id t → (has_socket t → has_socket t') →
  (∀ a conn', connections t' !! a = Some conn' →
    Connection.address conn' = a ∧ Connection.tachyon_id conn' = id t ∨
    ∃ conn, connections t !! a = Some conn ∧ Connection.address conn' = Connection.address conn ∧
      Connection.tachyon_id conn' = Connection.tachyon_id conn) → evolves t t'.
Proof.
  intros Hid Hs Hc. split; [done..|]. intros Hf a conn' Ha.
  destruct (Hc a conn' Ha) as [[? ?]|(conn & Hconn & -> & ->)]; [by rewrite Hid|]. rewrite Hid. by apply Hf.
Qed.

Lemma evolves_same t t' :
  id t' = id t → (has_socket t → has_socket t') → connections t' = connections t → evolves t t'.
Proof. intros Hid Hs Hc. apply evolves_connections; [done..|]. rewrite Hc. eauto. Qed.

Lemma evolves_touch t a conn r : connections t !! a = Some conn →
  evolves t (t <| connections := <[a := conn <| Connection.received_at := r |>]> (connections t) |>).
Proof.
  intros Ha. apply evolves_connections; [done..|]. cbn [connections set]. intros a' conn' [[<- <-]|[_ ?]]%lookup_insert_Some; right; eauto.
Qed.

(** An update of fields that [evolves] does not speak of. *)
Ltac evolve := first [reflexivity | by apply evolves_same | eassumption | by apply evolves_touch].

(** ** Connections *)

Lemma create_connection_evolves t a identity now w : evolves t (create_connection t a identity now w).1.
Proof.
  apply evolves_connections; [done..|]. unfold create_connection. cbn.
  intros a' conn' [[<- <-]|[_ ?]]%lookup_insert_Some; [by left|right; eauto].
Qed.

Lemma remove_connection_evolves t a w : evolves t (remove_connection t a w).1.
Proof.
  apply evolves_connections; [done..|]. cbn. intros a' conn' [_ ?]%lookup_delete_Some. eauto.
Qed.

Lemma remove_by_identity_evolves t i w : evolves t (remove_connection_by_identity t i w).1.
Proof.
  unfold remove_connection_by_identity. generalize (omap (λ entry, if Identity.id (Connection.identity entry.2) =? i
    then Some (Connection.address entry.2) else None) (hash_iter (connections t))) as l.
  intros l. revert t w. induction l as [|a l IH]; intros t w; [done|].
  cbn [foldl fst snd]. pose proof (remove_connection_evolves t a w) as Hone.
  destruct (remove_connection t a w) as [t1 w1]. etrans; [exact Hone|apply IH].
Qed.

Lemma set_identity_evolves t i session w : evolves t (set_identity t i session w).1.
Proof.
  unfold set_identity. pose proof (remove_by_identity_evolves t i w) as Hr.
  destruct (remove_connection_by_identity t i w) as [t1 w1]. by destruct (session =? 0); (etrans; [exact Hr|evolve]).
Qed.

Lemma try_link_evolves t a i s now w t' w' b : try_link_identity t a i s now w = Ret (t', w', b) → evolves t t'.
Proof.
  unfold try_link_identity. destruct (identities t !! i) as [c|]; [|by intros [= <- _ _]].
  destruct (negb _); [by intros [= <- _ _]|]. destruct (_ && _); [by intros [= <- _ _]|].
  pose proof (remove_by_identity_evolves t i w) as Hr. destruct (remove_connection_by_identity t i w) as [t1 w1].
  pose proof (create_connection_evolves t1 a (Identity.mk i s 0) now w1) as Hc.
  destruct (create_connection t1 a (Identity.mk i s 0) now w1) as [t2 w2].
  intros (w3 & _ & [= <- _ _])%bind_Ret. etrans; [exact Hr|]. etrans; [exact Hc|]. evolve.
Qed.

Lemma try_unlink_evolves t a i s w t' w' b : try_unlink_identity t a i s w = Ret (t', w', b) → evolves t t'.
Proof.
  unfold try_unlink_identity. destruct (identities t !! i) as [c|]; [|by intros (w2 & _ & [= <- _ _])%bind_Ret].
  destruct (negb _); [by intros [= <- _ _]|].
  pose proof (remove_by_identity_evolves t i w) as Hr. destruct (remove_connection_by_identity t i w) as [t1 w1].
  intros (w2 & _ & [= <- _ _])%bind_Ret. etrans; [exact Hr|]. evolve.
Qed.

Lemma get_connections_loop_evolves since n l : ∀ t count conns,
  Forall (λ e, ∃ conn, connections t !! e.1 = Some conn ∧ Connection.address e.2 = Connection.address conn ∧
    Connection.tachyon_id e.2 = Connection.tachyon_id conn) l →
  evolves t (get_connections_loop t since n count l conns).1.
Proof.
  induction l as [|[k c] l IH]; intros t count conns Hl; [done|]. cbn [get_connections_loop].
  apply Forall_cons in Hl as [(conn & Hk & Ea & Ei) Hl]. cbn [fst snd] in *.
  set (c' := c <| Connection.since_last_received := _ |>). set (t1 := t <| connections := _ |>).
  assert (evolves t t1) as Hone.
  { apply evolves_connections; [done..|]. unfold t1. cbn [connections set]. intros a' conn' [[<- <-]|[_ ?]]%lookup_insert_Some; right; eauto. }
  destruct (n <=? count + 1); [done|]. etrans; [exact Hone|]. apply IH.
  eapply Forall_impl; [exact Hl|]. intros [k' e] (conn1 & Hk' & E1 & E2). cbn [fst snd] in *.
  unfold t1. cbn [connections set]. destruct (decide (k = k')) as [<-|].
  - exists c'. rewrite lookup_insert_eq. split; [done|]. assert (conn1 = conn) as -> by congruence. split; [by rewrite E1|by rewrite E2].
  - exists conn1. by rewrite lookup_insert_ne.
Qed.

Lemma get_connections_evolves `{!HashIterLaws _} t max now : evolves t (get_connections t max now).1.
Proof.
  apply get_connections_loop_evolves. rewrite hash_iter_perm. apply Forall_forall.
  intros [k c] Hk%elem_of_map_to_list. eauto.
Qed.

Lemma client_update_evolves t now w t' w' : client_identity_update t now w = Ret (t', w') → evolves t t'.
Proof.
  unfold client_identity_update. repeat case_match; try by intros [= <- _].
  intros (w1 & _ & [= <- _])%bind_Ret. evolve.
Qed.

(** ** Receiving *)

Lemma admit_evolves t header a now w t' w' d : admit_datagram t header a now w = Ret (t', w', d) → evolves t t'.
Proof.
  unfold admit_datagram. destruct (TachyonSocket.is_server (socket t)).
  - destruct (_ =? 1).
    + destruct (_ =? _).
      { intros (h & _ & ([[t1 w1] linked] & Hl & [= <- _ _])%bind_Ret)%bind_Ret. by apply try_link_evolves in Hl. }
      destruct (_ =? _).
      { intros (h & _ & ([[t1 w1] linked] & Hl & [= <- _ _])%bind_Ret)%bind_Ret. by apply try_unlink_evolves in Hl. }
      unfold validate_and_update_linked_connection. destruct (connections t !! a) as [conn|] eqn:Ha; [|by intros [= <- _ _]].
      destruct (_ =? 0); intros [= <- _ _]; evolve.
    + unfold on_receive_connection_update. destruct (connections t !! a) as [conn|] eqn:Ha; [intros [= <- _ _]; evolve|].
      pose proof (create_connection_evolves t a Identity.default now w) as Hc.
      destruct (create_connection t a Identity.default now w) as [t1 w1]. by intros [= <- _ _].
  - repeat case_match; intros [= <- _ _]; evolve.
Qed.

Lemma should_drop_socket s data chance reliable s' b : TachyonSocket.should_drop s data chance reliable = Ret (s', b) →
  TachyonSocket.socket s' = TachyonSocket.socket s.
Proof.
  unfold TachyonSocket.should_drop. destruct (0 <? chance); [|by intros [= <- _]].
  destruct (gen_range 1 100 _) as [r rng']. destruct (r <=? chance); [|by intros [= <- _]].
  destruct reliable; [|by intros [= <- _]]. by intros ([b1 ty] & _ & [= <- _])%bind_Ret.
Qed.

Lemma socket_receive_socket s data chance reliable w s' data' w' r :
  TachyonSocket.receive s data chance reliable w = Ret (s', data', w', r) → TachyonSocket.socket s' = TachyonSocket.socket s.
Proof.
  unfold TachyonSocket.receive. destruct (TachyonSocket.socket s) as [sock|] eqn:Es; [|intros [= <- _ _ _]; exact Es].
  destruct (TachyonSocket.is_server s); [destruct (os_recv_from _ _ _) as [w1 [[d src]|]]|destruct (os_recv _ _ _) as [w1 [d|]]];
    try (by intros [= <- _ _ _]);
    intros ([s1 dropped] & Hd%should_drop_socket & E)%bind_Ret; destruct dropped; injection E as <- _ _ _; congruence.
Qed.

Lemma receive_from_socket_evolves t now w t' w' r : receive_from_socket t now w = Ret (t', w', r) → evolves t t'.
Proof.
  unfold receive_from_socket. intros ([[[sock buf] w1] res] & Hs%socket_receive_socket & Hr)%bind_Ret. cbv beta iota zeta in Hr.
  set (t0 := t <| socket := sock |> <| socket_receive_buffer := buf |>) in Hr.
  assert (evolves t t0) as Hs0.
  { apply evolves_same; [done| |done]. unfold has_socket, t0. cbn. by rewrite Hs. }
  etrans; [exact Hs0|]. clearbody t0. clear Hs0 Hs.
  destruct res; [|injection Hr as <- _ _; evolve..].
  apply bind_Ret in Hr as (h & _ & Hr). apply bind_Ret in Hr as ([[t1 w2] d] & Hadm & Hr).
  apply admit_evolves in Hadm. etrans; [exact Hadm|]. cbv beta iota in Hr. destruct d; [by injection Hr as <- _ _|].
  destruct (_ =? _); [injection Hr as <- _ _; evolve|]. destruct (channels t1 !! _); [|by injection Hr as <- _ _].
  apply bind_Ret in Hr as ([c' res] & _ & [= <- _ _]). evolve.
Qed.

Lemma receive_all_evolves es : ∀ t b t' b' r, receive_published_all_loop t b es = Ret (t', b', r) → evolves t t'.
Proof.
  induction es as [|[k c] es IH]; intros t b t' b' r; cbn [receive_published_all_loop]; [by intros [= <- _ _]|].
  intros ([[c' b1] res] & _ & Hr)%bind_Ret. cbv beta iota zeta in Hr. etrans; [|destruct (0 <? res.1)].
  - by apply (evolves_same t (t <| channels := <[k := c']> (channels t) |>)).
  - by injection Hr as <- _ _.
  - by apply IH in Hr.
Qed.

Lemma receive_channel_evolves t b a ch t' b' n : receive_published_channel_id t b a ch = Ret (t', b', n) → evolves t t'.
Proof.
  unfold receive_published_channel_id. destruct (channels t !! _) as [c|]; [|by intros [= <- _ _]].
  intros ([[c' b1] r] & _ & [= <- _ _])%bind_Ret. evolve.
Qed.

Lemma receive_loop_n_evolves n : ∀ t b now w t' b' w' r, receive_loop_n n t b now w = Ret (t', b', w', r) → evolves t t'.
Proof.
  induction n as [|n IH]; intros t b now w t' b' w' r; cbn [receive_loop_n].
  { intros ([[t1 b1] r1] & Hall%receive_all_evolves & [= <- _ _ _])%bind_Ret. done. }
  intros ([[t1 w1] r1] & Hs%receive_from_socket_evolves & Hr)%bind_Ret. etrans; [exact Hs|]. destruct r1.
  - apply bind_Ret in Hr as ([[t2 b2] n2] & Hp%receive_channel_evolves & Hr). etrans; [exact Hp|].
    destruct (0 <? n2); [by injection Hr as <- _ _ _|by apply IH in Hr].
  - by injection Hr as <- _ _ _.
  - apply bind_Ret in Hr as ([[t2 b2] n2] & Hp%receive_all_evolves & [= <- _ _ _]). done.
  - by apply IH in Hr.
  - by injection Hr as <- _ _ _.
  - apply bind_Ret in Hr as (src & _ & (b2 & _ & [= <- _ _ _])%bind_Ret). done.
Qed.

Lemma receive_loop_evolves t b now w t' b' w' r : receive_loop t b now w = Ret (t', b', w', r) → evolves t t'.
Proof. apply receive_loop_n_evolves. Qed.

(** ** Sending and the update *)

Lemma send_unreliable_evolves t a data n w t' w' r : send_unreliable t a data n w = Ret (t', w', r) → evolves t t'.
Proof.
  unfold send_unreliable. destruct (negb _); [by intros [= <- _ _]|].
  destruct (unreliable_sender t) as [s|]; [|by intros [= <- _ _]].
  intros ([[s' w1] res] & _ & [= <- _ _])%bind_Ret. destruct (_ =? 0); evolve.
Qed.

Lemma send_reliable_evolves t ch a data n now w t' w' r : send_reliable t ch a data n now w = Ret (t', w', r) → evolves t t'.
Proof.
  unfold send_reliable. cbv zeta. repeat (case_match; [by intros [= <- _ _]|]).
  destruct (channels t !! _) as [c|]; [|by intros [= <- _ _]]. destruct (Fragmentation.should_fragment n).
  - intros ([[f sender] seqs] & _ & E)%bind_Ret. cbv beta iota in E. destruct (len seqs =? 0); [injection E as <- _ _; evolve|].
    apply bind_Ret in E as ([[[c1 w1] sent] complete] & _ & E). cbv beta iota in E.
    destruct complete; injection E as <- _ _; evolve.
  - intros ([[c1 w1] res] & _ & [= <- _ _])%bind_Ret. evolve.
Qed.

Lemma update_evolves t none_send_data now w t' nsd w' : update t none_send_data now w = Ret (t', nsd, w') → evolves t t'.
Proof.
  unfold update. intros ([t1 w1] & Hc%client_update_evolves & Hr)%bind_Ret. etrans; [exact Hc|]. clear Hc. revert Hr.
  generalize (hash_iter (channels t1)) as l. intros l. revert t1 none_send_data w1.
  induction l as [|[k c] l IH]; intros t1 nsd1 w1; cbn [foldl_m]; [by intros [= <- _ _]|].
  intros ([[t2 nsd2] w2] & Hu & Hr)%bind_Ret. etrans; [|by apply IH in Hr].
  unfold update_channel in Hu. apply bind_Ret in Hu as ([[c' nsd3] w3] & _ & [= <- _ _]). evolve.
Qed.

Lemma configure_channel_evolves t ch cfg : evolves t (configure_channel t ch cfg).1.
Proof. unfold configure_channel. destruct (ch <? 3); evolve. Qed.

Lemma send_to_target_evolves t ch target data n now w t' w' r :
  send_to_target t ch target data n now w = Ret (t', w', r) → evolves t t'.
Proof.
  unfold send_to_target. intros Hsend. repeat case_match; try (by injection Hsend as <- _ _);
    first [by apply send_reliable_evolves in Hsend | by apply send_unreliable_evolves in Hsend].
Qed.

(** ** Sockets *)

Lemma bind_evolves t a w t' w' b : bind t a w = Ret (t', w', b) →
  evolves t t' ∧ connections t' = connections t ∧ (b = true → has_socket t').
Proof.
  unfold bind, has_socket. intros ([[sock w1] res] & Hs & Hr)%bind_Ret. cbv beta iota zeta in Hr.
  set (t1 := t <| socket := sock |>) in *.
  assert (evolves t t1 ∧ (res = TachyonSocket.Success → has_socket t1)) as [Hone Hsock].
  { unfold TachyonSocket.bind_socket in Hs. destruct (opt_is_some _) eqn:Eo.
    { injection Hs as <- _ <-. split; [by apply evolves_same|done]. }
    destruct (os_socket w) as [w3 [so|]]; [|done]. destruct (os_bind _ _ _) as [w4 [|]].
    - destruct (os_configure _ _) as [w5 [|]]; [|done]. injection Hs as <- _ <-.
      assert (has_socket t1) by (unfold has_socket, t1; cbn; by eexists). split; [by apply evolves_same|done].
    - injection Hs as <- _ <-. split; [|done]. apply evolves_same; [done| |done]. unfold has_socket. by destruct (TachyonSocket.socket (socket t)). }
  destruct res; [|injection Hr as <- _ <-; by split_and!].
  apply bind_Ret in Hr as ([w2 sender] & _ & [= <- _ <-]). split_and!; [|done|by intros _; apply Hsock].
  etrans; [exact Hone|evolve].
Qed.

Lemma connect_evolves t a now w t' w' b : connect t a now w = Ret (t', w', b) → evolves t t'.
Proof.
  unfold connect. intros ([[sock w1] res] & Hs & Hr)%bind_Ret. cbv beta iota zeta in Hr.
  set (t1 := t <| socket := sock |>) in *.
  assert (evolves t t1) as Hone.
  { apply evolves_same; [done| |done]. unfold has_socket, t1. cbn. unfold TachyonSocket.connect_socket in Hs.
    destruct (TachyonSocket.socket (socket t)) as [so|] eqn:Es; [|by intros [? ?]]. cbn in Hs. injection Hs as <- _ _. by rewrite Es. }
  etrans; [exact Hone|]. destruct res; [|by injection Hr as <- _ _].
  pose proof (create_connection_evolves t1 NetworkAddress.default Identity.default now w1) as Hc.
  destruct (create_connection t1 _ _ now w1) as [t2 w2]. apply bind_Ret in Hr as ([w3 sender] & _ & [= <- _ _]).
  etrans; [exact Hc|evolve].
Qed.
End evolution.
