(* ===== verification/pool_tasks.v ===== *)
(** The tasks of a receive on all servers: what holds whatever the interleaving.

    [good] is the invariant of the steps.  The queues are first-in first-out, so
    what has not been taken yet is in front of what has been given back: every
    task takes a server and a place for its messages that no other task had. *)

From S2P Require Import prelude network_address int_buffer header nack send_result tachyon_socket unreliable_sender.
From S2P Require Import channel connection tachyon_state connection_impl tachyon tachyon_evolution pool_state pool_receive.

Import NetworkAddress Tachyon Pool PoolReceive.

Lemma loops : Z.of_nat RECEIVE_SERVER_LOOPS = 100000.
Proof. unfold RECEIVE_SERVER_LOOPS. lia. Qed.

(** A number that is never to be computed. *)
#[global] Opaque RECEIVE_SERVER_LOOPS.

(** ** What one server receives *)

Section receives.
Context `{Callbacks} `{VarintOps} `{HashIter}.

Definition received (res : TachyonReceiveResult.TachyonReceiveResult) (buffer : bytes) (m : message) : Prop :=
  TachyonReceiveResult.length res ≠ 0 ∧ TachyonReceiveResult.error res ≤ 0 ∧
  slice buffer 0 (TachyonReceiveResult.length res) = Ret (msg_payload m) ∧
  msg_channel m = TachyonReceiveResult.channel res ∧ msg_address m = TachyonReceiveResult.address res.

Definition nothing (res : TachyonReceiveResult.TachyonReceiveResult) : Prop :=
  TachyonReceiveResult.length res = 0 ∨ 0 < TachyonReceiveResult.error res.

(** [s] is what [s0] has become after calls of [receive_loop], at any times, that
    returned the messages [ms]. *)
Inductive receives (s0 : Tachyon) : list message → Tachyon → Prop :=
| receives_nil : receives s0 [] s0
| receives_snoc ms s b now w s' b' w' res m :
    receives s0 ms s → TachyonIo.receive_loop s b now w = Ret (s', b', w', res) → received res b' m →
    receives s0 (ms ++ [m]) s'.

(** The whole turn of a server: it ends with the call that returns nothing, or
    after a hundred thousand messages. *)
Definition turn (s0 : Tachyon) (ms : list message) (s' : Tachyon) : Prop :=
  (length ms = RECEIVE_SERVER_LOOPS ∧ receives s0 ms s') ∨
  ((length ms < RECEIVE_SERVER_LOOPS)%nat ∧ ∃ s b now w b' w' res, receives s0 ms s ∧
    TachyonIo.receive_loop s b now w = Ret (s', b', w', res) ∧ nothing res).

Lemma receives_evolves s0 ms s : receives s0 ms s → evolves s0 s.
Proof. induction 1 as [|ms s b now w s' b' w' res m _ IH Hl%receive_loop_evolves _]; [done|]. by etrans. Qed.

Lemma turn_evolves s0 ms s : turn s0 ms s → evolves s0 s.
Proof.
  intros [[_ Hr]|(_ & s1 & b & now & w & b' & w' & res & Hr%receives_evolves & Hl%receive_loop_evolves & _)];
    [by eapply receives_evolves|by etrans].
Qed.

Lemma turn_length s0 ms s : turn s0 ms s → (length ms ≤ RECEIVE_SERVER_LOOPS)%nat.
Proof. intros [[? _]|[? _]]; lia. Qed.
End receives.

(** What a [Sink] promises to the tasks. *)
Class SinkLaws `{Callbacks} `{VarintOps} `{HashIter} `{ArrayQueueOps} `{CountdownOps} (sk : Sink) := {
  idle : Item sk → Prop;
  working : list message → Work sk → Prop;
  holds : list message → Item sk → Prop;
  (** the fields of the pool that the tasks leave alone *)
  Rest : Type;
  rest : Pool → Rest;
  items_put_items p q : items sk (put_items sk q p) = q;
  in_use_put_items p q : servers_in_use (put_items sk q p) = servers_in_use p;
  buffers_put_items p q : receive_buffers (put_items sk q p) = receive_buffers p;
  counter_put_items p q : counter (put_items sk q p) = counter p;
  rest_put_items p q : rest (put_items sk q p) = rest p;
  items_in_use p q : items sk (p <| servers_in_use := q |>) = items sk p;
  items_buffers p q : items sk (p <| receive_buffers := q |>) = items sk p;
  items_counter p c : items sk (p <| counter := c |>) = items sk p;
  rest_in_use p q : rest (p <| servers_in_use := q |>) = rest p;
  rest_buffers p q : rest (p <| receive_buffers := q |>) = rest p;
  rest_counter p c : rest (p <| counter := c |>) = rest p;
  idle_open it : idle it → working [] (open sk (on_pop sk it));
  work_step_spec s wk b now w s' wk' b' w' continue ms :
    work_step sk s wk b now w = Ret (s', wk', b', w', continue) → working ms wk →
    (length ms < RECEIVE_SERVER_LOOPS)%nat →
    ∃ res, TachyonIo.receive_loop s b now w = Ret (s', b', w', res) ∧
      if (continue : bool) then ∃ m, received res b' m ∧ working (ms ++ [m]) wk'
      else nothing res ∧ holds ms (close sk wk');
  close_full ms wk : working ms wk → length ms = RECEIVE_SERVER_LOOPS → holds ms (close sk wk)
}.

Ltac pool_fields :=
  rewrite ?items_put_items, ?in_use_put_items, ?buffers_put_items, ?counter_put_items, ?rest_put_items,
    ?items_in_use, ?items_buffers, ?items_counter, ?rest_in_use, ?rest_buffers, ?rest_counter.

Section tasks.
Context `{Callbacks} `{VarintOps} `{HashIter} `{AQ : ArrayQueueOps} `{CD : CountdownOps}
  `{!ArrayQueueLaws AQ} `{!CountdownLaws CD}.
Context (sk : Sink) `{!SinkLaws sk} (spawned : bool).

(** ** Termination *)

(** The steps a task can still take. *)
Definition rank (t : task sk) : nat :=
  match t with
  | Spawned => RECEIVE_SERVER_LOOPS + 8
  | HasServer _ => RECEIVE_SERVER_LOOPS + 7
  | HasItem _ _ => RECEIVE_SERVER_LOOPS + 6
  | Receiving n _ _ _ => n + 5
  | PushBuffer _ _ _ => 4
  | PushItem _ _ => 3
  | Served _ => 2
  | Returned => 1
  | Done => 0
  end.

Lemma task_step_rank t now p w t' p' w' :
  task_step sk spawned t now p w = Some (Ret (t', p', w')) → (rank t' < rank t)%nat.
Proof.
  destruct t as [|s|s it|[|n] s wk b|s it b|s it|s| |]; unfold task_step; intros E.
  - destruct (queue_pop _) as [q [s|]]; injection E as <- _ _; cbn [rank]; lia.
  - destruct (queue_pop _) as [q [it|]]; injection E as <- _ _; cbn [rank]; lia.
  - destruct (queue_pop _) as [q [b|]]; injection E as <- _ _; cbn [rank]; lia.
  - injection E as <- _ _. cbn [rank]. lia.
  - injection E as E. apply bind_Ret in E as ([[[[s1 wk1] b1] w1] [|]] & _ & E); cbv beta iota in E;
      injection E as <- _ _; cbn [rank]; lia.
  - destruct (queue_push _ _). injection E as <- _ _. cbn [rank]. lia.
  - destruct (queue_push _ _). injection E as <- _ _. cbn [rank]. lia.
  - destruct spawned; [|done]. destruct (queue_push _ _). injection E as <- _ _. cbn [rank]. lia.
  - destruct (counter p) as [c|]; [|done]. destruct (countdown_decrement c) as [c' [|]]; [|done].
    injection E as <- _ _. cbn [rank]. lia.
  - done.
Qed.

Lemma nsteps_rank n r r' : nsteps (step sk spawned) n r r' →
  (n + sum_list_with rank (tasks r') ≤ sum_list_with rank (tasks r))%nat.
Proof.
  induction 1 as [r|n r1 r2 r3 Hstep _ IH]; [lia|].
  destruct Hstep as [l t l' p w now t' p' w' Ht]. apply task_step_rank in Ht.
  cbn [tasks] in *. rewrite !sum_list_with_app in *. cbn [sum_list_with] in *. lia.
Qed.

(** A schedule is one way for the tasks to interleave. *)
Lemma run_schedule_steps order : ∀ r r', run_schedule sk spawned order r = Ret r' → rtc (step sk spawned) r r'.
Proof.
  induction order as [|[i now] order IH]; intros [ts p w] r'; cbn [run_schedule tasks pool world]; [by intros [= <-]|].
  destruct (ts !! i) as [t|] eqn:Hi; [|by apply IH].
  destruct (task_step sk spawned t now p w) as [o|] eqn:Ht; [|by apply IH].
  intros ([[t' p'] w'] & -> & Hr)%bind_Ret. eapply rtc_l; [|by apply IH].
  rewrite (insert_take_drop ts i t') by (by eapply lookup_lt_Some).
  rewrite <-(take_drop_middle ts i t Hi) at 1. by econstructor.
Qed.

(** ** The invariant *)

Definition server_of (t : task sk) : option Tachyon :=
  match t with
  | HasServer s | HasItem s _ | Receiving _ s _ _ | PushBuffer s _ _ | PushItem s _ | Served s => Some s
  | _ => None
  end.

Definition server_id (t : task sk) : option Z := id <$> server_of t.

(** The server whose messages are not in the queue of items yet. *)
Definition unrecorded (t : task sk) : option Z :=
  match t with
  | HasServer s | HasItem s _ | Receiving _ s _ _ | PushBuffer s _ _ | PushItem s _ => Some (id s)
  | _ => None
  end.

Definition is_spawned (t : task sk) : nat := match t with Spawned => 1 | _ => 0 end.
Definition waits (t : task sk) : nat := match t with Spawned | HasServer _ => 1 | _ => 0 end.
Definition has_item (t : task sk) : nat :=
  match t with HasItem _ _ | Receiving _ _ _ _ | PushBuffer _ _ _ | PushItem _ _ => 1 | _ => 0 end.
Definition has_buffer (t : task sk) : nat := match t with Receiving _ _ _ _ | PushBuffer _ _ _ => 1 | _ => 0 end.
Definition undone (t : task sk) : nat := match t with Done => 0 | _ => 1 end.

(** The servers before the receive, the fields of the pool that stay, and the
    capacities of the queues. *)
Context (init : gmap Z Tachyon) (R : Rest) (caps : Z * Z * Z).

Definition ids : list Z := (hash_iter init).*1.

Definition served (outs : list (Z * list message)) (s : Tachyon) : Prop :=
  ∃ s0 ms, init !! id s = Some s0 ∧ turn s0 ms s ∧ (id s, ms) ∈ outs.

Definition task_ok (outs : list (Z * list message)) (t : task sk) : Prop :=
  match t with
  | HasServer s => init !! id s = Some s
  | HasItem s it => init !! id s = Some s ∧ working [] (open sk it)
  | Receiving n s wk _ => ∃ s0 ms, init !! id s = Some s0 ∧ receives s0 ms s ∧ working ms wk ∧
      (n + length ms = RECEIVE_SERVER_LOOPS)%nat
  | PushBuffer s it _ | PushItem s it => ∃ s0 ms, init !! id s = Some s0 ∧ turn s0 ms s ∧ holds ms it
  | Served s => served outs s
  | Spawned | Returned | Done => spawned = true
  end.

Record good (fresh back : list Tachyon) (ready used : list (Item sk)) (outs : list (Z * list message))
    (r : run sk) : Prop := {
  g_rest : rest (pool r) = R;
  g_caps : (capacity (servers_in_use (pool r)), capacity (items sk (pool r)), capacity (receive_buffers (pool r))) = caps;
  g_in_use : contents (servers_in_use (pool r)) = fresh ++ back;
  g_in_use_room : len ids ≤ capacity (servers_in_use (pool r));
  g_fresh : Forall (λ s, init !! id s = Some s) fresh;
  g_back : Forall (served outs) back;
  g_items : contents (items sk (pool r)) = ready ++ used;
  g_items_room : Z.of_nat (length ready + length used + sum_list_with has_item (tasks r)) =
    capacity (items sk (pool r));
  g_ready : Forall idle ready;
  g_used : Forall2 (λ o it, holds o.2 it) outs used;
  g_waits : (sum_list_with waits (tasks r) ≤ length ready)%nat;
  g_buffers : len ids ≤ Z.of_nat (length (contents (receive_buffers (pool r))) + sum_list_with has_buffer (tasks r));
  g_buffers_room : Z.of_nat (length (contents (receive_buffers (pool r))) + sum_list_with has_buffer (tasks r)) =
    capacity (receive_buffers (pool r));
  g_tasks : Forall (task_ok outs) (tasks r);
  g_task_count : length (tasks r) = length ids;
  g_spawned : length fresh = sum_list_with is_spawned (tasks r);
  g_unrecorded : (id <$> fresh) ++ omap unrecorded (tasks r) ++ outs.*1 ≡ₚ ids;
  g_servers : if spawned then (id <$> fresh ++ back) ++ omap server_id (tasks r) ≡ₚ ids
              else back = [] ∧ Forall2 (λ k t, server_id t = Some k) ids (tasks r);
  g_counter : spawned = true → ∃ c, counter (pool r) = Some c ∧
    countdown_count c = Z.of_nat (sum_list_with undone (tasks r));
  g_no_counter : spawned = false → counter (pool r) = None
}.

Definition invariant (r : run sk) : Prop := ∃ fresh back ready used outs, good fresh back ready used outs r.
(** ** Every step keeps it *)

Lemma task_ok_mono outs more t : task_ok outs t → task_ok (outs ++ more) t.
Proof.
  destruct t; simpl; try done. intros (s0 & ms & ? & ? & Hin). exists s0, ms. split_and!; [done..|].
  apply elem_of_app. by left.
Qed.

Lemma served_mono outs more s : served outs s → served (outs ++ more) s.
Proof. apply (task_ok_mono outs more (Served s)). Qed.

Lemma omap_middle {A B} (f : A → option B) l x l' :
  omap f (l ++ x :: l') ≡ₚ option_list (f x) ++ omap f l ++ omap f l'.
Proof. rewrite omap_app. simpl. destruct (f x); simpl; [|done]. solve_Permutation. Qed.

Lemma sum_middle {A} (f : A → nat) l x l' :
  sum_list_with f (l ++ x :: l') = (f x + sum_list_with f (l ++ l'))%nat.
Proof. rewrite !sum_list_with_app. simpl. lia. Qed.

(** One task goes on: what it takes from the queues and what it gives back.
    [more] is what it records. *)
Lemma good_step l t t' l' p p' w w' fresh back ready used outs fresh' back' ready' used' more :
  good fresh back ready used outs (mk_run (l ++ t :: l') p w) →
  rest p' = rest p →
  contents (servers_in_use p') = fresh' ++ back' → capacity (servers_in_use p') = capacity (servers_in_use p) →
  Forall (λ s, init !! id s = Some s) fresh' → Forall (served (outs ++ more)) back' →
  contents (items sk p') = ready' ++ used' → capacity (items sk p') = capacity (items sk p) →
  (length ready' + length used' + has_item t' = length ready + length used + has_item t)%nat →
  Forall idle ready' → Forall2 (λ o it, holds o.2 it) (outs ++ more) used' →
  (waits t' + length ready = waits t + length ready')%nat →
  (length (contents (receive_buffers p')) + has_buffer t' = length (contents (receive_buffers p)) + has_buffer t)%nat →
  capacity (receive_buffers p') = capacity (receive_buffers p) →
  task_ok (outs ++ more) t' →
  (is_spawned t' + length fresh = is_spawned t + length fresh')%nat →
  (id <$> fresh') ++ option_list (unrecorded t') ++ more.*1 ≡ₚ (id <$> fresh) ++ option_list (unrecorded t) →
  (if spawned then (id <$> fresh' ++ back') ++ option_list (server_id t') ≡ₚ
                   (id <$> fresh ++ back) ++ option_list (server_id t)
   else back' = back ∧ server_id t' = server_id t) →
  (spawned = true → ∀ c, counter p = Some c → Z.of_nat (undone t) ≤ countdown_count c →
    ∃ c', counter p' = Some c' ∧
      countdown_count c' + Z.of_nat (undone t) = countdown_count c + Z.of_nat (undone t')) →
  (spawned = false → counter p' = counter p) →
  good fresh' back' ready' used' (outs ++ more) (mk_run (l ++ t' :: l') p' w').
Proof.
  intros [G1 G0 G2 G3 G4 G5 G6 G7 G8 G9 G10 G11 G12 G13 G14 G15 G16 G17 G18 G19] K1 K2 K3 K4 K5 K6 K7 K8 K9 K10 K11 K12 K13 K14 K15 K16 K17 K18 K19.
  cbn [tasks pool world] in *. rewrite !sum_middle, ?length_app in *. cbn [length] in *.
  split; cbn [tasks pool world]; rewrite ?sum_middle, ?length_app in *; cbn [length]; try congruence; try lia; try done.
  - apply Forall_app in G13 as [Gl Gr]. apply Forall_cons in Gr as [_ Gr].
    apply Forall_app. split; [|constructor; [done|]];
      (eapply Forall_impl; [eassumption|]); intros x; apply task_ok_mono.
  - rewrite omap_middle, fmap_app in *.
    transitivity (((id <$> fresh') ++ option_list (unrecorded t') ++ more.*1) ++ omap unrecorded l ++ omap unrecorded l' ++ outs.*1); [solve_Permutation|].
    rewrite K16. transitivity ((id <$> fresh) ++ (option_list (unrecorded t) ++ omap unrecorded l ++ omap unrecorded l') ++ outs.*1); [solve_Permutation|done].
  - destruct spawned.
    + rewrite omap_middle in *. rewrite app_assoc in *. by rewrite K17.
    + destruct G17 as [-> G17], K17 as [-> K17]. split; [done|]. apply Forall2_app_inv_r in G17 as (i1 & i2 & F1 & F2 & ->).
      apply Forall2_cons_inv_r in F2 as (k & i3 & Fk & F3 & ->).
      apply Forall2_app; [done|]. by constructor; [rewrite K17|].
  - intros Hsp. destruct (G18 Hsp) as (c & Hc & Hn).
    destruct (K18 Hsp c Hc) as (c' & Hc' & Hn'); [lia|]. exists c'. split; [done|]. lia.
  - intros Hsp. rewrite K19 by done. auto.
Qed.

Lemma stepped {sk'} (t1 t2 : task sk') (p1 p2 : Pool) (w1 w2 : World) :
  Some (Ret (t1, p1, w1)) = Some (Ret (t2, p2, w2)) → t2 = t1 ∧ p2 = p1 ∧ w2 = w1.
Proof. naive_solver. Qed.

(** What did not change, and the ids of a server that moved. *)
Ltac stays G :=
  pool_fields; rewrite ?app_nil_r;
  first
    [ done | by rewrite <-?app_assoc
    | by apply (g_items _ _ _ _ _ _ G) | by apply (g_in_use _ _ _ _ _ _ G)
    | by apply (g_ready _ _ _ _ _ _ G) | by apply (g_used _ _ _ _ _ _ G)
    | by apply (g_fresh _ _ _ _ _ _ G) | by apply (g_back _ _ _ _ _ _ G)
    | intros _; by pool_fields
    | intros _ c0 Hc0 _; exists c0; pool_fields; split; [exact Hc0|cbn [undone]; lia]
    | try match goal with E : spawned = true |- context [if spawned then _ else _] => rewrite E end;
      try match goal with |- context [if spawned then _ else _] => destruct spawned; [|done] end;
      cbn [unrecorded server_id option_list fmap option_fmap option_map server_of];
      rewrite ?fmap_cons, ?fmap_app, ?fmap_nil;
      solve_Permutation
    | by cbn [has_item waits has_buffer is_spawned undone]; simpl; lia
    | idtac ].

Lemma g_task l t l' p w fresh back ready used outs :
  good fresh back ready used outs (mk_run (l ++ t :: l') p w) → task_ok outs t.
Proof. intros G. by pose proof (g_tasks _ _ _ _ _ _ G) as [_ [Ht _]%Forall_cons]%Forall_app. Qed.

Lemma take_server_good l l' p w fresh back ready used outs now t' p' w' :
  good fresh back ready used outs (mk_run (l ++ Spawned :: l') p w) →
  task_step sk spawned Spawned now p w = Some (Ret (t', p', w')) →
  invariant (mk_run (l ++ t' :: l') p' w').
Proof.
  intros G E. pose proof (g_spawned _ _ _ _ _ _ G) as Hsp. cbn [tasks] in Hsp. rewrite sum_middle in Hsp.
  destruct fresh as [|s fresh]; [simpl in Hsp; lia|]. pose proof (g_in_use _ _ _ _ _ _ G) as Hin.
  destruct (queue_pop_spec (servers_in_use p) s (fresh ++ back)) as (q & Hq & Hc & Hcap); [done|].
  unfold task_step in E. rewrite Hq in E. apply stepped in E as (-> & -> & ->).
  pose proof (g_fresh _ _ _ _ _ _ G) as [Hs Hf]%Forall_cons.
  pose proof (g_task _ _ _ _ _ _ _ _ _ _ G) as Hspawned. simpl in Hspawned.
  exists fresh, back, ready, used, (outs ++ []).
  eapply (good_step _ Spawned); [exact G|..]; stays G.
Qed.

Lemma take_item_good l l' p w fresh back ready used outs s now t' p' w' :
  good fresh back ready used outs (mk_run (l ++ HasServer s :: l') p w) →
  task_step sk spawned (HasServer s) now p w = Some (Ret (t', p', w')) →
  invariant (mk_run (l ++ t' :: l') p' w').
Proof.
  intros G E. pose proof (g_waits _ _ _ _ _ _ G) as Hw. cbn [tasks] in Hw. rewrite sum_middle in Hw.
  destruct ready as [|it ready]; [simpl in Hw; lia|]. pose proof (g_items _ _ _ _ _ _ G) as Hit.
  destruct (queue_pop_spec (items sk p) it (ready ++ used)) as (q & Hq & Hc & Hcap); [done|].
  unfold task_step in E. rewrite Hq in E. apply stepped in E as (-> & -> & ->).
  pose proof (g_ready _ _ _ _ _ _ G) as [Hi Hr]%Forall_cons.
  pose proof (g_task _ _ _ _ _ _ _ _ _ _ G) as Hs. simpl in Hs.
  exists fresh, back, ready, used, (outs ++ []).
  eapply (good_step _ (HasServer s)); [exact G|..]; stays G.
  split; [done|by apply idle_open].
Qed.

Lemma take_buffer_good l l' p w fresh back ready used outs s it now t' p' w' :
  good fresh back ready used outs (mk_run (l ++ HasItem s it :: l') p w) →
  task_step sk spawned (HasItem s it) now p w = Some (Ret (t', p', w')) →
  invariant (mk_run (l ++ t' :: l') p' w').
Proof.
  intros G E. pose proof (g_buffers _ _ _ _ _ _ G) as Hb. cbn [tasks pool] in Hb. rewrite sum_middle in Hb.
  destruct (contents (receive_buffers p)) as [|b bs] eqn:Ebs.
  { pose proof (g_task_count _ _ _ _ _ _ G) as Hn. cbn [tasks] in Hn. rewrite length_app in Hn. simpl in Hn, Hb.
    assert (sum_list_with has_buffer (l ++ l') ≤ length (l ++ l'))%nat as Hle.
    { clear. induction (l ++ l') as [|t ts IH]; simpl; [lia|]. destruct t; simpl; lia. }
    rewrite length_app in Hle. lia. }
  destruct (queue_pop_spec (receive_buffers p) b bs) as (q & Hq & Hc & Hcap); [done|].
  unfold task_step in E. rewrite Hq in E. apply stepped in E as (-> & -> & ->).
  pose proof (g_task _ _ _ _ _ _ _ _ _ _ G) as [Hs Hwork].
  exists fresh, back, ready, used, (outs ++ []).
  eapply (good_step _ (HasItem s it)); [exact G|..]; stays G.
  - cbn [receive_buffers set]. rewrite Hc, Ebs. simpl. lia.
  - exists s, []. split_and!; [done|constructor|done|simpl; lia].
Qed.

(** A step of a task on its server alone. *)
Lemma local_good l l' t t' p w w' fresh back ready used outs :
  good fresh back ready used outs (mk_run (l ++ t :: l') p w) →
  task_ok outs t' → server_id t' = server_id t → unrecorded t' = unrecorded t →
  has_item t' = has_item t → has_buffer t' = has_buffer t → waits t' = waits t → undone t' = undone t →
  is_spawned t' = is_spawned t → invariant (mk_run (l ++ t' :: l') p w').
Proof.
  intros G Hok Hs Hu Hi Hb Hw Hd Hsp. exists fresh, back, ready, used, (outs ++ []).
  eapply (good_step _ t); [exact G|..]; rewrite ?Hs, ?Hu, ?Hi, ?Hb, ?Hw, ?Hd, ?Hsp; stays G.
Qed.

Lemma receive_good l l' p w fresh back ready used outs n s wk b now t' p' w' :
  good fresh back ready used outs (mk_run (l ++ Receiving n s wk b :: l') p w) →
  task_step sk spawned (Receiving n s wk b) now p w = Some (Ret (t', p', w')) →
  invariant (mk_run (l ++ t' :: l') p' w').
Proof.
  intros G E. pose proof (g_task _ _ _ _ _ _ _ _ _ _ G) as (s0 & ms & Hs0 & Hr & Hwk & Hn).
  destruct n as [|n]; unfold task_step in E.
  - apply stepped in E as (-> & -> & ->). apply (local_good _ _ _ _ _ _ _ _ _ _ _ _ G); try done.
    exists s0, ms. split_and!; [done|by left|by apply close_full].
  - injection E as E. apply bind_Ret in E as ([[[[s1 wk1] b1] w1] c] & Hstep & E). cbv beta iota in E.
    destruct (work_step_spec _ _ _ _ _ _ _ _ _ _ _ Hstep Hwk ltac:(lia)) as (res & Hl & Hres).
    pose proof (ev_id _ _ (receive_loop_evolves _ _ _ _ _ _ _ _ Hl)) as Hid.
    destruct c; apply (f_equal Some), stepped in E as (-> & -> & ->);
      (apply (local_good _ _ _ _ _ _ _ _ _ _ _ _ G); try done; [|cbn; by rewrite Hid..]).
    + destruct Hres as (m & Hm & Hwk'). exists s0, (ms ++ [m]). rewrite Hid, length_app.
      split_and!; [done|by eapply receives_snoc|done|simpl; lia].
    + destruct Hres as [Hno Hh]. exists s0, ms. rewrite Hid.
      split_and!; [done| |done]. right. split; [lia|]. by exists s, b, now, w, b1, w1, res.
Qed.

Lemma give_buffer_good l l' p w fresh back ready used outs s it b now t' p' w' :
  good fresh back ready used outs (mk_run (l ++ PushBuffer s it b :: l') p w) →
  task_step sk spawned (PushBuffer s it b) now p w = Some (Ret (t', p', w')) →
  invariant (mk_run (l ++ t' :: l') p' w').
Proof.
  intros G E. pose proof (g_buffers_room _ _ _ _ _ _ G) as Hb. cbn [tasks pool] in Hb. rewrite sum_middle in Hb.
  cbn [has_buffer] in Hb.
  destruct (queue_push_spec b (receive_buffers p)) as (q & Hq & Hc & Hcap); [lia|].
  unfold task_step in E. rewrite Hq in E. apply stepped in E as (-> & -> & ->).
  pose proof (g_task _ _ _ _ _ _ _ _ _ _ G) as Hok.
  exists fresh, back, ready, used, (outs ++ []).
  eapply (good_step _ (PushBuffer s it b)); [exact G|..]; stays G.
  cbn [receive_buffers set has_buffer]. rewrite Hc, length_app. simpl. lia.
Qed.

Lemma give_item_good l l' p w fresh back ready used outs s it now t' p' w' :
  good fresh back ready used outs (mk_run (l ++ PushItem s it :: l') p w) →
  task_step sk spawned (PushItem s it) now p w = Some (Ret (t', p', w')) →
  invariant (mk_run (l ++ t' :: l') p' w').
Proof.
  intros G E. pose proof (g_items_room _ _ _ _ _ _ G) as Hb. cbn [tasks pool] in Hb. rewrite sum_middle in Hb.
  cbn [has_item] in Hb. pose proof (g_items _ _ _ _ _ _ G) as Hit. cbn [pool] in Hit.
  destruct (queue_push_spec it (items sk p)) as (q & Hq & Hc & Hcap); [rewrite Hit, length_app; lia|].
  unfold task_step in E. rewrite Hq in E. apply stepped in E as (-> & -> & ->).
  pose proof (g_task _ _ _ _ _ _ _ _ _ _ G) as (s0 & ms & Hs0 & Ht & Hh).
  exists fresh, back, ready, (used ++ [it]), (outs ++ [(id s, ms)]).
  eapply (good_step _ (PushItem s it)); [exact G|..]; stays G.
  - eapply Forall_impl; [apply (g_back _ _ _ _ _ _ G)|]. intros x. apply served_mono.
  - by rewrite Hc, Hit, app_assoc.
  - rewrite length_app. cbn [has_item]. simpl. lia.
  - apply Forall2_app; [apply (g_used _ _ _ _ _ _ G)|]. by constructor.
  - exists s0, ms. split_and!; [done..|]. apply elem_of_app. right. by left.
Qed.

Lemma give_server_good l l' p w fresh back ready used outs s now t' p' w' :
  good fresh back ready used outs (mk_run (l ++ Served s :: l') p w) →
  task_step sk spawned (Served s) now p w = Some (Ret (t', p', w')) →
  invariant (mk_run (l ++ t' :: l') p' w').
Proof.
  intros G E. unfold task_step in E. destruct (bool_eq_dec spawned true) as [Hsp|Hsp]; [|destruct spawned; done].
  rewrite Hsp in E. pose proof (g_servers _ _ _ _ _ _ G) as Hp. rewrite Hsp in Hp. cbn [tasks] in Hp.
  rewrite omap_middle in Hp. apply Permutation_length in Hp.
  pose proof (g_in_use_room _ _ _ _ _ _ G) as Hroom. pose proof (g_in_use _ _ _ _ _ _ G) as Hin. cbn [pool] in Hroom, Hin.
  rewrite !length_app, length_fmap in Hp. simpl in Hp.
  destruct (queue_push_spec s (servers_in_use p)) as (q & Hq & Hc & Hcap); [rewrite Hin; lia|].
  rewrite Hq in E. apply stepped in E as (-> & -> & ->).
  pose proof (g_task _ _ _ _ _ _ _ _ _ _ G) as Hok.
  exists fresh, (back ++ [s]), ready, used, (outs ++ []).
  eapply (good_step _ (Served s)); [exact G|..]; stays G.
  - by rewrite app_assoc, <-Hin.
  - apply Forall_app. split; [apply (g_back _ _ _ _ _ _ G)|]. by constructor.
Qed.

Lemma count_down_good l l' p w fresh back ready used outs now t' p' w' :
  good fresh back ready used outs (mk_run (l ++ Returned :: l') p w) →
  task_step sk spawned Returned now p w = Some (Ret (t', p', w')) →
  invariant (mk_run (l ++ t' :: l') p' w').
Proof.
  intros G E. pose proof (g_task _ _ _ _ _ _ _ _ _ _ G) as Hsp. simpl in Hsp.
  destruct (g_counter _ _ _ _ _ _ G Hsp) as (c & Hc & Hn). cbn [tasks pool] in Hc, Hn. rewrite sum_middle in Hn.
  cbn [undone] in Hn. destruct (countdown_decrement_spec c) as (c' & res & Hd & Hn'); [lia|].
  unfold task_step in E. rewrite Hc, Hd in E. apply stepped in E as (-> & -> & ->).
  exists fresh, back, ready, used, (outs ++ []).
  eapply (good_step _ Returned); [exact G|..]; stays G.
  - intros _ c1 Hc1 _. exists c'. split; [done|]. cbn [undone]. replace c1 with c by congruence. lia.
  - congruence.
Qed.

Lemma step_invariant r r' : step sk spawned r r' → invariant r → invariant r'.
Proof.
  intros [l t l' p w now t' p' w' E] (fresh & back & ready & used & outs & G).
  destruct t.
  - by eapply take_server_good.
  - by eapply take_item_good.
  - by eapply take_buffer_good.
  - by eapply receive_good.
  - by eapply give_buffer_good.
  - by eapply give_item_good.
  - by eapply give_server_good.
  - by eapply count_down_good.
  - done.
Qed.

Lemma steps_invariant r r' : rtc (step sk spawned) r r' → invariant r → invariant r'.
Proof. induction 1 as [|r1 r2 r3 Hstep _ IH]; [done|]. intros Hr. apply IH. by eapply step_invariant. Qed.

(** ** No task waits for another *)

Definition terminal (t : task sk) : Prop :=
  if spawned then t = Done else ∃ s, t = Served s.

(** A server's [receive_loop], or the copy of what it returned, panics. *)
Definition receive_panics (r : run sk) : Prop :=
  ∃ n s work b now why, Receiving n s work b ∈ tasks r ∧
    task_step sk spawned (Receiving n s work b) now (pool r) (world r) = Some (Panic why).

Lemma task_progress l t l' p w : invariant (mk_run (l ++ t :: l') p w) →
  terminal t ∨ (∃ t' p' w', task_step sk spawned t 0 p w = Some (Ret (t', p', w'))) ∨
  receive_panics (mk_run (l ++ t :: l') p w).
Proof.
  intros (fresh & back & ready & used & outs & G). pose proof (g_task _ _ _ _ _ _ _ _ _ _ G) as Hok.
  unfold terminal. destruct t as [|s|s it|[|n] s wk b|s it b|s it|s| |] eqn:Et; unfold task_step.
  - right; left. destruct (queue_pop _) as [q [s|]]; eauto.
  - right; left. destruct (queue_pop _) as [q [it|]]; eauto.
  - right; left. destruct (queue_pop _) as [q [b|]]; eauto.
  - right; left. eauto.
  - right. destruct (work_step sk s wk b 0 w) as [[[[[s1 wk1] b1] w1] [|]]|why] eqn:E; [left; cbn; eauto..|right].
    exists (S n), s, wk, b, 0, why. split; [apply elem_of_app; right; by left|].
    unfold task_step. cbn [pool world]. by rewrite E.
  - right; left. destruct (queue_push _ _). eauto.
  - right; left. destruct (queue_push _ _). eauto.
  - destruct spawned; [|left; eauto]. right; left. destruct (queue_push _ _). eauto.
  - right; left. simpl in Hok. destruct (g_counter _ _ _ _ _ _ G Hok) as (c & Hc & Hn). cbn [tasks pool] in Hc, Hn.
    rewrite sum_middle in Hn. cbn [undone] in Hn.
    destruct (countdown_decrement_spec c) as (c' & res & Hd & _); [lia|]. rewrite Hc, Hd. eauto.
  - left. simpl in Hok. by rewrite Hok.
Qed.

Lemma run_progress r : invariant r → (∀ r', ¬ step sk spawned r r') → Forall terminal (tasks r) ∨ receive_panics r.
Proof.
  destruct r as [ts p w]. intros Hinv Hnf. cbn [tasks].
  enough (∀ l', ∀ l, ts = l ++ l' → Forall terminal l' ∨ receive_panics (mk_run ts p w)) as Hall
    by exact (Hall ts [] eq_refl).
  induction l' as [|t l' IH]; intros l ->; [by left|].
  destruct (IH (l ++ [t])) as [Hl'|?]; [by rewrite <-app_assoc| |by right].
  destruct (task_progress l t l' p w Hinv) as [Ht|[(t' & p' & w' & E)|?]]; [left; by constructor| |by right].
  destruct (Hnf (mk_run (l ++ t' :: l') p' w')). by econstructor.
Qed.
End tasks.
