(* ===== verification/pool_sinks.v ===== *)
(** The queues of messages that a pool's tasks fill: what they hold. *)

From S2P Require Import prelude network_address int_buffer header nack send_result tachyon_socket unreliable_sender.
From S2P Require Import channel connection tachyon_state connection_impl tachyon pool_state pool_receive pool_tasks.

Import NetworkAddress Tachyon Pool PoolReceive.

Section sinks.
Context `{Callbacks} `{VarintOps} `{HashIter} `{ArrayQueueOps} `{CountdownOps}.

(** The test after each call of [receive_loop]. *)
Lemma nothing_spec res :
  (TachyonReceiveResult.length res =? 0) || (0 <? TachyonReceiveResult.error res) = true ↔ nothing res.
Proof. unfold nothing. rewrite orb_true_iff, Z.eqb_eq, Z.ltb_lt. done. Qed.

Lemma something_spec res b payload :
  (TachyonReceiveResult.length res =? 0) || (0 <? TachyonReceiveResult.error res) = false →
  slice b 0 (TachyonReceiveResult.length res) = Ret payload →
  received res b (mk_message (TachyonReceiveResult.channel res) (TachyonReceiveResult.address res) payload).
Proof. rewrite orb_false_iff, Z.eqb_neq, Z.ltb_ge. intros [??] ?. by split_and!. Qed.

Definition queue_holds (ms : list message) (q : list bytes) : Prop := q = msg_payload <$> ms.

Lemma queue_step_spec s q b now w s' q' b' w' continue ms :
  receive_server_step s q b now w = Ret (s', q', b', w', continue) → queue_holds ms q →
  (length ms < RECEIVE_SERVER_LOOPS)%nat →
  ∃ res, TachyonIo.receive_loop s b now w = Ret (s', b', w', res) ∧
    if (continue : bool) then ∃ m, received res b' m ∧ queue_holds (ms ++ [m]) q'
    else nothing res ∧ queue_holds ms q'.
Proof.
  unfold receive_server_step, queue_holds.
  intros ([[[s1 b1] w1] res] & Hl & E)%bind_Ret -> _. exists res. cbv beta iota in E.
  destruct (_ || _) eqn:Hres.
  - injection E as <- <- <- <- <-. apply nothing_spec in Hres. done.
  - apply bind_Ret in E as (payload & Hp & [= <- <- <- <- <-]). split; [done|].
    exists (mk_message (TachyonReceiveResult.channel res) (TachyonReceiveResult.address res) payload).
    split; [by apply something_spec|]. by rewrite fmap_app.
Qed.

#[export] Instance into_queue_laws : SinkLaws into_queue := {|
  idle := (λ q : list bytes, q = []) : Item into_queue → Prop;
  working := queue_holds;
  holds := queue_holds;
  Rest := Z * Z * Z * gmap Z Tachyon * ArrayQueue OutBuffer.OutBuffer * list bytes *
    gmap Z Connection.Connection * gmap NetworkAddress Connection.Connection;
  rest := λ p, (next_id p, max_servers p, receive_buffer_len p, servers p, out_buffers p, published p,
    connections_by_identity p, connections_by_address p);
  items_put_items := λ _ _, eq_refl;
  in_use_put_items := λ _ _, eq_refl;
  buffers_put_items := λ _ _, eq_refl;
  counter_put_items := λ _ _, eq_refl;
  rest_put_items := λ _ _, eq_refl;
  items_in_use := λ _ _, eq_refl;
  items_buffers := λ _ _, eq_refl;
  items_counter := λ _ _, eq_refl;
  rest_in_use := λ _ _, eq_refl;
  rest_buffers := λ _ _, eq_refl;
  rest_counter := λ _ _, eq_refl;
  idle_open := λ _ Hi, Hi;
  work_step_spec := queue_step_spec;
  close_full := λ _ _ Hw _, Hw
|}.

(** A task that is not interrupted does what [receive_server] does. *)
Lemma receive_server_runs n : ∀ s q b now w s' q' b' w' p l l',
  receive_server_n n s q b now w = Ret (s', q', b', w') →
  rtc (step into_queue true) (mk_run (l ++ Receiving (sk := into_queue) n s q b :: l') p w)
    (mk_run (l ++ PushBuffer (sk := into_queue) s' q' b' :: l') p w').
Proof.
  induction n as [|n IH]; intros s q b now w s' q' b' w' p l l'; cbn [receive_server_n].
  - intros [= <- <- <- <-]. by apply rtc_once, (step_task _ _ _ _ _ _ _ now).
  - intros ([[[[s1 q1] b1] w1] continue] & Hstep & E)%bind_Ret. cbv beta iota in E. destruct continue.
    + eapply rtc_l; [|by eapply IH]. apply (step_task _ _ _ _ _ _ _ now). cbn [task_step into_queue work_step]. by rewrite Hstep.
    + injection E as <- <- <- <-. apply rtc_once, (step_task _ _ _ _ _ _ _ now).
      cbn [task_step into_queue work_step]. by rewrite Hstep.
Qed.
End sinks.
