(* ===== verification/pool_serving.v ===== *)
(** Receiving on all servers of a pool: what it gives.

    The theorems about [receive] with [finish_receive], and about the blocking
    receive into out buffers, for every interleaving of the tasks. *)

From S2P Require Import prelude network_address int_buffer header nack send_result tachyon_socket unreliable_sender.
From S2P Require Import channel connection tachyon_state connection_impl tachyon pool_state pool_receive pool_tasks pool_sinks.

Import NetworkAddress Tachyon Pool PoolReceive.

Section serving.
Context `{Callbacks} `{VarintOps} `{HashIter} `{AQ : ArrayQueueOps} `{CD : CountdownOps}
  `{!HashIterLaws _} `{!ArrayQueueLaws AQ} `{!CountdownLaws CD}.

(** ** The state between two receives *)

Record pool_ok (p : Pool) : Prop := {
  ok_ids k s : servers p !! k = Some s → id s = k;
  ok_max : 0 < max_servers p < 256;
  ok_in_use : contents (servers_in_use p) = [];
  ok_in_use_capacity : capacity (servers_in_use p) = max_servers p;
  ok_queue : contents (receive_queue p) = replicate (Z.to_nat (max_servers p)) [];
  ok_queue_capacity : capacity (receive_queue p) = max_servers p;
  ok_buffers : len (contents (receive_buffers p)) = max_servers p;
  ok_buffers_capacity : capacity (receive_buffers p) = max_servers p;
  ok_out : len (contents (out_buffers p)) = max_servers p;
  ok_out_capacity : capacity (out_buffers p) = max_servers p;
  ok_counter : counter p = None
}.

Lemma create_queues_spec n a b q rb ob m :
  len (contents q) + Z.of_nat n ≤ m → len (contents rb) + Z.of_nat n ≤ m → len (contents ob) + Z.of_nat n ≤ m →
  capacity q = m → capacity rb = m → capacity ob = m →
  ∃ q' rb' ob', create_loop n a b (q, rb, ob) = (q', rb', ob') ∧
    contents q' = contents q ++ replicate n [] ∧ length (contents rb') = (length (contents rb) + n)%nat ∧
    length (contents ob') = (length (contents ob) + n)%nat ∧
    capacity q' = m ∧ capacity rb' = m ∧ capacity ob' = m.
Proof.
  revert q rb ob. induction n as [|n IH]; intros q rb ob Hq Hrb Hob Cq Crb Cob; cbn [create_loop].
  { exists q, rb, ob. rewrite app_nil_r. split_and!; done || lia. }
  destruct (queue_push_spec [] q) as (q1 & -> & Eq & Cq1); [lia|].
  destruct (queue_push_spec (replicate (Z.to_nat a) 0) rb) as (rb1 & -> & Erb & Crb1); [lia|].
  destruct (queue_push_spec (OutBuffer.mk (replicate (Z.to_nat b) 0) 0 0) ob) as (ob1 & -> & Eob & Cob1); [lia|].
  destruct (IH q1 rb1 ob1) as (q' & rb' & ob' & -> & Hc & Hl1 & Hl2 & C1 & C2 & C3);
    rewrite ?Eq, ?Erb, ?Eob, ?length_app; simpl; try lia.
  exists q', rb', ob'. rewrite Hc, Hl1, Hl2, Eq, Erb, Eob, !length_app, <-app_assoc. simpl. split_and!; done || lia.
Qed.

Lemma create_pool_ok m a b : 0 < m < 256 → ∃ p, Pool.create m a b = Ret p ∧ pool_ok p ∧ servers p = ∅.
Proof.
  intros Hm. unfold Pool.create.
  destruct (queue_new_spec (A := bytes) m) as (rb & -> & Erb & Crb); [lia|].
  destruct (queue_new_spec (A := OutBuffer.OutBuffer) m) as (ob & -> & Eob & Cob); [lia|].
  destruct (queue_new_spec (A := list bytes) m) as (q & -> & Eq & Cq); [lia|].
  destruct (queue_new_spec (A := Tachyon) m) as (iu & Hiu & Eiu & Ciu); [lia|]. rewrite !bind_ret_l.
  destruct (create_queues_spec (Z.to_nat m) a b q rb ob m) as (q' & rb' & ob' & -> & Hc & Hl1 & Hl2 & C1 & C2 & C3);
    rewrite ?Eq, ?Erb, ?Eob; simpl; try lia.
  rewrite Hiu, bind_ret_l. eexists. split; [done|]. split; [|done].
  rewrite Eq, Erb, Eob in *. simpl in *.
  split; cbn; try done; try lia.
Qed.

(** ** What [receive] starts *)

Lemma push_servers (l : list (Z * Tachyon)) : ∀ p,
  len (contents (servers_in_use p)) + len l ≤ capacity (servers_in_use p) →
  ∃ q, foldl (λ self s, let '(in_use, _) := queue_push s.2 (servers_in_use self) in
                        self <| servers_in_use := in_use |>) p l = p <| servers_in_use := q |> ∧
    contents q = contents (servers_in_use p) ++ l.*2 ∧ capacity q = capacity (servers_in_use p).
Proof.
  induction l as [|[k s] l IH]; intros p Hroom.
  { exists (servers_in_use p). rewrite app_nil_r. split_and!; [by destruct p|done..]. }
  cbn [foldl fst snd]. cbn [length] in Hroom.
  destruct (queue_push_spec s (servers_in_use p)) as (q & -> & Hq & Hc); [lia|].
  destruct (IH (p <| servers_in_use := q |>)) as (q' & -> & Hq' & Hc'); cbn [servers_in_use set].
  { rewrite Hq, Hc, length_app. simpl. lia. }
  exists q'. split; [by destruct p|]. rewrite Hq', Hc'. cbn [servers_in_use set]. rewrite Hq, <-app_assoc. done.
Qed.

Lemma ids_dom p : ids (servers p) ≡ₚ elements (dom (servers p)).
Proof.
  unfold ids. rewrite hash_iter_perm. apply NoDup_Permutation; [apply NoDup_fst_map_to_list|apply NoDup_elements|].
  intros k. rewrite elem_of_elements, elem_of_dom, list_elem_of_fmap. split.
  - intros ([k' s] & -> & Hin). apply elem_of_map_to_list in Hin. by exists s.
  - intros [s Hs]. exists (k, s). split; [done|]. by apply elem_of_map_to_list.
Qed.

Lemma length_ids (m : gmap Z Tachyon) : length (ids m) = size m.
Proof. unfold ids. by rewrite length_fmap, hash_iter_perm, length_map_to_list. Qed.

Lemma NoDup_ids (m : gmap Z Tachyon) : NoDup (ids m).
Proof. unfold ids. rewrite hash_iter_perm. apply NoDup_fst_map_to_list. Qed.

Lemma servers_by_id p : pool_ok p →
  Forall (λ s, servers p !! id s = Some s) (hash_iter (servers p)).*2 ∧ id <$> (hash_iter (servers p)).*2 = ids (servers p).
Proof.
  intros Hp.
  assert (Forall (λ e, servers p !! e.1 = Some e.2) (hash_iter (servers p))) as Hf.
  { rewrite hash_iter_perm. apply Forall_forall. intros [k s] Hin. by apply elem_of_map_to_list in Hin. }
  unfold ids. induction Hf as [|[k s] l Hk _ [IH1 IH2]]; [done|]. cbn [fst snd] in Hk.
  pose proof (ok_ids p Hp _ _ Hk) as Hid. split; cbn; [by constructor; [rewrite Hid|]|]. by rewrite Hid, <-IH2.
Qed.

Lemma sum_replicate {A} (f : A → nat) n x : sum_list_with f (replicate n x) = (n * f x)%nat.
Proof. induction n; simpl; lia. Qed.

(** The fields of a pool that a receive starts with. *)
Definition receiving_rest (p : Pool) := rest (sk := into_queue) (p <| servers := ∅ |>).

Definition receiving_caps (p : Pool) : Z * Z * Z := (max_servers p, max_servers p, max_servers p).

Lemma receive_starts p w : pool_ok p → 0 < Z.of_nat (size (servers p)) ≤ max_servers p →
  ∃ p0, receive p = (p0, replicate (size (servers p)) Spawned, true) ∧
    invariant into_queue true (servers p) (receiving_rest p) (receiving_caps p) (mk_run (replicate (size (servers p)) Spawned) p0 w).
Proof.
  intros Hp Hn. unfold receive. destruct (Z.eqb_spec (Z.of_nat (size (servers p))) 0); [lia|].
  destruct (push_servers (hash_iter (servers p)) (p <| servers := ∅ |>)) as (q & Hpush & Hq & Hc).
  { cbn [servers_in_use set]. rewrite (ok_in_use p Hp), (ok_in_use_capacity p Hp), hash_iter_perm, length_map_to_list. simpl. lia. }
  cbn [servers_in_use set] in Hq, Hc. rewrite (ok_in_use p Hp) in Hq. rewrite (ok_in_use_capacity p Hp) in Hc.
  rewrite Hpush, Nat2Z.id. eexists. split; [reflexivity|].
  destruct (servers_by_id p Hp) as [Hf Hids].
  exists (hash_iter (servers p)).*2, [], (contents (receive_queue p)), [], [].
  split; cbn [tasks pool]; rewrite ?sum_replicate, ?length_ids, ?length_replicate; cbn; try done.
  - by rewrite Hc, (ok_queue_capacity p Hp), (ok_buffers_capacity p Hp).
  - by rewrite Hq, app_nil_r.
  - rewrite Hc. lia.
  - by rewrite app_nil_r.
  - rewrite (ok_queue p Hp), (ok_queue_capacity p Hp), length_replicate. lia.
  - rewrite (ok_queue p Hp). by apply Forall_replicate.
  - rewrite (ok_queue p Hp), length_replicate. lia.
  - rewrite Nat.mul_0_r, Nat.add_0_r, (ok_buffers p Hp). lia.
  - by rewrite Nat.mul_0_r, Nat.add_0_r, (ok_buffers p Hp), (ok_buffers_capacity p Hp).
  - by apply Forall_replicate.
  - by rewrite length_fmap, hash_iter_perm, length_map_to_list, Nat.mul_1_r.
  - rewrite Hids. assert (∀ k, omap (unrecorded into_queue) (replicate k Spawned) = []) as ->; [by induction k|].
    by rewrite app_nil_r.
  - rewrite app_nil_r, Hids.
    assert (∀ k, omap (server_id into_queue) (replicate k Spawned) = []) as ->; [by induction k|]. by rewrite app_nil_r.
  - intros _. eexists. split; [done|]. rewrite countdown_new_spec; lia.
Qed.

(** ** What [finish_receive] collects *)

Lemma push_all_published (values : list bytes) : ∀ p count,
  0 ≤ count → count + len values < 2 ^ 31 →
  foldl (λ st value, let '(self, count) := st in
           (self <| published := published self ++ [value] |>, as_i32 (count + 1))) (p, count) values =
    (p <| published := published p ++ values |>, count + len values).
Proof.
  induction values as [|v values IH]; intros p count Hc Hl; cbn [foldl length] in *.
  { rewrite app_nil_r, Z.add_0_r. destruct p. done. }
  assert (as_i32 (count + 1) = count + 1) as ->.
  { apply as_i32_small. lia. }
  rewrite IH by lia. cbn [published set]. rewrite <-app_assoc. f_equal; lia.
Qed.

Lemma move_received_loop_spec (qs : list (list bytes)) : ∀ k p count,
  contents (receive_queue p) = qs ++ replicate k [] →
  len (contents (receive_queue p)) ≤ capacity (receive_queue p) →
  0 ≤ count → count + len (concat qs) < 2 ^ 31 →
  ∃ q, move_received_loop (length qs) p count =
      (p <| receive_queue := q |> <| published := published p ++ concat qs |>, count + len (concat qs)) ∧
    contents q = replicate (k + length qs) [] ∧ capacity q = capacity (receive_queue p).
Proof.
  induction qs as [|values qs IH]; intros k p count Hq Hroom Hc Hl; cbn [length move_received_loop concat].
  { exists (receive_queue p). rewrite app_nil_r, Nat.add_0_r, Z.add_0_r. split_and!; [by destruct p|done..]. }
  cbn [concat] in Hl. rewrite length_app in Hl.
  destruct (queue_pop_spec (receive_queue p) values (qs ++ replicate k [])) as (q1 & -> & Hq1 & Hc1); [done|].
  rewrite push_all_published by lia. change (published (p <| receive_queue := q1 |>)) with (published p).
  set (p1 := p <| receive_queue := q1 |> <| published := published p ++ values |>).
  change (receive_queue p1) with q1.
  destruct (queue_push_spec [] q1) as (q2 & -> & Hq2 & Hc2).
  { rewrite Hq in Hroom. rewrite Hq1, Hc1. cbn [length app] in Hroom. lia. }
  destruct (IH (S k) (p1 <| receive_queue := q2 |>) (count + len values)) as (q3 & Hm & Hq3 & Hc3).
  - cbn [receive_queue set]. rewrite Hq2, Hq1, replicate_S_end, app_assoc. done.
  - cbn [receive_queue set]. rewrite Hq2, Hc2, Hc1, Hq1, length_app. rewrite Hq in Hroom. cbn [length app] in Hroom |- *. lia.
  - lia.
  - lia.
  - exists q3. rewrite Hm, Hq3, Hc3. cbn [published set receive_queue p1]. rewrite Hc2, Hc1, <-app_assoc, length_app.
    split_and!; [|f_equal; lia|done]. f_equal; lia.
Qed.

Lemma move_received_spec p :
  len (contents (receive_queue p)) ≤ capacity (receive_queue p) →
  len (concat (contents (receive_queue p))) < 2 ^ 31 →
  ∃ q, move_received_to_published p =
      (p <| receive_queue := q |> <| published := published p ++ concat (contents (receive_queue p)) |>,
       len (concat (contents (receive_queue p)))) ∧
    contents q = replicate (length (contents (receive_queue p))) [] ∧ capacity q = capacity (receive_queue p).
Proof.
  intros Hroom Hl. unfold move_received_to_published. rewrite queue_len_spec, Nat2Z.id.
  destruct (move_received_loop_spec (contents (receive_queue p)) 0 p 0) as (q & -> & Hq & Hc);
    [by rewrite app_nil_r|done|done|done|by exists q].
Qed.

Lemma collect_servers_spec (l : list Tachyon) : ∀ p count,
  contents (servers_in_use p) = l → 0 ≤ count → count + len l < 2 ^ 32 →
  ∃ q, collect_servers (length l) p count =
      (p <| servers_in_use := q |> <| servers := foldl (λ m s, <[id s := s]> m) (servers p) l |>, count + len l) ∧
    contents q = [] ∧ capacity q = capacity (servers_in_use p).
Proof.
  induction l as [|s l IH]; intros p count Hl Hc Hn; cbn [length collect_servers foldl].
  { exists (servers_in_use p). rewrite Z.add_0_r. split_and!; [by destruct p|done..]. }
  cbn [length] in Hn. destruct (queue_pop_spec (servers_in_use p) s l) as (q & -> & Hq & Hcq); [done|].
  change (servers (p <| servers_in_use := q |>)) with (servers p). rewrite as_u32_small by lia.
  destruct (IH (p <| servers_in_use := q |> <| servers := <[id s := s]> (servers p) |>) (count + 1))
    as (q' & Hcol & Hq' & Hcq'); [done|lia|lia|].
  exists q'. rewrite Hcol, Hq', Hcq'. split_and!; [|done..]. cbn [servers set]. f_equal; lia.
Qed.

Lemma foldl_insert_ids (l : list Tachyon) : ∀ m : gmap Z Tachyon,
  NoDup (id <$> l) →
  ∀ k s, foldl (λ m s, <[id s := s]> m) m l !! k = Some s ↔
    (s ∈ l ∧ id s = k) ∨ (k ∉ id <$> l ∧ m !! k = Some s).
Proof.
  induction l as [|s0 l IH]; intros m Hnd k s; cbn [foldl]; [set_solver|].
  apply NoDup_cons in Hnd as [Hs0 Hnd]. rewrite IH by done. rewrite fmap_cons, !not_elem_of_cons, elem_of_cons.
  rewrite lookup_insert_Some. split.
  - intros [[? ?]|(Hk & [[<- <-]|[Hne Hm]])]; [by left; split; [right|]|by left; split; [left|]|by right].
  - intros [[[-> | ?] <-]|([Hk ?] & ?)]; [right; by split; [|left]|by left|]. right. split; [done|]. right. by split; [congruence|].
Qed.

(** ** What all tasks together have done *)

Lemma replicate_tasks {sk : Sink} (ts : list (task sk)) (t : task sk) :
  Forall (λ t', t' = t) ts → ts = replicate (length ts) t.
Proof.
  intros Hts. symmetry. apply replicate_as_Forall. split; [done|]. eapply Forall_impl; [done|]. by intros t' ->.
Qed.

Lemma concat_holds (outs : list (Z * list message)) used :
  Forall2 (λ o q, queue_holds o.2 q) outs used → concat used = msg_payload <$> concat outs.*2.
Proof.
  induction 1 as [|o q outs used Hq _ IH]; [done|]. cbn [concat fmap list_fmap]. rewrite IH, Hq. by rewrite fmap_app.
Qed.

Lemma concat_idle (ready : list (list bytes)) : Forall (λ q, q = []) ready → concat ready = [].
Proof. induction 1 as [|q ready -> _ IH]; [done|exact IH]. Qed.

(** No turn is longer than [RECEIVE_SERVER_LOOPS]. *)
Lemma outs_bound (outs : list (Z * list message)) :
  Forall (λ o : Z * list message, length o.2 ≤ RECEIVE_SERVER_LOOPS)%nat outs →
  (length (concat outs.*2) ≤ length outs * RECEIVE_SERVER_LOOPS)%nat.
Proof. induction 1 as [|o outs Ho _ IH]; cbn; [lia|]. rewrite length_app. lia. Qed.

(** When all tasks are done every server has had its turn, its messages are in
    one of the queues, and the server is back. *)
Lemma all_done p r : pool_ok p →
  invariant into_queue true (servers p) (receiving_rest p) (receiving_caps p) r → Forall (λ t, t = Done) (tasks r) →
  ∃ back outs, contents (servers_in_use (pool r)) = back ∧ concat (contents (receive_queue (pool r))) = msg_payload <$> concat outs.*2 ∧
    outs.*1 ≡ₚ ids (servers p) ∧ (id <$> back) ≡ₚ ids (servers p) ∧ Forall (served (servers p) outs) back ∧
    len (contents (receive_queue (pool r))) = max_servers p ∧ len (contents (receive_buffers (pool r))) = max_servers p ∧
    capacity (servers_in_use (pool r)) = max_servers p ∧ capacity (receive_queue (pool r)) = max_servers p ∧
    capacity (receive_buffers (pool r)) = max_servers p.
Proof.
  intros Hp (fresh & back & ready & used & outs & G) Hdone. apply replicate_tasks in Hdone.
  pose proof (g_spawned _ _ _ _ _ _ _ _ _ _ _ G) as Hsp. pose proof (g_items_room _ _ _ _ _ _ _ _ _ _ _ G) as Hroom.
  pose proof (g_buffers_room _ _ _ _ _ _ _ _ _ _ _ G) as Hbuf.
  pose proof (g_unrecorded _ _ _ _ _ _ _ _ _ _ _ G) as Hun. pose proof (g_servers _ _ _ _ _ _ _ _ _ _ _ G) as Hs.
  cbv iota in Hs. rewrite Hdone in Hsp, Hroom, Hun, Hs, Hbuf. rewrite sum_replicate in Hsp, Hroom, Hbuf. cbn [is_spawned] in Hsp.
  destruct fresh; [|simpl in Hsp; lia].
  assert (∀ k, omap (unrecorded into_queue) (replicate k Done) = []) as E1; [by induction k|].
  assert (∀ k, omap (server_id into_queue) (replicate k Done) = []) as E2; [by induction k|].
  rewrite E1 in Hun. rewrite E2, app_nil_r in Hs. cbn [has_item has_buffer] in Hroom, Hbuf.
  assert (contents (receive_queue (pool r)) = ready ++ used) as Hit by exact (g_items _ _ _ _ _ _ _ _ _ _ _ G).
  change (capacity (items into_queue (pool r))) with (capacity (receive_queue (pool r))) in Hroom.
  pose proof (g_caps _ _ _ _ _ _ _ _ _ _ _ G) as [= C1 C2 C3].
  change (capacity (items into_queue (pool r))) with (capacity (receive_queue (pool r))) in C2.
  exists back, outs. split_and!; [apply (g_in_use _ _ _ _ _ _ _ _ _ _ _ G)| |done|done|apply (g_back _ _ _ _ _ _ _ _ _ _ _ G)| |lia|done..].
  - rewrite Hit, concat_app, (concat_idle ready), (concat_holds outs used); [done|..];
      [apply (g_used _ _ _ _ _ _ _ _ _ _ _ G)|apply (g_ready _ _ _ _ _ _ _ _ _ _ _ G)].
  - rewrite Hit, length_app. lia.
Qed.

(** The pool's other fields, which no task touches. *)
Lemma receiving_rest_fields p r : rest (sk := into_queue) r = receiving_rest p →
  max_servers r = max_servers p ∧ servers r = ∅ ∧ published r = published p ∧ out_buffers r = out_buffers p.
Proof. unfold receiving_rest. cbn. intros [= _ E1 _ E2 E3 E4 _ _]. done. Qed.


Lemma in_outs_bound p outs back :
  outs.*1 ≡ₚ ids (servers p) → (id <$> back) ≡ₚ ids (servers p) → Forall (served (servers p) outs) back →
  ∀ k ms, (k, ms) ∈ outs → ∃ s0 s, servers p !! k = Some s0 ∧ s ∈ back ∧ id s = k ∧ turn s0 ms s.
Proof.
  intros Ho Hb Hs k ms Hin.
  assert (k ∈ id <$> back) as Hk by (rewrite Hb, <-Ho; apply list_elem_of_fmap; by exists (k, ms)).
  apply list_elem_of_fmap in Hk as (s & -> & Hin').
  destruct (proj1 (Forall_forall _ _) Hs s Hin') as (s0 & ms' & Hs0 & Ht & Hms').
  assert (NoDup outs.*1) as Hnd by (rewrite Ho; apply NoDup_ids).
  assert (ms' = ms) as ->; [|by exists s0, s].
  apply (elem_of_list_to_map (M := gmap Z) outs _ _ Hnd) in Hin, Hms'. congruence.
Qed.

Lemma outs_total p outs back : pool_ok p → Z.of_nat (size (servers p)) ≤ max_servers p →
  outs.*1 ≡ₚ ids (servers p) → (id <$> back) ≡ₚ ids (servers p) → Forall (served (servers p) outs) back →
  len (concat outs.*2) < 2 ^ 31 ∧ length back = size (servers p).
Proof.
  intros Hp Hsize Ho Hb Hs. pose proof (ok_max p Hp).
  pose proof (in_outs_bound p outs back Ho Hb Hs) as Hall.
  assert (length outs = size (servers p)) as Hl by (by rewrite <-length_ids, <-Ho, length_fmap).
  split; [|by rewrite <-length_ids, <-Hb, length_fmap].
  assert (length (concat outs.*2) ≤ length outs * RECEIVE_SERVER_LOOPS)%nat as Hc.
  { apply outs_bound. apply Forall_forall. intros [k ms] Hin. destruct (Hall k ms Hin) as (s0 & s & _ & _ & _ & Ht).
    by apply turn_length in Ht. }
  pose proof loops. nia.
Qed.

(** [finish_receive] when all tasks are done. *)
Lemma finish_all_done p r : pool_ok p → Z.of_nat (size (servers p)) ≤ max_servers p →
  invariant into_queue true (servers p) (receiving_rest p) (receiving_caps p) r → Forall (λ t, t = Done) (tasks r) →
  ∃ p' outs, finish_receive (pool r) = Some (p', Z.of_nat (size (servers p)), len (concat outs.*2)) ∧
    outs.*1 ≡ₚ elements (dom (servers p)) ∧
    published p' = published p ++ (msg_payload <$> concat outs.*2) ∧
    dom (servers p') = dom (servers p) ∧
    (∀ k ms, (k, ms) ∈ outs → ∃ s0 s, servers p !! k = Some s0 ∧ servers p' !! k = Some s ∧ turn s0 ms s) ∧
    pool_ok p' ∧ max_servers p' = max_servers p.
Proof.
  intros Hp Hsize Hinv Hdone.
  destruct (all_done p r Hp Hinv Hdone) as (back & outs & Hin & Hconcat & Houts & Hback & Hserved & L1 & L2 & C1 & C2 & C3).
  destruct Hinv as (fresh & back' & ready & used & outs' & G).
  destruct (receiving_rest_fields p (pool r) (g_rest _ _ _ _ _ _ _ _ _ _ _ G)) as (Emax & Eserv & Epub & Eout).
  destruct (g_counter _ _ _ _ _ _ _ _ _ _ _ G eq_refl) as (c & Hc & Hn).
  rewrite (replicate_tasks _ _ Hdone), sum_replicate, Nat.mul_0_r in Hn. clear G fresh back' ready used outs'.
  destruct (outs_total p outs back Hp Hsize Houts Hback Hserved) as [Htotal Hlen]. pose proof (ok_max p Hp) as Hmax.
  unfold finish_receive. rewrite Hc, countdown_is_set_spec, Hn. change (Z.of_nat 0 =? 0) with true. cbv iota.
  destruct (move_received_spec (pool r)) as (q & -> & Hq & Hcq); [lia|by rewrite Hconcat, length_fmap|].
  rewrite Hconcat, length_fmap, Epub. set (p1 := (pool r) <| receive_queue := q |> <| published := _ |>).
  change (servers_in_use p1) with (servers_in_use (pool r)). rewrite queue_len_spec, Nat2Z.id, Hin.
  destruct (collect_servers_spec back p1 0) as (iu & -> & Hiu & Hciu); [done|lia|lia|].
  change (servers p1) with (servers (pool r)). rewrite Eserv.
  set (m := foldl (λ m s, <[id s := s]> m) ∅ back).
  assert (∀ k s, m !! k = Some s ↔ s ∈ back ∧ id s = k) as Hm.
  { intros k s. unfold m. rewrite foldl_insert_ids by (rewrite Hback; apply NoDup_ids). rewrite lookup_empty. naive_solver. }
  eexists _, outs. rewrite Z.add_0_l, Hlen. split; [done|].
  split; [by rewrite <-ids_dom|]. split; [done|]. cbn [servers set].
  pose proof (in_outs_bound p outs back Houts Hback Hserved) as Hall. split_and!.
  - apply set_eq. intros k. rewrite !elem_of_dom. split.
    + intros [s [Hs <-]%Hm]. by destruct (proj1 (Forall_forall _ _) Hserved s Hs) as (s0 & ms & -> & _).
    + intros Hk%elem_of_dom. rewrite <-elem_of_elements, <-ids_dom, <-Hback in Hk.
      apply list_elem_of_fmap in Hk as (s & -> & Hs). exists s. by apply Hm.
  - intros k ms Ho. destruct (Hall k ms Ho) as (s0 & s & Hs0 & Hs & Hk & Ht). exists s0, s. split_and!; [done| |done].
    by apply Hm.
  - split; cbn [servers max_servers servers_in_use receive_queue receive_buffers out_buffers counter set p1];
      rewrite ?Emax, ?Eout, ?C3; try done.
    + by intros k s [_ Hk]%Hm.
    + by rewrite Hciu.
    + rewrite Hq. f_equal. lia.
    + by rewrite Hcq.
    + apply (ok_out p Hp).
    + apply (ok_out_capacity p Hp).
  - exact Emax.
Qed.

(** While a task is not done the counter is not set. *)
Lemma finish_waits p r t : invariant into_queue true (servers p) (receiving_rest p) (receiving_caps p) r →
  t ∈ tasks r → t ≠ Done → finish_receive (pool r) = None.
Proof.
  intros (fresh & back & ready & used & outs & G) (l & l' & Hts)%list_elem_of_split Ht.
  destruct (g_counter _ _ _ _ _ _ _ _ _ _ _ G eq_refl) as (c & Hc & Hn). rewrite Hts, sum_middle in Hn.
  unfold finish_receive. rewrite Hc, countdown_is_set_spec. destruct (Z.eqb_spec (countdown_count c) 0) as [E|]; [|done].
  assert (undone into_queue t = 1)%nat by (by destruct t). lia.
Qed.

(** ** The tasks of the blocking receives *)

Section blocking.
Context (sk : Sink) `{!SinkLaws sk}.

Definition blocking_caps (p : Pool) : Z * Z * Z :=
  (max_servers p, capacity (items sk p), max_servers p).

Lemma par_iter_starts p w : pool_ok p → Z.of_nat (size (servers p)) ≤ max_servers p →
  Forall idle (contents (items sk p)) → len (contents (items sk p)) = max_servers p →
  capacity (items sk p) = max_servers p →
  invariant sk false (servers p) (rest p) (blocking_caps p) (mk_run (par_iter_tasks sk p) p w).
Proof.
  intros Hp Hn Hidle Hlen Hcap. destruct (servers_by_id p Hp) as [Hf Hids].
  assert (par_iter_tasks sk p = HasServer <$> (hash_iter (servers p)).*2) as Hts.
  { unfold par_iter_tasks. by rewrite <-list_fmap_compose. }
  set (ss := (hash_iter (servers p)).*2) in *.
  assert (length ss = size (servers p)) as Hss by (by rewrite <-length_ids, <-Hids, length_fmap).
  assert (∀ f n, (∀ s, f (HasServer s) = n) → sum_list_with f (HasServer (sk := sk) <$> ss) = (length ss * n)%nat) as Hsum.
  { intros f n Hfn. clear -Hfn. induction ss as [|s ss IH]; [done|]. cbn. rewrite Hfn, <-IH. done. }
  exists [], [], (contents (items sk p)), [], [].
  split; cbn [tasks pool]; rewrite ?Hts, ?length_ids, ?length_fmap, ?app_nil_r; try done.
  - unfold blocking_caps. by rewrite (ok_in_use_capacity p Hp), (ok_buffers_capacity p Hp).
  - apply (ok_in_use p Hp).
  - rewrite (ok_in_use_capacity p Hp). lia.
  - rewrite (Hsum (has_item sk) 0%nat), Nat.mul_0_r, Nat.add_0_r by done. simpl. lia.
  - rewrite (Hsum (waits sk) 1%nat) by done. lia.
  - rewrite (Hsum (has_buffer sk) 0%nat), Nat.mul_0_r, Nat.add_0_r by done. pose proof (ok_buffers p Hp). lia.
  - rewrite (Hsum (has_buffer sk) 0%nat), Nat.mul_0_r, Nat.add_0_r by done.
    by rewrite (ok_buffers p Hp), (ok_buffers_capacity p Hp).
  - apply Forall_fmap. eapply Forall_impl; [exact Hf|]. done.
  - rewrite (Hsum (is_spawned sk) 0%nat) by done. simpl. lia.
  - assert (omap (unrecorded sk) (HasServer <$> ss) = id <$> ss) as ->; [|by rewrite Hids].
    clear. induction ss as [|s ss IH]; [done|]. cbn. by f_equal.
  - split; [done|]. rewrite <-Hids. clear. induction ss as [|s ss IH]; cbn; by constructor.
  - intros _. apply (ok_counter p Hp).
Qed.

(** When all have served: the servers are in the tasks, in the order of the ids. *)
Lemma all_served_ends p r : pool_ok p →
  invariant sk false (servers p) (rest p) (blocking_caps p) r → all_served (tasks r) →
  ∃ back ready used outs, tasks r = Served <$> back ∧ id <$> back = ids (servers p) ∧
    contents (items sk (pool r)) = ready ++ used ∧ Forall idle ready ∧ Forall2 (λ o it, holds o.2 it) outs used ∧
    outs.*1 ≡ₚ ids (servers p) ∧ Forall (served (servers p) outs) back ∧ rest (pool r) = rest p ∧
    contents (servers_in_use (pool r)) = [] ∧ capacity (servers_in_use (pool r)) = max_servers p ∧
    len (contents (items sk (pool r))) = capacity (items sk (pool r)) ∧ capacity (items sk (pool r)) = capacity (items sk p) ∧
    len (contents (receive_buffers (pool r))) = max_servers p ∧ capacity (receive_buffers (pool r)) = max_servers p ∧
    counter (pool r) = None.
Proof.
  intros Hp (fresh & back & ready & used & outs & G) Hserved.
  assert (∃ ss, tasks r = Served <$> ss) as [ss Hss].
  { induction Hserved as [|t ts [s ->] _ [ss IH]]; [by exists []|]. exists (s :: ss). by rewrite IH. }
  assert (∀ f, (∀ s, f (Served s) = 0%nat) → sum_list_with f (Served (sk := sk) <$> ss) = 0%nat) as Hsum.
  { intros f Hf. clear -Hf. induction ss as [|s ss IH]; [done|]. cbn. by rewrite Hf, IH. }
  pose proof (g_spawned _ _ _ _ _ _ _ _ _ _ _ G) as Hsp. rewrite Hss, Hsum in Hsp by done.
  apply length_zero_iff_nil in Hsp as ->.
  pose proof (g_servers _ _ _ _ _ _ _ _ _ _ _ G) as [-> Hids]. rewrite Hss in Hids.
  pose proof (g_unrecorded _ _ _ _ _ _ _ _ _ _ _ G) as Hun. pose proof (g_tasks _ _ _ _ _ _ _ _ _ _ _ G) as Hts.
  pose proof (g_caps _ _ _ _ _ _ _ _ _ _ _ G) as [= C1 C2 C3].
  pose proof (g_items_room _ _ _ _ _ _ _ _ _ _ _ G) as Hroom. pose proof (g_buffers_room _ _ _ _ _ _ _ _ _ _ _ G) as Hbuf.
  rewrite Hss in Hun, Hts, Hroom, Hbuf. rewrite Hsum in Hroom, Hbuf by done.
  assert (omap (unrecorded sk) (Served <$> ss) = []) as E by (clear; by induction ss). rewrite E in Hun.
  exists ss, ready, used, outs. split_and!; try done.
  - clear -Hids. remember (ids (servers p)) as ks. clear Heqks. revert ks Hids.
    induction ss as [|s ss IH]; intros ks Hids; cbn in Hids |- *; inversion Hids as [|k t ks' ts Hk Hr]; [done|]; subst.
    rewrite (IH ks') by done. cbn in Hk. congruence.
  - apply (g_items _ _ _ _ _ _ _ _ _ _ _ G).
  - apply (g_ready _ _ _ _ _ _ _ _ _ _ _ G).
  - apply (g_used _ _ _ _ _ _ _ _ _ _ _ G).
  - rewrite Forall_fmap in Hts. exact Hts.
  - apply (g_rest _ _ _ _ _ _ _ _ _ _ _ G).
  - apply (g_in_use _ _ _ _ _ _ _ _ _ _ _ G).
  - rewrite (g_items _ _ _ _ _ _ _ _ _ _ _ G), length_app. lia.
  - lia.
  - by apply (g_no_counter _ _ _ _ _ _ _ _ _ _ _ G).
Qed.

(** They end, or a server's receive panics. *)
Lemma par_iter_ends p w : pool_ok p → Z.of_nat (size (servers p)) ≤ max_servers p →
  Forall idle (contents (items sk p)) → len (contents (items sk p)) = max_servers p →
  capacity (items sk p) = max_servers p →
  ∀ n r, nsteps (step sk false) n (mk_run (par_iter_tasks sk p) p w) r →
    Z.of_nat n ≤ Z.of_nat (size (servers p)) * 100007 ∧
    ((∀ r', ¬ step sk false r r') → all_served (tasks r) ∨ receive_panics sk false r).
Proof.
  intros Hp Hn Hidle Hlen Hcap n r Hsteps. pose proof loops.
  pose proof (par_iter_starts p w Hp Hn Hidle Hlen Hcap) as Hinv.
  pose proof (nsteps_rank sk false n _ _ Hsteps) as Hrank. cbn [tasks] in Hrank.
  assert (sum_list_with (rank sk) (par_iter_tasks sk p) = (size (servers p) * (RECEIVE_SERVER_LOOPS + 7))%nat) as Hsum.
  { rewrite <-length_ids. unfold par_iter_tasks, ids. clear. rewrite length_fmap.
    induction (hash_iter (servers p)) as [|s l IH]; [done|]. cbn [fmap list_fmap sum_list_with length]. rewrite IH.
    cbn [rank]. lia. }
  split; [nia|]. intros Hnf. eapply (run_progress sk false); [|done].
  eapply steps_invariant; [|exact Hinv]. by eapply rtc_nsteps_2.
Qed.

Lemma put_served_spec p (back : list Tachyon) : pool_ok p → id <$> back = ids (servers p) →
  ∀ p1, servers p1 = servers p → 
  put_served p1 (Served (sk := sk) <$> back) = p1 <| servers := foldl (λ m s, <[id s := s]> m) (servers p) back |> ∧
  ∀ k s, servers (put_served p1 (Served (sk := sk) <$> back)) !! k = Some s ↔ s ∈ back ∧ id s = k.
Proof.
  intros Hp Hids p1 Hp1. unfold put_served. rewrite Hp1. fold (ids (servers p)). rewrite <-Hids.
  assert (∀ m : gmap Z Tachyon, foldl (λ m e, match e.2 with Served s => <[e.1 := s]> m | _ => m end) m
    (zip (id <$> back) (Served (sk := sk) <$> back)) = foldl (λ m s, <[id s := s]> m) m back) as ->.
  { clear. induction back as [|s back IH]; intros m; [done|]. cbn. apply IH. }
  split; [done|]. intros k s. cbn [servers set]. rewrite foldl_insert_ids by (rewrite Hids; apply NoDup_ids).
  split; [|by left]. intros [?|[Hk Hs]]; [done|]. destruct Hk. rewrite Hids, ids_dom, elem_of_elements, elem_of_dom. by exists s.
Qed.
End blocking.

(** ** Properties *)

(** C13: when the tasks of [receive] have run, interleaved in any way, and
    [finish_receive] has collected, every server has had exactly one turn: it is
    back under its id, in the state that its own calls of [receive_loop] left it
    in, and the messages they returned, and no others, are published, each
    server's in order and without another server's in between; the counts
    returned are those of the servers and of the messages. *)
Theorem pool_receives_from_every_server p w :
  pool_ok p → 0 < Z.of_nat (size (servers p)) ≤ max_servers p →
  ∃ p0 ts, receive p = (p0, ts, true) ∧
    ∀ r, rtc (step into_queue true) (mk_run ts p0 w) r → Forall (λ t, t = Done) (tasks r) →
    ∃ p' outs, finish_receive (pool r) = Some (p', Z.of_nat (size (servers p)), len (concat outs.*2)) ∧
      outs.*1 ≡ₚ elements (dom (servers p)) ∧
      published p' = published p ++ (msg_payload <$> concat outs.*2) ∧
      dom (servers p') = dom (servers p) ∧
      (∀ k ms, (k, ms) ∈ outs → ∃ s0 s, servers p !! k = Some s0 ∧ servers p' !! k = Some s ∧ turn s0 ms s) ∧
      pool_ok p'.
Proof.
  intros Hp Hsize. destruct (receive_starts p w Hp Hsize) as (p0 & Hreceive & Hinv).
  eexists p0, _. split; [done|]. intros r Hsteps Hdone.
  destruct (finish_all_done p r Hp ltac:(lia)) as (p' & outs & ? & ? & ? & ? & ? & ? & _); [by eapply steps_invariant|done|].
  by exists p', outs.
Qed.

(** C17: the tasks of [receive] end, whatever the schedule: a pool of [n] servers
    takes at most [n * 100008] steps, and when no task can go on, all are done
    and [finish_receive] returns, unless a server's [receive_loop] panics; until
    then [finish_receive] waits. *)
Theorem pool_receive_ends p w p0 ts :
  pool_ok p → 0 < Z.of_nat (size (servers p)) ≤ max_servers p → receive p = (p0, ts, true) →
  ∀ n r, nsteps (step into_queue true) n (mk_run ts p0 w) r →
    Z.of_nat n ≤ Z.of_nat (size (servers p)) * 100008 ∧
    ((∃ t, t ∈ tasks r ∧ t ≠ Done) → finish_receive (pool r) = None) ∧
    ((∀ r', ¬ step into_queue true r r') →
      (Forall (λ t, t = Done) (tasks r) ∧ is_Some (finish_receive (pool r))) ∨ receive_panics into_queue true r).
Proof.
  intros Hp Hsize Hreceive n r Hsteps. destruct (receive_starts p w Hp Hsize) as (p0' & Hreceive' & Hinv).
  rewrite Hreceive' in Hreceive. injection Hreceive as -> <-.
  pose proof (nsteps_rank into_queue true n _ _ Hsteps) as Hrank. cbn [tasks] in Hrank.
  rewrite sum_replicate in Hrank. cbn [rank] in Hrank. pose proof loops.
  assert (invariant into_queue true (servers p) (receiving_rest p) (receiving_caps p) r) as Hinv'.
  { eapply steps_invariant; [|done]. by eapply rtc_nsteps_2. }
  split; [nia|]. split; [intros (t & Ht & Hne); by eapply finish_waits|].
  intros Hnf. destruct (run_progress into_queue true _ _ _ r Hinv' Hnf) as [Hdone|?]; [left|by right].
  split; [done|]. destruct (finish_all_done p r Hp ltac:(lia) Hinv' Hdone) as (p' & outs & -> & _). done.
Qed.

(** ** More servers than the pool has room for *)

Lemma push_full (l : list (Z * Tachyon)) : ∀ p,
  len (contents (servers_in_use p)) = capacity (servers_in_use p) →
  foldl (λ self s, let '(in_use, _) := queue_push s.2 (servers_in_use self) in
                   self <| servers_in_use := in_use |>) p l = p.
Proof.
  induction l as [|[k s] l IH]; intros p Hfull; [done|]. cbn [foldl fst snd].
  rewrite queue_push_full by lia. replace (p <| servers_in_use := servers_in_use p |>) with p by (by destruct p). by apply IH.
Qed.

(** C40: a pool accepts one server more than [max_servers]: [create_server] adds
    it, and the next [receive] loses a server for good.  It takes every server out
    of the pool, the queue has room for [max_servers] of them only, and the last
    one is dropped without an error. *)
Theorem server_beyond_the_bound_is_lost p config address i now w :
  pool_ok p → Z.of_nat (size (servers p)) = max_servers p → servers p !! i = None →
  ∀ t w', TachyonIo.bind (Tachyon.create config now) address w = Ret (t, w', true) →
  ∃ p', create_server p config address i now w = Ret (p', w', true) ∧
    ∃ p0 ts k, receive p' = (p0, ts, true) ∧ is_Some (servers p' !! k) ∧ servers p0 = ∅ ∧
      Forall (λ s, id s ≠ k) (contents (servers_in_use p0)).
Proof.
  intros Hp Hsize Hi t w' Hbind. pose proof (ok_max p Hp) as Hmax. unfold create_server.
  destruct (Z.ltb_spec (max_servers p) (Z.of_nat (size (servers p)))); [lia|]. rewrite Hi. cbn [opt_is_some].
  rewrite Hbind, bind_ret_l. cbv beta iota. set (t' := t <| id := i |>). set (p' := p <| servers := _ |>).
  exists p'. split; [done|].
  assert (size (servers p') = S (size (servers p))) as Hsize' by (unfold p'; cbn [servers set]; by rewrite map_size_insert, Hi).
  assert (∀ k s, servers p' !! k = Some s → id s = k) as Hids.
  { intros k s. unfold p'; cbn [servers set]. intros [[<- <-]|[_ Hk]]%lookup_insert_Some; [done|by apply (ok_ids p Hp)]. }
  unfold receive. destruct (Z.eqb_spec (Z.of_nat (size (servers p'))) 0); [lia|].
  assert (length (hash_iter (servers p')) = S (size (servers p))) as Hlen by (by rewrite hash_iter_perm, length_map_to_list).
  destruct (exists_last (l := hash_iter (servers p'))) as (l & [k s] & Hl); [by destruct (hash_iter (servers p'))|].
  rewrite Hl in Hlen |- *. rewrite length_app in Hlen. simpl in Hlen. rewrite foldl_app.
  destruct (push_servers l (p' <| servers := ∅ |>)) as (q & -> & Hq & Hc).
  { cbn [servers_in_use set p']. rewrite (ok_in_use p Hp), (ok_in_use_capacity p Hp). simpl. lia. }
  cbn [servers_in_use set p'] in Hq, Hc. rewrite (ok_in_use p Hp) in Hq. rewrite (ok_in_use_capacity p Hp) in Hc.
  rewrite push_full by (cbn [servers_in_use set]; rewrite Hq, Hc, length_app, length_fmap; simpl; lia).
  eexists _, _, k. split; [reflexivity|].
  assert (hash_iter (servers p') ≡ₚ map_to_list (servers p')) as Hperm by apply hash_iter_perm. rewrite Hl in Hperm.
  split; [|split; [done|]].
  - exists s. apply elem_of_map_to_list. rewrite <-Hperm. apply elem_of_app. right. by left.
  - cbn [servers_in_use set]. rewrite Hq. apply Forall_fmap, Forall_forall. intros [k' s'] Hin. cbn.
    assert (servers p' !! k' = Some s') as Hs' by (apply elem_of_map_to_list; rewrite <-Hperm; apply elem_of_app; by left).
    rewrite (Hids k' s' Hs'). intros ->.
    pose proof (NoDup_fst_map_to_list (servers p')) as Hnd. rewrite <-Hperm, fmap_app in Hnd.
    apply NoDup_app in Hnd as (_ & Hnd & _). apply (Hnd k); [|by left]. apply list_elem_of_fmap. by exists (k, s').
Qed.
End serving.
