(* ===== verification/pool_blocking.v ===== *)
(** The blocking receives of a pool, and its out buffers.

    The tasks of [par_iter_mut] work on the servers in place.  An [OutBuffer] holds
    the messages of one server packed by [LengthPrefixed.write], so that the
    caller that is handed its bytes by [get_next_out_buffer] finds the channel and
    the address of each message too. *)

From S2P Require Import prelude network_address int_buffer header nack send_result tachyon_socket unreliable_sender.
From S2P Require Import channel connection tachyon_state connection_impl tachyon pool_state pool_receive pool_tasks pool_sinks pool_serving.

Import NetworkAddress Tachyon Pool PoolReceive.

(** ** Packing *)

(** A writer moves the cursor by [k] and keeps the length of the buffer. *)
Definition moves (k : Z) (wr : IntBuffer.IntBuffer → bytes → outcome (IntBuffer.IntBuffer * bytes)) : Prop :=
  ∀ i d b' d', wr (IntBuffer.mk i) d = Ret (b', d') → b' = IntBuffer.mk (i + k) ∧ length d' = length d.

Lemma set_at_length {A} (l : list A) i x l' : set_at l i x = Ret l' → length l' = length l.
Proof. intros [_ ->]%set_at_Ret. apply length_insert. Qed.

Lemma write_u16_moves v : moves 2 (λ b d, IntBuffer.write_u16 b v d).
Proof.
  intros i d b' d'. unfold IntBuffer.write_u16; cbn [IntBuffer.index].
  intros (d1 & E1 & (d2 & E2 & [= <- <-])%bind_Ret)%bind_Ret.
  apply set_at_length in E1, E2. split; [f_equal; lia|congruence].
Qed.

Lemma write_u32_moves v : moves 4 (λ b d, IntBuffer.write_u32 b v d).
Proof.
  intros i d b' d'. unfold IntBuffer.write_u32; cbn [IntBuffer.index].
  intros (d1 & E1 & (d2 & E2 & (d3 & E3 & (d4 & E4 & [= <- <-])%bind_Ret)%bind_Ret)%bind_Ret)%bind_Ret.
  apply set_at_length in E1, E2, E3, E4. split; [f_equal; lia|congruence].
Qed.

Lemma write_address_moves a : moves 12 (λ b d, IntBuffer.write_address b a d).
Proof.
  intros i d b' d'. unfold IntBuffer.write_address.
  intros ([b1 d1] & [-> L1]%write_u16_moves & ([b2 d2] & [-> L2]%write_u16_moves & ([b3 d3] & [-> L3]%write_u16_moves &
    ([b4 d4] & [-> L4]%write_u16_moves & [-> L5]%write_u32_moves)%bind_Ret)%bind_Ret)%bind_Ret)%bind_Ret.
  split; [f_equal; lia|congruence].
Qed.

Lemma length_enc_message m : len (enc_message m) = 18 + len (msg_payload m).
Proof. unfold enc_message, enc_address. rewrite !length_app, !length_le_bytes. lia. Qed.

(** A message that was packed had room. *)
Lemma write_message_fits r i d m lp d' :
  write_message (LengthPrefixed.mk r (IntBuffer.mk i), d) m = Ret (lp, d') →
  lp = LengthPrefixed.mk r (IntBuffer.mk (i + len (enc_message m))) ∧ length d' = length d ∧ i + len (enc_message m) ≤ len d.
Proof.
  unfold write_message, LengthPrefixed.write. cbn [fst snd LengthPrefixed.writer].
  intros ([b1 d1] & [-> L1]%write_u32_moves & ([b2 d2] & [-> L2]%write_u16_moves & ([b3 d3] & [-> L3]%write_address_moves &
    (d4 & E4 & [= <- <-])%bind_Ret)%bind_Ret)%bind_Ret)%bind_Ret.
  cbn [IntBuffer.index] in *. rewrite length_enc_message. unfold copy_from_slice in E4.
  destruct (_ && _) eqn:Eb; [|done]. destruct (_ =? _); [|done]. injection E4 as <-.
  apply andb_prop in Eb as [[Eb0 _]%andb_prop Eb]. apply Z.leb_le in Eb, Eb0.
  rewrite length_splice by lia. split_and!; [|congruence|lia].
  unfold set; cbn. do 2 f_equal. lia.
Qed.

Lemma write_messages_fit ms : ∀ r i d lp d',
  foldl_m write_message (LengthPrefixed.mk r (IntBuffer.mk i), d) ms = Ret (lp, d') → i ≤ len d →
  lp = LengthPrefixed.mk r (IntBuffer.mk (i + len (concat (enc_message <$> ms)))) ∧ length d' = length d ∧
  i + len (concat (enc_message <$> ms)) ≤ len d.
Proof.
  induction ms as [|m ms IH]; intros r i d lp d'; cbn [foldl_m fmap list_fmap concat].
  { intros [= <- <-] Hi. rewrite Z.add_0_r. split_and!; [done..|simpl; lia]. }
  intros ([lp1 d1] & (-> & L1 & F1)%write_message_fits & Hms)%bind_Ret Hi.
  apply IH in Hms as (-> & L2 & F2); [|lia]. rewrite length_app. split_and!; [do 2 f_equal; lia|congruence|lia].
Qed.

Section blocking.
Context `{Callbacks} `{VarintOps} `{HashIter} `{AQ : ArrayQueueOps} `{CD : CountdownOps}
  `{!HashIterLaws _} `{!ArrayQueueLaws AQ} `{!CountdownLaws CD}.
(** The size of the out buffers. *)
Context (L : Z).

(** The first [bytes_written] bytes of an out buffer are [ms], packed. *)
Definition packed (ms : list message) (o : OutBuffer.OutBuffer) : Prop :=
  ∃ lp d0, foldl_m write_message (LengthPrefixed.default, d0) ms = Ret (lp, OutBuffer.data o) ∧
    OutBuffer.bytes_written o = as_u32 (IntBuffer.index (LengthPrefixed.writer lp)) ∧
    OutBuffer.count o = as_u32 (len ms).

Lemma packed_bytes ms o : packed ms o → len (OutBuffer.data o) ≤ L → L < 2 ^ 32 →
  0 ≤ OutBuffer.bytes_written o ≤ len (OutBuffer.data o) ∧
  (Forall message_ok ms → firstn (Z.to_nat (OutBuffer.bytes_written o)) (OutBuffer.data o) = concat (enc_message <$> ms)).
Proof.
  intros (lp & d0 & Hw & Hb & _) Hl HL. unfold LengthPrefixed.default in Hw.
  pose proof Hw as (-> & Hd & Hfit)%write_messages_fit; [|lia]. rewrite Z.add_0_l in *. cbn in Hb.
  rewrite as_u32_small in Hb by lia. rewrite Hb. split; [lia|].
  intros Hok. rewrite write_messages_spec in Hw by (done || lia). injection Hw as <-.
  rewrite Nat2Z.id, splice_0. by rewrite take_app_length.
Qed.

(** ** Tasks that fill out buffers *)

Lemma as_u32_succ v : as_u32 (as_u32 v + 1) = as_u32 (v + 1).
Proof. unfold as_u32, wrap. by rewrite Zplus_mod_idemp_l. Qed.

Definition out_buffer_idle (o : OutBuffer.OutBuffer) : Prop := OutBuffer.count o = 0 ∧ len (OutBuffer.data o) ≤ L.

Definition packing (ms : list message) (st : LengthPrefixed.LengthPrefixed * OutBuffer.OutBuffer) : Prop :=
  ∃ d0, foldl_m write_message (LengthPrefixed.default, d0) ms = Ret (st.1, OutBuffer.data st.2) ∧
    OutBuffer.count st.2 = as_u32 (len ms) ∧ len (OutBuffer.data st.2) ≤ L ∧ OutBuffer.bytes_written st.2 = 0.

(** A loop that is not left early does not say how much it has written. *)
Definition out_buffer_holds (ms : list message) (o : OutBuffer.OutBuffer) : Prop :=
  len (OutBuffer.data o) ≤ L ∧ OutBuffer.count o = as_u32 (len ms) ∧
  if decide (length ms < RECEIVE_SERVER_LOOPS)%nat then packed ms o else OutBuffer.bytes_written o = 0.

Lemma out_buffer_step_spec s st b now w s' st' b' w' continue ms :
  receive_server_into_out_buffer_step s st b now w = Ret (s', st', b', w', continue) → packing ms st →
  (length ms < RECEIVE_SERVER_LOOPS)%nat →
  ∃ res, TachyonIo.receive_loop s b now w = Ret (s', b', w', res) ∧
    if (continue : bool) then ∃ m, received res b' m ∧ packing (ms ++ [m]) st'
    else nothing res ∧ out_buffer_holds ms st'.2.
Proof.
  destruct st as [writer o]. unfold receive_server_into_out_buffer_step, packing. cbn [fst snd].
  intros ([[[s1 b1] w1] res] & Hl & E)%bind_Ret (d0 & Hw & Hn & HL & Hb) Hlt. exists res. cbv beta iota in E.
  destruct (_ || _) eqn:Hres.
  - injection E as <- <- <- <- <-. apply nothing_spec in Hres. split; [done|]. split; [done|]. split; [done|].
    split; [done|]. rewrite decide_True by done. by exists writer, d0.
  - apply bind_Ret in E as (payload & Hp & ([writer1 data1] & Hwr & [= <- <- <- <- <-])%bind_Ret).
    split; [done|]. set (m := mk_message (TachyonReceiveResult.channel res) (TachyonReceiveResult.address res) payload).
    exists m. split; [by apply something_spec|]. exists d0. cbn [OutBuffer.data OutBuffer.count set fst snd].
    assert (write_message (writer, OutBuffer.data o) m = Ret (writer1, data1)) as Hm by exact Hwr.
    rewrite foldl_m_app, Hw, bind_ret_l. cbn [foldl_m]. rewrite Hm, bind_ret_l, length_app.
    destruct writer as [r [i]]. apply write_message_fits in Hm as (_ & Hlen & _). split_and!; [done| |lia|done].
    rewrite Hn, as_u32_succ. f_equal. simpl. lia.
Qed.

Lemma out_buffer_opens o : out_buffer_idle o → packing [] (LengthPrefixed.default, on_pop into_out_buffer o).
Proof. intros [_ Hl]. by exists (OutBuffer.data o). Qed.

Lemma out_buffer_full ms st : packing ms st → length ms = RECEIVE_SERVER_LOOPS → out_buffer_holds ms st.2.
Proof. intros (d0 & _ & Hn & Hl & Hb) Hms. split_and!; [done..|]. by rewrite decide_False by lia. Qed.

#[local] Instance into_out_buffer_laws : SinkLaws into_out_buffer := {|
  idle := out_buffer_idle : Item into_out_buffer → Prop;
  working := packing;
  holds := out_buffer_holds;
  Rest := Z * Z * Z * gmap Z Tachyon * ArrayQueue (list bytes) * list bytes *
    gmap Z Connection.Connection * gmap NetworkAddress Connection.Connection;
  rest := λ p, (next_id p, max_servers p, receive_buffer_len p, servers p, receive_queue p, published p,
    connections_by_identity p, connections_by_address p);
  items_put_items := λ _ _, eq_refl;
  in_use_put_items := λ _ _, eq_refl;
  buffers_put_items := λ _ _, eq_refl;
  counter_put_items := λ _ _, eq_refl;
  rest_put_items := λ _ _, eq_refl;
  items_in_use := λ _ _, eq_refl;
  items_buffers := λ _ _, eq_refl;
  items_counter := λ _ _, eq_refl;
  rest_in_use := λ _ _, eq_refl;
  rest_buffers := λ _ _, eq_refl;
  rest_counter := λ _ _, eq_refl;
  idle_open := out_buffer_opens;
  work_step_spec := out_buffer_step_spec;
  close_full := out_buffer_full
|}.

(** ** Handing out *)

Definition empty_buffer (o : OutBuffer.OutBuffer) : Prop := OutBuffer.count o = 0.

(** The buffers in front that are empty are passed over. *)
Lemma get_next_skips zs : ∀ n p rb result rest',
  (length zs ≤ n)%nat → contents (out_buffers p) = zs ++ rest' → Forall empty_buffer zs →
  len (contents (out_buffers p)) ≤ capacity (out_buffers p) →
  ∃ q, get_next_out_buffer_loop n p rb result = get_next_out_buffer_loop (n - length zs) (p <| out_buffers := q |>) rb result ∧
    contents q = rest' ++ zs ∧ capacity q = capacity (out_buffers p).
Proof.
  induction zs as [|z zs IH]; intros n p rb result rest' Hn Hc Hz Hroom.
  { exists (out_buffers p). rewrite Nat.sub_0_r, app_nil_r. split_and!; [by destruct p|done..]. }
  apply Forall_cons in Hz as [Hz Hzs]. destruct n as [|n]; [simpl in Hn; lia|]. cbn [get_next_out_buffer_loop length Nat.sub].
  destruct (queue_pop_spec (out_buffers p) z (zs ++ rest')) as (q1 & -> & Hq1 & Hc1); [done|].
  unfold empty_buffer in Hz. rewrite Hz. change (0 =? 0) with true. cbv iota.
  change (out_buffers (p <| out_buffers := q1 |>)) with q1. rewrite Hc in Hroom. cbn [app length] in Hroom, Hn.
  destruct (queue_push_spec z q1) as (q2 & -> & Hq2 & Hc2); [rewrite Hq1; lia|].
  change (p <| out_buffers := q1 |> <| out_buffers := q2 |>) with (p <| out_buffers := q2 |>).
  destruct (IH n (p <| out_buffers := q2 |>) rb result (rest' ++ [z])) as (q & -> & Hq & Hcq).
  - lia.
  - cbn [out_buffers set]. by rewrite Hq2, Hq1, <-app_assoc.
  - done.
  - cbn [out_buffers set]. rewrite Hq2, Hc2, Hc1, Hq1, length_app. simpl. lia.
  - exists q. split; [done|]. cbn [out_buffers set] in Hcq. rewrite Hq, Hcq, <-app_assoc. split; [done|congruence].
Qed.

Lemma get_next_empty p rb : Forall empty_buffer (contents (out_buffers p)) →
  len (contents (out_buffers p)) ≤ capacity (out_buffers p) →
  ∃ q, get_next_out_buffer p rb = Ret (p <| out_buffers := q |>, rb, OutBufferCounts.default).
Proof.
  intros Hz Hroom. unfold get_next_out_buffer. rewrite queue_len_spec, Nat2Z.id.
  destruct (get_next_skips (contents (out_buffers p)) (length (contents (out_buffers p))) p rb OutBufferCounts.default [])
    as (q & -> & _); [lia|by rewrite app_nil_r|done|done|]. rewrite Nat.sub_diag. by exists q.
Qed.

(** The first buffer that is not empty is handed out and emptied. *)
Lemma get_next_full p rb zs o rest' :
  contents (out_buffers p) = zs ++ o :: rest' → Forall empty_buffer zs → OutBuffer.count o ≠ 0 →
  len (contents (out_buffers p)) ≤ capacity (out_buffers p) →
  0 ≤ OutBuffer.bytes_written o ≤ len (OutBuffer.data o) → OutBuffer.bytes_written o ≤ len rb →
  ∃ q, get_next_out_buffer p rb =
      Ret (p <| out_buffers := q |>, splice 0 (firstn (Z.to_nat (OutBuffer.bytes_written o)) (OutBuffer.data o)) rb,
           OutBufferCounts.mk (OutBuffer.bytes_written o) (OutBuffer.count o)) ∧
    contents q = rest' ++ zs ++ [o <| OutBuffer.bytes_written := 0 |> <| OutBuffer.count := 0 |>] ∧
    capacity q = capacity (out_buffers p).
Proof.
  intros Hc Hz Ho Hroom Hb Hrb. unfold get_next_out_buffer. rewrite queue_len_spec, Nat2Z.id.
  destruct (get_next_skips zs (length (contents (out_buffers p))) p rb OutBufferCounts.default (o :: rest'))
    as (q & -> & Hq & Hcq); [rewrite Hc, length_app; lia|done|done|done|].
  rewrite Hc, length_app. replace (length zs + length (o :: rest') - length zs)%nat with (S (length rest')) by (simpl; lia).
  cbn [get_next_out_buffer_loop]. change (out_buffers (p <| out_buffers := q |>)) with q.
  destruct (queue_pop_spec q o (rest' ++ zs)) as (q1 & -> & Hq1 & Hc1); [done|].
  destruct (Z.eqb_spec (OutBuffer.count o) 0); [done|].
  rewrite slice_prefix, bind_ret_l by lia. rewrite copy_in_bounds, bind_ret_l; [|lia..|rewrite length_take; lia].
  cbv zeta. set (o' := o <| OutBuffer.bytes_written := 0 |> <| OutBuffer.count := 0 |>).
  change (out_buffers (p <| out_buffers := q |> <| out_buffers := q1 |>)) with q1. rewrite Hc, length_app in Hroom. simpl in Hroom.
  destruct (queue_push_spec o' q1) as (q2 & Hpush & Hq2 & Hc2); [rewrite Hq1, length_app; lia|].
  exists q2. rewrite Hpush, Hq2, Hq1, <-app_assoc. split_and!; [done|done|congruence].
Qed.

(** The caller asks [n] times, each time with the same buffer. *)
Fixpoint fetch (n : nat) (p : Pool) (rb : bytes) : outcome (Pool * bytes * list (OutBufferCounts.OutBufferCounts * bytes)) :=
  match n with
  | O => Ret (p, rb, [])
  | S n' =>
      '(p, rb, counts) ← get_next_out_buffer p rb;
      '(p, rb', results) ← fetch n' p rb;
      Ret (p, rb', (counts, rb) :: results)
  end.

(** What a caller that is handed [res] reads.  A server that received 100000
    messages filled the buffer without its length. *)
Definition reads_all (o : Z * list message) (res : OutBufferCounts.OutBufferCounts * bytes) : Prop :=
  OutBufferCounts.count res.1 = len o.2 ∧
  if len o.2 <? 100000 then Forall message_ok o.2 → read_messages (length o.2) LengthPrefixed.default res.2 = Ret o.2
  else OutBufferCounts.bytes_written res.1 = 0.

Definition has_messages (o : Z * list message) : bool := match o.2 with [] => false | _ => true end.

Lemma holds_bytes ms o : out_buffer_holds ms o → L < 2 ^ 32 →
  0 ≤ OutBuffer.bytes_written o ≤ len (OutBuffer.data o).
Proof.
  intros (Hl & _ & Hp) HL. case_decide; [|lia]. by apply (packed_bytes ms o Hp Hl HL).
Qed.

Lemma handed_out_reads ms o rb : out_buffer_holds ms o → (length ms ≤ RECEIVE_SERVER_LOOPS)%nat →
  L < 2 ^ 32 → L ≤ len rb → ∀ k,
  reads_all (k, ms) (OutBufferCounts.mk (OutBuffer.bytes_written o) (OutBuffer.count o),
    splice 0 (firstn (Z.to_nat (OutBuffer.bytes_written o)) (OutBuffer.data o)) rb).
Proof.
  intros (Hl & Hc & Hp) Hms HL Hrb k. pose proof loops as Hloops.
  split; cbn [fst snd OutBufferCounts.count OutBufferCounts.bytes_written].
  { rewrite Hc, as_u32_small by lia. done. }
  case_decide as Hlt; destruct (Z.ltb_spec (len ms) 100000); [|lia|lia|done].
  intros Hok. destruct (packed_bytes ms o Hp Hl HL) as [Hb Hbytes].
  rewrite (Hbytes Hok). eapply read_messages_spec; [|done]. apply (suffix_at_splice 0). lia.
Qed.

Lemma fetch_spec outs used :
  Forall2 (λ o it, out_buffer_holds o.2 it ∧ (length o.2 ≤ RECEIVE_SERVER_LOOPS)%nat) outs used → L < 2 ^ 32 →
  ∀ p rb pre post, contents (out_buffers p) = pre ++ used ++ post → Forall empty_buffer pre → Forall empty_buffer post →
  len (contents (out_buffers p)) ≤ capacity (out_buffers p) → L ≤ len rb →
  ∃ q rb' results, fetch (length (filter has_messages outs)) p rb = Ret (p <| out_buffers := q |>, rb', results) ∧
    Forall2 reads_all (filter has_messages outs) results ∧ Forall empty_buffer (contents q) ∧
    length (contents q) = length (contents (out_buffers p)) ∧ capacity q = capacity (out_buffers p).
Proof.
  intros Houts HL. induction Houts as [|[k ms] o outs used [Hh Hms] _ IH]; intros p rb pre post Hc Hpre Hpost Hroom Hrb.
  { exists (out_buffers p), rb, []. cbn. split; [by destruct p|]. split; [done|]. rewrite Hc. split; [|done]. by apply Forall_app. }
  cbn [snd] in *. destruct ms as [|m0 ms0].
  - rewrite filter_cons_False by auto.
    apply (IH p rb (pre ++ [o]) post); [by rewrite Hc, <-app_assoc| |done..].
    apply Forall_app. split; [done|]. constructor; [|done]. by destruct Hh as (_ & ? & _).
  - set (ms := m0 :: ms0) in *. rewrite filter_cons_True by done.
    cbn [length fetch].
    pose proof (holds_bytes ms o Hh HL) as Hb. pose proof (proj1 Hh) as Hl. pose proof loops as Hloops.
    assert (OutBuffer.count o ≠ 0) as Hcount.
    { destruct Hh as (_ & -> & _). rewrite as_u32_small by lia. simpl. lia. }
    destruct (get_next_full p rb pre o (used ++ post)) as (q & -> & Hq & Hcq); [done..|lia|]. rewrite bind_ret_l. cbv beta iota.
    set (rb1 := splice 0 _ rb).
    assert (length rb1 = length rb) as Hrb1 by (unfold rb1; rewrite length_splice; [done|rewrite length_take; lia]).
    destruct (IH (p <| out_buffers := q |>) rb1 [] (post ++ pre ++ [o <| OutBuffer.bytes_written := 0 |> <| OutBuffer.count := 0 |>]))
      as (q' & rb' & results & -> & Hres & Hq' & Hlen & Hcq').
    + cbn [out_buffers set]. by rewrite Hq, <-app_assoc.
    + done.
    + apply Forall_app. split; [done|]. apply Forall_app. split; [done|]. by constructor.
    + cbn [out_buffers set]. rewrite Hq, Hcq. rewrite Hc in Hroom. revert Hroom. rewrite !length_app. simpl. lia.
    + lia.
    + rewrite bind_ret_l. cbv beta iota. cbn [out_buffers set] in Hlen, Hcq'.
      exists q', rb', ((OutBufferCounts.mk (OutBuffer.bytes_written o) (OutBuffer.count o), rb1) :: results).
      split; [done|]. split; [constructor; [by apply handed_out_reads|done]|]. split; [done|]. split; [|congruence].
      rewrite Hlen, Hq, Hc, !length_app. simpl. lia.
Qed.

Lemma turn_served p outs back : pool_ok p → outs.*1 ≡ₚ ids (servers p) → id <$> back = ids (servers p) →
  Forall (served (servers p) outs) back →
  ∀ m : gmap Z Tachyon, (∀ k s, m !! k = Some s ↔ s ∈ back ∧ id s = k) →
  dom m = dom (servers p) ∧
  ∀ k ms, (k, ms) ∈ outs → ∃ s0 s, servers p !! k = Some s0 ∧ m !! k = Some s ∧ turn s0 ms s.
Proof.
  intros Hp Houts Hback Hserved m Hm. split.
  - apply set_eq. intros k. rewrite !elem_of_dom. split.
    + intros [s [Hs <-]%Hm]. by destruct (proj1 (Forall_forall _ _) Hserved s Hs) as (s0 & ms & -> & _).
    + intros Hk%elem_of_dom. rewrite <-elem_of_elements, <-ids_dom, <-Hback in Hk.
      apply list_elem_of_fmap in Hk as (s & -> & Hs). exists s. by apply Hm.
  - intros k ms Ho. destruct (in_outs_bound p outs back Houts ltac:(by rewrite Hback) Hserved k ms Ho) as (s0 & s & Hs0 & Hs & Hk & Ht).
    exists s0, s. split_and!; [done| |done]. by apply Hm.
Qed.

Lemma blocking_out_buffer_result p w p' w' rb :
  pool_ok p → Z.of_nat (size (servers p)) ≤ max_servers p → Forall out_buffer_idle (contents (out_buffers p)) →
  L < 2 ^ 32 → L ≤ len rb → receive_blocking_out_buffer p w p' w' →
  pool_ok p' ∧ dom (servers p') = dom (servers p) ∧
  ∃ outs, outs.*1 ≡ₚ elements (dom (servers p)) ∧
    (∀ k ms, (k, ms) ∈ outs → ∃ s0 s, servers p !! k = Some s0 ∧ servers p' !! k = Some s ∧ turn s0 ms s) ∧
    ∃ p2 rb2 results, fetch (length (filter has_messages outs)) p' rb = Ret (p2, rb2, results) ∧
      Forall2 reads_all (filter has_messages outs) results ∧
      ∀ rb3, ∃ p3, get_next_out_buffer p2 rb3 = Ret (p3, rb3, OutBufferCounts.default).
Proof.
  intros Hp Hsize Hidle HL Hrb Hreceive. inversion Hreceive as [p0 w0 ts p1 w1 Hsteps Hall]; subst. clear Hreceive.
  pose proof (par_iter_starts into_out_buffer p w Hp Hsize Hidle (ok_out p Hp) (ok_out_capacity p Hp)) as Hinv.
  eapply steps_invariant in Hinv; [|exact Hsteps].
  destruct (all_served_ends into_out_buffer p _ Hp Hinv Hall) as (back & ready & used & outs & Hts & Hback & Hit & Hready &
    Hused & Houts & Hserved & Hrest & Hin & C1 & Hfull & C2 & L3 & C3 & Hcounter). cbn [tasks pool] in *. subst ts.
  injection Hrest as _ Emax _ Eserv Equeue _ _ _.
  destruct (put_served_spec into_out_buffer p back Hp Hback p1 Eserv) as [Hput Hlook].
  set (p' := put_served p1 _) in *.
  destruct (turn_served p outs back Hp Houts Hback Hserved (servers p') Hlook) as [Hdom Hturn].
  assert (contents (out_buffers p') = ready ++ used) as Hcont by (rewrite Hput; exact Hit).
  assert (capacity (out_buffers p') = max_servers p) as Hcap.
  { rewrite Hput. transitivity (capacity (out_buffers p)); [exact C2|apply (ok_out_capacity p Hp)]. }
  assert (len (contents (out_buffers p')) = max_servers p) as Hlen.
  { rewrite <-Hcap, Hput. exact Hfull. }
  split; [|split; [done|]].
  { split; rewrite ?Hlen, ?Hcap; [by intros k s [_ Hk]%Hlook|..]; rewrite Hput; cbn; rewrite ?Emax, ?Equeue; try done; by apply Hp. }
  exists outs. split; [by rewrite Houts, ids_dom|]. split; [done|].
  destruct (fetch_spec outs used) with (p := p') (rb := rb) (pre := ready) (post := @nil OutBuffer.OutBuffer)
    as (q & rb2 & results & Hfetch & Hres & Hempty & Hlq & Hcq); rewrite ?app_nil_r; try done; try lia.
  - apply (Forall2_impl (λ o it, out_buffer_holds o.2 it ∧ o ∈ outs)).
    + apply Forall2_same_length_lookup. split; [by eapply Forall2_length|]. intros i o it Ho Hit'.
      split; [by apply (Forall2_lookup_lr _ _ _ _ _ _ Hused Ho Hit')|by eapply list_elem_of_lookup_2].
    + intros [k ms] it [Hh Ho]. split; [done|]. destruct (Hturn k ms Ho) as (s0 & s & _ & _ & Ht). by eapply turn_length.
  - eapply Forall_impl; [exact Hready|]. by intros o [Ho _].
  - eexists _, _, _. split; [exact Hfetch|]. split; [done|]. intros rb3.
    destruct (get_next_empty (p' <| out_buffers := q |>) rb3) as (q' & Hnext); [done|cbn [out_buffers set]; lia|]. by eexists.
Qed.

(** C18: the tasks of a blocking receive into out buffers end, unless a server's
    receive panics, after at most 100007 steps per server.  However they
    interleave, every server has had one turn, and the application that asks for
    the out buffers, with a buffer as large as they are, is handed those of the
    servers that received something, each once: reading one gives that server's
    messages, all of them in order, each with its channel and address.  The
    exception is a server that received 100000 messages, with which the loop ends
    before the length is stored: its buffer is handed out with that count and no
    bytes.  Then the application is told that there is nothing more.  (The out
    buffers were fetched before.) *)
Theorem out_buffers_hand_out_what_was_received p w rb :
  pool_ok p → Z.of_nat (size (servers p)) ≤ max_servers p → Forall out_buffer_idle (contents (out_buffers p)) →
  L < 2 ^ 32 → L ≤ len rb →
  (∀ n r, nsteps (step into_out_buffer false) n (mk_run (par_iter_tasks into_out_buffer p) p w) r →
    Z.of_nat n ≤ Z.of_nat (size (servers p)) * 100007 ∧
    ((∀ r', ¬ step into_out_buffer false r r') →
      receive_blocking_out_buffer p w (put_served (pool r) (tasks r)) (world r) ∨ receive_panics into_out_buffer false r)) ∧
  ∀ p' w', receive_blocking_out_buffer p w p' w' →
    dom (servers p') = dom (servers p) ∧
    ∃ outs, outs.*1 ≡ₚ elements (dom (servers p)) ∧
      (∀ k ms, (k, ms) ∈ outs → ∃ s0 s, servers p !! k = Some s0 ∧ servers p' !! k = Some s ∧ turn s0 ms s) ∧
      ∃ p2 rb2 results, fetch (length (filter has_messages outs)) p' rb = Ret (p2, rb2, results) ∧
        Forall2 reads_all (filter has_messages outs) results ∧
        ∀ rb3, ∃ p3, get_next_out_buffer p2 rb3 = Ret (p3, rb3, OutBufferCounts.default).
Proof.
  intros Hp Hsize Hidle HL Hrb. split.
  - intros n [ts p1 w1] Hsteps.
    destruct (par_iter_ends into_out_buffer (SinkLaws0 := into_out_buffer_laws) p w Hp Hsize Hidle (ok_out p Hp) (ok_out_capacity p Hp) n _ Hsteps) as [Hn Hend].
    split; [done|]. intros Hnf. destruct (Hend Hnf) as [Hall|?]; [left|by right].
    econstructor; [by eapply rtc_nsteps_2|done].
  - intros p' w' Hreceive. by destruct (blocking_out_buffer_result p w p' w' rb Hp Hsize Hidle HL Hrb Hreceive) as (_ & Hdom & Houts).
Qed.
End blocking.
