(* ===== verification/pool_routing.v ===== *)
(** Which server of a pool sends to a target.

    [build_connection_maps] runs over all connections of all servers; the sends
    look a target up in the maps it builds. *)

From S2P Require Import prelude network_address int_buffer header nack send_result tachyon_socket unreliable_sender.
From S2P Require Import channel connection tachyon_state connection_impl tachyon pool_state.

Import NetworkAddress Tachyon Pool.

Section routing.
Context `{Callbacks} `{VarintOps} `{HashIter} `{ArrayQueueOps} `{CountdownOps} `{!HashIterLaws _}.
Implicit Types (p : Pool) (conn : Connection.Connection).

(** ** The maps *)

Definition all_connections p : list Connection.Connection :=
  (hash_iter (servers p)) ≫= λ server, (hash_iter (connections server.2)).*2.

Lemma foldl_flat (l : list (Z * Tachyon)) : ∀ q : Pool,
  foldl (λ self server, foldl (λ self entry, map_connection self entry.2) self (hash_iter (connections server.2))) q l =
  foldl map_connection q (l ≫= λ server, (hash_iter (connections server.2)).*2).
Proof.
  induction l as [|[k s] l IH]; intros q; [done|]. cbn [foldl mbind list_bind snd].
  rewrite foldl_app, <-IH. f_equal. clear. revert q. induction (hash_iter (connections s)) as [|[a c] l IH]; intros q; [done|].
  cbn [foldl fmap list_fmap snd]. apply IH.
Qed.

Lemma build_flat p : build_connection_maps p =
  foldl map_connection (p <| connections_by_address := ∅ |> <| connections_by_identity := ∅ |>) (all_connections p).
Proof. apply foldl_flat. Qed.

(** The pool's servers are as they were. *)
Lemma map_servers conns : ∀ p, servers (foldl map_connection p conns) = servers p.
Proof.
  induction conns as [|c conns IH]; intros p; [done|]. cbn [foldl]. rewrite IH. unfold map_connection.
  by destruct (0 <? _).
Qed.

Definition has_id (i : Z) conn : Prop := Identity.id (Connection.identity conn) = i.

#[export] Instance has_id_dec i conn : Decision (has_id i conn).
Proof. unfold has_id. apply _. Defined.

(** A map holds a connection for each address and each identity that has one. *)
Lemma by_address conns p a : connections_by_address p = ∅ →
  match connections_by_address (foldl map_connection p conns) !! a with
  | Some conn => conn ∈ conns ∧ Connection.address conn = a
  | None => ∀ conn, conn ∈ conns → Connection.address conn ≠ a
  end.
Proof.
  intros Hp. induction conns as [|c conns IH] using rev_ind; [by cbn; rewrite Hp, lookup_empty; intros conn ?%elem_of_nil|].
  rewrite foldl_snoc. set (q := foldl map_connection p conns) in *.
  assert (connections_by_address (map_connection q c) = <[Connection.address c := c]> (connections_by_address q)) as ->.
  { unfold map_connection. by destruct (0 <? _). }
  destruct (decide (Connection.address c = a)) as [<-|Hne].
  { rewrite lookup_insert_eq. split; [|done]. apply elem_of_app. right. by left. }
  rewrite lookup_insert_ne by done. destruct (connections_by_address q !! a) as [conn|].
  - destruct IH as [? ?]. split; [|done]. apply elem_of_app. by left.
  - intros conn [Hin|Hin%list_elem_of_singleton]%elem_of_app; [by apply IH|by subst].
Qed.

Lemma by_identity conns p i : connections_by_identity p = ∅ → 0 < i →
  match connections_by_identity (foldl map_connection p conns) !! i with
  | Some conn => conn ∈ conns ∧ has_id i conn
  | None => ∀ conn, conn ∈ conns → ¬ has_id i conn
  end.
Proof.
  intros Hp Hi. induction conns as [|c conns IH] using rev_ind; [by cbn; rewrite Hp, lookup_empty; intros conn ?%elem_of_nil|].
  rewrite foldl_snoc. set (q := foldl map_connection p conns) in *.
  assert (connections_by_identity (map_connection q c) !! i =
    if decide (has_id i c) then Some c else connections_by_identity q !! i) as ->.
  { unfold map_connection. destruct (decide (has_id i c)) as [Hc|Hc]; unfold has_id in Hc.
    - destruct (Z.ltb_spec 0 (Identity.id (Connection.identity c))); [|lia].
      cbn [connections_by_identity set]. by rewrite Hc, lookup_insert_eq.
    - destruct (0 <? _); [|done]. cbn [connections_by_identity set]. by rewrite lookup_insert_ne. }
  destruct (decide (has_id i c)) as [Hc|Hc].
  { split; [|done]. apply elem_of_app. right. by left. }
  destruct (connections_by_identity q !! i) as [conn|].
  - destruct IH as [? ?]. split; [|done]. apply elem_of_app. by left.
  - intros conn [Hin|Hin%list_elem_of_singleton]%elem_of_app; [by apply IH|by subst].
Qed.

(** ** Sending to a target *)

(** Connections are filed under their addresses and carry the id of their server. *)
Definition well_filed p : Prop :=
  ∀ k s a conn, servers p !! k = Some s → connections s !! a = Some conn →
    Connection.address conn = a ∧ Connection.tachyon_id conn = k.

Lemma elem_of_all_connections p conn : conn ∈ all_connections p ↔
  ∃ k s a, servers p !! k = Some s ∧ connections s !! a = Some conn.
Proof.
  unfold all_connections. rewrite list_elem_of_bind. split.
  - intros ([k s] & Hin & Hks). apply list_elem_of_fmap in Hin as ([a c] & -> & Hin).
    rewrite hash_iter_perm in Hin. rewrite hash_iter_perm in Hks. apply elem_of_map_to_list in Hin, Hks. by exists k, s, a.
  - intros (k & s & a & Hks & Ha). exists (k, s). split.
    + apply list_elem_of_fmap. exists (a, conn). split; [done|]. rewrite hash_iter_perm. by apply elem_of_map_to_list.
    + rewrite hash_iter_perm. by apply elem_of_map_to_list.
Qed.

(** The connection [conn] of the server [k] is what the target means. *)
Definition meant p (target : SendTarget.SendTarget) (k : Z) (s : Tachyon) conn : Prop :=
  servers p !! k = Some s ∧ connections s !! Connection.address conn = Some conn ∧
  if 0 <? SendTarget.identity_id target then has_id (SendTarget.identity_id target) conn
  else Connection.address conn = SendTarget.address target.

(** C25: after [build_connection_maps], a send to an identity or an address is a
    send by a server that has a connection with it, to the address of that
    connection, reliable unless the channel is 0, and no other server changes; the
    server's id is what the lookup functions of the pool answer.  A target that no
    server has a connection with is not sent to, and the result does not tell:
    it is the default result, whose error is 0. *)
Theorem pool_sends_from_the_connected_server p ch target data length now w :
  well_filed p →
  let p1 := build_connection_maps p in
  let owner := if 0 <? SendTarget.identity_id target
               then get_server_having_identity p1 (SendTarget.identity_id target)
               else get_server_having_connection p1 (SendTarget.address target) in
  servers p1 = servers p ∧
  ((∃ s conn, meant p target owner s conn ∧
     send_to_target p1 ch target data length now w =
       '(s', w', result) ←
         (if ch =? 0 then TachyonIo.send_unreliable s (Connection.address conn) data (as_u64 length) w
          else TachyonIo.send_reliable s ch (Connection.address conn) data (as_u64 length) now w);
       Ret (p1 <| servers := <[owner := s']> (servers p) |>, w', result)) ∨
   (∀ k s conn, ¬ meant p target k s conn) ∧ owner = 0 ∧
     send_to_target p1 ch target data length now w = Ret (p1, w, TachyonSendResult.default)).
Proof.
  intros Hwf p1 owner.
  assert (servers p1 = servers p) as Hs by (unfold p1; rewrite build_flat, map_servers; done). split; [done|].
  assert (∀ k s conn, servers p !! k = Some s → connections s !! Connection.address conn = Some conn → conn ∈ all_connections p)
    as Hall by (intros k s conn Hk Hc; apply elem_of_all_connections; by exists k, s, (Connection.address conn)).
  assert (∀ conn, conn ∈ all_connections p → ∃ s, servers p !! Connection.tachyon_id conn = Some s ∧
    connections s !! Connection.address conn = Some conn) as Hfiled.
  { intros conn (k & s & a & Hk & Ha)%elem_of_all_connections. destruct (Hwf k s a conn Hk Ha) as [<- <-]. by exists s. }
  unfold send_to_target, owner, meant. destruct (Z.ltb_spec 0 (SendTarget.identity_id target)) as [Hi|Hi].
  - unfold send_to_identity, get_server_having_identity, p1. rewrite build_flat.
    pose proof (by_identity (all_connections p) (p <| connections_by_address := ∅ |> <| connections_by_identity := ∅ |>)
      (SendTarget.identity_id target) eq_refl Hi) as Hlook.
    rewrite <-build_flat. fold p1. rewrite <-build_flat in Hlook. fold p1 in Hlook.
    destruct (connections_by_identity p1 !! _) as [conn|].
    + destruct Hlook as [Hin Hid]. destruct (Hfiled conn Hin) as (s & Hk & Hc). left. exists s, conn. split; [done|].
      rewrite Hs, Hk. unfold send_on. by rewrite Hs.
    + right. split_and!; [|done|done]. intros k s conn (Hk & Hc & Hid). by apply (Hlook conn); [eapply Hall|].
  - unfold send_to_address, get_server_having_connection, p1. rewrite build_flat.
    pose proof (by_address (all_connections p) (p <| connections_by_address := ∅ |> <| connections_by_identity := ∅ |>)
      (SendTarget.address target) eq_refl) as Hlook.
    rewrite <-build_flat. fold p1. rewrite <-build_flat in Hlook. fold p1 in Hlook.
    destruct (connections_by_address p1 !! _) as [conn|].
    + destruct Hlook as [Hin <-]. destruct (Hfiled conn Hin) as (s & Hk & Hc). left. exists s, conn. split; [done|].
      rewrite Hs, Hk. unfold send_on. by rewrite Hs.
    + right. split_and!; [|done|done]. intros k s conn (Hk & Hc & Ha). by apply (Hlook conn); [eapply Hall|].
Qed.
End routing.
