(* ===== verification/pool_sender_routing.v ===== *)
(** The unreliable sender of a pool sends where the pool would.

    [PoolUnreliableSender.build] copies the pool's routing and clones a socket of
    every server, so that another thread can send while the pool receives. *)

From S2P Require Import prelude network_address int_buffer header nack send_result tachyon_socket unreliable_sender.
From S2P Require Import channel connection tachyon_state connection_impl tachyon pool_state pool_unreliable_sender pool_routing.

Import NetworkAddress Tachyon.

Section routing.
Context `{Callbacks} `{VarintOps} `{HashIter} `{ArrayQueueOps} `{CountdownOps} `{!HashIterLaws _}.
Implicit Types (p : Pool.Pool) (s : PoolUnreliableSender.PoolUnreliableSender) (conn : Connection.Connection).
Import PoolUnreliableSender.

Definition clone_of (sock sock' : UdpSocket) : Prop := ∃ w w', os_try_clone sock w = (w', Some sock').

(** The maps of [s] are those of the pool. *)
Definition same_maps p s : Prop :=
  identity_to_conn_map s = Pool.connections_by_identity p ∧ address_to_conn_map s = Pool.connections_by_address p.

(** The sender that was made for server [i]. *)
Definition made p (i : Z) (u : UnreliableSender.UnreliableSender) : Prop :=
  ∃ server sock sock', Pool.servers p !! i = Some server ∧ TachyonSocket.socket (socket server) = Some sock ∧
    clone_of sock sock' ∧ UnreliableSender.socket u = Some sock' ∧ sender_ok u.

Definition all_made p s : Prop := ∀ i u, senders s !! i = Some u → made p i u.

Lemma map_both q s conn : same_maps q s → same_maps (Pool.map_connection q conn) (build_connection s conn).
Proof.
  intros [Hi Ha]. unfold Pool.map_connection, build_connection, same_maps. destruct (0 <? _); cbn; by rewrite ?Hi, ?Ha.
Qed.

Lemma map_all (conns : list (NetworkAddress * Connection.Connection)) : ∀ q s, same_maps q s →
  same_maps (foldl (λ self entry, Pool.map_connection self entry.2) q conns)
    (foldl (λ self entry, build_connection self entry.2) s conns) ∧
  senders (foldl (λ self entry, build_connection self entry.2) s conns) = senders s.
Proof.
  induction conns as [|c conns IH]; intros q s Hq; [done|]. cbn [foldl].
  destruct (IH _ _ (map_both q s c.2 Hq)) as [? ->]. split; [done|]. unfold build_connection. by case_match.
Qed.

(** The sender that [build] makes for a server, when there is none with its id. *)
Lemma make_sender_spec p s w server s1 w1 :
  Pool.servers p !! id server = Some server → all_made p s →
  (if opt_is_some (senders s !! id server) then Ret (s, w)
   else
     '(w, created) ← create_unreliable_sender server w;
     match created with
     | Some sender => Ret (s <| senders := <[id server := sender]> (senders s) |>, w)
     | None => Ret (s, w)
     end) = Ret (s1, w1) →
  identity_to_conn_map s1 = identity_to_conn_map s ∧ address_to_conn_map s1 = address_to_conn_map s ∧ all_made p s1 ∧
  senders s ⊆ senders s1 ∧ (is_Some (TachyonSocket.socket (socket server)) → is_Some (senders s1 !! id server)).
Proof.
  intros Hserver Hs. destruct (senders s !! id server) as [u|] eqn:Eu; cbn [opt_is_some].
  { intros [= <- <-]. by rewrite Eu. }
  unfold create_unreliable_sender, TachyonSocket.clone_socket.
  destruct (TachyonSocket.socket (socket server)) as [sock|] eqn:Esock.
  2:{ intros [= <- <-]. by split_and!. }
  destruct (os_try_clone sock w) as [w2 [sock'|]] eqn:Eclone; [|done]. intros [= <- <-].
  split_and!; [done|done| | |intros _; cbn; rewrite lookup_insert_eq; by eexists].
  - intros i u. cbn [senders set]. destruct (decide (i = id server)) as [->|Hne].
    + rewrite lookup_insert_eq. intros [= <-]. exists server, sock, sock'. split_and!; [done|done|by exists w, w2|done|].
      unfold sender_ok, UnreliableSender.create. cbn [UnreliableSender.send_buffer]. rewrite length_replicate.
      unfold UNRELIABLE_BUFFER_LEN. lia.
    + rewrite lookup_insert_ne by done. apply Hs.
  - cbn [senders set]. by apply insert_subseteq.
Qed.

(** One server of [build]. *)
Lemma build_server_spec p q s w server s' w' :
  Pool.servers p !! id server = Some server → same_maps q s → all_made p s →
  build_server (s, w) server = Ret (s', w') →
  same_maps (foldl (λ self entry, Pool.map_connection self entry.2) q (hash_iter (connections server))) s' ∧ all_made p s' ∧
  senders s ⊆ senders s' ∧ (is_Some (TachyonSocket.socket (socket server)) → is_Some (senders s' !! id server)).
Proof.
  intros Hserver [Hqi Hqa] Hs. unfold build_server.
  intros ([s1 w1] & (Hi & Ha & Hs1 & Hsub & Hsome)%(make_sender_spec p) & [= <- <-])%bind_Ret; [|done..].
  destruct (map_all (hash_iter (connections server)) q s1) as [Hmaps Hsenders]; [split; congruence|].
  unfold all_made. by rewrite Hsenders.
Qed.

Lemma build_all_spec p (l : list (Z * Tachyon)) : ∀ q s w s' w',
  Forall (λ e, Pool.servers p !! id e.2 = Some e.2) l → same_maps q s → all_made p s →
  foldl_m (λ st server, build_server st server.2) (s, w) l = Ret (s', w') →
  same_maps (foldl (λ self server, foldl (λ self entry, Pool.map_connection self entry.2) self
    (hash_iter (connections server.2))) q l) s' ∧ all_made p s' ∧ senders s ⊆ senders s' ∧
  ∀ e, e ∈ l → is_Some (TachyonSocket.socket (socket e.2)) → is_Some (senders s' !! id e.2).
Proof.
  induction l as [|e l IH]; intros q s w s' w' Hl Hq Hs; cbn [foldl_m foldl].
  { intros [= <- <-]. split_and!; try done. by intros e ?%elem_of_nil. }
  apply Forall_cons in Hl as [He Hl].
  intros ([s1 w1] & (Hq1 & Hs1 & Hsub1 & Hsome1)%(build_server_spec p q) & Hrest)%bind_Ret; [|done..].
  destruct (IH _ s1 w1 s' w' Hl Hq1 Hs1 Hrest) as (Hq' & Hs' & Hsub & Hsome). split_and!; [done|done|by etrans|].
  intros e' [->|Hin]%elem_of_cons Hsock; [|by apply Hsome].
  destruct (Hsome1 Hsock) as [u Hu]. exists u. by eapply lookup_weaken.
Qed.

(** Every server has the key of its id, and a socket. *)
Definition serving_pool p : Prop := ∀ k server, Pool.servers p !! k = Some server →
  id server = k ∧ is_Some (TachyonSocket.socket (socket server)).

(** What the sender is between sends, when [clones] are the sockets it has. *)
Record built p (clones : gmap Z UdpSocket) s : Prop := {
  bt_maps : same_maps (Pool.build_connection_maps p) s;
  bt_senders i sock' : clones !! i = Some sock' →
    ∃ u, senders s !! i = Some u ∧ UnreliableSender.socket u = Some sock' ∧ sender_ok u
}.

Lemma build_built p s0 w0 s w : serving_pool p → build s0 p w0 = Ret (s, w) →
  ∃ clones, built p clones s ∧ ∀ k server, Pool.servers p !! k = Some server →
    ∃ sock sock', TachyonSocket.socket (socket server) = Some sock ∧ clones !! k = Some sock' ∧ clone_of sock sock'.
Proof.
  intros Hp Hbuild.
  set (q := p <| Pool.connections_by_address := ∅ |> <| Pool.connections_by_identity := ∅ |>).
  destruct (build_all_spec p (hash_iter (Pool.servers p)) q
    (s0 <| address_to_conn_map := ∅ |> <| identity_to_conn_map := ∅ |> <| senders := ∅ |>) w0 s w) as (Hmaps & Hmade & _ & Hall).
  - apply Forall_forall. intros [k server] Hin. rewrite hash_iter_perm, elem_of_map_to_list in Hin. cbn.
    by destruct (Hp k server Hin) as [-> _].
  - done.
  - intros i u. cbn. by rewrite lookup_empty.
  - exact Hbuild.
  - exists (omap UnreliableSender.socket (senders s)). split; [split; [exact Hmaps|]|].
    + intros i sock'. rewrite lookup_omap_Some. intros (u & Hu & Hi). exists u. split; [done|].
      destruct (Hmade i u Hi) as (server & sock & sock2 & _ & _ & _ & Hsock & Hok). by split.
    + intros k server Hk. destruct (Hp k server Hk) as [Hid Hsock].
      destruct (Hall (k, server)) as [u Hu]; [by rewrite hash_iter_perm, elem_of_map_to_list|done|]. cbn in Hu. rewrite Hid in Hu.
      destruct (Hmade k u Hu) as (server' & sock & sock' & Hk' & Hs & Hclone & Hu' & _). rewrite Hk in Hk'. injection Hk' as <-.
      exists sock, sock'. split_and!; [done| |done]. rewrite lookup_omap, Hu. exact Hu'.
Qed.

(** ** Sending *)

(** The connection that a target means to the pool. *)
Definition target_connection p (target : SendTarget.SendTarget) : option Connection.Connection :=
  if 0 <? SendTarget.identity_id target then Pool.connections_by_identity p !! SendTarget.identity_id target
  else Pool.connections_by_address p !! SendTarget.address target.

Lemma target_filed p target conn : well_filed p →
  target_connection (Pool.build_connection_maps p) target = Some conn →
  is_Some (Pool.servers p !! Connection.tachyon_id conn) ∧
  (SendTarget.identity_id target ≤ 0 → Connection.address conn = SendTarget.address target).
Proof.
  intros Hwf. unfold target_connection. rewrite build_flat.
  set (q := p <| Pool.connections_by_address := ∅ |> <| Pool.connections_by_identity := ∅ |>).
  assert (∀ c, c ∈ all_connections p → is_Some (Pool.servers p !! Connection.tachyon_id c)) as Hall.
  { intros c (k & server & a & Hk & Ha)%elem_of_all_connections. destruct (Hwf k server a c Hk Ha) as [_ ->]. by eexists. }
  destruct (Z.ltb_spec 0 (SendTarget.identity_id target)) as [Hi|Hi]; intros E.
  - pose proof (by_identity (all_connections p) q (SendTarget.identity_id target) eq_refl Hi) as Hin.
    rewrite E in Hin. destruct Hin as [Hin _]. split; [by apply Hall|lia].
  - pose proof (by_address (all_connections p) q (SendTarget.address target) eq_refl) as Hin.
    rewrite E in Hin. destruct Hin as [Hin Ha]. split; [by apply Hall|done].
Qed.

Definition send_to_target_event (st : PoolUnreliableSender * World) (m : SendTarget.SendTarget * bytes) :
    outcome (PoolUnreliableSender * World) :=
  '(s, w, _) ← send_to_target st.1 m.1 m.2 (len m.2) st.2;
  Ret (s, w).

(** What the message does to the world: one datagram to the peer that the pool
    means by the target, or nothing. *)
Definition sent_by (clones : gmap Z UdpSocket) p (w : World) (m : SendTarget.SendTarget * bytes) : World :=
  match target_connection p m.1 with
  | Some conn =>
      match clones !! Connection.tachyon_id conn with
      | Some sock =>
          (TachyonSocket.transmit_on sock (Connection.address conn) (MESSAGE_TYPE_UNRELIABLE :: m.2) w).1
      | None => w
      end
  | None => w
  end.

Lemma send_on_spec p clones s k u sock a data w :
  built p clones s → senders s !! k = Some u → UnreliableSender.socket u = Some sock → sender_ok u → clones !! k = Some sock →
  1 ≤ len data < UNRELIABLE_BUFFER_LEN →
  ∃ s' r, send_on s k u a data (len data) w =
    Ret (s', (TachyonSocket.transmit_on sock a (MESSAGE_TYPE_UNRELIABLE :: data) w).1, r) ∧ built p clones s'.
Proof.
  intros [Hmaps Hsenders] Hu Hsock Hok Hclone Hlen. unfold send_on. unfold as_u64.
  rewrite wrap_small by (unfold UNRELIABLE_BUFFER_LEN in *; lia).
  destruct (unreliable_send_spec u a data (len data) w sock Hok Hsock) as (u' & Hsend & Hok' & Hsock'); [lia|lia|].
  rewrite Nat2Z.id, firstn_all in Hsend. rewrite Hsend, bind_ret_l. do 2 eexists. split; [done|]. split; [done|].
  intros i sock1 Hi. cbn [senders set]. destruct (decide (i = k)) as [->|Hne].
  - rewrite lookup_insert_eq. exists u'. split_and!; [done|congruence|done].
  - rewrite lookup_insert_ne by done. by apply Hsenders.
Qed.

Lemma send_to_target_spec p clones s target data w :
  well_filed p → built p clones s → (∀ k, is_Some (Pool.servers p !! k) → is_Some (clones !! k)) →
  1 ≤ len data < UNRELIABLE_BUFFER_LEN →
  ∃ s', send_to_target_event (s, w) (target, data) =
    Ret (s', sent_by clones (Pool.build_connection_maps p) w (target, data)) ∧ built p clones s'.
Proof.
  intros Hwf Hs Hclones Hlen. unfold send_to_target_event, send_to_target, send_to_identity, send_to_address, sent_by.
  cbn [fst snd]. destruct (bt_maps _ _ _ Hs) as [-> ->].
  destruct (target_connection (Pool.build_connection_maps p) target) as [conn|] eqn:Et.
  - destruct (target_filed p target conn Hwf Et) as [[sock Hsock]%Hclones Ha]. rewrite Hsock.
    destruct (bt_senders _ _ _ Hs _ sock Hsock) as (u & Hu & Husock & Hok). unfold target_connection in Et.
    destruct (send_on_spec p clones s (Connection.tachyon_id conn) u sock (Connection.address conn) data w)
      as (s' & r & Hsend & Hs'); [done..|].
    exists s'. split; [|done]. destruct (Z.ltb_spec 0 (SendTarget.identity_id target)); rewrite Et, Hu.
    + by rewrite Hsend.
    + rewrite <-Ha by lia. by rewrite Hsend.
  - exists s. split; [|done]. unfold target_connection in Et. by destruct (0 <? _); rewrite Et.
Qed.

(** ** Property *)

(** C26: the unreliable sender of a pool sends where the pool would.  After
    [build] it has a clone of the socket of every server; every message of 1 to
    16383 bytes for an identity or an address leaves, whole and in the order of
    the calls, through the clone of the server that has the connection which the
    pool's own maps give for that target, to the address of that connection; a
    message for a target that the pool does not know leaves nothing. *)
Theorem pool_sender_sends_where_the_pool_would p s0 w0 s w1 :
  well_filed p → serving_pool p → build s0 p w0 = Ret (s, w1) →
  ∃ clones,
    (∀ k server, Pool.servers p !! k = Some server →
       ∃ sock sock', TachyonSocket.socket (socket server) = Some sock ∧ clones !! k = Some sock' ∧ clone_of sock sock') ∧
    ∀ (ms : list (SendTarget.SendTarget * bytes)) w, Forall (λ m, 1 ≤ len m.2 < UNRELIABLE_BUFFER_LEN) ms →
      ∃ s', foldl_m send_to_target_event (s, w) ms =
        Ret (s', foldl (sent_by clones (Pool.build_connection_maps p)) w ms).
Proof.
  intros Hwf Hp (clones & Hs & Hclones)%build_built; [|done]. exists clones. split; [done|].
  assert (∀ k, is_Some (Pool.servers p !! k) → is_Some (clones !! k)) as Hall.
  { intros k [server Hk]. destruct (Hclones k server Hk) as (sock & sock' & _ & ? & _). by eexists. }
  intros ms w Hms. clear Hclones. revert s w Hs.
  induction Hms as [|[target data] ms Hm _ IH]; intros s w Hs; [by exists s|].
  destruct (send_to_target_spec p clones s target data w Hwf Hs Hall Hm) as (s2 & Hsend & Hs2).
  destruct (IH s2 (sent_by clones (Pool.build_connection_maps p) w (target, data)) Hs2) as (s3 & Hrest).
  exists s3. cbn [foldl_m foldl]. rewrite Hsend. exact Hrest.
Qed.
End routing.
