(* ===== verification/pool_histories.v ===== *)
(** A pool over all of its operations.

    What holds between two operations, whatever the application has called: the
    hypotheses of the theorems about receiving and routing, and that no server is
    ever lost. *)

From S2P Require Import prelude network_address int_buffer header nack send_result tachyon_socket unreliable_sender.
From S2P Require Import channel connection tachyon_state connection_impl tachyon tachyon_evolution pool_state pool_receive pool_tasks pool_sinks.
From S2P Require Import pool_serving pool_blocking pool_routing pool_sender_routing.

Import NetworkAddress Tachyon ConnectionImpl Pool PoolReceive.

Section histories.
Context `{Callbacks} `{VarintOps} `{HashIter} `{AQ : ArrayQueueOps} `{CD : CountdownOps}
  `{!HashIterLaws _} `{!ArrayQueueLaws AQ} `{!CountdownLaws CD}.
Implicit Types (p : Pool) (s t : Tachyon) (w : World).

(** ** The invariant *)

Record pool_inv p : Prop := {
  pi_ok : pool_ok p;
  pi_size : Z.of_nat (size (servers p)) ≤ max_servers p;
  pi_filed k s : servers p !! k = Some s → filed s;
  pi_socket k s : servers p !! k = Some s → has_socket s
}.

(** The same servers, each further on. *)
Definition servers_evolve p p' : Prop := ∀ k, option_Forall2 evolves (servers p !! k) (servers p' !! k).

Lemma servers_evolve_dom p p' : servers_evolve p p' → dom (servers p') = dom (servers p).
Proof.
  intros Hs. apply set_eq. intros k. rewrite !elem_of_dom. destruct (Hs k) as [s s' _|]; [|done]. split; by eexists.
Qed.

(** What the operations that do not receive leave as it is. *)
Record quiet p p' : Prop := {
  qt_servers : servers_evolve p p';
  qt_max : max_servers p' = max_servers p;
  qt_in_use : servers_in_use p' = servers_in_use p;
  qt_queue : receive_queue p' = receive_queue p;
  qt_buffers : receive_buffers p' = receive_buffers p;
  qt_out : length (contents (out_buffers p')) = length (contents (out_buffers p)) ∧
    capacity (out_buffers p') = capacity (out_buffers p);
  qt_counter : counter p' = counter p
}.

#[export] Instance quiet_preorder : PreOrder quiet.
Proof.
  split.
  - intros p. split; [intros k; reflexivity|done..].
  - intros p1 p2 p3 [S1 ? ? ? ? [? ?] ?] [S2 ? ? ? ? [? ?] ?]. split; [|congruence..|split; congruence|congruence].
    intros k. etrans; [apply S1|apply S2].
Qed.

(** A pool with the servers of another one, further on, keeps what is said of them. *)
Lemma servers_inv p p' : servers_evolve p p' → pool_inv p → max_servers p' = max_servers p → pool_ok p' → pool_inv p'.
Proof.
  intros Hs [Hok Hsize Hf Hsock] Hmax Hok'.
  assert (∀ k s', servers p' !! k = Some s' → ∃ s, servers p !! k = Some s ∧ evolves s s') as Hback.
  { intros k s' Hk. specialize (Hs k). rewrite Hk in Hs. inversion Hs as [s ? Hss Es|]; subst. eauto. }
  split; [done| | |].
  - rewrite Hmax. pose proof (servers_evolve_dom _ _ Hs) as Hdom. by rewrite <-size_dom, Hdom, size_dom.
  - intros k s' (s & Hk & Hss)%Hback. apply (ev_filed _ _ Hss). by eapply Hf.
  - intros k s' (s & Hk & Hss)%Hback. apply (ev_socket _ _ Hss). by eapply Hsock.
Qed.

Lemma quiet_inv p p' : quiet p p' → pool_inv p → pool_inv p'.
Proof.
  intros [Hs Hmax E1 E2 E3 [L1 C1] E4] Hp. pose proof (pi_ok _ Hp) as Hok. apply (servers_inv p); [done..|].
  split; rewrite ?Hmax, ?E1, ?E2, ?E3, ?L1, ?C1, ?E4; try apply Hok. intros k s' Hk. specialize (Hs k). rewrite Hk in Hs.
  inversion Hs as [s ? Hss Es|]; subst. rewrite (ev_id _ _ Hss). by apply (ok_ids p Hok).
Qed.

(** ** Operations on servers *)

Lemma quiet_same p p' : servers p' = servers p → max_servers p' = max_servers p → servers_in_use p' = servers_in_use p →
  receive_queue p' = receive_queue p → receive_buffers p' = receive_buffers p → out_buffers p' = out_buffers p →
  counter p' = counter p → quiet p p'.
Proof. intros Hs. split; [intros k; by rewrite Hs|congruence..|split; congruence|done]. Qed.

(** A server is put back where an earlier state of it was. *)
Lemma quiet_put p p1 k s s' : quiet p p1 → servers p !! k = Some s → evolves s s' →
  quiet p (p1 <| servers := <[k := s']> (servers p1) |>).
Proof.
  intros [Hs ? ? ? ? ? ?] Hk Hss. split; try done. intros k'. cbn [servers set].
  destruct (decide (k' = k)) as [->|]; [rewrite lookup_insert_eq, Hk; by constructor|by rewrite lookup_insert_ne].
Qed.

Lemma hash_iter_lookup {V} (m : gmap Z V) : Forall (λ e, m !! e.1 = Some e.2) (hash_iter m).
Proof. rewrite hash_iter_perm. apply Forall_forall. by intros [k v] ?%elem_of_map_to_list. Qed.

Lemma send_to_target_quiet p ch target data n now w p' w' r :
  Pool.send_to_target p ch target data n now w = Ret (p', w', r) → quiet p p'.
Proof.
  assert (∀ conn_id s a, servers p !! conn_id = Some s →
    send_on p conn_id s ch a data n now w = Ret (p', w', r) → quiet p p') as Hon.
  { intros k s a Hk. unfold send_on. intros ([[s' w1] res] & Hsend & [= <- _ _])%bind_Ret.
    eapply quiet_put; [reflexivity|done|].
    destruct (ch =? 0); [by apply send_unreliable_evolves in Hsend|by apply send_reliable_evolves in Hsend]. }
  unfold Pool.send_to_target, send_to_identity, send_to_address. intros Hsend.
  repeat case_match; try (by injection Hsend as <- _ _); by eapply Hon.
Qed.

Lemma pool_set_identity_quiet p k i session on_self w : quiet p (Pool.set_identity p k i session on_self w).1.
Proof.
  unfold Pool.set_identity, get_server. destruct (servers p !! k) as [s|] eqn:Hk; [|reflexivity].
  destruct (on_self =? 1); [by eapply quiet_put; [..|apply evolves_same]|].
  pose proof (set_identity_evolves s i session w) as Hs. destruct (ConnectionImpl.set_identity s i session w) as [s' w'].
  by eapply quiet_put.
Qed.

Lemma pool_configure_quiet p k ch cfg : quiet p (pool_configure_channel p k ch cfg).1.
Proof.
  unfold pool_configure_channel, get_server. destruct (servers p !! k) as [s|] eqn:Hk; [|reflexivity].
  pose proof (configure_channel_evolves s ch cfg) as Hs. destruct (configure_channel s ch cfg) as [s' res].
  by eapply quiet_put.
Qed.

Lemma build_quiet p : quiet p (build_connection_maps p).
Proof.
  rewrite build_flat. generalize (all_connections p) as l.
  enough (∀ l p1, quiet p p1 → quiet p (foldl map_connection p1 l)) as Hall by (intros l; apply Hall; by apply quiet_same).
  intros l. induction l as [|c l IH]; intros p1 Hp1; [done|]. cbn [foldl]. apply IH. etrans; [exact Hp1|].
  unfold map_connection. by destruct (0 <? _); apply quiet_same.
Qed.

Lemma pool_update_quiet p nsd now w p' nsd' w' : pool_update_servers p nsd now w = Ret (p', nsd', w') → quiet p p'.
Proof.
  unfold pool_update_servers. intros ([[p1 nsd1] w1] & Hl & [= <- _ _])%bind_Ret. etrans; [|apply build_quiet].
  pose proof (hash_iter_lookup (servers p)) as Hf. assert (quiet p p) as Hp by reflexivity.
  remember (hash_iter (servers p)) as l eqn:El. clear El. revert Hp Hl.
  generalize p at 2 3 as p0. revert nsd w. induction Hf as [|[k s] l Hk _ IH]; intros nsd w p0 Hp0; cbn [foldl_m]; [by intros [= <- _ _]|].
  intros ([[p2 nsd2] w2] & Hu & Hr)%bind_Ret.
  apply bind_Ret in Hu as ([[s' nsd3] w3] & Hu%update_evolves & [= <- <- <-]).
  eapply IH; [|exact Hr].
  eapply quiet_put; [exact Hp0|exact Hk|exact Hu].
Qed.

Lemma pool_callbacks_quiet p f g : quiet p (pool_register_callbacks p f g).
Proof.
  unfold pool_register_callbacks. pose proof (hash_iter_lookup (servers p)) as Hf. assert (quiet p p) as Hp by reflexivity.
  remember (hash_iter (servers p)) as l eqn:El. clear El. revert Hp. generalize p at 2 4 as p0.
  induction Hf as [|[k s] l Hk _ IH]; intros p0 Hp0; cbn [foldl]; [done|].
  apply IH. eapply quiet_put; [done..|]. cbn [snd].
  by destruct (opt_is_some f), (opt_is_some g); apply evolves_same.
Qed.

Lemma take_published_quiet p : quiet p (take_published p).1.
Proof. unfold take_published. destruct (published p); [reflexivity|by apply quiet_same]. Qed.

(** ** Out buffers *)

Lemma put_out_quiet p q : length (contents q) = length (contents (out_buffers p)) → capacity q = capacity (out_buffers p) →
  quiet p (p <| out_buffers := q |>).
Proof. intros. split; [intros k; reflexivity|done..]. Qed.

Lemma get_next_quiet n : ∀ p rb result p' rb' counts,
  len (contents (out_buffers p)) ≤ capacity (out_buffers p) →
  get_next_out_buffer_loop n p rb result = Ret (p', rb', counts) → quiet p p'.
Proof.
  induction n as [|n IH]; intros p rb result p' rb' counts Hroom; cbn [get_next_out_buffer_loop]; [by intros [= <- _ _]|].
  destruct (contents (out_buffers p)) as [|o l] eqn:Hc.
  { rewrite queue_pop_empty by done. cbv beta iota zeta. replace (p <| out_buffers := out_buffers p |>) with p by (by destruct p).
    apply IH. by rewrite Hc. }
  destruct (queue_pop_spec (out_buffers p) o l Hc) as (q & -> & Hq & Hcq). cbn [length] in Hroom.
  assert (∀ o' p2, p2 = p <| out_buffers := (queue_push o' q).1 |> →
    quiet p p2 ∧ len (contents (out_buffers p2)) ≤ capacity (out_buffers p2)) as Hpush.
  { intros o' p2 ->. destruct (queue_push_spec o' q) as (q2 & -> & Hq2 & Hcq2); [rewrite Hq, Hcq; lia|].
    cbn [fst out_buffers set]. assert (length (contents q2) = S (length l)) as Hl by (rewrite Hq2, Hq, length_app; simpl; lia).
    split; [apply put_out_quiet; [by rewrite Hc|congruence]|rewrite Hl; rewrite Hcq2, Hcq; lia]. }
  cbv beta iota zeta. cbn [out_buffers set]. destruct (_ =? 0).
  - destruct (Hpush o _ eq_refl) as [Hquiet Hroom']. destruct (queue_push o q) as [q2 res]. cbn [fst] in *.
    intros Hr. etrans; [exact Hquiet|]. by eapply IH.
  - intros (src & _ & (rb1 & _ & Hr)%bind_Ret)%bind_Ret. cbv zeta in Hr.
    match type of Hr with context [queue_push ?x q] => destruct (Hpush x _ eq_refl) as [Hquiet _]; destruct (queue_push x q) as [q2 res] end.
    injection Hr as <- _ _. exact Hquiet.
Qed.

Lemma get_next_out_buffer_quiet p rb p' rb' counts : pool_inv p →
  get_next_out_buffer p rb = Ret (p', rb', counts) → quiet p p'.
Proof.
  intros Hp. apply get_next_quiet. pose proof (pi_ok _ Hp) as Hok. rewrite (ok_out p Hok), (ok_out_capacity p Hok). lia.
Qed.

(** ** Receiving *)

(** Servers that have each had a turn. *)
Lemma turns_evolve p p' (outs : list (Z * list message)) :
  dom (servers p') = dom (servers p) → outs.*1 ≡ₚ elements (dom (servers p)) →
  (∀ k ms, (k, ms) ∈ outs → ∃ s0 s, servers p !! k = Some s0 ∧ servers p' !! k = Some s ∧ turn s0 ms s) →
  servers_evolve p p'.
Proof.
  intros Hdom Houts Hturn k. destruct (servers p !! k) as [s0|] eqn:Hk.
  - assert (k ∈ outs.*1) as Hin by (rewrite Houts, elem_of_elements, elem_of_dom; by eexists).
    apply list_elem_of_fmap in Hin as ([k' ms] & -> & Hin). destruct (Hturn _ _ Hin) as (s1 & s & Hs1 & Hs & Ht).
    cbn [fst] in *. assert (s1 = s0) as -> by congruence. rewrite Hs. constructor. by eapply turn_evolves.
  - apply not_elem_of_dom in Hk. rewrite <-Hdom in Hk. apply not_elem_of_dom in Hk as ->. constructor.
Qed.

Lemma receive_inv p w p0 ts r p' n m : pool_inv p → receive p = (p0, ts, true) →
  rtc (step into_queue true) (mk_run ts p0 w) r → finish_receive (pool r) = Some (p', n, m) →
  servers_evolve p p' ∧ pool_inv p'.
Proof.
  intros Hp Hreceive Hsteps Hfinish. pose proof (pi_ok _ Hp) as Hok. pose proof (pi_size _ Hp) as Hsize.
  assert (0 < Z.of_nat (size (servers p))) as Hpos.
  { unfold receive in Hreceive. destruct (Z.eqb_spec (Z.of_nat (size (servers p))) 0); [done|lia]. }
  destruct (receive_starts p w Hok) as (p0' & Hreceive' & Hinv); [lia|].
  rewrite Hreceive' in Hreceive. injection Hreceive as -> <-. eapply steps_invariant in Hinv; [|exact Hsteps].
  assert (Forall (λ t : task into_queue, t = Done) (tasks r)) as Hdone.
  { apply Forall_forall. intros t Ht. destruct t; try done; by rewrite (finish_waits p r _ Hinv Ht) in Hfinish. }
  destruct (finish_all_done p r Hok Hsize Hinv Hdone) as (p1 & outs & Hf & Houts & _ & Hdom & Hturn & Hok' & Hmax).
  rewrite Hf in Hfinish. injection Hfinish as -> _ _. assert (servers_evolve p p') as Hs by by eapply turns_evolve.
  split; [done|]. by eapply servers_inv.
Qed.

Lemma served_servers (sk : Sink) p p1 (back : list Tachyon) outs :
  pool_ok p → servers p1 = servers p → id <$> back = ids (servers p) → outs.*1 ≡ₚ ids (servers p) →
  Forall (served (servers p) outs) back →
  let p' := put_served p1 (Served (sk := sk) <$> back) in
  servers_evolve p p' ∧ (∀ k s, servers p' !! k = Some s → id s = k) ∧ ∃ m, p' = p1 <| servers := m |>.
Proof.
  intros Hok Hs Hback Houts Hserved p'. destruct (put_served_spec sk p back Hok Hback p1 Hs) as [Hput Hlook].
  destruct (turn_served p outs back Hok Houts Hback Hserved (servers p') Hlook) as [Hdom Hturn]. split_and!.
  - eapply turns_evolve; [done| |done]. by rewrite Houts, ids_dom.
  - by intros k s [_ ?]%Hlook.
  - eexists. exact Hput.
Qed.

Lemma receive_blocking_inv p w p' w' : pool_inv p → receive_blocking p w p' w' → servers_evolve p p' ∧ pool_inv p'.
Proof.
  intros Hp Hreceive. pose proof (pi_ok _ Hp) as Hok. pose proof (pi_size _ Hp) as Hsize. pose proof (ok_max p Hok) as Hmax.
  inversion Hreceive as [p0 w0 ts p1 w1 Hsteps Hall]; subst. clear Hreceive.
  assert (invariant into_queue false (servers p) (rest p) (blocking_caps into_queue p) (mk_run (par_iter_tasks into_queue p) p w)) as Hinv.
  { assert (Forall (λ q : list bytes, q = []) (contents (receive_queue p)) ∧ len (contents (receive_queue p)) = max_servers p) as [F1 F2].
    { rewrite (ok_queue p Hok), length_replicate. split; [by apply Forall_replicate|lia]. }
    apply par_iter_starts; [done|done|exact F1|exact F2|apply (ok_queue_capacity p Hok)]. }
  eapply steps_invariant in Hinv; [|exact Hsteps].
  destruct (all_served_ends into_queue p _ Hok Hinv Hall) as (back & ready & used & outs & Hts & Hback & Hit & Hready &
    Hused & Houts & Hserved & Hrest & Hin & C1 & Hfull & C2 & L3 & C3 & Hcounter). cbn [tasks pool] in *. subst ts.
  injection Hrest as _ Emax _ Eserv Eout _ _ _.
  destruct (served_servers into_queue p p1 back outs Hok Eserv Hback Houts Hserved) as (Hs & Hids & m & Hput).
  set (p2 := put_served p1 _) in *.
  assert (receive_queue p2 = receive_queue p1) as Eq by by rewrite Hput.
  assert (contents (receive_queue p1) = ready ++ used ∧ len (contents (receive_queue p1)) = max_servers p ∧
    capacity (receive_queue p1) = max_servers p) as (Hcont & Hlen & Hcap).
  { split; [exact Hit|]. assert (capacity (receive_queue p1) = max_servers p) as Hcap
      by (rewrite <-(ok_queue_capacity p Hok); exact C2). split; [|done]. rewrite <-Hcap. exact Hfull. }
  destruct (move_received_spec p2) as (q & Hmove & Hq & Hcq).
  { rewrite Eq. lia. }
  { rewrite Eq. destruct (outs_total p outs back Hok Hsize Houts) as [Htotal _]; [by rewrite Hback|done|].
    rewrite Hcont, concat_app, (concat_idle ready), (concat_holds outs used), app_nil_l, length_fmap; done. }
  rewrite Hmove. cbn [fst]. split; [done|]. apply (servers_inv p); [done|done|by change (max_servers p2 = max_servers p); rewrite Hput|].
  split; cbn [servers max_servers servers_in_use receive_queue receive_buffers out_buffers counter set];
    rewrite ?Hcq, ?Hq, ?Eq; [done|..]; rewrite Hput; cbn; rewrite ?Emax, ?Eout; try done; try apply Hok.
  f_equal. lia.
Qed.

(** Whatever the out buffers hold. *)
Lemma out_buffer_step_receives s st b now w s' st' b' w' continue :
  receive_server_into_out_buffer_step s st b now w = Ret (s', st', b', w', continue) →
  ∃ res, TachyonIo.receive_loop s b now w = Ret (s', b', w', res) ∧
    if (continue : bool) then ∃ m, received res b' m else nothing res.
Proof.
  destruct st as [writer o]. unfold receive_server_into_out_buffer_step.
  intros ([[[s1 b1] w1] res] & Hl & E)%bind_Ret. exists res. cbv beta iota in E. destruct (_ || _) eqn:Hres.
  - injection E as <- <- <- <- <-. apply nothing_spec in Hres. done.
  - apply bind_Ret in E as (payload & Hp & ([writer1 data1] & _ & [= <- <- <- <- <-])%bind_Ret).
    split; [done|]. eexists. by apply something_spec.
Qed.

#[local] Instance any_out_buffer_laws : SinkLaws into_out_buffer.
Proof.
  refine {| idle := λ _, True; working := λ _ _, True; holds := λ _ _, True;
    rest := λ p, (max_servers p, servers p, receive_queue p) |}; try done.
  intros s wk b now w s' wk' b' w' continue ms Hstep%out_buffer_step_receives _.
  destruct Hstep as (res & ? & Hres). exists res. split; [done|]. destruct continue; naive_solver.
Defined.

Lemma receive_blocking_out_inv p w p' w' : pool_inv p → receive_blocking_out_buffer p w p' w' →
  servers_evolve p p' ∧ pool_inv p'.
Proof.
  intros Hp Hreceive. pose proof (pi_ok _ Hp) as Hok. pose proof (pi_size _ Hp) as Hsize.
  inversion Hreceive as [p0 w0 ts p1 w1 Hsteps Hall]; subst. clear Hreceive.
  assert (invariant into_out_buffer false (servers p) (rest p) (blocking_caps into_out_buffer p)
    (mk_run (par_iter_tasks into_out_buffer p) p w)) as Hinv.
  { apply par_iter_starts; [done|done|..]; cbn [items into_out_buffer]; [by apply Forall_true|apply Hok..]. }
  eapply steps_invariant in Hinv; [|exact Hsteps].
  destruct (all_served_ends into_out_buffer p _ Hok Hinv Hall) as (back & ready & used & outs & Hts & Hback & _ & _ &
    _ & Houts & Hserved & Hrest & Hin & C1 & Hfull & C2 & L3 & C3 & Hcounter). cbn [tasks pool] in *. subst ts.
  injection Hrest as Emax Eserv Equeue.
  destruct (served_servers into_out_buffer p p1 back outs Hok Eserv Hback Houts Hserved) as (Hs & Hids & m & Hput).
  set (p2 := put_served p1 _) in *. split; [done|]. 
  assert (capacity (out_buffers p1) = max_servers p) as Hcap by (rewrite <-(ok_out_capacity p Hok); exact C2).
  assert (len (contents (out_buffers p1)) = max_servers p) as Hlen by (rewrite <-Hcap; exact Hfull).
  apply (servers_inv p); [done|done|by rewrite Hput|].
  split; [done|..]; rewrite Hput; cbn; rewrite ?Emax, ?Equeue; try done; apply Hok.
Qed.

(** ** Histories *)

(** What the application does with the server that [get_server] hands it, the
    time and its buffers in any way. *)
Inductive server_call : Tachyon → World → Tachyon → World → Prop :=
| call_set_identity s i session w :
    server_call s w (ConnectionImpl.set_identity s i session w).1 (ConnectionImpl.set_identity s i session w).2
| call_configure s ch cfg w : server_call s w (configure_channel s ch cfg).1 w
| call_get_connections s max now w : server_call s w (get_connections s max now).1 w
| call_bind s a w s' w' b : TachyonIo.bind s a w = Ret (s', w', b) → server_call s w s' w'
| call_connect s a now w s' w' b : TachyonIo.connect s a now w = Ret (s', w', b) → server_call s w s' w'
| call_update s nsd now w s' nsd' w' : TachyonIo.update s nsd now w = Ret (s', nsd', w') → server_call s w s' w'
| call_send s ch target data n now w s' w' r :
    TachyonIo.send_to_target s ch target data n now w = Ret (s', w', r) → server_call s w s' w'
| call_receive s rb now w s' rb' w' r : TachyonIo.receive_loop s rb now w = Ret (s', rb', w', r) → server_call s w s' w'.

Lemma server_call_evolves s w s' w' : server_call s w s' w' → evolves s s'.
Proof.
  intros [].
  - apply set_identity_evolves.
  - apply configure_channel_evolves.
  - apply get_connections_evolves.
  - by eapply bind_evolves.
  - by eapply connect_evolves.
  - by eapply update_evolves.
  - by eapply send_to_target_evolves.
  - by eapply receive_loop_evolves.
Qed.

(** One call of the application.  It creates a server only while there is room; a
    receive is followed by its [finish_receive], after any steps of the tasks. *)
Inductive pool_step : Pool * World → Pool * World → Prop :=
| step_create p config a i now w p' w' b : Z.of_nat (size (servers p)) < max_servers p →
    create_server p config a i now w = Ret (p', w', b) → pool_step (p, w) (p', w')
| step_server p k s w s' w' : get_server p k = Some s → server_call s w s' w' →
    pool_step (p, w) (p <| servers := <[k := s']> (servers p) |>, w')
| step_set_identity p k i session on_self w : pool_step (p, w) (Pool.set_identity p k i session on_self w)
| step_configure p k ch cfg w : pool_step (p, w) ((pool_configure_channel p k ch cfg).1, w)
| step_callbacks p f g w : pool_step (p, w) (pool_register_callbacks p f g, w)
| step_update p nsd now w p' nsd' w' : pool_update_servers p nsd now w = Ret (p', nsd', w') → pool_step (p, w) (p', w')
| step_build p w : pool_step (p, w) (build_connection_maps p, w)
| step_send p ch target data n now w p' w' r :
    Pool.send_to_target p ch target data n now w = Ret (p', w', r) → pool_step (p, w) (p', w')
| step_take p w : pool_step (p, w) ((take_published p).1, w)
| step_receive p w p0 ts r p' n m : receive p = (p0, ts, true) →
    rtc (step into_queue true) (mk_run ts p0 w) r → finish_receive (pool r) = Some (p', n, m) →
    pool_step (p, w) (p', world r)
| step_blocking p w p' w' : receive_blocking p w p' w' → pool_step (p, w) (p', w')
| step_blocking_out p w p' w' : receive_blocking_out_buffer p w p' w' → pool_step (p, w) (p', w')
| step_next_out p rb w p' rb' counts : get_next_out_buffer p rb = Ret (p', rb', counts) → pool_step (p, w) (p', w).

Lemma create_server_inv p config a i now w p' w' b : pool_inv p → Z.of_nat (size (servers p)) < max_servers p →
  create_server p config a i now w = Ret (p', w', b) → pool_inv p' ∧ dom (servers p) ⊆ dom (servers p').
Proof.
  intros Hp Hroom. unfold create_server. destruct (Z.ltb_spec (max_servers p) (Z.of_nat (size (servers p)))); [lia|].
  destruct (servers p !! i) as [s|] eqn:Hi; cbn [opt_is_some]; [by intros [= <- _ _]|].
  intros ([[t w1] bound] & Hb & Hr)%bind_Ret. apply bind_evolves in Hb as (_ & Hconn & Hsock). cbv beta iota in Hr.
  destruct bound; injection Hr as <- _ _; [|done]. cbn [servers set]. set (t' := t <| id := i |>).
  assert (filed t') as Hf by (intros a' c; unfold t'; cbn [connections set]; rewrite Hconn; by intros ?%(lookup_empty_Some (M := gmap _) a' c)).
  assert (has_socket t') as Hs by by apply Hsock. pose proof (pi_ok _ Hp) as Hok. split; [|rewrite dom_insert_L; set_solver].
  split; cbn [servers max_servers set].
  - split; try apply Hok. cbn [servers set]. intros k s [[<- <-]|[_ ?]]%lookup_insert_Some; [done|by apply (ok_ids p Hok)].
  - rewrite map_size_insert, Hi. lia.
  - intros k s [[_ <-]|[_ ?]]%lookup_insert_Some; [done|by eapply (pi_filed p Hp)].
  - intros k s [[_ <-]|[_ ?]]%lookup_insert_Some; [done|by eapply (pi_socket p Hp)].
Qed.

Lemma quiet_step p p' : pool_inv p → quiet p p' → pool_inv p' ∧ dom (servers p) ⊆ dom (servers p').
Proof.
  intros Hp Hq. split; [by eapply quiet_inv|]. by rewrite (servers_evolve_dom p p' (qt_servers _ _ Hq)).
Qed.

Lemma pool_call_inv st st' : pool_step st st' → pool_inv st.1 → pool_inv st'.1 ∧ dom (servers st.1) ⊆ dom (servers st'.1).
Proof.
  assert (∀ p p', servers_evolve p p' ∧ pool_inv p' → pool_inv p' ∧ dom (servers p) ⊆ dom (servers p')) as Hs.
  { intros p p' [Hs ?]. split; [done|]. by rewrite (servers_evolve_dom _ _ Hs). }
  intros [p config a i now w p' w' b Hroom E|p k s w s' w' Hk E| | | |p nsd now w p' nsd' w' E| |p ch target data n now w p' w' r E|
    |p w p0 ts r p' n m E1 E2 E3|p w p' w' E|p w p' w' E|p rb w p' rb' counts E] Hp; cbn [fst] in Hp |- *.
  - by eapply create_server_inv.
  - apply quiet_step; [done|]. by eapply quiet_put, server_call_evolves.
  - apply quiet_step; [done|]. apply pool_set_identity_quiet.
  - apply quiet_step; [done|]. apply pool_configure_quiet.
  - apply quiet_step; [done|]. apply pool_callbacks_quiet.
  - apply quiet_step; [done|]. by eapply pool_update_quiet.
  - apply quiet_step; [done|]. apply build_quiet.
  - apply quiet_step; [done|]. by eapply send_to_target_quiet.
  - apply quiet_step; [done|]. apply take_published_quiet.
  - apply Hs. by eapply receive_inv.
  - apply Hs. by eapply receive_blocking_inv.
  - apply Hs. by eapply receive_blocking_out_inv.
  - apply quiet_step; [done|]. by eapply get_next_out_buffer_quiet.
Qed.

Lemma pool_calls_inv st st' : rtc pool_step st st' → pool_inv st.1 → pool_inv st'.1 ∧ dom (servers st.1) ⊆ dom (servers st'.1).
Proof.
  induction 1 as [st|st1 st2 st3 Hstep _ IH]; intros Hp; [done|].
  destruct (pool_call_inv _ _ Hstep Hp) as [Hp2 Hd]. destruct (IH Hp2) as [? ?]. split; [done|]. by etrans.
Qed.

(** C12: whatever an application does with a pool that it never fills beyond its
    bound, in any order in which each receive is followed by its [finish_receive]
    (creating servers, using them, sending, updating, and receiving in each of the
    three ways, however the tasks interleave), the pool loses no server, and between two calls: every server is under its id and has
    its socket, connections are filed under their addresses and carry the id of
    their server, all queues and buffers are back where the next receive needs
    them, and there are no more servers than the bound. *)
Theorem pool_loses_no_server m receive_len out_len p0 w0 :
  0 < m < 256 → Pool.create m receive_len out_len = Ret p0 →
  ∀ p w, rtc pool_step (p0, w0) (p, w) →
    pool_ok p ∧ Z.of_nat (size (servers p)) ≤ max_servers p ∧ well_filed p ∧ serving_pool p ∧
    ∀ p' w', rtc pool_step (p, w) (p', w') → dom (servers p) ⊆ dom (servers p').
Proof.
  intros Hm Hcreate p w Hsteps. destruct (create_pool_ok m receive_len out_len Hm) as (p1 & Hc & Hok & Hempty).
  rewrite Hc in Hcreate. injection Hcreate as ->.
  destruct (pool_calls_inv _ _ Hsteps) as [Hp _].
  { split; cbn [fst]; [done|..]; rewrite ?Hempty; [pose proof (ok_max _ Hok); rewrite map_size_empty; lia|done..]. }
  cbn [fst] in Hp. pose proof (pi_ok _ Hp) as Hok'. split_and!; [done|apply Hp|..].
  - intros k s a conn Hk Ha. rewrite <-(ok_ids p Hok' _ _ Hk). by apply (pi_filed p Hp k).
  - intros k s Hk. split; [by apply (ok_ids p Hok')|by eapply (pi_socket p Hp)].
  - intros p' w' Hsteps'. by apply (pool_calls_inv _ _ Hsteps').
Qed.
End histories.
