(* ===== verification/pool_examples.v ===== *)
(** The theorems on pools at concrete inputs. *)

From S2P Require Import prelude network_address int_buffer header nack leb128 byte_buffer_pool receiver receiver_spec.
From S2P Require Import receiver_delivery receiver_refinement receiver_histories send_result tachyon_socket unreliable_sender trace_os.
From S2P Require Import channel connection tachyon_state connection_impl tachyon channel_receiving tachyon_delivery tachyon_examples.
From S2P Require Import pool_state pool_receive pool_tasks pool_sinks pool_serving pool_blocking pool_routing.
From S2P Require Import pool_unreliable_sender pool_sender_routing pool_histories.

Import NetworkAddress Tachyon ConnectionImpl Pool PoolReceive.

(** ** Queues and counters *)

(** A queue is its capacity with its elements. *)
#[export] Instance list_queues : ArrayQueueOps := {|
  ArrayQueue A := (Z * list A)%type;
  queue_new A n := if 0 <? n then Ret (n, []) else Panic CapacityOverflow;
  queue_push A x q := if len q.2 <? q.1 then ((q.1, q.2 ++ [x]), ROk tt) else (q, RErr x);
  queue_pop A q := match q.2 with [] => (q, None) | x :: l => ((q.1, l), Some x) end;
  queue_len A q := len q.2
|}.

#[export] Instance list_queue_laws : ArrayQueueLaws list_queues.
Proof.
  refine {| contents := λ A q, q.2; capacity := λ A q, q.1 |}; cbn.
  - intros A n Hn. destruct (Z.ltb_spec 0 n); [|lia]. by eexists.
  - intros A x q Hq. destruct (Z.ltb_spec (len q.2) q.1); [|lia]. by eexists.
  - intros A x q Hq. by destruct (Z.ltb_spec (len q.2) q.1); [lia|].
  - intros A [c l'] x l ->. by eexists.
  - by intros A [c l'] [= ->].
  - done.
Defined.

#[export] Instance z_countdown : CountdownOps := {|
  CountdownEvent := Z;
  countdown_new n := n;
  countdown_decrement c := if 0 <? c then (c - 1, ROk (c =? 1)) else (c, RErr tt);
  countdown_is_set c := c =? 0
|}.

#[export] Instance z_countdown_laws : CountdownLaws z_countdown.
Proof.
  refine {| countdown_count := λ c, c |}; cbn; [done| |done].
  intros c Hc. destruct (Z.ltb_spec 0 c); [|lia]. by do 2 eexists.
Defined.

(** ** A pool of two servers *)

(** Each has a connection with the client; their receive buffers are short. *)
Definition pool_server (i : Z) : Tachyon :=
  (create_connection ((Tachyon.create TachyonConfig.default 0) <| socket := server_socket |>
                        <| socket_receive_buffer := replicate 64 0 |> <| id := i |>)
     client_address Identity.default 0 example_world).1.

Definition example_pool : Pool :=
  Pool.mk 0 2 64 {[ 1 := pool_server 1; 2 := pool_server 2 ]} (2, [[]; []]) (2, [replicate 64 0; replicate 64 0])
    (2, [OutBuffer.mk (replicate 64 0) 0 0; OutBuffer.mk (replicate 64 0) 0 0]) [] (2, []) None ∅ ∅.

Lemma example_pool_servers : servers example_pool = {[ 1 := pool_server 1; 2 := pool_server 2 ]}.
Proof. done. Qed.

Lemma example_pool_lookup k s : servers example_pool !! k = Some s → (k = 1 ∨ k = 2) ∧ s = pool_server k.
Proof. rewrite example_pool_servers. intros [[<- <-]|[_ [<- <-]%lookup_singleton_Some]]%lookup_insert_Some; auto. Qed.

Lemma example_pool_size : Z.of_nat (size (servers example_pool)) = 2.
Proof. rewrite example_pool_servers. rewrite map_size_insert, lookup_singleton_ne, map_size_singleton by done. done. Qed.

Lemma example_pool_ok : pool_ok example_pool.
Proof.
  split; try (cbn; done || lia). intros k s [_ ->]%example_pool_lookup. done.
Qed.

(** The first message of the client waits twice: each server takes one. *)
Definition example_pool_inbox : World :=
  mk_trace ((λ k, (datagram 1 example_body k, to_socket_addr client_address)) <$> [1; 1]) [].

(** The tasks take turns. *)
Definition turns (n : nat) : list (nat * Z) := concat (replicate n [(0%nat, 3); (1%nat, 4)]).

Definition finished {sk} (t : task sk) : bool := match t with Done | Served _ => true | _ => false end.

Definition example_receive : outcome (run into_queue) :=
  let '(p0, ts, _) := receive example_pool in
  run_schedule into_queue true (turns 12) (mk_run ts p0 example_pool_inbox).

Lemma example_receive_result : match example_receive with
  | Ret r => (forallb finished (tasks r) && forallb (λ t, match t with Served _ => false | _ => true end) (tasks r),
              match finish_receive (pool r) with Some (p', n, m) => Some (published p', n, m) | None => None end)
  | Panic _ => (false, None)
  end = (true, Some ([[104; 105]; [104; 105]], 2, 2)).
Proof. vm_compute. reflexivity. Qed.

Lemma example_receive_done : ∃ r, example_receive = Ret r ∧ Forall (λ t, t = Done) (tasks r) ∧
  ∃ p' n m, finish_receive (pool r) = Some (p', n, m) ∧ published p' = [[104; 105]; [104; 105]].
Proof.
  pose proof example_receive_result as E. destruct example_receive as [r|]; [|done].
  destruct (finish_receive (pool r)) as [[[p' n] m]|] eqn:Ef; [|done]. injection E as Ed Ep _ _.
  exists r. split; [done|]. split; [|by exists p', n, m]. apply andb_prop in Ed as [E1 E2].
  apply Forall_forall. intros t Ht. apply list_elem_of_In in Ht. rewrite forallb_forall in E1, E2.
  specialize (E1 t Ht). specialize (E2 t Ht). by destruct t.
Qed.

Lemma example_pool_bounds : 0 < Z.of_nat (size (servers example_pool)) ≤ max_servers example_pool.
Proof. rewrite example_pool_size. cbn. lia. Qed.

(** After the run the two messages are published and both servers are back. *)
Lemma pool_receives_from_every_server_witness :
  ∃ r p' outs, example_receive = Ret r ∧ finish_receive (pool r) = Some (p', 2, len (concat outs.*2)) ∧
    published p' = [[104; 105]; [104; 105]] ∧ [] ++ (msg_payload <$> concat outs.*2) = [[104; 105]; [104; 105]] ∧
    outs.*1 ≡ₚ elements (dom (servers example_pool)).
Proof.
  destruct (pool_receives_from_every_server example_pool example_pool_inbox example_pool_ok example_pool_bounds)
    as (p0 & ts & Hreceive & Hall).
  destruct example_receive_done as (r & Hr & Hdone & p1 & n & m & Hfinish & Hpub).
  pose proof Hr as Hsteps. unfold example_receive in Hsteps. rewrite Hreceive in Hsteps. apply run_schedule_steps in Hsteps.
  destruct (Hall r Hsteps Hdone) as (p' & outs & Hfin & Hids & Hpub' & _).
  exists r, p', outs. split; [exact Hr|]. rewrite example_pool_size in Hfin. split; [exact Hfin|].
  rewrite Hfin in Hfinish. injection Hfinish as -> _ _. split; [exact Hpub|]. split; [|exact Hids].
  rewrite <-Hpub. symmetry. exact Hpub'.
Defined.

(** Whatever is scheduled, there are at most 200016 steps. *)
Lemma pool_receive_ends_witness :
  ∃ p0 ts, receive example_pool = (p0, ts, true) ∧
    ∀ n r, nsteps (step into_queue true) n (mk_run ts p0 example_pool_inbox) r → Z.of_nat n ≤ 2 * 100008.
Proof.
  destruct (receive example_pool) as [[p0 ts] b] eqn:E.
  assert (b = true) as -> by (assert ((receive example_pool).2 = true) as Eb by reflexivity; rewrite E in Eb; exact Eb).
  exists p0, ts. split; [reflexivity|]. intros n r Hsteps.
  rewrite <-example_pool_size. apply (pool_receive_ends example_pool example_pool_inbox p0 ts example_pool_ok example_pool_bounds E n r Hsteps).
Defined.

(** ** Out buffers *)

Definition example_blocking : outcome (run into_out_buffer) :=
  run_schedule into_out_buffer false (turns 12)
    (mk_run (par_iter_tasks into_out_buffer example_pool) example_pool example_pool_inbox).

Lemma example_blocking_result : match example_blocking with
  | Ret r => forallb (λ t, match t with Served _ => true | _ => false end) (tasks r)
  | Panic _ => false
  end = true.
Proof. vm_compute. reflexivity. Qed.

Lemma example_blocking_done :
  ∃ r : run into_out_buffer, receive_blocking_out_buffer example_pool example_pool_inbox (put_served (pool r) (tasks r)) (world r).
Proof.
  pose proof example_blocking_result as E. destruct example_blocking as [r|] eqn:Er; [|done].
  apply run_schedule_steps in Er. exists r. destruct r as [ts p w]. econstructor; [exact Er|].
  apply Forall_forall. intros t Ht. apply list_elem_of_In in Ht. cbn [tasks] in E. rewrite forallb_forall in E.
  specialize (E t Ht). destruct t; try done. by eexists.
Qed.

Lemma example_buffers_idle : Forall (out_buffer_idle 64) (contents (out_buffers example_pool)).
Proof. repeat constructor; cbn; lia. Qed.

Lemma out_buffers_hand_out_what_was_received_witness :
  ∃ p' w', receive_blocking_out_buffer example_pool example_pool_inbox p' w' ∧
    dom (servers p') = dom (servers example_pool) ∧
    ∃ outs : list (Z * list message), outs.*1 ≡ₚ elements (dom (servers example_pool)) ∧
      ∃ p2 rb2 results, fetch (length (filter has_messages outs)) p' (replicate 64 9) = Ret (p2, rb2, results) ∧
        Forall2 reads_all (filter has_messages outs) results.
Proof.
  destruct example_blocking_done as [r Hr]. eexists _, _. split; [exact Hr|].
  destruct (out_buffers_hand_out_what_was_received 64 example_pool example_pool_inbox (replicate 64 9) example_pool_ok
    (proj2 example_pool_bounds) example_buffers_idle ltac:(lia) ltac:(simpl; lia)) as [_ Hall].
  destruct (Hall _ _ Hr) as (Hdom & outs & Houts & _ & p2 & rb2 & results & Hfetch & Hreads & _).
  split; [exact Hdom|]. exists outs. split; [exact Houts|]. exists p2, rb2, results. split; [exact Hfetch|exact Hreads].
Defined.

(** ** More servers than there is room for *)

Lemma trace_bind (t : Tachyon) a (w : World) :
  TachyonSocket.socket (socket t) = None → ∃ t', TachyonIo.bind t a w = Ret (t', w, true).
Proof.
  intros Ht. unfold TachyonIo.bind, TachyonSocket.bind_socket. rewrite Ht. cbn [opt_is_some].
  by eexists.
Qed.

Lemma server_beyond_the_bound_is_lost_witness :
  ∃ p' w', create_server example_pool TachyonConfig.default (NetworkAddress.localhost 9003) 3 0 example_world =
      Ret (p', w', true) ∧
    ∃ p0 ts k, receive p' = (p0, ts, true) ∧ is_Some (servers p' !! k) ∧ servers p0 = ∅ ∧
      Forall (λ s, id s ≠ k) (contents (servers_in_use p0)).
Proof.
  destruct (trace_bind (Tachyon.create TachyonConfig.default 0) (NetworkAddress.localhost 9003) example_world eq_refl)
    as [t Hbind].
  destruct (server_beyond_the_bound_is_lost example_pool TachyonConfig.default (NetworkAddress.localhost 9003) 3 0 example_world
    example_pool_ok example_pool_size eq_refl t example_world Hbind) as (p' & Hcreate & Hlost).
  exists p', example_world. split; [exact Hcreate|exact Hlost].
Defined.

(** ** Routing *)

Lemma pool_server_connections k :
  connections (pool_server k) = {[ client_address := Connection.mk client_address Identity.default k 0 0 ]}.
Proof. reflexivity. Qed.

Lemma example_well_filed : well_filed example_pool.
Proof.
  intros k s a conn [_ ->]%example_pool_lookup. rewrite pool_server_connections.
  intros [<- <-]%lookup_singleton_Some. done.
Qed.

(** A message to the client is sent, one to another address is not. *)
Lemma pool_sends_from_the_connected_server_witness :
  (∃ k s conn, meant example_pool (SendTarget.mk 0 client_address) k s conn ∧
    send_to_target (build_connection_maps example_pool) 0 (SendTarget.mk 0 client_address) [104] 1 3 example_world =
      '(s', w', result) ← TachyonIo.send_unreliable s (Connection.address conn) [104] (as_u64 1) example_world;
      Ret ((build_connection_maps example_pool) <| servers := <[k := s']> (servers example_pool) |>, w', result)) ∧
  send_to_target (build_connection_maps example_pool) 0 (SendTarget.mk 0 (NetworkAddress.localhost 1)) [104] 1 3 example_world =
    Ret (build_connection_maps example_pool, example_world, TachyonSendResult.default).
Proof.
  split.
  - destruct (pool_sends_from_the_connected_server example_pool 0 (SendTarget.mk 0 client_address) [104] 1 3 example_world
      example_well_filed) as [_ [(s & conn & Hmeant & Hsend)|(Hnone & _)]].
    + eexists _, s, conn. split; [exact Hmeant|exact Hsend].
    + exfalso. apply (Hnone 1 (pool_server 1) (Connection.mk client_address Identity.default 1 0 0)). split_and!; reflexivity.
  - destruct (pool_sends_from_the_connected_server example_pool 0 (SendTarget.mk 0 (NetworkAddress.localhost 1)) [104] 1 3
      example_world example_well_filed) as [_ [(s & conn & (Hs & Hc & Ha) & _)|(_ & _ & Hsend)]].
    + exfalso. apply example_pool_lookup in Hs as [_ ->]. rewrite Ha, pool_server_connections in Hc. by apply lookup_singleton_Some in Hc as [? _].
    + exact Hsend.
Defined.

(** ** The unreliable sender of the pool *)

Lemma example_serving_pool : serving_pool example_pool.
Proof. intros k server [[-> | ->] ->]%example_pool_lookup; split; [done|by eexists|done|by eexists]. Qed.

Lemma example_build : ∃ s w, PoolUnreliableSender.build PoolUnreliableSender.create example_pool example_world = Ret (s, w).
Proof.
  assert (match PoolUnreliableSender.build PoolUnreliableSender.create example_pool example_world with
          | Ret _ => true | Panic _ => false end = true) as Hret by (vm_compute; reflexivity).
  destruct (PoolUnreliableSender.build _ _ _) as [[s w]|]; [by exists s, w|discriminate].
Qed.

(** A message for the client, and one for an address that no server knows. *)
Lemma pool_sender_sends_where_the_pool_would_witness :
  let ms := [(SendTarget.mk 0 client_address, [104; 105]); (SendTarget.mk 0 (NetworkAddress.localhost 1), [33])] in
  ∃ s w1 clones s', PoolUnreliableSender.build PoolUnreliableSender.create example_pool example_world = Ret (s, w1) ∧
    foldl_m send_to_target_event (s, w1) ms =
      Ret (s', foldl (sent_by clones (build_connection_maps example_pool)) w1 ms).
Proof.
  intros ms. destruct example_build as (s & w1 & E). exists s, w1.
  destruct (pool_sender_sends_where_the_pool_would example_pool _ _ s w1 example_well_filed example_serving_pool E)
    as (clones & _ & Hsend).
  destruct (Hsend ms w1) as (s' & Hrun).
  - unfold UNRELIABLE_BUFFER_LEN. repeat (apply Forall_cons_2; [simpl; lia|]). apply Forall_nil_2.
  - exists clones, s'. split; [exact E|exact Hrun].
Defined.

(** ** Histories *)

(** The new pool of two servers at most, and a server in it. *)
Lemma example_new_pool : ∃ p0, Pool.create 2 64 64 = Ret p0 ∧ max_servers p0 = 2 ∧ servers p0 = ∅.
Proof. eexists. split; [reflexivity|]. by split. Qed.

Lemma example_create_server p : max_servers p = 2 → servers p = ∅ →
  ∃ t, create_server p TachyonConfig.default (NetworkAddress.localhost 9001) 1 0 example_world =
    Ret (p <| servers := <[1 := t]> (servers p) |>, example_world, true).
Proof.
  intros Hm Hs. unfold create_server. rewrite Hm, Hs, map_size_empty, lookup_empty. cbn [opt_is_some Z.ltb].
  destruct (trace_bind (Tachyon.create TachyonConfig.default 0) (NetworkAddress.localhost 9001) example_world eq_refl) as [t Hbind].
  rewrite Hbind, bind_ret_l. by eexists.
Qed.

(** A server is created and stays; the pool is ready to receive. *)
Lemma pool_loses_no_server_witness :
  ∃ p0 p1 : Pool, Pool.create 2 64 64 = Ret p0 ∧ rtc pool_step (p0, example_world) (p1, example_world) ∧
    pool_ok p1 ∧ 1 ∈ dom (servers p1) ∧
    ∀ p' w', rtc pool_step (p1, example_world) (p', w') → 1 ∈ dom (servers p').
Proof.
  destruct example_new_pool as (p0 & Hcreate & Hm & Hs). destruct (example_create_server p0 Hm Hs) as [t Ht].
  set (p1 := p0 <| servers := <[1 := t]> (servers p0) |>) in Ht.
  assert (rtc pool_step (p0, example_world) (p1, example_world)) as Hsteps.
  { eapply rtc_once, step_create; [|exact Ht]. rewrite Hs, map_size_empty, Hm. lia. }
  destruct (pool_loses_no_server 2 64 64 p0 example_world ltac:(lia) Hcreate p1 example_world Hsteps) as (Hok & _ & _ & _ & Hdom).
  assert (1 ∈ dom (servers p1)) as Hin by (unfold p1; cbn [servers set]; rewrite dom_insert; set_solver).
  exists p0, p1. split; [exact Hcreate|]. split; [exact Hsteps|]. split; [exact Hok|]. split; [exact Hin|].
  intros p' w' Hsteps'. by apply (Hdom p' w' Hsteps').
Defined.
