(* ===== verification/foreign.v ===== *)
(** The memory that the foreign interface works on ([src/tachyon/ffi.rs],
    [src/tachyon/pool_ffi.rs], [src/tachyon/memory_block.rs] and the foreign functions
    of [src/tachyon/pool_unreliable_sender.rs]).

    The clients of the library are written in other languages.  They hold boxes
    by raw pointers, pass structs and buffers by pointers and get results through
    out parameters.  Here memory is a finite map from addresses to [Cell]s, an
    allocation each; a foreign function is a computation [F] on it that returns a
    value, aborts the process (a panic does not leave an [extern] function), waits
    for other threads, or is undefined: a pointer that is null, dangling or of
    another type, a slice that is longer than its allocation, memory that is given
    back twice.  Alignment, pointers into the middle of an allocation, data that
    the client did not initialise and races between threads of the client are not
    modelled. *)

From S2P Require Import prelude network_address int_buffer header nack send_result tachyon_socket unreliable_sender.
From S2P Require Import channel connection tachyon_state connection_impl tachyon pool_state pool_receive pool_unreliable_sender.

(** A block of memory for the client ([memory_block.rs]); address 0 is null. *)
Module MemoryBlock.

Record MemoryBlock := mk { memory : Z; length : Z }.

#[global] Instance eta_MemoryBlock : Eta MemoryBlock := λ b, mk (memory b) (length b).

End MemoryBlock.

(** The addresses that the allocator gives out, 0 when there is no memory: for a
    box, and for so many bytes. *)
Class Allocator := {
  allocate_box : gset Z → Z;
  allocate_bytes : gset Z → Z → Z
}.

Class AllocatorLaws (ops : Allocator) : Prop := {
  allocate_box_fresh used : allocate_box used ∉ used;
  allocate_bytes_fresh used n : allocate_bytes used n ∉ used
}.

(** Where bytes come from: only those of [alloc_zeroed] can be given to [dealloc]. *)
Inductive origin := Client | Zeroed.

#[export] Instance origin_eq_dec : EqDecision origin.
Proof. solve_decision. Defined.

Module Foreign.

Section foreign.
Context `{Callbacks} `{VarintOps} `{HashIter} `{ArrayQueueOps} `{CountdownOps}.

(** An allocation.  The tasks that [receive] has spawned on a pool's servers are
    kept with the pool until [finish_receive]. *)
Inductive Cell :=
| CTachyon (t : Tachyon.Tachyon)
| CSender (s : UnreliableSender.UnreliableSender)
| CPool (p : Pool.Pool) (spawned : list (PoolReceive.task PoolReceive.into_queue))
| CPoolSender (s : PoolUnreliableSender.PoolUnreliableSender)
| CTachyonConfig (c : TachyonConfig.TachyonConfig)
| CChannelConfig (c : ChannelConfig.ChannelConfig)
| CAddress (a : NetworkAddress.NetworkAddress)
| CTarget (t : SendTarget.SendTarget)
| CSendResult (r : TachyonSendResult.TachyonSendResult)
| CReceiveResult (r : TachyonReceiveResult.TachyonReceiveResult)
| CConnection (c : Connection.Connection)
| CIdentity (i : Identity.Identity)
| CStats (s : TachyonStats.TachyonStats)
| CCounts (c : OutBufferCounts.OutBufferCounts)
| CServerRef (r : PoolServerRef.PoolServerRef)
| CBlock (b : MemoryBlock.MemoryBlock)
| CBytes (o : origin) (b : bytes).

(** What is known of a cell without its contents. *)
Inductive kind :=
| KTachyon
| KSender
| KPool (receive_buffer_len : Z) (receiving : bool)
| KPoolSender
| KTachyonConfig
| KChannelConfig
| KAddress
| KTarget
| KSendResult
| KReceiveResult
| KConnection
| KIdentity
| KStats
| KCounts
| KServerRef
| KBlock (memory length : Z)
| KBytes (o : origin) (length : Z).

Definition kind_of (c : Cell) : kind :=
  match c with
  | CTachyon _ => KTachyon
  | CSender _ => KSender
  | CPool p spawned => KPool (Pool.receive_buffer_len p) (negb (len spawned =? 0))
  | CPoolSender _ => KPoolSender
  | CTachyonConfig _ => KTachyonConfig
  | CChannelConfig _ => KChannelConfig
  | CAddress _ => KAddress
  | CTarget _ => KTarget
  | CSendResult _ => KSendResult
  | CReceiveResult _ => KReceiveResult
  | CConnection _ => KConnection
  | CIdentity _ => KIdentity
  | CStats _ => KStats
  | CCounts _ => KCounts
  | CServerRef _ => KServerRef
  | CBlock b => KBlock (MemoryBlock.memory b) (MemoryBlock.length b)
  | CBytes o b => KBytes o (len b)
  end.

(** A type that a pointer can point to. *)
Class Located (X : Type) := {
  cell_of : X → Cell;
  of_cell : Cell → option X;
  of_cell_Some c x : of_cell c = Some x ↔ c = cell_of x
}.

(** [&mut *pool] has the pool with what runs on it. *)
Definition Running : Type := Pool.Pool * list (PoolReceive.task PoolReceive.into_queue).

Local Ltac located := let c := fresh in let x := fresh in intros c x; destruct c; split; intros; simplify_eq; try destruct x; done.

#[global] Instance located_Tachyon : Located Tachyon.Tachyon :=
  {| cell_of := CTachyon; of_cell c := match c with CTachyon t => Some t | _ => None end;
     of_cell_Some := ltac:(located) |}.
#[global] Instance located_Sender : Located UnreliableSender.UnreliableSender :=
  {| cell_of := CSender; of_cell c := match c with CSender s => Some s | _ => None end;
     of_cell_Some := ltac:(located) |}.
#[global] Instance located_Pool : Located Running :=
  {| cell_of r := CPool r.1 r.2; of_cell c := match c with CPool p ts => Some (p, ts) | _ => None end;
     of_cell_Some := ltac:(located) |}.
#[global] Instance located_PoolSender : Located PoolUnreliableSender.PoolUnreliableSender :=
  {| cell_of := CPoolSender; of_cell c := match c with CPoolSender s => Some s | _ => None end;
     of_cell_Some := ltac:(located) |}.
#[global] Instance located_TachyonConfig : Located TachyonConfig.TachyonConfig :=
  {| cell_of := CTachyonConfig; of_cell c := match c with CTachyonConfig x => Some x | _ => None end;
     of_cell_Some := ltac:(located) |}.
#[global] Instance located_ChannelConfig : Located ChannelConfig.ChannelConfig :=
  {| cell_of := CChannelConfig; of_cell c := match c with CChannelConfig x => Some x | _ => None end;
     of_cell_Some := ltac:(located) |}.
#[global] Instance located_Address : Located NetworkAddress.NetworkAddress :=
  {| cell_of := CAddress; of_cell c := match c with CAddress x => Some x | _ => None end;
     of_cell_Some := ltac:(located) |}.
#[global] Instance located_Target : Located SendTarget.SendTarget :=
  {| cell_of := CTarget; of_cell c := match c with CTarget x => Some x | _ => None end;
     of_cell_Some := ltac:(located) |}.
#[global] Instance located_SendResult : Located TachyonSendResult.TachyonSendResult :=
  {| cell_of := CSendResult; of_cell c := match c with CSendResult x => Some x | _ => None end;
     of_cell_Some := ltac:(located) |}.
#[global] Instance located_ReceiveResult : Located TachyonReceiveResult.TachyonReceiveResult :=
  {| cell_of := CReceiveResult; of_cell c := match c with CReceiveResult x => Some x | _ => None end;
     of_cell_Some := ltac:(located) |}.
#[global] Instance located_Connection : Located Connection.Connection :=
  {| cell_of := CConnection; of_cell c := match c with CConnection x => Some x | _ => None end;
     of_cell_Some := ltac:(located) |}.
#[global] Instance located_Identity : Located Identity.Identity :=
  {| cell_of := CIdentity; of_cell c := match c with CIdentity x => Some x | _ => None end;
     of_cell_Some := ltac:(located) |}.
#[global] Instance located_Stats : Located TachyonStats.TachyonStats :=
  {| cell_of := CStats; of_cell c := match c with CStats x => Some x | _ => None end;
     of_cell_Some := ltac:(located) |}.
#[global] Instance located_Counts : Located OutBufferCounts.OutBufferCounts :=
  {| cell_of := CCounts; of_cell c := match c with CCounts x => Some x | _ => None end;
     of_cell_Some := ltac:(located) |}.
#[global] Instance located_ServerRef : Located PoolServerRef.PoolServerRef :=
  {| cell_of := CServerRef; of_cell c := match c with CServerRef x => Some x | _ => None end;
     of_cell_Some := ltac:(located) |}.
#[global] Instance located_Block : Located MemoryBlock.MemoryBlock :=
  {| cell_of := CBlock; of_cell c := match c with CBlock x => Some x | _ => None end;
     of_cell_Some := ltac:(located) |}.

(** ** Computations *)

Record Process := mk_process {
  memory : gmap Z Cell;
  none_send_data : bytes;
  world : World
}.

#[global] Instance eta_Process : Eta Process := λ s, mk_process (memory s) (none_send_data s) (world s).

Inductive abort := Panicked (why : panic) | OutOfMemory.

Inductive result (A : Type) :=
| Returned (a : A) (s : Process)
| Aborted (why : abort)
| Waits
| Undefined.
#[global] Arguments Returned {A}.
#[global] Arguments Aborted {A}.
#[global] Arguments Waits {A}.
#[global] Arguments Undefined {A}.

Definition F (A : Type) : Type := Process → result A.

#[global] Instance F_ret : MRet F := λ A a s, Returned a s.
#[global] Instance F_bind : MBind F := λ A B f m s,
  match m s with
  | Returned a s' => f a s'
  | Aborted why => Aborted why
  | Waits => Waits
  | Undefined => Undefined
  end.

Definition lift {A} (m : outcome A) : F A := λ s,
  match m with
  | Ret a => Returned a s
  | Panic why => Aborted (Panicked why)
  end.

Definition wait {A} : F A := λ s, Waits.

Definition get_world : F World := λ s, Returned (world s) s.
Definition set_world (w : World) : F unit := λ s, Returned tt (s <| world := w |>).
Definition get_none_send_data : F bytes := λ s, Returned (none_send_data s) s.
Definition set_none_send_data (d : bytes) : F unit := λ s, Returned tt (s <| none_send_data := d |>).

(** [*p], [*p = x] *)
Definition read X `{Located X} (p : Z) : F X := λ s,
  match memory s !! p ≫= of_cell with
  | Some x => Returned x s
  | None => Undefined
  end.

Definition write {X} `{Located X} (p : Z) (x : X) : F unit := λ s,
  match (memory s !! p ≫= of_cell : option X) with
  | Some _ => Returned tt (s <| memory := <[p := cell_of x]> (memory s) |>)
  | None => Undefined
  end.

Context `{Allocator}.

(** [Box::into_raw(Box::new(x))]; without memory for it the process aborts. *)
Definition into_raw {X} `{Located X} (x : X) : F Z := λ s,
  let p := allocate_box (dom (memory s)) in
  if p =? 0 then Aborted OutOfMemory
  else Returned p (s <| memory := <[p := cell_of x]> (memory s) |>).

(** [Box::from_raw(p)], dropped at once. *)
Definition drop_box X `{Located X} (p : Z) : F unit := λ s,
  match (memory s !! p ≫= of_cell : option X) with
  | Some _ => Returned tt (s <| memory := delete p (memory s) |>)
  | None => Undefined
  end.

(** [slice::from_raw_parts_mut(p, n)] with a [usize] n: its contents, and what
    they are when the borrow ends. *)
Definition read_slice (p n : Z) : F bytes := λ s,
  match memory s !! p with
  | Some (CBytes _ b) => if n <=? len b then Returned (take (Z.to_nat n) b) s else Undefined
  | _ => Undefined
  end.

Definition write_slice (p : Z) (d : bytes) : F unit := λ s,
  match memory s !! p with
  | Some (CBytes o b) =>
      if len d <=? len b then Returned tt (s <| memory := <[p := CBytes o (splice 0 d b)]> (memory s) |>)
      else Undefined
  | _ => Undefined
  end.

(** [Layout::array::<u8>(n)], the size when there is such a layout. *)
Definition layout_array (n : Z) : option Z := if n <=? isize_max then Some n else None.

(** [alloc_zeroed(layout)] is undefined when the size is zero. *)
Definition alloc_zeroed (size : Z) : F Z := λ s,
  if size =? 0 then Undefined else
  let p := allocate_bytes (dom (memory s)) size in
  if p =? 0 then Returned 0 s
  else Returned p (s <| memory := <[p := CBytes Zeroed (replicate (Z.to_nat size) 0)]> (memory s) |>).

(** [dealloc(p, layout)] needs the layout that the memory was allocated with. *)
Definition dealloc (p size : Z) : F unit := λ s,
  match memory s !! p with
  | Some (CBytes Zeroed b) =>
      if len b =? size then Returned tt (s <| memory := delete p (memory s) |>) else Undefined
  | _ => Undefined
  end.

End foreign.
End Foreign.
