(* ===== verification/memory_block.v ===== *)
(** Memory for the client ([src/tachyon/memory_block.rs]). *)

From S2P Require Import prelude network_address int_buffer header nack send_result tachyon_socket unreliable_sender.
From S2P Require Import channel connection tachyon_state connection_impl tachyon pool_state pool_receive foreign.

Module MemoryBlockFfi.
Import Foreign MemoryBlock.

Section block.
Context `{Callbacks} `{VarintOps} `{HashIter} `{ArrayQueueOps} `{CountdownOps} `{Allocator}.

(** [length] is a [u32]. *)
Definition allocate (length : Z) : F (option MemoryBlock) :=
  match layout_array length with
  | Some layout =>
      memory ← alloc_zeroed layout;
      let block := MemoryBlock.mk memory length in
      mret (Some block)
  | None => mret None
  end.

Definition free (block : MemoryBlock) : F Z :=
  if MemoryBlock.length block =? 0 then mret (-3) else
  match layout_array (MemoryBlock.length block) with
  | Some layout => dealloc (MemoryBlock.memory block) layout;; mret 1
  | None => mret (-1)
  end.

Definition allocate_memory_block (length block_ptr : Z) : F Z :=
  res ← allocate length;
  match res with
  | Some block => write block_ptr block;; mret 1
  | None => mret (-1)
  end.

Definition free_memory_block (block_ptr : Z) : F Z :=
  if block_ptr =? 0 then mret (-2) else
  block ← read MemoryBlock block_ptr;
  free block.

End block.
End MemoryBlockFfi.
