(* ===== verification/ffi.v ===== *)
(** The foreign functions of a [Tachyon] and its unreliable senders
    ([src/tachyon/ffi.rs]).

    A pointer is an address, an [i32] length is cast to [usize]; the clock is an
    argument of the functions that read it. *)

From S2P Require Import prelude network_address int_buffer header nack send_result tachyon_socket unreliable_sender.
From S2P Require Import channel connection tachyon_state connection_impl tachyon pool_state pool_receive foreign.

Module Ffi.
Import Foreign Tachyon.

Section ffi.
Context `{Callbacks} `{VarintOps} `{HashIter} `{ArrayQueueOps} `{CountdownOps} `{Allocator}.

Definition register_callbacks (tachyon_ptr : Z)
    (identity_event_callback' connection_event_callback' : option EventCallback) : F unit :=
  tachyon ← read Tachyon tachyon_ptr;
  let tachyon := if opt_is_some identity_event_callback'
                 then tachyon <| identity_event_callback := identity_event_callback' |> else tachyon in
  let tachyon := if opt_is_some connection_event_callback'
                 then tachyon <| connection_event_callback := connection_event_callback' |> else tachyon in
  write tachyon_ptr tachyon.

Definition create_tachyon (config_ptr now : Z) : F Z :=
  config ← read TachyonConfig.TachyonConfig config_ptr;
  let tachyon := Tachyon.create config now in
  into_raw tachyon.

Definition destroy_tachyon (tachyon : Z) : F unit :=
  if negb (tachyon =? 0) then drop_box Tachyon tachyon else mret tt.

Definition bind_socket (tachyon_ptr naddress : Z) : F Z :=
  tachyon ← read Tachyon tachyon_ptr;
  address ← read NetworkAddress.NetworkAddress naddress;
  w ← get_world;
  '(tachyon, w, bound) ← lift (TachyonIo.bind tachyon address w);
  set_world w;; write tachyon_ptr tachyon;;
  mret (if (bound : bool) then 1 else -1).

Definition connect_socket (tachyon_ptr naddress now : Z) : F Z :=
  tachyon ← read Tachyon tachyon_ptr;
  address ← read NetworkAddress.NetworkAddress naddress;
  w ← get_world;
  '(tachyon, w, connected) ← lift (TachyonIo.connect tachyon address now w);
  set_world w;; write tachyon_ptr tachyon;;
  mret (if (connected : bool) then 1 else -1).

Definition configure_channel (tachyon_ptr channel_id config_ptr : Z) : F Z :=
  tachyon ← read Tachyon tachyon_ptr;
  channel_config ← read ChannelConfig.ChannelConfig config_ptr;
  let '(tachyon, res) := Tachyon.configure_channel tachyon channel_id channel_config in
  write tachyon_ptr tachyon;;
  mret (if (res : bool) then 1 else -1).

Definition copy_send_result (from : TachyonSendResult.TachyonSendResult) (to : Z) : F unit :=
  result ← read TachyonSendResult.TachyonSendResult to;
  let result := result <| TachyonSendResult.sent_len := TachyonSendResult.sent_len from |> in
  let result := result <| TachyonSendResult.error := TachyonSendResult.error from |> in
  let result := result <| TachyonSendResult.header := TachyonSendResult.header from |> in
  write to result.

Definition send_to_target (tachyon_ptr channel target_ptr data length ret now : Z) : F unit :=
  tachyon ← read Tachyon tachyon_ptr;
  target ← read SendTarget.SendTarget target_ptr;
  slice ← read_slice data (as_u64 length);
  w ← get_world;
  '(tachyon, w, result) ← lift (TachyonIo.send_to_target tachyon channel target slice (as_u64 length) now w);
  set_world w;; write tachyon_ptr tachyon;;
  copy_send_result result ret.

Definition receive (tachyon_ptr data receive_buffer_len ret now : Z) : F unit :=
  tachyon ← read Tachyon tachyon_ptr;
  slice ← read_slice data receive_buffer_len;
  w ← get_world;
  '(tachyon, slice, w, result) ← lift (TachyonIo.receive_loop tachyon slice now w);
  set_world w;; write tachyon_ptr tachyon;; write_slice data slice;;
  r ← read TachyonReceiveResult.TachyonReceiveResult ret;
  let r := r <| TachyonReceiveResult.channel := TachyonReceiveResult.channel result |> in
  let r := r <| TachyonReceiveResult.address := TachyonReceiveResult.address result |> in
  let r := r <| TachyonReceiveResult.length := TachyonReceiveResult.length result |> in
  let r := r <| TachyonReceiveResult.error := TachyonReceiveResult.error result |> in
  write ret r.

Definition tachyon_update (tachyon_ptr now : Z) : F unit :=
  tachyon ← read Tachyon tachyon_ptr;
  none_send_data ← get_none_send_data;
  w ← get_world;
  '(tachyon, none_send_data, w) ← lift (TachyonIo.update tachyon none_send_data now w);
  set_none_send_data none_send_data;; set_world w;; write tachyon_ptr tachyon.

Definition tachyon_get_connection (tachyon_ptr naddress connection : Z) : F unit :=
  tachyon ← read Tachyon tachyon_ptr;
  address ← read NetworkAddress.NetworkAddress naddress;
  match ConnectionImpl.get_connection tachyon address with
  | Some conn => write connection conn
  | None => mret tt
  end.

Definition tachyon_get_connection_by_identity (tachyon_ptr id connection : Z) : F unit :=
  tachyon ← read Tachyon tachyon_ptr;
  match ConnectionImpl.get_connection_by_identity tachyon id with
  | Some conn => write connection conn
  | None => mret tt
  end.

Definition tachyon_get_config (tachyon_ptr config' identity' : Z) : F unit :=
  tachyon ← read Tachyon tachyon_ptr;
  write config' (config tachyon);; write identity' (identity tachyon).

Definition set_identity (tachyon_ptr id session_id on_self : Z) : F unit :=
  tachyon ← read Tachyon tachyon_ptr;
  if on_self =? 1 then
    let tachyon := tachyon <| identity := (identity tachyon) <| Identity.id := id |> |> in
    let tachyon := tachyon <| identity := (identity tachyon) <| Identity.session_id := session_id |> |> in
    write tachyon_ptr tachyon
  else
    w ← get_world;
    let '(tachyon, w) := ConnectionImpl.set_identity tachyon id session_id w in
    set_world w;; write tachyon_ptr tachyon.

Definition get_stats (tachyon_ptr stats' : Z) : F unit :=
  tachyon ← read Tachyon tachyon_ptr;
  let '(tachyon, combined) := get_combined_stats tachyon in
  write tachyon_ptr tachyon;;
  r ← read TachyonStats.TachyonStats stats';
  let r := r <| TachyonStats.channel_stats := TachyonStats.channel_stats combined |> in
  let r := r <| TachyonStats.packets_dropped := TachyonStats.packets_dropped combined |> in
  let r := r <| TachyonStats.unreliable_sent := TachyonStats.unreliable_sent combined |> in
  let r := r <| TachyonStats.unreliable_received := TachyonStats.unreliable_received combined |> in
  write stats' r.

Definition create_unreliable_sender (tachyon_ptr : Z) : F Z :=
  tachyon ← read Tachyon tachyon_ptr;
  w ← get_world;
  '(w, sender) ← lift (Tachyon.create_unreliable_sender tachyon w);
  set_world w;;
  match sender with
  | Some sender => into_raw sender
  | None => mret 0
  end.

Definition destroy_unreliable_sender (sender_ptr : Z) : F unit :=
  if negb (sender_ptr =? 0) then drop_box UnreliableSender.UnreliableSender sender_ptr else mret tt.

Definition unreliable_sender_send (sender_ptr naddress data_ptr length ret : Z) : F unit :=
  sender ← read UnreliableSender.UnreliableSender sender_ptr;
  address ← read NetworkAddress.NetworkAddress naddress;
  data ← read_slice data_ptr (as_u64 length);
  w ← get_world;
  '(sender, w, result) ← lift (UnreliableSender.send sender address data (as_u64 length) w);
  set_world w;; write sender_ptr sender;;
  copy_send_result result ret.

End ffi.
End Ffi.
