(* ===== verification/pool_ffi.v ===== *)
(** The foreign functions of a [Pool] ([src/tachyon/pool_ffi.rs]) and of its
    unreliable senders ([src/tachyon/pool_unreliable_sender.rs]).

    [pool_receive] leaves tasks behind that run while the client goes on; they
    stay with the pool and go on one step at a time by [worker], which no client
    calls.  What the blocking receive waits for is an argument, the order in which
    its tasks take their steps. *)

From S2P Require Import prelude network_address int_buffer header nack send_result tachyon_socket unreliable_sender.
From S2P Require Import channel connection tachyon_state connection_impl tachyon pool_state pool_receive pool_unreliable_sender foreign ffi.

Module PoolFfi.
Import Foreign Ffi Pool PoolReceive.

Section pool_ffi.
Context `{Callbacks} `{VarintOps} `{HashIter} `{ArrayQueueOps} `{CountdownOps} `{Allocator}.

Definition pool_create (max_servers receive_buffer_len out_buffer_len : Z) : F Z :=
  pool ← lift (Pool.create max_servers receive_buffer_len out_buffer_len);
  into_raw ((pool, []) : Running).

Definition pool_destroy (pool : Z) : F unit :=
  if negb (pool =? 0) then drop_box Running pool else mret tt.

Definition pool_create_server (pool_ptr config_ptr naddress id now : Z) : F Z :=
  '(pool, spawned) ← read Running pool_ptr;
  config ← read TachyonConfig.TachyonConfig config_ptr;
  address ← read NetworkAddress.NetworkAddress naddress;
  w ← get_world;
  '(pool, w, created) ← lift (Pool.create_server pool config address id now w);
  set_world w;; write pool_ptr ((pool, spawned) : Running);;
  mret (if (created : bool) then 1 else -1).

(** The configuration is read only when there is such a server. *)
Definition pool_configure_channel (pool_ptr server_id channel_id config_ptr : Z) : F Z :=
  '(pool, spawned) ← read Running pool_ptr;
  match get_server pool server_id with
  | Some tachyon =>
      channel_config ← read ChannelConfig.ChannelConfig config_ptr;
      let '(pool, res) := Pool.pool_configure_channel pool server_id channel_id channel_config in
      write pool_ptr ((pool, spawned) : Running);;
      mret res
  | None => mret (-1)
  end.

Definition pool_get_available (pool_ptr pool_ref_ptr : Z) : F Z :=
  '(pool, _) ← read Running pool_ptr;
  match get_available_server pool with
  | Some pool_ref => write pool_ref_ptr pool_ref;; mret 1
  | None => mret (-1)
  end.

Definition pool_get_server_having_connection (pool_ptr naddress : Z) : F Z :=
  '(pool, _) ← read Running pool_ptr;
  address ← read NetworkAddress.NetworkAddress naddress;
  mret (get_server_having_connection pool address).

Definition pool_get_server_having_identity (pool_ptr id : Z) : F Z :=
  '(pool, _) ← read Running pool_ptr;
  mret (get_server_having_identity pool id).

Definition pool_set_identity (pool_ptr server_id id session_id on_self : Z) : F unit :=
  '(pool, spawned) ← read Running pool_ptr;
  w ← get_world;
  let '(pool, w) := Pool.set_identity pool server_id id session_id on_self w in
  set_world w;; write pool_ptr ((pool, spawned) : Running).

Definition pool_update_servers (pool_ptr now : Z) : F unit :=
  '(pool, spawned) ← read Running pool_ptr;
  none_send_data ← get_none_send_data;
  w ← get_world;
  '(pool, none_send_data, w) ← lift (Pool.pool_update_servers pool none_send_data now w);
  set_none_send_data none_send_data;; set_world w;; write pool_ptr ((pool, spawned) : Running).

Definition pool_register_callbacks (pool_ptr : Z)
    (identity_event_callback' connection_event_callback' : option EventCallback) : F unit :=
  '(pool, spawned) ← read Running pool_ptr;
  let pool := Pool.pool_register_callbacks pool identity_event_callback' connection_event_callback' in
  write pool_ptr ((pool, spawned) : Running).

Definition is_served {sk} (t : task sk) : bool := match t with Served _ => true | _ => false end.

(** [pool.receive_blocking_out_buffer()]; it waits until every task has ended. *)
Definition pool_receive_blocking (pool_ptr : Z) (order : list (nat * Z)) : F unit :=
  '(pool, spawned) ← read Running pool_ptr;
  w ← get_world;
  r ← lift (run_schedule into_out_buffer false order
              (mk_run (par_iter_tasks into_out_buffer pool) pool w));
  if forallb is_served (tasks r) then
    set_world (PoolReceive.world r);;
    write pool_ptr ((put_served (PoolReceive.pool r) (tasks r), spawned) : Running)
  else wait.

Definition pool_get_next_out_buffer (pool_ptr receive_buffer_ptr result : Z) : F unit :=
  '(pool, spawned) ← read Running pool_ptr;
  slice ← read_slice receive_buffer_ptr (receive_buffer_len pool);
  '(pool, slice, res) ← lift (get_next_out_buffer pool slice);
  write pool_ptr ((pool, spawned) : Running);; write_slice receive_buffer_ptr slice;;
  write result res.

Definition pool_receive (pool_ptr : Z) : F Z :=
  '(pool, spawned) ← read Running pool_ptr;
  let '(pool, started, res) := PoolReceive.receive pool in
  write pool_ptr ((pool, spawned ++ started) : Running);;
  mret (if (res : bool) then 1 else -1).

Definition pool_finish_receive (pool_ptr : Z) : F Z :=
  '(pool, _) ← read Running pool_ptr;
  match PoolReceive.finish_receive pool with
  | Some (pool, _, message_count) =>
      write pool_ptr ((pool, []) : Running);;
      mret message_count
  | None => wait
  end.

Definition pool_send_to (pool_ptr channel target_ptr data length ret now : Z) : F unit :=
  '(pool, spawned) ← read Running pool_ptr;
  target ← read SendTarget.SendTarget target_ptr;
  slice ← read_slice data (as_u64 length);
  w ← get_world;
  '(pool, w, result) ← lift (Pool.send_to_target pool channel target slice length now w);
  set_world w;; write pool_ptr ((pool, spawned) : Running);;
  copy_send_result result ret.

(** A step of the task with number [i]; one that has none is passed over. *)
Definition worker (pool_ptr : Z) (i : nat) (now : Z) : F unit :=
  '(pool, spawned) ← read Running pool_ptr;
  w ← get_world;
  r ← lift (run_schedule into_queue true [(i, now)] (mk_run spawned pool w));
  set_world (PoolReceive.world r);; write pool_ptr ((PoolReceive.pool r, tasks r) : Running).

End pool_ffi.
End PoolFfi.

Module PoolUnreliableSenderFfi.
Import Foreign Ffi PoolUnreliableSender.

Section pool_sender_ffi.
Context `{Callbacks} `{VarintOps} `{HashIter} `{ArrayQueueOps} `{CountdownOps} `{Allocator}.

Definition pool_unreliable_sender_create (pool_ptr : Z) : F Z :=
  '(pool, _) ← read Running pool_ptr;
  let sender := PoolUnreliableSender.create in
  w ← get_world;
  '(sender, w) ← lift (build sender pool w);
  set_world w;;
  into_raw sender.

Definition pool_unreliable_sender_destroy (pool : Z) : F unit :=
  if negb (pool =? 0) then drop_box PoolUnreliableSender pool else mret tt.

Definition pool_unreliable_sender_build (pool_ptr sender_ptr : Z) : F unit :=
  '(pool, _) ← read Running pool_ptr;
  sender ← read PoolUnreliableSender sender_ptr;
  w ← get_world;
  '(sender, w) ← lift (build sender pool w);
  set_world w;; write sender_ptr sender.

Definition pool_unreliable_sender_send (sender_ptr target_ptr data_ptr length ret : Z) : F unit :=
  sender ← read PoolUnreliableSender sender_ptr;
  target ← read SendTarget.SendTarget target_ptr;
  data ← read_slice data_ptr (as_u64 length);
  w ← get_world;
  '(sender, w, result) ← lift (send_to_target sender target data length w);
  set_world w;; write sender_ptr sender;;
  copy_send_result result ret.

End pool_sender_ffi.
End PoolUnreliableSenderFfi.
