(* ===== verification/foreign_logic.v ===== *)
(** A logic for the foreign functions.

    [spec ps Σ m Q]: on a memory with cells of the kinds [Σ] the computation [m]
    is not undefined, and when it returns, its value and the kinds of the cells
    satisfy [Q] and no cell outside the pointers [ps] has changed.  There is a
    rule for every operation on memory; a foreign function is specified by
    applying them one after the other. *)

From S2P Require Import prelude network_address int_buffer header nack send_result tachyon_socket unreliable_sender.
From S2P Require Import channel connection tachyon_state connection_impl tachyon pool_state pool_receive pool_unreliable_sender foreign.

Import Foreign.

Section logic.
Context `{Callbacks} `{VarintOps} `{HashIter} `{ArrayQueueOps} `{CountdownOps}.
Implicit Types (s : Process) (Σ : gmap Z kind) (ps : list Z) (p n : Z).

Definition env s : gmap Z kind := kind_of <$> memory s.

Definition unchanged ps s s' : Prop :=
  ∀ q, q ∉ ps → is_Some (memory s !! q) → memory s' !! q = memory s !! q.

Definition spec {A} ps Σ (m : F A) (Q : A → gmap Z kind → Prop) : Prop :=
  ∀ s, env s = Σ →
    match m s with
    | Returned a s' => Q a (env s') ∧ unchanged ps s s'
    | Undefined => False
    | _ => True
    end.

Lemma env_lookup s p k : env s !! p = Some k ↔ ∃ c, memory s !! p = Some c ∧ kind_of c = k.
Proof. unfold env. rewrite lookup_fmap_Some. naive_solver. Qed.

Lemma dom_env s : dom (env s) = dom (memory s).
Proof. apply dom_fmap_L. Qed.

Lemma unchanged_refl ps s : unchanged ps s s.
Proof. done. Qed.

Lemma unchanged_memory ps s s' : memory s' = memory s → unchanged ps s s'.
Proof. by intros E q _ _; rewrite E. Qed.

Lemma unchanged_trans ps s1 s2 s3 : unchanged ps s1 s2 → unchanged ps s2 s3 → unchanged ps s1 s3.
Proof. intros Hu1 Hu2 q Hq Hs. rewrite Hu2; [by apply Hu1|done|]. by rewrite Hu1. Qed.

Lemma unchanged_update ps s p f :
  p ∈ ps ∨ memory s !! p = None → unchanged ps s (s <| memory := partial_alter f p (memory s) |>).
Proof.
  intros Hp q Hq [c Hc]. cbn. apply lookup_partial_alter_ne. intros ->. destruct Hp as [Hp|Hp]; [done|congruence].
Qed.

Lemma spec_ret {A} ps Σ (a : A) Q : Q a Σ → spec ps Σ (mret a) Q.
Proof. intros HQ s <-. by split. Qed.

Lemma spec_bind {A B} ps Σ (m : F A) (f : A → F B) Q :
  spec ps Σ m (λ a Σ', spec ps Σ' (f a) Q) → spec ps Σ (m ≫= f) Q.
Proof.
  intros Hm s Hs. specialize (Hm s Hs). unfold mbind, F_bind. destruct (m s) as [a s'| | |]; try done.
  destruct Hm as [Hf Hu]. specialize (Hf s' eq_refl). destruct (f a s') as [b s''| | |]; try done.
  destruct Hf. split; [done|by eapply unchanged_trans].
Qed.

Lemma spec_weaken {A} ps Σ (m : F A) (Q Q' : A → gmap Z kind → Prop) :
  spec ps Σ m Q → (∀ a Σ', Q a Σ' → Q' a Σ') → spec ps Σ m Q'.
Proof. intros Hm HQ s Hs. specialize (Hm s Hs). destruct (m s); naive_solver. Qed.

Lemma spec_lift {A} ps Σ (m : outcome A) Q : (∀ a, m = Ret a → Q a Σ) → spec ps Σ (lift m) Q.
Proof. intros HQ s <-. unfold lift. destruct m as [a|]; [|done]. split; [by apply HQ|done]. Qed.

Lemma spec_wait {A} ps Σ (Q : A → gmap Z kind → Prop) : spec ps Σ wait Q.
Proof. by intros s _. Qed.

Lemma spec_get_world ps Σ Q : (∀ w, Q w Σ) → spec ps Σ get_world Q.
Proof. by intros HQ s <-. Qed.

Lemma spec_set_world ps Σ w Q : Q tt Σ → spec ps Σ (set_world w) Q.
Proof. by intros HQ s <-. Qed.

Lemma spec_get_none ps Σ Q : (∀ d, Q d Σ) → spec ps Σ get_none_send_data Q.
Proof. by intros HQ s <-. Qed.

Lemma spec_set_none ps Σ d Q : Q tt Σ → spec ps Σ (set_none_send_data d) Q.
Proof. by intros HQ s <-. Qed.

(** The kind says that the cell has the type. *)
Class HasKind (X : Type) `{!Located X} (k : kind) : Prop :=
  has_kind c : kind_of c = k → is_Some (of_cell c : option X).

Lemma found X `{!Located X} k s p : HasKind X k → env s !! p = Some k →
  ∃ x : X, memory s !! p = Some (cell_of x) ∧ kind_of (cell_of x) = k.
Proof.
  intros Hk (c & Hc & E)%env_lookup. destruct (Hk c E) as [x Hx]. apply of_cell_Some in Hx as ->. by exists x.
Qed.

Lemma of_cell_of X `{!Located X} (x : X) : of_cell (cell_of x) = Some x.
Proof. by apply of_cell_Some. Qed.

Lemma spec_read X `{!Located X} k ps Σ p Q : Σ !! p = Some k → HasKind X k →
  (∀ x : X, kind_of (cell_of x) = k → Q x Σ) → spec ps Σ (read X p) Q.
Proof.
  intros Hp Hk HQ s <-. destruct (found X k s p Hk Hp) as (x & Hx & E). unfold read. rewrite Hx. cbn [mbind option_bind].
  rewrite of_cell_of. split; [by apply HQ|done].
Qed.

Lemma env_insert s p c : env (s <| memory := <[p := c]> (memory s) |>) = <[p := kind_of c]> (env s).
Proof. apply fmap_insert. Qed.

Lemma env_delete s p : env (s <| memory := delete p (memory s) |>) = delete p (env s).
Proof. apply fmap_delete. Qed.

Lemma spec_write_new X `{!Located X} k ps Σ p (x : X) Q : Σ !! p = Some k → HasKind X k → p ∈ ps →
  Q tt (<[p := kind_of (cell_of x)]> Σ) → spec ps Σ (write p x) Q.
Proof.
  intros Hp Hk Hps HQ s <-. destruct (found X k s p Hk Hp) as (y & Hy & _). unfold write. rewrite Hy. cbn [mbind option_bind].
  rewrite of_cell_of. split; [by rewrite env_insert|]. apply unchanged_update. by left.
Qed.

Lemma spec_write X `{!Located X} k ps Σ p (x : X) Q : Σ !! p = Some k → HasKind X k → p ∈ ps →
  kind_of (cell_of x) = k → Q tt Σ → spec ps Σ (write p x) Q.
Proof.
  intros Hp Hk Hps E HQ. apply (spec_write_new X k); [done..|]. by rewrite E, insert_id.
Qed.

Lemma spec_drop_box X `{!Located X} k ps Σ p Q : Σ !! p = Some k → HasKind X k → p ∈ ps →
  Q tt (delete p Σ) → spec ps Σ (drop_box X p) Q.
Proof.
  intros Hp Hk Hps HQ s <-. destruct (found X k s p Hk Hp) as (x & Hx & _). unfold drop_box. rewrite Hx. cbn [mbind option_bind].
  rewrite of_cell_of. split; [by rewrite env_delete|]. apply unchanged_update. by left.
Qed.

Lemma spec_read_slice o m ps Σ p n Q : Σ !! p = Some (KBytes o m) → 0 ≤ n ≤ m →
  (∀ b, len b = n → Q b Σ) → spec ps Σ (read_slice p n) Q.
Proof.
  intros Hp Hn HQ s <-. apply env_lookup in Hp as (c & Hc & E). destruct c; try done. injection E as -> <-.
  unfold read_slice. rewrite Hc. destruct (Z.leb_spec n (len b)); [|lia]. split; [|done].
  apply HQ. rewrite length_take. lia.
Qed.

Lemma spec_write_slice o m ps Σ p d Q : Σ !! p = Some (KBytes o m) → len d ≤ m → p ∈ ps →
  Q tt Σ → spec ps Σ (write_slice p d) Q.
Proof.
  intros Hp Hd Hps HQ s <-. pose proof Hp as (c & Hc & E)%env_lookup. destruct c; try done. injection E as -> <-.
  unfold write_slice. rewrite Hc. destruct (Z.leb_spec (len d) (len b)); [|lia].
  split; [|apply unchanged_update; by left]. rewrite env_insert, insert_id; [done|]. rewrite Hp. simpl.
  rewrite length_splice; [done|]. lia.
Qed.

Context `{Allocator} `{!AllocatorLaws _}.

Lemma spec_into_raw X `{!Located X} ps Σ (x : X) Q :
  (∀ p, p ∉ dom Σ → p ≠ 0 → Q p (<[p := kind_of (cell_of x)]> Σ)) → spec ps Σ (into_raw x) Q.
Proof.
  intros HQ s <-. unfold into_raw. pose proof (allocate_box_fresh (dom (memory s))) as Hf.
  destruct (Z.eqb_spec (allocate_box (dom (memory s))) 0) as [|Hz]; [done|].
  split; [rewrite env_insert; apply HQ; by rewrite ?dom_env|].
  apply unchanged_update. right. by apply not_elem_of_dom.
Qed.

Lemma spec_alloc_zeroed ps Σ n Q : 0 < n → Q 0 Σ →
  (∀ p, p ∉ dom Σ → p ≠ 0 → Q p (<[p := KBytes Zeroed n]> Σ)) → spec ps Σ (alloc_zeroed n) Q.
Proof.
  intros Hn HQ0 HQ s <-. unfold alloc_zeroed. destruct (Z.eqb_spec n 0); [lia|].
  pose proof (allocate_bytes_fresh (dom (memory s)) n) as Hf.
  destruct (Z.eqb_spec (allocate_bytes (dom (memory s)) n) 0) as [|Hz]; [done|]. split.
  - rewrite env_insert. cbn [kind_of]. rewrite length_replicate, Z2Nat.id by lia. apply HQ; by rewrite ?dom_env.
  - apply unchanged_update. right. by apply not_elem_of_dom.
Qed.

Lemma spec_dealloc ps Σ p n Q : Σ !! p = Some (KBytes Zeroed n) → p ∈ ps →
  Q tt (delete p Σ) → spec ps Σ (dealloc p n) Q.
Proof.
  intros Hp Hps HQ s <-. apply env_lookup in Hp as (c & Hc & E). destruct c; try done. injection E as -> <-.
  unfold dealloc. rewrite Hc, Z.eqb_refl. split; [by rewrite env_delete|]. apply unchanged_update. by left.
Qed.

Local Ltac has_kind := intros c; destruct c; try done; intros _; eexists; reflexivity.

#[global] Instance kind_Tachyon : HasKind Tachyon.Tachyon KTachyon.
Proof. has_kind. Qed.
#[global] Instance kind_Sender : HasKind UnreliableSender.UnreliableSender KSender.
Proof. has_kind. Qed.
#[global] Instance kind_Pool n b : HasKind Running (KPool n b).
Proof. has_kind. Qed.
#[global] Instance kind_PoolSender : HasKind PoolUnreliableSender.PoolUnreliableSender KPoolSender.
Proof. has_kind. Qed.
#[global] Instance kind_TachyonConfig : HasKind TachyonConfig.TachyonConfig KTachyonConfig.
Proof. has_kind. Qed.
#[global] Instance kind_ChannelConfig : HasKind ChannelConfig.ChannelConfig KChannelConfig.
Proof. has_kind. Qed.
#[global] Instance kind_Address : HasKind NetworkAddress.NetworkAddress KAddress.
Proof. has_kind. Qed.
#[global] Instance kind_Target : HasKind SendTarget.SendTarget KTarget.
Proof. has_kind. Qed.
#[global] Instance kind_SendResult : HasKind TachyonSendResult.TachyonSendResult KSendResult.
Proof. has_kind. Qed.
#[global] Instance kind_ReceiveResult : HasKind TachyonReceiveResult.TachyonReceiveResult KReceiveResult.
Proof. has_kind. Qed.
#[global] Instance kind_Connection : HasKind Connection.Connection KConnection.
Proof. has_kind. Qed.
#[global] Instance kind_Identity : HasKind Identity.Identity KIdentity.
Proof. has_kind. Qed.
#[global] Instance kind_Stats : HasKind TachyonStats.TachyonStats KStats.
Proof. has_kind. Qed.
#[global] Instance kind_Counts : HasKind OutBufferCounts.OutBufferCounts KCounts.
Proof. has_kind. Qed.
#[global] Instance kind_ServerRef : HasKind PoolServerRef.PoolServerRef KServerRef.
Proof. has_kind. Qed.
#[global] Instance kind_Block m n : HasKind MemoryBlock.MemoryBlock (KBlock m n).
Proof. has_kind. Qed.
End logic.
