(* ===== verification/foreign_calls.v ===== *)
(** The protocol between the library and its clients.

    [call] is a call of a foreign function, [invoke] what it does.  [allowed] is
    what a client may call when its memory has cells of the given kinds, [after]
    the kinds of the cells once the call has returned, [footprint] the pointers
    through which it may write.  The steps of a pool's own tasks are calls too. *)

From S2P Require Import prelude network_address int_buffer header nack send_result tachyon_socket unreliable_sender.
From S2P Require Import channel connection tachyon_state connection_impl tachyon pool_state pool_receive receive_lengths.
From S2P Require Import foreign memory_block ffi pool_ffi foreign_logic.

Import Foreign.

(** ** Definitions *)

Section calls.
Context `{Callbacks} `{VarintOps} `{HashIter} `{ArrayQueueOps} `{CountdownOps} `{Allocator}.
Implicit Types (s : Process) (Σ : gmap Z kind) (p v : Z).

Inductive call :=
| RegisterCallbacks (tachyon_ptr : Z) (identity_event connection_event : option EventCallback)
| CreateTachyon (config_ptr now : Z)
| DestroyTachyon (tachyon : Z)
| BindSocket (tachyon_ptr naddress : Z)
| ConnectSocket (tachyon_ptr naddress now : Z)
| ConfigureChannel (tachyon_ptr channel_id config_ptr : Z)
| SendToTarget (tachyon_ptr channel target_ptr data length ret now : Z)
| Receive (tachyon_ptr data receive_buffer_len ret now : Z)
| TachyonUpdate (tachyon_ptr now : Z)
| GetConnection (tachyon_ptr naddress connection : Z)
| GetConnectionByIdentity (tachyon_ptr id connection : Z)
| GetConfig (tachyon_ptr config identity : Z)
| SetIdentity (tachyon_ptr id session_id on_self : Z)
| GetStats (tachyon_ptr stats : Z)
| CreateUnreliableSender (tachyon_ptr : Z)
| DestroyUnreliableSender (sender_ptr : Z)
| UnreliableSenderSend (sender_ptr naddress data_ptr length ret : Z)
| AllocateMemoryBlock (length block_ptr : Z)
| FreeMemoryBlock (block_ptr : Z)
| PoolCreate (max_servers receive_buffer_len out_buffer_len : Z)
| PoolDestroy (pool : Z)
| PoolCreateServer (pool_ptr config_ptr naddress id now : Z)
| PoolConfigureChannel (pool_ptr server_id channel_id config_ptr : Z)
| PoolGetAvailable (pool_ptr pool_ref_ptr : Z)
| PoolGetServerHavingConnection (pool_ptr naddress : Z)
| PoolGetServerHavingIdentity (pool_ptr id : Z)
| PoolSetIdentity (pool_ptr server_id id session_id on_self : Z)
| PoolUpdateServers (pool_ptr now : Z)
| PoolRegisterCallbacks (pool_ptr : Z) (identity_event connection_event : option EventCallback)
| PoolReceiveBlocking (pool_ptr : Z) (order : list (nat * Z))
| PoolGetNextOutBuffer (pool_ptr receive_buffer_ptr result : Z)
| PoolReceive (pool_ptr : Z)
| PoolFinishReceive (pool_ptr : Z)
| PoolSendTo (pool_ptr channel target_ptr data length ret now : Z)
| PoolSenderCreate (pool_ptr : Z)
| PoolSenderDestroy (sender_ptr : Z)
| PoolSenderBuild (pool_ptr sender_ptr : Z)
| PoolSenderSend (sender_ptr target_ptr data_ptr length ret : Z)
| Worker (pool_ptr : Z) (i : nat) (now : Z).

(** The value of a function that returns nothing is 0. *)
Definition void (m : F unit) : F Z := m;; mret 0.

Definition invoke (c : call) : F Z :=
  match c with
  | RegisterCallbacks p i e => void (Ffi.register_callbacks p i e)
  | CreateTachyon config now => Ffi.create_tachyon config now
  | DestroyTachyon p => void (Ffi.destroy_tachyon p)
  | BindSocket p a => Ffi.bind_socket p a
  | ConnectSocket p a now => Ffi.connect_socket p a now
  | ConfigureChannel p ch config => Ffi.configure_channel p ch config
  | SendToTarget p ch target data n ret now => void (Ffi.send_to_target p ch target data n ret now)
  | Receive p data n ret now => void (Ffi.receive p data n ret now)
  | TachyonUpdate p now => void (Ffi.tachyon_update p now)
  | GetConnection p a conn => void (Ffi.tachyon_get_connection p a conn)
  | GetConnectionByIdentity p id conn => void (Ffi.tachyon_get_connection_by_identity p id conn)
  | GetConfig p config identity => void (Ffi.tachyon_get_config p config identity)
  | SetIdentity p id session_id on_self => void (Ffi.set_identity p id session_id on_self)
  | GetStats p stats => void (Ffi.get_stats p stats)
  | CreateUnreliableSender p => Ffi.create_unreliable_sender p
  | DestroyUnreliableSender p => void (Ffi.destroy_unreliable_sender p)
  | UnreliableSenderSend p a data n ret => void (Ffi.unreliable_sender_send p a data n ret)
  | AllocateMemoryBlock n block => MemoryBlockFfi.allocate_memory_block n block
  | FreeMemoryBlock block => MemoryBlockFfi.free_memory_block block
  | PoolCreate max_servers n m => PoolFfi.pool_create max_servers n m
  | PoolDestroy p => void (PoolFfi.pool_destroy p)
  | PoolCreateServer p config a id now => PoolFfi.pool_create_server p config a id now
  | PoolConfigureChannel p id ch config => PoolFfi.pool_configure_channel p id ch config
  | PoolGetAvailable p ref => PoolFfi.pool_get_available p ref
  | PoolGetServerHavingConnection p a => PoolFfi.pool_get_server_having_connection p a
  | PoolGetServerHavingIdentity p id => PoolFfi.pool_get_server_having_identity p id
  | PoolSetIdentity p server id session_id on_self => void (PoolFfi.pool_set_identity p server id session_id on_self)
  | PoolUpdateServers p now => void (PoolFfi.pool_update_servers p now)
  | PoolRegisterCallbacks p i e => void (PoolFfi.pool_register_callbacks p i e)
  | PoolReceiveBlocking p order => void (PoolFfi.pool_receive_blocking p order)
  | PoolGetNextOutBuffer p data result => void (PoolFfi.pool_get_next_out_buffer p data result)
  | PoolReceive p => PoolFfi.pool_receive p
  | PoolFinishReceive p => PoolFfi.pool_finish_receive p
  | PoolSendTo p ch target data n ret now => void (PoolFfi.pool_send_to p ch target data n ret now)
  | PoolSenderCreate p => PoolUnreliableSenderFfi.pool_unreliable_sender_create p
  | PoolSenderDestroy s => void (PoolUnreliableSenderFfi.pool_unreliable_sender_destroy s)
  | PoolSenderBuild p s => void (PoolUnreliableSenderFfi.pool_unreliable_sender_build p s)
  | PoolSenderSend s target data n ret =>
      void (PoolUnreliableSenderFfi.pool_unreliable_sender_send s target data n ret)
  | Worker p i now => void (PoolFfi.worker p i now)
  end.

(** ** What a client may call *)

Definition at_least Σ p (n : Z) : Prop := ∃ o m, Σ !! p = Some (KBytes o m) ∧ 0 ≤ n ≤ m.

Definition pool_at Σ p : Prop := ∃ n receiving, Σ !! p = Some (KPool n receiving).

Definition idle_pool_at Σ p : Prop := ∃ n, Σ !! p = Some (KPool n false).

(** Data of a length that is an [i32]. *)
Definition sends_from Σ target data (length ret : Z) : Prop :=
  Σ !! target = Some KTarget ∧ 0 ≤ length < 2 ^ 31 ∧ at_least Σ data length ∧ Σ !! ret = Some KSendResult.

Definition allowed Σ (c : call) : Prop :=
  match c with
  | CreateTachyon config _ => Σ !! config = Some KTachyonConfig
  | DestroyTachyon p => p = 0 ∨ Σ !! p = Some KTachyon
  | BindSocket p a | ConnectSocket p a _ => Σ !! p = Some KTachyon ∧ Σ !! a = Some KAddress
  | ConfigureChannel p _ config => Σ !! p = Some KTachyon ∧ Σ !! config = Some KChannelConfig
  | SendToTarget p _ target data n ret _ => Σ !! p = Some KTachyon ∧ sends_from Σ target data n ret
  | Receive p data n ret _ => Σ !! p = Some KTachyon ∧ at_least Σ data n ∧ Σ !! ret = Some KReceiveResult
  | GetConnection p a conn => Σ !! p = Some KTachyon ∧ Σ !! a = Some KAddress ∧ Σ !! conn = Some KConnection
  | GetConnectionByIdentity p _ conn => Σ !! p = Some KTachyon ∧ Σ !! conn = Some KConnection
  | GetConfig p config identity =>
      Σ !! p = Some KTachyon ∧ Σ !! config = Some KTachyonConfig ∧ Σ !! identity = Some KIdentity
  | GetStats p stats => Σ !! p = Some KTachyon ∧ Σ !! stats = Some KStats
  | RegisterCallbacks p _ _ | TachyonUpdate p _ | SetIdentity p _ _ _ | CreateUnreliableSender p =>
      Σ !! p = Some KTachyon
  | DestroyUnreliableSender p => p = 0 ∨ Σ !! p = Some KSender
  | UnreliableSenderSend p a data n ret =>
      Σ !! p = Some KSender ∧ Σ !! a = Some KAddress ∧ 0 ≤ n < 2 ^ 31 ∧ at_least Σ data n ∧ Σ !! ret = Some KSendResult
  | AllocateMemoryBlock n block => 0 < n < 2 ^ 32 ∧ ∃ m n', Σ !! block = Some (KBlock m n')
  | FreeMemoryBlock block =>
      block = 0 ∨ ∃ m n, Σ !! block = Some (KBlock m n) ∧
        (n = 0 ∨ 0 < n < 2 ^ 32 ∧ Σ !! m = Some (KBytes Zeroed n))
  | PoolCreate _ _ _ => True
  | PoolDestroy p => p = 0 ∨ idle_pool_at Σ p
  | PoolCreateServer p config a _ _ => pool_at Σ p ∧ Σ !! config = Some KTachyonConfig ∧ Σ !! a = Some KAddress
  | PoolConfigureChannel p _ _ config => pool_at Σ p ∧ Σ !! config = Some KChannelConfig
  | PoolGetAvailable p ref => pool_at Σ p ∧ Σ !! ref = Some KServerRef
  | PoolGetServerHavingConnection p a => pool_at Σ p ∧ Σ !! a = Some KAddress
  | PoolGetServerHavingIdentity p _ | PoolSetIdentity p _ _ _ _ | PoolUpdateServers p _
  | PoolRegisterCallbacks p _ _ | PoolFinishReceive p | Worker p _ _ => pool_at Σ p
  | PoolReceiveBlocking p _ | PoolReceive p => idle_pool_at Σ p
  | PoolGetNextOutBuffer p data result =>
      (∃ n receiving, Σ !! p = Some (KPool n receiving) ∧ at_least Σ data n) ∧ Σ !! result = Some KCounts
  | PoolSendTo p _ target data n ret _ => pool_at Σ p ∧ sends_from Σ target data n ret
  | PoolSenderCreate p => pool_at Σ p
  | PoolSenderDestroy s => s = 0 ∨ Σ !! s = Some KPoolSender
  | PoolSenderBuild p s => pool_at Σ p ∧ Σ !! s = Some KPoolSender
  | PoolSenderSend s target data n ret => Σ !! s = Some KPoolSender ∧ sends_from Σ target data n ret
  end.

(** [v] is a new box of the given kind. *)
Definition boxed Σ v (k : kind) Σ' : Prop := v ∉ dom Σ ∧ v ≠ 0 ∧ Σ' = <[v := k]> Σ.

Definition after Σ (c : call) v Σ' : Prop :=
  match c with
  | CreateTachyon _ _ => boxed Σ v KTachyon Σ'
  | CreateUnreliableSender _ => v = 0 ∧ Σ' = Σ ∨ boxed Σ v KSender Σ'
  | PoolCreate _ n _ => boxed Σ v (KPool n false) Σ'
  | PoolSenderCreate _ => boxed Σ v KPoolSender Σ'
  | DestroyTachyon p | DestroyUnreliableSender p | PoolDestroy p | PoolSenderDestroy p => Σ' = if p =? 0 then Σ else delete p Σ
  | AllocateMemoryBlock n block =>
      v = 1 ∧ ∃ m, (m ≠ 0 → m ∉ dom Σ) ∧
        Σ' = <[block := KBlock m n]> (if m =? 0 then Σ else <[m := KBytes Zeroed n]> Σ)
  | FreeMemoryBlock block =>
      if block =? 0 then v = -2 ∧ Σ' = Σ else
      ∃ m n, Σ !! block = Some (KBlock m n) ∧
        if n =? 0 then v = -3 ∧ Σ' = Σ else v = 1 ∧ Σ' = delete m Σ
  | PoolReceive p => ∃ n, Σ !! p = Some (KPool n false) ∧
      (v = 1 ∧ Σ' = <[p := KPool n true]> Σ ∨ v = -1 ∧ Σ' = Σ)
  | PoolFinishReceive p => ∃ n receiving, Σ !! p = Some (KPool n receiving) ∧ Σ' = <[p := KPool n false]> Σ
  | _ => Σ' = Σ
  end.

(** The pointers that a call is given to write through or to drop. *)
Definition writes (c : call) : list Z :=
  match c with
  | CreateTachyon _ _ | PoolCreate _ _ _ | PoolGetServerHavingConnection _ _ | PoolGetServerHavingIdentity _ _
  | CreateUnreliableSender _ | FreeMemoryBlock _ | PoolSenderCreate _ => []
  | RegisterCallbacks p _ _ | DestroyTachyon p | BindSocket p _ | ConnectSocket p _ _ | ConfigureChannel p _ _
  | TachyonUpdate p _ | SetIdentity p _ _ _ | DestroyUnreliableSender p
  | PoolDestroy p | PoolCreateServer p _ _ _ _ | PoolConfigureChannel p _ _ _ | PoolSetIdentity p _ _ _ _
  | PoolUpdateServers p _ | PoolRegisterCallbacks p _ _ | PoolReceiveBlocking p _ | PoolReceive p
  | PoolFinishReceive p | Worker p _ _ | PoolSenderDestroy p | PoolSenderBuild _ p => [p]
  | SendToTarget p _ _ _ _ ret _ | UnreliableSenderSend p _ _ _ ret | PoolSendTo p _ _ _ _ ret _
  | PoolSenderSend p _ _ _ ret => [p; ret]
  | Receive p data _ ret _ | PoolGetNextOutBuffer p data ret => [p; data; ret]
  | GetConnection _ _ out | GetConnectionByIdentity _ _ out | PoolGetAvailable _ out => [out]
  | GetConfig _ config identity => [config; identity]
  | GetStats p stats => [p; stats]
  | AllocateMemoryBlock _ block => [block]
  end.

(** The cells that a call may change; freeing a block gives back the memory that
    it names. *)
Definition footprint Σ (c : call) : list Z :=
  match c with
  | FreeMemoryBlock block =>
      match Σ !! block with
      | Some (KBlock m n) => if (block =? 0) || (n =? 0) then [] else [m]
      | _ => []
      end
  | _ => writes c
  end.

(** Allowed calls that return, one after the other. *)
Inductive calls : Process → list call → Process → Prop :=
| calls_nil s : calls s [] s
| calls_cons s c v s1 cs s2 :
    allowed (env s) c → invoke c s = Returned v s1 → calls s1 cs s2 → calls s (c :: cs) s2.
End calls.
