(* ===== verification/foreign_safety.v ===== *)
(** What the protocol of [foreign_calls.v] guarantees. *)

From S2P Require Import prelude network_address int_buffer header nack send_result tachyon_socket unreliable_sender.
From S2P Require Import channel connection tachyon_state connection_impl tachyon pool_state pool_receive receive_lengths tachyon_delivery.
From S2P Require Import foreign memory_block ffi pool_ffi foreign_logic foreign_calls.

Import Foreign.

(** One step through a foreign function: the rule for what it does next, with
    what is known of the pointers. *)
Ltac foreign_step :=
  lazymatch goal with
  | |- spec _ _ (void _) _ => apply spec_bind
  | |- spec _ _ (_ ≫= _) _ => apply spec_bind
  | |- spec _ _ (mret _) _ => apply spec_ret
  | |- spec _ _ (lift _) _ => apply spec_lift; intros ? ?
  | |- spec _ _ wait _ => apply spec_wait
  | |- spec _ _ get_world _ => apply spec_get_world; intros ?
  | |- spec _ _ (set_world _) _ => apply spec_set_world
  | |- spec _ _ get_none_send_data _ => apply spec_get_none; intros ?
  | |- spec _ _ (set_none_send_data _) _ => apply spec_set_none
  | |- spec _ _ (read _ _) _ => eapply spec_read; [eassumption|apply _|intros ? ?]
  | |- spec _ _ (write _ _) _ =>
      eapply spec_write; [eassumption|apply _|set_solver|try reflexivity|]
  | |- spec _ _ (read_slice _ _) _ => eapply spec_read_slice; [eassumption|try lia|intros ? ?]
  | |- spec _ _ (write_slice _ _) _ => eapply spec_write_slice; [eassumption|try lia|set_solver|]
  | |- spec _ _ (drop_box _ _) _ => eapply spec_drop_box; [eassumption|apply _|set_solver|]
  | |- spec _ _ (into_raw _) _ => apply spec_into_raw; intros ? ? ?
  | |- spec _ _ (match ?x with _ => _ end) _ => destruct x eqn:?
  end; cbv beta iota zeta in *.

Ltac foreign_steps := repeat foreign_step.

Section safety.
Context `{Callbacks} `{VarintOps} `{HashIter} `{ArrayQueueOps} `{CountdownOps} `{Allocator} `{!AllocatorLaws _}.
Implicit Types (s : Process) (Σ : gmap Z kind) (p v : Z) (ps : list Z).

Lemma as_u64_length n : 0 ≤ n < 2 ^ 31 → as_u64 n = n.
Proof. intros Hn. unfold as_u64. apply wrap_small. lia. Qed.

Lemma copy_send_result_spec ps Σ r ret (Q : unit → gmap Z kind → Prop) :
  Σ !! ret = Some KSendResult → ret ∈ ps → Q tt Σ → spec ps Σ (Ffi.copy_send_result r ret) Q.
Proof. intros Hret Hps HQ. unfold Ffi.copy_send_result. foreign_steps. done. Qed.

(** What [c] may do on cells of kinds [Σ]. *)
Definition safe Σ (c : call) : Prop := allowed Σ c → spec (footprint Σ c) Σ (invoke c) (after Σ c).

(** The hypotheses of a call, one by one. *)
Local Tactic Notation "call" reference(f) :=
  intros Hallowed; cbn [allowed invoke footprint writes after] in *; unfold sends_from, at_least, pool_at, idle_pool_at in *;
  repeat match goal with
  | H : ∃ _, _ |- _ => destruct H
  | H : _ ∧ _ |- _ => destruct H
  end;
  unfold f; rewrite ?as_u64_length by lia; foreign_steps.

Local Ltac sent := apply copy_send_result_spec; [done|set_solver|]; foreign_steps.

Lemma tachyon_calls_safe Σ c :
  match c with
  | RegisterCallbacks _ _ _ | CreateTachyon _ _ | DestroyTachyon _ | BindSocket _ _ | ConnectSocket _ _ _
  | ConfigureChannel _ _ _ | SendToTarget _ _ _ _ _ _ _ | Receive _ _ _ _ _ | TachyonUpdate _ _ => safe Σ c
  | _ => True
  end.
Proof.
  destruct c; try exact I.
  - call Ffi.register_callbacks. all: done.
  - call Ffi.create_tachyon. done.
  - call Ffi.destroy_tachyon.
    + destruct Hallowed as [->|?]; [done|]. foreign_steps. cbn [after]. by destruct (Z.eqb_spec tachyon 0).
    + cbn [after]. by destruct (Z.eqb_spec tachyon 0).
  - call Ffi.bind_socket. all: done.
  - call Ffi.connect_socket. all: done.
  - call Ffi.configure_channel. all: done.
  - call Ffi.send_to_target. sent. done.
  - call Ffi.receive; [|done].
    match goal with E : TachyonIo.receive_loop _ _ _ _ = _ |- _ => apply receive_loop_length in E; lia end.
  - call Ffi.tachyon_update. done.
Qed.

Lemma handle_calls_safe Σ c :
  match c with
  | GetConnection _ _ _ | GetConnectionByIdentity _ _ _ | GetConfig _ _ _ | SetIdentity _ _ _ _ | GetStats _ _
  | CreateUnreliableSender _ | DestroyUnreliableSender _ | UnreliableSenderSend _ _ _ _ _ => safe Σ c
  | _ => True
  end.
Proof.
  destruct c; try exact I.
  - call Ffi.tachyon_get_connection. all: done.
  - call Ffi.tachyon_get_connection_by_identity. all: done.
  - call Ffi.tachyon_get_config. done.
  - call Ffi.set_identity. all: done.
  - call Ffi.get_stats. done.
  - call Ffi.create_unreliable_sender. + by right. + by left.
  - call Ffi.destroy_unreliable_sender.
    + destruct Hallowed as [->|?]; [done|]. foreign_steps. cbn [after]. by destruct (Z.eqb_spec sender_ptr 0).
    + cbn [after]. by destruct (Z.eqb_spec sender_ptr 0).
  - call Ffi.unreliable_sender_send. sent. done.
Qed.

Lemma layout_array_small n : n < 2 ^ 32 → layout_array n = Some n.
Proof. intros Hn. unfold layout_array. destruct (Z.leb_spec n isize_max); [done|]. unfold isize_max in *. lia. Qed.

Lemma allocate_safe Σ n block : safe Σ (AllocateMemoryBlock n block).
Proof.
  intros [Hn (m & n' & Hblock)]. cbn [invoke footprint writes]. unfold MemoryBlockFfi.allocate_memory_block, MemoryBlockFfi.allocate.
  rewrite layout_array_small by lia. do 2 apply spec_bind.
  apply spec_alloc_zeroed; [lia|..]; [|intros p Hp Hz]; apply spec_ret; apply spec_bind.
  - eapply spec_write_new; [done|apply _|set_solver|]. apply spec_ret. split; [done|]. by exists 0.
  - eapply spec_write_new; [|apply kind_Block|set_solver|].
    { rewrite lookup_insert_ne; [done|]. intros ->. by apply not_elem_of_dom in Hp; rewrite Hp in Hblock. }
    apply spec_ret. split; [done|]. exists p. split; [done|]. by destruct (Z.eqb_spec p 0).
Qed.

Lemma free_safe Σ block : safe Σ (FreeMemoryBlock block).
Proof.
  intros Hallowed. cbn [invoke footprint writes]. unfold MemoryBlockFfi.free_memory_block.
  destruct (Z.eqb_spec block 0) as [->|Hz]; [by apply spec_ret|]. destruct Hallowed as [|(m & n & Hblock & Hmem)]; [done|].
  apply spec_bind. eapply spec_read; [done|apply _|]. intros [m' n''] [= -> ->]. rewrite Hblock.
  destruct (Z.eqb_spec block 0) as [|_]; [done|]. cbn [orb].
  unfold MemoryBlockFfi.free. cbn [MemoryBlock.length MemoryBlock.memory].
  assert (∀ v Σ', (if n =? 0 then v = -3 ∧ Σ' = Σ else v = 1 ∧ Σ' = delete m Σ) → after Σ (FreeMemoryBlock block) v Σ') as Hafter.
  { intros v Σ' Hv. cbn [after]. destruct (Z.eqb_spec block 0); [done|]. eauto. }
  destruct (Z.eqb_spec n 0) as [->|Hn]; [by apply spec_ret, Hafter|]. destruct Hmem as [|[Hn' Hmem]]; [done|].
  rewrite layout_array_small by lia. apply spec_bind. eapply spec_dealloc; [done|set_solver|]. by apply spec_ret, Hafter.
Qed.

(** ** Calls on pools *)

Lemma same_pool (p p' : Pool.Pool) (ts ts' : list (PoolReceive.task PoolReceive.into_queue)) k :
  kind_of (cell_of ((p, ts) : Running)) = k → Pool.receive_buffer_len p' = Pool.receive_buffer_len p →
  length ts' = length ts → kind_of (cell_of ((p', ts') : Running)) = k.
Proof. intros <- Hp Hts. cbn. by rewrite Hp, Hts. Qed.

(** The pool that is written back has the kind of the one that was read. *)
Local Ltac kept lem :=
  match goal with
  | E : _ = _ |- kind_of _ = _ => apply lem in E; eapply same_pool; [eassumption|exact E|done]
  end.

Lemma pool_state_calls_safe Σ c :
  match c with
  | PoolCreate _ _ _ | PoolDestroy _ | PoolCreateServer _ _ _ _ _ | PoolConfigureChannel _ _ _ _
  | PoolSetIdentity _ _ _ _ _ | PoolUpdateServers _ _ | PoolRegisterCallbacks _ _ _ | PoolSendTo _ _ _ _ _ _ _ => safe Σ c
  | _ => True
  end.
Proof.
  destruct c; try exact I.
  - call PoolFfi.pool_create. cbn. by match goal with E : Pool.create _ _ _ = _ |- _ => rewrite (create_len _ _ _ _ E) end.
  - call PoolFfi.pool_destroy.
    + destruct Hallowed as [->|[n ?]]; [done|]. foreign_steps. cbn [after]. by destruct (Z.eqb_spec pool 0).
    + cbn [after]. by destruct (Z.eqb_spec pool 0).
  - call PoolFfi.pool_create_server; [kept create_server_len|done..].
  - call PoolFfi.pool_configure_channel; [|done..]. eapply same_pool; [eassumption| |done].
    match goal with E : Pool.pool_configure_channel ?p ?i ?ch ?c = _ |- _ =>
      pose proof (configure_len p i ch c) as Hl; by rewrite E in Hl end.
  - call PoolFfi.pool_set_identity; [|done]. eapply same_pool; [eassumption| |done].
    match goal with E : Pool.set_identity ?p ?s ?i ?ss ?o ?w = _ |- _ =>
      pose proof (set_identity_len p s i ss o w) as Hl; by rewrite E in Hl end.
  - call PoolFfi.pool_update_servers; [kept update_servers_len|done].
  - call PoolFfi.pool_register_callbacks; [|done]. eapply same_pool; [eassumption|apply register_len|done].
  - call PoolFfi.pool_send_to; [kept send_to_target_len|]. sent. done.
Qed.

Lemma pool_sender_calls_safe Σ c :
  match c with
  | PoolSenderCreate _ | PoolSenderDestroy _ | PoolSenderBuild _ _ | PoolSenderSend _ _ _ _ _ => safe Σ c
  | _ => True
  end.
Proof.
  destruct c; try exact I.
  - call PoolUnreliableSenderFfi.pool_unreliable_sender_create. done.
  - call PoolUnreliableSenderFfi.pool_unreliable_sender_destroy.
    + destruct Hallowed as [->|?]; [done|]. foreign_steps. cbn [after]. by destruct (Z.eqb_spec sender_ptr 0).
    + cbn [after]. by destruct (Z.eqb_spec sender_ptr 0).
  - call PoolUnreliableSenderFfi.pool_unreliable_sender_build. done.
  - call PoolUnreliableSenderFfi.pool_unreliable_sender_send. sent. done.
Qed.

Lemma pool_query_calls_safe Σ c :
  match c with
  | PoolGetAvailable _ _ | PoolGetServerHavingConnection _ _ | PoolGetServerHavingIdentity _ _ => safe Σ c
  | _ => True
  end.
Proof.
  destruct c; try exact I.
  - call PoolFfi.pool_get_available. all: done.
  - call PoolFfi.pool_get_server_having_connection. done.
  - call PoolFfi.pool_get_server_having_identity. done.
Qed.

Lemma pool_work_calls_safe Σ c :
  match c with PoolReceiveBlocking _ _ | PoolGetNextOutBuffer _ _ _ | Worker _ _ _ => safe Σ c | _ => True end.
Proof.
  destruct c; try exact I.
  - call PoolFfi.pool_receive_blocking; [|done].
    match goal with E : PoolReceive.run_schedule _ _ _ _ = _ |- _ => apply run_schedule_len in E as [Hl _]; [|done] end.
    eapply same_pool; [eassumption|exact Hl|done].
  - call PoolFfi.pool_get_next_out_buffer.
    all: match goal with Hk : kind_of (cell_of (?p, _)) = KPool _ _ |- _ => pose proof Hk as [= Hn _] end.
    + lia.
    + match goal with E : PoolReceive.get_next_out_buffer _ _ = _ |- _ => apply get_next_out_buffer_length in E as [_ E] end.
      by eapply same_pool.
    + match goal with E : PoolReceive.get_next_out_buffer _ _ = _ |- _ => apply get_next_out_buffer_length in E as [E _] end.
      lia.
    + done.
  - call PoolFfi.worker; [|done].
    match goal with E : PoolReceive.run_schedule _ _ _ _ = _ |- _ => apply run_schedule_len in E as [Hl Ht]; [|done] end.
    by eapply same_pool.
Qed.

Lemma pool_receive_safe Σ p : safe Σ (PoolReceive p).
Proof.
  intros [n Hp]. cbn [invoke footprint writes]. unfold PoolFfi.pool_receive. apply spec_bind.
  eapply spec_read; [done|apply _|]. intros [pool spawned] [= Hn Hs]. cbv beta iota.
  destruct spawned; [|done]. destruct (PoolReceive.receive pool) as [[pool' started] res] eqn:E.
  apply receive_len in E as (Hl & Hstarted & Hnone). apply spec_bind.
  eapply spec_write_new; [done|apply _|set_solver|]. apply spec_ret. exists n. split; [done|].
  cbn [cell_of located_Pool kind_of fst snd app]. rewrite Hl, Hn. destruct res.
  - left. split; [done|]. destruct started; [by destruct Hstarted|done].
  - right. split; [done|]. rewrite Hnone by done. by rewrite insert_id.
Qed.

Lemma pool_finish_receive_safe Σ p : safe Σ (PoolFinishReceive p).
Proof.
  intros (n & receiving & Hp). cbn [invoke footprint writes]. unfold PoolFfi.pool_finish_receive. apply spec_bind.
  eapply spec_read; [done|apply _|]. intros [pool spawned] [= Hn _]. cbv beta iota.
  destruct (PoolReceive.finish_receive pool) as [[[pool' m] count]|] eqn:E; [|apply spec_wait].
  apply finish_receive_len in E. apply spec_bind. eapply spec_write_new; [done|apply _|set_solver|].
  apply spec_ret. exists n, receiving. split; [done|]. cbn [cell_of located_Pool kind_of fst snd]. by rewrite E, Hn.
Qed.

Lemma call_safe Σ c : safe Σ c.
Proof.
  pose proof (tachyon_calls_safe Σ c). pose proof (handle_calls_safe Σ c). pose proof (pool_state_calls_safe Σ c).
  pose proof (pool_sender_calls_safe Σ c). pose proof (pool_query_calls_safe Σ c). pose proof (pool_work_calls_safe Σ c).
  destruct c; auto using allocate_safe, free_safe, pool_receive_safe, pool_finish_receive_safe.
Qed.

Lemma allocate_computes s n p b : 0 < n < 2 ^ 32 → memory s !! p = Some (CBlock b) →
  let m := allocate_bytes (dom (memory s)) n in
  invoke (AllocateMemoryBlock n p) s = Returned 1 (s <| memory := <[p := CBlock (MemoryBlock.mk m n)]>
    (if m =? 0 then memory s else <[m := CBytes Zeroed (replicate (Z.to_nat n) 0)]> (memory s)) |>).
Proof.
  intros Hn Hp m. pose proof (allocate_bytes_fresh (dom (memory s)) n) as Hf%not_elem_of_dom. fold m in Hf.
  cbn [invoke]. unfold MemoryBlockFfi.allocate_memory_block, MemoryBlockFfi.allocate. rewrite layout_array_small by lia.
  unfold mbind, F_bind, alloc_zeroed. destruct (Z.eqb_spec n 0); [lia|]. fold m.
  destruct (Z.eqb_spec m 0) as [->|]; cbv beta iota; unfold mret, F_ret, write; cbn [memory set].
  - by rewrite Hp.
  - rewrite lookup_insert_ne by congruence. by rewrite Hp.
Qed.

Lemma free_computes s n p m : 0 < n < 2 ^ 32 → p ≠ 0 → memory s !! p = Some (CBlock (MemoryBlock.mk m n)) →
  invoke (FreeMemoryBlock p) s = (dealloc m n ≫= λ _, mret 1) s.
Proof.
  intros Hn Hz Hp. cbn [invoke]. unfold MemoryBlockFfi.free_memory_block. destruct (Z.eqb_spec p 0); [done|].
  unfold mbind at 1, F_bind at 1, read. rewrite Hp. cbn [mbind option_bind of_cell located_Block].
  unfold MemoryBlockFfi.free. cbn [MemoryBlock.length MemoryBlock.memory]. destruct (Z.eqb_spec n 0); [lia|].
  by rewrite layout_array_small by lia.
Qed.

Lemma free_nothing s n p m : 0 < n < 2 ^ 32 → p ≠ 0 → memory s !! p = Some (CBlock (MemoryBlock.mk m n)) →
  memory s !! m = None → invoke (FreeMemoryBlock p) s = Undefined.
Proof.
  intros Hn Hz Hp Hm. rewrite (free_computes s n p m) by done. unfold mbind, F_bind, dealloc. by rewrite Hm.
Qed.

(** ** Receiving through pointers *)

Lemma receive_computes s p data n ret now t o b r t' rb' w' r' :
  memory s !! p = Some (CTachyon t) → memory s !! data = Some (CBytes o b) → memory s !! ret = Some (CReceiveResult r) →
  0 ≤ n ≤ len b → TachyonIo.receive_loop t (take (Z.to_nat n) b) now (world s) = Ret (t', rb', w', r') →
  Ffi.receive p data n ret now s = Returned tt (s <| world := w' |> <| memory :=
    <[ret := CReceiveResult r']> (<[data := CBytes o (rb' ++ drop (Z.to_nat n) b)]> (<[p := CTachyon t']> (memory s))) |>).
Proof.
  intros Hp Hdata Hret Hn Hloop. assert (p ≠ data ∧ p ≠ ret ∧ data ≠ ret) as (Hpd & Hpr & Hdr) by (split_and!; congruence).
  pose proof Hloop as Hl%receive_loop_length. rewrite length_take in Hl.
  unfold Ffi.receive, mbind, F_bind, read, read_slice, get_world, lift, set_world, write, write_slice.
  rewrite Hp. cbn [mbind option_bind of_cell located_Tachyon]. rewrite Hdata. destruct (Z.leb_spec n (len b)); [|lia].
  cbn [world]. rewrite Hloop. cbn [memory set]. rewrite Hp. cbn [mbind option_bind of_cell located_Tachyon memory set].
  rewrite lookup_insert_ne, Hdata by done. destruct (Z.leb_spec (len rb') (len b)); [|lia]. cbn [memory set].
  rewrite !lookup_insert_ne, Hret by done. cbn [mbind option_bind of_cell located_ReceiveResult memory set].
  rewrite !lookup_insert_ne, Hret by done. cbn [mbind option_bind of_cell located_ReceiveResult cell_of].
  rewrite splice_0. replace (length rb') with (Z.to_nat n) by lia. by destruct r'.
Qed.

(** A client that calls [receive] at the times [nows] and looks at the result and
    at its buffer after each call, as [receive_calls] does without pointers. *)
Fixpoint client_receives (p data n ret : Z) (nows : list Z) : F (list (Z * NetworkAddress.NetworkAddress * bytes)) :=
  match nows with
  | [] => mret []
  | now :: nows' =>
      invoke (Receive p data n ret now);;
      res ← read TachyonReceiveResult.TachyonReceiveResult ret;
      rb ← read_slice data n;
      let got := if 0 <? TachyonReceiveResult.length res
                 then [(TachyonReceiveResult.channel res, TachyonReceiveResult.address res,
                        firstn (Z.to_nat (TachyonReceiveResult.length res)) rb)]
                 else [] in
      rest ← client_receives p data n ret nows';
      mret (got ++ rest)
  end.

(** ** Properties *)

(** C11: a client that keeps to the protocol never makes the library undefined.
    Whatever the state behind its pointers is, an allowed call does not read
    through a null or dangling pointer, past the end of a buffer or at another
    type, and frees nothing twice; when it returns, the kinds of all cells are
    those that the protocol says, and no cell has changed but those behind the
    pointers that the call was given to write through. *)
Theorem foreign_calls_are_defined s c :
  allowed (env s) c →
  invoke c s ≠ Undefined ∧
  ∀ v s', invoke c s = Returned v s' → after (env s) c v (env s') ∧ unchanged (footprint (env s) c) s s'.
Proof.
  intros Hc. pose proof (call_safe (env s) c Hc s eq_refl) as Hs. split.
  - intros E. by rewrite E in Hs.
  - intros v s' E. by rewrite E in Hs.
Qed.

(** C34: handles do not share state.  However long a client works with other
    handles, a [Tachyon], a pool, a sender or a struct of the client that no call
    was given to write through is what it was. *)
Theorem other_handles_are_left_alone s cs s' p k :
  calls s cs s' → (∀ c, c ∈ cs → p ∉ writes c) → env s !! p = Some k → (∀ n, k ≠ KBytes Zeroed n) →
  memory s' !! p = memory s !! p.
Proof.
  intros Hcs Hp Hk Hz. induction Hcs as [s|s c v s1 cs s2 Hc E _ IH]; [done|].
  pose proof (call_safe (env s) c Hc s eq_refl) as Hs. rewrite E in Hs. destruct Hs as [_ Hu].
  assert (memory s1 !! p = memory s !! p) as E1.
  { apply Hu; [|apply env_lookup in Hk as (x & -> & _); by eexists].
    assert (p ∉ writes c) as Hw by (apply Hp; set_solver). destruct c; try exact Hw.
    cbn [footprint allowed] in *. destruct (env s !! block_ptr) as [[]|] eqn:Eb; try set_solver.
    destruct Hc as [->|(m & n & [= -> ->] & Hn)]; [set_solver|]. destruct (Z.eqb_spec n 0); [rewrite orb_true_r; set_solver|].
    destruct Hn as [|[_ Hm]]; [done|]. destruct (block_ptr =? 0); [set_solver|].
    intros ->%list_elem_of_singleton. rewrite Hk in Hm. injection Hm as ->. by eapply Hz. }
  rewrite IH; [done|set_solver|]. by rewrite <-Hk; unfold env; rewrite !lookup_fmap, E1.
Qed.

(** C35: a memory block lives once.  With memory for it, allocating returns 1 and
    a block of zeros of the length that was asked for; whatever the client writes
    there, freeing it returns 1 and leaves the memory as it was but for the
    client's own struct, which still names the block: freeing it again is
    undefined.  Without memory allocating returns 1 as well, with a null block
    that cannot be freed. *)
Theorem memory_block_lives_once s n p m0 n0 :
  0 < n < 2 ^ 32 → p ≠ 0 → memory s !! p = Some (CBlock (MemoryBlock.mk m0 n0)) → memory s !! 0 = None →
  let m := allocate_bytes (dom (memory s)) n in
  ∃ s1, invoke (AllocateMemoryBlock n p) s = Returned 1 s1 ∧
    (m = 0 → memory s1 = <[p := CBlock (MemoryBlock.mk 0 n)]> (memory s) ∧ invoke (FreeMemoryBlock p) s1 = Undefined) ∧
    (m ≠ 0 →
      memory s1 = <[p := CBlock (MemoryBlock.mk m n)]> (<[m := CBytes Zeroed (replicate (Z.to_nat n) 0)]> (memory s)) ∧
      ∀ b s2, len b = n → memory s2 = <[m := CBytes Zeroed b]> (memory s1) →
        ∃ s3, invoke (FreeMemoryBlock p) s2 = Returned 1 s3 ∧
          memory s3 = <[p := CBlock (MemoryBlock.mk m n)]> (memory s) ∧
          invoke (FreeMemoryBlock p) s3 = Undefined).
Proof.
  intros Hn Hz Hp Hnull m. pose proof (allocate_bytes_fresh (dom (memory s)) n) as Hf%not_elem_of_dom. fold m in Hf.
  eexists. split; [by eapply allocate_computes|]. fold m. cbn [memory set]. split; intros Hm.
  - rewrite Hm, Z.eqb_refl. split; [done|]. apply (free_nothing _ n p 0); [done|done|apply lookup_insert_eq|].
    cbn [memory set]. by rewrite lookup_insert_ne.
  - destruct (Z.eqb_spec m 0); [done|]. split; [done|]. intros b s2 Hb Hs2.
    assert (m ≠ p) as Hmp by congruence.
    assert (memory s2 !! p = Some (CBlock (MemoryBlock.mk m n))) as Hblock.
    { rewrite Hs2, lookup_insert_ne by done. apply lookup_insert_eq. }
    assert (delete m (memory s2) = <[p := CBlock (MemoryBlock.mk m n)]> (memory s)) as Hdel.
    { rewrite Hs2, delete_insert_eq, delete_insert_ne by done. by rewrite delete_insert_eq, delete_id. }
    exists (s2 <| memory := delete m (memory s2) |>). split; [|split; [done|]].
    + rewrite (free_computes s2 n p m) by done. unfold mbind, F_bind, dealloc.
      by rewrite Hs2, lookup_insert_eq, Hb, Z.eqb_refl.
    + apply (free_nothing _ n p m); [done|done|..]; cbn [memory set]; rewrite ?Hdel.
      * apply lookup_insert_eq.
      * by rewrite lookup_insert_ne.
Qed.

(** C27: receiving through pointers is receiving.  For a client that calls
    [receive] again and again on the [Tachyon] behind its pointer and reads the
    out parameter and its buffer after each call, the messages are exactly those
    that [receive_loop] returns to a caller that has the [Tachyon] and the buffer
    itself, and the [Tachyon] behind the pointer ends in the same state. *)
Theorem foreign_receives_are_receives nows s p data n ret t o b r t' rb' w' got :
  memory s !! p = Some (CTachyon t) → memory s !! data = Some (CBytes o b) → memory s !! ret = Some (CReceiveResult r) →
  0 ≤ n ≤ len b → receive_calls nows t (take (Z.to_nat n) b) (world s) = Ret (t', rb', w', got) →
  ∃ s', client_receives p data n ret nows s = Returned got s' ∧ memory s' !! p = Some (CTachyon t') ∧ world s' = w' ∧
    memory s' !! data = Some (CBytes o (rb' ++ drop (Z.to_nat n) b)).
Proof.
  revert s t b r t' rb' w' got.
  induction nows as [|now nows IH]; intros s t b r t' rb' w' got Hp Hdata Hret Hn; cbn [receive_calls client_receives].
  - intros [= <- <- <- <-]. exists s. by rewrite take_drop.
  - intros ([[[t1 rb1] w1] res] & Hloop & ([[[t2 rb2] w2] rest] & Hrest & [= <- <- <- <-])%bind_Ret)%bind_Ret.
    assert (p ≠ data ∧ p ≠ ret ∧ data ≠ ret) as (Hpd & Hpr & Hdr) by (split_and!; congruence).
    pose proof Hloop as Hl%receive_loop_length. rewrite length_take in Hl.
    set (s1 := s <| world := w1 |> <| memory := <[ret := CReceiveResult res]>
      (<[data := CBytes o (rb1 ++ drop (Z.to_nat n) b)]> (<[p := CTachyon t1]> (memory s))) |>).
    assert (invoke (Receive p data n ret now) s = Returned 0 s1) as Hcall.
    { cbn [invoke]. unfold void, mbind, F_bind. by rewrite (receive_computes s p data n ret now t o b r t1 rb1 w1 res). }
    assert (memory s1 !! ret = Some (CReceiveResult res)) as Hret1 by apply lookup_insert_eq.
    assert (memory s1 !! data = Some (CBytes o (rb1 ++ drop (Z.to_nat n) b))) as Hdata1.
    { cbn [s1 memory set]. by rewrite lookup_insert_ne, lookup_insert_eq. }
    assert (memory s1 !! p = Some (CTachyon t1)) as Hp1.
    { cbn [s1 memory set]. by rewrite !lookup_insert_ne, lookup_insert_eq by done. }
    assert (take (Z.to_nat n) (rb1 ++ drop (Z.to_nat n) b) = rb1) as Htake by (apply take_app_length'; lia).
    assert (0 ≤ n ≤ len (rb1 ++ drop (Z.to_nat n) b)) as Hn1 by (rewrite length_app, length_drop; lia).
    destruct (IH s1 t1 _ res t2 rb2 w2 rest Hp1 Hdata1 Hret1 Hn1) as (s2 & Hrun & Hp2 & Hw2 & Hdata2); [by rewrite Htake|].
    exists s2. unfold mret, F_ret, mbind, F_bind, read, read_slice in *. rewrite Hcall, Hret1.
    cbn [mbind option_bind of_cell located_ReceiveResult]. rewrite Hdata1.
    destruct (Z.leb_spec n (len (rb1 ++ drop (Z.to_nat n) b))); [|lia]. rewrite Hrun, Htake.
    split; [done|]. split; [done|]. split; [done|]. rewrite Hdata2. do 2 f_equal. rewrite drop_app_length'; [done|lia].
Qed.
End safety.
