(* ===== verification/foreign_examples.v ===== *)
(** The theorems on the foreign interface at concrete inputs. *)

From S2P Require Import prelude network_address int_buffer header nack leb128 send_result tachyon_socket unreliable_sender.
From S2P Require Import trace_os channel connection tachyon_state connection_impl tachyon channel_sending tachyon_delivery.
From S2P Require Import tachyon_examples pool_state pool_receive pool_examples foreign memory_block ffi pool_ffi.
From S2P Require Import foreign_logic foreign_calls foreign_safety.

Import NetworkAddress Tachyon Foreign.

(** An allocator that goes upwards and never runs out. *)
Definition above (used : gset Z) : Z := foldr Z.max 0 (elements used) + 1.

Lemma above_fresh used : above used ∉ used.
Proof.
  intros Hin%elem_of_elements. unfold above in Hin. revert Hin. generalize (elements used) as l. intros l.
  assert (∀ x, x ∈ l → x ≤ foldr Z.max 0 l) as Hmax; [|intros Hin%Hmax; lia].
  induction l as [|y l IH]; intros x; [by intros ?%elem_of_nil|].
  intros [->|Hx%IH]%elem_of_cons; simpl; lia.
Qed.

#[export] Instance upwards : Allocator := {| allocate_box := above; allocate_bytes used _ := above used |}.

#[export] Instance upwards_laws : AllocatorLaws upwards.
Proof. split; intros; apply above_fresh. Qed.

(** A server with a short receive buffer, and a datagram for it. *)
Definition foreign_server : Tachyon := example_server <| socket_receive_buffer := replicate 64 0 |>.

Definition foreign_inbox : World :=
  mk_trace [(reliable_datagram 1 1 [104; 105], to_socket_addr client_address)] [].

(** The memory of a client: two [Tachyon]s, a buffer, a result, the structs that
    [tachyon_get_config] fills, and an empty block. *)
Definition example_process : Process :=
  mk_process {[ 16 := CTachyon foreign_server; 24 := CTachyon small_server; 32 := CBytes Client (replicate 20 7);
                40 := CReceiveResult TachyonReceiveResult.default; 48 := CTachyonConfig TachyonConfig.default;
                56 := CIdentity Identity.default; 64 := CBlock (MemoryBlock.mk 0 0) ]} [] foreign_inbox.

Lemma foreign_calls_are_defined_witness :
  invoke (Receive 16 32 20 40 3) example_process ≠ Undefined ∧
  ∀ v s', invoke (Receive 16 32 20 40 3) example_process = Returned v s' →
    after (env example_process) (Receive 16 32 20 40 3) v (env s') ∧
    unchanged (footprint (env example_process) (Receive 16 32 20 40 3)) example_process s'.
Proof.
  apply (foreign_calls_are_defined example_process (Receive 16 32 20 40 3)).
  split; [reflexivity|]. split; [|reflexivity]. exists Client, 20. split; [reflexivity|lia].
Defined.

(** Asking one [Tachyon] for its configuration leaves the other alone. *)
Lemma other_handles_are_left_alone_witness :
  ∃ s', calls example_process [GetConfig 24 48 56; TachyonUpdate 24 5] s' ∧ memory s' !! 16 = memory example_process !! 16.
Proof.
  assert (∃ s', calls example_process [GetConfig 24 48 56; TachyonUpdate 24 5] s') as [s' Hcalls].
  { eexists. eapply calls_cons; [split_and!; reflexivity|reflexivity|].
    eapply calls_cons; [reflexivity|reflexivity|]. apply calls_nil. }
  exists s'. split; [exact Hcalls|].
  apply (other_handles_are_left_alone example_process [GetConfig 24 48 56; TachyonUpdate 24 5] s' 16 KTachyon Hcalls).
  - intros c Hc. repeat (apply elem_of_cons in Hc as [->|Hc]); [cbn [writes]; set_solver..|by apply elem_of_nil in Hc].
  - reflexivity.
  - done.
Defined.

Lemma memory_block_lives_once_witness :
  let m := allocate_bytes (dom (memory example_process)) 100 in
  ∃ s1, invoke (AllocateMemoryBlock 100 64) example_process = Returned 1 s1 ∧
    (m = 0 → memory s1 = <[64 := CBlock (MemoryBlock.mk 0 100)]> (memory example_process) ∧
      invoke (FreeMemoryBlock 64) s1 = Undefined) ∧
    (m ≠ 0 →
      memory s1 = <[64 := CBlock (MemoryBlock.mk m 100)]> (<[m := CBytes Zeroed (replicate (Z.to_nat 100) 0)]> (memory example_process)) ∧
      ∀ b s2, len b = 100 → memory s2 = <[m := CBytes Zeroed b]> (memory s1) →
        ∃ s3, invoke (FreeMemoryBlock 64) s2 = Returned 1 s3 ∧
          memory s3 = <[64 := CBlock (MemoryBlock.mk m 100)]> (memory example_process) ∧
          invoke (FreeMemoryBlock 64) s3 = Undefined).
Proof.
  apply (memory_block_lives_once example_process 100 64 0 0); [lia|lia|reflexivity|reflexivity].
Defined.

Lemma example_received :
  ∃ t' rb' w', receive_calls [3; 4] foreign_server (take (Z.to_nat 16) (replicate 20 7)) (world example_process) =
    Ret (t', rb', w', [(1, client_address, [104; 105])]).
Proof.
  assert (match receive_calls [3; 4] foreign_server (take (Z.to_nat 16) (replicate 20 7)) (world example_process) with
          | Ret (_, _, _, got) => got | Panic _ => [] end = [(1, client_address, [104; 105])]) as Hgot
    by (vm_compute; reflexivity).
  destruct (receive_calls _ _ _ _) as [[[[t' rb'] w'] got]|]; [|discriminate]. exists t', rb', w'. by rewrite Hgot.
Qed.

Lemma foreign_receives_are_receives_witness :
  ∃ s', client_receives 16 32 16 40 [3; 4] example_process = Returned [(1, client_address, [104; 105])] s'.
Proof.
  destruct example_received as (t' & rb' & w' & E).
  destruct (foreign_receives_are_receives [3; 4] example_process 16 32 16 40 foreign_server Client (replicate 20 7)
    TachyonReceiveResult.default t' rb' w' _ eq_refl eq_refl eq_refl ltac:(simpl; lia) E) as (s' & Hrun & _).
  exists s'. exact Hrun.
Defined.
